(* ===== verification/_CoqProject ===== *)
-Q . S2P
Prelude.v
AsyncProg.v
Bytes.v
SagaIdentity.v
SagaState.v
SagaDefinition.v
SagaPlan.v
SagaEnvelope.v
SagaStore.v
SagaAdminStore.v
SagaRegistry.v
SagaOrchestrator.v
SagaStart.v
SagaStartDigest.v
SagaManagement.v
SagaProjection.v
SagaSafety.v
SagaAdmin.v
SagaEnds.v
SagaRecovery.v
SagaHistory.v
SagaLife.v
SagaQuota.v
SagaScenario.v
SagaLifeScenario.v
SagaGate.v
SagaParticipant.v
SagaParticipantRules.v
SagaParticipantRefinement.v
SagaParticipantSafety.v
SagaParticipantAnswers.v
SagaParticipantScenario.v
SagaConversation.v
SagaConversationScenario.v
KafkaOffset.v
KafkaAck.v
OutboxCore.v
OutboxStore.v
OutboxRetention.v
OutboxRelay.v
OutboxSafety.v
OutboxRounds.v
OutboxAlone.v
OutboxGuarantees.v
OutboxScenario.v
Idempotency.v
IdempotencyPg.v
IdempotencyRedis.v
IdempotencyLayer.v
IdempotencySafety.v
IdempotencyGuarantees.v
IdempotencyBackends.v
IdempotencyScenario.v
Wire.v
WireLaws.v
WireSchema.v
WireCodec.v
WireMessage.v
WireFrame.v
WireGuarantees.v
WireScenario.v
KafkaEvidence.v
KafkaEvidenceLaws.v
KafkaEvidenceGuarantees.v
HystrixWindow.v
HystrixWindowLaws.v
HystrixManaged.v
HystrixManagedLaws.v
HystrixCommand.v
HystrixCommandLaws.v
HystrixGuarantees.v
HystrixScenario.v
