(* ===== verification/Prelude.v ===== *)
(** * Verification of the nasa-runtime saga engine, outbox, idempotent requests,
    isolated commands, wire protocol and Kafka consumer core

    The repository is a Rust runtime of many crates.  This library models the
    parts that carry its own consistency logic, definition by definition, and
    proves what makes them correct.

    ** The program

    A saga is a long transaction over several services.  The crate
    [nasaga-core] fixes the vocabulary: identities, the status machine, the
    workflow definitions with their content digest, and the compensation plan
    frozen from the step journal.  [nasaga-runtime-core] runs sagas: the
    orchestrator starts an instance, sends commands through an outbox, takes
    results through an inbox, judges durable timers, and obeys management
    actions; a registry holds the definitions it may drive.  Everything it
    decides is one local transaction of [nasaga-pgsql] on the rows of the saga
    (instance, steps, attempts, timers, transition log, conflict facts, control
    log, management audit), with the outbox and inbox of [naoutbox-pgsql] and
    [nainbox-pgsql].  A participant executes, cancels, compensates and resolves
    its steps behind a gate, one row per saga and step, in one transaction with
    its business tables, its inbox and the outbox of its results; [nasaga-macro]
    generates the dispatch of commands to it.  What either side sends lies in
    the outbox until a relay of [naoutbox-pgsql] has published it: relays compete
    for a lane by a lease with a fencing token, publish in id order, confirm what
    was accepted and count what was refused, and a retention worker archives and
    deletes what is settled; [naoutbox-core] has the contract and an in-process
    outbox.  [nafka] consumes Kafka partitions: handler threads acknowledge
    records, and the owner commits offsets below which every record is safely
    done; a record it gives up on goes to a dead letter topic with headers that
    say where it came from.  Long connections of [naws] exchange frames whose
    payloads are structs of [naws-proto], written and read by code that the macro
    [naws-proto-derive] generates from their declarations.  On the web side a middleware of [napp] makes requests idempotent: it
    gives a request a key and a fingerprint, claims the key in a store, runs the
    handler if it may, and records or replays the response; [naidempotency] has
    the contract of the store and an in-process one, [naidempotency-pgsql] and
    [naidempotency-redis] the others.  Commands of [hystrix] guard handlers with a
    limit on concurrent calls, a timeout, fallbacks and rolling statistics, and a
    managed generation of them is shut down as a whole.

    ** The files

    - [Prelude], [Bytes]: Rust results with [?], machine integers with their
      checked and saturating operations, strings as their UTF-8 bytes, shared
      list lemmas, the tactics and the hint database.
    - [AsyncProg]: asynchronous functions as programs [Prog] of awaits, the rules
      [safely] for programs others interfere with, and pools of such programs.
    - [SagaIdentity] ([nasaga-core]: error.rs, identity.rs, payload.rs,
      context.rs), [SagaState] (state.rs, journal.rs, outcome.rs),
      [SagaDefinition] (definition.rs), [SagaPlan] (plan.rs).
    - [SagaEnvelope] ([nasaga-runtime-core]: envelope.rs, timers.rs): command
      and result envelopes and the identities of timers.
    - [SagaStore], [SagaAdminStore] ([nasaga-pgsql]: instance.rs,
      stepjournal.rs, timer.rs, audit.rs and the reservation and release of
      quota.rs, with the contracts of [nasaga-backend]): the statements as
      transactions [Tx] on [Db], the rows of one saga and the quota ledger; an
      error discards every change.
    - [SagaRegistry] (registry.rs): definitions, tenant scopes, startup precheck.
    - [SagaOrchestrator], [SagaStart], [SagaManagement] (orchestrator.rs,
      management.rs, and [run_authorized_for] of transaction.rs): result
      handling, timers and progress; creation; pause, resume, recovery, manual
      close, authenticated results, a worker round.
    - [SagaQuota] (quota.rs, action_rate.rs of [nasaga-pgsql]): reconciling and
      reading the ledger of running sagas, the ledger of management actions, and
      fleets of sagas that share them.
    - [SagaGate] ([nasaga-pgsql]: participant.rs), [SagaParticipant]
      ([nasaga-runtime-core]: participant.rs, and the dispatch of
      [nasaga-macro]): the step gate and the participant runtime, over the
      tables [PDb] of one participant.
    - [SagaParticipantRules] (the abstract gate protocol),
      [SagaParticipantRefinement], [SagaParticipantSafety],
      [SagaParticipantAnswers]: the theorems about participants;
      [SagaConversation]: the orchestrator and its participants together.
      [SagaParticipantScenario], [SagaConversationScenario] evaluate them.
    - [SagaStartDigest], [SagaProjection], [SagaSafety], [SagaAdmin],
      [SagaEnds], [SagaRecovery], [SagaHistory], [SagaLife]: the theorems about
      them; [SagaScenario], [SagaLifeScenario]: sagas run inside Rocq, on which
      the theorems are instantiated.
    - [KafkaOffset] (offset_state.rs) and [KafkaAck] (ack.rs) of [nafka].
    - [KafkaEvidence] ([nafka]: types.rs, wire.rs, dlt_replay/): the headers of
      dead letters, written, attached to and read; [KafkaEvidenceLaws],
      [KafkaEvidenceGuarantees]: what they guarantee.
    - [Wire] ([naws-proto]: io.rs), [WireSchema] ([naws-proto-derive]: the macro as a
      function of the declared struct; schema.rs: the structs), [WireMessage]
      (message_ref.rs: the encoder of borrowed messages), [WireFrame] ([naws]:
      wire.rs); [WireLaws], [WireCodec]: readers and writers on any surrounding
      bytes; [WireGuarantees]: the theorems; [WireScenario]: instances.
    - [OutboxCore] ([naoutbox-core]), [OutboxStore], [OutboxRetention],
      [OutboxRelay] ([naoutbox-pgsql]: lib.rs, retention.rs): the transactions on
      the tables [OutboxDb], and the dispatch and retention rounds as programs
      that everything else may interrupt at every await.  [OutboxSafety]
      and [OutboxRounds]: the invariant and the rules that carry it through
      interleaved rounds; [OutboxAlone]: a round on its own; [OutboxGuarantees]:
      the theorems; [OutboxScenario]: a run.
    - [Idempotency] ([naidempotency]: the trait as the class [Backend], its
      contracts, the in-process store), [IdempotencyPg]
      ([naidempotency-pgsql]), [IdempotencyRedis] ([naidempotency-redis]): each
      store is shown to keep the contract; [IdempotencyLayer]
      ([napp]: idempotency.rs): the middleware, over any store.
      [IdempotencySafety]: requests side by side and their invariant;
      [IdempotencyGuarantees], [IdempotencyBackends]: the theorems, against the
      contracts and on each store; [IdempotencyScenario]: runs.

    - [HystrixWindow], [HystrixCommand], [HystrixManaged] ([hystrix]: lib.rs,
      fallback.rs, managed.rs): the statistics, a call of [run_fn] as a thread
      [run_step], and the owner of a generation as the system [internal] and
      [external], over any kind of call.  [HystrixWindowLaws],
      [HystrixCommandLaws], [HystrixManagedLaws]: their invariants;
      [HystrixGuarantees]: the theorems; [HystrixScenario]: runs.

    ** The theorems

    The interface between store and handlers is the class [StoreKeeps] of
    [SagaSafety]: a relation on [Db] that every statement keeps, patches of the
    step journal as far as a predicate admits them ([StoreClosed] admits all).
    Every handler keeps it too, so one proof per statement gives a theorem about
    all of them.
    [SagaHistory] puts the handlers together as the step relation [commits],
    with any inputs in any order and other sagas moving the quota ledger in
    between, and its reflexive transitive closure is what a history is;
    [SagaLife] starts histories from no rows, and the fleets of [SagaQuota] run
    many sagas on one ledger.

    - Composition: in every state an orchestrator and its participants reach
      together, a [COMPLETED] saga has every step of its definition succeeded at
      the participants' gates; without resolution polling, a saga declared
      [COMPENSATED] has every step it reached rejected, cancelled, or succeeded
      and undone there.  With polling this fails, and a run shows it.
    - Participants: a runtime implements the abstract gate protocol; a step
      executes at most once, its answers never contradict each other, a
      compensation undoes a success and does so once, a redelivered command is
      absorbed, and every honest command is answered ([honest] of
      [SagaParticipantAnswers] lists what that takes).
    - Refinement: every history is a run of the status machine of
      [check_transition] with a log that numbers it; a worker round that fails
      halfway is a history.
    - Evidence: [COMPLETED] and [COMPENSATED] are declared on complete journal
      evidence and stay true; logs, settled attempts, inbox and outbox only
      grow; merging a late result never loses a settled fact.
    - Once only: a result, a timer, a start and a management operation take
      effect once, and repeating one changes nothing and says so, unless the
      caller's authority fails first; commands are paid for by logged transitions; an ended or
      paused saga is left alone.
    - Management: every committed action is permitted and targeted, and either
      repeats an operation the log already holds or is recorded in it; a saga is
      closed by hand only under audit, and on PostgreSQL not at all, since its
      driver refuses the guard.
    - Identities and digests: canonical encodings are injective, so a digest
      pins a definition, a plan, a start request; derived identities differ
      when what they identify differs.
    - Types and bounds: every reachable state has distinct keys, no row without
      an instance, and logs that end in the status, version, control state and
      control version of the instance; a reconciled quota ledger counts a
      tenant's running sagas exactly, and a tenant has at most its cap of them,
      or what it had when that was more; management actions are bounded per
      window.
    - Outbox: in every interleaving of applications, relays and retention
      workers no event is lost, rows are settled on evidence, a relay that was
      replaced changes nothing, the ledger of a capped tenant other than the
      system tenant is exact (that of the system tenant is not); an undisturbed round is exact, and rounds
      against an accepting publisher drain the outbox in order.
    - Idempotent requests: in every interleaving of requests, cancellations and
      store failures each answer has its reason; a recorded response is final;
      a key is executed once in process and at most once per lease on PostgreSQL;
      Redis never replays one key's response for another; a replay repeats what
      was recorded.  A principal without a tenant is refused by PostgreSQL.
    - Commands: in every interleaving of calls, timeouts and dropped calls the
      handlers that run at once stay within the limit and every call is accounted
      once; the window shows the last ten seconds exactly; the end of a managed
      generation is published after its last call and is always reached.
    - Wire: what any struct the macro accepts writes reads back, also by another
      version of the struct; whatever bytes arrive, decoding ends and accepts only
      what is within the limits; the borrowed encoder agrees with the derived one
      byte by byte and in its advance lengths; frames are cut from a stream as
      they were sent, however it is divided.
    - Dead letters: whatever headers a record carried, its dead letter reads back
      as the evidence of this failure as long as it keeps to the reader's limits,
      and is refused beyond them; evidence that is read is unambiguous.
    - Kafka: no offset is committed past an unsafe record, a commit round
      completes, and in every interleaving of handler threads, owner and
      revocations only valid acknowledgements count, without waiting.

    ** Parameters

    Code outside the repository is a parameter.  [Runtime] collects UUIDv5, the
    text of a UUID, SHA-256, serde_json's two directions and what sqlx makes of
    the answer of a SELECT EXISTS read as an [i64] (PostgreSQL's driver refuses
    it, and so do the instances of the witnesses); the classes
    [Sha256] and [UuidV5] state what injectivity theorems need of the hashes,
    and are instantiated by collision-free functions in the witnesses.  Other
    arguments stand for what a transaction sees from outside: [picked] (which
    due timers a claim locks first under SKIP LOCKED), [lt] (the database's
    order on ids), [others] (the rows of other sagas), [elapsed] (readings of
    the monotonic clock), [Authority] (what the caller's authority answers at
    each poll of a transaction, inside it and before its commit), the admission
    of a payload by the outbox, and the verdict of the rate ledger.  The
    business handlers of a participant, their decoders and their tables [Biz]
    are parameters too.  A theorem holds for every value of them.  In the outbox
    the clock, the rows others hold locked, the publisher, the archive, timeouts
    and lost acknowledgements are the nondeterminism of the step relation; that
    an accepted event has arrived and that a receipt names an archived event is
    what the two traits document.  For idempotent requests serde_json on headers
    ([HeaderJson]), the texts of [http] ([HttpText]) and SHA-256 ([Digest32]) are
    classes; that a drawn lease is a new one is a rule of the step relation, and
    collisions of SHA-256 are named in the conclusions.  The buffers of the crate
    bytes ([BufMut], [BytesMut]) and the JSON mode of the wire protocol
    ([SerdeJson]) are classes with their laws.  For commands the handlers, the
    fallback functions, the number of permits tokio allows and the rank of a
    percentile are parameters; the executor may destroy a task at any await.

    ** Fuel

    Only the startup scan has fuel: one round more than the table has rows,
    since every full page moves the cursor past at least one row; the scan is
    proved to end within it.  The loop of a retention round ends at its deadline,
    and how often it finds time left is an argument.  A varint of 64 bits has at
    most ten bytes, a decimal of 64 bits at most twenty digits, and both loops are
    proved not to need more; the decoder of a struct takes as many turns as there
    are bytes, which [decoding_ends] proves to be enough.  All other loops are
    structural, and the retry
    loop of an acknowledgement is proved to end within seven atomic actions.

    ** Not modelled

    Trace receipts, logging, metrics and latency guards, which change no row;
    the MySQL dialect of the same statements; readers of audit trails and
    listings; transports and the dynamic catalog of definitions; connection handling and the ambient transaction itself, whose
    atomicity [Tx] states.  The rest of the repository (application
    assembly, web, gRPC, Redis, discovery, macros, caches, secrets) is listed
    in the manifest with the reason.  Of the middleware, the rendering of a
    problem as a response and the warning of the lease guard are left out; its
    stores are used outside a transaction, as the middleware does.  Of the long
    connections only bytes are modelled, not sockets and registries; of commands
    neither their routing nor their log lines and dashboard JSON. *)

From Stdlib Require Import ZArith Lia.
From stdpp Require Import prelude strings gmap.

Local Open Scope Z_scope.

(** ** Rust results

    [Result<T, E>] with the two constructors of the language, and the [?]
    operator as a notation: [let? x := c in k] returns early with the error
    of [c]. *)

Inductive result (T E : Type) : Type :=
| Ok (t : T)
| Err (e : E).

Arguments Ok {T E} t.
Arguments Err {T E} e.

#[global] Instance result_eq_dec {T E} `{EqDecision T, EqDecision E} : EqDecision (result T E).
Proof. solve_decision. Defined.

Definition result_bind {T U E : Type} (c : result T E) (k : T → result U E) : result U E :=
  match c with
  | Ok t => k t
  | Err e => Err e
  end.

Definition result_map {T U E : Type} (f : T → U) (c : result T E) : result U E :=
  match c with
  | Ok t => Ok (f t)
  | Err e => Err e
  end.

Definition map_err {T E F : Type} (f : E → F) (c : result T E) : result T F :=
  match c with
  | Ok t => Ok t
  | Err e => Err (f e)
  end.

Definition ok_or {T E : Type} (o : option T) (e : E) : result T E :=
  match o with
  | Some t => Ok t
  | None => Err e
  end.

Definition is_ok {T E : Type} (c : result T E) : bool :=
  match c with Ok _ => true | Err _ => false end.

Declare Scope rust_scope.
Delimit Scope rust_scope with rust.

Notation "'let?' x ':=' c 'in' k" :=
  (result_bind c (fun x => k))
  (at level 10, x pattern, c at level 100, k at level 200) : rust_scope.

Notation "'try?' c 'in' k" :=
  (result_bind c (fun _ => k))
  (at level 10, c at level 100, k at level 200) : rust_scope.

Notation "'ensure' b 'else' e 'in' k" :=
  (if b then k else Err e)
  (at level 10, b at level 100, e at level 100, k at level 200) : rust_scope.

Lemma result_bind_Ok {T U E} (c : result T E) (k : T → result U E) u :
  result_bind c k = Ok u ↔ ∃ t, c = Ok t ∧ k t = Ok u.
Proof. destruct c; naive_solver. Qed.

Lemma result_bind_Err {T U E} (c : result T E) (k : T → result U E) e :
  result_bind c k = Err e ↔ c = Err e ∨ ∃ t, c = Ok t ∧ k t = Err e.
Proof. destruct c; naive_solver. Qed.

Lemma ok_or_Ok {T E} (o : option T) (e : E) t : ok_or o e = Ok t ↔ o = Some t.
Proof. destruct o; naive_solver. Qed.

Lemma ok_or_Err {T E} (o : option T) (e e' : E) : ok_or o e = Err e' ↔ o = None ∧ e' = e.
Proof. destruct o; naive_solver. Qed.

Lemma result_map_Ok {T U E} (f : T → U) (c : result T E) u :
  result_map f c = Ok u ↔ ∃ t, c = Ok t ∧ u = f t.
Proof. destruct c; naive_solver. Qed.

(** ** Transactions over a state

    A transaction reads and writes a state and may fail; what it wrote before
    it fails is gone. *)

Definition St (E S A : Type) : Type := S → result (A * S) E.

Definition st_ret {E S A} (x : A) : St E S A := λ s, Ok (x, s).
Definition st_fail {E S A} (e : E) : St E S A := λ _, Err e.
Definition st_bind {E S A B} (c : St E S A) (k : A → St E S B) : St E S B :=
  λ s, match c s with Ok (x, s') => k x s' | Err e => Err e end.
Definition st_lift {E S A} (r : result A E) : St E S A :=
  λ s, match r with Ok x => Ok (x, s) | Err e => Err e end.
Definition st_get {E S A} (f : S → A) : St E S A := λ s, Ok (f s, s).
Definition st_modify {E S} (f : S → S) : St E S unit := λ s, Ok (tt, f s).

Notation "'run!' x := c 'in' k" := (st_bind c (λ x, k))
  (at level 10, x name, c at level 100, k at level 200) : rust_scope.
Notation "'then!' c 'in' k" := (st_bind c (λ _, k))
  (at level 10, c at level 100, k at level 200) : rust_scope.
Notation "'demand!' b 'else' e 'in' k" := (if b then k else st_fail e)
  (at level 10, b at level 100, e at level 100, k at level 200) : rust_scope.

Lemma st_bind_Ok {E S A B} (c : St E S A) (k : A → St E S B) s y s' :
  st_bind c k s = Ok (y, s') ↔ ∃ x s1, c s = Ok (x, s1) ∧ k x s1 = Ok (y, s').
Proof. unfold st_bind. destruct (c s) as [[x s1]|e]; naive_solver. Qed.

Lemma st_lift_Ok {E S A} (r : result A E) (s : S) x s' :
  st_lift r s = Ok (x, s') ↔ r = Ok x ∧ s' = s.
Proof. unfold st_lift. destruct r; naive_solver. Qed.

(** The transaction commits, in a state and with a value that satisfy [Q]. *)
Definition succeeds {E S A} (c : St E S A) (s : S) (Q : A → S → Prop) : Prop :=
  ∃ x s', c s = Ok (x, s') ∧ Q x s'.

Lemma succeeds_ret {E S A} (x : A) (s : S) (Q : A → S → Prop) : Q x s → succeeds (E := E) (st_ret x) s Q.
Proof. intros. by exists x, s. Qed.

Lemma succeeds_bind {E S A B} (c : St E S A) (k : A → St E S B) s (R : A → S → Prop) Q :
  succeeds c s R → (∀ x s', R x s' → succeeds (k x) s' Q) → succeeds (st_bind c k) s Q.
Proof.
  intros (x & s1 & Hc & HR) Hk. destruct (Hk x s1 HR) as (y & s2 & Hy & HQ).
  exists y, s2. unfold st_bind. by rewrite Hc.
Qed.

Lemma succeeds_lift {E S A B} (r : result A E) x (k : A → St E S B) s Q :
  r = Ok x → succeeds (k x) s Q → succeeds (st_bind (st_lift r) k) s Q.
Proof. intros -> (y & s2 & Hy & HQ). by exists y, s2. Qed.

Lemma succeeds_get {E S A B} (f : S → A) (k : A → St E S B) s Q :
  succeeds (k (f s)) s Q → succeeds (st_bind (st_get f) k) s Q.
Proof. done. Qed.

Lemma succeeds_modify {E S B} (f : S → S) (k : unit → St E S B) s Q :
  succeeds (k tt) (f s) Q → succeeds (st_bind (st_modify f) k) s Q.
Proof. done. Qed.

Lemma succeeds_mono {E S A} (c : St E S A) s (Q R : A → S → Prop) :
  succeeds c s Q → (∀ x s', Q x s' → R x s') → succeeds c s R.
Proof. intros (x & s' & ? & ?) Hi. exists x, s'. auto. Qed.

(** ** Machine integers

    A [w]-bit integer is a [Z] in its range; the checked operations of the
    standard library return [None] outside it. *)

Definition U8_MAX : Z := 2 ^ 8 - 1.
Definition U32_MAX : Z := 2 ^ 32 - 1.
Definition U64_MAX : Z := 2 ^ 64 - 1.
Definition USIZE_MAX : Z := U64_MAX.
Definition I64_MIN : Z := - 2 ^ 63.
Definition I64_MAX : Z := 2 ^ 63 - 1.

Definition is_u8 (z : Z) : bool := (0 <=? z) && (z <=? U8_MAX).
Definition is_u32 (z : Z) : bool := (0 <=? z) && (z <=? U32_MAX).
Definition is_u64 (z : Z) : bool := (0 <=? z) && (z <=? U64_MAX).
Definition is_i64 (z : Z) : bool := (I64_MIN <=? z) && (z <=? I64_MAX).

Definition u32_checked_add (a b : Z) : option Z :=
  if is_u32 (a + b) then Some (a + b) else None.
Definition u64_checked_add (a b : Z) : option Z :=
  if is_u64 (a + b) then Some (a + b) else None.
Definition i64_checked_add (a b : Z) : option Z :=
  if is_i64 (a + b) then Some (a + b) else None.
Definition u64_saturating_add (a b : Z) : Z := Z.min (a + b) U64_MAX.
Definition u64_saturating_sub (a b : Z) : Z := Z.max (a - b) 0.
Definition u64_wrapping_add (a b : Z) : Z := (a + b) mod 2 ^ 64.

Lemma is_u64_spec z : is_u64 z = true ↔ 0 ≤ z < 2 ^ 64.
Proof. unfold is_u64, U64_MAX. lia. Qed.
Lemma is_u32_spec z : is_u32 z = true ↔ 0 ≤ z < 2 ^ 32.
Proof. unfold is_u32, U32_MAX. lia. Qed.
Lemma is_u8_spec z : is_u8 z = true ↔ 0 ≤ z < 256.
Proof. unfold is_u8, U8_MAX. lia. Qed.
Lemma is_i64_spec z : is_i64 z = true ↔ - 2 ^ 63 ≤ z < 2 ^ 63.
Proof. unfold is_i64, I64_MIN, I64_MAX. lia. Qed.

(** ** Automation *)

Create HintDb rust_db.
Create Rewrite HintDb rust_rw.
#[export] Hint Rewrite @result_bind_Ok @result_bind_Err @ok_or_Ok @ok_or_Err @result_map_Ok
  : rust_rw.

(** [inv_result] decomposes every hypothesis that says how a chain of [?]
    ended. *)
Ltac inv_result :=
  repeat match goal with
  | H : result_bind _ _ = Ok _ |- _ => apply result_bind_Ok in H as (? & ? & ?)
  | H : result_bind _ _ = Err _ |- _ => apply result_bind_Err in H as [?|(? & ? & ?)]
  | H : ok_or _ _ = Ok _ |- _ => apply ok_or_Ok in H
  | H : ok_or _ _ = Err _ |- _ => apply ok_or_Err in H as [? ?]
  | H : result_map _ _ = Ok _ |- _ => apply result_map_Ok in H as (? & ? & ?)
  | H : Ok _ = Ok _ |- _ => injection H as H
  | H : Err _ = Err _ |- _ => injection H as H
  | H : Ok _ = Err _ |- _ => discriminate H
  | H : Err _ = Ok _ |- _ => discriminate H
  end; simplify_eq.

(** [cases_in H] splits the conditionals and matches a hypothesis is stuck
    on, remembering each test. *)
Ltac cases_in H :=
  repeat match type of H with
  | context [match ?x with _ => _ end] =>
      match x with
      | context [match _ with _ => _ end] => fail 1
      | _ => destruct x eqn:?
      end
  end; simplify_eq.

(** [cases_goal] does the same for the goal. *)
Ltac cases_goal :=
  repeat match goal with
  | |- context [match ?x with _ => _ end] =>
      match x with
      | context [match _ with _ => _ end] => fail 1
      | _ => destruct x eqn:?
      end
  end; simplify_eq.

(** [inv_run] takes a successful transaction apart; the steps come in two
    parts so that a component may put its own statements between them. *)
Ltac st_done H :=
  first [discriminate H | injection H as <- <- | injection H as <- | clear H].

Ltac inv_run_step :=
  match goal with
  | H : st_bind _ _ _ = Ok (_, _) |- _ =>
      apply st_bind_Ok in H; let x := fresh "x" in let s := fresh "s" in
      let Hx := fresh "Hrun" in destruct H as (x & s & Hx & H)
  | H : st_lift _ _ = Ok (_, _) |- _ => apply st_lift_Ok in H as [? ->]
  | H : st_ret _ _ = Ok (_, _) |- _ => unfold st_ret in H; st_done H
  | H : st_get _ _ = Ok (_, _) |- _ => unfold st_get in H; st_done H
  | H : st_modify _ _ = Ok (_, _) |- _ => unfold st_modify in H; st_done H
  | H : st_fail _ _ = Ok _ |- _ => discriminate H
  | H : (if true then _ else _) _ = Ok (_, _) |- _ => cbn iota in H
  | H : (if false then _ else _) _ = Ok (_, _) |- _ => cbn iota in H
  end.
Ltac inv_check_step :=
  match goal with
  | H : (if ?b then _ else st_fail _) _ = Ok (_, _) |- _ => destruct b eqn:?; [|discriminate H]
  end.
Ltac inv_run := repeat first [inv_run_step | inv_check_step].

(** ** Lists *)

Section lists.
Context {A B : Type}.
Implicit Types l : list A.

(** Rust's [Iterator::find]. *)
Fixpoint find_first (p : A → bool) l : option A :=
  match l with
  | [] => None
  | x :: l' => if p x then Some x else find_first p l'
  end.

Lemma find_first_Some p l x : find_first p l = Some x → x ∈ l ∧ p x = true.
Proof. induction l as [|y l IH]; simpl; [done|]. cases_goal; set_solver. Qed.

Lemma find_first_None p l : find_first p l = None ↔ ∀ x, x ∈ l → p x = false.
Proof.
  induction l as [|y l IH]; simpl; [set_solver|].
  destruct (p y) eqn:Hy; split.
  - done.
  - intros H. rewrite H in Hy by set_solver. done.
  - intros H x [->|Hx]%elem_of_cons; [done|]. by apply IH.
  - intros H. apply IH. set_solver.
Qed.

Lemma find_first_app p l1 l2 :
  find_first p (l1 ++ l2) =
  match find_first p l1 with Some x => Some x | None => find_first p l2 end.
Proof. induction l1 as [|x l1 IH]; simpl; [done|]. by destruct (p x). Qed.

(** [existsb] and [forallb] with stdpp's membership. *)
Lemma existsb_elem_of (p : A → bool) l : existsb p l = true ↔ ∃ x, x ∈ l ∧ p x = true.
Proof. rewrite existsb_exists. setoid_rewrite <- list_elem_of_In. done. Qed.

Lemma forallb_elem_of (p : A → bool) l : forallb p l = true ↔ ∀ x, x ∈ l → p x = true.
Proof. rewrite forallb_forall. setoid_rewrite <- list_elem_of_In. done. Qed.

Lemma filter_elem_of (p : A → bool) l x : x ∈ List.filter p l ↔ x ∈ l ∧ p x = true.
Proof. rewrite !list_elem_of_In. apply filter_In. Qed.

Lemma forallb_Forall (p : A → bool) l : forallb p l = true ↔ Forall (λ x, p x = true) l.
Proof. rewrite forallb_elem_of, Forall_forall. done. Qed.

(** An [INSERT] that found no row with its key keeps the keys distinct. *)
Lemma fresh_key (f : A → B) (p : A → bool) l (k : B) :
  (∀ y, f y = k → p y = true) → existsb p l = false → NoDup (map f l) → NoDup (map f l ++ [k]).
Proof.
  intros Hp Hfresh Hnd. apply NoDup_app. split_and!; [done| |apply NoDup_singleton].
  intros x (y & -> & Hy)%list_elem_of_fmap Hk%list_elem_of_singleton.
  apply not_true_iff_false in Hfresh. apply Hfresh, existsb_elem_of. eauto.
Qed.

(** The last element of a list, as [slice::last]. *)
Lemma last_cons_default l x : last (x :: l) = Some (default x (last l)).
Proof. destruct l as [|y l]; [done|]. rewrite last_cons_cons. by destruct (last_is_Some (y :: l)) as [_ [z ->]]. Qed.
End lists.

Lemma app_inj_length {A} (l1 l2 k1 k2 : list A) :
  length l1 = length l2 → l1 ++ k1 = l2 ++ k2 → l1 = l2 ∧ k1 = k2.
Proof. intros Hl. apply app_inj_1, Hl. Qed.

(** Injectivity of [cons], without reducing the elements. *)
Lemma cons_inv {A} (x y : A) l k : x :: l = y :: k → x = y ∧ l = k.
Proof. intros H. by injection H as -> ->. Qed.
