(* ===== verification/AsyncProg.v ===== *)
(** * Asynchronous programs

    An asynchronous function is a [Prog]: what it does next is a call to its
    surroundings, and the answer decides how it goes on.  [safely] is the
    partial correctness of a program that everything else may interrupt at
    every await, with what it relies on and what it guarantees; [Pool] runs any
    number of such programs side by side, each of which may be dropped at any
    await. *)

From S2P Require Import Prelude.
From stdpp Require Import prelude list relations.

Local Open Scope rust_scope.

(** ** Programs *)

Section programs.
Context {E : Type → Type}.

Inductive Prog (A : Type) : Type :=
| Done (a : A)
| Await {B : Type} (call : E B) (k : B → Prog A).

Fixpoint and_then {A C} (p : Prog A) (f : A → Prog C) : Prog C :=
  match p with
  | Done _ a => f a
  | Await _ call k => Await C call (λ b, and_then (k b) f)
  end.

Definition ask {B} (call : E B) : Prog B := Await B call (λ b, Done B b).

(** [?] on the result of an asynchronous call. *)
Definition and_try {A C Er} (p : Prog (result A Er)) (f : A → Prog (result C Er))
    : Prog (result C Er) :=
  and_then p (λ r, match r with Ok a => f a | Err e => Done _ (Err e) end).
End programs.

Arguments Prog : clear implicits.
Arguments Done {E A} a.
Arguments Await {E A B} call k.

Notation "'await' x := p 'in' q" := (and_then p (λ x, q))
  (at level 10, x name, p at level 100, q at level 200) : rust_scope.
Notation "'await?' x := p 'in' q" := (and_try p (λ x, q))
  (at level 10, x name, p at level 100, q at level 200) : rust_scope.
Notation "'await!' p 'in' q" := (and_try p (λ _, q))
  (at level 10, p at level 100, q at level 200) : rust_scope.

(** A component's program run by a client whose calls include its own. *)
Fixpoint embed {E F : Type → Type} (into : ∀ B, E B → F B) {A} (p : Prog E A) : Prog F A :=
  match p with
  | Done a => Done a
  | Await call k => Await (into _ call) (λ b, embed into (k b))
  end.

(** ** Interference

    Between two awaits the surroundings move as [rely] says; every effect of
    the program is one of [guar]; [later] covers both. *)

Class Interference {W} (rely guar : W → W → Prop) := {
  later : W → W → Prop;
  rely_preorder : PreOrder rely;
  later_preorder : PreOrder later;
  rely_later w w' : rely w w' → later w w';
  guar_later w w' : guar w w' → later w w'
}.

#[global] Instance interference_same {W} (kept : W → W → Prop) (H : PreOrder kept) :
  Interference kept kept :=
  {| later := kept; rely_preorder := H; later_preorder := H;
     rely_later _ _ Hk := Hk; guar_later _ _ Hk := Hk |}.

Section interference.
Context {E : Type → Type} {W : Type}.
Context (handle : ∀ B, E B → W → B → W → Prop) (inv : W → Prop) (rely guar : W → W → Prop).

Fixpoint safely {A} (p : Prog E A) (Q : A → W → Prop) (w : W) : Prop :=
  match p with
  | Done a => ∀ w', rely w w' → inv w' → Q a w'
  | Await call k => ∀ w1, rely w w1 → inv w1 →
      ∀ answer w2, handle _ call w1 answer w2 →
        inv w2 ∧ guar w1 w2 ∧ safely (k answer) Q w2
  end.

Context `{!Interference rely guar}.
#[local] Instance rely_pre : PreOrder rely := rely_preorder.
#[local] Instance later_pre : PreOrder later := later_preorder.

(** Others may have moved on. *)
Lemma safe_kept {A} (p : Prog E A) Q w w' : rely w w' → safely p Q w → safely p Q w'.
Proof.
  intros Hk. destruct p as [a|B call k]; simpl; intros H.
  - intros w2 Hk2. apply H. by etrans.
  - intros w1 Hk1. apply H. by etrans.
Qed.

Lemma safe_bind {A C} (p : Prog E A) (f : A → Prog E C) R Q w :
  safely p R w → (∀ a w', later w w' → inv w' → R a w' → safely (f a) Q w') →
  inv w → safely (and_then p f) Q w.
Proof.
  revert w. induction p as [a|B call k IH]; simpl; intros w Hp Hf Hw.
  - apply Hf; [reflexivity|done|]. apply Hp; [reflexivity|done].
  - intros w1 Hk1 Hw1 answer w2 Hh. destruct (Hp w1 Hk1 Hw1 answer w2 Hh) as (Hw2 & Hk2 & Hs).
    do 2 (split; [done|]). apply IH; [done| |done].
    intros a w' Hk'. apply Hf. etrans; [by apply rely_later|]. etrans; [by apply guar_later|done].
Qed.

(** [?], for what an error need not establish. *)
Lemma safe_try {A C Er} (p : Prog E (result A Er)) (f : A → Prog E (result C Er)) R Q w :
  safely p R w → (∀ e w', Q (Err e) w') →
  (∀ a w', later w w' → inv w' → R (Ok a) w' → safely (f a) Q w') →
  inv w → safely (and_try p f) Q w.
Proof.
  intros Hp He Hf Hw. eapply safe_bind; [exact Hp| |done]. intros [a|e] w' Hk Hw' HR.
  - by apply Hf.
  - intros w2 _ _. apply He.
Qed.

Lemma safe_mono {A} (p : Prog E A) (Q R : A → W → Prop) w :
  (∀ a w', Q a w' → R a w') → safely p Q w → safely p R w.
Proof.
  intros HQ. revert w. induction p as [a|B call k IH]; simpl; intros w Hp.
  - intros w' Hk Hw'. by apply HQ, Hp.
  - intros w1 Hk1 Hw1 answer w2 Hh. destruct (Hp w1 Hk1 Hw1 answer w2 Hh) as (? & ? & ?). auto.
Qed.

Lemma safe_ask {B} (call : E B) Q w :
  (∀ w1 answer w2, rely w w1 → inv w1 → handle _ call w1 answer w2 →
     inv w2 ∧ guar w1 w2 ∧ ∀ w3, rely w2 w3 → inv w3 → Q answer w3) →
  safely (ask call) Q w.
Proof. intros H w1 Hk Hw answer w2 Hh. by apply H. Qed.

(** What a program that awaits nothing answers. *)
Lemma safe_immediate {A} (p : Prog E A) Q w :
  safely p Q w → safely p (λ a w', Q a w' ∧ ∀ x, p = Done x → a = x) w.
Proof.
  intros Hp. destruct p as [a|B call k].
  - intros w' Hk Hw'. split; [by apply Hp|]. by intros x [= <-].
  - eapply safe_mono; [|exact Hp]. intros a w' HQ. by split.
Qed.

Lemma safe_done {A} (a : A) (Q : A → W → Prop) w :
  (∀ w', rely w w' → inv w' → Q a w') → safely (Done a) Q w.
Proof. done. Qed.
End interference.

Arguments safe_kept {E W handle inv rely guar _ A} p Q w w'.
Arguments safe_bind {E W handle inv rely guar _ A C} p f R Q w.
Arguments safe_try {E W handle inv rely guar _ A C Er} p f R Q w.
Arguments safe_mono {E W handle inv rely guar A} p Q R w.
Arguments safe_ask {E W handle inv rely guar B} call Q w.
Arguments safe_immediate {E W handle inv rely guar A} p Q w.
Arguments safe_done {E W handle inv rely guar A} a Q w.

(** A program that is safe in its own world is safe where it is a part: every
    effect of an embedded call is one of the component's, and keeps what the
    client guarantees, as long as the client knows [P]. *)
Section embedding.
Context {E F : Type → Type} {V W : Type} (into : ∀ B, E B → F B) (part : W → V).
Context (handle : ∀ B, E B → V → B → V → Prop) (inv : V → Prop) (rely guar : V → V → Prop).
Context (handle' : ∀ B, F B → W → B → W → Prop) (inv' : W → Prop) (rely' guar' : W → W → Prop).
Context (P : W → Prop).

Lemma safe_embed {A} (p : Prog E A) Q w :
  (∀ w, inv' w → inv (part w)) →
  (∀ w w', rely' w w' → rely (part w) (part w') ∧ (P w → P w')) →
  (∀ B (call : E B) w1 answer w2, handle' _ (into _ call) w1 answer w2 →
     handle _ call (part w1) answer (part w2)) →
  (∀ B (call : E B) w1 answer w2, handle' _ (into _ call) w1 answer w2 → inv' w1 → P w1 →
     inv (part w2) → guar (part w1) (part w2) → inv' w2 ∧ guar' w1 w2 ∧ P w2) →
  P w → safely handle inv rely guar p Q (part w) →
  safely handle' inv' rely' guar' (embed into p) (λ a w', Q a (part w') ∧ P w') w.
Proof.
  intros Hinv Hrely Hhandle Hkeep. revert w. induction p as [a|B call k IH]; simpl; intros w HP Hp.
  - intros w' Hk Hw'. split; [apply Hp; [by apply Hrely|auto]|]. by apply (Hrely w).
  - intros w1 Hk1 Hw1 answer w2 Hh. destruct (Hrely _ _ Hk1) as [Hr HP1].
    destruct (Hp (part w1) Hr (Hinv _ Hw1) answer (part w2) (Hhandle _ _ _ _ _ Hh)) as (Hi & Hg & Hs).
    destruct (Hkeep _ _ _ _ _ Hh Hw1 (HP1 HP) Hi Hg) as (? & ? & ?). auto.
Qed.
End embedding.

(** ** Pools *)

Section pools.
Context {E : Type → Type} {W T A : Type}.
Context (start : T → Prog E A) (handle : nat → ∀ B, E B → W → B → W → Prop) (env : W → W → Prop).

(** The task with number [i] is the [i]-th one started; it is gone once its
    future has been dropped. *)
Record Pool := mkPool { pool_world : W; pool_tasks : list (T * option (Prog E A)) }.

Inductive pool_step : Pool → Pool → Prop :=
| pool_env w w' tasks : env w w' → pool_step (mkPool w tasks) (mkPool w' tasks)
| pool_start w tasks t : pool_step (mkPool w tasks) (mkPool w (tasks ++ [(t, Some (start t))]))
| pool_task w w' tasks i t B (call : E B) k answer :
    tasks !! i = Some (t, Some (Await call k)) → handle i _ call w answer w' →
    pool_step (mkPool w tasks) (mkPool w' (<[i := (t, Some (k answer))]> tasks))
| pool_drop w tasks i t p :
    tasks !! i = Some (t, Some p) → pool_step (mkPool w tasks) (mkPool w (<[i := (t, None)]> tasks)).

Definition pool_reachable (init : W → Prop) (pool : Pool) : Prop :=
  ∃ w, init w ∧ rtc pool_step (mkPool w []) pool.

Context (inv : W → Prop) (rely guar : nat → W → W → Prop) (onward : W → W → Prop).
Context (idle : nat → W → Prop) (Q : nat → T → A → W → Prop).
Context `{!∀ i, Interference (rely i) (guar i), !PreOrder onward}.
#[local] Instance rely_i_pre i : PreOrder (rely i) := rely_preorder.

Record pool_rules : Prop := {
  pr_env w w' : inv w → env w w' → inv w' ∧ onward w w' ∧ ∀ i, rely i w w';
  pr_onward i w w' : guar i w w' → onward w w';
  pr_apart i j w w' : i ≠ j → guar i w w' → rely j w w';
  pr_idle i w w' : rely i w w' → idle i w → idle i w';
  pr_start i t w : inv w → idle i w → safely (handle i) inv (rely i) (guar i) (start t) (Q i t) w
}.

Record pool_ok (pool : Pool) : Prop := {
  po_inv : inv (pool_world pool);
  po_idle i : (length (pool_tasks pool) ≤ i)%nat → idle i (pool_world pool);
  po_tasks i t p : pool_tasks pool !! i = Some (t, Some p) →
    safely (handle i) inv (rely i) (guar i) p (Q i t) (pool_world pool)
}.

Lemma pool_step_ok pool pool' : pool_rules → pool_ok pool → pool_step pool pool' →
  pool_ok pool' ∧ onward (pool_world pool) (pool_world pool').
Proof.
  intros R [Hinv Hidle Htasks] Hs. destruct Hs as [w w' tasks He|w tasks t|w w' tasks i t B call k answer Hi Hh
    |w tasks i t p Hi]; simpl in *.
  - destruct (pr_env R _ _ Hinv He) as (Hw' & Hl & Hr). split; [|done]. split; simpl; [done| |].
    + intros i Hlen. by eapply (pr_idle R), Hidle.
    + intros i t p Hi. apply (safe_kept _ _ w); [apply Hr|by apply Htasks].
  - split; [|reflexivity]. split; simpl; [done| |].
    + intros i. rewrite length_app. intros Hlen. apply Hidle. simpl in Hlen. lia.
    + intros i t' p [Hi|[Hi Hp]]%lookup_app_Some; [by apply Htasks|].
      apply list_lookup_singleton_Some in Hp as [Hz [= <- <-]].
      apply (pr_start R); [done|]. apply Hidle. lia.
  - destruct (Htasks _ _ _ Hi w ltac:(reflexivity) Hinv answer w' Hh) as (Hw' & Hg & Hs).
    split; [|by apply (pr_onward R) in Hg]. split; simpl; [done| |].
    + intros j Hlen. rewrite length_insert in Hlen. apply (pr_idle R _ w); [|by apply Hidle].
      apply (pr_apart R i); [|done]. apply lookup_lt_Some in Hi. lia.
    + intros j t' p Hj. apply list_lookup_insert_Some in Hj as [(-> & [= <- <-] & _)|[Hne Hj]]; [done|].
      apply (safe_kept _ _ w); [by apply (pr_apart R i)|by apply Htasks].
  - split; [|reflexivity]. split; simpl; [done| |].
    + intros j. rewrite length_insert. apply Hidle.
    + intros j t' p' Hj. apply list_lookup_insert_Some in Hj as [(_ & [= ] & _)|[_ Hj]]. by apply Htasks.
Qed.

Lemma pool_steps_ok pool pool' : pool_rules → rtc pool_step pool pool' → pool_ok pool →
  pool_ok pool' ∧ onward (pool_world pool) (pool_world pool').
Proof.
  intros R. induction 1 as [pool|p1 p2 p3 H12 _ IH]; intros Hp; [by split; [|reflexivity]|].
  destruct (pool_step_ok _ _ R Hp H12) as [H2 Hk]. destruct (IH H2) as [H3 Hk2].
  split; [done|]. by etrans.
Qed.

Lemma pool_reachable_ok init pool :
  pool_rules → (∀ w, init w → inv w ∧ ∀ i, idle i w) → pool_reachable init pool → pool_ok pool.
Proof.
  intros R Hinit (w & Hw & Hrun). destruct (Hinit w Hw) as [Hi Hidle].
  by apply (pool_steps_ok _ _ R) in Hrun as [Hok _].
Qed.

(** What a finished task has established. *)
Lemma pool_finished init pool i t a :
  pool_rules → (∀ w, init w → inv w ∧ ∀ i, idle i w) → pool_reachable init pool →
  pool_tasks pool !! i = Some (t, Some (Done a)) → inv (pool_world pool) ∧ Q i t a (pool_world pool).
Proof.
  intros R Hinit Hr Hi. destruct (pool_reachable_ok _ _ R Hinit Hr) as [Hinv _ Htasks].
  split; [done|]. apply (Htasks _ _ _ Hi); [reflexivity|done].
Qed.
End pools.

Arguments mkPool {E W T A} pool_world pool_tasks.
Arguments pool_world {E W T A} p.
Arguments pool_tasks {E W T A} p.
