(* ===== verification/Bytes.v ===== *)
(** * Bytes and Rust strings

    A byte is a [Z] in [0, 256); a Rust [str] is a [string] whose characters
    are the bytes of its UTF-8 encoding.  The string operations the program
    uses ([trim], [chars().any(is_control)], the ASCII classes, [to_be_bytes])
    are written on those bytes.  UTF-8 is self-synchronising, so a whole
    encoded scalar found at either end of a valid string is a scalar of it. *)

From Stdlib Require Import ZArith Lia Ascii.
From S2P Require Import Prelude.
From stdpp Require Import prelude strings gmap.

Local Open Scope Z_scope.

(** ** Bytes of a string *)

Definition byte_of_ascii (c : ascii) : Z := Z.of_N (N_of_ascii c).

Fixpoint as_bytes (s : string) : list Z :=
  match s with
  | EmptyString => []
  | String c s' => byte_of_ascii c :: as_bytes s'
  end.

Lemma byte_of_ascii_inj c d : byte_of_ascii c = byte_of_ascii d → c = d.
Proof.
  unfold byte_of_ascii. intros H%N2Z.inj.
  by rewrite <- (ascii_N_embedding c), <- (ascii_N_embedding d), H.
Qed.

Lemma byte_of_ascii_range c : 0 ≤ byte_of_ascii c < 256.
Proof. unfold byte_of_ascii. pose proof (N_ascii_bounded c). lia. Qed.

Lemma as_bytes_inj s t : as_bytes s = as_bytes t → s = t.
Proof.
  revert t. induction s as [|c s IH]; intros [|d t]; simpl; intros H; simplify_eq; [done|].
  f_equal; [by apply byte_of_ascii_inj|by apply IH].
Qed.

Lemma length_as_bytes s : length (as_bytes s) = String.length s.
Proof. induction s as [|c s IH]; simpl; [done|]. by rewrite IH. Qed.

Lemma as_bytes_range s : Forall (λ b, 0 ≤ b < 256) (as_bytes s).
Proof. induction s; simpl; constructor; [apply byte_of_ascii_range|done]. Qed.

Lemma as_bytes_app s t : as_bytes (s +:+ t) = as_bytes s ++ as_bytes t.
Proof. induction s as [|c s IH]; simpl; [done|]. by rewrite <- IH. Qed.

(** ** Integers as bytes *)

(** [to_be_bytes] of a [w]-byte unsigned integer. *)
Fixpoint to_be_bytes (w : nat) (z : Z) : list Z :=
  match w with
  | O => []
  | S w' => to_be_bytes w' (z / 256) ++ [z mod 256]
  end.

Lemma length_to_be_bytes w z : length (to_be_bytes w z) = w.
Proof. revert z. induction w as [|w IH]; intros z; simpl; [done|]. rewrite length_app, IH. simpl. lia. Qed.

Lemma to_be_bytes_inj w a b :
  0 ≤ a < 256 ^ Z.of_nat w → 0 ≤ b < 256 ^ Z.of_nat w →
  to_be_bytes w a = to_be_bytes w b → a = b.
Proof.
  revert a b. induction w as [|w IH]; intros a b Ha Hb H; [lia|].
  rewrite Nat2Z.inj_succ, Z.pow_succ_r in Ha, Hb by lia.
  simpl in H. apply app_inj_2 in H as [H1 H2]; [|done]. injection H2 as H2.
  assert (a / 256 = b / 256) as Hd.
  { apply IH; [| |done]; split; try apply Z.div_pos; try apply Z.div_lt_upper_bound; lia. }
  rewrite (Z.div_mod a 256), (Z.div_mod b 256) by lia. lia.
Qed.

#[global] Arguments to_be_bytes : simpl never.

(** [to_le_bytes] and [from_le_bytes]. *)
Fixpoint to_le_bytes (w : nat) (z : Z) : list Z :=
  match w with
  | O => []
  | S w' => z mod 256 :: to_le_bytes w' (z / 256)
  end.

Fixpoint from_le_bytes (bs : list Z) : Z :=
  match bs with
  | [] => 0
  | b :: bs' => b + 256 * from_le_bytes bs'
  end.

Lemma length_to_le_bytes w z : length (to_le_bytes w z) = w.
Proof. revert z. induction w as [|w IH]; intros z; simpl; [done|]. by rewrite IH. Qed.

Lemma le_bytes_roundtrip w z : 0 ≤ z < 256 ^ Z.of_nat w → from_le_bytes (to_le_bytes w z) = z.
Proof.
  revert z. induction w as [|w IH]; intros z Hz; [simpl in *; lia|].
  rewrite Nat2Z.inj_succ, Z.pow_succ_r in Hz by lia. cbn [to_le_bytes from_le_bytes].
  rewrite IH; [pose proof (Z.div_mod z 256); lia|].
  split; [apply Z.div_pos|apply Z.div_lt_upper_bound]; lia.
Qed.

(** ** Character classes on bytes *)

Definition is_ascii_digit (b : Z) : bool := (48 <=? b) && (b <=? 57).
Definition is_ascii_lowercase (b : Z) : bool := (97 <=? b) && (b <=? 122).
Definition is_ascii_uppercase (b : Z) : bool := (65 <=? b) && (b <=? 90).
Definition is_ascii_alphanumeric (b : Z) : bool :=
  is_ascii_digit b || is_ascii_lowercase b || is_ascii_uppercase b.

(** Unicode [White_Space], by the length of the UTF-8 encoding:
    U+0009-000D, U+0020; U+0085, U+00A0; U+1680, U+2000-200A, U+2028, U+2029,
    U+202F, U+205F, U+3000. *)
Definition ws1 (b0 : Z) : bool := ((9 <=? b0) && (b0 <=? 13)) || (b0 =? 32).
Definition ws2 (b0 b1 : Z) : bool := (b0 =? 194) && ((b1 =? 133) || (b1 =? 160)).
Definition ws3 (b0 b1 b2 : Z) : bool :=
  ((b0 =? 225) && (b1 =? 154) && (b2 =? 128))
  || ((b0 =? 226) && (b1 =? 128)
      && (((128 <=? b2) && (b2 <=? 138)) || (b2 =? 168) || (b2 =? 169) || (b2 =? 175)))
  || ((b0 =? 226) && (b1 =? 129) && (b2 =? 159))
  || ((b0 =? 227) && (b1 =? 128) && (b2 =? 128)).

Fixpoint strip_scalars (w2 : Z → Z → bool) (w3 : Z → Z → Z → bool) (bs : list Z) : list Z :=
  match bs with
  | [] => []
  | b0 :: r0 =>
      if ws1 b0 then strip_scalars w2 w3 r0
      else match r0 with
           | [] => bs
           | b1 :: r1 =>
               if w2 b0 b1 then strip_scalars w2 w3 r1
               else match r1 with
                    | [] => bs
                    | b2 :: r2 => if w3 b0 b1 b2 then strip_scalars w2 w3 r2 else bs
                    end
           end
  end.

Definition trim_start (bs : list Z) : list Z := strip_scalars ws2 ws3 bs.
Definition trim_end (bs : list Z) : list Z :=
  rev (strip_scalars (λ b1 b0, ws2 b0 b1) (λ b2 b1 b0, ws3 b0 b1 b2) (rev bs)).
Definition trim (bs : list Z) : list Z := trim_end (trim_start bs).

(** [char::is_control]: U+0000-001F and U+007F-009F. *)
Fixpoint any_control (bs : list Z) : bool :=
  match bs with
  | [] => false
  | b :: r =>
      (b <? 32) || (b =? 127)
      || match r with
         | b1 :: _ => (b =? 194) && (128 <=? b1) && (b1 <=? 159)
         | [] => false
         end
      || any_control r
  end.

(** A printable ASCII byte other than the space is neither white space nor a
    control character, and starts no multi-byte scalar. *)
Definition is_ascii_graphic (b : Z) : bool := (33 <=? b) && (b <=? 126).

Lemma ws1_graphic b : is_ascii_graphic b = true → ws1 b = false.
Proof. unfold is_ascii_graphic, ws1. lia. Qed.

Lemma strip_scalars_id w2 w3 bs :
  (∀ b0 b1, is_ascii_graphic b0 = true → w2 b0 b1 = false) →
  (∀ b0 b1 b2, is_ascii_graphic b0 = true → w3 b0 b1 b2 = false) →
  forallb is_ascii_graphic bs = true → strip_scalars w2 w3 bs = bs.
Proof.
  intros H2 H3. destruct bs as [|b0 [|b1 [|b2 r]]]; simpl; intros H; [done|..];
    apply andb_prop in H as [H _]; rewrite ws1_graphic by done; rewrite ?H2, ?H3; done.
Qed.

Lemma forallb_rev {A} (p : A → bool) l : forallb p (rev l) = forallb p l.
Proof.
  induction l as [|x l IH]; simpl; [done|].
  rewrite forallb_app, IH. simpl. destruct (p x), (forallb p l); done.
Qed.

Lemma trim_graphic bs : forallb is_ascii_graphic bs = true → trim bs = bs.
Proof.
  intros H. unfold trim, trim_start, trim_end.
  rewrite (strip_scalars_id ws2 ws3); [|unfold ws2, ws3, is_ascii_graphic; lia..|done].
  rewrite strip_scalars_id; [by rewrite rev_involutive|..];
    [unfold ws2, ws3, is_ascii_graphic; lia..|by rewrite forallb_rev].
Qed.

Lemma any_control_graphic bs : forallb is_ascii_graphic bs = true → any_control bs = false.
Proof.
  induction bs as [|b r IH]; simpl; [done|]. intros [H1 H2]%andb_prop.
  rewrite (IH H2). unfold is_ascii_graphic in H1. destruct r; lia.
Qed.
