(* ===== verification/SagaIdentity.v ===== *)
(** * Saga identities, payload contracts and execution contexts

    Models [nasaga-core/src/error.rs], [identity.rs], [payload.rs] and
    [context.rs]: the validated names, the length-prefixed canonical encoding,
    the derivation of the effect and command identities, the payload contract
    and the context handed to a step handler.

    UUIDv5 (crate [uuid]) and the JSON parser (crate [serde_json]) are not part
    of the repository; they are the parameters of the last section. *)

From Stdlib Require Import ZArith Lia Ascii.
From S2P Require Import Prelude Bytes.
From stdpp Require Import prelude strings gmap.

Local Open Scope Z_scope.
Local Open Scope rust_scope.

(** ** Contract violations (error.rs) *)

Record ContractViolation := mkViolation { code : string; detail : string }.

#[global] Instance ContractViolation_eq_dec : EqDecision ContractViolation.
Proof. solve_decision. Defined.

Abbreviation ContractResult T := (result T ContractViolation).

Definition ContractViolation_new (code detail : string) : ContractViolation :=
  {| code := code; detail := detail |}.

Definition CODE_IDENTIFIER_EMPTY : string := "identifier_empty".
Definition CODE_IDENTIFIER_UNTRIMMED : string := "identifier_untrimmed".
Definition CODE_IDENTIFIER_TOO_LONG : string := "identifier_too_long".
Definition CODE_IDENTIFIER_CHARSET : string := "identifier_charset".
Definition CODE_COUNTER_ZERO : string := "counter_must_start_at_one".
Definition CODE_COUNTER_OVERFLOW : string := "counter_overflow".

(** ** Identifier validation *)

Definition STRUCTURED_IDENTIFIER_MAX_BYTES : Z := 128.
Definition OPAQUE_IDENTIFIER_MAX_BYTES : Z := 256.

Definition len (s : string) : Z := Z.of_nat (String.length s).
Definition is_empty (s : string) : bool := len s =? 0.
Definition is_trimmed (s : string) : bool := bool_decide (trim (as_bytes s) = as_bytes s).

Definition identifier_byte (b : Z) : bool :=
  is_ascii_alphanumeric b || (b =? 95) || (b =? 45) || (b =? 46).

Definition validate_identifier (raw kind : string) : ContractResult string :=
  ensure is_trimmed raw else
    ContractViolation_new CODE_IDENTIFIER_UNTRIMMED
      (kind +:+ " must not have leading or trailing whitespace") in
  ensure negb (is_empty raw) else
    ContractViolation_new CODE_IDENTIFIER_EMPTY (kind +:+ " must not be empty") in
  ensure len raw <=? STRUCTURED_IDENTIFIER_MAX_BYTES else
    ContractViolation_new CODE_IDENTIFIER_TOO_LONG (kind +:+ " exceeds 128 bytes") in
  ensure forallb identifier_byte (as_bytes raw) else
    ContractViolation_new CODE_IDENTIFIER_CHARSET
      (kind +:+ " allows only ASCII alphanumeric, '_', '-' and '.'") in
  Ok raw.

Definition validate_opaque (raw kind : string) : ContractResult string :=
  ensure is_trimmed raw else
    ContractViolation_new CODE_IDENTIFIER_UNTRIMMED
      (kind +:+ " must not have leading or trailing whitespace") in
  ensure negb (is_empty raw) else
    ContractViolation_new CODE_IDENTIFIER_EMPTY (kind +:+ " must not be empty") in
  ensure len raw <=? OPAQUE_IDENTIFIER_MAX_BYTES else
    ContractViolation_new CODE_IDENTIFIER_TOO_LONG (kind +:+ " exceeds 256 bytes") in
  ensure negb (any_control (as_bytes raw)) else
    ContractViolation_new CODE_IDENTIFIER_CHARSET
      (kind +:+ " must not contain control characters") in
  Ok raw.

(** ** Newtypes *)

Record SagaId := mkSagaId { SagaId_as_str : string }.
Record TenantId := mkTenantId { TenantId_as_str : string }.
Record BusinessKey := mkBusinessKey { BusinessKey_as_str : string }.
Record WorkflowName := mkWorkflowName { WorkflowName_as_str : string }.
Record StepName := mkStepName { StepName_as_str : string }.
Record ServiceIdentity := mkServiceIdentity { ServiceIdentity_as_str : string }.

#[global] Instance SagaId_eq_dec : EqDecision SagaId.
Proof. solve_decision. Defined.
#[global] Instance TenantId_eq_dec : EqDecision TenantId.
Proof. solve_decision. Defined.
#[global] Instance BusinessKey_eq_dec : EqDecision BusinessKey.
Proof. solve_decision. Defined.
#[global] Instance WorkflowName_eq_dec : EqDecision WorkflowName.
Proof. solve_decision. Defined.
#[global] Instance StepName_eq_dec : EqDecision StepName.
Proof. solve_decision. Defined.
#[global] Instance ServiceIdentity_eq_dec : EqDecision ServiceIdentity.
Proof. solve_decision. Defined.

Definition SagaId_new (raw : string) : ContractResult SagaId :=
  result_map mkSagaId (validate_opaque raw "saga id").
Definition TenantId_new (raw : string) : ContractResult TenantId :=
  result_map mkTenantId (validate_opaque raw "tenant id").
Definition BusinessKey_new (raw : string) : ContractResult BusinessKey :=
  result_map mkBusinessKey (validate_opaque raw "business key").
Definition WorkflowName_new (raw : string) : ContractResult WorkflowName :=
  result_map mkWorkflowName (validate_identifier raw "workflow name").
Definition StepName_new (raw : string) : ContractResult StepName :=
  result_map mkStepName (validate_identifier raw "step name").
Definition ServiceIdentity_new (raw : string) : ContractResult ServiceIdentity :=
  result_map mkServiceIdentity (validate_identifier raw "service identity").

(** [DefinitionVersion(u32)] and [AttemptNo(u32)]. *)
Record DefinitionVersion := mkDefinitionVersion { DefinitionVersion_get : Z }.
Record AttemptNo := mkAttemptNo { AttemptNo_get : Z }.

#[global] Instance DefinitionVersion_eq_dec : EqDecision DefinitionVersion.
Proof. solve_decision. Defined.
#[global] Instance AttemptNo_eq_dec : EqDecision AttemptNo.
Proof. solve_decision. Defined.

Definition DefinitionVersion_new (value : Z) : ContractResult DefinitionVersion :=
  ensure negb (value =? 0) else
    ContractViolation_new CODE_COUNTER_ZERO "definition version must start at 1" in
  Ok (mkDefinitionVersion value).

Definition AttemptNo_FIRST : AttemptNo := mkAttemptNo 1.

Definition AttemptNo_new (value : Z) : ContractResult AttemptNo :=
  ensure negb (value =? 0) else
    ContractViolation_new CODE_COUNTER_ZERO "attempt number must start at 1" in
  Ok (mkAttemptNo value).

Definition AttemptNo_next (self : AttemptNo) : ContractResult AttemptNo :=
  result_map mkAttemptNo
    (ok_or (u32_checked_add (AttemptNo_get self) 1)
       (ContractViolation_new CODE_COUNTER_OVERFLOW "attempt number overflow")).

Inductive StepPhase := Execute | Cancel | Compensate | Resolve.

#[global] Instance StepPhase_eq_dec : EqDecision StepPhase.
Proof. solve_decision. Defined.

Definition StepPhase_as_str (self : StepPhase) : string :=
  match self with
  | Execute => "execute"
  | Cancel => "cancel"
  | Compensate => "compensate"
  | Resolve => "resolve"
  end.

Definition StepPhase_parse (raw : string) : option StepPhase :=
  if bool_decide (raw = "execute") then Some Execute
  else if bool_decide (raw = "cancel") then Some Cancel
  else if bool_decide (raw = "compensate") then Some Compensate
  else if bool_decide (raw = "resolve") then Some Resolve
  else None.

(** ** Canonical encoding *)

Definition canonical_field (field : list Z) : list Z :=
  to_be_bytes 8 (Z.of_nat (length field)) ++ field.

Definition canonical_bytes (fields : list (list Z)) : list Z :=
  concat (map canonical_field fields).

(** ** Payload contracts (payload.rs) *)

Record SagaPayloadContract := mkPayloadContract { content_type : string; schema_id : string }.

#[global] Instance SagaPayloadContract_eq_dec : EqDecision SagaPayloadContract.
Proof. solve_decision. Defined.

Inductive SagaPayloadError := PayloadContractInvalid.

Definition SagaPayloadContract_default : SagaPayloadContract :=
  {| content_type := "application/json"; schema_id := "" |}.

(** [str::split_once] on bytes. *)
Fixpoint split_once (sep : Z) (bs : list Z) : option (list Z * list Z) :=
  match bs with
  | [] => None
  | b :: r =>
      if b =? sep then Some ([], r)
      else match split_once sep r with
           | Some (k, v) => Some (b :: k, v)
           | None => None
           end
  end.

(** The bytes of [b"!#$&^_.+-"]. *)
Definition media_type_symbols : list Z := [33; 35; 36; 38; 94; 95; 46; 43; 45].

Definition media_type_byte (b : Z) : bool :=
  is_ascii_lowercase b || is_ascii_digit b || existsb (Z.eqb b) media_type_symbols.

Definition SagaPayloadContract_validate (self : SagaPayloadContract) : result unit SagaPayloadError :=
  match split_once 47 (as_bytes (content_type self)) with
  | None => Err PayloadContractInvalid
  | Some (kind, subtype) =>
      if (128 <? len (content_type self))
         || bool_decide (kind = [])
         || bool_decide (subtype = [])
         || negb (forallb media_type_byte (kind ++ subtype))
         || (256 <? len (schema_id self))
         || negb (is_trimmed (schema_id self))
         || any_control (as_bytes (schema_id self))
         || (negb (bool_decide (content_type self = "application/json"))
             && is_empty (schema_id self))
      then Err PayloadContractInvalid
      else Ok tt
  end.

Record SagaPayload := mkPayload {
  payload_content_type : string;
  payload_schema_id : string;
  payload_body : list Z
}.

Definition SagaPayload_contract (self : SagaPayload) : SagaPayloadContract :=
  {| content_type := payload_content_type self; schema_id := payload_schema_id self |}.

(** ** Facts about validation *)

Lemma identifier_byte_graphic b : identifier_byte b = true → is_ascii_graphic b = true.
Proof.
  unfold identifier_byte, is_ascii_alphanumeric, is_ascii_digit, is_ascii_lowercase,
    is_ascii_uppercase, is_ascii_graphic. lia.
Qed.

Lemma identifier_bytes_graphic bs :
  forallb identifier_byte bs = true → forallb is_ascii_graphic bs = true.
Proof. rewrite !forallb_Forall. intros H; eapply Forall_impl; [exact H|apply identifier_byte_graphic]. Qed.

Lemma identifier_trimmed raw : forallb identifier_byte (as_bytes raw) = true → is_trimmed raw = true.
Proof. intros H. by apply bool_decide_eq_true_2, trim_graphic, identifier_bytes_graphic. Qed.

(** What a name accepted by [validate_identifier] is. *)
Definition identifier_ok (raw : string) : Prop :=
  1 ≤ len raw ≤ 128 ∧ forallb identifier_byte (as_bytes raw) = true.

Definition opaque_ok (raw : string) : Prop :=
  1 ≤ len raw ≤ 256 ∧ is_trimmed raw = true ∧ any_control (as_bytes raw) = false.

Lemma len_nonneg s : 0 ≤ len s.
Proof. unfold len. lia. Qed.
#[export] Hint Resolve len_nonneg : rust_db.

Lemma is_empty_spec s : is_empty s = false ↔ 1 ≤ len s.
Proof. unfold is_empty. pose proof (len_nonneg s). lia. Qed.

Lemma validate_identifier_Ok raw kind s :
  validate_identifier raw kind = Ok s ↔ s = raw ∧ identifier_ok raw.
Proof.
  unfold validate_identifier, identifier_ok, STRUCTURED_IDENTIFIER_MAX_BYTES.
  pose proof (is_empty_spec raw). pose proof (identifier_trimmed raw).
  destruct (is_trimmed raw), (is_empty raw), (len raw <=? 128) eqn:?,
    (forallb identifier_byte (as_bytes raw)); simpl; naive_solver lia.
Qed.

Lemma validate_opaque_Ok raw kind s :
  validate_opaque raw kind = Ok s ↔ s = raw ∧ opaque_ok raw.
Proof.
  unfold validate_opaque, opaque_ok, OPAQUE_IDENTIFIER_MAX_BYTES.
  pose proof (is_empty_spec raw).
  destruct (is_trimmed raw), (is_empty raw), (len raw <=? 256) eqn:?,
    (any_control (as_bytes raw)); simpl; naive_solver lia.
Qed.

(** ** The canonical encoding is uniquely decodable *)

Lemma canonical_bytes_app fs gs :
  canonical_bytes (fs ++ gs) = canonical_bytes fs ++ canonical_bytes gs.
Proof. unfold canonical_bytes. by rewrite map_app, concat_app. Qed.

(** A slice is shorter than the address space. *)
Definition field_fits (f : list Z) : Prop := Z.of_nat (length f) < 2 ^ 64.

Lemma canonical_field_inj f g k1 k2 :
  field_fits f → field_fits g →
  canonical_field f ++ k1 = canonical_field g ++ k2 → f = g ∧ k1 = k2.
Proof.
  unfold field_fits, canonical_field. intros Hf Hg H. rewrite <- !app_assoc in H.
  apply app_inj_length in H as [H1 H2]; [|by rewrite !length_to_be_bytes].
  apply to_be_bytes_inj in H1; [|lia..].
  apply app_inj_length in H2; [done|lia].
Qed.

Lemma canonical_bytes_inj fs gs :
  Forall field_fits fs → Forall field_fits gs →
  canonical_bytes fs = canonical_bytes gs → fs = gs.
Proof.
  unfold canonical_bytes. intros Hf. revert gs.
  induction Hf as [|f fs Hf _ IH]; intros [|g gs] Hg H; cbn [map concat] in H;
    [done|exfalso|exfalso|].
  1,2: apply (f_equal length) in H; unfold canonical_field in H;
    rewrite !length_app, length_to_be_bytes in H; cbn [length] in H; lia.
  apply Forall_cons in Hg as [Hg Hgs].
  apply canonical_field_inj in H as [-> H]; [|done..]. f_equal. by apply IH.
Qed.

Lemma field_fits_be w z : (w <= 16)%nat → field_fits (to_be_bytes w z).
Proof. unfold field_fits. rewrite length_to_be_bytes. lia. Qed.

Lemma field_fits_str s : len s < 2 ^ 64 → field_fits (as_bytes s).
Proof. unfold field_fits, len. by rewrite length_as_bytes. Qed.
#[export] Hint Resolve field_fits_be field_fits_str : rust_db.

Lemma StepPhase_as_str_inj p q : StepPhase_as_str p = StepPhase_as_str q → p = q.
Proof. by destruct p, q. Qed.

(** ** Effect and command identities *)

Section derivation.
(** [uuid::Uuid], its byte view and its version-5 constructor. *)
Context {Uuid : Type} (uuid_as_bytes : Uuid → list Z) (uuid_new_v5 : list Z → list Z → Uuid).

(** [*b"nasasaga-v1-idns"]. *)
Definition SAGA_ID_NAMESPACE : list Z := as_bytes "nasasaga-v1-idns".

Definition EffectId_derive (saga_id : SagaId) (definition_version : DefinitionVersion)
    (step : StepName) (phase : StepPhase) : Uuid :=
  let encoded := canonical_bytes
    [ as_bytes (SagaId_as_str saga_id);
      to_be_bytes 4 (DefinitionVersion_get definition_version);
      as_bytes (StepName_as_str step);
      as_bytes (StepPhase_as_str phase) ] in
  uuid_new_v5 SAGA_ID_NAMESPACE encoded.

Definition CommandId_derive (effect : Uuid) (attempt : AttemptNo) : Uuid :=
  let encoded := canonical_bytes
    [ uuid_as_bytes effect; to_be_bytes 4 (AttemptNo_get attempt) ] in
  uuid_new_v5 SAGA_ID_NAMESPACE encoded.

(** *** The execution context (context.rs) *)

Record SagaContext := mkSagaContext {
  ctx_saga_id : SagaId;
  ctx_tenant_id : TenantId;
  ctx_workflow : WorkflowName;
  ctx_definition_version : DefinitionVersion;
  ctx_definition_digest : string;
  ctx_step : StepName;
  ctx_phase : StepPhase;
  ctx_attempt : AttemptNo;
  ctx_effect_id : Uuid;
  ctx_target_phase : StepPhase;
  ctx_target_effect_id : Uuid;
  ctx_command_id : Uuid;
  ctx_payload : option SagaPayload
}.

Definition SagaContext_new (saga_id : SagaId) (tenant_id : TenantId) (workflow : WorkflowName)
    (definition_version : DefinitionVersion) (definition_digest : string) (step : StepName)
    (phase : StepPhase) (attempt : AttemptNo) : SagaContext :=
  let effect_id := EffectId_derive saga_id definition_version step phase in
  let command_id := CommandId_derive effect_id attempt in
  {| ctx_saga_id := saga_id;
     ctx_tenant_id := tenant_id;
     ctx_workflow := workflow;
     ctx_definition_version := definition_version;
     ctx_definition_digest := definition_digest;
     ctx_step := step;
     ctx_phase := phase;
     ctx_attempt := attempt;
     ctx_effect_id := effect_id;
     ctx_target_phase := phase;
     ctx_target_effect_id := effect_id;
     ctx_command_id := command_id;
     ctx_payload := None |}.

Definition SagaContext_with_payload (self : SagaContext) (payload : option SagaPayload)
    : SagaContext :=
  {| ctx_saga_id := ctx_saga_id self;
     ctx_tenant_id := ctx_tenant_id self;
     ctx_workflow := ctx_workflow self;
     ctx_definition_version := ctx_definition_version self;
     ctx_definition_digest := ctx_definition_digest self;
     ctx_step := ctx_step self;
     ctx_phase := ctx_phase self;
     ctx_attempt := ctx_attempt self;
     ctx_effect_id := ctx_effect_id self;
     ctx_target_phase := ctx_target_phase self;
     ctx_target_effect_id := ctx_target_effect_id self;
     ctx_command_id := ctx_command_id self;
     ctx_payload := payload |}.

Definition SagaContext_with_target_phase (self : SagaContext) (target_phase : StepPhase)
    : SagaContext :=
  {| ctx_saga_id := ctx_saga_id self;
     ctx_tenant_id := ctx_tenant_id self;
     ctx_workflow := ctx_workflow self;
     ctx_definition_version := ctx_definition_version self;
     ctx_definition_digest := ctx_definition_digest self;
     ctx_step := ctx_step self;
     ctx_phase := ctx_phase self;
     ctx_attempt := ctx_attempt self;
     ctx_effect_id := ctx_effect_id self;
     ctx_target_phase := target_phase;
     ctx_target_effect_id :=
       EffectId_derive (ctx_saga_id self) (ctx_definition_version self) (ctx_step self)
         target_phase;
     ctx_command_id := ctx_command_id self;
     ctx_payload := ctx_payload self |}.

(** *** Payload validation *)

(** [serde_json::from_slice::<Value>] succeeds on these bytes. *)
Context (json_from_slice_ok : list Z → bool).

Definition SagaPayload_validate (self : SagaPayload) : result unit SagaPayloadError :=
  try? SagaPayloadContract_validate (SagaPayload_contract self) in
  if bool_decide (payload_content_type self = "application/json") then
    ensure json_from_slice_ok (payload_body self) else PayloadContractInvalid in Ok tt
  else Ok tt.

Definition SagaPayload_new (content_type schema_id : string) (body : list Z)
    : result SagaPayload SagaPayloadError :=
  let payload := {| payload_content_type := content_type;
                    payload_schema_id := schema_id;
                    payload_body := body |} in
  try? SagaPayload_validate payload in
  Ok payload.
End derivation.

Arguments SagaContext Uuid : clear implicits.

(** The documented behaviour of UUIDv5 the protocol rests on: two different
    names in the Saga name space have different UUIDs, and a UUID is its
    bytes. *)
Class UuidV5 (Uuid : Type) (uuid_as_bytes : Uuid → list Z)
    (uuid_new_v5 : list Z → list Z → Uuid) : Prop := {
  uuid_v5_distinct : ∀ x y,
    uuid_new_v5 SAGA_ID_NAMESPACE x = uuid_new_v5 SAGA_ID_NAMESPACE y → x = y;
  uuid_bytes_distinct : ∀ u v, uuid_as_bytes u = uuid_as_bytes v → u = v;
  uuid_bytes_fit : ∀ u, field_fits (uuid_as_bytes u)
}.

(** An idealised UUIDv5 that meets the class: the name itself, numbered. *)
#[export] Instance ideal_uuid : UuidV5 positive (λ p, [Zpos p]) (λ _ x, encode x).
Proof.
  split.
  - intros x y H. by apply encode_inj in H.
  - intros u v H. by simplify_eq.
  - intros u. unfold field_fits. simpl. lia.
Qed.

Section identities.
Context `{HU : UuidV5 Uuid uuid_as_bytes uuid_new_v5}.

Abbreviation effect_id := (EffectId_derive uuid_new_v5).
Abbreviation command_id := (CommandId_derive uuid_as_bytes uuid_new_v5).

Lemma effect_fields_fit s v st p :
  opaque_ok (SagaId_as_str s) → identifier_ok (StepName_as_str st) →
  Forall field_fits
    [ as_bytes (SagaId_as_str s); to_be_bytes 4 (DefinitionVersion_get v);
      as_bytes (StepName_as_str st); as_bytes (StepPhase_as_str p) ].
Proof.
  intros [Hs _] [Hst _].
  rewrite !Forall_cons. split_and!; [apply field_fits_str; lia|apply field_fits_be; lia|
    apply field_fits_str; lia|apply field_fits_str; destruct p; by vm_compute|constructor].
Qed.

Lemma effect_id_inj s1 s2 v1 v2 st1 st2 p1 p2 :
  opaque_ok (SagaId_as_str s1) → opaque_ok (SagaId_as_str s2) →
  is_u32 (DefinitionVersion_get v1) = true → is_u32 (DefinitionVersion_get v2) = true →
  identifier_ok (StepName_as_str st1) → identifier_ok (StepName_as_str st2) →
  effect_id s1 v1 st1 p1 = effect_id s2 v2 st2 p2 →
  s1 = s2 ∧ v1 = v2 ∧ st1 = st2 ∧ p1 = p2.
Proof.
  intros Hs1 Hs2 Hv1%is_u32_spec Hv2%is_u32_spec Hst1 Hst2 H%uuid_v5_distinct.
  apply canonical_bytes_inj in H; [|by apply effect_fields_fit..].
  apply cons_inv in H as [H1 [H2 [H3 [H4 _]%cons_inv]%cons_inv]%cons_inv].
  apply as_bytes_inj in H1, H3, H4. apply to_be_bytes_inj in H2; [|lia..].
  apply StepPhase_as_str_inj in H4.
  destruct s1, s2, v1, v2, st1, st2. simpl in *. by subst.
Qed.

Lemma command_id_inj e1 e2 a1 a2 :
  is_u32 (AttemptNo_get a1) = true → is_u32 (AttemptNo_get a2) = true →
  command_id e1 a1 = command_id e2 a2 → e1 = e2 ∧ a1 = a2.
Proof.
  intros Ha1%is_u32_spec Ha2%is_u32_spec H%uuid_v5_distinct.
  apply canonical_bytes_inj in H;
    [|rewrite !Forall_cons; split_and!; [apply uuid_bytes_fit|apply field_fits_be; lia|constructor]..].
  apply cons_inv in H as [H1 [H2 _]%cons_inv]. apply uuid_bytes_distinct in H1. apply to_be_bytes_inj in H2; [|lia..].
  destruct a1, a2. simpl in *. by subst.
Qed.
End identities.

(** ** Properties *)

(** For names accepted by the constructors, the effect identity of a
    context is determined by, and determines, the saga, the definition version,
    the step and the phase, whatever the attempt; the command identity is the
    same together with the attempt number. *)
Theorem context_identities `{UuidV5 Uuid uuid_as_bytes uuid_new_v5}
    (rs1 rs2 rst1 rst2 : string) (s1 s2 : SagaId) (st1 st2 : StepName)
    (t1 t2 : TenantId) (w1 w2 : WorkflowName) (d1 d2 : string)
    (v1 v2 : DefinitionVersion) (p1 p2 : StepPhase) (a1 a2 : AttemptNo)
    (Hs1 : SagaId_new rs1 = Ok s1) (Hs2 : SagaId_new rs2 = Ok s2)
    (Hst1 : StepName_new rst1 = Ok st1) (Hst2 : StepName_new rst2 = Ok st2)
    (Hv : is_u32 (DefinitionVersion_get v1) && is_u32 (DefinitionVersion_get v2) = true)
    (Ha : is_u32 (AttemptNo_get a1) && is_u32 (AttemptNo_get a2) = true) :
  let c1 := SagaContext_new uuid_as_bytes uuid_new_v5 s1 t1 w1 v1 d1 st1 p1 a1 in
  let c2 := SagaContext_new uuid_as_bytes uuid_new_v5 s2 t2 w2 v2 d2 st2 p2 a2 in
  (ctx_effect_id c1 = ctx_effect_id c2 ↔ (s1, v1, st1, p1) = (s2, v2, st2, p2)) ∧
  (ctx_command_id c1 = ctx_command_id c2 ↔ (s1, v1, st1, p1, a1) = (s2, v2, st2, p2, a2)).
Proof.
  unfold SagaId_new, StepName_new in *. inv_result.
  repeat match goal with
  | H : validate_opaque _ _ = Ok _ |- _ => apply validate_opaque_Ok in H as [-> ?]
  | H : validate_identifier _ _ = Ok _ |- _ => apply validate_identifier_Ok in H as [-> ?]
  | H : _ && _ = true |- _ => apply andb_prop in H as [? ?]
  end.
  simpl.
  pose proof (effect_id_inj (uuid_new_v5 := uuid_new_v5)
    (mkSagaId rs1) (mkSagaId rs2) v1 v2 (mkStepName rst1) (mkStepName rst2) p1 p2) as He.
  split; split.
  - intros Heq. apply He in Heq; naive_solver.
  - intros [= -> -> -> ->]. done.
  - intros Heq. apply command_id_inj in Heq as [Heq ->]; [|done..]. apply He in Heq; naive_solver.
  - intros [= -> -> -> -> ->]. done.
Qed.

Lemma context_identities_witness :
  let mk a := SagaContext_new (λ p : positive, [Zpos p]) (λ _ x, encode x)
    (mkSagaId "saga-1") (mkTenantId "t") (mkWorkflowName "order") (mkDefinitionVersion 1)
    "digest" (mkStepName "debit") Execute (mkAttemptNo a) in
  ctx_effect_id (mk 1) = ctx_effect_id (mk 2) ∧ ctx_command_id (mk 1) ≠ ctx_command_id (mk 2).
Proof.
  intros mk. unfold mk.
  destruct (context_identities "saga-1" "saga-1" "debit" "debit"
    (mkSagaId "saga-1") (mkSagaId "saga-1") (mkStepName "debit") (mkStepName "debit")
    (mkTenantId "t") (mkTenantId "t") (mkWorkflowName "order") (mkWorkflowName "order")
    "digest" "digest" (mkDefinitionVersion 1) (mkDefinitionVersion 1) Execute Execute
    (mkAttemptNo 1) (mkAttemptNo 2)) as [He Hc];
    [reflexivity..|].
  split; [by apply He|]. intros H%Hc. discriminate H.
Defined.
