(* ===== verification/SagaState.v ===== *)
(** * The closed saga state machine, its vocabularies and its outcomes

    Models [nasaga-core/src/state.rs] (instance status, direction, control
    state and [check_transition]), [journal.rs] (the step journal's stable
    vocabularies) and [outcome.rs] (what a handler may report). *)

From Stdlib Require Import ZArith Lia.
From S2P Require Import Prelude SagaIdentity.
From stdpp Require Import prelude strings.

Local Open Scope rust_scope.

(** ** Stable vocabularies

    Every persisted enumeration has a stable text; [parse] is documented as the
    strict inverse of [as_str].  The class states that promise; the store and
    the orchestrator rely on nothing else about the texts. *)
Class Vocabulary (T : Type) := {
  as_str : T → string;
  parse : string → option T;
  parse_as_str : ∀ x, parse (as_str x) = Some x;
  parse_sound : ∀ raw x, parse raw = Some x → as_str x = raw
}.

Lemma vocabulary_iff `{Vocabulary T} raw (x : T) : parse raw = Some x ↔ as_str x = raw.
Proof. split; [apply parse_sound|]. intros <-. apply parse_as_str. Qed.

Lemma vocabulary_inj `{Vocabulary T} (x y : T) : as_str x = as_str y → x = y.
Proof. intros E%vocabulary_iff. rewrite parse_as_str in E. congruence. Qed.

(** The second law, by enumeration of the texts. *)
Ltac parse_by_cases parse_def :=
  intros raw x; unfold parse_def; intros E;
  repeat case_bool_decide; simplify_eq; reflexivity.

(** ** Instance status *)

Inductive SagaStatus :=
| Running
| Cancelling
| WaitingResolution
| Compensating
| Completed
| Compensated
| ManualIntervention
| ManuallyClosed.

#[global] Instance SagaStatus_eq_dec : EqDecision SagaStatus.
Proof. solve_decision. Defined.

Definition SagaStatus_INITIAL : SagaStatus := Running.

Definition SagaStatus_as_str (self : SagaStatus) : string :=
  match self with
  | Running => "RUNNING"
  | Cancelling => "CANCELLING"
  | WaitingResolution => "WAITING_RESOLUTION"
  | Compensating => "COMPENSATING"
  | Completed => "COMPLETED"
  | Compensated => "COMPENSATED"
  | ManualIntervention => "MANUAL_INTERVENTION"
  | ManuallyClosed => "MANUALLY_CLOSED"
  end.

Definition SagaStatus_parse (raw : string) : option SagaStatus :=
  if bool_decide (raw = "RUNNING") then Some Running
  else if bool_decide (raw = "CANCELLING") then Some Cancelling
  else if bool_decide (raw = "WAITING_RESOLUTION") then Some WaitingResolution
  else if bool_decide (raw = "COMPENSATING") then Some Compensating
  else if bool_decide (raw = "COMPLETED") then Some Completed
  else if bool_decide (raw = "COMPENSATED") then Some Compensated
  else if bool_decide (raw = "MANUAL_INTERVENTION") then Some ManualIntervention
  else if bool_decide (raw = "MANUALLY_CLOSED") then Some ManuallyClosed
  else None.

Definition SagaStatus_is_terminal (self : SagaStatus) : bool :=
  match self with
  | Completed | Compensated | ManuallyClosed => true
  | _ => false
  end.

Definition SagaStatus_allows_automatic_commands (self : SagaStatus) : bool :=
  match self with
  | Running | Cancelling | WaitingResolution | Compensating => true
  | _ => false
  end.

Definition SagaStatus_can_transition_to (self to : SagaStatus) : bool :=
  match self, to with
  (* a step advanced inside one of the four automatic states *)
  | Running, Running
  | Cancelling, Cancelling
  | WaitingResolution, WaitingResolution
  | Compensating, Compensating => true
  (* forward *)
  | Running, Completed
  | Running, Compensating
  | Running, Cancelling
  | Running, WaitingResolution => true
  (* cancel barrier *)
  | Cancelling, WaitingResolution
  | Cancelling, Running
  | Cancelling, Completed
  | Cancelling, Compensating => true
  (* resolution *)
  | WaitingResolution, Running
  | WaitingResolution, Completed
  | WaitingResolution, Compensating => true
  (* compensation *)
  | Compensating, WaitingResolution
  | Compensating, Compensated => true
  (* escalation *)
  | Running, ManualIntervention
  | Cancelling, ManualIntervention
  | WaitingResolution, ManualIntervention
  | Compensating, ManualIntervention => true
  (* manual decisions *)
  | ManualIntervention, Compensating
  | ManualIntervention, Running
  | ManualIntervention, WaitingResolution => true
  | ManualIntervention, ManuallyClosed => true
  | _, _ => false
  end.

(** ** Direction and control state *)

Inductive Direction := Direction_Forward | Direction_Compensating.

#[global] Instance Direction_eq_dec : EqDecision Direction.
Proof. solve_decision. Defined.

Definition Direction_as_str (self : Direction) : string :=
  match self with
  | Direction_Forward => "FORWARD"
  | Direction_Compensating => "COMPENSATING"
  end.

Definition Direction_parse (raw : string) : option Direction :=
  if bool_decide (raw = "FORWARD") then Some Direction_Forward
  else if bool_decide (raw = "COMPENSATING") then Some Direction_Compensating
  else None.

Inductive ControlState := Active | Paused.

#[global] Instance ControlState_eq_dec : EqDecision ControlState.
Proof. solve_decision. Defined.

Definition ControlState_as_str (self : ControlState) : string :=
  match self with Active => "ACTIVE" | Paused => "PAUSED" end.

Definition ControlState_parse (raw : string) : option ControlState :=
  if bool_decide (raw = "ACTIVE") then Some Active
  else if bool_decide (raw = "PAUSED") then Some Paused
  else None.

Definition ControlState_allows_automatic_actions (self : ControlState) : bool :=
  match self with Active => true | Paused => false end.

(** ** Guarded transitions *)

Record TransitionGuard := mkGuard {
  any_compensation_succeeded : bool;
  manual_close_audited : bool
}.

Definition TransitionGuard_new (any_compensation_succeeded : bool) : TransitionGuard :=
  {| any_compensation_succeeded := any_compensation_succeeded;
     manual_close_audited := false |}.

Definition TransitionGuard_manual_close (audited : bool) : TransitionGuard :=
  {| any_compensation_succeeded := false; manual_close_audited := audited |}.

(** [#[derive(Default)]] *)
Definition TransitionGuard_default : TransitionGuard :=
  {| any_compensation_succeeded := false; manual_close_audited := false |}.

Definition CODE_TRANSITION_ILLEGAL : string := "transition_illegal".
Definition CODE_TRANSITION_FORWARD_AFTER_COMPENSATION : string :=
  "transition_forward_after_compensation".
Definition CODE_TRANSITION_MANUAL_CLOSE_UNAUDITED : string :=
  "transition_manual_close_unaudited".

Definition check_transition (from to : SagaStatus) (guard : TransitionGuard) : ContractResult unit :=
  ensure SagaStatus_can_transition_to from to else
    ContractViolation_new CODE_TRANSITION_ILLEGAL
      ("transition " +:+ SagaStatus_as_str from +:+ " -> " +:+ SagaStatus_as_str to
       +:+ " is not in the closed state machine") in
  ensure negb (bool_decide (from = ManualIntervention) && bool_decide (to = Running)
               && any_compensation_succeeded guard) else
    ContractViolation_new CODE_TRANSITION_FORWARD_AFTER_COMPENSATION
      "cannot resume forward execution after a compensation has already succeeded" in
  ensure negb (bool_decide (to = ManuallyClosed) && negb (manual_close_audited guard)) else
    ContractViolation_new CODE_TRANSITION_MANUAL_CLOSE_UNAUDITED
      "MANUALLY_CLOSED requires a same-transaction management audit record" in
  Ok tt.

(** ** The step journal's vocabularies (journal.rs) *)

Inductive StepCancelStatus :=
| Cancel_None
| Cancel_Confirmed
| Cancel_AlreadyTerminal
| Cancel_ResolutionPending.

#[global] Instance StepCancelStatus_eq_dec : EqDecision StepCancelStatus.
Proof. solve_decision. Defined.

Definition StepCancelStatus_as_str (self : StepCancelStatus) : string :=
  match self with
  | Cancel_None => "NONE"
  | Cancel_Confirmed => "CONFIRMED"
  | Cancel_AlreadyTerminal => "ALREADY_TERMINAL"
  | Cancel_ResolutionPending => "RESOLUTION_PENDING"
  end.

Definition StepCancelStatus_parse (raw : string) : option StepCancelStatus :=
  if bool_decide (raw = "NONE") then Some Cancel_None
  else if bool_decide (raw = "CONFIRMED") then Some Cancel_Confirmed
  else if bool_decide (raw = "ALREADY_TERMINAL") then Some Cancel_AlreadyTerminal
  else if bool_decide (raw = "RESOLUTION_PENDING") then Some Cancel_ResolutionPending
  else None.

Inductive StepCompensationStatus :=
| Comp_None
| Comp_Pending
| Comp_Succeeded
| Comp_Unknown
| Comp_Halted.

#[global] Instance StepCompensationStatus_eq_dec : EqDecision StepCompensationStatus.
Proof. solve_decision. Defined.

Definition StepCompensationStatus_as_str (self : StepCompensationStatus) : string :=
  match self with
  | Comp_None => "NONE"
  | Comp_Pending => "PENDING"
  | Comp_Succeeded => "SUCCEEDED"
  | Comp_Unknown => "UNKNOWN"
  | Comp_Halted => "HALTED"
  end.

Definition StepCompensationStatus_parse (raw : string) : option StepCompensationStatus :=
  if bool_decide (raw = "NONE") then Some Comp_None
  else if bool_decide (raw = "PENDING") then Some Comp_Pending
  else if bool_decide (raw = "SUCCEEDED") then Some Comp_Succeeded
  else if bool_decide (raw = "UNKNOWN") then Some Comp_Unknown
  else if bool_decide (raw = "HALTED") then Some Comp_Halted
  else None.

Inductive StepResolutionStatus :=
| Resolution_None
| Resolution_Pending
| Resolution_Succeeded
| Resolution_Rejected
| Resolution_Halted.

#[global] Instance StepResolutionStatus_eq_dec : EqDecision StepResolutionStatus.
Proof. solve_decision. Defined.

Definition StepResolutionStatus_as_str (self : StepResolutionStatus) : string :=
  match self with
  | Resolution_None => "NONE"
  | Resolution_Pending => "PENDING"
  | Resolution_Succeeded => "SUCCEEDED"
  | Resolution_Rejected => "REJECTED"
  | Resolution_Halted => "HALTED"
  end.

Definition StepResolutionStatus_parse (raw : string) : option StepResolutionStatus :=
  if bool_decide (raw = "NONE") then Some Resolution_None
  else if bool_decide (raw = "PENDING") then Some Resolution_Pending
  else if bool_decide (raw = "SUCCEEDED") then Some Resolution_Succeeded
  else if bool_decide (raw = "REJECTED") then Some Resolution_Rejected
  else if bool_decide (raw = "HALTED") then Some Resolution_Halted
  else None.

Inductive StepAttemptStatus :=
| Attempt_Started
| Attempt_Succeeded
| Attempt_Rejected
| Attempt_Unknown
| Attempt_Halted
| Attempt_CancelConfirmed
| Attempt_AlreadyTerminal
| Attempt_ResolutionPending.

#[global] Instance StepAttemptStatus_eq_dec : EqDecision StepAttemptStatus.
Proof. solve_decision. Defined.

Definition StepAttemptStatus_as_str (self : StepAttemptStatus) : string :=
  match self with
  | Attempt_Started => "STARTED"
  | Attempt_Succeeded => "SUCCEEDED"
  | Attempt_Rejected => "REJECTED"
  | Attempt_Unknown => "UNKNOWN"
  | Attempt_Halted => "HALTED"
  | Attempt_CancelConfirmed => "CANCEL_CONFIRMED"
  | Attempt_AlreadyTerminal => "ALREADY_TERMINAL"
  | Attempt_ResolutionPending => "RESOLUTION_PENDING"
  end.

Definition StepAttemptStatus_parse (raw : string) : option StepAttemptStatus :=
  if bool_decide (raw = "STARTED") then Some Attempt_Started
  else if bool_decide (raw = "SUCCEEDED") then Some Attempt_Succeeded
  else if bool_decide (raw = "REJECTED") then Some Attempt_Rejected
  else if bool_decide (raw = "UNKNOWN") then Some Attempt_Unknown
  else if bool_decide (raw = "HALTED") then Some Attempt_Halted
  else if bool_decide (raw = "CANCEL_CONFIRMED") then Some Attempt_CancelConfirmed
  else if bool_decide (raw = "ALREADY_TERMINAL") then Some Attempt_AlreadyTerminal
  else if bool_decide (raw = "RESOLUTION_PENDING") then Some Attempt_ResolutionPending
  else None.

Definition StepAttemptStatus_is_in_flight (self : StepAttemptStatus) : bool :=
  match self with Attempt_Started => true | _ => false end.

Inductive TriggerKind := Trigger_Event | Trigger_Timer | Trigger_Admin.

#[global] Instance TriggerKind_eq_dec : EqDecision TriggerKind.
Proof. solve_decision. Defined.

Definition TriggerKind_as_str (self : TriggerKind) : string :=
  match self with
  | Trigger_Event => "EVENT"
  | Trigger_Timer => "TIMER"
  | Trigger_Admin => "ADMIN"
  end.

Definition TriggerKind_parse (raw : string) : option TriggerKind :=
  if bool_decide (raw = "EVENT") then Some Trigger_Event
  else if bool_decide (raw = "TIMER") then Some Trigger_Timer
  else if bool_decide (raw = "ADMIN") then Some Trigger_Admin
  else None.

(** The forward status of a step ([plan.rs]). *)
Inductive StepForwardStatus :=
| Forward_Pending
| Forward_Succeeded
| Forward_Rejected
| Forward_Cancelled
| Forward_Unknown
| Forward_TimedOut
| Forward_Halted.

#[global] Instance StepForwardStatus_eq_dec : EqDecision StepForwardStatus.
Proof. solve_decision. Defined.

Definition StepForwardStatus_as_str (self : StepForwardStatus) : string :=
  match self with
  | Forward_Pending => "PENDING"
  | Forward_Succeeded => "SUCCEEDED"
  | Forward_Rejected => "REJECTED"
  | Forward_Cancelled => "CANCELLED"
  | Forward_Unknown => "UNKNOWN"
  | Forward_TimedOut => "TIMED_OUT"
  | Forward_Halted => "HALTED"
  end.

Definition StepForwardStatus_parse (raw : string) : option StepForwardStatus :=
  if bool_decide (raw = "PENDING") then Some Forward_Pending
  else if bool_decide (raw = "SUCCEEDED") then Some Forward_Succeeded
  else if bool_decide (raw = "REJECTED") then Some Forward_Rejected
  else if bool_decide (raw = "CANCELLED") then Some Forward_Cancelled
  else if bool_decide (raw = "UNKNOWN") then Some Forward_Unknown
  else if bool_decide (raw = "TIMED_OUT") then Some Forward_TimedOut
  else if bool_decide (raw = "HALTED") then Some Forward_Halted
  else None.

Definition StepForwardStatus_is_settled (self : StepForwardStatus) : bool :=
  match self with
  | Forward_Pending | Forward_Succeeded | Forward_Rejected | Forward_Cancelled => true
  | _ => false
  end.

(** *** The promise of [Vocabulary], for every persisted enumeration *)

#[export] Instance SagaStatus_vocabulary : Vocabulary SagaStatus.
Proof.
  refine {| as_str := SagaStatus_as_str; parse := SagaStatus_parse |}.
  - by intros [].
  - parse_by_cases SagaStatus_parse.
Defined.

#[export] Instance Direction_vocabulary : Vocabulary Direction.
Proof.
  refine {| as_str := Direction_as_str; parse := Direction_parse |}.
  - by intros [].
  - parse_by_cases Direction_parse.
Defined.

#[export] Instance ControlState_vocabulary : Vocabulary ControlState.
Proof.
  refine {| as_str := ControlState_as_str; parse := ControlState_parse |}.
  - by intros [].
  - parse_by_cases ControlState_parse.
Defined.

#[export] Instance StepCancelStatus_vocabulary : Vocabulary StepCancelStatus.
Proof.
  refine {| as_str := StepCancelStatus_as_str; parse := StepCancelStatus_parse |}.
  - by intros [].
  - parse_by_cases StepCancelStatus_parse.
Defined.

#[export] Instance StepCompensationStatus_vocabulary : Vocabulary StepCompensationStatus.
Proof.
  refine {| as_str := StepCompensationStatus_as_str; parse := StepCompensationStatus_parse |}.
  - by intros [].
  - parse_by_cases StepCompensationStatus_parse.
Defined.

#[export] Instance StepResolutionStatus_vocabulary : Vocabulary StepResolutionStatus.
Proof.
  refine {| as_str := StepResolutionStatus_as_str; parse := StepResolutionStatus_parse |}.
  - by intros [].
  - parse_by_cases StepResolutionStatus_parse.
Defined.

#[export] Instance StepAttemptStatus_vocabulary : Vocabulary StepAttemptStatus.
Proof.
  refine {| as_str := StepAttemptStatus_as_str; parse := StepAttemptStatus_parse |}.
  - by intros [].
  - parse_by_cases StepAttemptStatus_parse.
Defined.

#[export] Instance TriggerKind_vocabulary : Vocabulary TriggerKind.
Proof.
  refine {| as_str := TriggerKind_as_str; parse := TriggerKind_parse |}.
  - by intros [].
  - parse_by_cases TriggerKind_parse.
Defined.

#[export] Instance StepForwardStatus_vocabulary : Vocabulary StepForwardStatus.
Proof.
  refine {| as_str := StepForwardStatus_as_str; parse := StepForwardStatus_parse |}.
  - by intros [].
  - parse_by_cases StepForwardStatus_parse.
Defined.

#[export] Instance StepPhase_vocabulary : Vocabulary StepPhase.
Proof.
  refine {| as_str := StepPhase_as_str; parse := StepPhase_parse |}.
  - by intros [].
  - parse_by_cases StepPhase_parse.
Defined.

(** ** Handler outcomes (outcome.rs) *)

Inductive SagaOutcome (T : Type) :=
| Outcome_Succeeded (product : T)
| Outcome_Rejected (reason : string)
| Outcome_Unknown (reason : string)
| Outcome_Halted (reason : string).

Arguments Outcome_Succeeded {T} product.
Arguments Outcome_Rejected {T} reason.
Arguments Outcome_Unknown {T} reason.
Arguments Outcome_Halted {T} reason.

Definition SagaOutcome_is_succeeded {T} (self : SagaOutcome T) : bool :=
  match self with Outcome_Succeeded _ => true | _ => false end.

Definition SagaOutcome_is_terminal {T} (self : SagaOutcome T) : bool :=
  match self with Outcome_Unknown _ => false | _ => true end.

Definition SagaOutcome_code {T} (self : SagaOutcome T) : option string :=
  match self with
  | Outcome_Succeeded _ => None
  | Outcome_Rejected c | Outcome_Unknown c | Outcome_Halted c => Some c
  end.

Inductive CompensationOutcome :=
| CompOutcome_Succeeded
| CompOutcome_Unknown (reason : string)
| CompOutcome_Halted (reason : string).

Definition CompensationOutcome_is_succeeded (self : CompensationOutcome) : bool :=
  match self with CompOutcome_Succeeded => true | _ => false end.

Definition CompensationOutcome_code (self : CompensationOutcome) : option string :=
  match self with
  | CompOutcome_Succeeded => None
  | CompOutcome_Unknown c | CompOutcome_Halted c => Some c
  end.

Inductive TerminalForwardOutcome :=
| Terminal_Succeeded
| Terminal_Rejected (reason : string)
| Terminal_Halted (reason : string).

Inductive CancelOutcome :=
| CancelOutcome_CancelConfirmed
| CancelOutcome_AlreadyTerminal (outcome : TerminalForwardOutcome)
| CancelOutcome_ResolutionPending (reason : string).

Definition CancelOutcome_is_resolved (self : CancelOutcome) : bool :=
  match self with CancelOutcome_ResolutionPending _ => false | _ => true end.

(** ** The state machine as a step relation

    One persisted transition: the source is the committed status, the guard is
    read from the committed journal in the same transaction. *)
Inductive saga_step : SagaStatus → SagaStatus → Prop :=
| saga_step_checked from to guard :
    check_transition from to guard = Ok tt → saga_step from to.

(** A path lists the statuses entered after the start, oldest first. *)
Inductive saga_path : SagaStatus → list SagaStatus → SagaStatus → Prop :=
| saga_path_nil s : saga_path s [] s
| saga_path_cons s t path u : saga_step s t → saga_path t path u → saga_path s (t :: path) u.

Lemma check_transition_Ok from to guard :
  check_transition from to guard = Ok tt ↔
  SagaStatus_can_transition_to from to = true ∧
  ¬ (from = ManualIntervention ∧ to = Running ∧ any_compensation_succeeded guard = true) ∧
  (to = ManuallyClosed → manual_close_audited guard = true).
Proof.
  unfold check_transition. destruct guard as [c m]. simpl.
  destruct (SagaStatus_can_transition_to from to); [|naive_solver].
  repeat case_bool_decide; destruct c, m; simpl; naive_solver.
Qed.

Lemma saga_step_can from to : saga_step from to → SagaStatus_can_transition_to from to = true.
Proof. by intros [? ? ? [? _]%check_transition_Ok]. Qed.

Lemma can_saga_step from to : SagaStatus_can_transition_to from to = true → saga_step from to.
Proof.
  intros H. apply (saga_step_checked _ _ (mkGuard false true)).
  apply check_transition_Ok. naive_solver.
Qed.

Lemma saga_path_snoc s path t u : saga_path s path t → saga_step t u → saga_path s (path ++ [u]) u.
Proof. induction 1; simpl; eauto using saga_path. Qed.

(** Terminal statuses are absorbing along paths. *)
Lemma saga_path_terminal s path t :
  saga_path s path t → SagaStatus_is_terminal s = true → path = [] ∧ t = s.
Proof.
  intros Hp Hs. inversion Hp as [|? t' ? ? Hst]; subst; [done|].
  apply saga_step_can in Hst. destruct s, t'; discriminate.
Qed.

(** Every entry into [Compensated] comes from [Compensating]. *)
Lemma compensated_from_compensating s : saga_step s Compensated → s = Compensating.
Proof. intros H%saga_step_can. destruct s; discriminate || done. Qed.

Lemma saga_path_compensated s path :
  saga_path s path Compensated → s ≠ Compensated → Compensating ∈ s :: path.
Proof.
  intros Hp. remember Compensated as c eqn:Hc. induction Hp as [|s t path u Hst Hp IH]; [done|].
  subst u. intros _. destruct (decide (t = Compensated)) as [->|Ht].
  - apply compensated_from_compensating in Hst as ->. set_solver.
  - set_solver.
Qed.

(** ** Properties *)

(** The status machine is closed and total in its verdicts: terminal
    statuses have no outgoing transition whatever the guard; exactly the four
    statuses that allow automatic commands may be re-entered from themselves;
    the only other status is [ManualIntervention]; and every non-terminal
    status can reach a terminal one by checked transitions. *)
Theorem saga_machine_closed (s : SagaStatus) :
  (SagaStatus_is_terminal s = true ↔ ∀ t, ¬ saga_step s t) ∧
  (SagaStatus_allows_automatic_commands s = true ↔ saga_step s s) ∧
  (SagaStatus_is_terminal s = false → SagaStatus_allows_automatic_commands s = false →
    s = ManualIntervention) ∧
  (∃ path t, saga_path s path t ∧ SagaStatus_is_terminal t = true).
Proof.
  split_and!.
  - split.
    + intros Hs t Hst%saga_step_can. destruct s, t; discriminate.
    + intros H. destruct s; try done; exfalso;
        first [by apply (H ManualIntervention), can_saga_step
              |by apply (H ManuallyClosed), can_saga_step].
  - split.
    + intros Hs. apply can_saga_step. by destruct s.
    + intros Hst%saga_step_can. by destruct s.
  - by destruct s.
  - destruct (SagaStatus_is_terminal s) eqn:Hs.
    { exists [], s. split; [constructor|done]. }
    destruct (decide (s = ManualIntervention)) as [->|Hm].
    { exists [ManuallyClosed], ManuallyClosed.
      eauto using saga_path, can_saga_step. }
    exists [ManualIntervention; ManuallyClosed], ManuallyClosed. split; [|done].
    apply (saga_path_cons _ ManualIntervention); [apply can_saga_step; by destruct s|].
    eauto using saga_path, can_saga_step.
Qed.

Lemma saga_machine_closed_witness :
  ∃ path t, saga_path ManualIntervention path t ∧ SagaStatus_is_terminal t = true.
Proof. exact (proj2 (proj2 (proj2 (saga_machine_closed ManualIntervention)))). Defined.

(** Along every checked path of an instance from its initial status:
    [COMPENSATED] is reached only through [COMPENSATING]; nothing follows a
    terminal status; and [MANUALLY_CLOSED] is entered only from
    [MANUAL_INTERVENTION]. *)
Theorem saga_paths_safe (path : list SagaStatus) (t : SagaStatus)
    (Hpath : saga_path SagaStatus_INITIAL path t) :
  (t = Compensated → Compensating ∈ path) ∧
  (∀ pre u post, path = pre ++ u :: post → SagaStatus_is_terminal u = true → post = []) ∧
  (∀ pre u post, path = pre ++ u :: ManuallyClosed :: post → u = ManualIntervention).
Proof.
  split_and!.
  - intros ->. apply saga_path_compensated in Hpath; [|done]. set_solver.
  - intros pre. remember SagaStatus_INITIAL as s eqn:Hs. clear Hs.
    revert path s Hpath. induction pre as [|x pre IH]; intros path s Hpath u post -> Hu.
    + inversion Hpath; subst. by eapply saga_path_terminal.
    + inversion Hpath; subst. by eapply IH.
  - intros pre. remember SagaStatus_INITIAL as s eqn:Hs. clear Hs.
    revert path s Hpath. induction pre as [|x pre IH]; intros path s Hpath u post ->.
    + inversion Hpath as [|? ? ? ? _ Hp]; subst. inversion Hp as [|? ? ? ? Hst _]; subst.
      apply saga_step_can in Hst. destruct u; discriminate || done.
    + inversion Hpath; subst. by eapply IH.
Qed.

Lemma saga_paths_safe_witness :
  saga_path SagaStatus_INITIAL [Compensating; Compensated] Compensated ∧
  Compensating ∈ [Compensating; Compensated].
Proof.
  assert (saga_path SagaStatus_INITIAL [Compensating; Compensated] Compensated) as Hp.
  { eapply saga_path_cons; [by apply can_saga_step|].
    eapply saga_path_cons; [by apply can_saga_step|apply saga_path_nil]. }
  split; [exact Hp|]. by apply (saga_paths_safe _ _ Hp).
Defined.

(** The guard against resuming forward execution covers only the manual
    edge: after a compensation has succeeded, the checked machine still accepts
    a return to [RUNNING] from [WAITING_RESOLUTION] and from [CANCELLING]; the
    callers' direction bookkeeping is what keeps those edges from being taken. *)
Theorem forward_after_compensation_unguarded :
  check_transition WaitingResolution Running (TransitionGuard_new true) = Ok tt ∧
  check_transition Cancelling Running (TransitionGuard_new true) = Ok tt ∧
  is_ok (check_transition ManualIntervention Running (TransitionGuard_new true)) = false.
Proof. done. Qed.

(** In every persisted vocabulary of the saga (status, direction, control
    state, the five step-journal columns, attempt status, trigger kind and
    phase), parsing is the strict inverse of printing: a text is accepted
    exactly when it is the text of the value returned, so two values never
    share a text and no other text is guessed. *)
Theorem vocabularies_strict_inverse :
  (∀ raw x, SagaStatus_parse raw = Some x ↔ SagaStatus_as_str x = raw) ∧
  (∀ raw x, Direction_parse raw = Some x ↔ Direction_as_str x = raw) ∧
  (∀ raw x, ControlState_parse raw = Some x ↔ ControlState_as_str x = raw) ∧
  (∀ raw x, StepForwardStatus_parse raw = Some x ↔ StepForwardStatus_as_str x = raw) ∧
  (∀ raw x, StepCancelStatus_parse raw = Some x ↔ StepCancelStatus_as_str x = raw) ∧
  (∀ raw x, StepCompensationStatus_parse raw = Some x ↔ StepCompensationStatus_as_str x = raw) ∧
  (∀ raw x, StepResolutionStatus_parse raw = Some x ↔ StepResolutionStatus_as_str x = raw) ∧
  (∀ raw x, StepAttemptStatus_parse raw = Some x ↔ StepAttemptStatus_as_str x = raw) ∧
  (∀ raw x, TriggerKind_parse raw = Some x ↔ TriggerKind_as_str x = raw) ∧
  (∀ raw x, StepPhase_parse raw = Some x ↔ StepPhase_as_str x = raw).
Proof. split_and!; intros raw x; exact (vocabulary_iff raw x). Qed.
