(* ===== verification/SagaDefinition.v ===== *)
(** * Workflow definitions

    Models [nasaga-core/src/definition.rs]: step definitions, the validation a
    definition passes before it may be published, and the canonical content
    digest that pins it to an instance.

    A [Duration] is its number of nanoseconds.  SHA-256 (crate [sha2]) is the
    parameter [sha256] of the digest; feeding a hasher in pieces is hashing the
    concatenation of the pieces. *)

From Stdlib Require Import ZArith Lia Ascii.
From S2P Require Import Prelude Bytes SagaIdentity.
From stdpp Require Import prelude strings pretty.

Local Open Scope Z_scope.
Local Open Scope rust_scope.

(** ** Declared capabilities of a step *)

Inductive Compensation := Compensable | NonCompensable.

Definition Compensation_as_str (self : Compensation) : string :=
  match self with
  | Compensable => "compensable"
  | NonCompensable => "non-compensable"
  end.

Inductive CancelMode := LocalFenceable | ExternallyCancellable | ResolveOnly.

Definition CancelMode_as_str (self : CancelMode) : string :=
  match self with
  | LocalFenceable => "local-fenceable"
  | ExternallyCancellable => "externally-cancellable"
  | ResolveOnly => "resolve-only"
  end.

Definition CancelMode_is_external (self : CancelMode) : bool :=
  match self with LocalFenceable => false | _ => true end.

Inductive ResolutionMode := Callback | Poll | Manual.

Definition ResolutionMode_as_str (self : ResolutionMode) : string :=
  match self with
  | Callback => "callback"
  | Poll => "poll"
  | Manual => "manual"
  end.

Record ResolutionSpec := mkResolutionSpec {
  allow_unknown : bool;
  resolution_mode : option ResolutionMode;
  resolution_budget : Z
}.

Definition ResolutionSpec_forbidden : ResolutionSpec :=
  {| allow_unknown := false; resolution_mode := None; resolution_budget := 0 |}.

Definition ResolutionSpec_allowed (mode : ResolutionMode) (budget : Z) : ResolutionSpec :=
  {| allow_unknown := true; resolution_mode := Some mode; resolution_budget := budget |}.

Inductive TimeoutPolicy := AcceptLateSuccess | CompensateLateSuccess.

Definition TimeoutPolicy_as_str (self : TimeoutPolicy) : string :=
  match self with
  | AcceptLateSuccess => "accept-late-success"
  | CompensateLateSuccess => "compensate-late-success"
  end.

#[global] Instance Compensation_eq_dec : EqDecision Compensation.
Proof. solve_decision. Defined.
#[global] Instance CancelMode_eq_dec : EqDecision CancelMode.
Proof. solve_decision. Defined.
#[global] Instance ResolutionMode_eq_dec : EqDecision ResolutionMode.
Proof. solve_decision. Defined.
#[global] Instance ResolutionSpec_eq_dec : EqDecision ResolutionSpec.
Proof. solve_decision. Defined.
#[global] Instance TimeoutPolicy_eq_dec : EqDecision TimeoutPolicy.
Proof. solve_decision. Defined.

(** ** Steps *)

Record StepDefinition := mkStepDefinition {
  step_name : StepName;
  step_owner : ServiceIdentity;
  step_compensation : Compensation;
  step_cancel_mode : CancelMode;
  step_resolution : ResolutionSpec;
  step_timeout : Z;
  step_timeout_policy : TimeoutPolicy;
  step_payload_contract : SagaPayloadContract
}.

#[global] Instance StepDefinition_eq_dec : EqDecision StepDefinition.
Proof. solve_decision. Defined.

Definition StepDefinition_new (name : StepName) (owner : ServiceIdentity)
    (compensation : Compensation) (cancel_mode : CancelMode) (resolution : ResolutionSpec)
    (timeout : Z) (timeout_policy : TimeoutPolicy) : StepDefinition :=
  {| step_name := name;
     step_owner := owner;
     step_compensation := compensation;
     step_cancel_mode := cancel_mode;
     step_resolution := resolution;
     step_timeout := timeout;
     step_timeout_policy := timeout_policy;
     step_payload_contract := SagaPayloadContract_default |}.

Definition StepDefinition_with_payload_contract (self : StepDefinition)
    (contract : SagaPayloadContract) : result StepDefinition SagaPayloadError :=
  try? SagaPayloadContract_validate contract in
  Ok {| step_name := step_name self;
        step_owner := step_owner self;
        step_compensation := step_compensation self;
        step_cancel_mode := step_cancel_mode self;
        step_resolution := step_resolution self;
        step_timeout := step_timeout self;
        step_timeout_policy := step_timeout_policy self;
        step_payload_contract := contract |}.

Definition StepDefinition_is_compensable (self : StepDefinition) : bool :=
  match step_compensation self with Compensable => true | NonCompensable => false end.

(** ** Definitions and their validation *)

Record WorkflowDefinition := mkWorkflowDefinition {
  workflow_name : WorkflowName;
  workflow_version : DefinitionVersion;
  workflow_steps : list StepDefinition
}.

Definition CODE_DEFINITION_EMPTY : string := "definition_has_no_step".
Definition CODE_DEFINITION_DUPLICATE_STEP : string := "definition_duplicate_step".
Definition CODE_DEFINITION_PIVOT_NOT_LAST : string := "definition_pivot_not_last".
Definition CODE_DEFINITION_RESOLUTION_MISSING : string := "definition_resolution_missing".
Definition CODE_DEFINITION_MODE_CONFLICT : string := "definition_mode_conflict".
Definition CODE_DEFINITION_BUDGET_ZERO : string := "definition_budget_zero".

Definition quoted (s : string) : string := "`" +:+ s +:+ "`".
Definition bool_display (b : bool) : string := if b then "true" else "false".
Definition is_zero (duration : Z) : bool := duration =? 0.
Definition is_none {A} (o : option A) : bool := match o with None => true | Some _ => false end.

Section validation.
Context (self : WorkflowDefinition).

Definition step_label (step : StepDefinition) : string :=
  "workflow " +:+ quoted (WorkflowName_as_str (workflow_name self))
  +:+ " step " +:+ quoted (StepName_as_str (step_name step)).

Definition WorkflowDefinition_validate_step (index : nat) (step : StepDefinition)
    : ContractResult unit :=
  ensure negb (bool_decide (step_compensation step = NonCompensable)
               && negb (Nat.eqb (index + 1) (length (workflow_steps self)))) else
    ContractViolation_new CODE_DEFINITION_PIVOT_NOT_LAST
      (step_label step +:+ " is non-compensable but is followed by further steps") in
  ensure negb (bool_decide (step_compensation step = NonCompensable)
               && bool_decide (step_timeout_policy step = CompensateLateSuccess)) else
    ContractViolation_new CODE_DEFINITION_MODE_CONFLICT
      (step_label step +:+ " is non-compensable and must not compensate on late success") in
  ensure negb (is_zero (step_timeout step)) else
    ContractViolation_new CODE_DEFINITION_BUDGET_ZERO
      (step_label step +:+ " must declare a non-zero timeout") in
  ensure Bool.eqb (CancelMode_is_external (step_cancel_mode step))
           (allow_unknown (step_resolution step)) else
    ContractViolation_new CODE_DEFINITION_MODE_CONFLICT
      (step_label step +:+ " cancel mode " +:+ quoted (CancelMode_as_str (step_cancel_mode step))
       +:+ " conflicts with allow_unknown="
       +:+ bool_display (allow_unknown (step_resolution step))) in
  if allow_unknown (step_resolution step) then
    ensure negb (is_none (resolution_mode (step_resolution step))) else
      ContractViolation_new CODE_DEFINITION_RESOLUTION_MISSING
        (step_label step +:+ " allows unknown but declares no resolution mode") in
    ensure negb (is_zero (resolution_budget (step_resolution step))) else
      ContractViolation_new CODE_DEFINITION_BUDGET_ZERO
        (step_label step +:+ " allows unknown but declares no resolution budget") in
    Ok tt
  else
    ensure is_none (resolution_mode (step_resolution step)) else
      ContractViolation_new CODE_DEFINITION_MODE_CONFLICT
        (step_label step +:+ " forbids unknown but declares a resolution mode") in
    Ok tt.

(** The loop over the names already [seen]. *)
Fixpoint check_duplicates (seen : list string) (steps : list StepDefinition)
    : ContractResult unit :=
  match steps with
  | [] => Ok tt
  | step :: rest =>
      let name := StepName_as_str (step_name step) in
      ensure negb (bool_decide (name ∈ seen)) else
        ContractViolation_new CODE_DEFINITION_DUPLICATE_STEP
          ("workflow " +:+ quoted (WorkflowName_as_str (workflow_name self))
           +:+ " declares duplicate step " +:+ quoted name) in
      check_duplicates (name :: seen) rest
  end.

(** The loop over [steps.iter().enumerate()]. *)
Fixpoint check_steps (index : nat) (steps : list StepDefinition) : ContractResult unit :=
  match steps with
  | [] => Ok tt
  | step :: rest =>
      try? WorkflowDefinition_validate_step index step in
      check_steps (S index) rest
  end.

Definition WorkflowDefinition_validate : ContractResult unit :=
  ensure negb (bool_decide (workflow_steps self = [])) else
    ContractViolation_new CODE_DEFINITION_EMPTY
      ("workflow " +:+ quoted (WorkflowName_as_str (workflow_name self))
       +:+ " declares no step") in
  try? check_duplicates [] (workflow_steps self) in
  check_steps 0 (workflow_steps self).
End validation.

Definition WorkflowDefinition_new (name : WorkflowName) (version : DefinitionVersion)
    (steps : list StepDefinition) : ContractResult WorkflowDefinition :=
  let definition := {| workflow_name := name; workflow_version := version;
                       workflow_steps := steps |} in
  try? WorkflowDefinition_validate definition in
  Ok definition.

Definition WorkflowDefinition_step (self : WorkflowDefinition) (name : StepName)
    : option StepDefinition :=
  find_first (λ step, bool_decide (step_name step = name)) (workflow_steps self).

Definition WorkflowDefinition_pivot (self : WorkflowDefinition) : option StepDefinition :=
  match last (workflow_steps self) with
  | Some step => if negb (StepDefinition_is_compensable step) then Some step else None
  | None => None
  end.

(** ** The content digest *)

Definition as_millis (duration : Z) : Z := duration / 1000000.

Definition mode_text (mode : option ResolutionMode) : string :=
  match mode with Some m => ResolutionMode_as_str m | None => "" end.

Definition step_digest_input (step : StepDefinition) : list Z :=
  (if bool_decide (step_payload_contract step = SagaPayloadContract_default) then []
   else canonical_bytes
     [ as_bytes "payload-contract";
       as_bytes (content_type (step_payload_contract step));
       as_bytes (schema_id (step_payload_contract step)) ])
  ++ canonical_bytes
     [ as_bytes (StepName_as_str (step_name step));
       as_bytes (ServiceIdentity_as_str (step_owner step));
       as_bytes (Compensation_as_str (step_compensation step));
       as_bytes (CancelMode_as_str (step_cancel_mode step));
       [if allow_unknown (step_resolution step) then 1 else 0];
       as_bytes (mode_text (resolution_mode (step_resolution step)));
       to_be_bytes 16 (as_millis (resolution_budget (step_resolution step)));
       to_be_bytes 16 (as_millis (step_timeout step));
       as_bytes (TimeoutPolicy_as_str (step_timeout_policy step)) ].

Definition digest_input (self : WorkflowDefinition) : list Z :=
  canonical_bytes
    [ as_bytes (WorkflowName_as_str (workflow_name self));
      to_be_bytes 4 (DefinitionVersion_get (workflow_version self));
      to_be_bytes 8 (Z.of_nat (length (workflow_steps self))) ]
  ++ concat (map step_digest_input (workflow_steps self)).

(** [format!("{byte:02x}")]. *)
Definition hex_digit (n : Z) : ascii :=
  if n <? 10 then ascii_of_N (Z.to_N (48 + n)) else ascii_of_N (Z.to_N (87 + n)).

Fixpoint hex_string (bs : list Z) : string :=
  match bs with
  | [] => EmptyString
  | b :: r => String (hex_digit (b / 16)) (String (hex_digit (b mod 16)) (hex_string r))
  end.

Section digest.
Context (sha256 : list Z → list Z).

Definition WorkflowDefinition_digest (self : WorkflowDefinition) : string :=
  hex_string (sha256 (digest_input self)).
End digest.

(** SHA-256 as the protocol relies on it: it returns bytes, and the digests of
    two different byte strings differ. *)
Class Sha256 (sha256 : list Z → list Z) : Prop := {
  sha256_bytes : ∀ x, Forall (λ b, 0 ≤ b < 256) (sha256 x);
  sha256_distinct : ∀ x y,
    Forall (λ b, 0 ≤ b < 256) x → Forall (λ b, 0 ≤ b < 256) y →
    sha256 x = sha256 y → x = y
}.

Definition ideal_sha256 (x : list Z) : list Z := map (λ b, b mod 256) x.

#[export] Instance ideal_sha256_spec : Sha256 ideal_sha256.
Proof.
  split.
  - intros x. unfold ideal_sha256. apply Forall_fmap, Forall_true. intros b. simpl.
    apply Z.mod_pos_bound. lia.
  - intros x y Hx. unfold ideal_sha256. revert y.
    induction Hx as [|b x Hb _ IH]; intros [|c y] Hy H; simpl in *; simplify_eq; [done|].
    apply Forall_cons in Hy as [Hc Hy].
    f_equal; [rewrite !Z.mod_small in H by lia; done|]. by apply IH.
Qed.

(** ** What validation accepts *)

Definition step_accepted (n index : nat) (step : StepDefinition) : Prop :=
  (step_compensation step = NonCompensable →
     S index = n ∧ step_timeout_policy step = AcceptLateSuccess) ∧
  step_timeout step ≠ 0 ∧
  CancelMode_is_external (step_cancel_mode step) = allow_unknown (step_resolution step) ∧
  (allow_unknown (step_resolution step) = true →
     is_none (resolution_mode (step_resolution step)) = false ∧
     resolution_budget (step_resolution step) ≠ 0) ∧
  (allow_unknown (step_resolution step) = false → resolution_mode (step_resolution step) = None).

Lemma validate_step_Ok self index step :
  WorkflowDefinition_validate_step self index step = Ok tt ↔
  step_accepted (length (workflow_steps self)) index step.
Proof.
  unfold WorkflowDefinition_validate_step, step_accepted.
  generalize (step_label self step) as label. intros label.
  generalize (length (workflow_steps self)) as n. intros n.
  destruct step as [nm ow comp cm [au rm rb] to tp pc]. simpl.
  unfold is_zero.
  destruct (Nat.eqb_spec (index + 1) n), (Z.eqb_spec to 0), (Z.eqb_spec rb 0);
    destruct comp, tp, au, cm, rm; simpl; naive_solver lia.
Qed.

Lemma check_duplicates_Ok self seen steps :
  check_duplicates self seen steps = Ok tt ↔
  NoDup (map (λ s, StepName_as_str (step_name s)) steps) ∧
  ∀ s, s ∈ steps → StepName_as_str (step_name s) ∉ seen.
Proof.
  revert seen. induction steps as [|s steps IH]; intros seen; simpl.
  { split; [|done]. intros _. split; [constructor|]. set_solver. }
  case_bool_decide as Hin; simpl.
  { split; [done|]. intros [_ H]. destruct (H s); set_solver. }
  rewrite IH, NoDup_cons. split.
  - intros [Hnd Hs]. split_and!; [|done|].
    + rewrite list_elem_of_fmap. intros (t & Ht & Hin'). destruct (Hs t Hin'). set_solver.
    + intros t [->|Ht]%elem_of_cons; [done|]. intros Hseen. apply (Hs t Ht). set_solver.
  - intros [[Hnin Hnd] Hs]. split; [done|]. intros t Ht [Heq|Hseen]%elem_of_cons.
    + apply Hnin, list_elem_of_fmap. eauto.
    + apply (Hs t); [set_solver|done].
Qed.

Lemma check_steps_Ok self k steps :
  check_steps self k steps = Ok tt ↔
  ∀ i s, steps !! i = Some s → step_accepted (length (workflow_steps self)) (k + i) s.
Proof.
  revert k. induction steps as [|s steps IH]; intros k; simpl.
  { split; [|done]. intros _ i s. by rewrite lookup_nil. }
  rewrite result_bind_Ok. split.
  - intros ([] & Hs & Hr) [|i] t Hi; simpl in Hi; simplify_eq.
    + rewrite Nat.add_0_r. by apply validate_step_Ok.
    + rewrite IH in Hr. replace (k + S i)%nat with (S k + i)%nat by lia. by apply Hr.
  - intros H. exists tt. split.
    + apply validate_step_Ok. specialize (H 0%nat s eq_refl). by rewrite Nat.add_0_r in H.
    + apply IH. intros i t Hi. replace (S k + i)%nat with (k + S i)%nat by lia. by apply H.
Qed.

Definition definition_accepted (self : WorkflowDefinition) : Prop :=
  workflow_steps self ≠ [] ∧
  NoDup (map step_name (workflow_steps self)) ∧
  ∀ i s, workflow_steps self !! i = Some s →
    step_accepted (length (workflow_steps self)) i s.

Lemma StepName_as_str_inj a b : StepName_as_str a = StepName_as_str b → a = b.
Proof. destruct a, b. simpl. by intros ->. Qed.

Lemma NoDup_step_names steps :
  NoDup (map (λ s, StepName_as_str (step_name s)) steps) ↔ NoDup (map step_name steps).
Proof.
  assert (map (λ s, StepName_as_str (step_name s)) steps
          = StepName_as_str <$> (map step_name steps)) as ->.
  { by rewrite <- list_fmap_compose. }
  split; [apply NoDup_fmap_1|]. apply NoDup_fmap_2. intros a b. apply StepName_as_str_inj.
Qed.

Lemma WorkflowDefinition_validate_Ok self :
  WorkflowDefinition_validate self = Ok tt ↔ definition_accepted self.
Proof.
  unfold WorkflowDefinition_validate, definition_accepted.
  case_bool_decide as He; simpl; [naive_solver|].
  rewrite result_bind_Ok. setoid_rewrite check_steps_Ok.
  split.
  - intros ([] & [Hd _]%check_duplicates_Ok & Hs). rewrite NoDup_step_names in Hd. naive_solver.
  - intros (_ & Hd & Hs). exists tt. split; [|done]. apply check_duplicates_Ok.
    rewrite NoDup_step_names. split; [done|set_solver].
Qed.

Lemma WorkflowDefinition_new_Ok name version steps d :
  WorkflowDefinition_new name version steps = Ok d ↔
  d = mkWorkflowDefinition name version steps ∧ definition_accepted d.
Proof.
  unfold WorkflowDefinition_new. rewrite result_bind_Ok. split.
  - intros ([] & H & [= <-]). apply WorkflowDefinition_validate_Ok in H. done.
  - intros [-> H]. exists tt. split; [|done]. by apply WorkflowDefinition_validate_Ok.
Qed.

Lemma WorkflowDefinition_step_Some self name s :
  NoDup (map step_name (workflow_steps self)) →
  WorkflowDefinition_step self name = Some s ↔ s ∈ workflow_steps self ∧ step_name s = name.
Proof.
  intros Hnd. unfold WorkflowDefinition_step. split.
  - intros [Hin Hp%bool_decide_eq_true]%find_first_Some. done.
  - intros [Hin <-]. induction (workflow_steps self) as [|t steps IH]; [set_solver|].
    simpl in Hnd. apply NoDup_cons in Hnd as [Hnin Hnd]. simpl.
    case_bool_decide as Heq.
    + apply elem_of_cons in Hin as [->|Hin]; [done|]. destruct Hnin.
      rewrite Heq. by apply list_elem_of_fmap_2.
    + apply elem_of_cons in Hin as [->|Hin]; [done|]. by apply IH.
Qed.

(** ** What the digest pins

    The values the constructors of the program can build: validated names, a
    contract that is the default or passed validation, durations of at most
    [u64] seconds. *)
Definition duration_ok (d : Z) : Prop := 0 ≤ d < 2 ^ 64 * 1000000000.

Definition step_typed (s : StepDefinition) : Prop :=
  identifier_ok (StepName_as_str (step_name s)) ∧
  identifier_ok (ServiceIdentity_as_str (step_owner s)) ∧
  duration_ok (step_timeout s) ∧ duration_ok (resolution_budget (step_resolution s)) ∧
  (step_payload_contract s = SagaPayloadContract_default ∨
   SagaPayloadContract_validate (step_payload_contract s) = Ok tt).

Definition definition_typed (d : WorkflowDefinition) : Prop :=
  identifier_ok (WorkflowName_as_str (workflow_name d)) ∧
  is_u32 (DefinitionVersion_get (workflow_version d)) = true ∧
  Z.of_nat (length (workflow_steps d)) < 2 ^ 64 ∧
  Forall step_typed (workflow_steps d).

(** Everything a step means, its durations read in whole milliseconds. *)
Definition step_view (s : StepDefinition) :=
  (step_name s, step_owner s, step_compensation s, step_cancel_mode s,
   allow_unknown (step_resolution s), resolution_mode (step_resolution s),
   as_millis (resolution_budget (step_resolution s)), as_millis (step_timeout s),
   step_timeout_policy s, step_payload_contract s).

Definition contract_fields (c : SagaPayloadContract) : list (list Z) :=
  if bool_decide (c = SagaPayloadContract_default) then []
  else [as_bytes "payload-contract"; as_bytes (content_type c); as_bytes (schema_id c)].

Definition body_fields (s : StepDefinition) : list (list Z) :=
  [ as_bytes (StepName_as_str (step_name s));
    as_bytes (ServiceIdentity_as_str (step_owner s));
    as_bytes (Compensation_as_str (step_compensation s));
    as_bytes (CancelMode_as_str (step_cancel_mode s));
    [if allow_unknown (step_resolution s) then 1 else 0];
    as_bytes (mode_text (resolution_mode (step_resolution s)));
    to_be_bytes 16 (as_millis (resolution_budget (step_resolution s)));
    to_be_bytes 16 (as_millis (step_timeout s));
    as_bytes (TimeoutPolicy_as_str (step_timeout_policy s)) ].

Definition step_fields (s : StepDefinition) : list (list Z) :=
  contract_fields (step_payload_contract s) ++ body_fields s.

Definition head_fields (d : WorkflowDefinition) : list (list Z) :=
  [ as_bytes (WorkflowName_as_str (workflow_name d));
    to_be_bytes 4 (DefinitionVersion_get (workflow_version d));
    to_be_bytes 8 (Z.of_nat (length (workflow_steps d))) ].

Lemma step_digest_input_fields s : step_digest_input s = canonical_bytes (step_fields s).
Proof.
  unfold step_digest_input, step_fields, contract_fields. rewrite canonical_bytes_app.
  by case_bool_decide.
Qed.

Lemma digest_input_fields d :
  digest_input d = canonical_bytes (head_fields d ++ concat (map step_fields (workflow_steps d))).
Proof.
  unfold digest_input. rewrite canonical_bytes_app. f_equal.
  induction (workflow_steps d) as [|s steps IH]; simpl; [done|].
  by rewrite canonical_bytes_app, step_digest_input_fields, IH.
Qed.

Lemma as_millis_range d : duration_ok d → 0 ≤ as_millis d < 256 ^ Z.of_nat 16.
Proof.
  unfold duration_ok, as_millis. intros [H1 H2]. split; [apply Z.div_pos; lia|].
  apply Z.div_lt_upper_bound; [lia|]. eapply Z.lt_trans; [exact H2|]. reflexivity.
Qed.

Lemma split_once_In sep bs k v : split_once sep bs = Some (k, v) → sep ∈ bs.
Proof.
  revert k. induction bs as [|b bs IH]; intros k; simpl; [done|].
  destruct (Z.eqb_spec b sep) as [->|?]; [set_solver|].
  destruct (split_once sep bs) as [[k' v']|]; [|done]. intros [= <- <-]. set_solver.
Qed.

(** A validated contract has short fields and a slash in its media type, which
    no service identity has. *)
Lemma contract_validate_Ok c :
  SagaPayloadContract_validate c = Ok tt →
  47 ∈ as_bytes (content_type c) ∧ len (content_type c) ≤ 128 ∧ len (schema_id c) ≤ 256.
Proof.
  unfold SagaPayloadContract_validate.
  destruct (split_once 47 _) as [[k v]|] eqn:Hs; [|done]. apply split_once_In in Hs.
  destruct (128 <? _) eqn:?, (256 <? _) eqn:?; simpl;
    rewrite ?orb_true_r; simpl; try done. intros _. split; [done|lia].
Qed.

Lemma identifier_no_slash raw : identifier_ok raw → 47 ∉ as_bytes raw.
Proof.
  intros [_ H] Hin. rewrite forallb_elem_of in H. apply H in Hin. discriminate Hin.
Qed.

Lemma step_fields_fit s : step_typed s → Forall field_fits (step_fields s).
Proof.
  intros ([Hn _] & [Ho _] & _ & _ & Hc). unfold step_fields. apply Forall_app_2.
  - unfold contract_fields. case_bool_decide as Hd; [constructor|].
    destruct Hc as [|(_ & H1 & H2)%contract_validate_Ok]; [done|].
    rewrite !Forall_cons. split_and!; [by apply field_fits_str|apply field_fits_str; lia..|constructor].
  - unfold body_fields. rewrite !Forall_cons.
    split_and!; try (apply field_fits_be; lia); try (apply field_fits_str; lia); try constructor.
    + apply field_fits_str. by destruct (step_compensation s).
    + apply field_fits_str. by destruct (step_cancel_mode s).
    + apply field_fits_str. by destruct (resolution_mode _) as [[]|].
    + apply field_fits_str. by destruct (step_timeout_policy s).
Qed.

Lemma concat_fields_fit steps :
  Forall step_typed steps → Forall field_fits (concat (map step_fields steps)).
Proof.
  induction 1 as [|s steps Hs _ IH]; simpl; [constructor|].
  apply Forall_app_2; [by apply step_fields_fit|done].
Qed.

Lemma head_fields_fit d : definition_typed d → Forall field_fits (head_fields d).
Proof.
  intros ([Hn _] & _ & _ & _). unfold head_fields. rewrite !Forall_cons.
  split_and!; try (apply field_fits_be; lia); [apply field_fits_str; lia|constructor].
Qed.

Lemma Compensation_as_str_inj a b : Compensation_as_str a = Compensation_as_str b → a = b.
Proof. by destruct a, b. Qed.
Lemma CancelMode_as_str_inj a b : CancelMode_as_str a = CancelMode_as_str b → a = b.
Proof. by destruct a, b. Qed.
Lemma mode_text_inj a b : mode_text a = mode_text b → a = b.
Proof. by destruct a as [[]|], b as [[]|]. Qed.
Lemma TimeoutPolicy_as_str_inj a b : TimeoutPolicy_as_str a = TimeoutPolicy_as_str b → a = b.
Proof. by destruct a, b. Qed.

Definition body_view (s : StepDefinition) :=
  (step_name s, step_owner s, step_compensation s, step_cancel_mode s,
   allow_unknown (step_resolution s), resolution_mode (step_resolution s),
   as_millis (resolution_budget (step_resolution s)), as_millis (step_timeout s),
   step_timeout_policy s).

Lemma body_fields_inj s t k1 k2 :
  step_typed s → step_typed t →
  body_fields s ++ k1 = body_fields t ++ k2 → body_view s = body_view t ∧ k1 = k2.
Proof.
  intros (_ & _ & Hs1 & Hs2 & _) (_ & _ & Ht1 & Ht2 & _) H.
  apply as_millis_range in Hs1, Hs2, Ht1, Ht2.
  unfold body_fields in H. cbn [app] in H.
  apply cons_inv in H as [H1 [H2 [H3 [H4 [H5 [H6 [H7 [H8 [H9 Hk]%cons_inv]%cons_inv]%cons_inv]
    %cons_inv]%cons_inv]%cons_inv]%cons_inv]%cons_inv].
  apply as_bytes_inj in H1, H2, H3, H4, H6, H9.
  apply StepName_as_str_inj in H1. apply Compensation_as_str_inj in H3.
  apply CancelMode_as_str_inj in H4. apply mode_text_inj in H6.
  apply TimeoutPolicy_as_str_inj in H9.
  apply to_be_bytes_inj in H7, H8; try done.
  assert (step_owner s = step_owner t) as Ho.
  { destruct (step_owner s), (step_owner t). simpl in H2. by subst. }
  assert (allow_unknown (step_resolution s) = allow_unknown (step_resolution t)) as Ha.
  { by destruct (allow_unknown (step_resolution s)), (allow_unknown (step_resolution t)). }
  split; [|done]. unfold body_view. by rewrite H1, H3, H4, H6, H7, H8, H9, Ho, Ha.
Qed.

(** A contract block cannot be read as the start of a step without one. *)
Lemma contract_block_apart s c k1 k2 :
  step_typed s → SagaPayloadContract_validate c = Ok tt → c ≠ SagaPayloadContract_default →
  body_fields s ++ k1 ≠ contract_fields c ++ k2.
Proof.
  intros (_ & Ho & _) (Hc & _)%contract_validate_Ok Hd H.
  unfold body_fields, contract_fields in H. rewrite bool_decide_eq_false_2 in H by done.
  cbn [app] in H. apply cons_inv in H as [_ [H _]%cons_inv].
  rewrite <- H in Hc. by apply identifier_no_slash in Ho.
Qed.

Lemma step_view_body s t :
  body_view s = body_view t → step_payload_contract s = step_payload_contract t →
  step_view s = step_view t.
Proof. unfold body_view, step_view. intros H ->. congruence. Qed.

Lemma step_fields_inj s t k1 k2 :
  step_typed s → step_typed t →
  step_fields s ++ k1 = step_fields t ++ k2 → step_view s = step_view t ∧ k1 = k2.
Proof.
  intros Hs Ht H. unfold step_fields in H. rewrite <- !app_assoc in H.
  destruct (Hs) as (_ & _ & _ & _ & Hcs), (Ht) as (_ & _ & _ & _ & Hct).
  destruct (decide (step_payload_contract s = SagaPayloadContract_default)) as [Es|Es],
    (decide (step_payload_contract t = SagaPayloadContract_default)) as [Et|Et].
  - rewrite Es, Et in H. simpl in H. apply body_fields_inj in H as [Hv ->]; [|done..].
    split; [|done]. apply step_view_body; congruence.
  - exfalso. destruct Hct as [|Hct]; [done|]. rewrite Es in H.
    eapply contract_block_apart; [exact Hs|exact Hct|exact Et|exact H].
  - exfalso. destruct Hcs as [|Hcs]; [done|]. rewrite Et in H. symmetry in H.
    eapply contract_block_apart; [exact Ht|exact Hcs|exact Es|exact H].
  - unfold contract_fields in H. rewrite !bool_decide_eq_false_2 in H by done.
    cbn [app] in H. apply cons_inv in H as [_ [H1 [H2 H]%cons_inv]%cons_inv].
    apply as_bytes_inj in H1, H2. apply body_fields_inj in H as [Hv ->]; [|done..].
    split; [|done]. apply step_view_body; [done|].
    destruct (step_payload_contract s), (step_payload_contract t). simpl in *. by subst.
Qed.

Lemma concat_fields_inj ss ts :
  length ss = length ts → Forall step_typed ss → Forall step_typed ts →
  concat (map step_fields ss) = concat (map step_fields ts) →
  map step_view ss = map step_view ts.
Proof.
  intros Hl Hs. revert ts Hl. induction Hs as [|s ss Hs _ IH]; intros [|t ts] Hl Ht H;
    simpl in *; try done.
  apply Forall_cons in Ht as [Ht Hts].
  apply step_fields_inj in H as [Hv H]; [|done..]. f_equal; [done|]. apply IH; [lia|done..].
Qed.

(** The bytes hashed are bytes. *)
Lemma to_be_bytes_range w z : Forall (λ b, 0 ≤ b < 256) (to_be_bytes w z).
Proof.
  revert z. induction w as [|w IH]; intros z; [constructor|].
  change (to_be_bytes (S w) z) with (to_be_bytes w (z / 256) ++ [z mod 256]).
  apply Forall_app_2; [done|]. constructor; [|constructor]. apply Z.mod_pos_bound. lia.
Qed.

Lemma canonical_bytes_range fs :
  Forall (Forall (λ b, 0 ≤ b < 256)) fs → Forall (λ b, 0 ≤ b < 256) (canonical_bytes fs).
Proof.
  unfold canonical_bytes. induction 1 as [|f fs Hf _ IH]; cbn [map concat]; [constructor|].
  apply Forall_app_2; [|done]. unfold canonical_field.
  apply Forall_app_2; [apply to_be_bytes_range|done].
Qed.

Lemma step_fields_range s : Forall (Forall (λ b, 0 ≤ b < 256)) (step_fields s).
Proof.
  unfold step_fields, contract_fields, body_fields.
  apply Forall_app_2; [case_bool_decide; [constructor|]|]; rewrite !Forall_cons; split_and!;
    first [apply as_bytes_range|apply to_be_bytes_range|apply Forall_nil_2
          |destruct (allow_unknown _); lia].
Qed.

Lemma digest_input_range d : Forall (λ b, 0 ≤ b < 256) (digest_input d).
Proof.
  rewrite digest_input_fields. apply canonical_bytes_range. unfold head_fields.
  apply Forall_app_2.
  - rewrite !Forall_cons. split_and!;
      first [apply as_bytes_range|apply to_be_bytes_range|apply Forall_nil_2].
  - induction (workflow_steps d) as [|s steps IH]; simpl; [constructor|].
    apply Forall_app_2; [apply step_fields_range|done].
Qed.

Lemma digest_input_inj d e :
  definition_typed d → definition_typed e → digest_input d = digest_input e →
  workflow_name d = workflow_name e ∧ workflow_version d = workflow_version e ∧
  map step_view (workflow_steps d) = map step_view (workflow_steps e).
Proof.
  intros Hd He H. rewrite !digest_input_fields in H.
  apply canonical_bytes_inj in H;
    [|apply Forall_app_2; [by apply head_fields_fit|apply concat_fields_fit; apply Hd || apply He]..].
  unfold head_fields in H. cbn [app] in H.
  apply cons_inv in H as [H1 [H2 [H3 H4]%cons_inv]%cons_inv].
  destruct Hd as (_ & Hdv%is_u32_spec & Hdl & Hds), He as (_ & Hev%is_u32_spec & Hel & Hes).
  apply as_bytes_inj in H1. apply to_be_bytes_inj in H2, H3; [|lia..].
  split_and!.
  - destruct (workflow_name d), (workflow_name e). simpl in H1. by subst.
  - destruct (workflow_version d), (workflow_version e). simpl in H2. by subst.
  - apply concat_fields_inj; [lia|done..].
Qed.

(** Hexadecimal text is injective on bytes. *)
Lemma hex_digit_inj m n : 0 ≤ m < 16 → 0 ≤ n < 16 → hex_digit m = hex_digit n → m = n.
Proof.
  intros Hm Hn H. unfold hex_digit in H.
  assert (∀ k, 0 ≤ k < 128 → Z.of_N (N_of_ascii (ascii_of_N (Z.to_N k))) = k) as Hk.
  { intros k Hk. rewrite N_ascii_embedding by lia. lia. }
  destruct (m <? 10) eqn:?, (n <? 10) eqn:?;
    apply (f_equal (λ c, Z.of_N (N_of_ascii c))) in H; rewrite !Hk in H by lia; lia.
Qed.

Lemma hex_string_inj x y :
  Forall (λ b, 0 ≤ b < 256) x → Forall (λ b, 0 ≤ b < 256) y →
  hex_string x = hex_string y → x = y.
Proof.
  intros Hx. revert y. induction Hx as [|b x Hb _ IH]; intros [|c y] Hy H; simpl in H;
    simplify_eq; [done|]. apply Forall_cons in Hy as [Hc Hy].
  assert (∀ z, 0 ≤ z < 256 → 0 ≤ z / 16 < 16 ∧ 0 ≤ z mod 16 < 16) as Hz.
  { intros z Hz. split; [split; [apply Z.div_pos|apply Z.div_lt_upper_bound]; lia|].
    apply Z.mod_pos_bound. lia. }
  destruct (Hz b Hb), (Hz c Hc).
  repeat match goal with E : hex_digit _ = hex_digit _ |- _ => apply hex_digit_inj in E; [|done..] end.
  f_equal; [|by apply IH]. rewrite (Z.div_mod b 16), (Z.div_mod c 16) by lia. congruence.
Qed.

(** ** Properties *)

(** A definition is published exactly when it is non-empty, its step names
    are distinct, and every step is coherent: a non-compensable step is the
    last one and accepts late success, every step has a non-zero timeout, a
    step may report an unknown result exactly when it acts outside the local
    database, and then it names a resolution channel with a non-zero budget. *)
Theorem definition_published_iff name version steps d :
  WorkflowDefinition_new name version steps = Ok d ↔
  d = mkWorkflowDefinition name version steps ∧
  steps ≠ [] ∧ NoDup (map step_name steps) ∧
  ∀ i s, steps !! i = Some s →
    (step_compensation s = NonCompensable →
       S i = length steps ∧ step_timeout_policy s = AcceptLateSuccess) ∧
    step_timeout s ≠ 0 ∧
    CancelMode_is_external (step_cancel_mode s) = allow_unknown (step_resolution s) ∧
    (if allow_unknown (step_resolution s)
     then resolution_mode (step_resolution s) ≠ None ∧ resolution_budget (step_resolution s) ≠ 0
     else resolution_mode (step_resolution s) = None).
Proof.
  rewrite WorkflowDefinition_new_Ok. unfold definition_accepted.
  assert (∀ n i s, step_accepted n i s ↔
    (step_compensation s = NonCompensable →
       S i = n ∧ step_timeout_policy s = AcceptLateSuccess) ∧
    step_timeout s ≠ 0 ∧
    CancelMode_is_external (step_cancel_mode s) = allow_unknown (step_resolution s) ∧
    (if allow_unknown (step_resolution s)
     then resolution_mode (step_resolution s) ≠ None ∧ resolution_budget (step_resolution s) ≠ 0
     else resolution_mode (step_resolution s) = None)) as Hs.
  { intros n i s. unfold step_accepted. destruct (allow_unknown _), (resolution_mode _); naive_solver. }
  setoid_rewrite Hs. split; intros [-> H]; done.
Qed.

(** The digest of a definition pins it: two definitions the program can
    build with the same digest have the same name, the same version and, step
    by step and in order, the same meaning, durations being read in whole
    milliseconds.  In particular the optional payload-contract block is never
    confused with the fields of a step. *)
Theorem digest_pins_definition `{Sha256 sha256} (d e : WorkflowDefinition)
    (Hd : definition_typed d) (He : definition_typed e)
    (Heq : WorkflowDefinition_digest sha256 d = WorkflowDefinition_digest sha256 e) :
  workflow_name d = workflow_name e ∧ workflow_version d = workflow_version e ∧
  map step_view (workflow_steps d) = map step_view (workflow_steps e).
Proof.
  apply digest_input_inj; [done..|]. unfold WorkflowDefinition_digest in Heq.
  apply hex_string_inj in Heq; [|apply sha256_bytes..].
  apply sha256_distinct in Heq; [done|apply digest_input_range..].
Qed.

(** A two-step transfer, used by the witnesses. *)
Definition sample_step (n : string) (c : Compensation) (timeout : Z) : StepDefinition :=
  StepDefinition_new (mkStepName n) (mkServiceIdentity "ledger") c LocalFenceable
    ResolutionSpec_forbidden timeout AcceptLateSuccess.

Definition sample_definition (timeout : Z) : WorkflowDefinition :=
  {| workflow_name := mkWorkflowName "transfer";
     workflow_version := mkDefinitionVersion 1;
     workflow_steps := [sample_step "debit" Compensable timeout;
                        sample_step "notify" NonCompensable 5000000] |}.

Lemma sample_definition_typed timeout :
  duration_ok timeout → definition_typed (sample_definition timeout).
Proof.
  intros Ht. unfold definition_typed, sample_definition. simpl.
  split_and!; [done..|]. rewrite !Forall_cons.
  split_and!; [unfold step_typed; simpl; split_and!..|constructor];
    try done; try (by left); unfold duration_ok; lia.
Qed.

Lemma digest_pins_definition_witness :
  WorkflowDefinition_digest ideal_sha256 (sample_definition 1000000) ≠
  WorkflowDefinition_digest ideal_sha256 (sample_definition 2000000).
Proof.
  intros H. apply digest_pins_definition in H as (_ & _ & H).
  - vm_compute in H. discriminate H.
  - apply sample_definition_typed. unfold duration_ok. lia.
  - apply sample_definition_typed. unfold duration_ok. lia.
Defined.

(** The digest does not see below a millisecond: changing a timeout from
    one millisecond to one millisecond and one nanosecond changes the
    definition and leaves its digest unchanged, for every hash function. *)
Theorem digest_blind_below_millisecond (sha256 : list Z → list Z) :
  sample_definition 1000000 ≠ sample_definition 1000001 ∧
  WorkflowDefinition_digest sha256 (sample_definition 1000000) =
  WorkflowDefinition_digest sha256 (sample_definition 1000001).
Proof. split; [by intros [=]|]. unfold WorkflowDefinition_digest. by vm_compute. Qed.
