(* ===== verification/SagaPlan.v ===== *)
(** * Freezing the compensation plan

    Models [nasaga-core/src/plan.rs]: the step journal facts, the plan and
    [freeze_compensation_plan], which derives the plan from the definition and
    the committed facts before any compensation is sent. *)

From Stdlib Require Import ZArith Lia Ascii.
From S2P Require Import Prelude Bytes SagaIdentity SagaState SagaDefinition.
From stdpp Require Import prelude strings pretty.

Local Open Scope Z_scope.
Local Open Scope rust_scope.

Record StepJournalEntry := mkJournalEntry {
  entry_step : StepName;
  entry_forward_status : StepForwardStatus
}.

#[global] Instance StepJournalEntry_eq_dec : EqDecision StepJournalEntry.
Proof. solve_decision. Defined.

Record CompensationEntry := mkCompensationEntry {
  plan_step : StepName;
  plan_order : Z
}.

Record CompensationPlan := mkCompensationPlan {
  plan_version : string;
  plan_entries : list CompensationEntry
}.

Definition CompensationPlan_is_empty (self : CompensationPlan) : bool :=
  match plan_entries self with [] => true | _ => false end.

Definition CompensationPlan_contains (self : CompensationPlan) (step : StepName) : bool :=
  existsb (λ entry, bool_decide (plan_step entry = step)) (plan_entries self).

Definition CODE_PLAN_SUCCEEDED_PIVOT : string := "plan_contains_succeeded_pivot".
Definition CODE_PLAN_UNKNOWN_STEP : string := "plan_unknown_step".
Definition CODE_PLAN_DUPLICATE_STEP : string := "plan_duplicate_step".
Definition CODE_PLAN_MISSING_STEP : string := "plan_missing_step".
Definition CODE_PLAN_UNSETTLED_STEP : string := "plan_unsettled_step".

Section freeze.
Context (sha256 : list Z → list Z) (definition : WorkflowDefinition).

Definition workflow_label : string :=
  quoted (WorkflowName_as_str (workflow_name definition)) +:+ " v"
  +:+ pretty (DefinitionVersion_get (workflow_version definition)).

(** The loop over the journal; the result is the set of names seen. *)
Fixpoint scan_journal (seen : list string) (journal : list StepJournalEntry)
    : ContractResult (list string) :=
  match journal with
  | [] => Ok seen
  | entry :: rest =>
      let name := StepName_as_str (entry_step entry) in
      let? step := ok_or (WorkflowDefinition_step definition (entry_step entry))
        (ContractViolation_new CODE_PLAN_UNKNOWN_STEP
          ("journal references step " +:+ quoted name +:+ " absent from workflow "
           +:+ workflow_label)) in
      ensure negb (bool_decide (name ∈ seen)) else
        ContractViolation_new CODE_PLAN_DUPLICATE_STEP
          ("journal contains duplicate step " +:+ quoted name) in
      ensure StepForwardStatus_is_settled (entry_forward_status entry) else
        ContractViolation_new CODE_PLAN_UNSETTLED_STEP
          ("step " +:+ quoted name +:+ " is "
           +:+ quoted (StepForwardStatus_as_str (entry_forward_status entry))
           +:+ " and must be resolved before freezing a compensation plan") in
      ensure negb (bool_decide (entry_forward_status entry = Forward_Succeeded)
                   && negb (StepDefinition_is_compensable step)) else
        ContractViolation_new CODE_PLAN_SUCCEEDED_PIVOT
          ("step " +:+ quoted name
           +:+ " succeeded but is non-compensable; automatic compensation must not proceed") in
      scan_journal (name :: seen) rest
  end.

Definition succeeded_in (journal : list StepJournalEntry) (step : StepDefinition) : bool :=
  existsb (λ entry, bool_decide (entry_step entry = step_name step)
                    && bool_decide (entry_forward_status entry = Forward_Succeeded)) journal.

(** The loop over [definition.steps().iter().rev()]; [usize as u32] truncates. *)
Fixpoint build_entries (journal : list StepJournalEntry) (entries : list CompensationEntry)
    (steps : list StepDefinition) : list CompensationEntry :=
  match steps with
  | [] => entries
  | step :: rest =>
      if succeeded_in journal step && StepDefinition_is_compensable step then
        build_entries journal
          (entries ++ [ {| plan_step := step_name step;
                           plan_order := (Z.of_nat (length entries) mod 2 ^ 32 + 1) mod 2 ^ 32 |} ])
          rest
      else build_entries journal entries rest
  end.

Definition plan_digest_input (entries : list CompensationEntry) : list Z :=
  canonical_bytes [ as_bytes (WorkflowDefinition_digest sha256 definition);
                    to_be_bytes 8 (Z.of_nat (length entries)) ]
  ++ concat (map (λ entry, canonical_bytes [ as_bytes (StepName_as_str (plan_step entry));
                                             to_be_bytes 4 (plan_order entry) ]) entries).

Definition freeze_compensation_plan (journal : list StepJournalEntry)
    : ContractResult CompensationPlan :=
  let? seen := scan_journal [] journal in
  match find_first (λ step, negb (bool_decide (StepName_as_str (step_name step) ∈ seen)))
          (workflow_steps definition) with
  | Some missing =>
      Err (ContractViolation_new CODE_PLAN_MISSING_STEP
        ("journal is missing definition step "
         +:+ quoted (StepName_as_str (step_name missing)) +:+ " for workflow " +:+ workflow_label))
  | None =>
      let entries := build_entries journal [] (rev (workflow_steps definition)) in
      Ok {| plan_version := hex_string (sha256 (plan_digest_input entries));
            plan_entries := entries |}
  end.
End freeze.

(** ** Facts *)

Definition entry_fine (definition : WorkflowDefinition) (e : StepJournalEntry) : Prop :=
  ∃ s, WorkflowDefinition_step definition (entry_step e) = Some s ∧
    StepForwardStatus_is_settled (entry_forward_status e) = true ∧
    (entry_forward_status e = Forward_Succeeded → StepDefinition_is_compensable s = true).

Definition entry_names (journal : list StepJournalEntry) : list string :=
  map (λ e, StepName_as_str (entry_step e)) journal.

Lemma scan_journal_Ok definition seen journal seen' :
  scan_journal definition seen journal = Ok seen' ↔
  seen' = rev (entry_names journal) ++ seen ∧
  Forall (entry_fine definition) journal ∧
  NoDup (entry_names journal) ∧ (∀ n, n ∈ entry_names journal → n ∉ seen).
Proof.
  revert seen. induction journal as [|e journal IH]; intros seen; simpl.
  { split; [intros [= ->]; split_and!; [done|constructor|constructor|set_solver]|].
    by intros [-> _]. }
  rewrite result_bind_Ok, Forall_cons, NoDup_cons. unfold entry_fine at 1.
  split.
  - intros (s & Hs & H). apply ok_or_Ok in Hs.
    destruct (bool_decide _) eqn:Hin in H; [done|]. apply bool_decide_eq_false in Hin.
    destruct (StepForwardStatus_is_settled _) eqn:Hset in H; [|done]. simpl in H.
    destruct (_ && _) eqn:Hp in H; [done|]. simpl in H. apply IH in H as (-> & Hf & Hnd & Hseen).
    split_and!; [by rewrite <- app_assoc|exists s|done|..].
    + split_and!; [done..|]. intros Hsucc. rewrite Hsucc, bool_decide_eq_true_2 in Hp by done.
      by destruct (StepDefinition_is_compensable s).
    + set_solver.
    + done.
    + intros n [->|Hn]%elem_of_cons; [done|]. specialize (Hseen n Hn). set_solver.
  - intros (-> & [(s & Hs & Hset & Hcomp) Hf] & [Hnin Hnd] & Hseen). exists s.
    rewrite ok_or_Ok. split; [done|].
    rewrite bool_decide_eq_false_2 by (apply Hseen; set_solver). simpl. rewrite Hset.
    case_bool_decide as Hsucc; [rewrite (Hcomp Hsucc)|]; simpl; apply IH; split_and!;
      try done; try (by rewrite <- app_assoc);
      intros n Hn [->|Hn']%elem_of_cons; [done|by apply (Hseen n); [set_solver|]
        |done|by apply (Hseen n); [set_solver|]].
Qed.

Definition covered (definition : WorkflowDefinition) (journal : list StepJournalEntry) : Prop :=
  ∀ s, s ∈ workflow_steps definition → step_name s ∈ map entry_step journal.

Lemma entry_names_elem journal n : n ∈ map entry_step journal ↔ StepName_as_str n ∈ entry_names journal.
Proof.
  unfold entry_names. rewrite !list_elem_of_fmap. split.
  - intros (e & -> & He). eauto.
  - intros (e & H%StepName_as_str_inj & He). eauto.
Qed.

Lemma entry_names_NoDup journal : NoDup (entry_names journal) ↔ NoDup (map entry_step journal).
Proof.
  assert (entry_names journal = StepName_as_str <$> map entry_step journal) as ->.
  { unfold entry_names. by rewrite <- list_fmap_compose. }
  split; [apply NoDup_fmap_1|]. apply NoDup_fmap_2. intros a b. apply StepName_as_str_inj.
Qed.

(** The facts a plan may be frozen from. *)
Definition facts_complete (definition : WorkflowDefinition) (journal : list StepJournalEntry) : Prop :=
  Forall (entry_fine definition) journal ∧ NoDup (map entry_step journal) ∧
  covered definition journal.

Lemma freeze_Ok sha256 definition journal plan :
  freeze_compensation_plan sha256 definition journal = Ok plan ↔
  facts_complete definition journal ∧
  plan_entries plan = build_entries journal [] (rev (workflow_steps definition)) ∧
  plan_version plan = hex_string (sha256 (plan_digest_input sha256 definition (plan_entries plan))).
Proof.
  unfold freeze_compensation_plan, facts_complete. rewrite result_bind_Ok.
  setoid_rewrite scan_journal_Ok. setoid_rewrite app_nil_r. rewrite <- entry_names_NoDup.
  assert (find_first (λ step, negb (bool_decide (StepName_as_str (step_name step)
      ∈ rev (entry_names journal)))) (workflow_steps definition) = None
    ↔ covered definition journal) as Hc.
  { rewrite find_first_None. unfold covered. apply forall_proper; intros s.
    rewrite entry_names_elem, negb_false_iff, bool_decide_eq_true, !list_elem_of_In.
    by rewrite <- in_rev. }
  split.
  - intros (seen & (-> & Hf & Hnd & _) & H).
    destruct (find_first _ _); [done|]. simplify_eq. split; [|done]. split_and!; [done..|by apply Hc].
  - intros ((Hf & Hnd & Hcov) & He & Hv). exists (rev (entry_names journal)).
    split; [split_and!; [done..|set_solver]|]. apply Hc in Hcov. rewrite Hcov.
    destruct plan as [v es]. simpl in *. by subst.
Qed.

Section entries.
Context (journal : list StepJournalEntry).

Definition selected (s : StepDefinition) : bool :=
  succeeded_in journal s && StepDefinition_is_compensable s.

Lemma build_entries_steps acc steps :
  map plan_step (build_entries journal acc steps) =
  map plan_step acc ++ map step_name (List.filter selected steps).
Proof.
  revert acc. induction steps as [|s steps IH]; intros acc; simpl; [by rewrite app_nil_r|].
  unfold selected at 1. destruct (_ && _); rewrite IH; [|done].
  by rewrite map_app, <- app_assoc.
Qed.

Lemma build_entries_orders acc steps :
  map plan_order acc = seqZ 1 (Z.of_nat (length acc)) →
  Z.of_nat (length acc + length steps) < 2 ^ 32 - 1 →
  map plan_order (build_entries journal acc steps) =
  seqZ 1 (Z.of_nat (length (build_entries journal acc steps))).
Proof.
  revert acc. induction steps as [|s steps IH]; intros acc Hacc Hl; simpl in *; [done|].
  destruct (_ && _); apply IH; [|rewrite length_app; simpl; lia|done|lia].
  rewrite map_app, length_app, Hacc. simpl.
  rewrite !Z.mod_small by (rewrite ?Z.mod_small; lia).
  rewrite Nat2Z.inj_add, seqZ_app by lia. f_equal. simpl.
  rewrite Z.add_comm. reflexivity.
Qed.
End entries.

Lemma selected_perm j1 j2 s : j1 ≡ₚ j2 → selected j1 s = selected j2 s.
Proof.
  intros Hp. unfold selected, succeeded_in. f_equal. apply eq_true_iff_eq.
  rewrite !existsb_elem_of. by setoid_rewrite Hp.
Qed.

Lemma build_entries_perm j1 j2 acc steps :
  j1 ≡ₚ j2 → build_entries j1 acc steps = build_entries j2 acc steps.
Proof.
  intros Hp. revert acc. induction steps as [|s steps IH]; intros acc; simpl; [done|].
  pose proof (selected_perm j1 j2 s Hp) as Hs. unfold selected in Hs. rewrite Hs.
  destruct (succeeded_in j2 s && _); apply IH.
Qed.

(** Reordered journals are interchangeable. *)
#[export] Instance build_entries_proper : Proper ((≡ₚ) ==> eq ==> eq ==> eq) build_entries.
Proof. intros j1 j2 Hp ? ? -> ? ? ->. by apply build_entries_perm. Qed.

#[export] Instance facts_complete_proper d : Proper ((≡ₚ) ==> iff) (facts_complete d).
Proof.
  intros j1 j2 Hp. unfold facts_complete, covered.
  assert (map entry_step j1 ≡ₚ map entry_step j2) as Hm by (by apply fmap_Permutation).
  rewrite Hm. setoid_rewrite Hm. by rewrite Hp.
Qed.

Lemma succeeded_in_elem journal s :
  succeeded_in journal s = true ↔ mkJournalEntry (step_name s) Forward_Succeeded ∈ journal.
Proof.
  unfold succeeded_in. rewrite existsb_elem_of. split.
  - intros ([n f] & He & [Hn%bool_decide_eq_true Hf%bool_decide_eq_true]%andb_prop).
    simpl in *. by subst.
  - intros H. eexists. split; [exact H|]. simpl. by rewrite !bool_decide_eq_true_2.
Qed.

Lemma map_rev_filter {A B} (f : A → B) (p : A → bool) l :
  map f (List.filter p (rev l)) = rev (map f (List.filter p l)).
Proof.
  induction l as [|x l IH]; simpl; [done|].
  rewrite List.filter_app, map_app, IH. simpl. destruct (p x); simpl; [done|by rewrite app_nil_r].
Qed.

(** In a frozen plan the compensable successes are all the successes. *)
Lemma selected_succeeded definition journal s :
  NoDup (map step_name (workflow_steps definition)) →
  facts_complete definition journal → s ∈ workflow_steps definition →
  selected journal s = succeeded_in journal s.
Proof.
  intros Hnd (Hf & _ & _) Hs. unfold selected.
  destruct (succeeded_in journal s) eqn:Hsucc; [|done]. simpl.
  apply succeeded_in_elem in Hsucc. rewrite Forall_forall in Hf.
  destruct (Hf _ Hsucc) as (t & Ht & _ & Hc). simpl in *.
  apply WorkflowDefinition_step_Some in Ht as [Ht Heq]; [|done].
  assert (WorkflowDefinition_step definition (step_name s) = Some t) as E1
    by (by apply WorkflowDefinition_step_Some).
  assert (WorkflowDefinition_step definition (step_name s) = Some s) as E2
    by (by apply WorkflowDefinition_step_Some).
  rewrite E1 in E2. injection E2 as ->. by apply Hc.
Qed.

Lemma filter_ext_elem {A} (p q : A → bool) l :
  (∀ x, x ∈ l → p x = q x) → List.filter p l = List.filter q l.
Proof.
  induction l as [|x l IH]; intros H; simpl; [done|].
  rewrite (H x), IH by set_solver. done.
Qed.

(** *** The plan digest *)

Lemma plan_digest_fields sha256 d entries :
  plan_digest_input sha256 d entries =
  canonical_bytes ([ as_bytes (WorkflowDefinition_digest sha256 d);
                     to_be_bytes 8 (Z.of_nat (length entries)) ]
    ++ concat (map (λ e, [ as_bytes (StepName_as_str (plan_step e));
                           to_be_bytes 4 (plan_order e) ]) entries)).
Proof.
  unfold plan_digest_input. rewrite canonical_bytes_app. f_equal.
  induction entries as [|e entries IH]; cbn [map concat]; [done|].
  by rewrite canonical_bytes_app, IH.
Qed.

Definition entry_typed (e : CompensationEntry) : Prop :=
  identifier_ok (StepName_as_str (plan_step e)) ∧ is_u32 (plan_order e) = true.

Lemma entries_fields_inj es1 es2 :
  Forall entry_typed es1 → Forall entry_typed es2 →
  concat (map (λ e, [ as_bytes (StepName_as_str (plan_step e)); to_be_bytes 4 (plan_order e) ]) es1) =
  concat (map (λ e, [ as_bytes (StepName_as_str (plan_step e)); to_be_bytes 4 (plan_order e) ]) es2) →
  es1 = es2.
Proof.
  intros H1. revert es2. induction H1 as [|e es1 [_ He%is_u32_spec] _ IH]; intros [|f es2] H2 H;
    cbn [map concat app] in H; [done|done|done|].
  apply cons_inv in H as [Hn [Ho H]%cons_inv]. apply Forall_cons in H2 as [[_ Hf%is_u32_spec] H2].
  apply as_bytes_inj, StepName_as_str_inj in Hn. apply to_be_bytes_inj in Ho; [|lia..].
  f_equal; [destruct e, f; simpl in *; by subst|by apply IH].
Qed.

Lemma hex_string_length bs : String.length (hex_string bs) = (2 * length bs)%nat.
Proof. induction bs as [|b bs IH]; simpl; [done|]. rewrite IH. lia. Qed.

Lemma plan_fields_fit digest entries :
  field_fits (as_bytes digest) → Forall entry_typed entries →
  Forall field_fits ([ as_bytes digest; to_be_bytes 8 (Z.of_nat (length entries)) ]
    ++ concat (map (λ e, [ as_bytes (StepName_as_str (plan_step e));
                           to_be_bytes 4 (plan_order e) ]) entries)).
Proof.
  intros Hd He. apply Forall_app_2.
  - rewrite !Forall_cons. split_and!; [done|apply field_fits_be; lia|constructor].
  - induction He as [|e es [[Hn _] _] _ IH]; cbn [map concat app]; [constructor|].
    constructor; [apply field_fits_str; lia|]. constructor; [apply field_fits_be; lia|done].
Qed.

Lemma plan_digest_range sha256 d entries :
  Forall (λ b, 0 ≤ b < 256) (plan_digest_input sha256 d entries).
Proof.
  rewrite plan_digest_fields. apply canonical_bytes_range. apply Forall_app_2.
  - rewrite !Forall_cons. split_and!;
      first [apply as_bytes_range|apply to_be_bytes_range|apply Forall_nil_2].
  - induction entries as [|e es IH]; cbn [map concat app]; [constructor|].
    constructor; [apply as_bytes_range|]. constructor; [apply to_be_bytes_range|done].
Qed.

Lemma orders_range n o : (0 ≤ n < 2 ^ 32 - 1) → o ∈ seqZ 1 n → is_u32 o = true.
Proof. intros Hn Ho%elem_of_seqZ. apply is_u32_spec. lia. Qed.

Lemma build_entries_length j acc steps :
  (length (build_entries j acc steps) <= length acc + length steps)%nat.
Proof.
  revert acc. induction steps as [|s steps IH]; intros acc; simpl; [lia|].
  destruct (_ && _); etrans; try apply IH; rewrite ?length_app; simpl; lia.
Qed.

(** Entries of a frozen plan are typed when the definition is. *)
Lemma frozen_entries_typed sha256 d j plan :
  freeze_compensation_plan sha256 d j = Ok plan →
  Forall step_typed (workflow_steps d) → Z.of_nat (length (workflow_steps d)) < 2 ^ 32 - 1 →
  Forall entry_typed (plan_entries plan).
Proof.
  intros (_ & He & _)%freeze_Ok Hty Hl. rewrite Forall_forall in Hty. apply Forall_forall.
  intros e Hin. split.
  - apply (list_elem_of_fmap_2 plan_step) in Hin. change (plan_step <$> plan_entries plan)
      with (map plan_step (plan_entries plan)) in Hin.
    rewrite He, build_entries_steps in Hin. simpl in Hin.
    apply list_elem_of_fmap in Hin as (s & -> & Hs). apply Hty.
    apply filter_elem_of in Hs as [Hs _]. rewrite list_elem_of_In in Hs.
    by rewrite list_elem_of_In, in_rev.
  - apply (list_elem_of_fmap_2 plan_order) in Hin. change (plan_order <$> plan_entries plan)
      with (map plan_order (plan_entries plan)) in Hin.
    rewrite He, build_entries_orders in Hin; [|done|simpl; rewrite length_rev; lia].
    eapply orders_range, Hin. pose proof (build_entries_length j [] (rev (workflow_steps d))).
    rewrite length_rev in H. simpl in H. lia.
Qed.

(** ** Properties *)

(** For a published definition, a compensation plan is frozen exactly when
    the journal records every step of the definition once and nothing else,
    every recorded step is settled, and no non-compensable step succeeded; on
    any other journal freezing is refused and no plan exists. *)
Theorem freeze_accepts_iff sha256 name version steps d journal
    (Hpub : WorkflowDefinition_new name version steps = Ok d) :
  (∃ plan, freeze_compensation_plan sha256 d journal = Ok plan) ↔
  map entry_step journal ≡ₚ map step_name steps ∧
  ∀ e s, e ∈ journal → s ∈ steps → step_name s = entry_step e →
    StepForwardStatus_is_settled (entry_forward_status e) = true ∧
    (entry_forward_status e = Forward_Succeeded → step_compensation s = Compensable).
Proof.
  apply WorkflowDefinition_new_Ok in Hpub as [-> (_ & Hnd & _)]. simpl in Hnd.
  set (d := mkWorkflowDefinition name version steps).
  assert (∀ n s, WorkflowDefinition_step d n = Some s ↔ s ∈ steps ∧ step_name s = n) as Hstep.
  { intros n s. by apply WorkflowDefinition_step_Some. }
  setoid_rewrite freeze_Ok. unfold facts_complete, entry_fine, covered. simpl.
  setoid_rewrite Forall_forall. setoid_rewrite Hstep. split.
  - intros (plan & (Hf & Hndj & Hcov) & _). split.
    + apply NoDup_Permutation; [done..|]. intros n. split.
      * intros (e & -> & He)%list_elem_of_fmap. destruct (Hf e He) as (s & [Hs <-] & _).
        by apply list_elem_of_fmap_2.
      * intros (s & -> & Hs)%list_elem_of_fmap. by apply Hcov.
    + intros e s He Hs Heq. destruct (Hf e He) as (t & [Ht Hte] & Hset & Hc).
      assert (t = s) as ->.
      { assert (Some t = Some s) as E; [|congruence].
        transitivity (WorkflowDefinition_step d (entry_step e)); [symmetry|]; by apply Hstep. }
      split; [done|]. intros Hsucc%Hc. unfold StepDefinition_is_compensable in Hsucc.
      by destruct (step_compensation s).
  - intros [Hp Hf].
    exists (mkCompensationPlan
      (hex_string (sha256 (plan_digest_input sha256 d (build_entries journal [] (rev steps)))))
      (build_entries journal [] (rev steps))).
    split; [|done]. split_and!.
    + intros e He. assert (entry_step e ∈ map step_name steps) as Hin.
      { rewrite <- Hp. by apply list_elem_of_fmap_2. }
      apply list_elem_of_fmap in Hin as (s & Hs & Hin). exists s.
      destruct (Hf e s He Hin (eq_sym Hs)) as [Hset Hc]. split_and!; [done..|].
      intros Hsucc%Hc. unfold StepDefinition_is_compensable. by rewrite Hsucc.
    + by rewrite Hp.
    + intros s Hs. rewrite Hp. by apply list_elem_of_fmap_2.
Qed.

(** C37. A frozen plan lists exactly the steps whose forward execution
    succeeded, in the reverse of the definition's order, numbered from 1; so a
    step is in the plan if and only if the journal says it succeeded. *)
Theorem frozen_plan_exact sha256 name version steps d journal plan
    (Hpub : WorkflowDefinition_new name version steps = Ok d)
    (Hlen : Z.of_nat (length steps) < 2 ^ 32 - 1)
    (Hfreeze : freeze_compensation_plan sha256 d journal = Ok plan) :
  map plan_step (plan_entries plan) =
    rev (map step_name (List.filter (succeeded_in journal) steps)) ∧
  map plan_order (plan_entries plan) = seqZ 1 (Z.of_nat (length (plan_entries plan))) ∧
  ∀ n, CompensationPlan_contains plan n = true ↔ mkJournalEntry n Forward_Succeeded ∈ journal.
Proof.
  apply WorkflowDefinition_new_Ok in Hpub as [-> (_ & Hnd & _)]. simpl in Hnd.
  apply freeze_Ok in Hfreeze as (Hfacts & He & _). simpl in He.
  assert (map plan_step (plan_entries plan) =
    rev (map step_name (List.filter (succeeded_in journal) steps))) as Hs.
  { rewrite He, build_entries_steps. simpl. rewrite map_rev_filter. do 2 f_equal.
    apply filter_ext_elem. intros s Hs.
    apply (selected_succeeded (mkWorkflowDefinition name version steps)); done. }
  split_and!; [done|..].
  - rewrite He. apply build_entries_orders; [done|]. rewrite length_rev. simpl. lia.
  - intros n. transitivity (n ∈ map plan_step (plan_entries plan)).
    { unfold CompensationPlan_contains. rewrite existsb_elem_of, list_elem_of_fmap.
      setoid_rewrite bool_decide_eq_true. naive_solver. }
    rewrite Hs, list_elem_of_In, <- in_rev, <- list_elem_of_In, list_elem_of_fmap.
    setoid_rewrite filter_elem_of. setoid_rewrite succeeded_in_elem. split.
    + intros (s & -> & _ & Hj). done.
    + intros Hj. destruct Hfacts as (Hf & _). rewrite Forall_forall in Hf.
      destruct (Hf _ Hj) as (s & Hs' & _).
      apply WorkflowDefinition_step_Some in Hs' as [Hin Heq]; [|done]. exists s. simpl in Heq.
      by subst n.
Qed.

(** The plan depends on the facts, not on the order they are read in: any
    reordering of an accepted journal freezes the very same plan, version
    included. *)
Theorem frozen_plan_order_independent sha256 d j1 j2 plan
    (Hperm : j1 ≡ₚ j2) (Hfreeze : freeze_compensation_plan sha256 d j1 = Ok plan) :
  freeze_compensation_plan sha256 d j2 = Ok plan.
Proof.
  rewrite freeze_Ok in *. by rewrite <- Hperm.
Qed.

(** The version of a frozen plan pins it: two plans frozen from typed
    definitions with the same version have the same definition digest and the
    same entries in the same order. *)
Theorem plan_version_pins `{Sha256 sha256} d1 d2 j1 j2 p1 p2
    (Ht1 : Forall step_typed (workflow_steps d1)) (Ht2 : Forall step_typed (workflow_steps d2))
    (Hl1 : Z.of_nat (length (workflow_steps d1)) < 2 ^ 32 - 1)
    (Hl2 : Z.of_nat (length (workflow_steps d2)) < 2 ^ 32 - 1)
    (Hd1 : field_fits (as_bytes (WorkflowDefinition_digest sha256 d1)))
    (Hd2 : field_fits (as_bytes (WorkflowDefinition_digest sha256 d2)))
    (Hf1 : freeze_compensation_plan sha256 d1 j1 = Ok p1)
    (Hf2 : freeze_compensation_plan sha256 d2 j2 = Ok p2)
    (Heq : plan_version p1 = plan_version p2) :
  WorkflowDefinition_digest sha256 d1 = WorkflowDefinition_digest sha256 d2 ∧
  plan_entries p1 = plan_entries p2.
Proof.
  pose proof (frozen_entries_typed _ _ _ _ Hf1 Ht1 Hl1) as He1.
  pose proof (frozen_entries_typed _ _ _ _ Hf2 Ht2 Hl2) as He2.
  apply freeze_Ok in Hf1 as (_ & _ & Hv1), Hf2 as (_ & _ & Hv2).
  rewrite Hv1, Hv2 in Heq. apply hex_string_inj in Heq; [|apply sha256_bytes..].
  apply sha256_distinct in Heq; [|apply plan_digest_range..].
  rewrite !plan_digest_fields in Heq.
  apply canonical_bytes_inj in Heq; [|by apply plan_fields_fit..].
  cbn [app] in Heq. apply cons_inv in Heq as [Hd [_ Hes]%cons_inv].
  split; [by apply as_bytes_inj|]. by apply entries_fields_inj.
Qed.

(** A journal of the sample transfer: the debit succeeded, the notification was
    rejected. *)
Definition sample_journal : list StepJournalEntry :=
  [ mkJournalEntry (mkStepName "debit") Forward_Succeeded;
    mkJournalEntry (mkStepName "notify") Forward_Rejected ].

Definition sample_plan : CompensationPlan :=
  {| plan_version := hex_string (ideal_sha256 (plan_digest_input ideal_sha256
       (sample_definition 1000000) [mkCompensationEntry (mkStepName "debit") 1]));
     plan_entries := [mkCompensationEntry (mkStepName "debit") 1] |}.

Lemma freeze_accepts_iff_witness :
  ∃ plan, freeze_compensation_plan ideal_sha256 (sample_definition 1000000) sample_journal = Ok plan.
Proof.
  apply (freeze_accepts_iff ideal_sha256 (mkWorkflowName "transfer") (mkDefinitionVersion 1)
    (workflow_steps (sample_definition 1000000))); [reflexivity|].
  split; [reflexivity|]. intros e s He Hs Hn. unfold sample_journal in He. simpl in Hs.
  rewrite !elem_of_cons, elem_of_nil in He. rewrite !elem_of_cons, elem_of_nil in Hs.
  destruct He as [->|[->|[]]], Hs as [->|[->|[]]]; simpl in *; done.
Defined.

Lemma frozen_plan_exact_witness :
  map plan_step (plan_entries sample_plan) = [mkStepName "debit"] ∧
  (CompensationPlan_contains sample_plan (mkStepName "notify") = true → False).
Proof.
  assert (freeze_compensation_plan ideal_sha256 (sample_definition 1000000) sample_journal
    = Ok sample_plan) as Hf by (vm_compute; reflexivity).
  assert (WorkflowDefinition_new (mkWorkflowName "transfer") (mkDefinitionVersion 1)
    (workflow_steps (sample_definition 1000000)) = Ok (sample_definition 1000000)) as Hp
    by reflexivity.
  destruct (frozen_plan_exact _ _ _ _ _ _ _ Hp (ltac:(reflexivity)) Hf) as (Hs & _ & Hc).
  split; [rewrite Hs; reflexivity|]. intros H%Hc. unfold sample_journal in H.
  rewrite !elem_of_cons, elem_of_nil in H. destruct H as [H|[H|[]]]; discriminate H.
Defined.

Lemma frozen_plan_order_independent_witness :
  freeze_compensation_plan ideal_sha256 (sample_definition 1000000) (rev sample_journal)
  = Ok sample_plan.
Proof.
  apply (frozen_plan_order_independent _ _ sample_journal).
  - apply (Permutation_swap _ _ []).
  - vm_compute. reflexivity.
Defined.

Lemma plan_version_pins_witness :
  plan_entries sample_plan = [mkCompensationEntry (mkStepName "debit") 1].
Proof.
  assert (definition_typed (sample_definition 1000000)) as (_ & _ & _ & Ht).
  { apply sample_definition_typed. unfold duration_ok. lia. }
  destruct (plan_version_pins (sha256 := ideal_sha256)
    (sample_definition 1000000) (sample_definition 1000000) sample_journal (rev sample_journal)
    sample_plan sample_plan) as [_ H]; try done; vm_compute; reflexivity.
Defined.
