(* ===== verification/SagaEnvelope.v ===== *)
(** * Command and result envelopes, and the identities of durable timers

    Models [nasaga-runtime-core/src/envelope.rs] and
    [nasaga-runtime-core/src/timers.rs] with the timer scopes of
    [nasaga-backend/src/timer.rs].  An envelope carries its identity as text;
    the receiver parses it back and derives the effect and command identities
    again.  UUIDs, SHA-256 and the JSON codec are the fields of [Runtime]. *)

From Stdlib Require Import ZArith Lia.
From S2P Require Import Prelude Bytes SagaIdentity SagaState SagaDefinition.
From stdpp Require Import prelude strings pretty countable.

Local Open Scope Z_scope.
Local Open Scope rust_scope.

(** [serde_json::Value]; a number is its text, which is all the program reads
    of it, and the fields of an object are in the order of its map. *)
Inductive Json :=
| Json_Null
| Json_Bool (value : bool)
| Json_Number (text : string)
| Json_String (value : string)
| Json_Array (values : list Json)
| Json_Object (fields : list (string * Json)).

(** What the runtime takes from the [uuid], [sha2], [serde_json] and [sqlx]
    crates.  [try_get_i64] is [Row::try_get::<i64>] of the answer of a
    [SELECT EXISTS(..)]: the driver refuses a column whose SQL type is not
    compatible with the Rust type, and what it does not refuse is the value.
    PostgreSQL's answer is a BOOL, which is not compatible with [i64]. *)
Class Runtime := {
  Uuid : Type;
  uuid_as_bytes : Uuid → list Z;
  uuid_new_v5 : list Z → list Z → Uuid;
  uuid_to_string : Uuid → string;
  sha256 : list Z → list Z;
  json_to_vec : Json → list Z;
  json_from_slice : list Z → option Json;
  try_get_i64 : bool → option Z;
  try_get_i64_exact b v : try_get_i64 b = Some v → v = Z.b2z b
}.

(** [anyhow::Error], by where it comes from. *)
Inductive SagaResultProcessingError :=
| Paused_
| AuthorityUnavailable
| ProducerUnauthorized
| IdentityInvalid
| ContractInvalid.

Inductive SagaConcurrencyError := StaleSnapshot | DuplicateTrigger_.

Inductive SagaManagementError :=
| InvalidContext
| PermissionDenied
| NotFound
| RateLimitExceeded
| PreconditionFailed
| OperationConflict.

Inductive StartSagaError :=
| DefinitionInactive
| InvalidPayload
| DefinitionEmpty
| RequestConflict
| TenantQuotaExceeded.

Inductive SagaCommandProcessingError :=
| Command_ProducerUnauthorized
| Command_IdentityInvalid
| Command_RouteUnauthorized
| Command_ContractInvalid.

Inductive SagaTransactionError :=
| RollbackOnly
| CommitRejected
| CommitUncertain
| RollbackFailed
| Infrastructure.

(** [Store] and [StoreConflict] are [SagaStoreError::new] and
    [SagaStoreError::conflict]. *)
Inductive SagaError :=
| CommandProcessing (e : SagaCommandProcessingError)
| TransactionFailed (e : SagaTransactionError)
| Anyhow (message : string)
| Processing (e : SagaResultProcessingError)
| Concurrency (e : SagaConcurrencyError)
| Management (e : SagaManagementError)
| Start (e : StartSagaError)
| Store (message : string)
| StoreConflict (message : string).

Abbreviation SagaResult T := (result T SagaError).

Section envelope.
Context `{Runtime}.

(** ** Envelopes *)

Definition REASON_CODE_MAX_LEN : Z := 64.

Definition reason_code_byte (b : Z) : bool :=
  is_ascii_alphanumeric b || (b =? 95) || (b =? 45) || (b =? 46).

Definition valid_reason_code (code : string) : bool :=
  negb (is_empty code) && (len code <=? REASON_CODE_MAX_LEN)
  && forallb reason_code_byte (as_bytes code).

Definition RESULT_EVENT_NAMESPACE : list Z := as_bytes "nasasaga-v1-rsns".

Definition derive_result_event_id (command_id : string) : string :=
  uuid_to_string (uuid_new_v5 RESULT_EVENT_NAMESPACE
    (canonical_bytes [as_bytes command_id; as_bytes "result"])).

Record SagaCommandEnvelope := mkCommand {
  cmd_saga_id : string;
  cmd_tenant_id : string;
  cmd_workflow : string;
  cmd_definition_version : Z;
  cmd_definition_digest : string;
  cmd_step : string;
  cmd_phase : string;
  cmd_attempt : Z;
  cmd_effect_id : string;
  cmd_command_id : string;
  cmd_recovery_operation_id : option string;
  cmd_payload : option Json;
  cmd_raw_payload : option SagaPayload
}.

Record SagaResultEnvelope := mkResult {
  res_event_id : string;
  res_saga_id : string;
  res_tenant_id : string;
  res_workflow : string;
  res_definition_version : Z;
  res_definition_digest : string;
  res_step : string;
  res_phase : string;
  res_attempt : Z;
  res_effect_id : string;
  res_command_id : string;
  res_status : string;
  res_terminal_status : option string;
  res_reason_code : option string
}.

Record VerifiedIdentity := mkVerified {
  vid_saga_id : SagaId;
  vid_tenant : TenantId;
  vid_workflow : WorkflowName;
  vid_definition_version : DefinitionVersion;
  vid_definition_digest : string;
  vid_step : StepName;
  vid_phase : StepPhase;
  vid_attempt : AttemptNo;
  vid_effect : Uuid;
  vid_command : Uuid
}.

(** [map_err(|v| anyhow!("bad ..: {}", v.code()))] *)
Definition bad (what : string) (v : ContractViolation) : SagaError :=
  Anyhow ("bad " +:+ what +:+ ": " +:+ code v).

Definition lower_hex_byte (b : Z) : bool := is_ascii_digit b || ((97 <=? b) && (b <=? 102)).

Definition lower_hex_digest (digest : string) : bool :=
  (len digest =? 64) && forallb lower_hex_byte (as_bytes digest).

Definition verify_identity (saga_id tenant_id workflow : string) (definition_version : Z)
    (definition_digest step phase : string) (attempt : Z) (effect_id command_id : string)
    : SagaResult VerifiedIdentity :=
  let? saga_id := map_err (bad "saga id") (SagaId_new saga_id) in
  let? tenant := map_err (bad "tenant") (TenantId_new tenant_id) in
  let? workflow := map_err (bad "workflow") (WorkflowName_new workflow) in
  let? version := map_err (bad "version") (DefinitionVersion_new definition_version) in
  let? step := map_err (bad "step") (StepName_new step) in
  let? phase := ok_or (StepPhase_parse phase) (Anyhow "bad phase") in
  let? attempt := map_err (bad "attempt") (AttemptNo_new attempt) in
  ensure lower_hex_digest definition_digest else
    Anyhow "bad definition digest: expected 64 lowercase hex characters" in
  let effect := EffectId_derive uuid_new_v5 saga_id version step phase in
  let command := CommandId_derive uuid_as_bytes uuid_new_v5 effect attempt in
  ensure bool_decide (uuid_to_string effect = effect_id)
         && bool_decide (uuid_to_string command = command_id) else
    Anyhow "envelope identity mismatch: derived ids differ from self-reported ids" in
  Ok {| vid_saga_id := saga_id; vid_tenant := tenant; vid_workflow := workflow;
        vid_definition_version := version; vid_definition_digest := definition_digest;
        vid_step := step; vid_phase := phase; vid_attempt := attempt;
        vid_effect := effect; vid_command := command |}.

Definition SagaResultEnvelope_parsed_status (self : SagaResultEnvelope)
    : SagaResult StepAttemptStatus :=
  let? status := ok_or (StepAttemptStatus_parse (res_status self)) (Anyhow "unknown result status") in
  ensure negb (StepAttemptStatus_is_in_flight status) else Anyhow "result status must be settled" in
  Ok status.

Definition SagaResultEnvelope_parsed_terminal (self : SagaResultEnvelope)
    : SagaResult (option StepForwardStatus) :=
  match res_terminal_status self with
  | None => Ok None
  | Some raw => result_map Some (ok_or (StepForwardStatus_parse raw) (Anyhow "unknown terminal status"))
  end.

(** [phase_allows_status] *)
Definition phase_allows_status (phase : StepPhase) (status : StepAttemptStatus) : bool :=
  match phase, status with
  | Execute, (Attempt_Succeeded | Attempt_Rejected | Attempt_Unknown | Attempt_Halted) => true
  | SagaIdentity.Cancel, (Attempt_CancelConfirmed | Attempt_AlreadyTerminal | Attempt_ResolutionPending) => true
  | Compensate, (Attempt_Succeeded | Attempt_Unknown | Attempt_Halted) => true
  | Resolve, (Attempt_Succeeded | Attempt_Rejected | Attempt_Unknown | Attempt_Halted) => true
  | _, _ => false
  end.

Definition verify_result_contract (envelope : SagaResultEnvelope) (identity : VerifiedIdentity)
    : SagaResult unit :=
  ensure bool_decide (res_event_id envelope = derive_result_event_id (res_command_id envelope)) else
    Anyhow "result event identity does not match command identity" in
  let? status := SagaResultEnvelope_parsed_status envelope in
  ensure phase_allows_status (vid_phase identity) status else
    Anyhow "result status is not valid for its phase" in
  let? terminal := SagaResultEnvelope_parsed_terminal envelope in
  try? match status, terminal with
       | Attempt_AlreadyTerminal,
         Some (Forward_Succeeded | Forward_Rejected | Forward_Halted) => Ok tt
       | Attempt_AlreadyTerminal, _ =>
           Err (Anyhow "ALREADY_TERMINAL requires a settled terminal forward status")
       | _, Some _ => Err (Anyhow "terminal_status is only valid for ALREADY_TERMINAL")
       | _, None => Ok tt
       end in
  match res_reason_code envelope with
  | Some code =>
      if valid_reason_code code then Ok tt
      else Err (Anyhow "reason_code is not a stable bounded identifier")
  | None => Ok tt
  end.

Definition verify_command_identity (self : SagaCommandEnvelope) : SagaResult VerifiedIdentity :=
  verify_identity (cmd_saga_id self) (cmd_tenant_id self) (cmd_workflow self)
    (cmd_definition_version self) (cmd_definition_digest self) (cmd_step self) (cmd_phase self)
    (cmd_attempt self) (cmd_effect_id self) (cmd_command_id self).

Definition SagaCommandEnvelope_verified (self : SagaCommandEnvelope)
    : SagaResult VerifiedIdentity :=
  let? identity := verify_command_identity self in
  match cmd_recovery_operation_id self with
  | Some operation_id =>
      if is_empty operation_id || negb (is_trimmed operation_id) || (190 <? len operation_id)
         || any_control (as_bytes operation_id)
         || match vid_phase identity with Compensate | Resolve => false | _ => true end
      then Err (Anyhow "recovery operation identity is invalid for the command phase")
      else Ok identity
  | None => Ok identity
  end.

Definition SagaResultEnvelope_verified_for_delivery (self : SagaResultEnvelope)
    : SagaResult VerifiedIdentity :=
  let? identity := map_err (λ _, Processing IdentityInvalid)
    (verify_identity (res_saga_id self) (res_tenant_id self) (res_workflow self)
       (res_definition_version self) (res_definition_digest self) (res_step self) (res_phase self)
       (res_attempt self) (res_effect_id self) (res_command_id self)) in
  try? map_err (λ _, Processing ContractInvalid) (verify_result_contract self identity) in
  Ok identity.

(** ** Timers *)

Inductive TimerScope := Scope_Instance | Scope_Step (step : StepName).

Definition TimerScope_kind_str (self : TimerScope) : string :=
  match self with Scope_Instance => "INSTANCE" | Scope_Step _ => "STEP" end.

Definition TimerScope_key_str (self : TimerScope) : string :=
  match self with Scope_Instance => "instance" | Scope_Step step => StepName_as_str step end.

Definition KIND_STEP_TIMEOUT : string := "step-timeout".
Definition KIND_INSTANCE_DEADLINE : string := "instance-deadline".
Definition KIND_RESOLUTION_BUDGET : string := "resolution-budget".
Definition KIND_FORWARD_RESOLUTION_BUDGET : string := "forward-resolution-budget".
Definition KIND_COMPENSATION_RESOLUTION_BUDGET : string := "compensation-resolution-budget".
Definition KIND_CANCEL_TIMEOUT : string := "cancel-timeout".
Definition KIND_COMPENSATE_TIMEOUT : string := "compensate-timeout".
Definition KIND_RESOLVE_TIMEOUT : string := "resolve-timeout".

Definition TIMER_ID_NAMESPACE : list Z := as_bytes "nasasaga-v1-tmid".

Definition derive_timer_id (saga_id : SagaId) (scope : TimerScope) (kind : string)
    (attempt : AttemptNo) : string :=
  uuid_to_string (uuid_new_v5 TIMER_ID_NAMESPACE
    (canonical_bytes [ as_bytes (SagaId_as_str saga_id);
                       as_bytes (TimerScope_kind_str scope);
                       as_bytes (TimerScope_key_str scope);
                       as_bytes kind;
                       to_be_bytes 4 (AttemptNo_get attempt) ])).

Definition phase_timeout_kind (phase : StepPhase) : string :=
  match phase with
  | Execute => KIND_STEP_TIMEOUT
  | SagaIdentity.Cancel => KIND_CANCEL_TIMEOUT
  | Compensate => KIND_COMPENSATE_TIMEOUT
  | Resolve => KIND_RESOLVE_TIMEOUT
  end.

Definition resolution_budget_kind (direction : Direction) : string :=
  match direction with
  | Direction_Forward => KIND_FORWARD_RESOLUTION_BUDGET
  | Direction_Compensating => KIND_COMPENSATION_RESOLUTION_BUDGET
  end.

Definition parse_step_scope (scope_kind scope_key : string) : SagaResult (option StepName) :=
  if bool_decide (scope_kind = "INSTANCE") then Ok None
  else if bool_decide (scope_kind = "STEP") then
    result_map Some (map_err (λ v, Anyhow ("bad step scope: " +:+ code v)) (StepName_new scope_key))
  else Err (Anyhow "unknown timer scope kind").
End envelope.

(** ** Facts *)

Lemma map_err_Ok {T E F} (f : E → F) (c : result T E) x : map_err f c = Ok x ↔ c = Ok x.
Proof. destruct c; simpl; naive_solver. Qed.

Lemma opaque_newtype_Ok {T} (mk : string → T) raw kind x :
  result_map mk (validate_opaque raw kind) = Ok x ↔ x = mk raw ∧ opaque_ok raw.
Proof. rewrite result_map_Ok. setoid_rewrite validate_opaque_Ok. naive_solver. Qed.

Lemma identifier_newtype_Ok {T} (mk : string → T) raw kind x :
  result_map mk (validate_identifier raw kind) = Ok x ↔ x = mk raw ∧ identifier_ok raw.
Proof. rewrite result_map_Ok. setoid_rewrite validate_identifier_Ok. naive_solver. Qed.

Lemma StepPhase_parse_Some raw p : StepPhase_parse raw = Some p ↔ raw = StepPhase_as_str p.
Proof.
  unfold StepPhase_parse. split; [|by intros ->; destruct p].
  repeat case_bool_decide; intros; simplify_eq; done.
Qed.

Lemma ensure_Ok {T E} (b : bool) (e : E) (k : result T E) x :
  (ensure b else e in k) = Ok x ↔ b = true ∧ k = Ok x.
Proof. destruct b; naive_solver. Qed.

Section facts.
Context `{Runtime}.

(** An identity whose parts are valid and whose derived identities are the
    derivation's. *)
Record identity_ok (id : VerifiedIdentity) : Prop := {
  id_saga : opaque_ok (SagaId_as_str (vid_saga_id id));
  id_tenant : opaque_ok (TenantId_as_str (vid_tenant id));
  id_workflow : identifier_ok (WorkflowName_as_str (vid_workflow id));
  id_version : DefinitionVersion_get (vid_definition_version id) ≠ 0;
  id_digest : lower_hex_digest (vid_definition_digest id) = true;
  id_step : identifier_ok (StepName_as_str (vid_step id));
  id_attempt : AttemptNo_get (vid_attempt id) ≠ 0;
  id_effect : vid_effect id = EffectId_derive uuid_new_v5 (vid_saga_id id)
    (vid_definition_version id) (vid_step id) (vid_phase id);
  id_command : vid_command id = CommandId_derive uuid_as_bytes uuid_new_v5 (vid_effect id)
    (vid_attempt id)
}.

(** The command that carries an identity, as [issue_command] writes it. *)
Definition command_of (id : VerifiedIdentity) (recovery : option string) (payload : option Json)
    (raw_payload : option SagaPayload) : SagaCommandEnvelope :=
  {| cmd_saga_id := SagaId_as_str (vid_saga_id id);
     cmd_tenant_id := TenantId_as_str (vid_tenant id);
     cmd_workflow := WorkflowName_as_str (vid_workflow id);
     cmd_definition_version := DefinitionVersion_get (vid_definition_version id);
     cmd_definition_digest := vid_definition_digest id;
     cmd_step := StepName_as_str (vid_step id);
     cmd_phase := StepPhase_as_str (vid_phase id);
     cmd_attempt := AttemptNo_get (vid_attempt id);
     cmd_effect_id := uuid_to_string (vid_effect id);
     cmd_command_id := uuid_to_string (vid_command id);
     cmd_recovery_operation_id := recovery;
     cmd_payload := payload;
     cmd_raw_payload := raw_payload |}.

Lemma verify_identity_Ok saga tenant wf ver dig step phase att eff cmd id :
  verify_identity saga tenant wf ver dig step phase att eff cmd = Ok id ↔
  identity_ok id ∧
  saga = SagaId_as_str (vid_saga_id id) ∧ tenant = TenantId_as_str (vid_tenant id) ∧
  wf = WorkflowName_as_str (vid_workflow id) ∧
  ver = DefinitionVersion_get (vid_definition_version id) ∧ dig = vid_definition_digest id ∧
  step = StepName_as_str (vid_step id) ∧ phase = StepPhase_as_str (vid_phase id) ∧
  att = AttemptNo_get (vid_attempt id) ∧ eff = uuid_to_string (vid_effect id) ∧
  cmd = uuid_to_string (vid_command id).
Proof.
  unfold verify_identity, SagaId_new, TenantId_new, WorkflowName_new, StepName_new,
    DefinitionVersion_new, AttemptNo_new.
  repeat setoid_rewrite result_bind_Ok. repeat setoid_rewrite map_err_Ok.
  repeat setoid_rewrite opaque_newtype_Ok. repeat setoid_rewrite identifier_newtype_Ok.
  repeat setoid_rewrite ok_or_Ok. repeat setoid_rewrite StepPhase_parse_Some.
  repeat setoid_rewrite ensure_Ok. repeat setoid_rewrite andb_true_iff.
  repeat setoid_rewrite bool_decide_eq_true. repeat setoid_rewrite negb_true_iff.
  repeat setoid_rewrite Z.eqb_neq.
  split.
  - intros (? & [-> ?] & ? & [-> ?] & ? & [-> ?] & ? & [? [= <-]] & ? & [-> ?] & ? & -> & ? & [? [= <-]]
      & Hd & [<- <-] & [= <-]). simpl. split; [|done].
    by split; [..|apply andb_true_iff| | | |].
  - intros ([] & -> & -> & -> & -> & -> & -> & -> & -> & -> & ->). destruct id as [[] [] [] [] ? [] ? [] ? ?].
    simpl in *. subst. apply andb_true_iff in id_digest0. eauto 30.
Qed.
End facts.

(** ** Properties *)

Section properties.
Context `{Runtime}.

Definition recovery_ok (phase : StepPhase) (recovery : option string) : Prop :=
  ∀ op, recovery = Some op →
    1 ≤ len op ≤ 190 ∧ is_trimmed op = true ∧ any_control (as_bytes op) = false ∧
    (phase = Compensate ∨ phase = Resolve).

(** Command verification is the exact inverse of issuing: an envelope is
    accepted with identity [id] if and only if [id] is well formed, with its
    effect and command identities derived from the other parts, the envelope is
    the one issued for [id], and a recovery operation is named only on a
    compensation or resolution command. *)
Theorem command_envelope_exact (env : SagaCommandEnvelope) (id : VerifiedIdentity) :
  SagaCommandEnvelope_verified env = Ok id ↔
  identity_ok id ∧ recovery_ok (vid_phase id) (cmd_recovery_operation_id env) ∧
  env = command_of id (cmd_recovery_operation_id env) (cmd_payload env) (cmd_raw_payload env).
Proof.
  unfold SagaCommandEnvelope_verified, verify_command_identity, recovery_ok.
  rewrite result_bind_Ok. setoid_rewrite verify_identity_Ok.
  destruct env as [sa te wo ve di st ph at_ ef co rec pay raw]. unfold command_of. simpl.
  split.
  - intros (id' & (Hid & -> & -> & -> & -> & -> & -> & -> & -> & -> & ->) & Hrec).
    destruct rec as [op|]; simpl in Hrec; [|by simplify_eq].
    pose proof (is_empty_spec op).
    destruct (is_empty op), (is_trimmed op) eqn:?, (Z.ltb_spec 190 (len op)),
      (any_control (as_bytes op)) eqn:?,
      (vid_phase id') eqn:?; simpl in Hrec; try done; simplify_eq;
      (split; [exact Hid|split; [|congruence]]); intros ? [= <-];
      (split; [intuition lia|auto]).
  - intros (Hid & Hrec & E). injection E as -> -> -> -> -> -> -> -> -> ->.
    exists id. split; [done|]. destruct rec as [op|]; [|done].
    destruct (Hrec op eq_refl) as (Hl & -> & -> & Hp). pose proof (is_empty_spec op).
    destruct (is_empty op); [intuition lia|].
    destruct (Z.ltb_spec 190 (len op)); [lia|]. by destruct Hp as [-> | ->].
Qed.

(** A delivered result is closed: once it is accepted, its event identity is
    the one derived from its command, its status belongs to the vocabulary of
    its phase, it carries a terminal forward status exactly when it reports
    [ALREADY_TERMINAL], that status is a settled one, and its identity is well
    formed. *)
Theorem result_contract_closed (env : SagaResultEnvelope) (id : VerifiedIdentity)
    (Hok : SagaResultEnvelope_verified_for_delivery env = Ok id) :
  identity_ok id ∧ res_event_id env = derive_result_event_id (uuid_to_string (vid_command id)) ∧
  ∃ status terminal,
    SagaResultEnvelope_parsed_status env = Ok status ∧
    SagaResultEnvelope_parsed_terminal env = Ok terminal ∧
    phase_allows_status (vid_phase id) status = true ∧
    (is_Some terminal ↔ status = Attempt_AlreadyTerminal) ∧
    (∀ t, terminal = Some t → t = Forward_Succeeded ∨ t = Forward_Rejected ∨ t = Forward_Halted).
Proof.
  unfold SagaResultEnvelope_verified_for_delivery, verify_result_contract in Hok.
  inv_result.
  match goal with H : map_err _ (verify_identity _ _ _ _ _ _ _ _ _ _) = Ok _ |- _ =>
    apply map_err_Ok, verify_identity_Ok in H as (Hid & _ & _ & _ & _ & _ & _ & _ & _ & _ & Hcmd) end.
  match goal with H : map_err _ _ = Ok _ |- _ =>
    apply map_err_Ok, ensure_Ok in H as [He%bool_decide_eq_true H];
    apply result_bind_Ok in H as (status & Hst & H); apply ensure_Ok in H as [Hph H];
    apply result_bind_Ok in H as (terminal & Hte & H); apply result_bind_Ok in H as ([] & Hm & _) end.
  split; [exact Hid|]. split; [congruence|]. exists status, terminal. split_and!; [done..| |].
  - destruct status, terminal as [[]|]; simpl in Hm; try done;
      split; intros; try done; by destruct select (is_Some _).
  - intros t ->. destruct status, t; simpl in Hm; naive_solver.
Qed.

Definition scope_ok (scope : TimerScope) : Prop :=
  match scope with Scope_Instance => True | Scope_Step step => len (StepName_as_str step) < 2 ^ 64 end.

(** Timer identities do not collide: provided version-5 UUIDs of the timer
    namespace and their text are distinct for distinct inputs, two timers get
    the same identity only if they agree on saga, scope, kind and attempt; so
    a retried scheduling transaction finds its own timer and no other. *)
Theorem timer_identity_unique (saga saga' : SagaId) (scope scope' : TimerScope) (kind kind' : string)
    (attempt attempt' : AttemptNo)
    (Hv5 : ∀ x y, uuid_new_v5 TIMER_ID_NAMESPACE x = uuid_new_v5 TIMER_ID_NAMESPACE y → x = y)
    (Htext : ∀ u v, uuid_to_string u = uuid_to_string v → u = v)
    (Hsaga : len (SagaId_as_str saga) < 2 ^ 64 ∧ len (SagaId_as_str saga') < 2 ^ 64)
    (Hscope : scope_ok scope ∧ scope_ok scope')
    (Hkind : len kind < 2 ^ 64 ∧ len kind' < 2 ^ 64)
    (Hattempt : is_u32 (AttemptNo_get attempt) = true ∧ is_u32 (AttemptNo_get attempt') = true)
    (Hsame : derive_timer_id saga scope kind attempt = derive_timer_id saga' scope' kind' attempt') :
  saga = saga' ∧ scope = scope' ∧ kind = kind' ∧ attempt = attempt'.
Proof.
  apply Htext, Hv5, canonical_bytes_inj in Hsame.
  2,3: repeat apply Forall_cons_2; try apply Forall_nil_2; try apply field_fits_be; try lia;
    apply field_fits_str; try tauto; destruct scope, scope'; simpl in *; tauto || (vm_compute; done).
  apply cons_inv in Hsame as [E1 Hsame]. apply cons_inv in Hsame as [E2 Hsame].
  apply cons_inv in Hsame as [E3 Hsame]. apply cons_inv in Hsame as [E4 Hsame].
  apply cons_inv in Hsame as [E5 _].
  apply as_bytes_inj in E1, E2, E3, E4.
  destruct Hattempt as [H1%is_u32_spec H2%is_u32_spec]. apply to_be_bytes_inj in E5; [|unfold U32_MAX in *; lia..].
  destruct saga, saga', attempt, attempt', scope as [|[]], scope' as [|[]]; simpl in *; simplify_eq; done.
Qed.
End properties.

(** ** Witnesses *)

(** A small runtime to evaluate with: a polynomial hash in place of SHA-1 and
    SHA-256, its eight bytes in hexadecimal as the text of a UUID. *)
Definition demo_hash (x : list Z) : Z :=
  fold_left (λ h b, Z.land (h * 31 + b + 7) 4294967295) x 1.

Definition demo_runtime : Runtime :=
  {| Uuid := Z;
     uuid_as_bytes := to_be_bytes 8;
     uuid_new_v5 := λ ns x, demo_hash (ns ++ x);
     uuid_to_string := λ u, hex_string (to_be_bytes 8 u);
     sha256 := λ x, to_be_bytes 32 (demo_hash x);
     json_to_vec := λ _, as_bytes "null";
     json_from_slice := λ _, Some Json_Null;
     try_get_i64 := λ _, None;
     try_get_i64_exact := λ b v Hv, match Hv with end |}.

(** A runtime without collisions. *)
Definition ideal_runtime : Runtime :=
  {| Uuid := positive;
     uuid_as_bytes := λ p, [Zpos p];
     uuid_new_v5 := λ _ x, encode x;
     uuid_to_string := λ p, pretty (Npos p);
     sha256 := ideal_sha256;
     json_to_vec := λ _, as_bytes "null";
     json_from_slice := λ _, Some Json_Null;
     try_get_i64 := λ _, None;
     try_get_i64_exact := λ b v Hv, match Hv with end |}.

Definition demo_digest : string := hex_string (to_be_bytes 32 5).

Definition demo_identity (step : string) (phase : StepPhase) (attempt : Z)
    : @VerifiedIdentity demo_runtime :=
  let effect := EffectId_derive (@uuid_new_v5 demo_runtime) (mkSagaId "saga-1") (mkDefinitionVersion 1)
                  (mkStepName step) phase in
  @mkVerified demo_runtime (mkSagaId "saga-1") (mkTenantId "acme") (mkWorkflowName "order")
    (mkDefinitionVersion 1) demo_digest (mkStepName step) phase (mkAttemptNo attempt) effect
    (CommandId_derive (@uuid_as_bytes demo_runtime) (@uuid_new_v5 demo_runtime) effect
       (mkAttemptNo attempt)).

(** The result a participant sends for a command. *)
Definition demo_result (id : @VerifiedIdentity demo_runtime) (status : StepAttemptStatus)
    (terminal : option StepForwardStatus) : SagaResultEnvelope :=
  let text := @uuid_to_string demo_runtime in
  {| res_event_id := @derive_result_event_id demo_runtime (text (vid_command id));
     res_saga_id := SagaId_as_str (vid_saga_id id);
     res_tenant_id := TenantId_as_str (vid_tenant id);
     res_workflow := WorkflowName_as_str (vid_workflow id);
     res_definition_version := DefinitionVersion_get (vid_definition_version id);
     res_definition_digest := vid_definition_digest id;
     res_step := StepName_as_str (vid_step id);
     res_phase := StepPhase_as_str (vid_phase id);
     res_attempt := AttemptNo_get (vid_attempt id);
     res_effect_id := text (vid_effect id);
     res_command_id := text (vid_command id);
     res_status := StepAttemptStatus_as_str status;
     res_terminal_status := option_map StepForwardStatus_as_str terminal;
     res_reason_code := None |}.

Lemma result_contract_closed_witness :
  @identity_ok demo_runtime (demo_identity "reserve" SagaIdentity.Cancel 1) ∧
  @phase_allows_status SagaIdentity.Cancel Attempt_AlreadyTerminal = true.
Proof.
  destruct (@result_contract_closed demo_runtime
    (demo_result (demo_identity "reserve" SagaIdentity.Cancel 1) Attempt_AlreadyTerminal
       (Some Forward_Rejected)) (demo_identity "reserve" SagaIdentity.Cancel 1))
    as (Hid & _ & status & terminal & Hs & _ & Hp & _).
  - vm_cast_no_check
      (@eq_refl (SagaResult (@VerifiedIdentity demo_runtime))
         (Ok (demo_identity "reserve" SagaIdentity.Cancel 1))).
  - split; [exact Hid|reflexivity].
Defined.

Lemma timer_identity_unique_witness :
  @derive_timer_id ideal_runtime (mkSagaId "s") Scope_Instance KIND_INSTANCE_DEADLINE AttemptNo_FIRST
  ≠ @derive_timer_id ideal_runtime (mkSagaId "s") (Scope_Step (mkStepName "instance"))
      KIND_INSTANCE_DEADLINE AttemptNo_FIRST.
Proof.
  intros H.
  destruct (@timer_identity_unique ideal_runtime (mkSagaId "s") (mkSagaId "s") Scope_Instance
    (Scope_Step (mkStepName "instance")) KIND_INSTANCE_DEADLINE KIND_INSTANCE_DEADLINE
    AttemptNo_FIRST AttemptNo_FIRST) as (_ & Hs & _); [..|exact H|discriminate Hs].
  - intros x y. apply encode_inj.
  - intros u v Huv. apply pretty_N_inj in Huv. by injection Huv.
  - vm_compute. auto.
  - vm_compute. auto.
  - vm_compute. auto.
  - vm_compute. auto.
Defined.
