(* ===== verification/SagaStore.v ===== *)
(** * The durable store of a saga

    Models the rows of [nasaga-backend/src/row.rs], the inputs and outcomes of
    [instance.rs], [journal.rs], [timer.rs] and [audit.rs] there, and the
    operations the orchestrator calls, from their SQL in [nasaga-pgsql/src].
    Every statement on the saga's tables is restricted by [WHERE saga_id = ..],
    so [Db] holds the rows of one saga, and with them the quota ledger, which
    the tenant's sagas share.  A transaction is a state transformer whose error rolls
    everything back; the columns that only record wall-clock times
    ([started_at], [finished_at], ..) are the order of the rows. *)

From Stdlib Require Import ZArith Lia.
From S2P Require Import Prelude Bytes SagaIdentity SagaState SagaDefinition SagaPlan SagaEnvelope.
From stdpp Require Import prelude strings gmap.

Local Open Scope Z_scope.
Local Open Scope rust_scope.

(** ** Rows *)

Record SagaInstanceRow := mkInstance {
  inst_saga_id : SagaId;
  inst_tenant : TenantId;
  inst_workflow : WorkflowName;
  inst_business_key : BusinessKey;
  inst_definition_version : DefinitionVersion;
  inst_definition_digest : string;
  inst_start_request_digest : option string;
  inst_status : SagaStatus;
  inst_control_state : ControlState;
  inst_control_version : Z;
  inst_direction : Direction;
  inst_current_step : option StepName;
  inst_compensation_plan_version : option string;
  inst_version : Z;
  inst_deadline_at_ms : option Z;
  inst_failure_code : option string;
  inst_traceparent : option string
}.

Record SagaStepRow := mkStepRow {
  row_step : StepName;
  row_ordinal : Z;
  row_forward_status : StepForwardStatus;
  row_cancel_status : StepCancelStatus;
  row_compensation_status : StepCompensationStatus;
  row_resolution_status : StepResolutionStatus;
  row_execute_effect_id : option string;
  row_execute_command_id : option string;
  row_execute_attempt : option Z;
  row_cancel_effect_id : option string;
  row_cancel_command_id : option string;
  row_cancel_attempt : option Z;
  row_compensate_effect_id : option string;
  row_compensate_command_id : option string;
  row_compensate_attempt : option Z;
  row_resolve_effect_id : option string;
  row_resolve_command_id : option string;
  row_resolve_attempt : option Z;
  row_compensation_plan_version : option string;
  row_compensation_order : option Z;
  row_last_error_code : option string
}.

Record SagaStepAttemptRow := mkAttemptRow {
  att_step : StepName;
  att_phase : StepPhase;
  att_attempt : AttemptNo;
  att_effect_id : string;
  att_command_id : string;
  att_status : StepAttemptStatus;
  att_outcome_event_id : option string
}.

(** ** Inputs and outcomes *)

Record TransitionSpec := mkTransitionSpec {
  to_status : SagaStatus;
  spec_direction : Direction;
  spec_current_step : option StepName;
  trigger_kind : TriggerKind;
  trigger_id : string;
  spec_definition_version : DefinitionVersion;
  failure_code : option string;
  compensation_plan_version : option string
}.

Inductive CasOutcome := Cas_Applied (new_version : Z) | Cas_Conflict | Cas_DuplicateTrigger.

Inductive AttemptStart := Start_Recorded | Start_AlreadyRecorded.

Inductive AttemptOutcomeRecord :=
| Outcome_Recorded
| Outcome_AlreadyRecorded
| Outcome_Conflicting (existing : StepAttemptStatus).

Record StepJournalPatch := mkPatch {
  patch_forward_status : option StepForwardStatus;
  patch_cancel_status : option StepCancelStatus;
  patch_compensation_status : option StepCompensationStatus;
  patch_resolution_status : option StepResolutionStatus;
  patch_last_error_code : option string;
  patch_mark_finished : bool
}.

(** [StepJournalPatch::default()] *)
Definition StepJournalPatch_default : StepJournalPatch := mkPatch None None None None None false.

Inductive SagaConflictKind := AttemptTerminal | CrossPhaseFact.

Record AttemptConflictFact := mkConflict {
  fact_step : StepName;
  fact_phase : StepPhase;
  fact_attempt : AttemptNo;
  fact_existing_status : StepAttemptStatus;
  fact_incoming_status : StepAttemptStatus;
  fact_incoming_event_id : string;
  fact_conflict_kind : SagaConflictKind
}.

Inductive TimerState := Timer_Pending | Timer_Claimed | Timer_Fired | Timer_Cancelled.

Record TimerSpec := mkTimerSpec {
  spec_timer_id : string;
  spec_scope : TimerScope;
  spec_kind : string;
  spec_due_at_ms : Z;
  spec_attempt : AttemptNo;
  spec_expected_saga_version : Z
}.

Inductive TimerSchedule := Scheduled | AlreadyScheduled.
Inductive TimerFencing := Fencing_Applied | Fencing_Lost.

(** A row of [saga_timer]. *)
Record TimerRow := mkTimerRow {
  timer_spec : TimerSpec;
  timer_state : TimerState;
  timer_available_at : Z;
  timer_owner : option string;
  timer_fencing_token : option string;
  timer_claimed_until : option Z
}.

(** A row of [saga_transition]; the first one starts from [FROM_STATE_NONE]. *)
Record TransitionRow := mkTransitionRow {
  transition_seq : Z;
  from_state : option SagaStatus;
  to_state : SagaStatus;
  transition_trigger_kind : TriggerKind;
  transition_trigger_id : string;
  transition_definition_version : DefinitionVersion
}.

(** A row of [saga_control_transition]. *)
Record ControlRow := mkControlRow {
  control_seq : Z;
  control_from : ControlState;
  control_to : ControlState;
  control_operation_id : string;
  control_actor : string;
  control_reason : string
}.

(** A row of [saga_management_audit]. *)
Record AuditRow := mkAuditRow {
  audit_operation_id : string;
  audit_action : string;
  audit_actor : string;
  audit_reason : string
}.

#[global] Instance TimerScope_eq_dec : EqDecision TimerScope.
Proof. solve_decision. Defined.
#[global] Instance TimerState_eq_dec : EqDecision TimerState.
Proof. solve_decision. Defined.
#[global] Instance CasOutcome_eq_dec : EqDecision CasOutcome.
Proof. solve_decision. Defined.

(** [QuotaReservation] of [governance.rs]. *)
Inductive QuotaReservation := Quota_Reserved | Quota_Exceeded.

(** A row of [saga_tenant_quota]. *)
Record QuotaRow := mkQuota { in_flight : Z; initialized : bool }.

Abbreviation QuotaLedger := (gmap string QuotaRow).

Section store.
Context `{Runtime}.

(** The rows of one saga, with what the consumer's inbox and the outbox hold
    for it, and the quota ledger of all tenants. *)
Record Db := mkDb {
  db_instance : option SagaInstanceRow;
  db_steps : list SagaStepRow;
  db_attempts : list SagaStepAttemptRow;
  db_timers : list TimerRow;
  db_transitions : list TransitionRow;
  db_conflicts : list AttemptConflictFact;
  db_controls : list ControlRow;
  db_audits : list AuditRow;
  db_inbox : list string;
  db_outbox : list SagaCommandEnvelope;
  db_quota : QuotaLedger
}.

Definition set_instance (i : SagaInstanceRow) (db : Db) : Db :=
  mkDb (Some i) (db_steps db) (db_attempts db) (db_timers db) (db_transitions db) (db_conflicts db)
    (db_controls db) (db_audits db) (db_inbox db) (db_outbox db) (db_quota db).
Definition set_steps (l : list SagaStepRow) (db : Db) : Db :=
  mkDb (db_instance db) l (db_attempts db) (db_timers db) (db_transitions db) (db_conflicts db)
    (db_controls db) (db_audits db) (db_inbox db) (db_outbox db) (db_quota db).
Definition set_attempts (l : list SagaStepAttemptRow) (db : Db) : Db :=
  mkDb (db_instance db) (db_steps db) l (db_timers db) (db_transitions db) (db_conflicts db)
    (db_controls db) (db_audits db) (db_inbox db) (db_outbox db) (db_quota db).
Definition set_timers (l : list TimerRow) (db : Db) : Db :=
  mkDb (db_instance db) (db_steps db) (db_attempts db) l (db_transitions db) (db_conflicts db)
    (db_controls db) (db_audits db) (db_inbox db) (db_outbox db) (db_quota db).
Definition set_transitions (l : list TransitionRow) (db : Db) : Db :=
  mkDb (db_instance db) (db_steps db) (db_attempts db) (db_timers db) l (db_conflicts db)
    (db_controls db) (db_audits db) (db_inbox db) (db_outbox db) (db_quota db).
Definition set_conflicts (l : list AttemptConflictFact) (db : Db) : Db :=
  mkDb (db_instance db) (db_steps db) (db_attempts db) (db_timers db) (db_transitions db) l
    (db_controls db) (db_audits db) (db_inbox db) (db_outbox db) (db_quota db).
Definition set_inbox (l : list string) (db : Db) : Db :=
  mkDb (db_instance db) (db_steps db) (db_attempts db) (db_timers db) (db_transitions db)
    (db_conflicts db) (db_controls db) (db_audits db) l (db_outbox db) (db_quota db).
Definition set_outbox (l : list SagaCommandEnvelope) (db : Db) : Db :=
  mkDb (db_instance db) (db_steps db) (db_attempts db) (db_timers db) (db_transitions db)
    (db_conflicts db) (db_controls db) (db_audits db) (db_inbox db) l (db_quota db).
Definition set_controls (l : list ControlRow) (db : Db) : Db :=
  mkDb (db_instance db) (db_steps db) (db_attempts db) (db_timers db) (db_transitions db)
    (db_conflicts db) l (db_audits db) (db_inbox db) (db_outbox db) (db_quota db).
Definition set_audits (l : list AuditRow) (db : Db) : Db :=
  mkDb (db_instance db) (db_steps db) (db_attempts db) (db_timers db) (db_transitions db)
    (db_conflicts db) (db_controls db) l (db_inbox db) (db_outbox db) (db_quota db).
Definition set_quota (q : QuotaLedger) (db : Db) : Db :=
  mkDb (db_instance db) (db_steps db) (db_attempts db) (db_timers db) (db_transitions db)
    (db_conflicts db) (db_controls db) (db_audits db) (db_inbox db) (db_outbox db) q.

(** ** Transactions *)

Definition Tx (A : Type) : Type := Db → SagaResult (A * Db).

Definition ret {A} (x : A) : Tx A := λ db, Ok (x, db).
Definition fail {A} (e : SagaError) : Tx A := λ _, Err e.
Definition bind {A B} (c : Tx A) (k : A → Tx B) : Tx B :=
  λ db, match c db with Ok (x, db') => k x db' | Err e => Err e end.
Definition lift {A} (r : SagaResult A) : Tx A :=
  λ db, match r with Ok x => Ok (x, db) | Err e => Err e end.
Definition read {A} (f : Db → A) : Tx A := λ db, Ok (f db, db).
Definition modify (f : Db → Db) : Tx unit := λ db, Ok (tt, f db).

Lemma bind_Ok {A B} (c : Tx A) (k : A → Tx B) db y db' :
  bind c k db = Ok (y, db') ↔ ∃ x db1, c db = Ok (x, db1) ∧ k x db1 = Ok (y, db').
Proof. unfold bind. destruct (c db) as [[x db1]|e]; naive_solver. Qed.

Lemma lift_Ok {A} (r : SagaResult A) db x db' : lift r db = Ok (x, db') ↔ r = Ok x ∧ db' = db.
Proof. unfold lift. destruct r; naive_solver. Qed.
End store.

Notation "'bind!' x := c 'in' k" := (bind c (λ x, k))
  (at level 10, x name, c at level 100, k at level 200) : rust_scope.
Notation "'do!' c 'in' k" := (bind c (λ _, k))
  (at level 10, c at level 100, k at level 200) : rust_scope.
Notation "'require!' b 'else' e 'in' k" := (if b then k else fail e)
  (at level 10, b at level 100, e at level 100, k at level 200) : rust_scope.

Section operations.
Context `{Runtime}.

(** ** Column contracts *)

(** The shape shared by [validate_trigger_id], [validate_timer_id] and
    [validate_event_id]. *)
Definition bounded_id (raw : string) : bool :=
  negb (is_empty raw) && is_trimmed raw && (len raw <=? 190) && negb (any_control (as_bytes raw)).

Definition validate_trigger_id (raw : string) : SagaResult unit :=
  if bounded_id raw then Ok tt else Err (Store "invalid trigger id").
Definition validate_timer_id (raw : string) : SagaResult unit :=
  if bounded_id raw then Ok tt else Err (Store "invalid timer id").
Definition validate_event_id (raw : string) : SagaResult unit :=
  if bounded_id raw then Ok tt else Err (Store "invalid conflict event id").

Definition validate_digest (digest : string) : SagaResult unit :=
  if lower_hex_digest digest then Ok tt
  else Err (Store "definition digest must be 64 lowercase hex characters").

Definition validate_reason_code (code : string) : SagaResult unit :=
  if valid_reason_code code then Ok tt
  else Err (Store "reason code must be a stable identifier of at most 64 bytes").

Definition validate_kind (kind : string) : SagaResult unit :=
  if valid_reason_code kind then Ok tt else Err (Store "invalid timer kind").

Definition validate_epoch_ms (value : Z) : SagaResult unit :=
  if value <? 0 then Err (Store "must be a non-negative epoch millisecond") else Ok tt.

Definition validate_saga_version (version : Z) : SagaResult unit :=
  if version =? 0 then Err (Store "timer expected saga version must start at 1") else Ok tt.

(** [u64] to [BIGINT]. *)
Definition pg_u64 (value : Z) : SagaResult Z :=
  if value <=? I64_MAX then Ok value else Err (Store "numeric value exceeds PostgreSQL BIGINT").

Definition when_some {A} (o : option A) (f : A → SagaResult unit) : SagaResult unit :=
  match o with Some x => f x | None => Ok tt end.

(** ** The instance *)

Definition load_instance (saga_id : SagaId) : Tx (option SagaInstanceRow) :=
  read (λ db, match db_instance db with
              | Some i => if bool_decide (inst_saga_id i = saga_id) then Some i else None
              | None => None
              end).

(** [let present: i64 = row.try_get(..).map_err(map_database)?; Ok(present != 0)]
    on the answer of a [SELECT EXISTS(..) AS present]. *)
Definition decode_present (present : bool) : SagaResult bool :=
  let? value := ok_or (try_get_i64 present) (Store "database operation failed") in
  Ok (negb (value =? 0)).

Definition store_any_compensation_succeeded : Tx bool :=
  bind! present := read (λ db, existsb (λ row, bool_decide (row_compensation_status row = Comp_Succeeded))
                                 (db_steps db)) in
  lift (decode_present present).

Definition MANUAL_CLOSE_ACTION : string := "manual_close".

Definition store_manual_close_audited (operation_id : string) : Tx bool :=
  bind! present := read (λ db,
    existsb (λ a, bool_decide (audit_operation_id a = operation_id)
                  && bool_decide (audit_action a = MANUAL_CLOSE_ACTION)) (db_audits db)) in
  lift (decode_present present).

(** ** The quota ledger *)

(** [INSERT .. ON CONFLICT DO NOTHING] *)
Definition quota_row (tenant : TenantId) (ledger : QuotaLedger) : QuotaRow :=
  default (mkQuota 0 false) (ledger !! TenantId_as_str tenant).

Definition put_quota (tenant : TenantId) (row : QuotaRow) (ledger : QuotaLedger) : QuotaLedger :=
  <[TenantId_as_str tenant := row]> ledger.

(** [SET in_flight = in_flight + 1] on a BIGINT. *)
Definition add_one (row : QuotaRow) : SagaResult QuotaRow :=
  let? n := ok_or (i64_checked_add (in_flight row) 1) (Store "database operation failed") in
  Ok (mkQuota n (initialized row)).

Definition reserve_in_flight (tenant : TenantId) (cap : option Z) (ledger : QuotaLedger)
    : SagaResult (QuotaReservation * QuotaLedger) :=
  let row := quota_row tenant ledger in
  let reserved := result_map (λ row', (Quota_Reserved, put_quota tenant row' ledger)) (add_one row) in
  match cap with
  | None => reserved
  | Some cap =>
      ensure cap <=? I64_MAX else Store "tenant quota cap overflow" in
      if (in_flight row <? cap) && initialized row then reserved
      else if negb (initialized row) then
        Err (Store "tenant quota ledger is not initialized; run reconcile_tenant_quota after every writer runs the accounting binary")
      else Ok (Quota_Exceeded, put_quota tenant row ledger)
  end.

Definition reserve_tenant_quota (tenant : TenantId) (cap : option Z) : Tx QuotaReservation :=
  bind! ledger := read db_quota in
  bind! answer := lift (reserve_in_flight tenant cap ledger) in
  do! modify (set_quota answer.2) in
  ret answer.1.

(** The rows the [UPDATE] of a release hits: that of the tenant, if it counts
    any saga. *)
Definition release_in_flight (tenant : TenantId) (ledger : QuotaLedger) : QuotaLedger :=
  match ledger !! TenantId_as_str tenant with
  | Some row =>
      if 0 <? in_flight row then put_quota tenant (mkQuota (in_flight row - 1) (initialized row)) ledger
      else ledger
  | None => ledger
  end.

Definition release_tenant_quota (saga_id : SagaId) : Tx unit :=
  modify (λ db,
    match db_instance db with
    | Some i =>
        if bool_decide (inst_saga_id i = saga_id)
        then set_quota (release_in_flight (inst_tenant i) (db_quota db)) db else db
    | None => db
    end).

Definition same_trigger (kind : TriggerKind) (id : string) (t : TransitionRow) : bool :=
  bool_decide (transition_trigger_kind t = kind) && bool_decide (transition_trigger_id t = id).

Definition coalesce {A} (new old : option A) : option A :=
  match new with Some x => Some x | None => old end.

(** The columns the [UPDATE saga_instance] of [advance] writes. *)
Definition advance_row (i : SagaInstanceRow) (spec : TransitionSpec) : SagaInstanceRow :=
  {| inst_saga_id := inst_saga_id i;
     inst_tenant := inst_tenant i;
     inst_workflow := inst_workflow i;
     inst_business_key := inst_business_key i;
     inst_definition_version := inst_definition_version i;
     inst_definition_digest := inst_definition_digest i;
     inst_start_request_digest := inst_start_request_digest i;
     inst_status := to_status spec;
     inst_control_state := inst_control_state i;
     inst_control_version := inst_control_version i;
     inst_direction := spec_direction spec;
     inst_current_step := spec_current_step spec;
     inst_compensation_plan_version :=
       coalesce (compensation_plan_version spec) (inst_compensation_plan_version i);
     inst_version := inst_version i + 1;
     inst_deadline_at_ms := inst_deadline_at_ms i;
     inst_failure_code := coalesce (failure_code spec) (inst_failure_code i);
     inst_traceparent := inst_traceparent i |}.

(** The [WHERE] of that [UPDATE]. *)
Definition advance_matches (db : Db) (saga_id : SagaId) (expected_version : Z)
    (from : SagaStatus) (spec : TransitionSpec) (i : SagaInstanceRow) : bool :=
  bool_decide (inst_saga_id i = saga_id)
  && (inst_version i =? expected_version)
  && bool_decide (inst_status i = from)
  && bool_decide (inst_control_state i = Active)
  && negb (existsb (same_trigger (trigger_kind spec) (trigger_id spec)) (db_transitions db)).

Definition advance_guard (from : SagaStatus) (spec : TransitionSpec) : Tx TransitionGuard :=
  if bool_decide (from = ManualIntervention) && bool_decide (to_status spec = Running) then
    bind! any := store_any_compensation_succeeded in
    ret (TransitionGuard_new any)
  else if bool_decide (to_status spec = ManuallyClosed) then
    if bool_decide (trigger_kind spec = Trigger_Admin) then
      bind! audited := store_manual_close_audited (trigger_id spec) in
      ret (TransitionGuard_manual_close audited)
    else ret (TransitionGuard_manual_close false)
  else ret TransitionGuard_default.

(** [advance] *)
Definition store_advance (saga_id : SagaId) (expected_version : Z) (from : SagaStatus)
    (spec : TransitionSpec) : Tx CasOutcome :=
  do! lift (validate_trigger_id (trigger_id spec)) in
  do! lift (when_some (failure_code spec) validate_reason_code) in
  do! lift (when_some (compensation_plan_version spec) validate_digest) in
  bind! guard := advance_guard from spec in
  do! lift (map_err (λ v, Store (code v)) (check_transition from (to_status spec) guard)) in
  bind! new_version := lift (ok_or (u64_checked_add expected_version 1) (Store "saga version overflow")) in
  do! lift (pg_u64 expected_version) in
  bind! db := read id in
  match db_instance db with
  | Some i =>
      if advance_matches db saga_id expected_version from spec i then
        do! modify (set_instance (advance_row i spec)) in
        do! lift (pg_u64 new_version) in
        require! negb (existsb (λ t, transition_seq t =? new_version) (db_transitions db)) else
          Store "duplicate key value violates unique constraint" in
        do! modify (λ db, set_transitions
              (db_transitions db ++
               [ {| transition_seq := new_version; from_state := Some from; to_state := to_status spec;
                    transition_trigger_kind := trigger_kind spec;
                    transition_trigger_id := trigger_id spec;
                    transition_definition_version := spec_definition_version spec |} ]) db) in
        do! (if SagaStatus_is_terminal (to_status spec) then release_tenant_quota saga_id else ret tt) in
        ret (Cas_Applied new_version)
      else
        ret (if existsb (same_trigger (trigger_kind spec) (trigger_id spec)) (db_transitions db)
             then Cas_DuplicateTrigger else Cas_Conflict)
  | None => ret Cas_Conflict
  end.

(** ** The step journal *)

Definition load_steps : Tx (list SagaStepRow) := read db_steps.

Definition patch_row (patch : StepJournalPatch) (row : SagaStepRow) : SagaStepRow :=
  {| row_step := row_step row;
     row_ordinal := row_ordinal row;
     row_forward_status := default (row_forward_status row) (patch_forward_status patch);
     row_cancel_status := default (row_cancel_status row) (patch_cancel_status patch);
     row_compensation_status :=
       default (row_compensation_status row) (patch_compensation_status patch);
     row_resolution_status := default (row_resolution_status row) (patch_resolution_status patch);
     row_execute_effect_id := row_execute_effect_id row;
     row_execute_command_id := row_execute_command_id row;
     row_execute_attempt := row_execute_attempt row;
     row_cancel_effect_id := row_cancel_effect_id row;
     row_cancel_command_id := row_cancel_command_id row;
     row_cancel_attempt := row_cancel_attempt row;
     row_compensate_effect_id := row_compensate_effect_id row;
     row_compensate_command_id := row_compensate_command_id row;
     row_compensate_attempt := row_compensate_attempt row;
     row_resolve_effect_id := row_resolve_effect_id row;
     row_resolve_command_id := row_resolve_command_id row;
     row_resolve_attempt := row_resolve_attempt row;
     row_compensation_plan_version := row_compensation_plan_version row;
     row_compensation_order := row_compensation_order row;
     row_last_error_code := coalesce (patch_last_error_code patch) (row_last_error_code row) |}.

(** [UPDATE saga_step .. WHERE step_name = step]: the rows and how many. *)
Definition update_step (step : StepName) (f : SagaStepRow → SagaStepRow) (l : list SagaStepRow)
    : list SagaStepRow :=
  map (λ row, if bool_decide (row_step row = step) then f row else row) l.

Definition has_step (step : StepName) (l : list SagaStepRow) : bool :=
  existsb (λ row, bool_decide (row_step row = step)) l.

Definition update_step_journal (step : StepName) (patch : StepJournalPatch) : Tx unit :=
  do! lift (when_some (patch_last_error_code patch) validate_reason_code) in
  bind! steps := load_steps in
  require! has_step step steps else Store "step journal row is missing" in
  modify (set_steps (update_step step (patch_row patch) steps)).

(** The columns of one phase in [saga_step]. *)
Definition phase_attempt (phase : StepPhase) (row : SagaStepRow) : option Z :=
  match phase with
  | Execute => row_execute_attempt row
  | SagaIdentity.Cancel => row_cancel_attempt row
  | Compensate => row_compensate_attempt row
  | Resolve => row_resolve_attempt row
  end.

Definition project_attempt (phase : StepPhase) (effect command : string) (attempt : Z)
    (row : SagaStepRow) : SagaStepRow :=
  let at_phase {A} (p : StepPhase) (new old : A) := if bool_decide (p = phase) then new else old in
  {| row_step := row_step row;
     row_ordinal := row_ordinal row;
     row_forward_status := row_forward_status row;
     row_cancel_status := row_cancel_status row;
     row_compensation_status := row_compensation_status row;
     row_resolution_status := row_resolution_status row;
     row_execute_effect_id := at_phase Execute (Some effect) (row_execute_effect_id row);
     row_execute_command_id := at_phase Execute (Some command) (row_execute_command_id row);
     row_execute_attempt := at_phase Execute (Some attempt) (row_execute_attempt row);
     row_cancel_effect_id := at_phase SagaIdentity.Cancel (Some effect) (row_cancel_effect_id row);
     row_cancel_command_id := at_phase SagaIdentity.Cancel (Some command) (row_cancel_command_id row);
     row_cancel_attempt := at_phase SagaIdentity.Cancel (Some attempt) (row_cancel_attempt row);
     row_compensate_effect_id := at_phase Compensate (Some effect) (row_compensate_effect_id row);
     row_compensate_command_id := at_phase Compensate (Some command) (row_compensate_command_id row);
     row_compensate_attempt := at_phase Compensate (Some attempt) (row_compensate_attempt row);
     row_resolve_effect_id := at_phase Resolve (Some effect) (row_resolve_effect_id row);
     row_resolve_command_id := at_phase Resolve (Some command) (row_resolve_command_id row);
     row_resolve_attempt := at_phase Resolve (Some attempt) (row_resolve_attempt row);
     row_compensation_plan_version := row_compensation_plan_version row;
     row_compensation_order := row_compensation_order row;
     row_last_error_code := row_last_error_code row |}.

Definition attempt_key (step : StepName) (phase : StepPhase) (attempt : AttemptNo)
    (row : SagaStepAttemptRow) : bool :=
  bool_decide (att_step row = step) && bool_decide (att_phase row = phase)
  && bool_decide (att_attempt row = attempt).

(** [INSERT .. ON CONFLICT DO NOTHING] against the key and the two unique
    constraints of [saga_step_attempt], then the monotone projection. *)
Definition record_attempt_started (step : StepName) (phase : StepPhase) (attempt : AttemptNo)
    (effect command : Uuid) : Tx AttemptStart :=
  let effect_text := uuid_to_string effect in
  let command_text := uuid_to_string command in
  bind! attempts := read db_attempts in
  if existsb (λ row, attempt_key step phase attempt row
                     || (bool_decide (att_effect_id row = effect_text)
                         && bool_decide (att_attempt row = attempt))
                     || bool_decide (att_command_id row = command_text)) attempts then
    match find_first (attempt_key step phase attempt) attempts with
    | None => fail (Store "attempt identity collides with a different step attempt")
    | Some existing =>
        require! bool_decide (att_effect_id existing = effect_text)
                 && bool_decide (att_command_id existing = command_text) else
          Store "attempt already recorded with different identities" in
        ret Start_AlreadyRecorded
    end
  else
    do! modify (set_attempts (attempts ++
          [ {| att_step := step; att_phase := phase; att_attempt := attempt;
               att_effect_id := effect_text; att_command_id := command_text;
               att_status := Attempt_Started; att_outcome_event_id := None |} ])) in
    do! modify (λ db, set_steps
          (update_step step
             (λ row, if default 0 (phase_attempt phase row) <=? AttemptNo_get attempt
                     then project_attempt phase effect_text command_text (AttemptNo_get attempt) row
                     else row) (db_steps db)) db) in
    ret Start_Recorded.

Definition settle_attempt (status : StepAttemptStatus) (event : option string)
    (row : SagaStepAttemptRow) : SagaStepAttemptRow :=
  {| att_step := att_step row; att_phase := att_phase row; att_attempt := att_attempt row;
     att_effect_id := att_effect_id row; att_command_id := att_command_id row;
     att_status := status;
     att_outcome_event_id := coalesce event (att_outcome_event_id row) |}.

Definition record_attempt_outcome (step : StepName) (phase : StepPhase) (attempt : AttemptNo)
    (status : StepAttemptStatus) (outcome_event_id : option string) : Tx AttemptOutcomeRecord :=
  require! negb (StepAttemptStatus_is_in_flight status) else
    Store "attempt outcome must be a settled status" in
  bind! attempts := read db_attempts in
  match find_first (attempt_key step phase attempt) attempts with
  | None => fail (Store "attempt outcome arrived for an unrecorded attempt")
  | Some existing =>
      if bool_decide (att_status existing = Attempt_Started) then
        do! modify (set_attempts
              (map (λ row, if attempt_key step phase attempt row
                              && bool_decide (att_status row = Attempt_Started)
                           then settle_attempt status outcome_event_id row else row) attempts)) in
        ret Outcome_Recorded
      else if bool_decide (att_status existing = status) then ret Outcome_AlreadyRecorded
      else ret (Outcome_Conflicting (att_status existing))
  end.

Definition load_attempts (step : StepName) : Tx (list SagaStepAttemptRow) :=
  read (λ db, List.filter (λ row, bool_decide (att_step row = step)) (db_attempts db)).

(** [count_resolution_attempts]: the resolutions started before, or from, the
    first compensation of the step; rows are in the order they were started. *)
Fixpoint resolutions_before (rows : list SagaStepAttemptRow) : Z :=
  match rows with
  | [] => 0
  | row :: rest =>
      match att_phase row with
      | Compensate => 0
      | Resolve => 1 + resolutions_before rest
      | _ => resolutions_before rest
      end
  end.

Fixpoint resolutions_after (rows : list SagaStepAttemptRow) : Z :=
  match rows with
  | [] => 0
  | row :: rest =>
      match att_phase row with
      | Compensate =>
          Z.of_nat (length (List.filter (λ r, bool_decide (att_phase r = Resolve)) rest))
      | _ => resolutions_after rest
      end
  end.

Definition count_resolution_attempts (step : StepName) (direction : Direction) : Tx Z :=
  bind! rows := load_attempts step in
  ret (match direction with
       | Direction_Forward => resolutions_before rows
       | Direction_Compensating => resolutions_after rows
       end).

Definition mark_row (version : string) (order : Z) (row : SagaStepRow) : SagaStepRow :=
  {| row_step := row_step row;
     row_ordinal := row_ordinal row;
     row_forward_status := row_forward_status row;
     row_cancel_status := row_cancel_status row;
     row_compensation_status :=
       if bool_decide (row_compensation_status row = Comp_None) then Comp_Pending
       else row_compensation_status row;
     row_resolution_status := row_resolution_status row;
     row_execute_effect_id := row_execute_effect_id row;
     row_execute_command_id := row_execute_command_id row;
     row_execute_attempt := row_execute_attempt row;
     row_cancel_effect_id := row_cancel_effect_id row;
     row_cancel_command_id := row_cancel_command_id row;
     row_cancel_attempt := row_cancel_attempt row;
     row_compensate_effect_id := row_compensate_effect_id row;
     row_compensate_command_id := row_compensate_command_id row;
     row_compensate_attempt := row_compensate_attempt row;
     row_resolve_effect_id := row_resolve_effect_id row;
     row_resolve_command_id := row_resolve_command_id row;
     row_resolve_attempt := row_resolve_attempt row;
     row_compensation_plan_version := Some version;
     row_compensation_order := Some order;
     row_last_error_code := row_last_error_code row |}.

Fixpoint mark_entries (version : string) (entries : list CompensationEntry) : Tx unit :=
  match entries with
  | [] => ret tt
  | entry :: rest =>
      bind! steps := load_steps in
      require! has_step (plan_step entry) steps else
        Store "compensation plan references a missing step" in
      do! modify (set_steps (update_step (plan_step entry) (mark_row version (plan_order entry)) steps)) in
      mark_entries version rest
  end.

Definition mark_compensation_plan (plan : CompensationPlan) : Tx unit :=
  mark_entries (plan_version plan) (plan_entries plan).

(** ** Timers *)

Definition timer_key (spec : TimerSpec) (row : TimerRow) : bool :=
  bool_decide (spec_scope (timer_spec row) = spec_scope spec)
  && bool_decide (spec_kind (timer_spec row) = spec_kind spec)
  && bool_decide (spec_attempt (timer_spec row) = spec_attempt spec).

Definition store_schedule_timer (spec : TimerSpec) : Tx TimerSchedule :=
  do! lift (validate_timer_id (spec_timer_id spec)) in
  do! lift (validate_kind (spec_kind spec)) in
  do! lift (validate_epoch_ms (spec_due_at_ms spec)) in
  do! lift (validate_saga_version (spec_expected_saga_version spec)) in
  do! lift (pg_u64 (spec_expected_saga_version spec)) in
  bind! timers := read db_timers in
  if existsb (λ row, timer_key spec row
                     || bool_decide (spec_timer_id (timer_spec row) = spec_timer_id spec)) timers then
    match find_first (timer_key spec) timers with
    | Some row =>
        require! bool_decide (spec_timer_id (timer_spec row) = spec_timer_id spec) else
          Store "timer already scheduled with a different timer id" in
        ret AlreadyScheduled
    | None => fail (Store "timer id collides with a different timer scope")
    end
  else
    do! modify (set_timers (timers ++
          [mkTimerRow spec Timer_Pending (spec_due_at_ms spec) None None None])) in
    ret Scheduled.

Definition open_timer (row : TimerRow) : bool :=
  match timer_state row with Timer_Pending | Timer_Claimed => true | _ => false end.

(** [state = .., owner = NULL, fencing_token = NULL, claimed_until = NULL] *)
Definition free_timer (state : TimerState) (row : TimerRow) : TimerRow :=
  mkTimerRow (timer_spec row) state (timer_available_at row) None None None.

Definition cancel_scope_timers (scope : TimerScope) (kind : option string) : Tx unit :=
  do! lift (when_some kind validate_kind) in
  modify (λ db, set_timers
    (map (λ row, if bool_decide (spec_scope (timer_spec row) = scope)
                    && match kind with
                       | Some k => bool_decide (spec_kind (timer_spec row) = k)
                       | None => true
                       end
                    && open_timer row
                 then free_timer Timer_Cancelled row else row)
       (db_timers db)) db).

Definition timer_held (timer_id token : string) (now_ms : Z) (row : TimerRow) : bool :=
  bool_decide (spec_timer_id (timer_spec row) = timer_id)
  && bool_decide (timer_state row = Timer_Claimed)
  && bool_decide (timer_fencing_token row = Some token)
  && match timer_claimed_until row with Some until => now_ms <? until | None => false end.

Definition complete_timer (timer_id token : string) (now_ms : Z) : Tx TimerFencing :=
  do! lift (validate_timer_id timer_id) in
  do! lift (validate_epoch_ms now_ms) in
  bind! timers := read db_timers in
  if existsb (timer_held timer_id token now_ms) timers then
    do! modify (set_timers (map (λ row, if timer_held timer_id token now_ms row
                                        then free_timer Timer_Fired row
                                        else row) timers)) in
    ret Fencing_Applied
  else ret Fencing_Lost.

Definition validate_owner (owner : string) : SagaResult unit :=
  if negb (is_empty owner) && is_trimmed owner && (len owner <=? 128)
     && negb (any_control (as_bytes owner)) then Ok tt
  else Err (Store "invalid timer owner").

(** The candidates of a claim: pending and available, or an expired lease. *)
Definition claimable (now_ms : Z) (row : TimerRow) : bool :=
  match timer_state row with
  | Timer_Pending => timer_available_at row <=? now_ms
  | Timer_Claimed =>
      match timer_claimed_until row with Some until => until <=? now_ms | None => false end
  | _ => false
  end.

(** [claim_due_timers] on the rows of this saga: [picked] are the candidates
    that the statement's [LIMIT] and [SKIP LOCKED], which range over all
    sagas, leave to it. *)
Definition claim_due_timers (picked : TimerRow → bool) (owner token : string)
    (now_ms lease_ms limit : Z) : Tx (list TimerRow) :=
  do! lift (validate_owner owner) in
  do! lift (validate_epoch_ms now_ms) in
  require! negb ((lease_ms <=? 0) || (limit =? 0)) else
    Store "timer claim requires a positive lease and limit" in
  bind! claimed_until := lift (ok_or (i64_checked_add now_ms lease_ms)
                                (Store "timer claim lease deadline overflow")) in
  do! modify (λ db, set_timers
        (map (λ row, if claimable now_ms row && picked row
                     then mkTimerRow (timer_spec row) Timer_Claimed (timer_available_at row)
                            (Some owner) (Some token) (Some claimed_until)
                     else row) (db_timers db)) db) in
  read (λ db, List.filter (λ row, bool_decide (timer_owner row = Some owner)
                                  && bool_decide (timer_fencing_token row = Some token)
                                  && bool_decide (timer_state row = Timer_Claimed)) (db_timers db)).

(** [release_timer]: back to the queue, at the original deadline unless the
    saga is still paused. *)
Definition release_timer (timer_id token : string) (now_ms available_at_ms : Z) : Tx TimerFencing :=
  do! lift (validate_timer_id timer_id) in
  do! lift (validate_epoch_ms now_ms) in
  do! lift (validate_epoch_ms available_at_ms) in
  bind! instance := read db_instance in
  bind! timers := read db_timers in
  match instance with
  | None => ret Fencing_Lost
  | Some i =>
      if existsb (timer_held timer_id token now_ms) timers then
        do! modify (set_timers (map (λ row,
              if timer_held timer_id token now_ms row then
                mkTimerRow (timer_spec row) Timer_Pending
                  (if bool_decide (inst_control_state i = Paused) then available_at_ms
                   else spec_due_at_ms (timer_spec row)) None None None
              else row) timers)) in
        ret Fencing_Applied
      else ret Fencing_Lost
  end.

(** ** Evidence, inbox and outbox *)

Definition record_attempt_conflict (fact : AttemptConflictFact) : Tx unit :=
  require! negb (StepAttemptStatus_is_in_flight (fact_existing_status fact)
                 || StepAttemptStatus_is_in_flight (fact_incoming_status fact)) else
    Store "attempt conflict requires settled statuses" in
  do! lift (validate_event_id (fact_incoming_event_id fact)) in
  bind! conflicts := read db_conflicts in
  require! negb (existsb (λ f, bool_decide (fact_incoming_event_id f = fact_incoming_event_id fact))
                   conflicts) else
    Store "duplicate key value violates unique constraint" in
  modify (set_conflicts (conflicts ++ [fact])).

Inductive InboxClaim := Claimed | Duplicate.

Definition inbox_claim (message_id : string) : Tx InboxClaim :=
  require! negb (is_empty message_id) && is_trimmed message_id && (len message_id <=? 190)
           && negb (existsb (λ b, b =? 0) (as_bytes message_id)) else
    Store "invalid message_id" in
  bind! inbox := read db_inbox in
  if existsb (λ m, bool_decide (m = message_id)) inbox then ret Duplicate
  else
    do! modify (set_inbox (inbox ++ [message_id])) in
    ret Claimed.

Definition SAGA_AGGREGATE_TYPE : string := "saga".
Definition COMMAND_EVENT_TYPE : string := "saga.command".

Definition has_nul (value : string) : bool := existsb (λ b, b =? 0) (as_bytes value).

Definition OutboxWriteContext_new (tenant : string) : SagaResult unit :=
  ensure negb (is_empty tenant) && (len tenant <=? 256) else
    Anyhow "outbox tenant must be 1..=256 bytes" in
  ensure negb (any_control (as_bytes tenant)) else
    Anyhow "outbox tenant must not contain control characters" in
  Ok tt.

(** [validate_event] on the event [to_outbox_event] makes of a command: its
    identity is the command's, its aggregate the saga. *)
Definition validate_event (command : SagaCommandEnvelope) : SagaResult unit :=
  if forallb (λ field, negb (is_empty field.1) && (len field.1 <=? field.2) && negb (has_nul field.1))
       [(cmd_command_id command, 128); (SAGA_AGGREGATE_TYPE, 128); (cmd_saga_id command, 190);
        (COMMAND_EVENT_TYPE, 128)]
  then Ok tt else Err (Store "invalid outbox event identity").

(** [append_transactional_with_context]: the outbox keeps one event per event
    id; [admits] is the verdict of the tenant's quota ledger, which is shared
    by all sagas of the tenant. *)
Definition outbox_append (admits : bool) (command : SagaCommandEnvelope) : Tx unit :=
  do! lift (validate_event command) in
  bind! outbox := read db_outbox in
  if existsb (λ c, bool_decide (cmd_command_id c = cmd_command_id command)) outbox then ret tt
  else
    require! admits else Store "outbox tenant quota exceeded" in
    modify (set_outbox (outbox ++ [command])).

(** [register_steps]: one row per step of the definition, kept if present. *)
Fixpoint register_rows (index : nat) (steps : list StepDefinition) (rows : list SagaStepRow)
    : list SagaStepRow :=
  match steps with
  | [] => rows
  | step :: rest =>
      register_rows (S index) rest
        (if has_step (step_name step) rows then rows
         else rows ++ [mkStepRow (step_name step) (Z.of_nat index + 1) Forward_Pending Cancel_None
                Comp_None Resolution_None None None None None None None None None None None None None
                None None None])
  end.

Definition register_steps (definition : WorkflowDefinition) : Tx unit :=
  modify (λ db, set_steps (register_rows 0 (workflow_steps definition) (db_steps db)) db).
End operations.
