(* ===== verification/SagaAdminStore.v ===== *)
(** * The store operations of creation and management

    Models, from their SQL in [nasaga-pgsql/src], the statements that
    [SagaStore] leaves out: the creation of an instance with its first
    transition, the control state with its audit chain, the audit of
    management operations, the reopening of halted facts and the waking of
    timers. *)

From Stdlib Require Import ZArith Lia.
From S2P Require Import Prelude Bytes SagaIdentity SagaState SagaDefinition SagaPlan SagaEnvelope.
From S2P Require Import SagaStore.
From stdpp Require Import prelude strings.

Local Open Scope Z_scope.
Local Open Scope rust_scope.

(** ** Column contracts *)

(** [str::split('-')] on the bytes. *)
Fixpoint split_dash (bs : list Z) : list (list Z) :=
  match bs with
  | [] => [[]]
  | b :: rest =>
      if b =? 45 then [] :: split_dash rest
      else match split_dash rest with
           | part :: parts => (b :: part) :: parts
           | [] => [[b]]
           end
  end.

Definition traceparent_byte (b : Z) : bool :=
  is_ascii_digit b || ((97 <=? b) && (b <=? 102)) || (b =? 45).

Definition validate_traceparent (traceparent : string) : SagaResult unit :=
  if (len traceparent =? 55)
     && bool_decide (map length (split_dash (as_bytes traceparent)) = [2; 32; 16; 2]%nat)
     && forallb traceparent_byte (as_bytes traceparent)
  then Ok tt else Err (Store "invalid traceparent").

Definition validate_audit_text (value : string) (max_len : Z) (field : string) : SagaResult unit :=
  if is_empty value || (max_len <? len value) || negb (is_trimmed value)
     || any_control (as_bytes value)
  then Err (Store ("invalid management " +:+ field)) else Ok tt.

Definition validate_audit_identifier (value : string) (max_len : Z) (field : string) : SagaResult unit :=
  if is_empty value || (max_len <? len value) || negb (forallb reason_code_byte (as_bytes value))
  then Err (Store ("invalid management " +:+ field)) else Ok tt.

(** ** Creation *)

Record NewSagaInstance := mkNewInstance {
  new_saga_id : SagaId;
  new_tenant : TenantId;
  new_workflow : WorkflowName;
  new_business_key : BusinessKey;
  new_definition_version : DefinitionVersion;
  new_definition_digest : string;
  new_start_request_digest : string;
  new_legacy_start_request_digest : option string;
  new_deadline_at_ms : option Z;
  new_current_step : option StepName;
  new_trigger_kind : TriggerKind;
  new_trigger_id : string;
  new_traceparent : option string
}.

Inductive SagaCreation := Created (row : SagaInstanceRow) | Existing (row : SagaInstanceRow).

Record ControlTransitionSpec := mkControlSpec {
  ctl_saga_id : SagaId;
  ctl_expected_version : Z;
  ctl_expected_control_version : Z;
  ctl_from : ControlState;
  ctl_to : ControlState;
  ctl_operation_id : string;
  ctl_actor : string;
  ctl_reason : string
}.

Inductive ControlCasOutcome := Control_Applied | Control_AlreadyApplied | Control_Conflict.
Inductive ManagementAuditOutcome := Audit_Recorded | Audit_AlreadyRecorded.

Definition same_business (spec : NewSagaInstance) (i : SagaInstanceRow) : bool :=
  bool_decide (inst_tenant i = new_tenant spec) && bool_decide (inst_workflow i = new_workflow spec)
  && bool_decide (inst_business_key i = new_business_key spec).

(** The row the [INSERT] writes. *)
Definition new_row (spec : NewSagaInstance) : SagaInstanceRow :=
  {| inst_saga_id := new_saga_id spec;
     inst_tenant := new_tenant spec;
     inst_workflow := new_workflow spec;
     inst_business_key := new_business_key spec;
     inst_definition_version := new_definition_version spec;
     inst_definition_digest := new_definition_digest spec;
     inst_start_request_digest := Some (new_start_request_digest spec);
     inst_status := SagaStatus_INITIAL;
     inst_control_state := Active;
     inst_control_version := 1;
     inst_direction := Direction_Forward;
     inst_current_step := new_current_step spec;
     inst_compensation_plan_version := None;
     inst_version := 1;
     inst_deadline_at_ms := new_deadline_at_ms spec;
     inst_failure_code := None;
     inst_traceparent := new_traceparent spec |}.

Definition first_transition (spec : NewSagaInstance) : TransitionRow :=
  {| transition_seq := 1; from_state := None; to_state := SagaStatus_INITIAL;
     transition_trigger_kind := new_trigger_kind spec; transition_trigger_id := new_trigger_id spec;
     transition_definition_version := new_definition_version spec |}.

(** An existing row answers a request with its digest, or with the digest the
    same request had before raw payloads. *)
Definition same_request (spec : NewSagaInstance) (existing : SagaInstanceRow) : bool :=
  bool_decide (inst_start_request_digest existing = Some (new_start_request_digest spec))
  || match new_legacy_start_request_digest spec with
     | Some digest => bool_decide (inst_start_request_digest existing = Some digest)
     | None => false
     end.

Section admin.
Context `{Runtime}.

Definition accept_existing (spec : NewSagaInstance) (existing : SagaInstanceRow) : Tx SagaCreation :=
  require! same_request spec existing else
    StoreConflict "business idempotency key was reused with a different start request" in
  ret (Existing existing).

(** [create_instance]; [others] are the rows of the other sagas.  [Db] holds
    the rows of one saga, so the new row needs it empty. *)
Definition create_instance (others : list SagaInstanceRow) (spec : NewSagaInstance) : Tx SagaCreation :=
  do! lift (validate_digest (new_definition_digest spec)) in
  do! lift (validate_digest (new_start_request_digest spec)) in
  do! lift (when_some (new_legacy_start_request_digest spec) validate_digest) in
  do! lift (validate_trigger_id (new_trigger_id spec)) in
  do! lift (when_some (new_traceparent spec) validate_traceparent) in
  bind! by_id := load_instance (new_saga_id spec) in
  match by_id with
  | Some existing =>
      require! same_business spec existing else
        StoreConflict "saga_id collides with a different business intent" in
      accept_existing spec existing
  | None =>
      match find_first (same_business spec) others with
      | Some existing => accept_existing spec existing
      | None =>
          bind! held := read db_instance in
          require! bool_decide (held = None) else Store "rows of another saga" in
          bind! transitions := read db_transitions in
          require! negb (existsb (λ t, (transition_seq t =? 1)
                                       || same_trigger (new_trigger_kind spec) (new_trigger_id spec) t)
                           transitions) else
            Store "duplicate key value violates unique constraint" in
          do! modify (set_instance (new_row spec)) in
          do! modify (set_transitions (transitions ++ [first_transition spec])) in
          ret (Created (new_row spec))
      end
  end.

(** ** Control state *)

Definition control_row (i : SagaInstanceRow) (to : ControlState) : SagaInstanceRow :=
  {| inst_saga_id := inst_saga_id i;
     inst_tenant := inst_tenant i;
     inst_workflow := inst_workflow i;
     inst_business_key := inst_business_key i;
     inst_definition_version := inst_definition_version i;
     inst_definition_digest := inst_definition_digest i;
     inst_start_request_digest := inst_start_request_digest i;
     inst_status := inst_status i;
     inst_control_state := to;
     inst_control_version := inst_control_version i + 1;
     inst_direction := inst_direction i;
     inst_current_step := inst_current_step i;
     inst_compensation_plan_version := inst_compensation_plan_version i;
     inst_version := inst_version i;
     inst_deadline_at_ms := inst_deadline_at_ms i;
     inst_failure_code := inst_failure_code i;
     inst_traceparent := inst_traceparent i |}.

(** The row a control transition appends to its audit chain. *)
Definition control_logged (spec : ControlTransitionSpec) (seq : Z) : ControlRow :=
  mkControlRow seq (ctl_from spec) (ctl_to spec) (ctl_operation_id spec) (ctl_actor spec)
    (ctl_reason spec).

(** The prior row of an operation id holds the facts of this request. *)
Definition same_control (spec : ControlTransitionSpec) (prior : ControlRow) : bool :=
  bool_decide (control_from prior = ctl_from spec) && bool_decide (control_to prior = ctl_to spec)
  && bool_decide (control_actor prior = ctl_actor spec)
  && bool_decide (control_reason prior = ctl_reason spec).

(** The [WHERE] of the [UPDATE]. *)
Definition control_matches (spec : ControlTransitionSpec) (i : SagaInstanceRow) : bool :=
  bool_decide (inst_saga_id i = ctl_saga_id spec)
  && (inst_version i =? ctl_expected_version spec)
  && (inst_control_version i =? ctl_expected_control_version spec)
  && bool_decide (inst_control_state i = ctl_from spec).

Definition has_operation (operation_id : string) (row : ControlRow) : bool :=
  bool_decide (control_operation_id row = operation_id).

Definition set_control_state (spec : ControlTransitionSpec) : Tx ControlCasOutcome :=
  require! negb (bool_decide (ctl_from spec = ctl_to spec)) else
    Store "control state transition requires distinct states" in
  require! negb ((ctl_expected_control_version spec =? 0)
                 || (ctl_expected_control_version spec =? U64_MAX)) else
    Store "control version must be positive and incrementable" in
  do! lift (validate_trigger_id (ctl_operation_id spec)) in
  do! lift (validate_audit_text (ctl_actor spec) 128 "actor") in
  do! lift (validate_audit_text (ctl_reason spec) 512 "reason") in
  bind! controls := read db_controls in
  match find_first (has_operation (ctl_operation_id spec)) controls with
  | Some prior =>
      require! same_control spec prior else
        StoreConflict "control operation id was reused with different audit facts" in
      ret Control_AlreadyApplied
  | None =>
      do! lift (pg_u64 (ctl_expected_version spec)) in
      do! lift (pg_u64 (ctl_expected_control_version spec)) in
      bind! instance := read db_instance in
      match instance with
      | Some i =>
          if control_matches spec i then
            do! modify (set_instance (control_row i (ctl_to spec))) in
            bind! seq := lift (ok_or (u64_checked_add (ctl_expected_control_version spec) 1)
                                 (Store "control version overflow")) in
            do! lift (pg_u64 seq) in
            require! negb (existsb (λ row, control_seq row =? seq) controls) else
              Store "duplicate key value violates unique constraint" in
            do! modify (set_controls (controls ++ [control_logged spec seq])) in
            ret Control_Applied
          else ret Control_Conflict
      | None => ret Control_Conflict
      end
  end.

(** ** Management audit *)

Definition audit_of (operation_id : string) (row : AuditRow) : bool :=
  bool_decide (audit_operation_id row = operation_id).

Definition same_audit (action actor reason : string) (prior : AuditRow) : bool :=
  bool_decide (audit_action prior = action) && bool_decide (audit_actor prior = actor)
  && bool_decide (audit_reason prior = reason).

Definition record_management_operation (operation_id action actor reason : string)
    : Tx ManagementAuditOutcome :=
  do! lift (validate_trigger_id operation_id) in
  do! lift (validate_audit_identifier action 64 "action") in
  do! lift (validate_audit_text actor 128 "actor") in
  do! lift (validate_audit_text reason 512 "reason") in
  bind! audits := read db_audits in
  match find_first (audit_of operation_id) audits with
  | Some prior =>
      require! same_audit action actor reason prior else
        StoreConflict "management operation id was reused with different audit facts" in
      ret Audit_AlreadyRecorded
  | None =>
      do! modify (set_audits (audits ++ [mkAuditRow operation_id action actor reason])) in
      ret Audit_Recorded
  end.

(** ** Reopening halted facts *)

Definition RETRY_COMPENSATION_ACTION : string := "retry_frozen_compensation".
Definition RETRY_RESOLUTION_ACTION : string := "retry_resolution".

Definition is_audited (operation_id action : string) (audits : list AuditRow) : bool :=
  existsb (λ a, audit_of operation_id a && bool_decide (audit_action a = action)) audits.

(** [UPDATE .. FROM saga_management_audit]: the rows it hits, which must be
    exactly one. *)
Definition reopen (audited : bool) (hit : SagaStepRow → bool) (patch : StepJournalPatch)
    (message : string) : Tx unit :=
  bind! steps := load_steps in
  require! Nat.eqb (length (List.filter (λ row, audited && hit row) steps)) 1 else Store message in
  modify (set_steps (map (λ row, if audited && hit row then patch_row patch row else row) steps)).

Definition halted_member (step : StepName) (row : SagaStepRow) : bool :=
  bool_decide (row_step row = step) && negb (is_none (row_compensation_plan_version row))
  && bool_decide (row_compensation_status row = Comp_Halted).

Definition reopen_halted_compensation (step : StepName) (operation_id : string) : Tx unit :=
  bind! audits := read db_audits in
  reopen (is_audited operation_id RETRY_COMPENSATION_ACTION audits) (halted_member step)
    (mkPatch None None (Some Comp_Pending) (Some Resolution_None) None false)
    "halted compensation recovery requires a matching management audit and frozen plan".

Definition halted_query (step : StepName) (row : SagaStepRow) : bool :=
  bool_decide (row_step row = step) && bool_decide (row_resolution_status row = Resolution_Halted)
  && (bool_decide (row_forward_status row = Forward_Unknown)
      || bool_decide (row_compensation_status row = Comp_Unknown)).

Definition reopen_halted_resolution (step : StepName) (operation_id : string) : Tx unit :=
  bind! audits := read db_audits in
  reopen (is_audited operation_id RETRY_RESOLUTION_ACTION audits) (halted_query step)
    (mkPatch None None None (Some Resolution_Pending) None false)
    "halted resolution recovery requires a matching management audit and unknown fact".

(** ** Waking timers *)

(** [wake_saga_timers]: the timers that were put off, and back they go to
    their deadline. *)
Definition put_off (row : TimerRow) : bool :=
  bool_decide (timer_state row = Timer_Pending)
  && negb (timer_available_at row =? spec_due_at_ms (timer_spec row)).

Definition wake_row (row : TimerRow) : TimerRow :=
  if put_off row then
    mkTimerRow (timer_spec row) (timer_state row) (spec_due_at_ms (timer_spec row)) (timer_owner row)
      (timer_fencing_token row) (timer_claimed_until row)
  else row.

Definition wake_saga_timers : Tx Z :=
  bind! timers := read db_timers in
  do! modify (set_timers (map wake_row timers)) in
  ret (Z.of_nat (length (List.filter put_off timers))).
End admin.
