(* ===== verification/SagaRegistry.v ===== *)
(** * The registry of workflow definitions

    Models [nasaga-runtime-core/src/registry.rs]: the immutable definitions a
    process can drive, global or of one tenant, the gate on new instances, and
    the precheck of the running instances at startup, which pages through
    [list_non_terminal_after] of [nasaga-pgsql/src/instance.rs]. *)

From Stdlib Require Import ZArith Lia.
From S2P Require Import Prelude Bytes SagaIdentity SagaState SagaDefinition SagaPlan SagaEnvelope.
From S2P Require Import SagaStore.
From stdpp Require Import prelude strings gmap sorting.

Local Open Scope Z_scope.
Local Open Scope rust_scope.

Record DefinitionEntry := mkEntry {
  entry_definition : WorkflowDefinition;
  accepts_new : bool
}.

Record DefinitionRegistry := mkRegistry {
  definitions : gmap (string * Z) DefinitionEntry;
  tenant_definitions : gmap (string * string * Z) DefinitionEntry
}.

(** [DefinitionRegistry::new] *)
Definition DefinitionRegistry_new : DefinitionRegistry := mkRegistry ∅ ∅.

Definition DefinitionRegistry_is_empty (self : DefinitionRegistry) : bool :=
  Nat.eqb (size (definitions self)) 0 && Nat.eqb (size (tenant_definitions self)) 0.

Definition DefinitionRegistry_len (self : DefinitionRegistry) : nat :=
  size (definitions self) + size (tenant_definitions self).

Definition definition_key (workflow : WorkflowName) (version : DefinitionVersion) : string * Z :=
  (WorkflowName_as_str workflow, DefinitionVersion_get version).

Definition tenant_key (tenant : TenantId) (workflow : WorkflowName) (version : DefinitionVersion)
    : string * string * Z :=
  (TenantId_as_str tenant, WorkflowName_as_str workflow, DefinitionVersion_get version).

(** [validate_runtime_resolution_modes]: only [Poll] is hosted. *)
Definition hosted_step (step : StepDefinition) : bool :=
  negb (allow_unknown (step_resolution step)
        && negb (bool_decide (resolution_mode (step_resolution step) = Some Poll))).

Definition validate_runtime_resolution_modes (definition : WorkflowDefinition) : SagaResult unit :=
  match find_first (λ step, negb (hosted_step step)) (workflow_steps definition) with
  | Some _ => Err (Anyhow "unsupported Saga runtime resolution mode; only poll is hosted")
  | None => Ok tt
  end.

Section registry.
Context `{Runtime}.

Definition same_digest (a b : WorkflowDefinition) : bool :=
  bool_decide (WorkflowDefinition_digest sha256 a = WorkflowDefinition_digest sha256 b).

(** [register] on [&mut self]: the registry afterwards. *)
Definition DefinitionRegistry_register (self : DefinitionRegistry) (definition : WorkflowDefinition)
    : SagaResult DefinitionRegistry :=
  try? validate_runtime_resolution_modes definition in
  let key := definition_key (workflow_name definition) (workflow_version definition) in
  match definitions self !! key with
  | Some existing =>
      ensure same_digest (entry_definition existing) definition else
        Anyhow "definition already registered with a different digest" in
      Ok self
  | None =>
      Ok (mkRegistry (<[key := mkEntry definition true]> (definitions self)) (tenant_definitions self))
  end.

Definition DefinitionRegistry_register_for_tenant (self : DefinitionRegistry) (tenant : TenantId)
    (definition : WorkflowDefinition) (accepts : bool) : SagaResult DefinitionRegistry :=
  try? validate_runtime_resolution_modes definition in
  let key := tenant_key tenant (workflow_name definition) (workflow_version definition) in
  match tenant_definitions self !! key with
  | Some existing =>
      ensure same_digest (entry_definition existing) definition
             && bool_decide (accepts_new existing = accepts) else
        Anyhow "tenant definition already registered with different content or lifecycle" in
      Ok self
  | None =>
      Ok (mkRegistry (definitions self)
            (<[key := mkEntry definition accepts]> (tenant_definitions self)))
  end.

Definition DefinitionRegistry_get (self : DefinitionRegistry) (workflow : WorkflowName)
    (version : DefinitionVersion) : option WorkflowDefinition :=
  entry_definition <$> definitions self !! definition_key workflow version.

Definition DefinitionRegistry_get_for_tenant (self : DefinitionRegistry) (tenant : TenantId)
    (workflow : WorkflowName) (version : DefinitionVersion) : option WorkflowDefinition :=
  match tenant_definitions self !! tenant_key tenant workflow version with
  | Some entry => Some (entry_definition entry)
  | None => DefinitionRegistry_get self workflow version
  end.

Definition DefinitionRegistry_get_for_start (self : DefinitionRegistry) (tenant : TenantId)
    (workflow : WorkflowName) (version : DefinitionVersion) : option WorkflowDefinition :=
  match tenant_definitions self !! tenant_key tenant workflow version with
  | Some entry => if accepts_new entry then Some (entry_definition entry) else None
  | None =>
      match definitions self !! definition_key workflow version with
      | Some entry => if accepts_new entry then Some (entry_definition entry) else None
      | None => None
      end
  end.

(** ** The startup precheck *)

(** The rows of [saga_instance] in the order [ORDER BY saga_id] gives them;
    [lt] is the database's comparison of the ids. *)
Context (lt : SagaId → SagaId → bool).

Definition list_non_terminal_after (table : list SagaInstanceRow) (after : option SagaId) (limit : Z)
    : SagaResult (list SagaInstanceRow) :=
  ensure negb (limit =? 0) else Store "non-terminal scan page size must be positive" in
  Ok (take (Z.to_nat limit)
        (List.filter (λ i, negb (SagaStatus_is_terminal (inst_status i))
                           && match after with Some id => lt id (inst_saga_id i) | None => true end)
           table)).

(** The verdict on one instance. *)
Inductive precheck := Precheck_Missing | Precheck_Drifted | Precheck_Ok.

Definition check_instance (self : DefinitionRegistry) (instance : SagaInstanceRow) : precheck :=
  match DefinitionRegistry_get_for_tenant self (inst_tenant instance) (inst_workflow instance)
          (inst_definition_version instance) with
  | None => Precheck_Missing
  | Some definition =>
      if bool_decide (WorkflowDefinition_digest sha256 definition = inst_definition_digest instance)
      then Precheck_Ok else Precheck_Drifted
  end.

Definition is_missing (v : precheck) : bool := match v with Precheck_Missing => true | _ => false end.
Definition is_drifted (v : precheck) : bool := match v with Precheck_Drifted => true | _ => false end.

Definition count (p : precheck → bool) (self : DefinitionRegistry) (l : list SagaInstanceRow) : nat :=
  length (List.filter (λ i, p (check_instance self i)) l).

(** The loop: the totals of the pages from [cursor] on; [None] when the fuel
    ran out. *)
Fixpoint scan_pages (fuel : nat) (self : DefinitionRegistry) (table : list SagaInstanceRow)
    (scan_limit : Z) (cursor : option SagaId) (missing drifted : nat)
    : SagaResult (option (nat * nat)) :=
  match fuel with
  | O => Ok None
  | S fuel =>
      let? instances := list_non_terminal_after table cursor scan_limit in
      match instances with
      | [] => Ok (Some (missing, drifted))
      | _ :: _ =>
          let missing := (missing + count is_missing self instances)%nat in
          let drifted := (drifted + count is_drifted self instances)%nat in
          if Z.of_nat (length instances) <? scan_limit then Ok (Some (missing, drifted))
          else scan_pages fuel self table scan_limit (inst_saga_id <$> last instances) missing drifted
      end
  end.

Definition verify_non_terminal (self : DefinitionRegistry) (table : list SagaInstanceRow)
    (scan_limit : Z) : SagaResult (option unit) :=
  let? totals := scan_pages (S (length table)) self table scan_limit None 0 0 in
  match totals with
  | None => Ok None
  | Some (missing, drifted) =>
      ensure negb (Nat.ltb 0 missing || Nat.ltb 0 drifted) else
        Anyhow "definition precheck failed; refusing Ready" in
      Ok (Some tt)
  end.
End registry.

(** ** Entries never change *)

Section immutable.
Context `{Runtime}.

(** One registration at startup. *)
Inductive registers : DefinitionRegistry → DefinitionRegistry → Prop :=
| registers_global r definition r' :
    DefinitionRegistry_register r definition = Ok r' → registers r r'
| registers_tenant r tenant definition accepts r' :
    DefinitionRegistry_register_for_tenant r tenant definition accepts = Ok r' → registers r r'.

(** Every entry is at the key of its definition and hosted by the runtime. *)
Definition well_keyed (r : DefinitionRegistry) : Prop :=
  map_Forall (λ key entry,
    key = definition_key (workflow_name (entry_definition entry)) (workflow_version (entry_definition entry))
    ∧ Forall (λ s, hosted_step s = true) (workflow_steps (entry_definition entry))) (definitions r) ∧
  map_Forall (λ key entry,
    key.1.2 = WorkflowName_as_str (workflow_name (entry_definition entry))
    ∧ key.2 = DefinitionVersion_get (workflow_version (entry_definition entry))
    ∧ Forall (λ s, hosted_step s = true) (workflow_steps (entry_definition entry))) (tenant_definitions r).

Lemma hosted_spec definition :
  validate_runtime_resolution_modes definition = Ok tt →
  Forall (λ s, hosted_step s = true) (workflow_steps definition).
Proof.
  unfold validate_runtime_resolution_modes. destruct (find_first _ _) eqn:E; [done|]. intros _.
  rewrite find_first_None in E. apply Forall_forall. intros s Hs%E. by apply negb_false_iff in Hs.
Qed.

Lemma registers_grows r r' :
  registers r r' →
  definitions r ⊆ definitions r' ∧ tenant_definitions r ⊆ tenant_definitions r' ∧
  (well_keyed r → well_keyed r').
Proof.
  intros [? d ? Hr|? t d a ? Hr]; revert Hr;
    unfold DefinitionRegistry_register, DefinitionRegistry_register_for_tenant;
    intros ([] & Hm%hosted_spec & Hr)%result_bind_Ok; destruct (_ !! _) eqn:E;
    (destruct (same_digest _ _ && _) eqn:Ed || destruct (same_digest _ _) eqn:Ed || idtac);
    simplify_eq; simpl; split_and!; try done; try by apply insert_subseteq.
  - intros [Hg Ht]. split; [|done]. simpl. by apply map_Forall_insert_2.
  - intros [Hg Ht]. split; [done|]. simpl. by apply map_Forall_insert_2.
Qed.
Lemma registrations_grow r r' :
  rtc registers r r' →
  definitions r ⊆ definitions r' ∧ tenant_definitions r ⊆ tenant_definitions r' ∧
  (well_keyed r → well_keyed r').
Proof.
  induction 1 as [|r r1 r' (Hg & Ht & Hw)%registers_grows _ (IHg & IHt & IHw)]; [done|].
  split_and!; [by etrans|by etrans|auto].
Qed.

(** A registered definition is immutable: whatever is registered later, every
    entry keeps its definition and its gate on new instances, every entry
    stays under the name and version of its definition and has only hosted
    steps, and an instance keeps the definition it was resolved to unless its
    tenant gets one of its own. *)
Theorem registry_immutable (r r' : DefinitionRegistry) (Hw : well_keyed r) (Hr : rtc registers r r') :
  well_keyed r' ∧ definitions r ⊆ definitions r' ∧ tenant_definitions r ⊆ tenant_definitions r' ∧
  ∀ tenant workflow version d,
    DefinitionRegistry_get_for_tenant r tenant workflow version = Some d →
    DefinitionRegistry_get_for_tenant r' tenant workflow version = Some d ∨
    (tenant_definitions r !! tenant_key tenant workflow version = None ∧
     is_Some (tenant_definitions r' !! tenant_key tenant workflow version)).
Proof.
  apply registrations_grow in Hr as (Hg & Ht & Hk). split_and!; [auto|done|done|].
  intros tenant workflow version d. unfold DefinitionRegistry_get_for_tenant, DefinitionRegistry_get.
  destruct (tenant_definitions r !! _) as [e|] eqn:E.
  - intros [= <-]. left. by rewrite (lookup_weaken _ _ _ _ E Ht).
  - intros (e & He & ->)%fmap_Some. destruct (tenant_definitions r' !! _) eqn:E'; [right; eauto|].
    left. by rewrite (lookup_weaken _ _ _ _ He Hg).
Qed.

(** A tenant's own definition replaces the global one of the same name and
    version whatever its digest: registering it is accepted although the
    global one is registered with other content, and running instances of the
    tenant are then resolved to it. *)
Theorem tenant_definition_shadows_global (r : DefinitionRegistry) (tenant : TenantId)
    (mine theirs : WorkflowDefinition) (accepts : bool)
    (Hname : workflow_name mine = workflow_name theirs)
    (Hversion : workflow_version mine = workflow_version theirs)
    (Hdigest : WorkflowDefinition_digest sha256 mine ≠ WorkflowDefinition_digest sha256 theirs)
    (Hhosted : validate_runtime_resolution_modes mine = Ok tt)
    (Hfresh : tenant_definitions r !! tenant_key tenant (workflow_name mine) (workflow_version mine) = None)
    (Hglobal : DefinitionRegistry_get r (workflow_name theirs) (workflow_version theirs) = Some theirs) :
  ∃ r', DefinitionRegistry_register_for_tenant r tenant mine accepts = Ok r' ∧
    is_ok (DefinitionRegistry_register r mine) = false ∧
    DefinitionRegistry_get_for_tenant r tenant (workflow_name theirs) (workflow_version theirs) = Some theirs ∧
    DefinitionRegistry_get_for_tenant r' tenant (workflow_name theirs) (workflow_version theirs) = Some mine.
Proof.
  rewrite <- Hname, <- Hversion in *.
  unfold DefinitionRegistry_register_for_tenant, DefinitionRegistry_register,
    DefinitionRegistry_get_for_tenant, DefinitionRegistry_get in *. rewrite Hhosted. simpl. rewrite Hfresh.
  eexists. split_and!; [done| |done|].
  - apply fmap_Some in Hglobal as (e & -> & ->). unfold same_digest.
    by rewrite bool_decide_eq_false_2.
  - simpl. by rewrite lookup_insert_eq.
Qed.
End immutable.

(** ** The paged precheck is a full scan *)

Section scan.
Context `{Runtime} (lt : SagaId → SagaId → bool).

Definition before (i j : SagaInstanceRow) : Prop := lt (inst_saga_id i) (inst_saga_id j) = true.

Definition live (i : SagaInstanceRow) : bool := negb (SagaStatus_is_terminal (inst_status i)).

(** What the precheck asks of one row. *)
Definition precheck_passes (self : DefinitionRegistry) (i : SagaInstanceRow) : bool :=
  match check_instance self i with Precheck_Ok => true | _ => false end.

Context (Hasym : ∀ a b, lt a b = true → lt b a = false).

Lemma filter_sorted (p : SagaInstanceRow → bool) l :
  StronglySorted before l → StronglySorted before (List.filter p l).
Proof.
  induction 1 as [|i l Hs IH Hall]; simpl; [constructor|].
  destruct (p i); [|done]. constructor; [done|].
  rewrite Forall_forall in *. intros j [Hj _]%filter_elem_of. auto.
Qed.

(** The rows after the last one of a sorted prefix are the rest. *)
Lemma after_prefix l1 l2 i :
  StronglySorted before (l1 ++ l2) → last l1 = Some i →
  List.filter (λ j, lt (inst_saga_id i) (inst_saga_id j)) (l1 ++ l2) = l2.
Proof.
  intros Hs Hl. apply last_Some in Hl as [l ->]. rewrite <- app_assoc in *. simpl in *.
  induction l as [|j l IH]; simpl in *.
  - apply StronglySorted_inv in Hs as [Hs Hall].
    destruct (lt (inst_saga_id i) (inst_saga_id i)) eqn:E; [by rewrite (Hasym _ _ E) in E|].
    clear Hs E. induction Hall as [|j l Hj _ IH]; simpl; [done|]. by rewrite Hj, IH.
  - apply StronglySorted_inv in Hs as [Hs Hall].
    assert (before j i) as Hji. { rewrite Forall_forall in Hall. apply Hall. set_solver. }
    by rewrite (Hasym _ _ Hji), IH.
Qed.

Lemma filter_and {A} (p q : A → bool) l :
  List.filter (λ x, p x && q x) l = List.filter q (List.filter p l).
Proof. induction l as [|x l IH]; simpl; [done|]. destruct (p x); simpl; [|done]. by destruct (q x); rewrite IH. Qed.

Lemma count_app p self l1 l2 : count p self (l1 ++ l2) = (count p self l1 + count p self l2)%nat.
Proof. unfold count. by rewrite List.filter_app, length_app. Qed.

Lemma scan_pages_total fuel self table limit done_ rest cursor m d :
  0 < limit → StronglySorted before table → List.filter live table = done_ ++ rest →
  cursor = inst_saga_id <$> last done_ → (length rest < fuel)%nat →
  scan_pages lt fuel self table limit cursor m d
  = Ok (Some (m + count is_missing self rest, d + count is_drifted self rest)%nat).
Proof.
  intros Hpos Hs. revert done_ rest cursor m d. induction fuel as [|fuel IH]; [lia|].
  intros done_ rest cursor m d Hsplit -> Hfuel. cbn [scan_pages]. unfold list_non_terminal_after.
  replace (limit =? 0) with false by lia. simpl.
  assert (List.filter (λ i, negb (SagaStatus_is_terminal (inst_status i))
      && match inst_saga_id <$> last done_ with Some id => lt id (inst_saga_id i) | None => true end) table
    = rest) as ->.
  { rewrite filter_and. fold live. rewrite Hsplit. destruct (last done_) as [i|] eqn:El; simpl.
    - apply after_prefix; [|done]. rewrite <- Hsplit. by apply filter_sorted.
    - apply last_None in El as ->. simpl. clear. induction rest; simpl; congruence. }
  destruct (take (Z.to_nat limit) rest) as [|i page] eqn:Ep.
  { destruct rest; [|by destruct (Z.to_nat limit) eqn:?; [lia|]]. unfold count. simpl. do 2 f_equal. f_equal; lia. }
  rewrite <- Ep.
  destruct (Z.of_nat (length (take (Z.to_nat limit) rest)) <? limit) eqn:El.
  { rewrite length_take in El. apply Z.ltb_lt in El. rewrite take_ge by lia. done. }
  rewrite (IH (done_ ++ take (Z.to_nat limit) rest) (drop (Z.to_nat limit) rest)).
  - rewrite <- (take_drop (Z.to_nat limit) rest) at 5 6. rewrite !count_app. do 2 f_equal. f_equal; lia.
  - by rewrite <- app_assoc, take_drop.
  - rewrite Ep, last_app. by destruct (last (i :: page)) eqn:E; [|apply last_None in E].
  - rewrite length_drop. destruct rest; [by rewrite take_nil in Ep|]. simpl in *. lia.
Qed.
Lemma count_none p self l :
  (count p self l =? 0)%nat = forallb (λ i, negb (p (check_instance self i))) l.
Proof. unfold count. induction l as [|i l IH]; simpl; [done|]. by destruct (p _). Qed.

(** The startup precheck is exact and terminates: on any table ordered by id
    and any positive page size, the paged scan visits every running instance
    once and accepts exactly when each of them resolves to a definition with
    the digest it was started with. *)
Theorem startup_scan_exact (self : DefinitionRegistry) (table : list SagaInstanceRow) (scan_limit : Z)
    (Hlimit : 0 < scan_limit) (Hsorted : StronglySorted before table) :
  verify_non_terminal lt self table scan_limit
  = if forallb (precheck_passes self) (List.filter live table) then Ok (Some tt)
    else Err (Anyhow "definition precheck failed; refusing Ready").
Proof.
  unfold verify_non_terminal.
  rewrite (scan_pages_total _ self table scan_limit [] (List.filter live table)); try done.
  2:{ apply Nat.lt_succ_r, List.filter_length_le. }
  simpl. replace (forallb _ _) with
    ((count is_missing self (List.filter live table) =? 0)%nat
     && (count is_drifted self (List.filter live table) =? 0)%nat).
  - by destruct (count is_missing _ _), (count is_drifted _ _).
  - rewrite !count_none. induction (List.filter live table) as [|i l IH]; simpl; [done|].
    rewrite <- IH. unfold precheck_passes. destruct (check_instance self i); simpl; [done| |done].
    by rewrite andb_false_r.
Qed.
End scan.

(** ** Witnesses *)

Section witnesses.
#[local] Existing Instance demo_runtime.

Definition poll_free (name : string) (version : Z) (steps : list StepDefinition) : WorkflowDefinition :=
  mkWorkflowDefinition (mkWorkflowName name) (mkDefinitionVersion version) steps.

Definition demo_row (id : string) (status : SagaStatus) : SagaInstanceRow :=
  mkInstance (mkSagaId id) (mkTenantId "acme") (mkWorkflowName "order") (mkBusinessKey id)
    (mkDefinitionVersion 1) (WorkflowDefinition_digest sha256 (poll_free "order" 1 []))
    None status Active 1 Direction_Forward None None 1 None None None.

Definition demo_registry : DefinitionRegistry :=
  mkRegistry {[ ("order", 1) := mkEntry (poll_free "order" 1 []) true ]} ∅.

(** Ids of one byte, ordered by it. *)
Definition demo_lt (a b : SagaId) : bool :=
  match as_bytes (SagaId_as_str a), as_bytes (SagaId_as_str b) with
  | x :: _, y :: _ => x <? y
  | _, _ => false
  end.

Lemma startup_scan_exact_witness :
  verify_non_terminal demo_lt demo_registry
    [demo_row "a" Running; demo_row "b" Completed; demo_row "c" Compensating] 1 = Ok (Some tt).
Proof.
  rewrite (startup_scan_exact demo_lt); [reflexivity| | |].
  - intros a b. unfold demo_lt. destruct (as_bytes _), (as_bytes _); try done. lia.
  - lia.
  - repeat constructor.
Defined.

Lemma registry_immutable_witness :
  DefinitionRegistry_get_for_tenant demo_registry (mkTenantId "acme") (mkWorkflowName "order")
    (mkDefinitionVersion 1) = Some (poll_free "order" 1 []) ∧ well_keyed demo_registry.
Proof.
  assert (rtc registers DefinitionRegistry_new demo_registry) as Hr.
  { apply rtc_once, (registers_global _ (poll_free "order" 1 [])). reflexivity. }
  destruct (registry_immutable DefinitionRegistry_new demo_registry) as [Hw _]; [|exact Hr|].
  - split; apply map_Forall_empty.
  - split; [reflexivity|exact Hw].
Defined.
Lemma tenant_definition_shadows_global_witness :
  ∃ r', DefinitionRegistry_get_for_tenant r' (mkTenantId "acme") (mkWorkflowName "order")
          (mkDefinitionVersion 1)
        = Some (poll_free "order" 1 [sample_step "debit" Compensable 5000000000]).
Proof.
  destruct (tenant_definition_shadows_global demo_registry (mkTenantId "acme")
    (poll_free "order" 1 [sample_step "debit" Compensable 5000000000]) (poll_free "order" 1 []) true)
    as (r' & _ & _ & _ & Hr).
  - reflexivity.
  - reflexivity.
  - apply (bool_decide_eq_false_1 (_ = _)). vm_compute. reflexivity.
  - reflexivity.
  - reflexivity.
  - reflexivity.
  - exists r'. exact Hr.
Defined.
End witnesses.
