(* ===== verification/SagaOrchestrator.v ===== *)
(** * The orchestrator's decisions

    Models [nasaga-runtime-core/src/orchestrator.rs]: routing of participant
    results, judgement of due timers, the progress primitives and the pure
    checks they rely on, over the store of [SagaStore]; and
    [run_authorized_for] of [transaction.rs], under which results are handled
    and sagas are started.  A handler is a
    transaction [Tx]: it reads and writes the rows of its saga and its error
    rolls all of it back. *)

From Stdlib Require Import ZArith Lia.
From S2P Require Import Prelude Bytes SagaIdentity SagaState SagaDefinition SagaPlan SagaEnvelope.
From S2P Require Import SagaStore SagaRegistry.
From stdpp Require Import prelude strings gmap.

Local Open Scope Z_scope.
Local Open Scope rust_scope.

(** [TenantActionRate] *)
Record TenantActionRate := mkActionRate { max_actions : Z; window_ms : Z }.

Record OrchestratorConfig := mkConfig {
  inbox_consumer : string;
  cancel_max_attempts : Z;
  compensate_max_attempts : Z;
  resolve_max_attempts : Z;
  timer_claim_limit : Z;
  timer_lease_ms : Z;
  pause_backoff_ms : Z;
  startup_scan_limit : Z;
  tenant_quotas : gmap string Z;
  tenant_action_rates : gmap string TenantActionRate;
  enable_manual_close : bool
}.

(** [OrchestratorConfig::default()] *)
Definition OrchestratorConfig_default : OrchestratorConfig :=
  mkConfig "nasaga-orchestrator" 5 5 10 32 60000 30000 1000 ∅ ∅ false.

Definition inbox_consumer_byte (b : Z) : bool :=
  is_ascii_lowercase b || is_ascii_digit b || (b =? 95) || (b =? 45) || (b =? 46).

(** The loop over the action rates. *)
Fixpoint validate_rates (rates : list (string * TenantActionRate)) : SagaResult unit :=
  match rates with
  | [] => Ok tt
  | (tenant, rate) :: rest =>
      ensure is_ok (TenantId_new tenant) else Anyhow "tenant action rate key is not a valid tenant id" in
      ensure 0 <? window_ms rate else Anyhow "tenant action rate window_ms must be positive" in
      validate_rates rest
  end.

Definition validate_config (config : OrchestratorConfig) : SagaResult unit :=
  let consumer := inbox_consumer config in
  ensure negb (is_empty consumer || negb (is_trimmed consumer) || (128 <? len consumer)
               || existsb (λ b, b =? 0) (as_bytes consumer)
               || negb (forallb inbox_consumer_byte (as_bytes consumer))
               || (cancel_max_attempts config =? 0) || (compensate_max_attempts config =? 0)
               || (resolve_max_attempts config =? 0) || (timer_claim_limit config =? 0)
               || (timer_lease_ms config <=? 0) || (pause_backoff_ms config <=? 0)
               || (startup_scan_limit config =? 0)) else
    Anyhow "orchestrator config violates the Inbox key contract or positive budgets" in
  ensure forallb (λ q, is_ok (TenantId_new q.1)) (map_to_list (tenant_quotas config)) else
    Anyhow "tenant quota key is not a valid tenant id" in
  validate_rates (map_to_list (tenant_action_rates config)).

Inductive ActionRateReservation := Rate_Reserved | Rate_Exceeded.

(** The orchestrator: its budgets, the registry it serves from, and the
    verdicts of two ledgers that all sagas of a tenant share: the outbox
    quota and the rate of management actions. *)
Record Orchestrator := mkOrchestrator {
  config : OrchestratorConfig;
  registry : DefinitionRegistry;
  outbox_admits : TenantId → bool;
  reserve_tenant_action_rate : TenantId → Z → Z → SagaResult ActionRateReservation
}.

(** [registry_snapshot().get_for_tenant(..)] *)
Definition get_for_tenant (self : Orchestrator) (tenant : TenantId) (workflow : WorkflowName)
    (version : DefinitionVersion) : option WorkflowDefinition :=
  DefinitionRegistry_get_for_tenant (registry self) tenant workflow version.

(** What the [authorize] of a transaction answers: before each poll of the
    body, as many as there were, where the body itself consults it, and when
    the body has returned. *)
Record Authority := mkAuthority {
  at_polls : list (SagaResult unit);
  in_body : SagaResult unit;
  at_commit : SagaResult unit
}.

(** An authority that holds throughout. *)
Definition granted : Authority := mkAuthority [Ok tt] (Ok tt) (Ok tt).

(** The polls of the body: the first denial ends them. *)
Fixpoint poll_authorized (readings : list (SagaResult unit)) : SagaResult unit :=
  match readings with
  | [] => Ok tt
  | reading :: rest => let? _ := reading in poll_authorized rest
  end.

(** [run_authorized_for].  A denial before a poll abandons the body and rolls
    back whatever it had written, so it makes no difference to the rows when in
    the body it comes. *)
Definition run_authorized_for {A} (authorize : Authority) (body : Tx A) : Tx A :=
  do! lift (poll_authorized (at_polls authorize)) in
  bind! outcome := body in
  do! lift (at_commit authorize) in
  ret outcome.

Inductive HandleOutcome := Handle_Applied (status : SagaStatus) | Handle_Duplicate.

Inductive TimerOutcome :=
| Timer_Applied (status : SagaStatus)
| SkippedPaused
| SkippedFencingLost
| SkippedStale.

(** ** Pure checks *)

Definition duration_millis (duration : Z) : SagaResult Z :=
  let millis := as_millis duration in
  ensure millis <=? I64_MAX else Anyhow "saga duration exceeds the supported millisecond range" in
  ensure 0 <? millis else Anyhow "saga duration must be at least one millisecond" in
  Ok millis.

Definition checked_deadline (now_ms delay_ms : Z) : SagaResult Z :=
  ensure 0 <? delay_ms else Anyhow "saga timer delay must be positive" in
  ok_or (i64_checked_add now_ms delay_ms) (Anyhow "saga timer deadline overflow").

Definition ensure_applied (outcome : CasOutcome) : SagaResult Z :=
  match outcome with
  | Cas_Applied new_version => Ok new_version
  | Cas_Conflict => Err (Concurrency StaleSnapshot)
  | Cas_DuplicateTrigger => Err (Concurrency DuplicateTrigger_)
  end.

(** One field of [merge_deferred_projection]: [None] is the conflict. *)
Definition merge_forward (current next : StepForwardStatus)
    : option (option StepForwardStatus) :=
  if bool_decide (current = next) then Some None
  else match current, next with
       | (Forward_Pending | Forward_Unknown | Forward_TimedOut), _ => Some (Some next)
       | _, (Forward_Unknown | Forward_TimedOut) => Some None
       | _, _ => None
       end.

Definition merge_cancel (current next : StepCancelStatus) : option (option StepCancelStatus) :=
  if bool_decide (current = next) then Some None
  else match current, next with
       | (Cancel_None | Cancel_ResolutionPending), _ => Some (Some next)
       | _, Cancel_ResolutionPending => Some None
       | _, _ => None
       end.

Definition merge_compensation (current next : StepCompensationStatus)
    : option (option StepCompensationStatus) :=
  if bool_decide (current = next) then Some None
  else match current, next with
       | (Comp_None | Comp_Pending | Comp_Unknown), _ => Some (Some next)
       | _, (Comp_Unknown | Comp_Pending) => Some None
       | _, _ => None
       end.

Definition merge_resolution (current next : StepResolutionStatus)
    : option (option StepResolutionStatus) :=
  if bool_decide (current = next) then Some None
  else match current, next with
       | (Resolution_None | Resolution_Pending), _ => Some (Some next)
       | _, Resolution_Pending => Some None
       | _, _ => None
       end.

Definition merge_field {S} (merge : S → S → option (option S)) (current : S) (patch : option S)
    : option (option S) :=
  match patch with None => Some None | Some next => merge current next end.

Definition merge_deferred_projection (row : SagaStepRow) (patch : StepJournalPatch)
    : option StepJournalPatch :=
  match merge_field merge_forward (row_forward_status row) (patch_forward_status patch),
        merge_field merge_cancel (row_cancel_status row) (patch_cancel_status patch),
        merge_field merge_compensation (row_compensation_status row) (patch_compensation_status patch),
        merge_field merge_resolution (row_resolution_status row) (patch_resolution_status patch) with
  | Some f, Some c, Some k, Some r =>
      Some (mkPatch f c k r (patch_last_error_code patch) (patch_mark_finished patch))
  | _, _, _, _ => None
  end.

(** The loop of [next_pending_forward] over the definition, from [index]. *)
Fixpoint scan_forward (index : nat) (next : option StepName) (defs : list StepDefinition)
    (rows : list SagaStepRow) : SagaResult (option StepName) :=
  match defs, rows with
  | [], _ => Ok next
  | step_def :: defs', row :: rows' =>
      ensure bool_decide (row_step row = step_name step_def)
             && (row_ordinal row =? Z.of_nat index + 1) else
        Anyhow "step journal order does not match the workflow definition" in
      match next, row_forward_status row with
      | None, Forward_Succeeded => scan_forward (S index) None defs' rows'
      | None, Forward_Pending => scan_forward (S index) (Some (row_step row)) defs' rows'
      | Some s, Forward_Pending => scan_forward (S index) (Some s) defs' rows'
      | _, _ => Err (Anyhow "forward journal is not a succeeded-prefix/pending-suffix")
      end
  | _ :: _, [] => Err (Anyhow "step journal does not completely cover the workflow definition")
  end.

Definition next_pending_forward (definition : WorkflowDefinition) (steps : list SagaStepRow)
    : SagaResult (option StepName) :=
  ensure Nat.eqb (length steps) (length (workflow_steps definition)) else
    Anyhow "step journal does not completely cover the workflow definition" in
  scan_forward 0 None (workflow_steps definition) steps.

Definition journal_of (steps : list SagaStepRow) : list StepJournalEntry :=
  map (λ row, mkJournalEntry (row_step row) (row_forward_status row)) steps.

Definition find_row (step : StepName) (steps : list SagaStepRow) : option SagaStepRow :=
  find_first (λ row, bool_decide (row_step row = step)) steps.

Definition marked_count (version : string) (steps : list SagaStepRow) : nat :=
  length (List.filter (λ row, bool_decide (row_compensation_plan_version row = Some version)) steps).

Definition member_metadata (version : string) (entry : CompensationEntry) (row : SagaStepRow) : bool :=
  bool_decide (row_compensation_plan_version row = Some version)
  && bool_decide (row_compensation_order row = Some (plan_order entry)).

(** The loop of [next_pending_compensation] over the rebuilt plan. *)
Fixpoint scan_compensation (allow_halted_recovery : bool) (version : string)
    (steps : list SagaStepRow) (next : option StepName) (entries : list CompensationEntry)
    : SagaResult (option StepName) :=
  match entries with
  | [] => Ok next
  | entry :: rest =>
      let? row := ok_or (find_row (plan_step entry) steps)
                    (Anyhow "frozen compensation member is missing") in
      ensure member_metadata version entry row else
        Anyhow "durable compensation member metadata drifted" in
      match next, row_compensation_status row with
      | None, Comp_Succeeded => scan_compensation allow_halted_recovery version steps None rest
      | None, Comp_Pending =>
          scan_compensation allow_halted_recovery version steps (Some (row_step row)) rest
      | None, Comp_Halted =>
          if allow_halted_recovery
          then scan_compensation allow_halted_recovery version steps (Some (row_step row)) rest
          else Err (Anyhow "compensation journal is not a succeeded-prefix/pending-suffix")
      | Some s, Comp_Pending => scan_compensation allow_halted_recovery version steps (Some s) rest
      | _, _ => Err (Anyhow "compensation journal is not a succeeded-prefix/pending-suffix")
      end
  end.

Section orchestrator.
Context `{Runtime}.

Record ResultContext := mkContext {
  ctx_instance : SagaInstanceRow;
  ctx_definition : WorkflowDefinition;
  ctx_step_def : StepDefinition;
  ctx_identity : VerifiedIdentity;
  ctx_status : StepAttemptStatus;
  ctx_terminal : option StepForwardStatus;
  ctx_reason_code : option string;
  ctx_event_id : string;
  ctx_now_ms : Z
}.

Inductive CommandInput := CommandInput_Json (value : Json) | CommandInput_Raw (value : SagaPayload).

Definition verify_instance_contract (instance : SagaInstanceRow) (identity : VerifiedIdentity)
    : SagaResult unit :=
  ensure bool_decide (inst_tenant instance = vid_tenant identity) else
    Anyhow "envelope tenant does not match the instance tenant" in
  ensure bool_decide (inst_workflow instance = vid_workflow identity)
         && bool_decide (inst_definition_version instance = vid_definition_version identity) else
    Anyhow "envelope workflow/version does not match the instance" in
  ensure bool_decide (inst_definition_digest instance = vid_definition_digest identity) else
    Anyhow "envelope definition digest does not match the instance" in
  Ok tt.

Definition conflicting_forward (row : SagaStepRow) : option StepAttemptStatus :=
  match row_forward_status row with
  | Forward_Succeeded => Some Attempt_Succeeded
  | Forward_Rejected => Some Attempt_Rejected
  | Forward_Cancelled => Some Attempt_CancelConfirmed
  | Forward_Halted => Some Attempt_Halted
  | Forward_Pending | Forward_Unknown | Forward_TimedOut => None
  end.

Definition conflicting_cancellation (row : SagaStepRow) : option StepAttemptStatus :=
  match row_cancel_status row with
  | Cancel_Confirmed => Some Attempt_CancelConfirmed
  | Cancel_AlreadyTerminal => Some Attempt_AlreadyTerminal
  | Cancel_None | Cancel_ResolutionPending => None
  end.

Definition conflicting_compensation (row : SagaStepRow) : option StepAttemptStatus :=
  match row_compensation_status row with
  | Comp_Succeeded => Some Attempt_Succeeded
  | Comp_Halted => Some Attempt_Halted
  | Comp_None | Comp_Pending | Comp_Unknown => None
  end.

Definition conflicting_resolution (row : SagaStepRow) : option StepAttemptStatus :=
  match row_resolution_status row with
  | Resolution_Succeeded => Some Attempt_Succeeded
  | Resolution_Rejected => Some Attempt_Rejected
  | Resolution_Halted => Some Attempt_Halted
  | Resolution_None | Resolution_Pending => None
  end.

Definition conflicting_projection_status (row : SagaStepRow) (context : ResultContext)
    : option StepAttemptStatus :=
  match vid_phase (ctx_identity context) with
  | Execute => coalesce (conflicting_forward row) (conflicting_cancellation row)
  | SagaIdentity.Cancel => coalesce (conflicting_cancellation row) (conflicting_forward row)
  | Compensate => coalesce (conflicting_compensation row) (conflicting_resolution row)
  | Resolve =>
      coalesce (conflicting_resolution row)
        (match inst_direction (ctx_instance context) with
         | Direction_Compensating => conflicting_compensation row
         | Direction_Forward => conflicting_forward row
         end)
  end.

Definition next_pending_compensation (instance : SagaInstanceRow) (definition : WorkflowDefinition)
    (steps : list SagaStepRow) (allow_halted_recovery : bool) : SagaResult (option StepName) :=
  let? frozen_version := ok_or (inst_compensation_plan_version instance)
                           (Anyhow "compensating instance has no frozen plan") in
  let? rebuilt := map_err (λ v, Anyhow (code v))
                    (freeze_compensation_plan sha256 definition (journal_of steps)) in
  ensure bool_decide (plan_version rebuilt = frozen_version) else
    Anyhow "frozen compensation plan digest drifted" in
  let? next := scan_compensation allow_halted_recovery frozen_version steps None
                 (plan_entries rebuilt) in
  ensure Nat.eqb (marked_count frozen_version steps) (length (plan_entries rebuilt)) else
    Anyhow "durable compensation plan contains unexpected members" in
  Ok next.

Definition CONVERGE_TRIGGER_NAMESPACE : list Z := as_bytes "nasasaga-v1-cvns".

Definition derive_converge_trigger_id (cause_id : string) : string :=
  uuid_to_string (uuid_new_v5 CONVERGE_TRIGGER_NAMESPACE
    (canonical_bytes [as_bytes cause_id; as_bytes "converge"])).

(** ** Progress primitives *)

Context (self : Orchestrator).

Definition patch_step (step : StepName) (patch : StepJournalPatch) : Tx unit :=
  update_step_journal step patch.

Definition max_attempt (phase : StepPhase) (rows : list SagaStepAttemptRow) : option Z :=
  fold_left (λ acc row,
    if bool_decide (att_phase row = phase) then
      Some (match acc with
            | Some m => Z.max m (AttemptNo_get (att_attempt row))
            | None => AttemptNo_get (att_attempt row)
            end)
    else acc) rows None.

Definition next_attempt (step : StepName) (phase : StepPhase) : Tx AttemptNo :=
  bind! attempts := load_attempts step in
  match max_attempt phase attempts with
  | None => ret AttemptNo_FIRST
  | Some value =>
      lift (map_err (λ v, Anyhow ("attempt overflow: " +:+ code v))
              (let? attempt := AttemptNo_new value in AttemptNo_next attempt))
  end.

Definition schedule_timer (saga_id : SagaId) (scope : TimerScope) (kind : string)
    (attempt : AttemptNo) (due_at_ms expected_version : Z) : Tx unit :=
  do! store_schedule_timer
        {| spec_timer_id := derive_timer_id saga_id scope kind attempt;
           spec_scope := scope; spec_kind := kind; spec_due_at_ms := due_at_ms;
           spec_attempt := attempt; spec_expected_saga_version := expected_version |} in
  ret tt.

Definition cancel_resolution_timers (step : StepName) : Tx unit :=
  do! cancel_scope_timers (Scope_Step step) (Some KIND_RESOLUTION_BUDGET) in
  do! cancel_scope_timers (Scope_Step step) (Some KIND_FORWARD_RESOLUTION_BUDGET) in
  do! cancel_scope_timers (Scope_Step step) (Some KIND_COMPENSATION_RESOLUTION_BUDGET) in
  cancel_scope_timers (Scope_Step step) (Some KIND_RESOLVE_TIMEOUT).

Definition advance_from (instance : SagaInstanceRow) (from to : SagaStatus) (direction : Direction)
    (current_step : option StepName) (kind : TriggerKind) (trigger : string)
    (failure plan : option string) : Tx Z :=
  bind! outcome := store_advance (inst_saga_id instance) (inst_version instance) from
    {| to_status := to; spec_direction := direction; spec_current_step := current_step;
       trigger_kind := kind; trigger_id := trigger;
       spec_definition_version := inst_definition_version instance;
       failure_code := failure; compensation_plan_version := plan |} in
  lift (ensure_applied outcome).

Definition advance (instance : SagaInstanceRow) (to : SagaStatus) (direction : Direction)
    (current_step : option StepName) (kind : TriggerKind) (trigger : string)
    (failure plan : option string) : Tx Z :=
  advance_from instance (inst_status instance) to direction current_step kind trigger failure plan.

Definition escalate_manual (instance : SagaInstanceRow) (kind : TriggerKind) (trigger : string)
    (failure : string) : Tx SagaStatus :=
  do! advance instance ManualIntervention (inst_direction instance) (inst_current_step instance)
        kind trigger (Some failure) None in
  ret ManualIntervention.

(** [issue_command]; the trace header of the outbox event is observability
    only. *)
Definition issue_command (instance : SagaInstanceRow) (step_def : StepDefinition) (phase : StepPhase)
    (attempt : AttemptNo) (payload : option CommandInput) (recovery_operation_id : option string)
    (now_ms expected_version : Z) : Tx unit :=
  let step := step_name step_def in
  let effect := EffectId_derive uuid_new_v5 (inst_saga_id instance)
                  (inst_definition_version instance) step phase in
  let command := CommandId_derive uuid_as_bytes uuid_new_v5 effect attempt in
  do! record_attempt_started step phase attempt effect command in
  let envelope :=
    {| cmd_saga_id := SagaId_as_str (inst_saga_id instance);
       cmd_tenant_id := TenantId_as_str (inst_tenant instance);
       cmd_workflow := WorkflowName_as_str (inst_workflow instance);
       cmd_definition_version := DefinitionVersion_get (inst_definition_version instance);
       cmd_definition_digest := inst_definition_digest instance;
       cmd_step := StepName_as_str step;
       cmd_phase := StepPhase_as_str phase;
       cmd_attempt := AttemptNo_get attempt;
       cmd_effect_id := uuid_to_string effect;
       cmd_command_id := uuid_to_string command;
       cmd_recovery_operation_id := recovery_operation_id;
       cmd_payload := match payload with Some (CommandInput_Json value) => Some value | _ => None end;
       cmd_raw_payload := match payload with Some (CommandInput_Raw value) => Some value | _ => None end |} in
  do! lift (SagaCommandEnvelope_verified envelope) in
  do! lift (map_err (λ _, Anyhow "outbox write context rejected")
              (OutboxWriteContext_new (TenantId_as_str (inst_tenant instance)))) in
  do! outbox_append (outbox_admits self (inst_tenant instance)) envelope in
  bind! timeout_ms := lift (duration_millis (step_timeout step_def)) in
  bind! due := lift (checked_deadline now_ms timeout_ms) in
  schedule_timer (inst_saga_id instance) (Scope_Step step) (phase_timeout_kind phase) attempt due
    expected_version.

Definition verify_member (version : string) (steps : list SagaStepRow) (entry : CompensationEntry)
    : SagaResult unit :=
  let? row := ok_or (find_row (plan_step entry) steps)
                (Anyhow "frozen compensation member is missing") in
  ensure member_metadata version entry row
         && bool_decide (row_compensation_status row = Comp_Succeeded) else
    Anyhow "frozen compensation member is not durably succeeded" in
  Ok tt.

Fixpoint verify_members (version : string) (steps : list SagaStepRow)
    (entries : list CompensationEntry) : SagaResult unit :=
  match entries with
  | [] => Ok tt
  | entry :: rest => try? verify_member version steps entry in verify_members version steps rest
  end.

Definition verify_compensation_completion (saga_id : SagaId) (expected_version : Z)
    : Tx DefinitionVersion :=
  bind! found := load_instance saga_id in
  bind! instance := lift (ok_or found (Anyhow "saga instance not found while converging")) in
  require! bool_decide (inst_status instance = Compensating)
           && (inst_version instance =? expected_version) else
    Anyhow "compensation completion proof used a stale instance snapshot" in
  bind! frozen_version := lift (ok_or (inst_compensation_plan_version instance)
    (Anyhow "compensating instance has no frozen plan")) in
  bind! definition := lift (ok_or
    (get_for_tenant self (inst_tenant instance) (inst_workflow instance)
       (inst_definition_version instance)) (Anyhow "instance definition is not registered")) in
  bind! steps := load_steps in
  bind! rebuilt := lift (map_err (λ v, Anyhow (code v))
    (freeze_compensation_plan sha256 definition (journal_of steps))) in
  require! bool_decide (plan_version rebuilt = frozen_version) else
    Anyhow "frozen compensation plan no longer matches durable forward facts" in
  do! lift (verify_members frozen_version steps (plan_entries rebuilt)) in
  require! Nat.eqb (marked_count frozen_version steps) (length (plan_entries rebuilt)) else
    Anyhow "durable compensation plan contains unexpected members" in
  ret (inst_definition_version instance).

Definition converge_compensated_at (saga_id : SagaId) (version : Z) (kind : TriggerKind)
    (cause_id : string) : Tx unit :=
  bind! definition_version := verify_compensation_completion saga_id version in
  bind! outcome := store_advance saga_id version Compensating
    {| to_status := Compensated; spec_direction := Direction_Compensating;
       spec_current_step := None; trigger_kind := kind;
       trigger_id := derive_converge_trigger_id cause_id;
       spec_definition_version := definition_version;
       failure_code := None; compensation_plan_version := None |} in
  do! lift (ensure_applied outcome) in
  cancel_scope_timers Scope_Instance None.

Definition converge_compensated (instance : SagaInstanceRow) (version : Z) (kind : TriggerKind)
    (cause_id : string) : Tx unit :=
  converge_compensated_at (inst_saga_id instance) version kind cause_id.

Definition proceed_forward (context : ResultContext) : Tx SagaStatus :=
  bind! steps := load_steps in
  bind! next := lift (next_pending_forward (ctx_definition context) steps) in
  match next with
  | Some next =>
      bind! version := advance (ctx_instance context) Running Direction_Forward (Some next)
                         Trigger_Event (ctx_event_id context) None None in
      bind! next_def := lift (ok_or (WorkflowDefinition_step (ctx_definition context) next)
                               (Anyhow "next step absent from definition")) in
      bind! attempt := next_attempt next Execute in
      do! issue_command (ctx_instance context) next_def Execute attempt None None
            (ctx_now_ms context) version in
      ret Running
  | None =>
      do! advance (ctx_instance context) Completed Direction_Forward None
            Trigger_Event (ctx_event_id context) None None in
      do! cancel_scope_timers Scope_Instance None in
      ret Completed
  end.

Definition enter_compensation (context : ResultContext) : Tx SagaStatus :=
  bind! steps := load_steps in
  match freeze_compensation_plan sha256 (ctx_definition context) (journal_of steps) with
  | Err violation =>
      escalate_manual (ctx_instance context) Trigger_Event (ctx_event_id context) (code violation)
  | Ok plan =>
      let first := option_map plan_step (head (plan_entries plan)) in
      bind! version := advance (ctx_instance context) Compensating Direction_Compensating first
                         Trigger_Event (ctx_event_id context) None (Some (plan_version plan)) in
      do! mark_compensation_plan plan in
      match first with
      | Some step =>
          bind! step_def := lift (ok_or (WorkflowDefinition_step (ctx_definition context) step)
                                   (Anyhow "plan step absent from definition")) in
          bind! attempt := next_attempt step Compensate in
          do! issue_command (ctx_instance context) step_def Compensate attempt None None
                (ctx_now_ms context) version in
          ret Compensating
      | None =>
          do! converge_compensated (ctx_instance context) version Trigger_Event
                (ctx_event_id context) in
          ret Compensated
      end
  end.

Definition continue_compensation (context : ResultContext) : Tx SagaStatus :=
  bind! steps := load_steps in
  match next_pending_compensation (ctx_instance context) (ctx_definition context) steps false with
  | Err _ =>
      escalate_manual (ctx_instance context) Trigger_Event (ctx_event_id context)
        "compensation_plan_drift"
  | Ok next =>
      bind! version := advance (ctx_instance context) Compensating Direction_Compensating next
                         Trigger_Event (ctx_event_id context) None None in
      match next with
      | Some step =>
          bind! step_def := lift (ok_or (WorkflowDefinition_step (ctx_definition context) step)
                                   (Anyhow "plan step absent from definition")) in
          bind! attempt := next_attempt step Compensate in
          do! issue_command (ctx_instance context) step_def Compensate attempt None None
                (ctx_now_ms context) version in
          ret Compensating
      | None =>
          do! converge_compensated_at (vid_saga_id (ctx_identity context)) version Trigger_Event
                (ctx_event_id context) in
          ret Compensated
      end
  end.

Definition with_forward (s : StepForwardStatus) : StepJournalPatch := mkPatch (Some s) None None None None false.

Definition enter_waiting_resolution (context : ResultContext) (direction : Direction)
    : Tx SagaStatus :=
  let step := vid_step (ctx_identity context) in
  let resolution := step_resolution (ctx_step_def context) in
  let executing := bool_decide (vid_phase (ctx_identity context) = Execute) in
  if negb (allow_unknown resolution) then
    do! (if executing then patch_step step (with_forward Forward_Unknown) else ret tt) in
    escalate_manual (ctx_instance context) Trigger_Event (ctx_event_id context) "unknown_not_allowed"
  else
    do! patch_step step
          (mkPatch (if executing then Some Forward_Unknown else None) None None
             (Some Resolution_Pending) None false) in
    do! cancel_scope_timers (Scope_Step step) (Some KIND_STEP_TIMEOUT) in
    bind! version := advance (ctx_instance context) WaitingResolution direction (Some step)
                       Trigger_Event (ctx_event_id context) None None in
    bind! budget_ms := lift (duration_millis (resolution_budget resolution)) in
    bind! due := lift (checked_deadline (ctx_now_ms context) budget_ms) in
    do! schedule_timer (vid_saga_id (ctx_identity context)) (Scope_Step step)
          (resolution_budget_kind direction) (vid_attempt (ctx_identity context)) due version in
    do! (if bool_decide (resolution_mode resolution = Some Poll) then
           bind! attempt := next_attempt step Resolve in
           issue_command (ctx_instance context) (ctx_step_def context) Resolve attempt None None
             (ctx_now_ms context) version
         else ret tt) in
    ret WaitingResolution.

Definition reissue_resolve (context : ResultContext) : Tx SagaStatus :=
  let step := vid_step (ctx_identity context) in
  bind! used := count_resolution_attempts step (inst_direction (ctx_instance context)) in
  if resolve_max_attempts (config self) <=? used then
    escalate_manual (ctx_instance context) Trigger_Event (ctx_event_id context)
      "resolve_attempts_exhausted"
  else
    bind! attempt := next_attempt step Resolve in
    bind! version := advance (ctx_instance context) WaitingResolution
                       (inst_direction (ctx_instance context)) (Some step)
                       Trigger_Event (ctx_event_id context) None None in
    do! issue_command (ctx_instance context) (ctx_step_def context) Resolve attempt None None
          (ctx_now_ms context) version in
    ret WaitingResolution.

(** ** Results *)

(** A resolution that denies a compensation already committed as done. *)
Definition resolve_after_compensation_success (context : ResultContext) (row : SagaStepRow)
    (patch : StepJournalPatch) : bool :=
  bool_decide (vid_phase (ctx_identity context) = Resolve)
  && bool_decide (inst_direction (ctx_instance context) = Direction_Compensating)
  && bool_decide (ctx_status context = Attempt_Rejected)
  && bool_decide (row_compensation_status row = Comp_Succeeded)
  && bool_decide (patch_compensation_status patch = Some Comp_Pending).

(** The branch both projections share: keep the evidence, freeze the saga. *)
Definition keep_conflict (context : ResultContext) (row : SagaStepRow) : Tx SagaStatus :=
  bind! existing := lift (ok_or (conflicting_projection_status row context)
                           (Anyhow "conflicting projection has no settled fact")) in
  do! record_attempt_conflict
        {| fact_step := vid_step (ctx_identity context);
           fact_phase := vid_phase (ctx_identity context);
           fact_attempt := vid_attempt (ctx_identity context);
           fact_existing_status := existing;
           fact_incoming_status := ctx_status context;
           fact_incoming_event_id := ctx_event_id context;
           fact_conflict_kind := CrossPhaseFact |} in
  if negb (SagaStatus_is_terminal (inst_status (ctx_instance context)))
     && negb (bool_decide (inst_status (ctx_instance context) = ManualIntervention)) then
    escalate_manual (ctx_instance context) Trigger_Event (ctx_event_id context)
      "cross_phase_fact_conflict"
  else ret (inst_status (ctx_instance context)).

(** The patch and timer kind [project_deferred_result] builds for a late
    result. *)
Definition deferred_patch (context : ResultContext) : SagaResult (StepJournalPatch * string) :=
  let error := ctx_reason_code context in
  match vid_phase (ctx_identity context) with
  | Execute =>
      let? f := match ctx_status context with
                | Attempt_Succeeded => Ok Forward_Succeeded
                | Attempt_Rejected => Ok Forward_Rejected
                | Attempt_Unknown => Ok Forward_Unknown
                | Attempt_Halted => Ok Forward_Halted
                | _ => Err (Anyhow "invalid deferred execute status")
                end in
      Ok (mkPatch (Some f) None None None error
            (negb (bool_decide (ctx_status context = Attempt_Unknown))), KIND_STEP_TIMEOUT)
  | SagaIdentity.Cancel =>
      let? patch := match ctx_status context with
        | Attempt_CancelConfirmed =>
            Ok (mkPatch (Some Forward_Cancelled) (Some Cancel_Confirmed) None None error true)
        | Attempt_AlreadyTerminal =>
            Ok (mkPatch (ctx_terminal context) (Some Cancel_AlreadyTerminal) None None error true)
        | Attempt_ResolutionPending =>
            Ok (mkPatch None (Some Cancel_ResolutionPending) None None error false)
        | _ => Err (Anyhow "invalid deferred cancel status")
        end in
      Ok (patch, KIND_CANCEL_TIMEOUT)
  | Compensate =>
      let? c := match ctx_status context with
                | Attempt_Succeeded => Ok Comp_Succeeded
                | Attempt_Unknown => Ok Comp_Unknown
                | Attempt_Halted => Ok Comp_Halted
                | _ => Err (Anyhow "invalid deferred compensation status")
                end in
      Ok (mkPatch None None (Some c) None error false, KIND_COMPENSATE_TIMEOUT)
  | Resolve =>
      let? r := match ctx_status context with
                | Attempt_Succeeded => Ok Resolution_Succeeded
                | Attempt_Rejected => Ok Resolution_Rejected
                | Attempt_Unknown => Ok Resolution_Pending
                | Attempt_Halted => Ok Resolution_Halted
                | _ => Err (Anyhow "invalid deferred resolution status")
                end in
      Ok (match inst_direction (ctx_instance context) with
          | Direction_Forward =>
              mkPatch (match ctx_status context with
                       | Attempt_Succeeded => Some Forward_Succeeded
                       | Attempt_Rejected => Some Forward_Rejected
                       | Attempt_Halted => Some Forward_Halted
                       | Attempt_Unknown => Some Forward_Unknown
                       | _ => None
                       end) None None (Some r) error false
          | Direction_Compensating =>
              mkPatch None None (match ctx_status context with
                                 | Attempt_Succeeded => Some Comp_Succeeded
                                 | Attempt_Rejected => Some Comp_Pending
                                 | Attempt_Halted => Some Comp_Halted
                                 | Attempt_Unknown => Some Comp_Unknown
                                 | _ => None
                                 end) (Some r) error false
          end, KIND_RESOLVE_TIMEOUT)
  end.

Definition project_deferred_result (context : ResultContext) : Tx SagaStatus :=
  let step := vid_step (ctx_identity context) in
  bind! steps := load_steps in
  bind! row := lift (ok_or (find_row step steps) (Anyhow "step journal row is missing")) in
  if negb (bool_decide (phase_attempt (vid_phase (ctx_identity context)) row
                        = Some (AttemptNo_get (vid_attempt (ctx_identity context))))) then
    ret (inst_status (ctx_instance context))
  else
    bind! built := lift (deferred_patch context) in
    let patch := built.1 in
    let timeout_kind := built.2 in
    match (if resolve_after_compensation_success context row patch then None
           else merge_deferred_projection row patch) with
    | None => keep_conflict context row
    | Some merged =>
        do! cancel_scope_timers (Scope_Step step) (Some timeout_kind) in
        do! patch_step step merged in
        ret (inst_status (ctx_instance context))
    end.

Definition apply_monotonic_projection (context : ResultContext) (patch : StepJournalPatch)
    : Tx (option SagaStatus) :=
  let step := vid_step (ctx_identity context) in
  bind! steps := load_steps in
  bind! row := lift (ok_or (find_row step steps) (Anyhow "step journal row is missing")) in
  match (if resolve_after_compensation_success context row patch then None
         else merge_deferred_projection row patch) with
  | None =>
      bind! status := keep_conflict context row in
      ret (Some status)
  | Some merged =>
      do! patch_step step merged in
      ret None
  end.

(** [if let Some(status) = apply(..)? { return Ok(status); }] *)
Definition unless_frozen (context : ResultContext) (patch : StepJournalPatch) (k : Tx SagaStatus)
    : Tx SagaStatus :=
  bind! frozen := apply_monotonic_projection context patch in
  match frozen with
  | Some status => ret status
  | None => k
  end.

(** The result does not concern what the saga waits for. *)
Definition is_late (context : ResultContext) (expected : SagaStatus) : bool :=
  negb (bool_decide (inst_status (ctx_instance context) = expected))
  || negb (bool_decide (inst_current_step (ctx_instance context)
                        = Some (vid_step (ctx_identity context)))).

Definition on_execute_result (context : ResultContext) : Tx SagaStatus :=
  if is_late context Running then project_deferred_result context else
  let step := vid_step (ctx_identity context) in
  match ctx_status context with
  | Attempt_Succeeded =>
      do! patch_step step (mkPatch (Some Forward_Succeeded) None None None None true) in
      do! cancel_scope_timers (Scope_Step step) (Some KIND_STEP_TIMEOUT) in
      proceed_forward context
  | Attempt_Rejected =>
      do! patch_step step
            (mkPatch (Some Forward_Rejected) None None None (ctx_reason_code context) true) in
      do! cancel_scope_timers (Scope_Step step) (Some KIND_STEP_TIMEOUT) in
      enter_compensation context
  | Attempt_Unknown => enter_waiting_resolution context Direction_Forward
  | Attempt_Halted =>
      do! patch_step step
            (mkPatch (Some Forward_Halted) None None None (ctx_reason_code context) true) in
      do! cancel_scope_timers (Scope_Step step) None in
      escalate_manual (ctx_instance context) Trigger_Event (ctx_event_id context) "step_halted"
  | _ => fail (Anyhow "cancel-vocabulary status on an execute result")
  end.

Definition on_cancel_result (context : ResultContext) : Tx SagaStatus :=
  if is_late context Cancelling then project_deferred_result context else
  let step := vid_step (ctx_identity context) in
  match ctx_status context with
  | Attempt_CancelConfirmed =>
      unless_frozen context
        (mkPatch (Some Forward_Cancelled) (Some Cancel_Confirmed) None None None true)
        (do! cancel_scope_timers (Scope_Step step) (Some KIND_CANCEL_TIMEOUT) in
         enter_compensation context)
  | Attempt_AlreadyTerminal =>
      bind! terminal := lift (ok_or (ctx_terminal context)
                               (Anyhow "ALREADY_TERMINAL requires a terminal status")) in
      unless_frozen context
        (mkPatch (Some terminal) (Some Cancel_AlreadyTerminal) None None None true)
        (do! cancel_scope_timers (Scope_Step step) (Some KIND_CANCEL_TIMEOUT) in
         match terminal with
         | Forward_Succeeded =>
             match step_timeout_policy (ctx_step_def context) with
             | AcceptLateSuccess => proceed_forward context
             | CompensateLateSuccess => enter_compensation context
             end
         | Forward_Rejected => enter_compensation context
         | Forward_Halted =>
             escalate_manual (ctx_instance context) Trigger_Event (ctx_event_id context)
               "step_halted"
         | _ => fail (Anyhow "ALREADY_TERMINAL carried a non-terminal forward status")
         end)
  | Attempt_ResolutionPending =>
      unless_frozen context (mkPatch None (Some Cancel_ResolutionPending) None None None false)
        (do! cancel_scope_timers (Scope_Step step) (Some KIND_CANCEL_TIMEOUT) in
         enter_waiting_resolution context Direction_Forward)
  | _ => fail (Anyhow "non-cancel status on a cancel result")
  end.

Definition on_compensate_result (context : ResultContext) : Tx SagaStatus :=
  if is_late context Compensating then project_deferred_result context else
  let step := vid_step (ctx_identity context) in
  do! cancel_scope_timers (Scope_Step step) (Some KIND_COMPENSATE_TIMEOUT) in
  match ctx_status context with
  | Attempt_Succeeded =>
      do! patch_step step (mkPatch None None (Some Comp_Succeeded) None None false) in
      continue_compensation context
  | Attempt_Unknown =>
      do! patch_step step (mkPatch None None (Some Comp_Unknown) None None false) in
      enter_waiting_resolution context Direction_Compensating
  | Attempt_Halted =>
      do! patch_step step
            (mkPatch None None (Some Comp_Halted) None (ctx_reason_code context) false) in
      escalate_manual (ctx_instance context) Trigger_Event (ctx_event_id context)
        "compensation_halted"
  | _ => fail (Anyhow "invalid status on a compensate result")
  end.

Definition settle_resolution_from_committed_success (context : ResultContext)
    : Tx (option SagaStatus) :=
  let step := vid_step (ctx_identity context) in
  bind! steps := load_steps in
  bind! row := lift (ok_or (find_row step steps) (Anyhow "step journal row is missing")) in
  let committed_success :=
    match inst_direction (ctx_instance context) with
    | Direction_Forward => bool_decide (row_forward_status row = Forward_Succeeded)
    | Direction_Compensating => bool_decide (row_compensation_status row = Comp_Succeeded)
    end in
  if negb committed_success then ret None
  else
    let patch :=
      match inst_direction (ctx_instance context) with
      | Direction_Forward =>
          mkPatch (Some Forward_Succeeded) None None (Some Resolution_Succeeded) None true
      | Direction_Compensating =>
          mkPatch None None (Some Comp_Succeeded) (Some Resolution_Succeeded) None false
      end in
    bind! status := unless_frozen context patch
      (do! cancel_resolution_timers step in
       match inst_direction (ctx_instance context) with
       | Direction_Forward =>
           match step_timeout_policy (ctx_step_def context) with
           | AcceptLateSuccess => proceed_forward context
           | CompensateLateSuccess => enter_compensation context
           end
       | Direction_Compensating => continue_compensation context
       end) in
    ret (Some status).

(** The tail of both directions on a halted resolution. *)
Definition halt_resolution (context : ResultContext) : Tx SagaStatus :=
  unless_frozen context
    (mkPatch None None None (Some Resolution_Halted) (ctx_reason_code context) false)
    (escalate_manual (ctx_instance context) Trigger_Event (ctx_event_id context)
       "resolution_halted").

Definition on_resolve_result (context : ResultContext) : Tx SagaStatus :=
  if is_late context WaitingResolution then project_deferred_result context else
  bind! settled := settle_resolution_from_committed_success context in
  match settled with
  | Some status => ret status
  | None =>
  let step := vid_step (ctx_identity context) in
  match inst_direction (ctx_instance context), ctx_status context with
  | Direction_Forward, Attempt_Succeeded =>
      unless_frozen context
        (mkPatch (Some Forward_Succeeded) None None (Some Resolution_Succeeded) None true)
        (do! cancel_resolution_timers step in proceed_forward context)
  | Direction_Forward, Attempt_Rejected =>
      unless_frozen context
        (mkPatch (Some Forward_Rejected) None None (Some Resolution_Rejected)
           (ctx_reason_code context) true)
        (do! cancel_resolution_timers step in enter_compensation context)
  | Direction_Compensating, Attempt_Succeeded =>
      unless_frozen context
        (mkPatch None None (Some Comp_Succeeded) (Some Resolution_Succeeded) None false)
        (do! cancel_resolution_timers step in continue_compensation context)
  | Direction_Compensating, Attempt_Rejected =>
      unless_frozen context
        (mkPatch None None (Some Comp_Pending) (Some Resolution_Rejected) None false)
        (do! cancel_resolution_timers step in
         bind! attempt := next_attempt step Compensate in
         if compensate_max_attempts (config self) <? AttemptNo_get attempt then
           escalate_manual (ctx_instance context) Trigger_Event (ctx_event_id context)
             "compensation_attempts_exhausted"
         else
           bind! version := advance (ctx_instance context) Compensating Direction_Compensating
                              (Some step) Trigger_Event (ctx_event_id context) None None in
           do! issue_command (ctx_instance context) (ctx_step_def context) Compensate attempt
                 None None (ctx_now_ms context) version in
           ret Compensating)
  | _, Attempt_Unknown => reissue_resolve context
  | _, Attempt_Halted => halt_resolution context
  | _, _ => fail (Anyhow "invalid status on a resolve result")
  end
  end.

Definition route_result (context : ResultContext) : Tx SagaStatus :=
  match vid_phase (ctx_identity context) with
  | Execute => on_execute_result context
  | SagaIdentity.Cancel => on_cancel_result context
  | Compensate => on_compensate_result context
  | Resolve => on_resolve_result context
  end.

(** The body of the transaction of [handle_verified_result]. *)
Definition apply_verified_result (envelope : SagaResultEnvelope) (identity : VerifiedIdentity)
    (status : StepAttemptStatus) (terminal : option StepForwardStatus) (now_ms : Z)
    (authorize : SagaResult unit) : Tx HandleOutcome :=
  bind! claim := inbox_claim (res_event_id envelope) in
  match claim with
  | Duplicate => ret Handle_Duplicate
  | Claimed =>
  bind! found := load_instance (vid_saga_id identity) in
  bind! instance := lift (ok_or found (Processing ContractInvalid)) in
  do! lift (map_err (λ _, Processing ContractInvalid) (verify_instance_contract instance identity)) in
  do! lift authorize in
  require! ControlState_allows_automatic_actions (inst_control_state instance) else
    Processing Paused_ in
  bind! definition := lift (ok_or
    (get_for_tenant self (inst_tenant instance) (inst_workflow instance)
       (inst_definition_version instance)) (Anyhow "instance definition is not registered")) in
  bind! step_def := lift (ok_or (WorkflowDefinition_step definition (vid_step identity))
                           (Processing ContractInvalid)) in
  bind! recorded := record_attempt_outcome (vid_step identity) (vid_phase identity)
                      (vid_attempt identity) status (Some (res_event_id envelope)) in
  match recorded with
  | Outcome_AlreadyRecorded => ret (Handle_Applied (inst_status instance))
  | Outcome_Conflicting existing =>
      do! record_attempt_conflict
            {| fact_step := vid_step identity; fact_phase := vid_phase identity;
               fact_attempt := vid_attempt identity; fact_existing_status := existing;
               fact_incoming_status := status;
               fact_incoming_event_id := res_event_id envelope;
               fact_conflict_kind := AttemptTerminal |} in
      bind! status :=
        (if SagaStatus_is_terminal (inst_status instance)
            || bool_decide (inst_status instance = ManualIntervention)
         then ret (inst_status instance)
         else escalate_manual instance Trigger_Event (res_event_id envelope)
                "attempt_outcome_conflict") in
      ret (Handle_Applied status)
  | Outcome_Recorded =>
      bind! new_status := route_result
        {| ctx_instance := instance; ctx_definition := definition; ctx_step_def := step_def;
           ctx_identity := identity; ctx_status := status; ctx_terminal := terminal;
           ctx_reason_code := res_reason_code envelope; ctx_event_id := res_event_id envelope;
           ctx_now_ms := now_ms |} in
      ret (Handle_Applied new_status)
  end
  end.

(** [handle_verified_result] without a receipt trace. *)
Definition handle_verified_result (envelope : SagaResultEnvelope) (now_ms : Z)
    (authorize : Authority) : Tx HandleOutcome :=
  bind! identity := lift (SagaResultEnvelope_verified_for_delivery envelope) in
  bind! status := lift (map_err (λ _, Processing ContractInvalid)
                         (SagaResultEnvelope_parsed_status envelope)) in
  bind! terminal := lift (map_err (λ _, Processing ContractInvalid)
                           (SagaResultEnvelope_parsed_terminal envelope)) in
  run_authorized_for authorize
    (apply_verified_result envelope identity status terminal now_ms (in_body authorize)).

(** ** Timers *)

(** [SagaTimerRow], the part a firing reads. *)
Record SagaTimerRow := mkSagaTimerRow {
  st_timer_id : string;
  st_saga_id : SagaId;
  st_scope_kind : string;
  st_scope_key : string;
  st_kind : string;
  st_attempt : AttemptNo;
  st_expected_saga_version : Z
}.

Definition waits_for (instance : SagaInstanceRow) (expected : SagaStatus) (step : StepName) : bool :=
  bool_decide (inst_status instance = expected)
  && bool_decide (inst_current_step instance = Some step).

Definition on_step_timeout (instance : SagaInstanceRow) (definition : WorkflowDefinition)
    (step_scope : option StepName) (timer : SagaTimerRow) (now_ms : Z) : Tx (option SagaStatus) :=
  match step_scope with
  | None => fail (Anyhow "step-timeout timer without a step scope")
  | Some step =>
  if negb (waits_for instance Running step) then ret None else
  bind! step_def := lift (ok_or (WorkflowDefinition_step definition step)
                           (Anyhow "timer step absent from definition")) in
  if bool_decide (step_cancel_mode step_def = ResolveOnly) then
    do! patch_step step
          (mkPatch (Some Forward_Unknown) None None (Some Resolution_Pending) None false) in
    bind! version := advance instance WaitingResolution Direction_Forward (Some step)
                       Trigger_Timer (st_timer_id timer) None None in
    bind! budget_ms := lift (duration_millis (resolution_budget (step_resolution step_def))) in
    bind! due := lift (checked_deadline now_ms budget_ms) in
    do! schedule_timer (inst_saga_id instance) (Scope_Step step)
          (resolution_budget_kind Direction_Forward) (st_attempt timer) due version in
    do! (if bool_decide (resolution_mode (step_resolution step_def) = Some Poll) then
           bind! attempt := next_attempt step Resolve in
           issue_command instance step_def Resolve attempt None None now_ms version
         else ret tt) in
    ret (Some WaitingResolution)
  else
    do! patch_step step (with_forward Forward_TimedOut) in
    bind! version := advance instance Cancelling Direction_Forward (Some step)
                       Trigger_Timer (st_timer_id timer) None None in
    bind! attempt := next_attempt step SagaIdentity.Cancel in
    do! issue_command instance step_def SagaIdentity.Cancel attempt None None now_ms version in
    ret (Some Cancelling)
  end.

Definition on_phase_retry_timeout (instance : SagaInstanceRow) (definition : WorkflowDefinition)
    (step_scope : option StepName) (timer : SagaTimerRow) (phase : StepPhase)
    (required_status : SagaStatus) (max_attempts : Z) (exhausted_code : string) (now_ms : Z)
    : Tx (option SagaStatus) :=
  match step_scope with
  | None => fail (Anyhow "phase retry timer without a step scope")
  | Some step =>
  if negb (waits_for instance required_status step) then ret None else
  bind! step_def := lift (ok_or (WorkflowDefinition_step definition step)
                           (Anyhow "timer step absent from definition")) in
  bind! exhausted :=
    (if bool_decide (phase = Resolve) then
       bind! used := count_resolution_attempts step (inst_direction instance) in
       ret (max_attempts <=? used)
     else
       bind! attempt := next_attempt step phase in
       ret (max_attempts <? AttemptNo_get attempt)) in
  if exhausted : bool then
    bind! status := escalate_manual instance Trigger_Timer (st_timer_id timer) exhausted_code in
    ret (Some status)
  else
    bind! attempt := next_attempt step phase in
    bind! version := advance instance required_status (inst_direction instance) (Some step)
                       Trigger_Timer (st_timer_id timer) None None in
    do! issue_command instance step_def phase attempt None None now_ms version in
    ret (Some required_status)
  end.

Definition on_instance_deadline (instance : SagaInstanceRow) (definition : WorkflowDefinition)
    (timer : SagaTimerRow) (now_ms : Z) : Tx (option SagaStatus) :=
  match inst_status instance with
  | Running =>
      match inst_current_step instance with
      | None => ret None
      | Some step => on_step_timeout instance definition (Some step) timer now_ms
      end
  | Cancelling | WaitingResolution | Compensating =>
      bind! status := escalate_manual instance Trigger_Timer (st_timer_id timer)
                        "deadline_exceeded" in
      ret (Some status)
  | _ => ret None
  end.

(** The kinds whose timer is bound to the instance version it was scheduled
    at. *)
Definition version_bound (kind : string) : bool :=
  bool_decide (kind = KIND_STEP_TIMEOUT) || bool_decide (kind = KIND_CANCEL_TIMEOUT)
  || bool_decide (kind = KIND_COMPENSATE_TIMEOUT) || bool_decide (kind = KIND_RESOLVE_TIMEOUT).

Definition judge_timer (instance : SagaInstanceRow) (definition : WorkflowDefinition)
    (step_scope : option StepName) (timer : SagaTimerRow) (now_ms : Z) : Tx (option SagaStatus) :=
  let kind := st_kind timer in
  if bool_decide (kind = KIND_STEP_TIMEOUT) then
    on_step_timeout instance definition step_scope timer now_ms
  else if bool_decide (kind = KIND_CANCEL_TIMEOUT) then
    on_phase_retry_timeout instance definition step_scope timer SagaIdentity.Cancel Cancelling
      (cancel_max_attempts (config self)) "cancel_attempts_exhausted" now_ms
  else if bool_decide (kind = KIND_COMPENSATE_TIMEOUT) then
    on_phase_retry_timeout instance definition step_scope timer Compensate Compensating
      (compensate_max_attempts (config self)) "compensation_attempts_exhausted" now_ms
  else if bool_decide (kind = KIND_RESOLVE_TIMEOUT) then
    on_phase_retry_timeout instance definition step_scope timer Resolve WaitingResolution
      (resolve_max_attempts (config self)) "resolve_attempts_exhausted" now_ms
  else if bool_decide (kind = KIND_RESOLUTION_BUDGET)
          || bool_decide (kind = KIND_FORWARD_RESOLUTION_BUDGET)
          || bool_decide (kind = KIND_COMPENSATION_RESOLUTION_BUDGET) then
    if bool_decide (inst_status instance = WaitingResolution) then
      bind! status := escalate_manual instance Trigger_Timer (st_timer_id timer)
                        "resolution_budget_exhausted" in
      ret (Some status)
    else ret None
  else if bool_decide (kind = KIND_INSTANCE_DEADLINE) then
    on_instance_deadline instance definition timer now_ms
  else fail (Anyhow "unknown timer kind").

(** [fire_timer_inner] at the clock reading [now_ms]. *)
Definition fire_timer (timer : SagaTimerRow) (token : string) (now_ms : Z) : Tx TimerOutcome :=
  bind! step_scope := lift (parse_step_scope (st_scope_kind timer) (st_scope_key timer)) in
  bind! found := load_instance (st_saga_id timer) in
  match found with
  | None =>
      bind! fencing := complete_timer (st_timer_id timer) token now_ms in
      ret (match fencing with Fencing_Applied => SkippedStale | Fencing_Lost => SkippedFencingLost end)
  | Some instance =>
  if negb (ControlState_allows_automatic_actions (inst_control_state instance)) then ret SkippedPaused
  else
  bind! fencing := complete_timer (st_timer_id timer) token now_ms in
  match fencing with
  | Fencing_Lost => ret SkippedFencingLost
  | Fencing_Applied =>
  if version_bound (st_kind timer)
     && negb (st_expected_saga_version timer =? inst_version instance) then ret SkippedStale
  else
  bind! definition := lift (ok_or
    (get_for_tenant self (inst_tenant instance) (inst_workflow instance)
       (inst_definition_version instance)) (Anyhow "instance definition is not registered")) in
  bind! status := judge_timer instance definition step_scope timer now_ms in
  ret (match status with Some status => Timer_Applied status | None => SkippedStale end)
  end
  end.
End orchestrator.
