(* ===== verification/SagaStart.v ===== *)
(** * Starting a saga

    Models the creation path of [nasaga-runtime-core/src/orchestrator.rs]: the
    canonical digest of a start request and [start_saga], which creates the
    instance, registers its steps and issues its first command in one
    transaction. *)

From Stdlib Require Import ZArith Lia.
From S2P Require Import Prelude Bytes SagaIdentity SagaState SagaDefinition SagaPlan SagaEnvelope.
From S2P Require Import SagaStore SagaAdminStore SagaRegistry SagaOrchestrator.
From stdpp Require Import prelude strings gmap.

Local Open Scope Z_scope.
Local Open Scope rust_scope.

Record StartSagaRequest := mkStartRequest {
  req_saga_id : SagaId;
  req_tenant : TenantId;
  req_workflow : WorkflowName;
  req_version : DefinitionVersion;
  req_business_key : BusinessKey;
  req_deadline_at_ms : option Z;
  req_trigger_kind : TriggerKind;
  req_trigger_id : string;
  req_first_command_payload : option Json;
  req_first_command_raw_payload : option SagaPayload;
  req_now_ms : Z
}.

Inductive StartOutcome := Started (row : SagaInstanceRow) | AlreadyExists (row : SagaInstanceRow).

(** ** Canonical JSON *)

(** [str::cmp], on the bytes. *)
Fixpoint bytes_leb (a b : list Z) : bool :=
  match a, b with
  | [], _ => true
  | _ :: _, [] => false
  | x :: a', y :: b' => (x <? y) || ((x =? y) && bytes_leb a' b')
  end.

Definition key_leb (a b : string) : bool := bytes_leb (as_bytes a) (as_bytes b).

(** [keys.sort_unstable()], carrying each key's value. *)
Fixpoint insert_key {A} (k : string) (v : A) (l : list (string * A)) : list (string * A) :=
  match l with
  | [] => [(k, v)]
  | (k', v') :: l' => if key_leb k k' then (k, v) :: l else (k', v') :: insert_key k v l'
  end.

Fixpoint sort_keys {A} (l : list (string * A)) : list (string * A) :=
  match l with
  | [] => []
  | (k, v) :: l' => insert_key k v (sort_keys l')
  end.

(** [hash_canonical_json]: the bytes it feeds the hasher. *)
Fixpoint hash_canonical_json (value : Json) : list Z :=
  match value with
  | Json_Null => canonical_bytes [as_bytes "null"]
  | Json_Bool b => canonical_bytes [as_bytes "bool"; [if b then 1 else 0]]
  | Json_Number text => canonical_bytes [as_bytes "number"; as_bytes text]
  | Json_String s => canonical_bytes [as_bytes "string"; as_bytes s]
  | Json_Array values =>
      canonical_bytes [as_bytes "array"; to_be_bytes 8 (Z.of_nat (length values))]
      ++ concat (map hash_canonical_json values)
  | Json_Object fields =>
      canonical_bytes [as_bytes "object"; to_be_bytes 8 (Z.of_nat (length fields))]
      ++ concat (map (λ field, canonical_bytes [as_bytes "key"; as_bytes field.1] ++ field.2)
                   (sort_keys (map (λ field, (field.1, hash_canonical_json field.2)) fields)))
  end.

Section start.
Context `{Runtime}.

(** [SagaPayload::json] *)
Definition SagaPayload_json (value : Json) : SagaPayload :=
  {| payload_content_type := "application/json"; payload_schema_id := "";
     payload_body := json_to_vec value |}.

Definition validate_payload (payload : SagaPayload) : result unit SagaPayloadError :=
  SagaPayload_validate (λ body, negb (is_none (json_from_slice body))) payload.

(** ** Request digests *)

Definition request_domain (request : StartSagaRequest) (definition_digest : string)
    (first_step : StepName) (payload_present : bool) : list (list Z) :=
  [ as_bytes (TenantId_as_str (req_tenant request));
    as_bytes (WorkflowName_as_str (req_workflow request));
    to_be_bytes 4 (DefinitionVersion_get (req_version request));
    as_bytes definition_digest;
    as_bytes (BusinessKey_as_str (req_business_key request));
    as_bytes (StepName_as_str first_step);
    [if is_none (req_deadline_at_ms request) then 0 else 1];
    to_be_bytes 8 (default 0 (req_deadline_at_ms request));
    [if payload_present then 1 else 0] ].

Definition derive_legacy_start_request_digest (request : StartSagaRequest)
    (definition_digest : string) (first_step : StepName) : string :=
  let payload := req_first_command_payload request in
  hex_string (sha256
    (canonical_bytes (request_domain request definition_digest first_step (negb (is_none payload)))
     ++ match payload with Some value => hash_canonical_json value | None => [] end)).

Definition without_payload (request : StartSagaRequest) : StartSagaRequest :=
  mkStartRequest (req_saga_id request) (req_tenant request) (req_workflow request)
    (req_version request) (req_business_key request) (req_deadline_at_ms request)
    (req_trigger_kind request) (req_trigger_id request) None None (req_now_ms request).

Definition payload_domain (domain : string) (payload : SagaPayload) : list (list Z) :=
  [ as_bytes "saga-start-payload"; as_bytes domain; as_bytes (payload_content_type payload);
    as_bytes (payload_schema_id payload); payload_body payload ].

Definition derive_start_request_digest (request : StartSagaRequest) (definition_digest : string)
    (first_step : StepName) (payload : option SagaPayload) : string :=
  let domain := derive_legacy_start_request_digest (without_payload request)
                  definition_digest first_step in
  match payload with
  | None => domain
  | Some payload => hex_string (sha256 (canonical_bytes (payload_domain domain payload)))
  end.

(** The payload of the first command, from either input. *)
Definition request_payload (request : StartSagaRequest) : option SagaPayload :=
  match req_first_command_raw_payload request with
  | Some payload => Some payload
  | None => SagaPayload_json <$> req_first_command_payload request
  end.

Definition check_payload (first_step : StepDefinition) (payload : option SagaPayload)
    : SagaResult unit :=
  match payload with
  | None => Ok tt
  | Some payload =>
      try? map_err (λ _, Start InvalidPayload) (validate_payload payload) in
      ensure bool_decide (SagaPayload_contract payload = step_payload_contract first_step) else
        Start InvalidPayload in
      Ok tt
  end.

(** The digest the same request had when its payload was a JSON value. *)
Definition legacy_digest (request : StartSagaRequest) (definition_digest : string)
    (first_step : StepName) (payload : option SagaPayload) : SagaResult (option string) :=
  match payload with
  | Some payload =>
      if bool_decide (SagaPayload_contract payload = SagaPayloadContract_default) then
        let? value := ok_or (json_from_slice (payload_body payload)) (Start InvalidPayload) in
        Ok (Some (derive_legacy_start_request_digest
                    (mkStartRequest (req_saga_id request) (req_tenant request) (req_workflow request)
                       (req_version request) (req_business_key request) (req_deadline_at_ms request)
                       (req_trigger_kind request) (req_trigger_id request) (Some value)
                       (req_first_command_raw_payload request) (req_now_ms request))
                    definition_digest first_step))
      else Ok None
  | None => Ok None
  end.

(** ** [start_saga] *)

Context (self : Orchestrator).

(** What is decided before the transaction. *)
Record StartPlan := mkStartPlan {
  plan_definition : WorkflowDefinition;
  plan_first_step : StepDefinition;
  plan_spec : NewSagaInstance
}.

Definition plan_start (request : StartSagaRequest) (trace : option string) : SagaResult StartPlan :=
  let? definition := ok_or (get_for_tenant self (req_tenant request) (req_workflow request)
                              (req_version request)) (Start DefinitionInactive) in
  let digest := WorkflowDefinition_digest sha256 definition in
  let? first_step := ok_or (head (workflow_steps definition)) (Start DefinitionEmpty) in
  ensure negb (negb (is_none (req_first_command_payload request))
               && negb (is_none (req_first_command_raw_payload request))) else Start InvalidPayload in
  let payload := request_payload request in
  try? check_payload first_step payload in
  let? legacy := legacy_digest request digest (step_name first_step) payload in
  Ok {| plan_definition := definition;
        plan_first_step := first_step;
        plan_spec :=
          {| new_saga_id := req_saga_id request;
             new_tenant := req_tenant request;
             new_workflow := req_workflow request;
             new_business_key := req_business_key request;
             new_definition_version := req_version request;
             new_definition_digest := digest;
             new_start_request_digest :=
               derive_start_request_digest request digest (step_name first_step) payload;
             new_legacy_start_request_digest := legacy;
             new_deadline_at_ms := req_deadline_at_ms request;
             new_current_step := Some (step_name first_step);
             new_trigger_kind := req_trigger_kind request;
             new_trigger_id := req_trigger_id request;
             new_traceparent := trace |} |}.

(** A backend conflict is the caller's [RequestConflict]. *)
Definition start_error (e : SagaError) : SagaError :=
  match e with StoreConflict _ => Start RequestConflict | _ => e end.

Definition on_error {A} (f : SagaError → SagaError) (c : Tx A) : Tx A := λ db, map_err f (c db).

Definition command_input (request : StartSagaRequest) : option CommandInput :=
  match req_first_command_raw_payload request with
  | Some payload => Some (CommandInput_Raw payload)
  | None => CommandInput_Json <$> req_first_command_payload request
  end.

(** The first effects of a new instance. *)
Definition launch (request : StartSagaRequest) (plan : StartPlan) (instance : SagaInstanceRow)
    : Tx StartOutcome :=
  require! negb (is_none (DefinitionRegistry_get_for_start (registry self) (req_tenant request)
                            (req_workflow request) (req_version request))) else
    Start DefinitionInactive in
  bind! quota := reserve_tenant_quota (req_tenant request)
    (tenant_quotas (config self) !! TenantId_as_str (req_tenant request)) in
  match quota with
  | Quota_Exceeded => fail (Start TenantQuotaExceeded)
  | Quota_Reserved =>
      do! register_steps (plan_definition plan) in
      do! issue_command self instance (plan_first_step plan) Execute AttemptNo_FIRST
            (command_input request) None (req_now_ms request) (inst_version instance) in
      do! match req_deadline_at_ms request with
          | Some deadline =>
              schedule_timer (req_saga_id request) Scope_Instance KIND_INSTANCE_DEADLINE
                AttemptNo_FIRST deadline (inst_version instance)
          | None => ret tt
          end in
      ret (Started instance)
  end.

(** [start_saga_authorized_traced]; [authorize_entry] is the first answer of
    its [authorize]. *)
Definition start_saga (others : list SagaInstanceRow) (request : StartSagaRequest)
    (trace : option string) (authorize_entry : SagaResult unit) (authorize : Authority)
    : Tx StartOutcome :=
  do! lift authorize_entry in
  bind! plan := lift (plan_start request trace) in
  run_authorized_for authorize
    (bind! creation := on_error start_error (create_instance others (plan_spec plan)) in
     match creation with
     | Existing row => ret (AlreadyExists row)
     | Created instance => launch request plan instance
     end).
End start.
