(* ===== verification/SagaStartDigest.v ===== *)
(** * What a start request's digest identifies

    [hash_canonical_json] feeds the hasher an encoding of the JSON value that
    does not depend on the order of object fields and determines the value up
    to that order; the digest of a start request determines the request.  So
    the saga that answers a repeated start was started by the same request. *)

From Stdlib Require Import ZArith Lia.
From S2P Require Import Prelude Bytes SagaIdentity SagaState SagaDefinition SagaPlan SagaEnvelope.
From S2P Require Import SagaStore SagaAdminStore SagaRegistry SagaOrchestrator SagaStart.
From stdpp Require Import prelude strings list sorting gmap.

Local Open Scope Z_scope.
Local Open Scope rust_scope.

(** ** Induction on JSON values *)

Section json_induction.
Context (P : Json → Prop).
Context (Hnull : P Json_Null) (Hbool : ∀ b, P (Json_Bool b)) (Hnumber : ∀ t, P (Json_Number t))
  (Hstring : ∀ s, P (Json_String s)) (Harray : ∀ l, Forall P l → P (Json_Array l))
  (Hobject : ∀ l, Forall (λ field, P field.2) l → P (Json_Object l)).

Fixpoint Json_rect_nested (v : Json) : P v :=
  match v with
  | Json_Null => Hnull
  | Json_Bool b => Hbool b
  | Json_Number t => Hnumber t
  | Json_String s => Hstring s
  | Json_Array l =>
      Harray l ((fix go l := match l return Forall P l with
                             | [] => Forall_nil_2 P
                             | v :: l => Forall_cons_2 P v l (Json_rect_nested v) (go l)
                             end) l)
  | Json_Object l =>
      Hobject l ((fix go l := match l return Forall (λ field, P field.2) l with
                              | [] => Forall_nil_2 _
                              | (k, v) :: l => Forall_cons_2 _ (k, v) l (Json_rect_nested v) (go l)
                              end) l)
  end.
End json_induction.

(** ** The reference: normal forms *)

(** Objects with their fields in order of their keys, at every level. *)
Fixpoint normalize (v : Json) : Json :=
  match v with
  | Json_Array l => Json_Array (map normalize l)
  | Json_Object l => Json_Object (sort_keys (map (λ field, (field.1, normalize field.2)) l))
  | _ => v
  end.

(** The encoding in the order the fields are in. *)
Fixpoint encode_json (v : Json) : list Z :=
  match v with
  | Json_Null => canonical_bytes [as_bytes "null"]
  | Json_Bool b => canonical_bytes [as_bytes "bool"; [if b then 1 else 0]]
  | Json_Number text => canonical_bytes [as_bytes "number"; as_bytes text]
  | Json_String s => canonical_bytes [as_bytes "string"; as_bytes s]
  | Json_Array values =>
      canonical_bytes [as_bytes "array"; to_be_bytes 8 (Z.of_nat (length values))]
      ++ concat (map encode_json values)
  | Json_Object fields =>
      canonical_bytes [as_bytes "object"; to_be_bytes 8 (Z.of_nat (length fields))]
      ++ concat (map (λ field, canonical_bytes [as_bytes "key"; as_bytes field.1] ++ encode_json field.2)
                   fields)
  end.

(** Every length is below the address space. *)
Fixpoint json_fits (v : Json) : Prop :=
  match v with
  | Json_Null | Json_Bool _ => True
  | Json_Number s | Json_String s => len s < 2 ^ 64
  | Json_Array l => Z.of_nat (length l) < 2 ^ 64 ∧ foldr (λ v acc, json_fits v ∧ acc) True l
  | Json_Object l =>
      Z.of_nat (length l) < 2 ^ 64 ∧
      foldr (λ field acc, (len field.1 < 2 ^ 64 ∧ json_fits field.2) ∧ acc) True l
  end.

Lemma foldr_and {A} (P : A → Prop) l : foldr (λ x acc, P x ∧ acc) True l ↔ Forall P l.
Proof. induction l as [|x l IH]; simpl; [by split|]. by rewrite IH, Forall_cons. Qed.

Section sorting.
Context {A B : Type}.

Lemma sort_keys_map (f : A → B) (l : list (string * A)) :
  sort_keys (map (λ x, (x.1, f x.2)) l) = map (λ x, (x.1, f x.2)) (sort_keys l).
Proof.
  assert (∀ k v l, insert_key k (f v) (map (λ x, (x.1, f x.2)) l)
    = map (λ x, (x.1, f x.2)) (insert_key k v l)) as Hins.
  { intros k v l'. induction l' as [|[k' v'] l' IH]; simpl; [done|]. destruct (key_leb k k'); simpl; by rewrite ?IH. }
  induction l as [|[k v] l IH]; simpl; [done|]. by rewrite IH, Hins.
Qed.

Lemma insert_key_perm k v (l : list (string * A)) : insert_key k v l ≡ₚ (k, v) :: l.
Proof.
  induction l as [|[k' v'] l IH]; simpl; [done|]. destruct (key_leb k k'); [done|].
  rewrite IH. apply Permutation_swap.
Qed.

Lemma sort_keys_perm (l : list (string * A)) : sort_keys l ≡ₚ l.
Proof. induction l as [|[k v] l IH]; simpl; [done|]. by rewrite insert_key_perm, IH. Qed.
End sorting.

Lemma bytes_leb_cons x a y b :
  bytes_leb (x :: a) (y :: b) = true ↔ x < y ∨ x = y ∧ bytes_leb a b = true.
Proof. simpl. by rewrite orb_true_iff, andb_true_iff, Z.ltb_lt, Z.eqb_eq. Qed.

Lemma bytes_leb_total a b : bytes_leb a b = true ∨ bytes_leb b a = true.
Proof.
  revert b. induction a as [|x a IH]; intros [|y b]; [simpl; auto..|]. rewrite !bytes_leb_cons.
  destruct (IH b); destruct (Z.lt_total x y) as [|[|]]; naive_solver.
Qed.

Lemma bytes_leb_antisym a b : bytes_leb a b = true → bytes_leb b a = true → a = b.
Proof.
  revert b. induction a as [|x a IH]; intros [|y b]; [done..|]. rewrite !bytes_leb_cons.
  intros [?|[-> ?]] [?|[? ?]]; try lia. f_equal. auto.
Qed.

Lemma bytes_leb_trans a b c : bytes_leb a b = true → bytes_leb b c = true → bytes_leb a c = true.
Proof.
  revert b c. induction a as [|x a IH]; intros [|y b] [|z c]; [done..|]. rewrite !bytes_leb_cons.
  intros [?|[-> ?]] [?|[-> ?]]; [left; lia|by left|by left|right; eauto].
Qed.

Lemma insert_key_comm {A} k (v : A) k' v' l :
  k ≠ k' → insert_key k v (insert_key k' v' l) = insert_key k' v' (insert_key k v l).
Proof.
  intros Hne. assert (key_leb k k' = negb (key_leb k' k)) as Hkk.
  { unfold key_leb. destruct (bytes_leb_total (as_bytes k) (as_bytes k')) as [H|H]; rewrite H;
      [symmetry; apply negb_true_iff|simpl]; apply not_true_iff_false; intros H';
      apply Hne, as_bytes_inj; by apply bytes_leb_antisym. }
  induction l as [|[k0 v0] l IH]; simpl.
  { rewrite Hkk. by destruct (key_leb k' k). }
  assert (key_leb k k' = true → key_leb k' k0 = true → key_leb k k0 = true) by apply bytes_leb_trans.
  assert (key_leb k' k = true → key_leb k k0 = true → key_leb k' k0 = true) by apply bytes_leb_trans.
  destruct (key_leb k' k0) eqn:E', (key_leb k k0) eqn:E; simpl; rewrite ?E, ?E', ?Hkk;
    destruct (key_leb k' k) eqn:Ek; simpl in *; rewrite ?E, ?E', ?IH; try done; naive_solver.
Qed.

(** With distinct keys, the order of the fields does not matter. *)
Lemma sort_keys_order {A} (l k : list (string * A)) :
  l ≡ₚ k → NoDup (map fst l) → sort_keys l = sort_keys k.
Proof.
  induction 1 as [|[x v] l k _ IH|[x v] [y w] l|l k m Hlk IH1 _ IH2]; simpl; intros Hnd.
  - done.
  - apply NoDup_cons in Hnd as [_ Hnd]. by rewrite IH.
  - apply NoDup_cons in Hnd as [Hx _]. apply insert_key_comm. set_solver.
  - rewrite IH1 by done. apply IH2. by rewrite <- Hlk.
Qed.

Lemma length_sort_keys {A} (l : list (string * A)) : length (sort_keys l) = length l.
Proof. by rewrite sort_keys_perm. Qed.

#[local] Opaque canonical_bytes.

Lemma hash_is_encoding v : hash_canonical_json v = encode_json (normalize v).
Proof.
  induction v as [| | | |l IH|l IH] using Json_rect_nested; try done;
    cbn [hash_canonical_json normalize encode_json].
  - by rewrite length_map, map_map, (map_ext_Forall _ _ IH).
  - rewrite !sort_keys_map, length_map, length_sort_keys, !map_map. simpl.
    rewrite (map_ext_Forall _ (λ x, canonical_bytes [as_bytes "key"; as_bytes x.1] ++ encode_json (normalize x.2)));
      [done|].
    rewrite sort_keys_perm. apply (Forall_impl _ _ _ IH). intros [k w] Hw. simpl in *. by rewrite Hw.
Qed.
#[local] Transparent canonical_bytes.

(** ** The encoding is uniquely decodable *)

Definition json_tag (v : Json) : string :=
  match v with
  | Json_Null => "null" | Json_Bool _ => "bool" | Json_Number _ => "number"
  | Json_String _ => "string" | Json_Array _ => "array" | Json_Object _ => "object"
  end.

Definition encode_field (field : string * Json) : list Z :=
  canonical_field (as_bytes "key") ++ canonical_field (as_bytes field.1) ++ encode_json field.2.

Definition json_body (v : Json) : list Z :=
  match v with
  | Json_Null => []
  | Json_Bool b => canonical_field [if b then 1 else 0]
  | Json_Number s | Json_String s => canonical_field (as_bytes s)
  | Json_Array l =>
      canonical_field (to_be_bytes 8 (Z.of_nat (length l))) ++ concat (map encode_json l)
  | Json_Object l =>
      canonical_field (to_be_bytes 8 (Z.of_nat (length l))) ++ concat (map encode_field l)
  end.

Lemma canonical_two f g : canonical_bytes [f; g] = canonical_field f ++ canonical_field g.
Proof. unfold canonical_bytes. cbn [map concat]. by rewrite app_nil_r. Qed.

#[local] Opaque canonical_field.

Lemma encode_split v : encode_json v = canonical_field (as_bytes (json_tag v)) ++ json_body v.
Proof.
  destruct v; cbn [encode_json json_tag json_body]; rewrite ?canonical_two, <- ?app_assoc; try done.
  f_equal. f_equal. f_equal. apply map_ext. intros [k v]. unfold encode_field. simpl.
  by rewrite canonical_two, <- app_assoc.
Qed.

Lemma json_tag_fits v : field_fits (as_bytes (json_tag v)).
Proof. apply field_fits_str. by destruct v. Qed.

Lemma be8_fits z : field_fits (to_be_bytes 8 z).
Proof. apply field_fits_be. lia. Qed.

Lemma be8_inj n m :
  Z.of_nat n < 2 ^ 64 → Z.of_nat m < 2 ^ 64 →
  to_be_bytes 8 (Z.of_nat n) = to_be_bytes 8 (Z.of_nat m) → n = m.
Proof. intros Hn Hm He%to_be_bytes_inj; [lia|change (256 ^ Z.of_nat 8) with (2 ^ 64); lia..]. Qed.

(** A list of self-delimiting encodings of known length is decodable. *)
Lemma decode_list {A} (enc : A → list Z) (ok : A → Prop) l k r s :
  Forall (λ x, ∀ y r s, ok x → ok y → enc x ++ r = enc y ++ s → x = y ∧ r = s) l →
  Forall ok l → Forall ok k → length l = length k →
  concat (map enc l) ++ r = concat (map enc k) ++ s → l = k ∧ r = s.
Proof.
  intros Hdec. revert k r s. induction Hdec as [|x l Hx _ IH]; intros [|y k] r s Hl Hk Hlen He; try done.
  simpl in *. apply Forall_cons in Hl as [Hxo Hl], Hk as [Hyo Hk]. rewrite <- !app_assoc in He.
  apply Hx in He as [-> He]; [|done..]. injection Hlen as Hlen.
  by apply IH in He as [-> ->].
Qed.

Lemma encode_json_inj v w r s :
  json_fits v → json_fits w → encode_json v ++ r = encode_json w ++ s → v = w ∧ r = s.
Proof.
  revert w r s. induction v as [|b|t|t|l IH|l IH] using Json_rect_nested; intros w r s Hv Hw He;
    rewrite !encode_split, <- !app_assoc in He;
    apply canonical_field_inj in He as [Htag%as_bytes_inj He]; try apply json_tag_fits;
    destruct w as [|b'|t'|t'|l'|l']; try discriminate Htag; cbn [json_body json_fits] in *.
  - done.
  - apply canonical_field_inj in He as [Hb ->]; [|done..]. by destruct b, b'.
  - apply canonical_field_inj in He as [->%as_bytes_inj ->]; [done|by apply field_fits_str..].
  - apply canonical_field_inj in He as [->%as_bytes_inj ->]; [done|by apply field_fits_str..].
  - rewrite <- !app_assoc in He. rewrite foldr_and in Hv, Hw. destruct Hv as [Hn Hv], Hw as [Hm Hw].
    apply canonical_field_inj in He as [Hl%be8_inj He]; [|done|done|apply be8_fits..].
    apply (decode_list encode_json json_fits) in He as [-> ->]; try done.
  - rewrite <- !app_assoc in He. rewrite (foldr_and (λ field, len field.1 < 2 ^ 64 ∧ json_fits field.2)) in Hv, Hw.
    destruct Hv as [Hn Hv], Hw as [Hm Hw].
    apply canonical_field_inj in He as [Hl%be8_inj He]; [|done|done|apply be8_fits..].
    apply (decode_list encode_field (λ field, len field.1 < 2 ^ 64 ∧ json_fits field.2)) in He as [-> ->]; try done.
    apply (Forall_impl _ _ _ IH). intros [k x] Hx [k' y] r' s' [Hk Hxf] [Hk' Hyf] Hf.
    unfold encode_field in Hf. simpl in *. rewrite <- !app_assoc in Hf.
    apply canonical_field_inj in Hf as [_ Hf]; [|done..].
    apply canonical_field_inj in Hf as [->%as_bytes_inj Hf]; [|by apply field_fits_str..].
    by apply Hx in Hf as [-> ->].
Qed.

Lemma normalize_fits v : json_fits v → json_fits (normalize v).
Proof.
  induction v as [| | | |l IH|l IH] using Json_rect_nested; cbn [normalize json_fits]; try done.
  - rewrite length_map, !foldr_and. intros [Hn Hl]. split; [done|]. apply Forall_fmap.
    rewrite Forall_forall in *. intros x Hx. unfold compose. auto.
  - rewrite !(foldr_and (λ field, len field.1 < 2 ^ 64 ∧ json_fits field.2)).
    rewrite length_sort_keys, length_map, sort_keys_perm. intros [Hn Hl]. split; [done|].
    apply Forall_fmap. rewrite Forall_forall in *. intros x Hx. unfold compose. simpl.
    destruct (Hl x Hx). auto.
Qed.

(** Canonical JSON is exact: two values feed the hasher the same bytes exactly
    when they have the same normal form, and reordering the fields of an object
    keeps its normal form; so a replayed request with reordered fields has the
    same digest, and one with any other difference does not. *)
Theorem canonical_json_exact (v w : Json) (Hv : json_fits v) (Hw : json_fits w) :
  (hash_canonical_json v = hash_canonical_json w ↔ normalize v = normalize w) ∧
  ∀ fields fields', NoDup (map fst fields) → fields ≡ₚ fields' →
    normalize (Json_Object fields) = normalize (Json_Object fields').
Proof.
  split.
  2:{ intros l k Hnd Hp. cbn [normalize]. f_equal. rewrite !sort_keys_map. f_equal. by apply sort_keys_order. }
  rewrite !hash_is_encoding. split; [|by intros ->]. intros He.
  apply (encode_json_inj (normalize v) (normalize w) [] []); [by apply normalize_fits..|].
  by rewrite !app_nil_r.
Qed.

(** ** Request digests *)

Section requests.
Context `{Runtime} `{!Sha256 sha256}.

Definition byte_list (l : list Z) : Prop := Forall (λ b, 0 ≤ b < 256) l.

(** What Rust's types say of a request: [u32], [i64], and slices of bytes that
    fit the address space, as does the digest of its domain. *)
Record request_typed (r : StartSagaRequest) (definition_digest : string) (first_step : StepName)
    (payload : option SagaPayload) : Prop := {
  typed_version : 0 ≤ DefinitionVersion_get (req_version r) < 2 ^ 32;
  typed_deadline : ∀ d, req_deadline_at_ms r = Some d → - 2 ^ 63 ≤ d < 2 ^ 63;
  typed_texts : Forall (λ s, len s < 2 ^ 64)
    [TenantId_as_str (req_tenant r); WorkflowName_as_str (req_workflow r); definition_digest;
     BusinessKey_as_str (req_business_key r); StepName_as_str first_step;
     derive_legacy_start_request_digest (without_payload r) definition_digest first_step];
  typed_payload : ∀ p, payload = Some p →
    len (payload_content_type p) < 2 ^ 64 ∧ len (payload_schema_id p) < 2 ^ 64 ∧
    byte_list (payload_body p) ∧ field_fits (payload_body p)
}.

(** What a start request asks for. *)
Definition request_view (r : StartSagaRequest) (definition_digest : string) (first_step : StepName)
    (payload : option SagaPayload) :=
  (req_tenant r, req_workflow r, req_version r, definition_digest, req_business_key r, first_step,
   req_deadline_at_ms r, payload).

Lemma canonical_prefix fs gs r s :
  Forall field_fits fs → Forall field_fits gs → length fs = length gs →
  canonical_bytes fs ++ r = canonical_bytes gs ++ s → fs = gs ∧ r = s.
Proof.
  intros Hf Hg Hl He. apply (decode_list canonical_field field_fits) in He; try done.
  apply Forall_true. intros x y r' s' Hx Hy. by apply canonical_field_inj.
Qed.

Lemma domain_fits r d s p b : request_typed r d s p → Forall field_fits (request_domain r d s b).
Proof.
  intros [_ _ Ht _]. unfold request_domain. rewrite !Forall_cons in Ht. destruct_and!.
  repeat (apply Forall_cons; split); try constructor; first [by apply field_fits_str|apply field_fits_be; lia|done].
Qed.

Lemma domain_range r d s b : Forall byte_list (request_domain r d s b).
Proof.
  unfold request_domain, byte_list. rewrite !Forall_cons. split_and!;
    first [apply as_bytes_range|apply to_be_bytes_range|apply Forall_nil_2|case_match; lia|lia].
Qed.

(** The eight-byte two's complement of an [i64]. *)
Lemma be_i64_inj a b :
  - 2 ^ 63 ≤ a < 2 ^ 63 → - 2 ^ 63 ≤ b < 2 ^ 63 → to_be_bytes 8 a = to_be_bytes 8 b → a = b.
Proof.
  assert (∀ w z, to_be_bytes w z = to_be_bytes w (z mod 256 ^ Z.of_nat w)) as Hmod.
  { induction w as [|w IH]; intros z; [done|].
    change (to_be_bytes (S w) z) with (to_be_bytes w (z / 256) ++ [z mod 256]).
    change (to_be_bytes (S w) (z mod 256 ^ Z.of_nat (S w)))
      with (to_be_bytes w ((z mod 256 ^ Z.of_nat (S w)) / 256) ++ [(z mod 256 ^ Z.of_nat (S w)) mod 256]).
    rewrite Nat2Z.inj_succ, Z.pow_succ_r by lia. rewrite Z.rem_mul_r by lia.
    rewrite (Z.mul_comm 256 ((z / 256) mod _)), Z.div_add, Z.mod_add by lia.
    rewrite Z.mod_mod, (Z.div_small (z mod 256)) by (first [lia|apply Z.mod_pos_bound; lia]).
    rewrite Z.add_0_l. f_equal. apply IH. }
  intros Ha Hb. rewrite (Hmod 8%nat a), (Hmod 8%nat b). change (256 ^ Z.of_nat 8) with (2 ^ 64).
  intros He%to_be_bytes_inj; [|apply Z.mod_pos_bound; lia..].
  rewrite (Z.div_mod a (2 ^ 64)), (Z.div_mod b (2 ^ 64)), He by lia.
  assert (a / 2 ^ 64 = b / 2 ^ 64 ∨ a / 2 ^ 64 ≠ b / 2 ^ 64) as [->|Hne] by lia; [done|].
  pose proof (Z.div_mod a (2 ^ 64)). pose proof (Z.div_mod b (2 ^ 64)).
  pose proof (Z.mod_pos_bound a (2 ^ 64)). pose proof (Z.mod_pos_bound b (2 ^ 64)). lia.
Qed.

Lemma domain_inj r r' d d' s s' p p' b b' :
  request_typed r d s p → request_typed r' d' s' p' →
  request_domain r d s b = request_domain r' d' s' b' →
  req_tenant r = req_tenant r' ∧ req_workflow r = req_workflow r' ∧ req_version r = req_version r' ∧
  d = d' ∧ req_business_key r = req_business_key r' ∧ s = s' ∧
  req_deadline_at_ms r = req_deadline_at_ms r' ∧ b = b'.
Proof.
  intros [Hv Hd _ _] [Hv' Hd' _ _]. unfold request_domain.
  destruct r as [? [?] [?] [?] [?] dl], r' as [? [?] [?] [?] [?] dl'], s as [?], s' as [?]. simpl in *.
  intros (->%as_bytes_inj & (->%as_bytes_inj & (->%to_be_bytes_inj & (->%as_bytes_inj &
    (->%as_bytes_inj & (->%as_bytes_inj & (Hnone & (Hdl & (Hb & _)%cons_inv)%cons_inv)%cons_inv
    )%cons_inv)%cons_inv)%cons_inv)%cons_inv)%cons_inv)%cons_inv; [|done..].
  split_and!; try done; [|by destruct b, b'].
  destruct dl as [a|], dl' as [c|]; simpl in *; try done. f_equal. apply be_i64_inj; eauto.
Qed.

Lemma hashes_inj x y :
  byte_list x → byte_list y → hex_string (sha256 x) = hex_string (sha256 y) → x = y.
Proof. intros Hx Hy He%hex_string_inj; [|apply sha256_bytes..]. by apply sha256_distinct in He. Qed.

Lemma payload_domain_fits r d s p dom :
  request_typed r d s (Some p) → len dom < 2 ^ 64 → Forall field_fits (payload_domain dom p).
Proof.
  intros [_ _ _ Hp] Hd. specialize (Hp p eq_refl). destruct_and!.
  unfold payload_domain. rewrite !Forall_cons. split_and!; try apply Forall_nil_2; try done;
    by apply field_fits_str.
Qed.

Lemma payload_domain_range r d s p dom :
  request_typed r d s (Some p) → Forall byte_list (payload_domain dom p).
Proof.
  intros [_ _ _ Hp]. specialize (Hp p eq_refl). destruct_and!.
  unfold payload_domain. rewrite !Forall_cons. split_and!; try apply Forall_nil_2; try done;
    apply as_bytes_range.
Qed.

Lemma typed_domain r d s p :
  request_typed r d s p → len (derive_legacy_start_request_digest (without_payload r) d s) < 2 ^ 64.
Proof. intros [_ _ Ht _]. rewrite !Forall_cons in Ht. tauto. Qed.

(** The digest of a request without its payload. *)
Lemma bare_digest r d s :
  derive_legacy_start_request_digest (without_payload r) d s
  = hex_string (sha256 (canonical_bytes (request_domain r d s false))).
Proof. unfold derive_legacy_start_request_digest. cbn [without_payload req_first_command_payload is_none negb]. by rewrite app_nil_r. Qed.

Lemma bare_digest_inj r r' d d' s s' p p' :
  request_typed r d s p → request_typed r' d' s' p' →
  derive_legacy_start_request_digest (without_payload r) d s
  = derive_legacy_start_request_digest (without_payload r') d' s' →
  request_view r d s p = request_view r' d' s' p.
Proof.
  intros Ht Ht'. rewrite !bare_digest. intros He%hashes_inj; [|apply canonical_bytes_range, domain_range..].
  apply canonical_bytes_inj in He; [|by eapply domain_fits..].
  eapply domain_inj in He; [|done..]. unfold request_view. destruct_and!. congruence.
Qed.

(** A digest of a request with its payload is of another shape than any digest
    that starts with the fields of a request. *)
Lemma payload_never_bare r r' d d' s s' p p' b rest :
  request_typed r d s (Some p) → request_typed r' d' s' p' → byte_list rest →
  derive_start_request_digest r d s (Some p)
  ≠ hex_string (sha256 (canonical_bytes (request_domain r' d' s' b) ++ rest)).
Proof.
  intros Ht Ht' Hr He. unfold derive_start_request_digest in He.
  apply hashes_inj in He.
  2:{ apply canonical_bytes_range. by eapply payload_domain_range. }
  2:{ apply Forall_app_2; [apply canonical_bytes_range, domain_range|done]. }
  assert (canonical_bytes (request_domain r' d' s' b) ++ rest
          = canonical_bytes (take 5 (request_domain r' d' s' b))
            ++ canonical_bytes (drop 5 (request_domain r' d' s' b)) ++ rest) as Hsplit.
  { rewrite app_assoc. f_equal. unfold canonical_bytes. by rewrite <- concat_app, <- map_app, take_drop. }
  rewrite Hsplit, <- (app_nil_r (canonical_bytes (payload_domain _ _))) in He.
  apply canonical_prefix in He as [_ He];
    [|eapply payload_domain_fits; [done|by eapply typed_domain]
     |by eapply Forall_take, domain_fits|done].
  symmetry in He. apply app_eq_nil in He as [He _].
  apply (canonical_bytes_inj _ []) in He; [done|by eapply Forall_drop, domain_fits|constructor].
Qed.

Lemma hash_range v : byte_list (hash_canonical_json v).
Proof.
  unfold byte_list. induction v as [|b|t|t|vs IH|fs IH] using Json_rect_nested; cbn [hash_canonical_json].
  1-4: apply canonical_bytes_range; rewrite !Forall_cons; split_and!;
    first [apply as_bytes_range|apply Forall_nil_2|case_match; lia|lia].
  all: apply Forall_app_2; [apply canonical_bytes_range; rewrite !Forall_cons; split_and!;
    first [apply as_bytes_range|apply to_be_bytes_range|apply Forall_nil_2]|].
  - apply Forall_concat, Forall_map. exact IH.
  - apply Forall_concat, Forall_map. rewrite sort_keys_perm. apply Forall_map.
    eapply Forall_impl; [exact IH|]. intros [k v] Hv. cbn [fst snd] in *. apply Forall_app_2; [|done].
    apply canonical_bytes_range. rewrite !Forall_cons. split_and!;
      first [apply as_bytes_range|apply Forall_nil_2].
Qed.

(** The digest of a start request pins the request: two requests with the
    same digest have the same tenant, workflow, version, definition, business
    key, first step, deadline and first payload, so a retried start is matched
    only with the start it repeats.  A digest of the older JSON scheme is never
    taken for one of the current scheme. *)
Theorem start_digest_pins_request (r r' : StartSagaRequest) (d d' : string) (s s' : StepName)
    (p p' : option SagaPayload) (Ht : request_typed r d s p) (Ht' : request_typed r' d' s' p') :
  (derive_start_request_digest r d s p = derive_start_request_digest r' d' s' p' →
   request_view r d s p = request_view r' d' s' p') ∧
  (is_Some (req_first_command_payload r') →
   derive_start_request_digest r d s p ≠ derive_legacy_start_request_digest r' d' s').
Proof.
  split.
  - destruct p as [p|], p' as [p'|]; intros He.
    + unfold derive_start_request_digest in He.
      apply hashes_inj in He; [|apply canonical_bytes_range; by eapply payload_domain_range..].
      apply canonical_bytes_inj in He; [|eapply payload_domain_fits; [done|by eapply typed_domain]..].
      unfold payload_domain in He. destruct p as [ct sid body], p' as [ct' sid' body']. simpl in He.
      apply cons_inv in He as (_ & (Hd%as_bytes_inj & (->%as_bytes_inj &
        (->%as_bytes_inj & (-> & _)%cons_inv)%cons_inv)%cons_inv)%cons_inv).
      by eapply bare_digest_inj.
    + exfalso. refine (payload_never_bare _ _ _ _ _ _ _ _ false [] Ht Ht' _ _); [constructor|].
      rewrite He, app_nil_r. apply bare_digest.
    + exfalso. refine (payload_never_bare _ _ _ _ _ _ _ _ false [] Ht' Ht _ _); [constructor|].
      rewrite <- He, app_nil_r. apply bare_digest.
    + by eapply bare_digest_inj.
  - intros [v Hv] He. unfold derive_legacy_start_request_digest in He. rewrite Hv in He.
    destruct p as [p|]; [by eapply payload_never_bare; [..|apply (hash_range v)|]|].
    unfold derive_start_request_digest in He. rewrite bare_digest in He.
    rewrite <- (app_nil_r (canonical_bytes (request_domain r d s false))) in He.
    apply hashes_inj in He;
      [|apply Forall_app_2; [apply canonical_bytes_range, domain_range|first [constructor|apply hash_range]]..].
    apply canonical_prefix in He as [He _]; [|by eapply domain_fits..|done].
    eapply domain_inj in He; [|done..]. by destruct_and!.
Qed.
End requests.

(** ** Witnesses *)

Definition sample_request (key : string) : StartSagaRequest :=
  {| req_saga_id := mkSagaId "saga-1"; req_tenant := mkTenantId "acme"; req_workflow := mkWorkflowName "order";
     req_version := mkDefinitionVersion 1; req_business_key := mkBusinessKey key;
     req_deadline_at_ms := Some (-5); req_trigger_kind := Trigger_Admin; req_trigger_id := "op";
     req_first_command_payload := Some Json_Null; req_first_command_raw_payload := None; req_now_ms := 0 |}.

Lemma sample_request_typed key :
  (len key <? 2 ^ 64) = true →
  (len (@derive_legacy_start_request_digest ideal_runtime (without_payload (sample_request key)) "d"
         (mkStepName "debit")) <? 2 ^ 64) = true →
  @request_typed ideal_runtime (sample_request key) "d" (mkStepName "debit") None.
Proof.
  intros Hk%Z.ltb_lt Hd%Z.ltb_lt. split; [done|by intros d [= <-]| |done].
  repeat (apply Forall_cons; split); [done..|exact Hk|done|exact Hd|constructor].
Qed.

Lemma canonical_json_exact_witness :
  hash_canonical_json (Json_Object [("b", Json_Null); ("a", Json_Bool true)])
  = hash_canonical_json (Json_Object [("a", Json_Bool true); ("b", Json_Null)]) ∧
  hash_canonical_json (Json_Array [Json_String "a"; Json_String "b"])
  ≠ hash_canonical_json (Json_Array [Json_String "ab"]).
Proof.
  split.
  - apply canonical_json_exact; [by repeat split..|reflexivity].
  - intros H. apply canonical_json_exact in H; [discriminate H|by repeat split..].
Defined.

Lemma start_digest_pins_request_witness :
  @derive_start_request_digest ideal_runtime (sample_request "k") "d" (mkStepName "debit") None
  ≠ @derive_start_request_digest ideal_runtime (sample_request "l") "d" (mkStepName "debit") None.
Proof.
  intros H. apply (@start_digest_pins_request ideal_runtime ideal_sha256_spec) in H; [discriminate H|..];
    apply sample_request_typed; reflexivity.
Defined.
