(* ===== verification/SagaManagement.v ===== *)
(** * Managing a saga

    Models [nasaga-runtime-core/src/management.rs] and the management half of
    [orchestrator.rs]: pause and resume, the retries after manual
    intervention, manual close, the authentication of results and one round of
    the timer worker.  Every action first asks for its permission, then runs in
    one transaction that records who did it and why. *)

From Stdlib Require Import ZArith Lia.
From S2P Require Import Prelude Bytes SagaIdentity SagaState SagaDefinition SagaPlan SagaEnvelope.
From S2P Require Import SagaStore SagaAdminStore SagaRegistry SagaOrchestrator.
From stdpp Require Import prelude strings gmap.

Local Open Scope Z_scope.
Local Open Scope rust_scope.

(** ** Contexts *)

Inductive SagaManagementPermission :=
| Permission_Pause
| Permission_Resume
| Permission_RetryCompensation
| Permission_RetryResolution
| Permission_ReadAudit
| Permission_ListInstances
| Permission_ManualClose.

#[global] Instance SagaManagementPermission_eq_dec : EqDecision SagaManagementPermission.
Proof. solve_decision. Defined.

Definition SagaManagementPermission_as_str (self : SagaManagementPermission) : string :=
  match self with
  | Permission_Pause => "saga.pause"
  | Permission_Resume => "saga.resume"
  | Permission_RetryCompensation => "saga.retry_compensation"
  | Permission_RetryResolution => "saga.retry_resolution"
  | Permission_ReadAudit => "saga.audit.read"
  | Permission_ListInstances => "saga.instance.list"
  | Permission_ManualClose => "saga.manual_close"
  end.

Record SagaManagementContext := mkManagement {
  actor : string;
  reason : string;
  permissions : list SagaManagementPermission
}.

Record SagaManagementExpectation := mkExpectation {
  expected_state_version : option Z;
  expected_control_version : option Z
}.

Definition valid_audit_text (value : string) (max_len : Z) : bool :=
  negb (is_empty value) && (len value <=? max_len) && is_trimmed value
  && negb (any_control (as_bytes value)).

Definition SagaManagementContext_new (actor reason : string)
    (permissions : list SagaManagementPermission) : SagaResult SagaManagementContext :=
  ensure valid_audit_text actor 128 && valid_audit_text reason 512 else Management InvalidContext in
  Ok (mkManagement actor reason permissions).

(** [SagaManagementContext::require] *)
Definition require_permission (self : SagaManagementContext) (required : SagaManagementPermission)
    : SagaResult unit :=
  if bool_decide (required ∈ permissions self) then Ok tt else Err (Management PermissionDenied).

Definition differs (expected : option Z) (actual : Z) : bool :=
  match expected with Some version => negb (version =? actual) | None => false end.

(** [SagaManagementExpectation::verify] *)
Definition verify_expectation (self : SagaManagementExpectation) (state_version control_version : Z)
    : SagaResult unit :=
  if differs (expected_state_version self) state_version
     || differs (expected_control_version self) control_version
  then Err (Concurrency StaleSnapshot) else Ok tt.

Definition management_precondition {A} : Tx A := fail (Management PreconditionFailed).

Section management.
Context `{Runtime} (self : Orchestrator).

(** ** Gates *)

Definition reserve_action_rate_budget (tenant : TenantId) : SagaResult unit :=
  match tenant_action_rates (config self) !! TenantId_as_str tenant with
  | None => Ok tt
  | Some rate =>
      let? verdict := reserve_tenant_action_rate self tenant (max_actions rate) (window_ms rate) in
      match verdict with
      | Rate_Exceeded => Err (Management RateLimitExceeded)
      | Rate_Reserved => Ok tt
      end
  end.

(** [load_instance] with the tenant filter; a foreign saga is not found. *)
Definition load_target (tenant : TenantId) (saga_id : SagaId) : Tx SagaInstanceRow :=
  bind! found := load_instance saga_id in
  match found with
  | Some instance =>
      if bool_decide (inst_tenant instance = tenant) then ret instance
      else fail (Management NotFound)
  | None => fail (Management NotFound)
  end.

(** ** Pause and resume *)

(** The common body of [pause_with_expectation] and [resume_with_expectation]:
    [wake] is what an applied transition does last. *)
Definition switch_control (management : SagaManagementContext) (tenant : TenantId)
    (saga_id : SagaId) (operation_id : string) (expectation : SagaManagementExpectation)
    (from to : ControlState) (wake : Tx unit) : Tx unit :=
  bind! instance := load_target tenant saga_id in
  bind! outcome := set_control_state
    {| ctl_saga_id := saga_id;
       ctl_expected_version := inst_version instance;
       ctl_expected_control_version := inst_control_version instance;
       ctl_from := from;
       ctl_to := to;
       ctl_operation_id := operation_id;
       ctl_actor := actor management;
       ctl_reason := reason management |} in
  match outcome with
  | Control_Applied =>
      do! lift (verify_expectation expectation (inst_version instance) (inst_control_version instance)) in
      do! lift (reserve_action_rate_budget tenant) in
      wake
  | Control_AlreadyApplied => ret tt
  | Control_Conflict =>
      do! lift (verify_expectation expectation (inst_version instance) (inst_control_version instance)) in
      if bool_decide (inst_control_state instance = from) then fail (Concurrency StaleSnapshot)
      else management_precondition
  end.

Definition pause (management : SagaManagementContext) (tenant : TenantId) (saga_id : SagaId)
    (operation_id : string) (expectation : SagaManagementExpectation) : Tx unit :=
  do! lift (require_permission management Permission_Pause) in
  switch_control management tenant saga_id operation_id expectation Active Paused (ret tt).

Definition resume (management : SagaManagementContext) (tenant : TenantId) (saga_id : SagaId)
    (operation_id : string) (expectation : SagaManagementExpectation) : Tx unit :=
  do! lift (require_permission management Permission_Resume) in
  switch_control management tenant saga_id operation_id expectation Paused Active
    (do! wake_saga_timers in ret tt).

(** ** Recovery after manual intervention *)

(** The gates the three recovery actions share: a replay returns the current
    status, a new operation is audited, budgeted, checked against what the
    caller saw, and needs an active saga in manual intervention. *)
Definition recovery (management : SagaManagementContext) (tenant : TenantId) (saga_id : SagaId)
    (operation_id action : string) (expectation : SagaManagementExpectation)
    (act : SagaInstanceRow → Tx SagaStatus) : Tx SagaStatus :=
  bind! instance := load_target tenant saga_id in
  bind! audit := record_management_operation operation_id action (actor management)
                   (reason management) in
  match audit with
  | Audit_AlreadyRecorded => ret (inst_status instance)
  | Audit_Recorded =>
      do! lift (reserve_action_rate_budget tenant) in
      do! lift (verify_expectation expectation (inst_version instance) (inst_control_version instance)) in
      if negb (ControlState_allows_automatic_actions (inst_control_state instance)) then
        management_precondition
      else if negb (bool_decide (inst_status instance = ManualIntervention)) then
        management_precondition
      else act instance
  end.

Definition registered (instance : SagaInstanceRow) : SagaResult WorkflowDefinition :=
  ok_or (get_for_tenant self (inst_tenant instance) (inst_workflow instance)
           (inst_definition_version instance)) (Management PreconditionFailed).

Definition retry_compensation_act (operation_id : string) (now_ms : Z) (instance : SagaInstanceRow)
    : Tx SagaStatus :=
  if is_none (inst_compensation_plan_version instance) then management_precondition else
  bind! definition := lift (registered instance) in
  bind! steps := load_steps in
  bind! next := lift (next_pending_compensation instance definition steps true) in
  match next with
  | Some step =>
      let recovering_halted :=
        existsb (λ row, bool_decide (row_step row = step)
                        && bool_decide (row_compensation_status row = Comp_Halted)) steps in
      do! (if recovering_halted then reopen_halted_compensation step operation_id else ret tt) in
      bind! version := advance instance Compensating Direction_Compensating (Some step)
                         Trigger_Admin operation_id None None in
      bind! step_def := lift (ok_or (WorkflowDefinition_step definition step)
                               (Management PreconditionFailed)) in
      bind! attempt := next_attempt step Compensate in
      do! issue_command self instance step_def Compensate attempt None (Some operation_id) now_ms
            version in
      ret Compensating
  | None =>
      bind! version := advance instance Compensating Direction_Compensating None
                         Trigger_Admin operation_id None None in
      do! converge_compensated self instance version Trigger_Admin operation_id in
      ret Compensated
  end.

Definition retry_compensation (management : SagaManagementContext) (tenant : TenantId)
    (saga_id : SagaId) (operation_id : string) (now_ms : Z)
    (expectation : SagaManagementExpectation) : Tx SagaStatus :=
  do! lift (require_permission management Permission_RetryCompensation) in
  recovery management tenant saga_id operation_id RETRY_COMPENSATION_ACTION expectation
    (retry_compensation_act operation_id now_ms).

(** The effect whose outcome is still unknown, in the direction of the saga. *)
Definition has_unknown_target (instance : SagaInstanceRow) (row : SagaStepRow) : bool :=
  match inst_direction instance with
  | Direction_Forward => bool_decide (row_forward_status row = Forward_Unknown)
  | Direction_Compensating => bool_decide (row_compensation_status row = Comp_Unknown)
  end.

Definition unresolved (row : SagaStepRow) : bool :=
  match row_resolution_status row with Resolution_Pending | Resolution_Halted => true | _ => false end.

Definition retry_resolution_act (operation_id : string) (now_ms : Z) (instance : SagaInstanceRow)
    : Tx SagaStatus :=
  bind! step := lift (ok_or (inst_current_step instance) (Management PreconditionFailed)) in
  bind! definition := lift (registered instance) in
  bind! step_def := lift (ok_or (WorkflowDefinition_step definition step)
                           (Management PreconditionFailed)) in
  if negb (bool_decide (resolution_mode (step_resolution step_def) = Some Poll)) then
    management_precondition else
  bind! steps := load_steps in
  bind! row := lift (ok_or (find_row step steps) (Management PreconditionFailed)) in
  if negb (has_unknown_target instance row) || negb (unresolved row) then management_precondition else
  bind! attempt := next_attempt step Resolve in
  do! (if bool_decide (row_resolution_status row = Resolution_Halted) then
         reopen_halted_resolution step operation_id else ret tt) in
  bind! version := advance instance WaitingResolution (inst_direction instance) (Some step)
                     Trigger_Admin operation_id None None in
  bind! budget_ms := lift (duration_millis (resolution_budget (step_resolution step_def))) in
  bind! due := lift (checked_deadline now_ms budget_ms) in
  do! schedule_timer (inst_saga_id instance) (Scope_Step step)
        (resolution_budget_kind (inst_direction instance)) attempt due version in
  do! issue_command self instance step_def Resolve attempt None (Some operation_id) now_ms version in
  ret WaitingResolution.

Definition retry_resolution (management : SagaManagementContext) (tenant : TenantId)
    (saga_id : SagaId) (operation_id : string) (now_ms : Z)
    (expectation : SagaManagementExpectation) : Tx SagaStatus :=
  do! lift (require_permission management Permission_RetryResolution) in
  recovery management tenant saga_id operation_id RETRY_RESOLUTION_ACTION expectation
    (retry_resolution_act operation_id now_ms).

Definition manual_close_act (operation_id : string) (instance : SagaInstanceRow) : Tx SagaStatus :=
  do! advance instance ManuallyClosed (inst_direction instance) None Trigger_Admin operation_id
        None None in
  do! cancel_scope_timers Scope_Instance None in
  ret ManuallyClosed.

Definition manual_close (management : SagaManagementContext) (tenant : TenantId)
    (saga_id : SagaId) (operation_id : string) (expectation : SagaManagementExpectation)
    : Tx SagaStatus :=
  do! lift (require_permission management Permission_ManualClose) in
  if negb (enable_manual_close (config self)) then management_precondition else
  recovery management tenant saga_id operation_id MANUAL_CLOSE_ACTION expectation
    (manual_close_act operation_id).

(** ** Results of authenticated producers *)

Definition verify_result_producer (envelope : SagaResultEnvelope) (producer : ServiceIdentity)
    : SagaResult unit :=
  let? identity := SagaResultEnvelope_verified_for_delivery envelope in
  let? definition := ok_or (get_for_tenant self (vid_tenant identity) (vid_workflow identity)
                              (vid_definition_version identity)) (Processing ContractInvalid) in
  ensure bool_decide (WorkflowDefinition_digest sha256 definition = vid_definition_digest identity) else
    Processing ContractInvalid in
  let? step := ok_or (WorkflowDefinition_step definition (vid_step identity))
                 (Processing ContractInvalid) in
  ensure bool_decide (step_owner step = producer) else Processing ProducerUnauthorized in
  Ok tt.

(** [handle_authenticated_result_authorized_traced] without a receipt trace;
    [authorize_entry] is the first answer of its [authorize]. *)
Definition handle_authenticated_result (envelope : SagaResultEnvelope) (producer : ServiceIdentity)
    (now_ms : Z) (authorize_entry : SagaResult unit) (authorize : Authority) : Tx HandleOutcome :=
  do! lift authorize_entry in
  do! lift (verify_result_producer envelope producer) in
  handle_verified_result self envelope now_ms authorize.

(** ** One round of the timer worker *)

(** [elapsed_epoch_ms]: the clock at the claim plus the time since. *)
Definition elapsed_epoch_ms (base_now_ms elapsed_ms : Z) : SagaResult Z :=
  ensure elapsed_ms <=? I64_MAX else Anyhow "timer lease elapsed duration overflow" in
  ok_or (i64_checked_add base_now_ms elapsed_ms) (Anyhow "timer lease clock overflow").

(** [parse_timer_row] *)
Definition claimed_row (saga_id : SagaId) (row : TimerRow) : SagaTimerRow :=
  let spec := timer_spec row in
  {| st_timer_id := spec_timer_id spec;
     st_saga_id := saga_id;
     st_scope_kind := TimerScope_kind_str (spec_scope spec);
     st_scope_key := TimerScope_key_str (spec_scope spec);
     st_kind := spec_kind spec;
     st_attempt := spec_attempt spec;
     st_expected_saga_version := spec_expected_saga_version spec |}.

(** The loop over the claimed timers: every judgement and every release is a
    transaction of its own, so what precedes an error stays committed.
    [elapsed] are the readings of the monotonic clock. *)
Fixpoint run_timers (saga_id : SagaId) (token : string) (now_ms : Z) (elapsed : nat → Z)
    (index : nat) (applied : Z) (timers : list TimerRow) (db : Db) : SagaResult Z * Db :=
  match timers with
  | [] => (Ok applied, db)
  | row :: rest =>
      match elapsed_epoch_ms now_ms (elapsed index) with
      | Err e => (Err e, db)
      | Ok now =>
          match fire_timer self (claimed_row saga_id row) token now db with
          | Err e => (Err e, db)
          | Ok (Timer_Applied _, db') =>
              run_timers saga_id token now_ms elapsed (S (S index)) (applied + 1) rest db'
          | Ok (SkippedPaused, db') =>
              match (bind! release_now := lift (elapsed_epoch_ms now_ms (elapsed (S index))) in
                     bind! available := lift (checked_deadline release_now (pause_backoff_ms (config self))) in
                     release_timer (spec_timer_id (timer_spec row)) token release_now available) db' with
              | Err e => (Err e, db')
              | Ok (_, db'') =>
                  run_timers saga_id token now_ms elapsed (S (S index)) applied rest db''
              end
          | Ok (_, db') => run_timers saga_id token now_ms elapsed (S (S index)) applied rest db'
          end
      end
  end.

(** [run_due_timers] on the timers of this saga; [token] is the fencing token
    issued for the round. *)
Definition run_due_timers (picked : TimerRow → bool) (saga_id : SagaId) (owner token : string)
    (now_ms : Z) (elapsed : nat → Z) (db : Db) : SagaResult Z * Db :=
  match claim_due_timers picked owner token now_ms (timer_lease_ms (config self))
          (timer_claim_limit (config self)) db with
  | Err e => (Err e, db)
  | Ok (timers, db') => run_timers saga_id token now_ms elapsed 0 0 timers db'
  end.
End management.
