(* ===== verification/SagaProjection.v ===== *)
(** * Late results and the journal

    The pure checks of the orchestrator on the step journal: the merge of a
    late result into a row ([merge_deferred_projection]) and the choice of the
    next forward step ([next_pending_forward]); and a bound on the identities
    a saga can run with. *)

From Stdlib Require Import ZArith Lia.
From S2P Require Import Prelude Bytes SagaIdentity SagaState SagaDefinition SagaPlan SagaEnvelope.
From S2P Require Import SagaStore SagaRegistry SagaOrchestrator.
From stdpp Require Import prelude strings list.

Local Open Scope Z_scope.
Local Open Scope rust_scope.

(** ** Merging *)

(** A vocabulary of facts: the ones that are settled, and the initial one. *)
Class Facts (S : Type) := {
  fact_settled : S → bool;
  fact_initial : S;
  fact_merge : S → S → option (option S)
}.

#[export] Instance forward_facts : Facts StepForwardStatus :=
  {| fact_settled s := match s with
                       | Forward_Pending | Forward_Unknown | Forward_TimedOut => false
                       | _ => true
                       end;
     fact_initial := Forward_Pending;
     fact_merge := merge_forward |}.

#[export] Instance cancel_facts : Facts StepCancelStatus :=
  {| fact_settled s := match s with Cancel_None | Cancel_ResolutionPending => false | _ => true end;
     fact_initial := Cancel_None;
     fact_merge := merge_cancel |}.

#[export] Instance compensation_facts : Facts StepCompensationStatus :=
  {| fact_settled s := match s with Comp_None | Comp_Pending | Comp_Unknown => false | _ => true end;
     fact_initial := Comp_None;
     fact_merge := merge_compensation |}.

#[export] Instance resolution_facts : Facts StepResolutionStatus :=
  {| fact_settled s := match s with Resolution_None | Resolution_Pending => false | _ => true end;
     fact_initial := Resolution_None;
     fact_merge := merge_resolution |}.

Section facts.
Context {S : Type} `{Facts S}.

(** A settled fact meets a different one that is settled, or the claim that
    nothing happened. *)
Definition clash (current : S) (patch : option S) : Prop :=
  ∃ next, patch = Some next ∧ fact_settled current = true ∧ next ≠ current ∧
    (fact_settled next = true ∨ next = fact_initial).

(** Settled facts survive, and settled news is taken. *)
Definition fact_kept (current new : S) (patch : option S) : Prop :=
  (fact_settled current = true → new = current) ∧
  (∀ next, patch = Some next → fact_settled next = true → new = next).

(** The law of a merge. *)
Class MergeLaw : Prop := merge_law (current : S) (patch : option S) :
  match merge_field fact_merge current patch with
  | None => clash current patch
  | Some m =>
      ¬ clash current patch ∧ fact_kept current (default current m) patch ∧
      merge_field fact_merge (default current m) patch = Some None
  end.
End facts.

Ltac merge_law :=
  intros [] [[]|]; cbn; unfold clash, fact_kept; cbn; naive_solver.

#[export] Instance forward_law : MergeLaw (S := StepForwardStatus).
Proof. merge_law. Qed.
#[export] Instance cancel_law : MergeLaw (S := StepCancelStatus).
Proof. merge_law. Qed.
#[export] Instance compensation_law : MergeLaw (S := StepCompensationStatus).
Proof. merge_law. Qed.
#[export] Instance resolution_law : MergeLaw (S := StepResolutionStatus).
Proof. merge_law. Qed.

(** A late result never weakens a settled fact.  The merge is refused exactly
    when a settled fact of some field meets a different one; otherwise the
    patched row keeps every settled fact, takes every settled news, and
    merging the same result again changes nothing. *)
Theorem projection_monotone (row : SagaStepRow) (patch : StepJournalPatch) :
  match merge_deferred_projection row patch with
  | None =>
      clash (row_forward_status row) (patch_forward_status patch) ∨
      clash (row_cancel_status row) (patch_cancel_status patch) ∨
      clash (row_compensation_status row) (patch_compensation_status patch) ∨
      clash (row_resolution_status row) (patch_resolution_status patch)
  | Some merged =>
      ¬ (clash (row_forward_status row) (patch_forward_status patch) ∨
         clash (row_cancel_status row) (patch_cancel_status patch) ∨
         clash (row_compensation_status row) (patch_compensation_status patch) ∨
         clash (row_resolution_status row) (patch_resolution_status patch)) ∧
      let row' := patch_row merged row in
      fact_kept (row_forward_status row) (row_forward_status row') (patch_forward_status patch) ∧
      fact_kept (row_cancel_status row) (row_cancel_status row') (patch_cancel_status patch) ∧
      fact_kept (row_compensation_status row) (row_compensation_status row')
        (patch_compensation_status patch) ∧
      fact_kept (row_resolution_status row) (row_resolution_status row')
        (patch_resolution_status patch) ∧
      ∃ again, merge_deferred_projection row' patch = Some again ∧ patch_row again row' = row'
  end.
Proof.
  pose proof (forward_law (row_forward_status row) (patch_forward_status patch)) as Hf.
  pose proof (cancel_law (row_cancel_status row) (patch_cancel_status patch)) as Hc.
  pose proof (compensation_law (row_compensation_status row) (patch_compensation_status patch)) as Hk.
  pose proof (resolution_law (row_resolution_status row) (patch_resolution_status patch)) as Hr.
  unfold merge_deferred_projection. cbn [fact_merge forward_facts cancel_facts compensation_facts resolution_facts] in *.
  destruct (merge_field merge_forward _ _) as [f|]; [|tauto].
  destruct (merge_field merge_cancel _ _) as [c|]; [|tauto].
  destruct (merge_field merge_compensation _ _) as [k|]; [|tauto].
  destruct (merge_field merge_resolution _ _) as [r|]; [|tauto].
  destruct Hf as (? & ? & Hf), Hc as (? & ? & Hc), Hk as (? & ? & Hk), Hr as (? & ? & Hr).
  split; [tauto|]. cbn. split_and!; [done..|]. eexists. rewrite Hf, Hc, Hk, Hr. split; [reflexivity|].
  unfold patch_row. cbn. by destruct (patch_last_error_code patch).
Qed.

(** ** The next forward step *)

Definition all_rows (s : StepForwardStatus) (rows : list SagaStepRow) : Prop :=
  Forall (λ row, row_forward_status row = s) rows.

(** Rows in the definition's order, numbered from [index + 1]. *)
Fixpoint rows_match (index : nat) (defs : list StepDefinition) (rows : list SagaStepRow) : Prop :=
  match defs, rows with
  | [], [] => True
  | d :: defs', r :: rows' =>
      row_step r = step_name d ∧ row_ordinal r = Z.of_nat index + 1 ∧ rows_match (S index) defs' rows'
  | _, _ => False
  end.

Lemma rows_match_length index defs rows : rows_match index defs rows → length rows = length defs.
Proof.
  revert index rows. induction defs as [|d defs IH]; intros index [|r rows]; simpl; try done.
  intros (_ & _ & Hm). by erewrite IH.
Qed.

(** A succeeded prefix followed by a pending suffix, whose first step is next. *)
Definition prefix_suffix (rows : list SagaStepRow) (next : option StepName) : Prop :=
  ∃ succeeded pending, rows = succeeded ++ pending ∧ all_rows Forward_Succeeded succeeded ∧
    all_rows Forward_Pending pending ∧ next = option_map row_step (head pending).

Lemma prefix_suffix_cons r rows next :
  prefix_suffix (r :: rows) next ↔
  match row_forward_status r with
  | Forward_Succeeded => prefix_suffix rows next
  | Forward_Pending => next = Some (row_step r) ∧ all_rows Forward_Pending rows
  | _ => False
  end.
Proof.
  unfold prefix_suffix, all_rows. split.
  - intros (dn & pd & E & Hd & Hp & ->). destruct dn as [|r' dn]; simplify_eq/=.
    + by apply Forall_cons in Hp as [-> ?].
    + apply Forall_cons in Hd as [-> ?]. eauto 6.
  - destruct (row_forward_status r) eqn:Hr; try done.
    + intros [-> Hp]. exists [], (r :: rows). split_and!; [done|constructor|by constructor|done].
    + intros (dn & pd & -> & Hd & Hp & ->). exists (r :: dn), pd.
      split_and!; [done|by constructor|done|done].
Qed.

Lemma scan_forward_spec defs index next rows result :
  length rows = length defs →
  scan_forward index next defs rows = Ok result ↔
  rows_match index defs rows ∧
  match next with
  | Some s => result = Some s ∧ all_rows Forward_Pending rows
  | None => prefix_suffix rows result
  end.
Proof.
  revert index next rows. induction defs as [|d defs IH]; intros index next [|r rows] Hl; simplify_eq/=.
  - destruct next as [s|]; [unfold all_rows; naive_solver|]. split.
    + intros [= <-]. split; [done|]. exists [], []. split_and!; [done|constructor..|done].
    + intros (_ & dn & pd & E & _ & _ & ->). symmetry in E. by apply app_nil in E as [-> ->].
  - rewrite ensure_Ok, andb_true_iff, bool_decide_eq_true, Z.eqb_eq.
    destruct next as [s|]; [unfold all_rows; rewrite Forall_cons|rewrite prefix_suffix_cons];
      destruct (row_forward_status r) eqn:Hr; rewrite ?IH by done; unfold all_rows; naive_solver.
Qed.

(** The next forward step is chosen exactly when the journal is sound: the
    rows are the definition's steps in order, a prefix of them has succeeded
    and all others are pending; the step chosen is the first pending one, and
    none remains exactly when all have succeeded.  Anything else is refused. *)
Theorem next_pending_forward_exact (definition : WorkflowDefinition) (rows : list SagaStepRow)
    (next : option StepName) :
  next_pending_forward definition rows = Ok next ↔
  rows_match 0 (workflow_steps definition) rows ∧ prefix_suffix rows next.
Proof.
  unfold next_pending_forward. rewrite ensure_Ok, Nat.eqb_eq. split.
  - intros [Hl Hs]. by apply scan_forward_spec in Hs.
  - intros Hs. assert (length rows = length (workflow_steps definition)) as Hl
      by (by eapply rows_match_length, Hs). split; [done|]. by apply scan_forward_spec.
Qed.

(** ** Identities the outbox can carry *)

(** A saga whose identity is longer than 190 bytes can never issue a command,
    although [SagaId] admits up to 256: the command's event carries the saga
    id as its aggregate id, and the outbox refuses the transaction, in every
    phase and whatever the rows. *)
Theorem long_saga_ids_cannot_command `{Runtime} (self : Orchestrator) (instance : SagaInstanceRow)
    (step_def : StepDefinition) (phase : StepPhase) (attempt : AttemptNo) (payload : option CommandInput)
    (recovery : option string) (now version : Z) (db : Db)
    (Hlong : 190 < len (SagaId_as_str (inst_saga_id instance))) :
  ∃ e, issue_command self instance step_def phase attempt payload recovery now version db = Err e.
Proof.
  destruct (issue_command _ _ _ _ _ _ _ _ _ db) as [[u db']|e] eqn:Hr; [|by exists e].
  exfalso. unfold issue_command in Hr. cbv zeta in Hr.
  do 3 (apply bind_Ok in Hr as (? & ? & _ & Hr)).
  apply bind_Ok in Hr as (? & ? & Ho & _). unfold outbox_append in Ho.
  apply bind_Ok in Ho as (? & ? & [Hv _]%lift_Ok & _). unfold validate_event in Hv.
  destruct (forallb _ _) eqn:E; [|done]. rewrite forallb_forall in E.
  specialize (E (SagaId_as_str (inst_saga_id instance), 190)).
  rewrite !andb_true_iff, Z.leb_le in E. simpl in E. destruct E as [[_ Hle] _]; [tauto|lia].
Qed.

Lemma long_saga_ids_cannot_command_witness : 190 < 200 ∧
  ∃ e, @issue_command ideal_runtime
    (mkOrchestrator OrchestratorConfig_default DefinitionRegistry_new (λ _, true)
       (λ _ _ _, Ok Rate_Reserved))
    {| inst_saga_id := mkSagaId (String.concat "" (repeat "x" 200)); inst_tenant := mkTenantId "acme";
       inst_workflow := mkWorkflowName "order"; inst_business_key := mkBusinessKey "order-7";
       inst_definition_version := mkDefinitionVersion 1; inst_definition_digest := demo_digest;
       inst_start_request_digest := None; inst_status := Running; inst_control_state := Active;
       inst_control_version := 1; inst_direction := Direction_Forward; inst_current_step := None;
       inst_compensation_plan_version := None; inst_version := 1; inst_deadline_at_ms := None;
       inst_failure_code := None; inst_traceparent := None |}
    (sample_step "debit" Compensable 5000000000) Execute AttemptNo_FIRST None None 1000 1
    (mkDb None [] [] [] [] [] [] [] [] [] ∅) = Err e.
Proof. split; [lia|]. apply long_saga_ids_cannot_command. vm_compute. reflexivity. Defined.
