(* ===== verification/SagaSafety.v ===== *)
(** * What every committed orchestrator transaction guarantees

    Theorems about the handlers of [SagaOrchestrator]: a committed transaction
    moves the saga along the closed state machine and logs every move, a
    terminal or paused saga is left alone, [COMPLETED] and [COMPENSATED] are
    only ever declared on complete evidence, triggers and results take effect
    once, and late results never weaken a settled fact. *)

From Stdlib Require Import ZArith Lia.
From S2P Require Import Prelude Bytes SagaIdentity SagaState SagaDefinition SagaPlan SagaEnvelope.
From S2P Require Import SagaStore SagaAdminStore SagaRegistry SagaOrchestrator SagaStart SagaManagement.
From stdpp Require Import prelude strings list.

Local Open Scope Z_scope.
Local Open Scope rust_scope.

Create HintDb saga.

(** ** Reasoning about transactions *)

Section keeps.
Context `{Runtime}.

(** Every committed run of [c] relates the rows before and after by [R]. *)
Definition Keeps {A} (R : Db → Db → Prop) (c : Tx A) : Prop :=
  ∀ db x db', c db = Ok (x, db') → R db db'.

Context (R : Db → Db → Prop) `{!PreOrder R}.

Lemma keeps_ret {A} (x : A) : Keeps R (ret x).
Proof. intros db y db' [= <- <-]. reflexivity. Qed.
Lemma keeps_fail {A} (e : SagaError) : Keeps R (fail (A:=A) e).
Proof. intros db y db' [=]. Qed.
Lemma keeps_lift {A} (r : SagaResult A) : Keeps R (lift r).
Proof. intros db y db' [_ ->]%lift_Ok. reflexivity. Qed.
Lemma keeps_read {A} (f : Db → A) : Keeps R (read f).
Proof. intros db y db' [= <- <-]. reflexivity. Qed.
Lemma keeps_bind {A B} (c : Tx A) (k : A → Tx B) :
  Keeps R c → (∀ x, Keeps R (k x)) → Keeps R (bind c k).
Proof. intros Hc Hk db y db' (x & db1 & Hx & Hy)%bind_Ok. etrans; [by eapply Hc|by eapply Hk]. Qed.
Lemma keeps_modify (f : Db → Db) : (∀ db, R db (f db)) → Keeps R (modify f).
Proof. intros Hf db y db' [= <- <-]. apply Hf. Qed.
End keeps.

(** Descends through the structure of a transaction; the leaves are left to
    the hint database. *)
Ltac keeps :=
  repeat first
    [ solve [eauto with saga]
    | apply keeps_ret; exact _ | apply keeps_fail | apply keeps_lift; exact _
    | apply keeps_read; exact _
    | apply keeps_bind; [exact _| |intros ?]
    | match goal with |- Keeps _ (match ?x with _ => _ end) => destruct x end ].

(** Opens a committed run in the hypotheses, one operation at a time. *)
Ltac inv_tx :=
  repeat match goal with
  | H : bind _ _ _ = Ok _ |- _ => apply bind_Ok in H as (? & ? & ? & H)
  | H : lift _ _ = Ok _ |- _ => apply lift_Ok in H as [H ?]
  | H : ret _ _ = Ok _ |- _ => first [injection H as ? ?|injection H as ?]
  | H : read _ _ = Ok _ |- _ => injection H as ? ?
  | H : modify _ _ = Ok _ |- _ => injection H as ?
  | H : fail _ _ = Ok _ |- _ => discriminate H
  | _ => progress subst
  end.

(** A transaction under an authority commits what its body does, if the
    authority holds whenever it is asked. *)
Lemma authorized_Ok `{Runtime} {A} (authorize : Authority) (body : Tx A) db x db' :
  run_authorized_for authorize body db = Ok (x, db') ↔
  poll_authorized (at_polls authorize) = Ok tt ∧ body db = Ok (x, db') ∧ at_commit authorize = Ok tt.
Proof.
  unfold run_authorized_for. split.
  - intros ([] & ? & [Hp ->]%lift_Ok & Hr)%bind_Ok. apply bind_Ok in Hr as (y & db1 & Hy & Hr).
    apply bind_Ok in Hr as ([] & ? & [Hc ->]%lift_Ok & Hr). by injection Hr as -> ->.
  - intros (Hp & Hb & Hc). unfold bind, lift, ret. rewrite Hp. simpl. rewrite Hb. simpl. by rewrite Hc.
Qed.

Lemma keeps_authorized `{Runtime} {A} R `{!PreOrder R} (authorize : Authority) (body : Tx A) :
  Keeps R body → Keeps R (run_authorized_for authorize body).
Proof. intros Hb db x db' (_ & Hr & _)%authorized_Ok. by eapply Hb. Qed.

(** ** Footprints of the store's operations *)

Section footprints.
Context `{Runtime}.

(** Nothing happened to the instance or its logs, or to the quota ledger. *)
Definition same_rows (db db' : Db) : Prop :=
  db_instance db' = db_instance db ∧ db_transitions db' = db_transitions db ∧
  db_controls db' = db_controls db.
Definition same_core (db db' : Db) : Prop :=
  db_instance db' = db_instance db ∧ db_transitions db' = db_transitions db ∧
  db_controls db' = db_controls db ∧ db_quota db' = db_quota db.

(** Nothing happened to what the forward journal says. *)
Definition forward_view (row : SagaStepRow) := (row_step row, row_ordinal row, row_forward_status row).
Definition same_forward (db db' : Db) : Prop :=
  map forward_view (db_steps db') = map forward_view (db_steps db).

#[global] Instance same_rows_preorder : PreOrder same_rows.
Proof. split; [by intros db; repeat split|]. intros a b c (? & ? & ?) (? & ? & ?). split_and!; congruence. Qed.
#[global] Instance same_core_preorder : PreOrder same_core.
Proof.
  split; [by intros db; repeat split|]. intros a b c (? & ? & ? & ?) (? & ? & ? & ?).
  split_and!; congruence.
Qed.
Lemma same_core_rows db db' : same_core db db' → same_rows db db'.
Proof. intros (? & ? & ? & _). by split_and!. Qed.
#[global] Instance same_forward_preorder : PreOrder same_forward.
Proof. split; [done|]. intros a b c. unfold same_forward. congruence. Qed.

Lemma update_step_forward step f l :
  (∀ row, forward_view (f row) = forward_view row) →
  map forward_view (update_step step f l) = map forward_view l.
Proof.
  intros Hf. unfold update_step. rewrite map_map. apply map_ext. intros row.
  by case_bool_decide.
Qed.

Lemma forward_record_attempt_started step phase attempt e c :
  Keeps same_forward (record_attempt_started step phase attempt e c).
Proof.
  unfold record_attempt_started. keeps; apply keeps_modify; [done|].
  intros db. unfold same_forward. simpl. apply update_step_forward. intros row. by case_match.
Qed.
Lemma forward_record_attempt_outcome step phase attempt st ev :
  Keeps same_forward (record_attempt_outcome step phase attempt st ev).
Proof. unfold record_attempt_outcome. keeps. by apply keeps_modify. Qed.
Lemma forward_mark_entries version entries : Keeps same_forward (mark_entries version entries).
Proof.
  induction entries as [|e l IH]; simpl; [keeps|].
  intros db x db' (steps & db1 & [= <- <-] & Hr)%bind_Ok.
  destruct (has_step _ _); [|done]. apply bind_Ok in Hr as ([] & db2 & [= <-] & Hr).
  etrans; [|by eapply IH]. unfold same_forward. simpl. by apply update_step_forward.
Qed.
Lemma forward_schedule spec : Keeps same_forward (store_schedule_timer spec).
Proof. unfold store_schedule_timer. keeps. by apply keeps_modify. Qed.
Lemma forward_cancel scope kind : Keeps same_forward (cancel_scope_timers scope kind).
Proof. unfold cancel_scope_timers. keeps. by apply keeps_modify. Qed.
Lemma forward_complete id token now : Keeps same_forward (complete_timer id token now).
Proof. unfold complete_timer. keeps. by apply keeps_modify. Qed.
Lemma forward_conflict fact : Keeps same_forward (record_attempt_conflict fact).
Proof. unfold record_attempt_conflict. keeps. by apply keeps_modify. Qed.
Lemma forward_inbox id : Keeps same_forward (inbox_claim id).
Proof. unfold inbox_claim. keeps. by apply keeps_modify. Qed.
Lemma forward_outbox b c : Keeps same_forward (outbox_append b c).
Proof. unfold outbox_append. keeps. by apply keeps_modify. Qed.
End footprints.

#[export] Hint Resolve forward_record_attempt_started forward_record_attempt_outcome
  forward_mark_entries forward_schedule forward_cancel forward_complete forward_conflict
  forward_inbox forward_outbox : saga.

(** What a patch may write without a participant's word for it: no settled
    forward verdict and no compensation success. *)
Definition unsettled (f : StepForwardStatus) : Prop :=
  f = Forward_Pending ∨ f = Forward_Unknown ∨ f = Forward_TimedOut.

Definition plain (patch : StepJournalPatch) : Prop :=
  (∀ f, patch_forward_status patch = Some f → unsettled f) ∧
  patch_compensation_status patch ≠ Some Comp_Succeeded.

(** What a result is evidence for: the forward verdict and the compensation it
    may settle. *)
Definition result_forward (phase : StepPhase) (s : StepAttemptStatus) (t : option StepForwardStatus)
    : option StepForwardStatus :=
  match phase, s with
  | (Execute | Resolve), Attempt_Succeeded => Some Forward_Succeeded
  | (Execute | Resolve), Attempt_Rejected => Some Forward_Rejected
  | (Execute | Resolve), Attempt_Halted => Some Forward_Halted
  | SagaIdentity.Cancel, Attempt_CancelConfirmed => Some Forward_Cancelled
  | SagaIdentity.Cancel, Attempt_AlreadyTerminal => t
  | _, _ => None
  end.

Definition result_compensates (phase : StepPhase) (s : StepAttemptStatus) : bool :=
  match phase, s with (Compensate | Resolve), Attempt_Succeeded => true | _, _ => false end.

Definition evidenced (phase : StepPhase) (s : StepAttemptStatus) (t : option StepForwardStatus)
    (patch : StepJournalPatch) : Prop :=
  (∀ f, patch_forward_status patch = Some f → unsettled f ∨ result_forward phase s t = Some f) ∧
  (patch_compensation_status patch = Some Comp_Succeeded → result_compensates phase s = true).

Lemma plain_evidenced phase s t patch : plain patch → evidenced phase s t patch.
Proof. intros [Hf Hc]. split; [auto|done]. Qed.

(** The interface between the store and the handlers: a relation that every
    store operation keeps, patches of the step journal as far as [ok] admits
    them.  A handler keeps it too, whatever it does in between. *)
Class StoreKeeps `{Runtime} (ok : StepName → StepJournalPatch → Prop) (R : Db → Db → Prop) : Prop := {
  closed_preorder :: PreOrder R;
  closed_update_step step patch : ok step patch → Keeps R (update_step_journal step patch);
  closed_started step phase attempt e c : Keeps R (record_attempt_started step phase attempt e c);
  closed_outcome step phase attempt st ev : Keeps R (record_attempt_outcome step phase attempt st ev);
  closed_mark version entries : Keeps R (mark_entries version entries);
  closed_schedule spec : Keeps R (store_schedule_timer spec);
  closed_cancel scope kind : Keeps R (cancel_scope_timers scope kind);
  closed_complete id token now : Keeps R (complete_timer id token now);
  closed_claim picked owner token now lease limit :
    Keeps R (claim_due_timers picked owner token now lease limit);
  closed_release id token now at_ms : Keeps R (release_timer id token now at_ms);
  closed_conflict fact : Keeps R (record_attempt_conflict fact);
  closed_inbox id : Keeps R (inbox_claim id);
  closed_outbox b c : Keeps R (outbox_append b c);
  closed_advance saga v from spec : Keeps R (store_advance saga v from spec);
  closed_create others spec : Keeps R (create_instance others spec);
  closed_register definition : Keeps R (register_steps definition);
  closed_control spec : Keeps R (set_control_state spec);
  closed_audit op action actor reason : Keeps R (record_management_operation op action actor reason);
  closed_reopen audited hit patch message :
    plain patch → (∀ row, forward_view (patch_row patch row) = forward_view row) →
    Keeps R (reopen audited hit patch message);
  closed_wake : Keeps R wake_saga_timers
}.

(** The relation says nothing of the quota ledger, which other sagas move. *)
Class LedgerFree `{Runtime} (R : Db → Db → Prop) : Prop :=
  ledger_free db ledger : R db (set_quota ledger db).

(** Any patch whatever. *)
Abbreviation StoreClosed := (StoreKeeps (λ _ _, True)).

(** The handlers' own patches are admitted. *)
Class Permits (ok : StepName → StepJournalPatch → Prop) : Prop :=
  permits_plain step patch : plain patch → ok step patch.

#[export] Instance permits_all : Permits (λ _ _, True).
Proof. done. Qed.

#[export] Hint Extern 1 (plain _) =>
  split; [intros ? Hx; simpl in Hx; repeat case_match; simplify_eq; unfold unsettled; by auto|done] : saga.

#[export] Hint Resolve closed_started closed_outcome closed_mark closed_schedule
  closed_cancel closed_complete closed_claim closed_release closed_conflict closed_inbox closed_outbox closed_advance
  closed_create closed_register closed_control closed_audit closed_wake : saga.

(** ** Advancing the instance *)

Section follows.
Context `{Runtime}.

Definition logged (spec : TransitionSpec) (from : SagaStatus) (version : Z) : TransitionRow :=
  {| transition_seq := version; from_state := Some from; to_state := to_status spec;
     transition_trigger_kind := trigger_kind spec; transition_trigger_id := trigger_id spec;
     transition_definition_version := spec_definition_version spec |}.

(** The ledger when a saga's status becomes [s]. *)
Definition quota_after (i : SagaInstanceRow) (s : SagaStatus) (ledger : QuotaLedger) : QuotaLedger :=
  if SagaStatus_is_terminal s then release_in_flight (inst_tenant i) ledger else ledger.

(** What the driver decodes is what the query answered. *)
Lemma decode_present_Ok present b : decode_present present = Ok b → b = present.
Proof.
  unfold decode_present. intros (v & ->%ok_or_Ok%try_get_i64_exact & [= <-])%result_bind_Ok.
  by destruct present.
Qed.

Lemma keeps_guard from spec db g db' : advance_guard from spec db = Ok (g, db') → db' = db.
Proof.
  unfold advance_guard, store_any_compensation_succeeded, store_manual_close_audited.
  repeat case_match; intros Hg; by inv_tx.
Qed.

Lemma released i s db db' :
  (if SagaStatus_is_terminal s then release_tenant_quota (inst_saga_id i) else ret tt) db = Ok (tt, db') →
  (∃ i', db_instance db = Some i' ∧ inst_saga_id i' = inst_saga_id i ∧ inst_tenant i' = inst_tenant i) →
  db' = set_quota (quota_after i s (db_quota db)) db.
Proof.
  unfold quota_after, release_tenant_quota. intros Hr (i' & Hi & Hid & Ht).
  destruct (SagaStatus_is_terminal s); injection Hr as <-; [|by destruct db].
  by rewrite Hi, bool_decide_eq_true_2, Ht.
Qed.

Lemma store_advance_spec saga v from spec db out db' :
  store_advance saga v from spec db = Ok (out, db') →
  match out with
  | Cas_Applied nv =>
      ∃ i, db_instance db = Some i ∧ inst_saga_id i = saga ∧ inst_version i = v ∧
        inst_status i = from ∧ inst_control_state i = Active ∧
        existsb (same_trigger (trigger_kind spec) (trigger_id spec)) (db_transitions db) = false ∧
        nv = v + 1 ∧ saga_step from (to_status spec) ∧
        db' = set_quota (quota_after i (to_status spec) (db_quota db))
                (set_transitions (db_transitions db ++ [logged spec from nv])
                   (set_instance (advance_row i spec) db))
  | Cas_DuplicateTrigger =>
      db' = db ∧ existsb (same_trigger (trigger_kind spec) (trigger_id spec)) (db_transitions db) = true
  | Cas_Conflict => db' = db
  end.
Proof.
  unfold store_advance. intros Ho.
  apply bind_Ok in Ho as (? & ? & [_ ->]%lift_Ok & Ho).
  apply bind_Ok in Ho as (? & ? & [_ ->]%lift_Ok & Ho).
  apply bind_Ok in Ho as (? & ? & [_ ->]%lift_Ok & Ho).
  apply bind_Ok in Ho as (guard & ? & ->%keeps_guard & Ho).
  apply bind_Ok in Ho as ([] & ? & [Hck ->]%lift_Ok & Ho). apply map_err_Ok in Hck.
  apply bind_Ok in Ho as (nv & ? & [Hnv ->]%lift_Ok & Ho).
  apply bind_Ok in Ho as (? & ? & [_ ->]%lift_Ok & Ho).
  apply bind_Ok in Ho as (db1 & db2 & [= <- <-] & Ho). unfold id in Ho.
  destruct (db_instance db) as [i|] eqn:Hi; [|by injection Ho as <- <-].
  destruct (advance_matches db saga v from spec i) eqn:Hm.
  - unfold advance_matches in Hm. rewrite !andb_true_iff, !bool_decide_eq_true, Z.eqb_eq, negb_true_iff in Hm.
    destruct Hm as ((((<- & <-) & <-) & Hact) & Htr).
    apply bind_Ok in Ho as (? & db3 & [= <- <-] & Ho).
    apply bind_Ok in Ho as (? & ? & [_ ->]%lift_Ok & Ho).
    destruct (negb _); [|done].
    apply bind_Ok in Ho as (? & db4 & [= <- <-] & Ho).
    apply bind_Ok in Ho as ([] & db5 & Hq & Ho). injection Ho as <- <-.
    apply released in Hq; [|by exists (advance_row i spec)].
    apply ok_or_Ok in Hnv. unfold u64_checked_add in Hnv. case_match; simplify_eq.
    exists i. split_and!; [done| done | done | done | done | done | done | by econstructor |].
    done.
  - injection Ho as <- <-. by destruct (existsb _ (db_transitions db)) eqn:E.
Qed.

(** The version it leads to is a BIGINT. *)
Lemma advance_version_bounded saga v from spec db nv db' :
  store_advance saga v from spec db = Ok (Cas_Applied nv, db') → nv ≤ I64_MAX.
Proof.
  unfold store_advance. intros Ho.
  do 3 (apply bind_Ok in Ho as (? & ? & [_ ->]%lift_Ok & Ho)).
  apply bind_Ok in Ho as (guard & ? & ->%keeps_guard & Ho).
  do 3 (apply bind_Ok in Ho as (? & ? & [_ ->]%lift_Ok & Ho)).
  apply bind_Ok in Ho as (db1 & db2 & [= <- <-] & Ho). unfold id in Ho.
  destruct (db_instance db) as [i|]; [|done].
  destruct (advance_matches _ _ _ _ _ _); [|by destruct (existsb _ _)].
  apply bind_Ok in Ho as (? & ? & _ & Ho). apply bind_Ok in Ho as (? & ? & [Hv _]%lift_Ok & Ho).
  destruct (negb _); [|done]. inv_tx. simplify_eq. unfold pg_u64 in Hv.
  destruct (_ <=? I64_MAX) eqn:E; [by apply Z.leb_le|done].
Qed.

(** A log of transitions from one status to another: each starts where the one
    before ended and is allowed by [check_transition]. *)
Fixpoint chained (s : SagaStatus) (log : list TransitionRow) (s' : SagaStatus) : Prop :=
  match log with
  | [] => s' = s
  | t :: log => from_state t = Some s ∧ saga_step s (to_state t) ∧ chained (to_state t) log s'
  end.

(** A log of control transitions: the state alternates, numbered by the control
    version it leads to. *)
Fixpoint toggled (c : ControlState) (v : Z) (log : list ControlRow) (c' : ControlState) (v' : Z)
    : Prop :=
  match log with
  | [] => c' = c ∧ v' = v
  | t :: log =>
      control_from t = c ∧ control_to t ≠ c ∧ control_seq t = v + 1 ∧
      toggled (control_to t) (v + 1) log c' v'
  end.

Lemma chained_app s l t k u : chained s l t → chained t k u → chained s (l ++ k) u.
Proof. revert s. induction l as [|r l IH]; simpl; intros s; [by intros ->|]. naive_solver. Qed.

Lemma chained_path s l t : chained s l t → saga_path s (map to_state l) t.
Proof.
  revert s. induction l as [|r l IH]; simpl; intros s; [intros ->; constructor|].
  intros (_ & Hs & Hl). econstructor; eauto.
Qed.

Lemma toggled_app c v l c1 v1 k c2 v2 :
  toggled c v l c1 v1 → toggled c1 v1 k c2 v2 → toggled c v (l ++ k) c2 v2.
Proof. revert c v. induction l as [|r l IH]; simpl; intros c v; [by intros [-> ->]|]. naive_solver. Qed.

Lemma toggled_version c v l c' v' : toggled c v l c' v' → v' = v + Z.of_nat (length l).
Proof.
  revert c v. induction l as [|r l IH]; simpl; intros c v; [intros [_ ->]; lia|].
  intros (_ & _ & _ & ->%IH). lia.
Qed.

(** What is fixed when a saga is created. *)
Definition contract_of (i : SagaInstanceRow) :=
  (inst_saga_id i, inst_tenant i, inst_workflow i, inst_business_key i, inst_definition_version i,
   inst_definition_digest i, inst_start_request_digest i, inst_deadline_at_ms i).

(** A committed run from one instance row to another, with its two logs. *)
Record continues (i : SagaInstanceRow) (log : list TransitionRow) (controls : list ControlRow)
    (i' : SagaInstanceRow) : Prop := {
  run_log : chained (inst_status i) log (inst_status i');
  run_seq : map transition_seq log = seqZ (inst_version i + 1) (Z.of_nat (length log));
  run_version : inst_version i' = inst_version i + Z.of_nat (length log);
  run_controls : toggled (inst_control_state i) (inst_control_version i) controls
                   (inst_control_state i') (inst_control_version i');
  run_contract : contract_of i' = contract_of i;
  run_still : log = [] → controls = [] → i' = i;
  run_active : controls = [] → inst_control_state i = Active ∨ log = []
}.

Lemma continues_refl i : continues i [] [] i.
Proof. split; simpl; auto. lia. Qed.

Lemma continues_trans i l1 c1 j l2 c2 k :
  continues i l1 c1 j → continues j l2 c2 k → continues i (l1 ++ l2) (c1 ++ c2) k.
Proof.
  intros [L1 S1 V1 C1 K1 E1 A1] [L2 S2 V2 C2 K2 E2 A2]. split.
  - by eapply chained_app.
  - rewrite map_app, S1, S2, V1, length_app, Nat2Z.inj_add, seqZ_app by lia. do 2 f_equal. lia.
  - rewrite length_app. lia.
  - by eapply toggled_app.
  - congruence.
  - intros [-> ->]%app_nil [-> ->]%app_nil. by rewrite E2, E1.
  - intros [-> ->]%app_nil. destruct (A1 eq_refl) as [?| ->]; [by left|]. rewrite E1 in A2 by done.
    destruct (A2 eq_refl) as [?| ->]; auto.
Qed.

(** The rows continue those before; an instance may be created, once. *)
Definition follows (db db' : Db) : Prop :=
  match db_instance db, db_instance db' with
  | Some i, Some i' =>
      ∃ log controls, db_transitions db' = db_transitions db ++ log ∧
        db_controls db' = db_controls db ++ controls ∧ continues i log controls i'
  | None, Some i' =>
      ∃ spec log controls, db_transitions db' = db_transitions db ++ first_transition spec :: log ∧
        db_controls db' = db_controls db ++ controls ∧ continues (new_row spec) log controls i'
  | None, None => db_transitions db' = db_transitions db ∧ db_controls db' = db_controls db
  | Some _, None => False
  end.

Lemma same_rows_follows db db' : same_rows db db' → follows db db'.
Proof.
  intros (Hi & Ht & Hc). unfold follows. rewrite Hi. destruct (db_instance db) as [i|]; [|done].
  exists [], []. rewrite !app_nil_r. split_and!; [done..|apply continues_refl].
Qed.

Lemma same_core_follows db db' : same_core db db' → follows db db'.
Proof. intros Hs. by apply same_rows_follows, same_core_rows. Qed.

#[export] Instance follows_ledger_free : LedgerFree follows.
Proof. intros db ledger. by apply same_rows_follows. Qed.

#[global] Instance follows_preorder : PreOrder follows.
Proof.
  split; [intros db; by apply same_core_follows|].
  intros a b c. unfold follows.
  destruct (db_instance a) as [i|], (db_instance b) as [j|], (db_instance c) as [k|]; try done.
  - intros (l1 & c1 & -> & -> & R1) (l2 & c2 & -> & -> & R2). exists (l1 ++ l2), (c1 ++ c2).
    rewrite !app_assoc. split_and!; [done..|by eapply continues_trans].
  - intros (spec & l1 & c1 & -> & -> & R1) (l2 & c2 & -> & -> & R2).
    exists spec, (l1 ++ l2), (c1 ++ c2). rewrite app_comm_cons, !app_assoc.
    split_and!; [done..|by eapply continues_trans].
  - intros [-> ->]. done.
  - intros [-> ->] [-> ->]. done.
Qed.

Lemma follows_store_advance saga v from spec : Keeps follows (store_advance saga v from spec).
Proof.
  intros db out db' Ho%store_advance_spec. destruct out; [|by subst|by destruct Ho as [-> _]].
  destruct Ho as (i & Hi & Hs & <- & <- & Hact & _ & -> & Hst & ->).
  unfold follows. simpl. rewrite Hi. eexists [_], []. rewrite app_nil_r. split_and!; [done..|].
  split; simpl; auto; done.
Qed.

(** A control transition that was applied. *)
Lemma set_control_spec spec db out db' :
  set_control_state spec db = Ok (out, db') →
  match out with
  | Control_Applied =>
      find_first (has_operation (ctl_operation_id spec)) (db_controls db) = None ∧
      ∃ i, db_instance db = Some i ∧ inst_saga_id i = ctl_saga_id spec ∧
        inst_control_state i = ctl_from spec ∧ ctl_from spec ≠ ctl_to spec ∧
        inst_control_version i + 1 ≤ I64_MAX ∧
        db' = set_controls (db_controls db ++ [control_logged spec (inst_control_version i + 1)])
                (set_instance (control_row i (ctl_to spec)) db)
  | Control_AlreadyApplied =>
      db' = db ∧ ∃ prior, find_first (has_operation (ctl_operation_id spec)) (db_controls db) = Some prior ∧
        same_control spec prior = true
  | Control_Conflict => db' = db
  end.
Proof.
  unfold set_control_state. intros Ho.
  destruct (negb (bool_decide (ctl_from spec = _))) eqn:Hd; [|done]. destruct (negb (_ || _)); [|done].
  do 3 (apply bind_Ok in Ho as (? & ? & [_ ->]%lift_Ok & Ho)).
  apply bind_Ok in Ho as (controls & ? & [= <- <-] & Ho).
  destruct (find_first _ _) as [prior|] eqn:Hf.
  { destruct (same_control spec prior) eqn:Hs; [|done]. injection Ho as <- <-. eauto. }
  do 2 (apply bind_Ok in Ho as (? & ? & [_ ->]%lift_Ok & Ho)).
  apply bind_Ok in Ho as (i & ? & [= <- <-] & Ho).
  destruct (db_instance db) as [i|] eqn:Hi; [|by injection Ho as <- <-].
  destruct (control_matches spec i) eqn:Hm; [|by injection Ho as <- <-].
  unfold control_matches in Hm. rewrite !andb_true_iff, !bool_decide_eq_true, !Z.eqb_eq in Hm.
  destruct Hm as [[[Hid _] Hv] Hc].
  apply bind_Ok in Ho as (? & db1 & [= <- <-] & Ho).
  apply bind_Ok in Ho as (seq & ? & [Hseq%ok_or_Ok ->]%lift_Ok & Ho).
  apply bind_Ok in Ho as (? & ? & [Hpg ->]%lift_Ok & Ho).
  destruct (negb (existsb _ _)); [|done].
  apply bind_Ok in Ho as (? & db2 & [= <- <-] & Ho). injection Ho as <- <-.
  unfold u64_checked_add in Hseq. case_match; simplify_eq. rewrite <- Hv in *.
  unfold pg_u64 in Hpg. destruct (_ <=? _) eqn:Hle; [|done].
  split; [done|]. exists i. apply negb_true_iff, bool_decide_eq_false in Hd. split_and!; try done. lia.
Qed.

Lemma follows_control spec : Keeps follows (set_control_state spec).
Proof.
  intros db out db' Ho%set_control_spec. destruct out; [|by destruct Ho as [-> _]|by subst].
  destruct Ho as (_ & i & Hi & Hid & Hc & Hne & _ & ->). unfold follows. simpl. rewrite Hi.
  eexists [], [_]. rewrite app_nil_r. split_and!; [done..|]. split; simpl; auto; try done.
  - lia.
  - rewrite Hc. split_and!; auto.
Qed.

(** A creation made the instance and its first transition, or nothing. *)
Lemma create_spec others spec db out db' :
  create_instance others spec db = Ok (out, db') →
  match out with
  | Created row =>
      row = new_row spec ∧ db_instance db = None ∧
      existsb (same_trigger (new_trigger_kind spec) (new_trigger_id spec)) (db_transitions db) = false ∧
      db' = set_transitions (db_transitions db ++ [first_transition spec])
              (set_instance (new_row spec) db)
  | Existing row =>
      db' = db ∧ same_business spec row = true ∧ same_request spec row = true ∧
      (db_instance db = Some row ∨ row ∈ others)
  end.
Proof.
  unfold create_instance. intros Ho.
  do 5 (apply bind_Ok in Ho as (? & ? & [_ ->]%lift_Ok & Ho)).
  apply bind_Ok in Ho as (by_id & ? & Hl & Ho). unfold load_instance in Hl. injection Hl as Hl <-.
  unfold accept_existing in Ho. destruct by_id as [row|].
  { destruct (same_business spec row) eqn:Hb; [|done]. destruct (same_request spec row) eqn:Hr; [|done].
    injection Ho as <- <-. destruct (db_instance db); [|done]. case_bool_decide; simplify_eq. auto. }
  destruct (find_first _ others) as [row|] eqn:Hf.
  { apply find_first_Some in Hf as [Hin Hb]. destruct (same_request spec row) eqn:Hr; [|done].
    injection Ho as <- <-. auto. }
  apply bind_Ok in Ho as (held & ? & [= <- <-] & Ho). case_bool_decide as Hn; [|done].
  apply bind_Ok in Ho as (log & ? & [= <- <-] & Ho). destruct (negb _) eqn:Hfresh; [|done].
  apply bind_Ok in Ho as (? & ? & [= <- <-] & Ho). apply bind_Ok in Ho as (? & ? & [= <- <-] & Ho).
  injection Ho as <- <-. split_and!; [done..| |done].
  apply negb_true_iff in Hfresh. apply not_true_iff_false. apply not_true_iff_false in Hfresh.
  contradict Hfresh. apply existsb_elem_of in Hfresh as (t & Ht & Hs). apply existsb_elem_of.
  exists t. split; [done|]. by rewrite Hs, orb_true_r.
Qed.

Lemma follows_create others spec : Keeps follows (create_instance others spec).
Proof.
  intros db out db' Ho%create_spec. destruct out; [|by destruct Ho as [-> _]].
  destruct Ho as (_ & Hn & _ & ->). unfold follows. simpl. rewrite Hn.
  exists spec, [], []. rewrite app_nil_r. split_and!; [done..|apply continues_refl].
Qed.
End follows.

(** *** Everything else leaves the instance and its logs alone *)

Section core.
Context `{Runtime}.

Lemma core_update_step step patch : Keeps same_core (update_step_journal step patch).
Proof. unfold update_step_journal, load_steps. keeps. by apply keeps_modify. Qed.
Lemma core_started step phase attempt e c :
  Keeps same_core (record_attempt_started step phase attempt e c).
Proof. unfold record_attempt_started. keeps; by apply keeps_modify. Qed.
Lemma core_outcome step phase attempt st ev :
  Keeps same_core (record_attempt_outcome step phase attempt st ev).
Proof. unfold record_attempt_outcome. keeps. by apply keeps_modify. Qed.
Lemma core_mark version entries : Keeps same_core (mark_entries version entries).
Proof. induction entries; simpl; unfold load_steps; keeps. by apply keeps_modify. Qed.
Lemma core_schedule spec : Keeps same_core (store_schedule_timer spec).
Proof. unfold store_schedule_timer. keeps. by apply keeps_modify. Qed.
Lemma core_cancel scope kind : Keeps same_core (cancel_scope_timers scope kind).
Proof. unfold cancel_scope_timers. keeps. by apply keeps_modify. Qed.
Lemma core_complete id token now : Keeps same_core (complete_timer id token now).
Proof. unfold complete_timer. keeps. by apply keeps_modify. Qed.
Lemma core_claim picked owner token now lease limit :
  Keeps same_core (claim_due_timers picked owner token now lease limit).
Proof. unfold claim_due_timers. keeps. by apply keeps_modify. Qed.
Lemma core_release id token now at_ms : Keeps same_core (release_timer id token now at_ms).
Proof. unfold release_timer. keeps. by apply keeps_modify. Qed.
Lemma core_conflict fact : Keeps same_core (record_attempt_conflict fact).
Proof. unfold record_attempt_conflict. keeps. by apply keeps_modify. Qed.
Lemma core_inbox id : Keeps same_core (inbox_claim id).
Proof. unfold inbox_claim. keeps. by apply keeps_modify. Qed.
Lemma core_outbox b c : Keeps same_core (outbox_append b c).
Proof. unfold outbox_append. keeps. by apply keeps_modify. Qed.
Lemma core_register definition : Keeps same_core (register_steps definition).
Proof. by apply keeps_modify. Qed.
Lemma core_audit op action actor reason :
  Keeps same_core (record_management_operation op action actor reason).
Proof. unfold record_management_operation. keeps. by apply keeps_modify. Qed.
Lemma core_reopen audited hit patch message : Keeps same_core (reopen audited hit patch message).
Proof. unfold reopen, load_steps. keeps. by apply keeps_modify. Qed.
Lemma core_wake : Keeps same_core wake_saga_timers.
Proof. unfold wake_saga_timers. keeps. by apply keeps_modify. Qed.
#[local] Hint Resolve core_update_step core_started core_outcome core_mark core_schedule core_cancel
  core_complete core_claim core_release core_conflict core_inbox core_outbox core_register core_audit
  core_reopen core_wake : saga.

(** So a relation on the instance and its logs is decided by three operations. *)
Lemma closed_of_core (R : Db → Db → Prop) `{!PreOrder R} :
  (∀ db db', same_core db db' → R db db') →
  (∀ saga v from spec, Keeps R (store_advance saga v from spec)) →
  (∀ others spec, Keeps R (create_instance others spec)) →
  (∀ spec, Keeps R (set_control_state spec)) → StoreClosed R.
Proof.
  intros Hc Ha Hn Hs.
  assert (∀ A (c : Tx A), Keeps same_core c → Keeps R c) as Hk
    by (intros A c Hk db x db' Hr; by eapply Hc, Hk).
  split; auto with saga.
Qed.

#[export] Instance follows_closed : StoreClosed follows.
Proof.
  apply closed_of_core; [exact _|apply same_core_follows|apply follows_store_advance|
    apply follows_create|apply follows_control].
Qed.
End core.

#[export] Hint Resolve core_update_step core_started core_outcome core_mark core_schedule core_cancel
  core_complete core_claim core_release core_conflict core_inbox core_outbox core_register core_audit
  core_reopen core_wake : saga.

(** ** Handlers keep what the store keeps *)

Section handlers.
Context `{HR : Runtime} (self : Orchestrator) (R : Db → Db → Prop).
Context {ok : StepName → StepJournalPatch → Prop} `{!StoreKeeps ok R} `{!Permits ok}.

(** The patches the result [ctx] is evidence for are admitted. *)
Definition vouched (ctx : ResultContext) : Prop :=
  ∀ patch, evidenced (vid_phase (ctx_identity ctx)) (ctx_status ctx) (ctx_terminal ctx) patch →
    ok (vid_step (ctx_identity ctx)) patch.

Lemma keeps_patch_step step patch : plain patch → Keeps R (patch_step step patch).
Proof. intros Hp. by apply closed_update_step, permits_plain. Qed.
Lemma keeps_vouched ctx patch :
  vouched ctx → evidenced (vid_phase (ctx_identity ctx)) (ctx_status ctx) (ctx_terminal ctx) patch →
  Keeps R (patch_step (vid_step (ctx_identity ctx)) patch).
Proof. intros Hv Hp. by apply closed_update_step, Hv. Qed.
Lemma keeps_load_attempts step : Keeps R (load_attempts step).
Proof. unfold load_attempts. keeps. Qed.
Lemma keeps_next_attempt step phase : Keeps R (next_attempt step phase).
Proof. unfold next_attempt, load_attempts. keeps. Qed.
Lemma keeps_count step d : Keeps R (count_resolution_attempts step d).
Proof. unfold count_resolution_attempts, load_attempts. keeps. Qed.
Lemma keeps_schedule_timer saga scope kind attempt due v :
  Keeps R (schedule_timer saga scope kind attempt due v).
Proof. unfold schedule_timer. keeps. Qed.
Lemma keeps_cancel_resolution step : Keeps R (cancel_resolution_timers step).
Proof. unfold cancel_resolution_timers. keeps. Qed.
Lemma keeps_mark plan : Keeps R (mark_compensation_plan plan).
Proof. apply closed_mark. Qed.
#[local] Hint Resolve keeps_patch_step keeps_load_attempts keeps_next_attempt keeps_count
  keeps_schedule_timer keeps_cancel_resolution keeps_mark : saga.

Lemma keeps_issue_command i sd phase attempt p o now v :
  Keeps R (issue_command self i sd phase attempt p o now v).
Proof. unfold issue_command. keeps. Qed.
Lemma keeps_verify_completion saga v : Keeps R (verify_compensation_completion self saga v).
Proof. unfold verify_compensation_completion, load_instance, load_steps. keeps. Qed.
#[local] Hint Resolve keeps_issue_command keeps_verify_completion : saga.

Lemma keeps_advance i to d cs k t f p : Keeps R (advance i to d cs k t f p).
Proof. unfold advance, advance_from. keeps. Qed.
#[local] Hint Resolve keeps_advance : saga.
Lemma keeps_escalate i k t f : Keeps R (escalate_manual i k t f).
Proof. unfold escalate_manual. keeps. Qed.
#[local] Hint Resolve keeps_escalate : saga.
Lemma keeps_converge saga v k c : Keeps R (converge_compensated_at self saga v k c).
Proof. unfold converge_compensated_at. keeps. Qed.
#[local] Hint Resolve keeps_converge : saga.
Lemma keeps_proceed ctx : Keeps R (proceed_forward self ctx).
Proof. unfold proceed_forward, load_steps. keeps. Qed.
Lemma keeps_enter ctx : Keeps R (enter_compensation self ctx).
Proof. unfold enter_compensation, load_steps, converge_compensated. keeps. Qed.
Lemma keeps_continue ctx : Keeps R (continue_compensation self ctx).
Proof. unfold continue_compensation, load_steps. keeps. Qed.
Lemma keeps_waiting ctx d : Keeps R (enter_waiting_resolution self ctx d).
Proof. unfold enter_waiting_resolution. keeps. Qed.
Lemma keeps_reissue ctx : Keeps R (reissue_resolve self ctx).
Proof. unfold reissue_resolve. keeps. Qed.
Lemma keeps_keep_conflict ctx row : Keeps R (keep_conflict ctx row).
Proof. unfold keep_conflict. keeps. Qed.
#[local] Hint Resolve keeps_proceed keeps_enter keeps_continue keeps_waiting keeps_reissue
  keeps_keep_conflict : saga.
(** A merge writes what the patch writes or less. *)
Lemma merge_forward_some (row : SagaStepRow) patch merged f :
  merge_deferred_projection row patch = Some merged → patch_forward_status merged = Some f →
  patch_forward_status patch = Some f ∧ row_forward_status row ≠ f.
Proof.
  unfold merge_deferred_projection, merge_field, merge_forward. intros Hm Hf.
  destruct (patch_forward_status patch) as [g|]; [case_bool_decide|]; repeat case_match; simplify_eq;
    simpl in Hf; simplify_eq; (split; [done|congruence]).
Qed.
Lemma merge_compensation_some (row : SagaStepRow) patch merged c :
  merge_deferred_projection row patch = Some merged → patch_compensation_status merged = Some c →
  patch_compensation_status patch = Some c ∧ row_compensation_status row ≠ c.
Proof.
  unfold merge_deferred_projection, merge_field, merge_compensation. intros Hm Hf.
  destruct (patch_compensation_status patch) as [g|]; [case_bool_decide|]; repeat case_match; simplify_eq;
    simpl in Hf; simplify_eq; (split; [done|congruence]).
Qed.
Lemma merge_evidenced phase s t (row : SagaStepRow) patch merged :
  merge_deferred_projection row patch = Some merged → evidenced phase s t patch →
  evidenced phase s t merged.
Proof.
  intros Hm [Hf Hc]. split.
  - intros f Hx. eapply Hf. by eapply merge_forward_some.
  - intros Hx. by eapply Hc, merge_compensation_some.
Qed.

Lemma deferred_patch_evidenced ctx patch kind :
  deferred_patch ctx = Ok (patch, kind) →
  evidenced (vid_phase (ctx_identity ctx)) (ctx_status ctx) (ctx_terminal ctx) patch.
Proof.
  unfold deferred_patch, evidenced, unsettled.
  destruct (vid_phase _), (ctx_status ctx), (inst_direction (ctx_instance ctx)); intros [= <- <-];
    simpl; naive_solver.
Qed.

Lemma keeps_deferred ctx : vouched ctx → Keeps R (project_deferred_result ctx).
Proof.
  intros Hv. unfold project_deferred_result, load_steps.
  do 2 (apply keeps_bind; [exact _|keeps|intros ?]). destruct (negb _); [keeps|].
  intros db out db' ([patch kind] & ? & [Hb ->]%lift_Ok & Hr)%bind_Ok. revert Hr.
  apply deferred_patch_evidenced in Hb. simpl.
  destruct (if resolve_after_compensation_success _ _ _ then _ else _) as [merged|] eqn:E;
    [|apply (keeps_keep_conflict ctx)].
  destruct (resolve_after_compensation_success _ _ _); [done|].
  apply (merge_evidenced _ _ _ _ _ _ E) in Hb. revert db out db'.
  pose proof (keeps_vouched ctx merged Hv Hb). keeps.
Qed.
#[local] Hint Resolve keeps_deferred : saga.

(** The projection, as far as the row it merges into allows. *)
Lemma unless_frozen_keeps ctx patch k db x db' :
  (∀ row merged, find_row (vid_step (ctx_identity ctx)) (db_steps db) = Some row →
     merge_deferred_projection row patch = Some merged →
     Keeps R (patch_step (vid_step (ctx_identity ctx)) merged)) →
  Keeps R k → unless_frozen ctx patch k db = Ok (x, db') → R db db'.
Proof.
  intros Hm Hk. unfold unless_frozen, apply_monotonic_projection, load_steps.
  intros (frozen & db1 & (steps & ? & [= <- <-] & Ha)%bind_Ok & Hr)%bind_Ok.
  apply bind_Ok in Ha as (row & ? & [Hrow%ok_or_Ok ->]%lift_Ok & Ha). specialize (Hm row).
  destruct (if resolve_after_compensation_success _ _ _ then _ else _) as [merged|] eqn:E.
  - destruct (resolve_after_compensation_success _ _ _); [done|]. specialize (Hm merged Hrow E).
    apply bind_Ok in Ha as ([] & db2 & Hp & [= <- <-]). etrans; [by eapply Hm|]. by eapply Hk.
  - apply bind_Ok in Ha as (s & db2 & Hc & [= <- <-]). injection Hr as <- <-.
    by eapply (keeps_keep_conflict ctx row).
Qed.

Lemma keeps_unless_frozen ctx patch k :
  vouched ctx → evidenced (vid_phase (ctx_identity ctx)) (ctx_status ctx) (ctx_terminal ctx) patch →
  Keeps R k → Keeps R (unless_frozen ctx patch k).
Proof.
  intros Hv Hp Hk db x db'. apply unless_frozen_keeps; [|done]. intros row merged _ Hm.
  apply keeps_vouched; [done|]. by eapply merge_evidenced.
Qed.

(** The result is evidence for the patches its phase and status call for. *)
Ltac evidence :=
  match goal with
  | Hph : vid_phase _ = _, Hs : ctx_status _ = _ |- _ =>
      rewrite Hph, Hs; split; simpl; unfold unsettled; naive_solver
  end.
#[local] Hint Extern 1 (Keeps R (patch_step (vid_step (ctx_identity _)) _)) =>
  apply keeps_vouched; [assumption|evidence] : saga.

Lemma keeps_execute ctx :
  vid_phase (ctx_identity ctx) = Execute → vouched ctx → Keeps R (on_execute_result self ctx).
Proof.
  intros Hph Hv. unfold on_execute_result. destruct (is_late _ _); [by apply keeps_deferred|].
  destruct (ctx_status ctx) eqn:Hs; keeps.
Qed.
Lemma keeps_cancel_result ctx :
  vid_phase (ctx_identity ctx) = SagaIdentity.Cancel → vouched ctx → Keeps R (on_cancel_result self ctx).
Proof.
  intros Hph Hv. unfold on_cancel_result. destruct (is_late _ _); [by apply keeps_deferred|].
  destruct (ctx_status ctx) eqn:Hs; try (by keeps).
  - apply keeps_unless_frozen; [done|evidence|keeps].
  - intros db x db' (terminal & ? & [Ht%ok_or_Ok ->]%lift_Ok & Hr)%bind_Ok. revert Hr.
    apply keeps_unless_frozen; [done|evidence|keeps].
  - apply keeps_unless_frozen; [done|evidence|keeps].
Qed.
Lemma keeps_compensate ctx :
  vid_phase (ctx_identity ctx) = Compensate → vouched ctx → Keeps R (on_compensate_result self ctx).
Proof.
  intros Hph Hv. unfold on_compensate_result. destruct (is_late _ _); [by apply keeps_deferred|].
  destruct (ctx_status ctx) eqn:Hs; keeps.
Qed.

(** A success already on the row is not written again. *)
Lemma keeps_settle ctx : Keeps R (settle_resolution_from_committed_success self ctx).
Proof.
  unfold settle_resolution_from_committed_success, load_steps.
  intros db x db' (steps & ? & [= <- <-] & Hr)%bind_Ok.
  apply bind_Ok in Hr as (row & ? & [Hrow%ok_or_Ok ->]%lift_Ok & Hr).
  destruct (inst_direction _); (case_bool_decide as Hs; simpl in Hr; [|injection Hr as <- <-; reflexivity]);
    apply bind_Ok in Hr as (s & db1 & Hu & [= <- <-]); revert Hu;
    (apply unless_frozen_keeps; [|keeps]); intros row' merged Hrow' Hm;
    rewrite Hrow in Hrow'; injection Hrow' as <-; apply keeps_patch_step; (split; [intros f Hf|intros Hc]);
    eapply merge_forward_some in Hf || eapply merge_compensation_some in Hc; try done; naive_solver.
Qed.
#[local] Hint Resolve keeps_settle : saga.
Lemma keeps_resolve ctx :
  vid_phase (ctx_identity ctx) = Resolve → vouched ctx → Keeps R (on_resolve_result self ctx).
Proof.
  intros Hph Hv. unfold on_resolve_result, halt_resolution.
  destruct (is_late _ _); [by apply keeps_deferred|].
  apply keeps_bind; [exact _|apply keeps_settle|intros [s|]; [keeps|]].
  destruct (inst_direction _), (ctx_status ctx) eqn:Hs; try (by keeps);
    (apply keeps_unless_frozen; [done|evidence|keeps]).
Qed.
Lemma keeps_route ctx : vouched ctx → Keeps R (route_result self ctx).
Proof.
  intros Hv. unfold route_result. destruct (vid_phase _) eqn:Hph;
    [by apply keeps_execute|by apply keeps_cancel_result|by apply keeps_compensate|by apply keeps_resolve].
Qed.

(** The result envelope is evidence the store may act on. *)
Definition envelope_vouched (env : SagaResultEnvelope) : Prop :=
  ∀ identity s t patch, SagaResultEnvelope_verified_for_delivery env = Ok identity →
    SagaResultEnvelope_parsed_status env = Ok s → SagaResultEnvelope_parsed_terminal env = Ok t →
    evidenced (vid_phase identity) s t patch → ok (vid_step identity) patch.

Lemma keeps_handle env now auth :
  envelope_vouched env → Keeps R (handle_verified_result self env now auth).
Proof.
  intros Hv. unfold handle_verified_result, load_instance.
  intros db x db' (identity & ? & [Hid ->]%lift_Ok & Hr)%bind_Ok.
  apply bind_Ok in Hr as (s & ? & [Hs%map_err_Ok ->]%lift_Ok & Hr).
  apply bind_Ok in Hr as (t & ? & [Ht%map_err_Ok ->]%lift_Ok & Hr). revert db x db' Hr.
  match goal with |- ∀ db x db', ?c db = _ → _ => change (Keeps R c) end.
  assert (∀ ctx, ctx_identity ctx = identity → ctx_status ctx = s → ctx_terminal ctx = t →
    Keeps R (route_result self ctx)) as Hroute.
  { intros ctx <- <- <-. apply keeps_route. intros patch. by apply Hv. }
  keeps.
Qed.

Lemma keeps_step_timeout i d s t now : Keeps R (on_step_timeout self i d s t now).
Proof. unfold on_step_timeout. keeps. Qed.
Lemma keeps_retry i d s t p st m c now :
  Keeps R (on_phase_retry_timeout self i d s t p st m c now).
Proof. unfold on_phase_retry_timeout. keeps. Qed.
#[local] Hint Resolve keeps_step_timeout keeps_retry : saga.
Lemma keeps_judge i d s t now : Keeps R (judge_timer self i d s t now).
Proof. unfold judge_timer, on_instance_deadline. keeps. Qed.
#[local] Hint Resolve keeps_judge : saga.
Lemma keeps_fire t token now : Keeps R (fire_timer self t token now).
Proof. unfold fire_timer, load_instance. keeps. Qed.
End handlers.

(** ** Evidence is append-only *)

Section evidence.
Context `{Runtime}.

(** An attempt keeps its identity, and once settled it keeps its outcome. *)
Definition attempt_kept (a a' : SagaStepAttemptRow) : Prop :=
  att_step a' = att_step a ∧ att_phase a' = att_phase a ∧ att_attempt a' = att_attempt a ∧
  att_effect_id a' = att_effect_id a ∧ att_command_id a' = att_command_id a ∧
  (att_status a ≠ Attempt_Started → a' = a).

Definition journal_grows (l l' : list SagaStepAttemptRow) : Prop :=
  ∃ kept new, l' = kept ++ new ∧ Forall2 attempt_kept l kept.

Record evidence_kept (db db' : Db) : Prop := {
  kept_transitions : db_transitions db `prefix_of` db_transitions db';
  kept_conflicts : db_conflicts db `prefix_of` db_conflicts db';
  kept_inbox : db_inbox db `prefix_of` db_inbox db';
  kept_outbox : db_outbox db `prefix_of` db_outbox db';
  kept_attempts : journal_grows (db_attempts db) (db_attempts db');
  kept_steps : map (λ r, (row_step r, row_ordinal r)) (db_steps db)
             `prefix_of` map (λ r, (row_step r, row_ordinal r)) (db_steps db');
  kept_controls : db_controls db `prefix_of` db_controls db';
  kept_audits : db_audits db `prefix_of` db_audits db'
}.

#[global] Instance attempt_kept_preorder : PreOrder attempt_kept.
Proof.
  split; [intros a; by split_and!|].
  intros a b c (? & ? & ? & ? & ? & Hab) (? & ? & ? & ? & ? & Hbc).
  split_and!; [congruence..|]. intros Ha. rewrite Hbc; [by apply Hab|]. by rewrite Hab.
Qed.

#[global] Instance journal_grows_preorder : PreOrder journal_grows.
Proof.
  split.
  - intros l. exists l, []. split; [by rewrite app_nil_r|reflexivity].
  - intros a b c (k1 & n1 & -> & H1) (k2 & n2 & -> & H2).
    apply Forall2_app_inv_l in H2 as (k & n & Hk & Hn & ->).
    exists k, (n ++ n2). split; [by rewrite app_assoc|]. by trans k1.
Qed.

#[global] Instance evidence_preorder : PreOrder evidence_kept.
Proof.
  split.
  - intros db. by split.
  - intros a b c [] []. split; etrans; eassumption.
Qed.

Lemma prefix_of_eq {A} (l k : list A) : l = k → l `prefix_of` k.
Proof. by intros ->. Qed.

(** Rows updated in place keep their names. *)
Lemma update_names (hit : SagaStepRow → bool) f l :
  (∀ row, row_step (f row) = row_step row ∧ row_ordinal (f row) = row_ordinal row) →
  map (λ r, (row_step r, row_ordinal r)) l
  `prefix_of` map (λ r, (row_step r, row_ordinal r)) (map (λ row, if hit row then f row else row) l).
Proof.
  intros Hf. rewrite map_map. apply prefix_of_eq, map_ext. intros row. simpl.
  destruct (hit row); [|done]. by destruct (Hf row) as [-> ->].
Qed.

Lemma update_step_names step f l :
  (∀ row, row_step (f row) = row_step row ∧ row_ordinal (f row) = row_ordinal row) →
  map (λ r, (row_step r, row_ordinal r)) l
  `prefix_of` map (λ r, (row_step r, row_ordinal r)) (update_step step f l).
Proof. apply update_names. Qed.

Lemma register_rows_prefix index steps rows : rows `prefix_of` register_rows index steps rows.
Proof.
  revert index rows. induction steps as [|s steps IH]; intros index rows; simpl; [done|].
  etrans; [|apply IH]. destruct (has_step _ _); [done|by apply prefix_app_r].
Qed.

Lemma evidence_read {A B} (f : Db → A) (k : A → Tx B) :
  (∀ db x db', k (f db) db = Ok (x, db') → evidence_kept db db') → Keeps evidence_kept (bind (read f) k).
Proof. intros Hk db x db' (y & db1 & [= <- <-] & Hr)%bind_Ok. by eapply Hk. Qed.

Lemma evidence_outcome step phase attempt st ev :
  Keeps evidence_kept (record_attempt_outcome step phase attempt st ev).
Proof.
  unfold record_attempt_outcome. destruct (negb _); [|keeps]. apply evidence_read.
  intros db x db'. destruct (find_first _ _) as [a|]; [|done].
  destruct (bool_decide (att_status a = Attempt_Started)).
  2:{ destruct (bool_decide (att_status a = st)); apply (keeps_ret evidence_kept). }
  intros ([] & db1 & [= <-] & [= <- <-])%bind_Ok. split; try done. simpl.
  eexists _, []. split; [by rewrite app_nil_r|]. apply Forall2_fmap_r, Forall_Forall2_diag.
  apply Forall_true. intros b. unfold compose. cbn beta.
  destruct (attempt_key step phase attempt b && bool_decide (att_status b = Attempt_Started)) eqn:E;
    [|reflexivity].
  apply andb_true_iff in E as [_ E%bool_decide_eq_true]. by split_and!.
Qed.

Lemma evidence_started step phase attempt e c :
  Keeps evidence_kept (record_attempt_started step phase attempt e c).
Proof.
  unfold record_attempt_started. apply evidence_read. intros db x db'.
  destruct (existsb _ _).
  { destruct (find_first _ _) as [a|]; [|done]. destruct (_ && _); [|done].
    apply (keeps_ret evidence_kept). }
  intros ([] & db1 & [= <-] & ([] & db2 & [= <-] & [= <- <-])%bind_Ok)%bind_Ok.
  split; try done; simpl.
  - eexists _, _. split; [reflexivity|]. reflexivity.
  - apply update_step_names. intros row. by case_match.
Qed.

Lemma evidence_mark version entries : Keeps evidence_kept (mark_entries version entries).
Proof.
  induction entries as [|a entries IH]; simpl; [keeps|]. apply evidence_read. intros db x db'.
  destruct (has_step _ _); [|done]. intros ([] & db1 & [= <-] & Hr)%bind_Ok.
  etrans; [|by eapply IH]. split; try done. by apply update_step_names.
Qed.

#[export] Instance evidence_ledger_free : LedgerFree evidence_kept.
Proof. intros db ledger. split; try done; simpl; reflexivity. Qed.

#[export] Instance evidence_closed : StoreClosed evidence_kept.
Proof.
  split; intros.
  - exact _.
  - unfold update_step_journal. apply keeps_bind; [exact _|keeps|intros []].
    apply evidence_read. intros db x db'.
    destruct (has_step _ _); [|done]. intros [= <- <-]. split; try done. by apply update_step_names.
  - apply evidence_started.
  - apply evidence_outcome.
  - apply evidence_mark.
  - unfold store_schedule_timer. keeps. by apply keeps_modify.
  - unfold cancel_scope_timers. keeps. by apply keeps_modify.
  - unfold complete_timer. keeps. by apply keeps_modify.
  - unfold claim_due_timers. keeps. by apply keeps_modify.
  - unfold release_timer. keeps. by apply keeps_modify.
  - unfold record_attempt_conflict. destruct (negb _); [|keeps].
    apply keeps_bind; [exact _|keeps|intros []]. apply evidence_read. intros db x db'.
    destruct (negb _); [|done]. intros [= <- <-]. split; simpl; try done; by apply prefix_app_r.
  - unfold inbox_claim. destruct (_ && _); [|keeps]. apply evidence_read. intros db x db'.
    destruct (existsb _ _); [apply (keeps_ret evidence_kept)|].
    intros ([] & db1 & [= <-] & [= <- <-])%bind_Ok. split; simpl; try done; by apply prefix_app_r.
  - unfold outbox_append. apply keeps_bind; [exact _|keeps|intros []].
    apply evidence_read. intros db x db'.
    destruct (existsb _ _); [apply (keeps_ret evidence_kept)|]. destruct b; [|done].
    intros [= <- <-]. split; simpl; try done; by apply prefix_app_r.
  - intros db out db' Ho%store_advance_spec.
    destruct out; [|by subst|by destruct Ho as [-> _]].
    destruct Ho as (i & _ & _ & _ & _ & _ & _ & _ & _ & ->).
    split; simpl; [by apply prefix_app_r|done..].
  - intros db out db' Ho%create_spec. destruct out; [|by destruct Ho as [-> _]].
    destruct Ho as (_ & _ & _ & ->). split; simpl; [by apply prefix_app_r|done..].
  - apply keeps_modify. intros db. split; try done. simpl.
    destruct (register_rows_prefix 0 (workflow_steps definition) (db_steps db)) as [more ->].
    rewrite map_app. by apply prefix_app_r.
  - intros db out db' Ho%set_control_spec. destruct out; [|by destruct Ho as [-> _]|by subst].
    destruct Ho as (_ & i & _ & _ & _ & _ & _ & ->). split; simpl; try done. by apply prefix_app_r.
  - unfold record_management_operation. do 4 (apply keeps_bind; [exact _|keeps|intros []]).
    apply evidence_read. intros db x db'. destruct (find_first _ _).
    { destruct (same_audit _ _ _ _); [apply (keeps_ret evidence_kept)|done]. }
    intros ([] & db1 & [= <-] & [= <- <-])%bind_Ok. split; simpl; try done. by apply prefix_app_r.
  - unfold reopen. apply evidence_read. intros db x db'. destruct (Nat.eqb _ _); [|done].
    intros [= <- <-]. split; try done. simpl. by apply update_names.
  - unfold wake_saga_timers. keeps. by apply keeps_modify.
Qed.
End evidence.

(** ** Commands are paid for by transitions *)

Create HintDb spend.

Section spends.
Context `{Runtime} (self : Orchestrator).

Definition outbox_len (db : Db) : Z := Z.of_nat (length (db_outbox db)).
Definition log_len (db : Db) : Z := Z.of_nat (length (db_transitions db)).

(** At most [k] commands more than transitions. *)
Definition spends (k : Z) (db db' : Db) : Prop :=
  outbox_len db' - outbox_len db ≤ log_len db' - log_len db + k.

Definition quiet (db db' : Db) : Prop :=
  db_outbox db' = db_outbox db ∧ db_transitions db' = db_transitions db.

#[global] Instance quiet_preorder : PreOrder quiet.
Proof. split; [by split|]. intros a b c [] []. split; congruence. Qed.

Lemma spends_quiet {A} k (c : Tx A) : 0 ≤ k → Keeps quiet c → Keeps (spends k) c.
Proof.
  intros Hk Hc db x db' [Ho Ht]%Hc. unfold spends, outbox_len, log_len. rewrite Ho, Ht. lia.
Qed.

Lemma spends_bind a b {k} {A B} (c : Tx A) (f : A → Tx B) :
  a + b ≤ k → Keeps (spends a) c → (∀ x, Keeps (spends b) (f x)) → Keeps (spends k) (bind c f).
Proof.
  intros Hk Hc Hf db y db' (x & db1 & H1%Hc & H2%Hf)%bind_Ok. unfold spends in *. lia.
Qed.

Lemma spends_weaken a k {A} (c : Tx A) : a ≤ k → Keeps (spends a) c → Keeps (spends k) c.
Proof. intros Hk Hc db x db' Hr%Hc. unfold spends in *. lia. Qed.

Lemma spends_store_advance saga v from spec : Keeps (spends 0) (store_advance saga v from spec).
Proof.
  intros db out db' Ho%store_advance_spec. unfold spends, outbox_len, log_len.
  destruct out; [|subst; lia|destruct Ho as [-> _]; lia].
  destruct Ho as (i & _ & _ & _ & _ & _ & _ & _ & _ & ->). simpl. rewrite length_app. lia.
Qed.

Lemma spends_advance i to d cs k t f p : Keeps (spends (-1)) (advance i to d cs k t f p).
Proof.
  unfold advance, advance_from. intros db v db' (out & db1 & Ho & [He ->]%lift_Ok)%bind_Ok.
  apply store_advance_spec in Ho. destruct out; [|done..].
  destruct Ho as (i' & _ & _ & _ & _ & _ & _ & _ & _ & ->).
  unfold spends, outbox_len, log_len. simpl. rewrite length_app. simpl. lia.
Qed.

Lemma spends_outbox b c : Keeps (spends 1) (outbox_append b c).
Proof.
  unfold outbox_append. intros db x db' (u & db1 & [_ ->]%lift_Ok & Ho)%bind_Ok.
  apply bind_Ok in Ho as (l & db1 & [= <- <-] & Ho).
  unfold spends, outbox_len, log_len.
  destruct (existsb _ _); [injection Ho as <- <-; lia|]. destruct b; [|done].
  injection Ho as <- <-. simpl. rewrite length_app. simpl. lia.
Qed.

Lemma quiet_update_step step patch : Keeps quiet (patch_step step patch).
Proof. unfold patch_step, update_step_journal, load_steps. keeps. by apply keeps_modify. Qed.
Lemma quiet_started step phase attempt e c :
  Keeps quiet (record_attempt_started step phase attempt e c).
Proof. unfold record_attempt_started. keeps; by apply keeps_modify. Qed.
Lemma quiet_outcome step phase attempt st ev :
  Keeps quiet (record_attempt_outcome step phase attempt st ev).
Proof. unfold record_attempt_outcome. keeps. by apply keeps_modify. Qed.
Lemma quiet_mark plan : Keeps quiet (mark_compensation_plan plan).
Proof.
  unfold mark_compensation_plan. induction (plan_entries plan); simpl; unfold load_steps; keeps.
  by apply keeps_modify.
Qed.
Lemma quiet_store_schedule spec : Keeps quiet (store_schedule_timer spec).
Proof. unfold store_schedule_timer. keeps. by apply keeps_modify. Qed.
Lemma quiet_cancel scope kind : Keeps quiet (cancel_scope_timers scope kind).
Proof. unfold cancel_scope_timers. keeps. by apply keeps_modify. Qed.
Lemma quiet_complete id token now : Keeps quiet (complete_timer id token now).
Proof. unfold complete_timer. keeps. by apply keeps_modify. Qed.
Lemma quiet_claim picked owner token now lease limit :
  Keeps quiet (claim_due_timers picked owner token now lease limit).
Proof. unfold claim_due_timers. keeps. by apply keeps_modify. Qed.
Lemma quiet_release id token now at_ms : Keeps quiet (release_timer id token now at_ms).
Proof. unfold release_timer. keeps. by apply keeps_modify. Qed.
Lemma quiet_conflict fact : Keeps quiet (record_attempt_conflict fact).
Proof. unfold record_attempt_conflict. keeps. by apply keeps_modify. Qed.
Lemma quiet_inbox id : Keeps quiet (inbox_claim id).
Proof. unfold inbox_claim. keeps. by apply keeps_modify. Qed.
#[local] Hint Resolve quiet_store_schedule quiet_cancel : saga.
Lemma quiet_schedule saga scope kind attempt due v :
  Keeps quiet (schedule_timer saga scope kind attempt due v).
Proof. unfold schedule_timer. keeps. Qed.
Lemma quiet_cancel_resolution step : Keeps quiet (cancel_resolution_timers step).
Proof. unfold cancel_resolution_timers. keeps. Qed.
Lemma quiet_next_attempt step phase : Keeps quiet (next_attempt step phase).
Proof. unfold next_attempt, load_attempts. keeps. Qed.
Lemma quiet_count step d : Keeps quiet (count_resolution_attempts step d).
Proof. unfold count_resolution_attempts, load_attempts. keeps. Qed.
Lemma quiet_verify saga v : Keeps quiet (verify_compensation_completion self saga v).
Proof. unfold verify_compensation_completion, load_instance, load_steps. keeps. Qed.
End spends.

#[export] Hint Resolve quiet_update_step quiet_started quiet_outcome quiet_mark quiet_store_schedule
  quiet_cancel quiet_complete quiet_claim quiet_release quiet_conflict quiet_inbox quiet_schedule quiet_cancel_resolution
  quiet_next_attempt quiet_count quiet_verify : spend.

(** Charges each step of a transaction; reads and returns are free. *)
Ltac spend :=
  repeat first
    [ solve [apply spends_quiet; [lia|first [solve [eauto with spend] | apply keeps_ret; exact _
        | apply keeps_fail | apply keeps_lift; exact _ | apply keeps_read; exact _]]]
    | solve [eauto with spend]
    | match goal with
      | |- Keeps (spends ?k) (bind (advance _ _ _ _ _ _ _ _) _) =>
          apply (spends_bind (-1) (k + 1)); [lia|apply spends_advance|intros ?]
      | |- Keeps (spends ?k) (bind (issue_command _ _ _ _ _ _ _ _ _) _) =>
          apply (spends_bind 1 (k - 1)); [lia| |intros ?]
      | |- Keeps (spends ?k) (bind (outbox_append _ _) _) =>
          apply (spends_bind 1 (k - 1)); [lia|apply spends_outbox|intros ?]
      | |- Keeps (spends ?k) (bind (if _ then bind (next_attempt _ _) _ else ret tt) _) =>
          apply (spends_bind 1 (k - 1)); [lia| |intros ?]
      | |- Keeps (spends ?k) (bind _ _) => apply (spends_bind 0 k); [lia| |intros ?]
      | |- Keeps _ (match ?x with _ => _ end) => destruct x
      end ].

Section spending.
Context `{Runtime} (self : Orchestrator).

Lemma spends_issue i sd phase attempt p o now v :
  Keeps (spends 1) (issue_command self i sd phase attempt p o now v).
Proof. unfold issue_command. spend. Qed.
Lemma spends_issue_more k i sd phase attempt p o now v :
  1 ≤ k → Keeps (spends k) (issue_command self i sd phase attempt p o now v).
Proof. intros Hk. eapply spends_weaken; [exact Hk|apply spends_issue]. Qed.
#[local] Hint Extern 1 (Keeps _ (issue_command _ _ _ _ _ _ _ _ _)) =>
  apply spends_issue_more; lia : spend.

Lemma spends_escalate i k t f : Keeps (spends 0) (escalate_manual i k t f).
Proof. unfold escalate_manual. spend. Qed.
Lemma spends_converge saga v k c : Keeps (spends 0) (converge_compensated_at self saga v k c).
Proof.
  unfold converge_compensated_at. apply (spends_bind 0 0); [lia|spend|intros ?].
  apply (spends_bind 0 0); [lia|apply spends_store_advance|intros ?]. spend.
Qed.
Lemma spends_converge_more k' saga v k c :
  0 ≤ k' → Keeps (spends k') (converge_compensated_at self saga v k c).
Proof. intros Hk. eapply spends_weaken; [exact Hk|apply spends_converge]. Qed.
#[local] Hint Resolve spends_escalate : spend.
#[local] Hint Extern 1 (Keeps _ (converge_compensated_at _ _ _ _ _)) =>
  apply spends_converge_more; lia : spend.

Lemma spends_proceed ctx : Keeps (spends 0) (proceed_forward self ctx).
Proof. unfold proceed_forward, load_steps. spend. Qed.
Lemma spends_enter ctx : Keeps (spends 0) (enter_compensation self ctx).
Proof. unfold enter_compensation, load_steps, converge_compensated. spend. Qed.
Lemma spends_continue ctx : Keeps (spends 0) (continue_compensation self ctx).
Proof. unfold continue_compensation, load_steps. spend. Qed.
Lemma spends_waiting ctx d : Keeps (spends 0) (enter_waiting_resolution self ctx d).
Proof. unfold enter_waiting_resolution. spend. Qed.
Lemma spends_reissue ctx : Keeps (spends 0) (reissue_resolve self ctx).
Proof. unfold reissue_resolve. spend. Qed.
Lemma spends_conflict ctx row : Keeps (spends 0) (keep_conflict ctx row).
Proof. unfold keep_conflict. spend. Qed.
#[local] Hint Resolve spends_proceed spends_enter spends_continue spends_waiting spends_reissue
  spends_conflict : spend.
Lemma spends_deferred ctx : Keeps (spends 0) (project_deferred_result ctx).
Proof. unfold project_deferred_result, load_steps. spend. Qed.
Lemma spends_monotonic ctx patch : Keeps (spends 0) (apply_monotonic_projection ctx patch).
Proof. unfold apply_monotonic_projection, load_steps. spend. Qed.
#[local] Hint Resolve spends_deferred spends_monotonic : spend.
Lemma spends_unless ctx patch k :
  Keeps (spends 0) k → Keeps (spends 0) (unless_frozen ctx patch k).
Proof. intros Hk. unfold unless_frozen. spend. Qed.

Lemma spends_execute ctx : Keeps (spends 0) (on_execute_result self ctx).
Proof. unfold on_execute_result. spend. Qed.
Lemma spends_cancel ctx : Keeps (spends 0) (on_cancel_result self ctx).
Proof. unfold on_cancel_result. spend; apply spends_unless; spend. Qed.
Lemma spends_compensate ctx : Keeps (spends 0) (on_compensate_result self ctx).
Proof. unfold on_compensate_result. spend. Qed.
Lemma spends_settle ctx : Keeps (spends 0) (settle_resolution_from_committed_success self ctx).
Proof.
  unfold settle_resolution_from_committed_success, load_steps. spend; apply spends_unless; spend.
Qed.
#[local] Hint Resolve spends_settle : spend.
Lemma spends_resolve ctx : Keeps (spends 0) (on_resolve_result self ctx).
Proof. unfold on_resolve_result, halt_resolution. spend; apply spends_unless; spend. Qed.
#[local] Hint Resolve spends_execute spends_cancel spends_compensate spends_resolve : spend.
Lemma spends_handle env now auth : Keeps (spends 0) (handle_verified_result self env now auth).
Proof. unfold handle_verified_result, run_authorized_for, apply_verified_result, load_instance, route_result. spend. Qed.

Lemma spends_step_timeout i d s t now : Keeps (spends 0) (on_step_timeout self i d s t now).
Proof. unfold on_step_timeout. spend. Qed.
Lemma spends_retry i d s t p st m c now :
  Keeps (spends 0) (on_phase_retry_timeout self i d s t p st m c now).
Proof. unfold on_phase_retry_timeout. spend. Qed.
#[local] Hint Resolve spends_step_timeout spends_retry : spend.
Lemma spends_fire t token now : Keeps (spends 0) (fire_timer self t token now).
Proof. unfold fire_timer, load_instance, judge_timer, on_instance_deadline. spend. Qed.
End spending.
