(* ===== verification/SagaAdmin.v ===== *)
(** * Creation and management keep what the store keeps

    The closure lemmas of [SagaSafety] for [start_saga] and the management
    actions, and what they spend: like results and timers they send at most
    one command per transition. *)

From Stdlib Require Import ZArith Lia.
From S2P Require Import Prelude Bytes SagaIdentity SagaState SagaDefinition SagaPlan SagaEnvelope.
From S2P Require Import SagaStore SagaAdminStore SagaRegistry SagaOrchestrator SagaStart SagaManagement.
From S2P Require Import SagaSafety.
From stdpp Require Import prelude strings list gmap.

Local Open Scope Z_scope.
Local Open Scope rust_scope.

Section keeps.
Context `{HR : Runtime} (self : Orchestrator) (R : Db → Db → Prop).
Context {ok : StepName → StepJournalPatch → Prop} `{!StoreKeeps ok R} `{!Permits ok}.

#[local] Hint Resolve keeps_next_attempt keeps_schedule_timer keeps_issue_command keeps_advance
  keeps_converge : saga.

Lemma keeps_on_error {A} f (c : Tx A) : Keeps R c → Keeps R (on_error f c).
Proof. intros Hc db x db' Hr. unfold on_error in Hr. apply map_err_Ok in Hr. by eapply Hc. Qed.

Lemma keeps_reserve `{!LedgerFree R} tenant cap : Keeps R (reserve_tenant_quota tenant cap).
Proof. unfold reserve_tenant_quota. keeps. apply keeps_modify. intros db. apply ledger_free. Qed.
#[local] Hint Resolve keeps_reserve : saga.
Lemma keeps_launch `{!LedgerFree R} request plan instance : Keeps R (launch self request plan instance).
Proof. unfold launch. keeps. Qed.
#[local] Hint Resolve keeps_launch keeps_on_error : saga.
Lemma keeps_start `{!LedgerFree R} others request trace auth auth' :
  Keeps R (start_saga self others request trace auth auth').
Proof. unfold start_saga. keeps. Qed.

Lemma keeps_load_target tenant saga_id : Keeps R (load_target tenant saga_id).
Proof. unfold load_target, load_instance. keeps. Qed.
Lemma keeps_reopen_compensation step op : Keeps R (reopen_halted_compensation step op).
Proof. apply keeps_bind; [exact _|keeps|intros ?]. by apply closed_reopen. Qed.
Lemma keeps_reopen_resolution step op : Keeps R (reopen_halted_resolution step op).
Proof. apply keeps_bind; [exact _|keeps|intros ?]. by apply closed_reopen. Qed.
#[local] Hint Resolve keeps_load_target keeps_reopen_compensation keeps_reopen_resolution : saga.

Lemma keeps_pause m tenant saga_id op e : Keeps R (pause self m tenant saga_id op e).
Proof. unfold pause, switch_control, management_precondition. keeps. Qed.
Lemma keeps_resume m tenant saga_id op e : Keeps R (resume self m tenant saga_id op e).
Proof. unfold resume, switch_control, management_precondition. keeps. Qed.

Lemma keeps_retry_compensation_act op now i : Keeps R (retry_compensation_act self op now i).
Proof. unfold retry_compensation_act, management_precondition, load_steps, converge_compensated. keeps. Qed.
Lemma keeps_retry_resolution_act op now i : Keeps R (retry_resolution_act self op now i).
Proof. unfold retry_resolution_act, management_precondition, load_steps. keeps. Qed.
Lemma keeps_manual_close_act op i : Keeps R (manual_close_act op i).
Proof. unfold manual_close_act. keeps. Qed.

#[local] Hint Resolve keeps_retry_compensation_act keeps_retry_resolution_act
  keeps_manual_close_act : saga.

Lemma keeps_retry_compensation m tenant saga_id op now e :
  Keeps R (retry_compensation self m tenant saga_id op now e).
Proof. unfold retry_compensation, recovery, management_precondition. keeps. Qed.
Lemma keeps_retry_resolution m tenant saga_id op now e :
  Keeps R (retry_resolution self m tenant saga_id op now e).
Proof. unfold retry_resolution, recovery, management_precondition. keeps. Qed.
Lemma keeps_manual_close m tenant saga_id op e : Keeps R (manual_close self m tenant saga_id op e).
Proof. unfold manual_close, recovery, management_precondition. keeps. Qed.
Lemma keeps_authenticated env producer now auth auth' :
  envelope_vouched (ok:=ok) env →
  Keeps R (handle_authenticated_result self env producer now auth auth').
Proof. intros Hv. unfold handle_authenticated_result. pose proof (keeps_handle self R env). keeps. Qed.
End keeps.

(** ** Commands are paid for *)

Section spending.
Context `{Runtime} (self : Orchestrator).

Lemma quiet_register d : Keeps quiet (register_steps d).
Proof. by apply keeps_modify. Qed.
Lemma quiet_audit op action actor reason : Keeps quiet (record_management_operation op action actor reason).
Proof. unfold record_management_operation. keeps. by apply keeps_modify. Qed.
Lemma quiet_reopen audited hit patch message : Keeps quiet (reopen audited hit patch message).
Proof. unfold reopen, load_steps. keeps. by apply keeps_modify. Qed.
Lemma quiet_wake : Keeps quiet wake_saga_timers.
Proof. unfold wake_saga_timers. keeps. by apply keeps_modify. Qed.
Lemma quiet_reserve tenant cap : Keeps quiet (reserve_tenant_quota tenant cap).
Proof. unfold reserve_tenant_quota. keeps. by apply keeps_modify. Qed.
Lemma quiet_control spec : Keeps quiet (set_control_state spec).
Proof.
  intros db out db' Ho%set_control_spec. destruct out; [|by destruct Ho as [-> _]|by subst].
  by destruct Ho as (_ & i & _ & _ & _ & _ & _ & ->).
Qed.
Lemma quiet_target tenant saga_id : Keeps quiet (load_target tenant saga_id).
Proof. unfold load_target, load_instance. keeps. Qed.
#[local] Hint Resolve quiet_reopen : saga.
Lemma quiet_reopen_compensation step op : Keeps quiet (reopen_halted_compensation step op).
Proof. unfold reopen_halted_compensation. keeps. Qed.
Lemma quiet_reopen_resolution step op : Keeps quiet (reopen_halted_resolution step op).
Proof. unfold reopen_halted_resolution. keeps. Qed.
#[local] Hint Resolve quiet_register quiet_reserve quiet_audit quiet_wake quiet_control quiet_target
  quiet_reopen_compensation quiet_reopen_resolution : spend.
#[local] Hint Extern 1 (Keeps _ (issue_command _ _ _ _ _ _ _ _ _)) =>
  apply spends_issue_more; lia : spend.
#[local] Hint Extern 1 (Keeps _ (converge_compensated_at _ _ _ _ _)) =>
  apply spends_converge_more; lia : spend.

Lemma spends_create f others spec db out db' :
  on_error f (create_instance others spec) db = Ok (out, db') →
  spends (match out with Created _ => -1 | Existing _ => 0 end) db db'.
Proof.
  unfold on_error. intros Ho. apply map_err_Ok, create_spec in Ho. unfold spends, outbox_len, log_len.
  destruct out; [|destruct Ho as [-> _]; lia]. destruct Ho as (_ & _ & _ & ->).
  simpl. rewrite length_app. simpl. lia.
Qed.

Lemma spends_launch request plan i : Keeps (spends 1) (launch self request plan i).
Proof. unfold launch. spend. Qed.

Lemma spends_start others request trace auth auth' :
  Keeps (spends 0) (start_saga self others request trace auth auth').
Proof.
  unfold start_saga. do 2 (apply (spends_bind 0 0); [lia|spend|intros ?]).
  intros db y db' (_ & (c & db1 & Hc%spends_create & Hl)%bind_Ok & _)%authorized_Ok.
  destruct c as [i|i]; [apply spends_launch in Hl|inv_tx]; unfold spends in *; lia.
Qed.

Lemma spends_pause m tenant saga_id op e : Keeps (spends 0) (pause self m tenant saga_id op e).
Proof. unfold pause, switch_control, management_precondition. spend. Qed.
Lemma spends_resume m tenant saga_id op e : Keeps (spends 0) (resume self m tenant saga_id op e).
Proof. unfold resume, switch_control, management_precondition. spend. Qed.

Lemma spends_recovery m tenant saga_id op action e act :
  (∀ i, Keeps (spends 0) (act i)) → Keeps (spends 0) (recovery self m tenant saga_id op action e act).
Proof. intros Ha. unfold recovery, management_precondition. spend. Qed.

Lemma spends_retry_compensation m tenant saga_id op now e :
  Keeps (spends 0) (retry_compensation self m tenant saga_id op now e).
Proof.
  unfold retry_compensation. apply (spends_bind 0 0); [lia|spend|intros ?].
  apply spends_recovery. intros i. unfold retry_compensation_act, management_precondition, load_steps, converge_compensated. spend.
Qed.
Lemma spends_retry_resolution m tenant saga_id op now e :
  Keeps (spends 0) (retry_resolution self m tenant saga_id op now e).
Proof.
  unfold retry_resolution. apply (spends_bind 0 0); [lia|spend|intros ?].
  apply spends_recovery. intros i. unfold retry_resolution_act, management_precondition, load_steps. spend.
Qed.
Lemma spends_manual_close m tenant saga_id op e :
  Keeps (spends 0) (manual_close self m tenant saga_id op e).
Proof.
  unfold manual_close, management_precondition. apply (spends_bind 0 0); [lia|spend|intros ?].
  destruct (negb _); [spend|]. apply spends_recovery. intros i. unfold manual_close_act. spend.
Qed.
End spending.
