(* ===== verification/SagaEnds.v ===== *)
(** * What a declared end rests on

    The status a handler reports is the status it committed, and [COMPLETED]
    and [COMPENSATED] are declared on complete evidence in the journal only.
    Built on the closure lemmas of [SagaSafety]. *)

From Stdlib Require Import ZArith Lia.
From S2P Require Import Prelude Bytes SagaIdentity SagaState SagaDefinition SagaPlan SagaEnvelope.
From S2P Require Import SagaStore SagaOrchestrator SagaProjection SagaSafety.
From stdpp Require Import prelude strings list relations.

Local Open Scope Z_scope.
Local Open Scope rust_scope.

(** ** Triples *)

Section triples.
Context `{Runtime}.

(** From rows whose instance is [i], a committed run of [c] ends in [Q]. *)
Definition Ends {A} (i : SagaInstanceRow) (c : Tx A) (Q : A → Db → Prop) : Prop :=
  ∀ db x db', db_instance db = Some i → c db = Ok (x, db') → Q x db'.

(** The same from any rows. *)
Definition Post {A} (c : Tx A) (Q : A → Db → Prop) : Prop :=
  ∀ db x db', c db = Ok (x, db') → Q x db'.

Lemma post_bind {A B} (c : Tx A) (k : A → Tx B) Q : (∀ x, Post (k x) Q) → Post (bind c k) Q.
Proof. intros Hk db y db' (x & db1 & _ & Hy)%bind_Ok. by eapply Hk. Qed.

Lemma ends_post {A} i (c : Tx A) Q : Post c Q → Ends i c Q.
Proof. intros Hp db x db' _ Hr. by eapply Hp. Qed.

Lemma ends_bind {A B} i (c : Tx A) (k : A → Tx B) Q :
  Keeps same_core c → (∀ x, Ends i (k x) Q) → Ends i (bind c k) Q.
Proof.
  intros Hc Hk db y db' Hi (x & db1 & Hx & Hy)%bind_Ok. eapply Hk; [|exact Hy].
  apply Hc in Hx as [-> _]. done.
Qed.

Lemma ends_ret {A} i (x : A) (Q : A → Db → Prop) :
  (∀ db, db_instance db = Some i → Q x db) → Ends i (ret x) Q.
Proof. intros HQ db y db' Hi [= <- <-]. by apply HQ. Qed.

Lemma ends_fail {A} i e (Q : A → Db → Prop) : Ends i (fail e) Q.
Proof. intros db y db' _ [=]. Qed.
Lemma post_fail {A} e (Q : A → Db → Prop) : Post (fail e) Q.
Proof. intros db y db' [=]. Qed.

(** ** What a declared end rests on *)

Definition status_of (db : Db) : option SagaStatus := option_map inst_status (db_instance db).

Definition all_forward_succeeded (db : Db) : Prop :=
  Forall (λ row, row_forward_status row = Forward_Succeeded) (db_steps db).

(** No outcome is open, and every step that took effect has been compensated. *)
Definition undone_row (row : SagaStepRow) : Prop :=
  StepForwardStatus_is_settled (row_forward_status row) = true ∧
  (row_forward_status row = Forward_Succeeded → row_compensation_status row = Comp_Succeeded).

Definition all_effects_undone (db : Db) : Prop := Forall undone_row (db_steps db).

(** The status is the one reported; an end is declared on evidence. *)
Definition declared (s : SagaStatus) (db : Db) : Prop :=
  status_of db = Some s ∧ (s = Completed → all_forward_succeeded db) ∧
  (s = Compensated → all_effects_undone db).

(** Either nothing happened to the instance, or it moved as declared. *)
Definition settled (i : SagaInstanceRow) (s : SagaStatus) (db : Db) : Prop :=
  (db_instance db = Some i ∧ s = inst_status i) ∨ declared s db.

Lemma declared_plain s db : status_of db = Some s → s ≠ Completed → s ≠ Compensated → declared s db.
Proof. intros. by split_and!. Qed.

(** *** The forward journal *)

Lemma next_pending_forward_None d rows :
  next_pending_forward d rows = Ok None →
  Forall (λ row, row_forward_status row = Forward_Succeeded) rows.
Proof.
  unfold next_pending_forward. intros [Hl%Nat.eqb_eq Hs]%ensure_Ok.
  apply scan_forward_spec in Hs as (_ & succeeded & pending & -> & Hall & _ & Hn); [|done].
  destruct pending; [by rewrite app_nil_r|done].
Qed.

(** *** The frozen plan *)

Lemma verify_members_Ok version steps entries :
  verify_members version steps entries = Ok tt →
  ∀ e, e ∈ entries → ∃ row, find_row (plan_step e) steps = Some row ∧
    row_compensation_status row = Comp_Succeeded.
Proof.
  induction entries as [|e0 entries IH]; simpl; [set_solver|].
  intros ([] & Hm & Hr)%result_bind_Ok e [->|He]%elem_of_cons; [|by apply IH].
  unfold verify_member in Hm. apply result_bind_Ok in Hm as (row & Hrow%ok_or_Ok & Hm).
  destruct (_ && _) eqn:E; [|done]. apply andb_true_iff in E as [_ E%bool_decide_eq_true]. eauto.
Qed.

Lemma find_row_unique steps row :
  NoDup (map row_step steps) → row ∈ steps → find_row (row_step row) steps = Some row.
Proof.
  unfold find_row. induction steps as [|r steps IH]; simpl; [set_solver|].
  intros [Hn Hnd]%NoDup_cons [->|Hin]%elem_of_cons; [by rewrite bool_decide_eq_true_2|].
  rewrite bool_decide_eq_false_2; [by apply IH|].
  intros E. apply Hn. rewrite E. by apply list_elem_of_fmap_2.
Qed.

(** A frozen plan has an entry for every step that succeeded. *)
Lemma frozen_plan_covers d steps plan row :
  freeze_compensation_plan sha256 d (journal_of steps) = Ok plan →
  row ∈ steps → row_forward_status row = Forward_Succeeded →
  ∃ e, e ∈ plan_entries plan ∧ plan_step e = row_step row.
Proof.
  intros (Hfacts & He & _)%freeze_Ok Hrow Hf.
  set (je := mkJournalEntry (row_step row) (row_forward_status row)).
  assert (je ∈ journal_of steps) as Hje by (by apply (list_elem_of_fmap_2 (λ row, mkJournalEntry (row_step row) (row_forward_status row)))).
  destruct Hfacts as (Hfine & _ & _). rewrite Forall_forall in Hfine.
  destruct (Hfine je Hje) as (s & Hs & _ & Hcomp). simpl in *.
  unfold WorkflowDefinition_step in Hs. apply find_first_Some in Hs as [Hin Hname%bool_decide_eq_true].
  assert (row_step row ∈ map plan_step (plan_entries plan)) as Hplan.
  { rewrite He, build_entries_steps. simpl. rewrite <- Hname.
    apply (list_elem_of_fmap_2 step_name). apply filter_elem_of. split.
    - apply list_elem_of_In, in_rev. rewrite rev_involutive. by apply list_elem_of_In.
    - unfold selected. rewrite Hcomp by done. rewrite andb_true_r. apply succeeded_in_elem.
      rewrite Hname, <- Hf. exact Hje. }
  apply list_elem_of_fmap in Hplan as (e & -> & Hin'). eauto.
Qed.

(** A plan is frozen on settled outcomes only. *)
Lemma frozen_plan_settled d steps plan row :
  freeze_compensation_plan sha256 d (journal_of steps) = Ok plan → row ∈ steps →
  StepForwardStatus_is_settled (row_forward_status row) = true.
Proof.
  intros ((Hfine & _ & _) & _)%freeze_Ok Hrow. rewrite Forall_forall in Hfine.
  destruct (Hfine (mkJournalEntry (row_step row) (row_forward_status row))) as (s & _ & Hs & _); [|done].
  by apply (list_elem_of_fmap_2 (λ row, mkJournalEntry (row_step row) (row_forward_status row))).
Qed.

Lemma completion_proves_undone d steps plan version :
  freeze_compensation_plan sha256 d (journal_of steps) = Ok plan →
  verify_members version steps (plan_entries plan) = Ok tt →
  Forall undone_row steps.
Proof.
  intros Hfreeze Hv. apply Forall_forall. intros row Hrow. split; [by eapply frozen_plan_settled|]. intros Hf.
  destruct (frozen_plan_covers _ _ _ _ Hfreeze Hrow Hf) as (e & He & Hstep).
  destruct (verify_members_Ok _ _ _ Hv e He) as (r & Hr & Hc).
  rewrite Hstep, find_row_unique in Hr; [by simplify_eq| |done].
  apply freeze_Ok in Hfreeze as ((_ & Hnd & _) & _). unfold journal_of in Hnd.
  by rewrite map_map in Hnd.
Qed.
End triples.

(** ** The progress primitives *)

Section primitives.
Context `{Runtime} (self : Orchestrator).

Lemma core_patch_step step patch : Keeps same_core (patch_step step patch).
Proof. apply core_update_step. Qed.
Lemma core_next_attempt step phase : Keeps same_core (next_attempt step phase).
Proof. unfold next_attempt, load_attempts. keeps. Qed.
Lemma core_count step d : Keeps same_core (count_resolution_attempts step d).
Proof. unfold count_resolution_attempts, load_attempts. keeps. Qed.
Lemma core_schedule_timer saga scope kind attempt due v :
  Keeps same_core (schedule_timer saga scope kind attempt due v).
Proof. unfold schedule_timer. keeps. Qed.
Lemma core_cancel_resolution step : Keeps same_core (cancel_resolution_timers step).
Proof. unfold cancel_resolution_timers. keeps. Qed.
Lemma core_mark_plan plan : Keeps same_core (mark_compensation_plan plan).
Proof. apply core_mark. Qed.
Lemma core_issue_command i sd phase attempt p o now v :
  Keeps same_core (issue_command self i sd phase attempt p o now v).
Proof. unfold issue_command. pose proof core_schedule_timer. keeps. Qed.
Lemma core_load_steps : Keeps same_core load_steps.
Proof. apply keeps_read. exact _. Qed.
End primitives.

#[export] Hint Resolve core_patch_step core_next_attempt core_count core_schedule_timer
  core_cancel_resolution core_mark_plan core_issue_command core_load_steps : saga.

(** Descends to the returns; what does not move the instance is skipped. *)
Ltac ends :=
  repeat first
    [ apply ends_fail
    | solve [eauto with ends]
    | apply ends_bind; [solve [keeps]|intros ?]
    | match goal with |- Ends _ (match ?x with _ => _ end) _ => destruct x end ].

Create HintDb ends.

Section moves.
Context `{Runtime} (self : Orchestrator).

Lemma post_advance {B} i to d cs kind t f p (k : Z → Tx B) Q :
  (∀ v j, inst_status j = to → Ends j (k v) Q) → Post (bind (advance i to d cs kind t f p) k) Q.
Proof.
  intros Hk db y db' (v & db1 & Ha & Hy)%bind_Ok.
  unfold advance, advance_from in Ha. apply bind_Ok in Ha as (out & db2 & Ho & [He ->]%lift_Ok).
  apply store_advance_spec in Ho. destruct out; [|done..].
  destruct Ho as (i' & _ & _ & _ & _ & _ & _ & _ & _ & ->).
  eapply Hk in Hy; [exact Hy| |reflexivity]. done.
Qed.

Lemma declared_ret j s : inst_status j = s → s ≠ Completed → s ≠ Compensated → Ends j (ret s) declared.
Proof.
  intros Hs H1 H2. apply ends_ret. intros db Hi. apply declared_plain; [|done..].
  unfold status_of. by rewrite Hi, <- Hs.
Qed.
#[local] Hint Extern 1 (Ends _ (ret _) declared) => apply declared_ret; [assumption|discriminate..] : ends.

Lemma declared_escalate i k t f : Post (escalate_manual i k t f) declared.
Proof. unfold escalate_manual. apply post_advance. intros v j Hj. ends. Qed.

Lemma declared_converge saga v k c :
  Post (converge_compensated_at self saga v k c) (λ _ db, declared Compensated db).
Proof.
  unfold converge_compensated_at. intros db [] db' (dv & db1 & Hv & Hr)%bind_Ok.
  apply bind_Ok in Hr as (out & db2 & Ho & Hr).
  apply bind_Ok in Hr as (nv & db3 & [He ->]%lift_Ok & Hc).
  assert (db_steps db' = db_steps db2 ∧ db_instance db' = db_instance db2) as [Hs Hi].
  { unfold cancel_scope_timers in Hc. apply bind_Ok in Hc as (? & ? & [_ ->]%lift_Ok & [= <-]). done. }
  apply store_advance_spec in Ho. destruct out; [|done..].
  destruct Ho as (i & _ & _ & _ & _ & _ & _ & _ & _ & ->). simpl in *.
  split; [unfold status_of; by rewrite Hi|]. split; [done|]. intros _.
  unfold all_effects_undone. rewrite Hs. clear Hs Hi Hc He.
  unfold verify_compensation_completion, load_instance, load_steps in Hv.
  apply bind_Ok in Hv as (found & ? & [= _ <-] & Hv).
  apply bind_Ok in Hv as (inst & ? & [_ ->]%lift_Ok & Hv). destruct (_ && _); [|done].
  apply bind_Ok in Hv as (fv & ? & [_ ->]%lift_Ok & Hv).
  apply bind_Ok in Hv as (d & ? & [_ ->]%lift_Ok & Hv).
  apply bind_Ok in Hv as (steps & ? & [= <- <-] & Hv).
  apply bind_Ok in Hv as (plan & ? & [Hp%map_err_Ok ->]%lift_Ok & Hv). destruct (bool_decide _); [|done].
  apply bind_Ok in Hv as ([] & ? & [Hm ->]%lift_Ok & Hv). destruct (Nat.eqb _ _); [|done].
  injection Hv as _ <-. by eapply completion_proves_undone.
Qed.

Lemma declared_converged saga v k c :
  Post (do! converge_compensated_at self saga v k c in ret Compensated) declared.
Proof.
  intros db s db' ([] & db1 & Hc%declared_converge & [= <- <-])%bind_Ok. exact Hc.
Qed.

Lemma declared_proceed ctx : Post (proceed_forward self ctx) declared.
Proof.
  unfold proceed_forward, load_steps. intros db s db' (steps & db1 & [= <- <-] & Hr)%bind_Ok.
  apply bind_Ok in Hr as (next & ? & [Hn ->]%lift_Ok & Hr). destruct next as [n|].
  - revert Hr. generalize db. clear. intros db. revert db s db'.
    apply post_advance. intros v j Hj. ends.
  - apply bind_Ok in Hr as (v & db1 & Ha & Hr). apply bind_Ok in Hr as ([] & db2 & Hc & [= <- <-]).
    unfold advance, advance_from in Ha. apply bind_Ok in Ha as (out & db3 & Ho & [He ->]%lift_Ok).
    apply store_advance_spec in Ho. destruct out; [|done..].
    destruct Ho as (i' & _ & _ & _ & _ & _ & _ & _ & _ & ->).
    unfold cancel_scope_timers in Hc. apply bind_Ok in Hc as (? & ? & [_ ->]%lift_Ok & [= <-]).
    split; [done|]. split; [|done]. intros _. by eapply next_pending_forward_None.
Qed.

Lemma declared_enter ctx : Post (enter_compensation self ctx) declared.
Proof.
  unfold enter_compensation. apply post_bind. intros steps.
  destruct (freeze_compensation_plan _ _ _) as [plan|e]; [|apply declared_escalate].
  apply post_advance. intros v j Hj. apply ends_bind; [solve [keeps]|intros _].
  destruct (option_map _ _) as [step|]; [ends|]. apply ends_post, declared_converged.
Qed.

Lemma declared_continue ctx : Post (continue_compensation self ctx) declared.
Proof.
  unfold continue_compensation. apply post_bind. intros steps.
  destruct (next_pending_compensation _ _ _ _) as [next|e]; [|apply declared_escalate].
  apply post_advance. intros v j Hj. destruct next as [step|]; [ends|].
  apply ends_post, declared_converged.
Qed.

Lemma declared_waiting ctx d : Post (enter_waiting_resolution self ctx d) declared.
Proof.
  unfold enter_waiting_resolution. destruct (negb _).
  - apply post_bind. intros _. apply declared_escalate.
  - do 2 (apply post_bind; intros _). apply post_advance. intros v j Hj. ends.
Qed.

Lemma declared_reissue ctx : Post (reissue_resolve self ctx) declared.
Proof.
  unfold reissue_resolve. apply post_bind. intros used. destruct (_ <=? _).
  - apply declared_escalate.
  - apply post_bind. intros attempt. apply post_advance. intros v j Hj. ends.
Qed.
End moves.

#[export] Hint Extern 1 (Ends _ (ret _) declared) => apply declared_ret; [assumption|discriminate..] : ends.

(** ** Results *)

Create HintDb settled.

Section results.
Context `{Runtime} (self : Orchestrator).

Lemma settled_of i (c : Tx SagaStatus) : Post c declared → Ends i c (settled i).
Proof. intros Hc db s db' _ Hr. right. by eapply Hc. Qed.

Lemma settled_ret i : Ends i (ret (inst_status i)) (settled i).
Proof. apply ends_ret. by left. Qed.

(** An early return of [Option]: what was settled, or the instance untouched. *)
Definition perhaps (i : SagaInstanceRow) (o : option SagaStatus) (db : Db) : Prop :=
  match o with Some s => settled i s db | None => db_instance db = Some i end.

Lemma ends_perhaps {A} i (c : Tx (option SagaStatus)) (k : option SagaStatus → Tx A) Q :
  Ends i c (perhaps i) → (∀ s db x db', settled i s db → k (Some s) db = Ok (x, db') → Q x db') →
  Ends i (k None) Q → Ends i (bind c k) Q.
Proof.
  intros Hc Hs Hn db x db' Hi (o & db1 & Hr & Hk)%bind_Ok. apply Hc in Hr; [|done].
  destruct o as [s|]; [by eapply Hs|by eapply Hn].
Qed.

Lemma perhaps_some i (c : Tx SagaStatus) :
  Ends i c (settled i) → Ends i (bind! s := c in ret (Some s)) (perhaps i).
Proof. intros Hc db o db' Hi (s & db1 & Hs%Hc & [= <- <-])%bind_Ok; [exact Hs|done]. Qed.

Lemma perhaps_none i : Ends i (ret None) (perhaps i).
Proof. by apply ends_ret. Qed.
End results.

#[export] Hint Resolve settled_ret perhaps_none : settled.
#[export] Hint Resolve declared_escalate declared_proceed declared_enter declared_continue
  declared_waiting declared_reissue : settled.
#[export] Hint Extern 2 (Ends ?i _ (settled ?i)) => apply settled_of; solve [eauto with settled] : settled.

(** Descends to the moves of the instance. *)
Ltac settle :=
  repeat first
    [ apply ends_fail
    | solve [eauto with settled]
    | apply ends_bind; [solve [keeps]|intros ?]
    | match goal with |- Ends _ (match ?x with _ => _ end) _ => destruct x end ].

Section routing.
Context `{Runtime} (self : Orchestrator) (ctx : ResultContext).
Let i := ctx_instance ctx.

Lemma settled_conflict row : Ends i (keep_conflict ctx row) (settled i).
Proof. unfold keep_conflict. settle. Qed.
#[local] Hint Resolve settled_conflict : settled.

Lemma settled_deferred : Ends i (project_deferred_result ctx) (settled i).
Proof. unfold project_deferred_result. settle. Qed.
#[local] Hint Resolve settled_deferred : settled.

Lemma perhaps_monotonic patch : Ends i (apply_monotonic_projection ctx patch) (perhaps i).
Proof.
  unfold apply_monotonic_projection. do 2 (apply ends_bind; [keeps|intros ?]).
  destruct (if resolve_after_compensation_success _ _ _ then _ else _); [settle|].
  apply perhaps_some. settle.
Qed.

Lemma settled_unless patch k : Ends i k (settled i) → Ends i (unless_frozen ctx patch k) (settled i).
Proof.
  intros Hk. unfold unless_frozen. apply ends_perhaps; [apply perhaps_monotonic| |exact Hk].
  by intros s db x db' Hs [= <- <-].
Qed.

Lemma settled_execute : Ends i (on_execute_result self ctx) (settled i).
Proof. unfold on_execute_result. settle. Qed.
Lemma settled_cancel : Ends i (on_cancel_result self ctx) (settled i).
Proof. unfold on_cancel_result. settle; apply settled_unless; settle. Qed.
Lemma settled_compensate : Ends i (on_compensate_result self ctx) (settled i).
Proof. unfold on_compensate_result. settle. Qed.

Lemma perhaps_settle : Ends i (settle_resolution_from_committed_success self ctx) (perhaps i).
Proof.
  unfold settle_resolution_from_committed_success. do 2 (apply ends_bind; [keeps|intros ?]).
  cbv zeta. destruct (negb _); [settle|]. apply perhaps_some, settled_unless. settle.
Qed.

Lemma settled_resolve : Ends i (on_resolve_result self ctx) (settled i).
Proof.
  unfold on_resolve_result. destruct (is_late _ _); [settle|].
  apply ends_perhaps; [apply perhaps_settle|by intros s db x db' Hs [= <- <-]|].
  unfold halt_resolution. settle; apply settled_unless; settle.
  apply settled_of, post_advance. intros v j Hj. ends.
Qed.

Lemma settled_route : Ends i (route_result self ctx) (settled i).
Proof.
  unfold route_result. destruct (vid_phase _);
    [apply settled_execute|apply settled_cancel|apply settled_compensate|apply settled_resolve].
Qed.
End routing.

(** ** The handler of results *)

Section handler.
Context `{Runtime} (self : Orchestrator).

(** What a committed handling did: nothing, or it took the message and moved
    from the instance it found by one of three ways. *)
Inductive handled (i : SagaInstanceRow) (db1 db' : Db) : SagaStatus → Prop :=
| handled_repeat : db' = db1 → handled i db1 db' (inst_status i)
| handled_conflict event s :
    SagaStatus_is_terminal (inst_status i) = false →
    escalate_manual i Trigger_Event event "attempt_outcome_conflict" db1 = Ok (s, db') →
    handled i db1 db' s
| handled_routed ctx s :
    ctx_instance ctx = i → route_result self ctx db1 = Ok (s, db') → handled i db1 db' s.

Lemma claim_footprint id db c db1 :
  inbox_claim id db = Ok (c, db1) →
  (c = Claimed → ¬ id ∈ db_inbox db ∧ db1 = set_inbox (db_inbox db ++ [id]) db) ∧
  (c = Duplicate → id ∈ db_inbox db ∧ db1 = db).
Proof.
  unfold inbox_claim. destruct (_ && _); [|done]. intros Hc. inv_tx.
  destruct (existsb _ _) eqn:E; inv_tx; split; intros ?; try done; split; try done.
  - apply existsb_exists in E as (m & Hm & ->%bool_decide_eq_true). by apply list_elem_of_In.
  - intros Hin. apply not_true_iff_false in E. apply E, existsb_exists.
    exists id. split; [by apply list_elem_of_In|by apply bool_decide_eq_true].
Qed.

Lemma handle_cases env now auth db out db' :
  handle_verified_result self env now auth db = Ok (out, db') →
  (out = Handle_Duplicate ∧ db' = db) ∨
  ∃ i s db1, out = Handle_Applied s ∧ db_instance db = Some i ∧ inst_control_state i = Active ∧
    same_core db db1 ∧ same_forward db db1 ∧ handled i db1 db' s.
Proof.
  unfold handle_verified_result. intros Hh.
  do 3 (apply bind_Ok in Hh as (? & ? & [? ->]%lift_Ok & Hh)). apply authorized_Ok in Hh as (_ & Hh & _).
  apply bind_Ok in Hh as (c & db1 & Hc%claim_footprint & Hh). destruct Hc as [Hc Hd].
  destruct c; [|destruct (Hd eq_refl) as [_ ->]; left; by injection Hh as <- <-].
  destruct (Hc eq_refl) as [_ ->]. right. clear Hc Hd. unfold load_instance in Hh.
  apply bind_Ok in Hh as (f & ? & [= Hf <-] & Hh).
  apply bind_Ok in Hh as (i & ? & [Hi%ok_or_Ok ->]%lift_Ok & Hh). subst f. simpl in Hi.
  destruct (db_instance db) as [j|] eqn:Hj; [|done].
  destruct (bool_decide (inst_saga_id j = _)); [|done]. injection Hi as ->.
  do 2 (apply bind_Ok in Hh as (? & ? & [? ->]%lift_Ok & Hh)).
  destruct (inst_control_state i) eqn:Hact; [|done]. simpl in Hh.
  do 2 (apply bind_Ok in Hh as (? & ? & [? ->]%lift_Ok & Hh)).
  apply bind_Ok in Hh as (r & db2 & Hr & Hh).
  assert (same_core db db2) as Hcore.
  { apply core_outcome in Hr. exact Hr. }
  assert (same_forward db db2) as Hfwd.
  { apply forward_record_attempt_outcome in Hr. exact Hr. }
  destruct r as [| |existing].
  - apply bind_Ok in Hh as (s & db3 & Hs & [= <- <-]). exists i, s, db2.
    split_and!; [done..|]. by eapply handled_routed; [|exact Hs].
  - injection Hh as <- <-. exists i, (inst_status i), db2. split_and!; [done..|]. by constructor.
  - apply bind_Ok in Hh as ([] & db3 & Hk & Hh). apply bind_Ok in Hh as (s & db4 & Hs & [= <- <-]).
    exists i, s, db3. pose proof Hk as Hk'. apply core_conflict in Hk. apply forward_conflict in Hk'.
    split_and!; [done..|by etrans|by etrans|].
    destruct (SagaStatus_is_terminal (inst_status i)) eqn:Ht; simpl in Hs;
      [injection Hs as <- <-; by constructor|].
    case_bool_decide; [injection Hs as <- <-; by constructor|]. by eapply handled_conflict.
Qed.

(** The status reported is the instance's, untouched or moved on evidence. *)
Lemma handle_settled env now auth db db' s :
  handle_verified_result self env now auth db = Ok (Handle_Applied s, db') →
  ∃ i, db_instance db = Some i ∧ settled i s db'.
Proof.
  intros Hrun.
  destruct (handle_cases _ _ _ _ _ _ Hrun) as [[? _]|(i & s' & db1 & [= ->] & Hi & _ & [Hi1 _] & _ & Hh)];
    [done|].
  rewrite Hi in Hi1. exists i. split; [done|].
  destruct Hh as [Hd|event s _ Hr|ctx s Hctx Hr].
  - left. by rewrite Hd.
  - right. by eapply declared_escalate.
  - subst i. eapply settled_route; [exact Hi1|exact Hr].
Qed.

(** C4. An end is declared on evidence only, and what a handler reports is what
    it committed: after a result is applied with status [s], the instance has
    status [s]; if that is [COMPLETED], it was already, or every step of the
    journal has succeeded; if it is [COMPENSATED], it was already, or no
    step's outcome is open and every step that succeeded has durably been
    compensated. *)
Theorem declared_on_evidence (env : SagaResultEnvelope) (now : Z) (auth : Authority)
    (db db' : Db) (s : SagaStatus)
    (Hrun : handle_verified_result self env now auth db = Ok (Handle_Applied s, db')) :
  status_of db' = Some s ∧
  (s = Completed → status_of db = Some Completed ∨ all_forward_succeeded db') ∧
  (s = Compensated → status_of db = Some Compensated ∨ all_effects_undone db').
Proof.
  destruct (handle_settled _ _ _ _ _ _ Hrun) as (i & Hi & [[Hi' ->]|(? & ? & ?)]); [|by auto].
  unfold status_of. rewrite Hi', Hi. simpl. split; [done|]. split; intros ->; auto.
Qed.
End handler.

(** ** Timers *)

Section timers.
Context `{Runtime} (self : Orchestrator).

(** The statuses a timer may find, and those it may leave. *)
Definition in_progress (s : SagaStatus) : Prop :=
  s = Running ∨ s = Cancelling ∨ s = WaitingResolution ∨ s = Compensating.
Definition timed_out (s : SagaStatus) : Prop :=
  s = Cancelling ∨ s = WaitingResolution ∨ s = Compensating ∨ s = ManualIntervention.

(** A judgement moved the instance, or did nothing at all. *)
Definition Judged (i : SagaInstanceRow) (c : Tx (option SagaStatus)) : Prop :=
  ∀ db o db', db_instance db = Some i → c db = Ok (o, db') →
    match o with
    | Some s => in_progress (inst_status i) ∧ status_of db' = Some s ∧ timed_out s
    | None => db' = db
    end.

Definition moved (o : option SagaStatus) (db : Db) : Prop :=
  ∃ s, o = Some s ∧ status_of db = Some s ∧ timed_out s.

Lemma judged_none i : Judged i (ret None).
Proof. by intros db o db' _ [= <- <-]. Qed.

Lemma judged_moved i c : in_progress (inst_status i) → Post c moved → Judged i c.
Proof. intros Hi Hc db o db' _ (s & -> & Hs & Ht)%Hc. done. Qed.

Lemma moved_ret j s : inst_status j = s → timed_out s → Ends j (ret (Some s)) moved.
Proof.
  intros Hj Hs. apply ends_ret. intros db Hi. exists s. unfold status_of. rewrite Hi. simpl. by subst.
Qed.

Lemma moved_escalate i k t f : Post (bind! s := escalate_manual i k t f in ret (Some s)) moved.
Proof.
  intros db o db' (s & db1 & Hs & [= <- <-])%bind_Ok. exists s.
  assert (s = ManualIntervention) as ->.
  { unfold escalate_manual in Hs. by apply bind_Ok in Hs as (? & ? & _ & [= <- _]). }
  apply declared_escalate in Hs as [Hst _]. split_and!; [done..|]. unfold timed_out. auto.
Qed.

Lemma waits_in_progress i s step : in_progress s → waits_for i s step = true → in_progress (inst_status i).
Proof. unfold waits_for. intros Hs [->%bool_decide_eq_true _]%andb_true_iff. done. Qed.
End timers.

Create HintDb judged.
#[export] Hint Resolve judged_none moved_escalate : judged.
#[export] Hint Extern 1 (in_progress _) => unfold in_progress; tauto : judged.
#[export] Hint Extern 1 (timed_out _) => unfold timed_out; tauto : judged.

(** Descends to the move a judgement makes. *)
Ltac judge :=
  repeat first
    [ solve [eauto with judged]
    | apply post_fail
    | apply post_advance; intros ? ? ?; repeat (apply ends_bind; [solve [keeps]|intros ?]);
        apply moved_ret; [assumption|solve [eauto with judged]]
    | apply post_bind; intros ?
    | match goal with |- Post (match ?x with _ => _ end) _ => destruct x end ].

Section judging.
Context `{Runtime} (self : Orchestrator).

Lemma judged_step_timeout i d scope t now : Judged i (on_step_timeout self i d scope t now).
Proof.
  unfold on_step_timeout. destruct scope as [step|]; [|by intros db o db' _ [=]].
  destruct (waits_for i Running step) eqn:Hw; simpl; [|apply judged_none].
  apply judged_moved; [eapply waits_in_progress; [|exact Hw]; by left|]. judge.
Qed.

Lemma judged_retry i d scope t phase s max code now :
  in_progress s → timed_out s → Judged i (on_phase_retry_timeout self i d scope t phase s max code now).
Proof.
  intros Hp Ht. unfold on_phase_retry_timeout. destruct scope as [step|]; [|by intros db o db' _ [=]].
  destruct (waits_for i s step) eqn:Hw; simpl; [|apply judged_none].
  apply judged_moved; [by eapply waits_in_progress|]. judge.
Qed.

Lemma judged_deadline i d t now : Judged i (on_instance_deadline self i d t now).
Proof.
  unfold on_instance_deadline. destruct (inst_status i) eqn:Hs; try apply judged_none.
  - destruct (inst_current_step i); [apply judged_step_timeout|apply judged_none].
  - apply judged_moved; [rewrite Hs; eauto with judged|apply moved_escalate].
  - apply judged_moved; [rewrite Hs; eauto with judged|apply moved_escalate].
  - apply judged_moved; [rewrite Hs; eauto with judged|apply moved_escalate].
Qed.

Lemma judged_timer i d scope t now : Judged i (judge_timer self i d scope t now).
Proof.
  unfold judge_timer. cbv zeta. destruct (bool_decide (st_kind t = KIND_STEP_TIMEOUT)).
  { apply judged_step_timeout. }
  do 3 (case_bool_decide; [by apply judged_retry; eauto with judged|]).
  destruct (_ || _); [|case_bool_decide; [apply judged_deadline|by intros db o db' _ [=]]].
  case_bool_decide as Hs; [|apply judged_none].
  apply judged_moved; [rewrite Hs; eauto with judged|apply moved_escalate].
Qed.

Lemma complete_footprint id token now db f db1 :
  complete_timer id token now db = Ok (f, db1) → db1 = set_timers (db_timers db1) db.
Proof.
  unfold complete_timer. intros Hc. inv_tx. destruct (existsb _ _); inv_tx; [done|]. by destruct db1.
Qed.

(** A committed firing judged the active instance it found, or changed nothing
    but timers. *)
Lemma fire_cases timer token now db out db' :
  fire_timer self timer token now db = Ok (out, db') →
  ((∀ s, out ≠ Timer_Applied s) ∧ db' = set_timers (db_timers db') db) ∨
  ∃ i s d scope db1, out = Timer_Applied s ∧ db_instance db = Some i ∧ inst_control_state i = Active ∧
    (version_bound (st_kind timer) = true → st_expected_saga_version timer = inst_version i) ∧
    complete_timer (st_timer_id timer) token now db = Ok (Fencing_Applied, db1) ∧
    judge_timer self i d scope timer now db1 = Ok (Some s, db').
Proof.
  intros Hrun. unfold fire_timer, load_instance in Hrun.
  apply bind_Ok in Hrun as (scope & ? & [_ ->]%lift_Ok & Hrun).
  apply bind_Ok in Hrun as (f & ? & [= Hf <-] & Hrun). destruct f as [i|].
  2:{ apply bind_Ok in Hrun as (fen & db1 & Hc%complete_footprint & [= <- <-]). left. by destruct fen. }
  destruct (db_instance db) as [j|] eqn:Hj; [|done].
  destruct (bool_decide (inst_saga_id j = _)); [|done]. injection Hf as ->.
  destruct (inst_control_state i) eqn:Hact; simpl in Hrun;
    [|injection Hrun as <- <-; left; by destruct db].
  apply bind_Ok in Hrun as (fen & db1 & Hct & Hrun). pose proof (complete_footprint _ _ _ _ _ _ Hct) as Hc.
  destruct fen; [|left; by injection Hrun as <- <-].
  destruct (version_bound (st_kind timer) && _) eqn:Hv; [left; by injection Hrun as <- <-|].
  apply bind_Ok in Hrun as (d & ? & [_ ->]%lift_Ok & Hrun).
  apply bind_Ok in Hrun as (o & db2 & Hjudge & [= <- <-]). destruct o as [s|].
  - right. exists i, s, d, scope, db1. split_and!; [done..| |done|done].
    intros Hb. rewrite Hb in Hv. by apply negb_false_iff, Z.eqb_eq in Hv.
  - left. apply judged_timer in Hjudge; [by subst|by rewrite Hc, <- Hj].
Qed.

Lemma fire_judged timer token now db db' i s d scope db1 :
  db_instance db = Some i → complete_timer (st_timer_id timer) token now db = Ok (Fencing_Applied, db1) →
  judge_timer self i d scope timer now db1 = Ok (Some s, db') →
  in_progress (inst_status i) ∧ status_of db' = Some s ∧ timed_out s.
Proof. intros Hi Hc%complete_footprint Hj. apply judged_timer in Hj; [done|]. by rewrite Hc. Qed.

(** A timer never ends a saga and never acts on a stale judgement: if it is
    applied, the saga was active and in progress, an attempt-level timer was
    scheduled at exactly the instance's version, and the status it reports is
    committed and one of [CANCELLING], [WAITING_RESOLUTION], [COMPENSATING],
    [MANUAL_INTERVENTION]; in every other outcome nothing but the timer's own
    row has changed. *)
Theorem timer_never_ends_a_saga (timer : SagaTimerRow) (token : string) (now : Z) (db db' : Db)
    (out : TimerOutcome) (Hrun : fire_timer self timer token now db = Ok (out, db')) :
  match out with
  | Timer_Applied s =>
      ∃ i, db_instance db = Some i ∧ inst_control_state i = Active ∧ in_progress (inst_status i) ∧
        (version_bound (st_kind timer) = true → st_expected_saga_version timer = inst_version i) ∧
        status_of db' = Some s ∧ timed_out s
  | _ => db' = set_timers (db_timers db') db
  end.
Proof.
  apply fire_cases in Hrun as [[Hn Hdb]|(i & s & d & scope & db1 & -> & Hi & Hact & Hv & Hc & Hj)].
  - destruct out; [by edestruct Hn|done..].
  - exists i. destruct (fire_judged _ _ _ _ _ _ _ _ _ _ Hi Hc Hj) as (? & ? & ?). by split_and!.
Qed.
End judging.
