(* ===== verification/SagaRecovery.v ===== *)
(** * What a management action does

    The effects of a committed management action, by case: nothing because the
    operation was already recorded, a switch of the control state, or a
    recovery out of manual intervention; and that repeating an operation does
    nothing. *)

From Stdlib Require Import ZArith Lia.
From S2P Require Import Prelude Bytes SagaIdentity SagaState SagaDefinition SagaPlan SagaEnvelope.
From S2P Require Import SagaStore SagaAdminStore SagaRegistry SagaOrchestrator SagaStart SagaManagement.
From S2P Require Import SagaProjection SagaSafety SagaAdmin SagaEnds.
From stdpp Require Import prelude strings list gmap.

Local Open Scope Z_scope.
Local Open Scope rust_scope.

(** The five management actions. *)
Inductive ManagementAction :=
| Action_Pause
| Action_Resume
| Action_RetryCompensation (now_ms : Z)
| Action_RetryResolution (now_ms : Z)
| Action_ManualClose.

(** Who asks, of which saga, under which operation id, having seen what. *)
Record ManagementRequest := mkManagementRequest {
  by_whom : SagaManagementContext;
  of_tenant : TenantId;
  of_saga : SagaId;
  operation : string;
  expecting : SagaManagementExpectation
}.

Section recovery.
Context `{Runtime} (self : Orchestrator).

(** The status a recovery reports; a switch of the control state reports none. *)
Definition manage (a : ManagementAction) (r : ManagementRequest) : Tx (option SagaStatus) :=
  let reporting (c : Tx SagaStatus) : Tx (option SagaStatus) := bind! s := c in ret (Some s) in
  match a with
  | Action_Pause =>
      do! pause self (by_whom r) (of_tenant r) (of_saga r) (operation r) (expecting r) in ret None
  | Action_Resume =>
      do! resume self (by_whom r) (of_tenant r) (of_saga r) (operation r) (expecting r) in ret None
  | Action_RetryCompensation now_ms =>
      reporting (retry_compensation self (by_whom r) (of_tenant r) (of_saga r) (operation r) now_ms
                   (expecting r))
  | Action_RetryResolution now_ms =>
      reporting (retry_resolution self (by_whom r) (of_tenant r) (of_saga r) (operation r) now_ms
                   (expecting r))
  | Action_ManualClose =>
      reporting (manual_close self (by_whom r) (of_tenant r) (of_saga r) (operation r) (expecting r))
  end.

Lemma keeps_manage (R : Db → Db → Prop) {ok} `{!StoreKeeps ok R} `{!Permits ok} a r : Keeps R (manage a r).
Proof.
  pose proof (keeps_pause self R). pose proof (keeps_resume self R).
  pose proof (keeps_retry_compensation self R). pose proof (keeps_retry_resolution self R).
  pose proof (keeps_manual_close self R). unfold manage. destruct a; keeps.
Qed.

Lemma spends_manage a r : Keeps (spends 0) (manage a r).
Proof.
  unfold manage. destruct a; (apply (spends_bind 0 0); [lia| |intros ?; spend]).
  - apply spends_pause.
  - apply spends_resume.
  - apply spends_retry_compensation.
  - apply spends_retry_resolution.
  - apply spends_manual_close.
Qed.

(** ** Recoveries *)

(** The recovery an action performs, with the action name it is audited under. *)
Definition recovers (a : ManagementAction) (op : string)
    : option (string * (SagaInstanceRow → Tx SagaStatus)) :=
  match a with
  | Action_Pause | Action_Resume => None
  | Action_RetryCompensation now_ms =>
      Some (RETRY_COMPENSATION_ACTION, retry_compensation_act self op now_ms)
  | Action_RetryResolution now_ms => Some (RETRY_RESOLUTION_ACTION, retry_resolution_act self op now_ms)
  | Action_ManualClose => Some (MANUAL_CLOSE_ACTION, manual_close_act op)
  end.

Definition switches (a : ManagementAction) : option (ControlState * ControlState) :=
  match a with
  | Action_Pause => Some (Active, Paused)
  | Action_Resume => Some (Paused, Active)
  | _ => None
  end.

Lemma load_target_Ok tenant saga_id db i db' :
  load_target tenant saga_id db = Ok (i, db') →
  db' = db ∧ db_instance db = Some i ∧ inst_saga_id i = saga_id ∧ inst_tenant i = tenant.
Proof.
  unfold load_target, load_instance. intros (f & ? & [= <- <-] & Hr)%bind_Ok.
  destruct (db_instance db) as [j|]; [|done]. case_bool_decide as Hid; [|done].
  case_bool_decide as Ht; [|done]. by injection Hr as <- <-.
Qed.

Lemma audit_spec op action who why db out db' :
  record_management_operation op action who why db = Ok (out, db') →
  match out with
  | Audit_Recorded =>
      find_first (audit_of op) (db_audits db) = None ∧
      db' = set_audits (db_audits db ++ [mkAuditRow op action who why]) db
  | Audit_AlreadyRecorded =>
      db' = db ∧ ∃ prior, find_first (audit_of op) (db_audits db) = Some prior ∧
        same_audit action who why prior = true
  end.
Proof.
  unfold record_management_operation. intros Ho.
  do 4 (apply bind_Ok in Ho as (? & ? & [_ ->]%lift_Ok & Ho)).
  apply bind_Ok in Ho as (audits & ? & [= <- <-] & Ho). destruct (find_first _ _) as [prior|].
  - destruct (same_audit _ _ _ _) eqn:Hs; [|done]. injection Ho as <- <-. eauto.
  - by apply bind_Ok in Ho as (? & ? & [= <- <-] & [= <- <-]).
Qed.

(** A committed recovery was a replay, or a new audited operation on an active
    saga in manual intervention. *)
Lemma recovery_cases m tenant saga_id op action e act db s db' :
  recovery self m tenant saga_id op action e act db = Ok (s, db') →
  ∃ i, db_instance db = Some i ∧ inst_saga_id i = saga_id ∧ inst_tenant i = tenant ∧
  ((db' = db ∧ s = inst_status i ∧ ∃ prior, find_first (audit_of op) (db_audits db) = Some prior ∧
      same_audit action (actor m) (reason m) prior = true) ∨
   (inst_status i = ManualIntervention ∧ inst_control_state i = Active ∧
    find_first (audit_of op) (db_audits db) = None ∧
    act i (set_audits (db_audits db ++ [mkAuditRow op action (actor m) (reason m)]) db) = Ok (s, db'))).
Proof.
  unfold recovery. intros (i & ? & (-> & Hi & Hid & Ht)%load_target_Ok & Hr)%bind_Ok.
  exists i. split_and!; [done..|].
  apply bind_Ok in Hr as (audit & db1 & Ha%audit_spec & Hr). destruct audit.
  - right. destruct Ha as [Hf ->].
    do 2 (apply bind_Ok in Hr as (? & ? & [_ ->]%lift_Ok & Hr)).
    destruct (inst_control_state i) eqn:Hc; [|done]. simpl in Hr.
    destruct (negb _) eqn:Hs; [done|]. apply negb_false_iff, bool_decide_eq_true in Hs. by split_and!.
  - left. destruct Ha as [-> Ha]. by injection Hr as <- <-.
Qed.

(** ** What recoveries declare *)

Lemma core_reopen_compensation step op : Keeps same_core (reopen_halted_compensation step op).
Proof. unfold reopen_halted_compensation. keeps. Qed.
Lemma core_reopen_resolution step op : Keeps same_core (reopen_halted_resolution step op).
Proof. unfold reopen_halted_resolution. keeps. Qed.

Lemma declared_retry_compensation op now i : Post (retry_compensation_act self op now i) declared.
Proof.
  unfold retry_compensation_act, management_precondition. destruct (is_none _); [apply post_fail|].
  apply post_bind. intros d. apply post_bind. intros steps. apply post_bind. intros [step|].
  - cbv zeta. apply post_bind. intros _. apply post_advance. intros v j Hj. ends.
  - apply post_advance. intros v j Hj. apply ends_post, declared_converged.
Qed.

Lemma declared_retry_resolution op now i : Post (retry_resolution_act self op now i) declared.
Proof.
  unfold retry_resolution_act, management_precondition. do 3 (apply post_bind; intros ?).
  destruct (negb _); [apply post_fail|]. do 2 (apply post_bind; intros ?).
  destruct (_ || _); [apply post_fail|]. do 2 (apply post_bind; intros ?).
  apply post_advance. intros v j Hj. ends.
Qed.

Lemma declared_manual_close op i : Post (manual_close_act op i) declared.
Proof. unfold manual_close_act. apply post_advance. intros v j Hj. ends. Qed.

Lemma declared_recovers a op action act i : recovers a op = Some (action, act) → Post (act i) declared.
Proof.
  destruct a; simpl; intros; simplify_eq;
    eauto using declared_retry_compensation, declared_retry_resolution, declared_manual_close.
Qed.

(** A recovery leaves manual intervention for anything but completion. *)
Definition not_completed (s : SagaStatus) (_ : Db) : Prop := s ≠ ManualIntervention ∧ s ≠ Completed.

Lemma never_completed a op action act i db s db' :
  recovers a op = Some (action, act) → act i db = Ok (s, db') →
  s ≠ ManualIntervention ∧ s ≠ Completed.
Proof.
  intros Ha Hr. revert db s db' Hr. change (Post (act i) not_completed).
  destruct a; simplify_eq/=.
  - unfold retry_compensation_act, management_precondition. destruct (is_none _); [apply post_fail|].
    do 3 (apply post_bind; intros ?). case_match; cbv zeta;
      repeat (apply post_bind; intros ?); by intros ? ? ? [= <- <-].
  - unfold retry_resolution_act, management_precondition. do 3 (apply post_bind; intros ?).
    destruct (negb _); [apply post_fail|]. do 2 (apply post_bind; intros ?).
    destruct (_ || _); [apply post_fail|]. repeat (apply post_bind; intros ?). by intros ? ? ? [= <- <-].
  - unfold manual_close_act. do 2 (apply post_bind; intros ?). by intros ? ? ? [= <- <-].
Qed.

(** ** Every action, by case *)

(** Rows of a switched control state; resuming also wakes timers. *)
Definition switched (r : ManagementRequest) (from to : ControlState) (i : SagaInstanceRow) (db : Db) : Db :=
  set_controls (db_controls db ++
      [mkControlRow (inst_control_version i + 1) from to (operation r) (actor (by_whom r)) (reason (by_whom r))])
    (set_instance (control_row i to) db).

Lemma switch_cases m tenant saga_id op e from to wake db db' :
  switch_control self m tenant saga_id op e from to wake db = Ok (tt, db') →
  ∃ i, db_instance db = Some i ∧ inst_saga_id i = saga_id ∧ inst_tenant i = tenant ∧
  ((db' = db ∧ ∃ prior, find_first (has_operation op) (db_controls db) = Some prior ∧
      control_from prior = from ∧ control_to prior = to ∧
      control_actor prior = actor m ∧ control_reason prior = reason m) ∨
   (inst_control_state i = from ∧ inst_control_version i < I64_MAX ∧
    find_first (has_operation op) (db_controls db) = None ∧
    wake (switched (mkManagementRequest m tenant saga_id op e) from to i db) = Ok (tt, db'))).
Proof.
  unfold switch_control. intros (i & ? & (-> & Hi & Hid & Ht)%load_target_Ok & Hr)%bind_Ok.
  exists i. split_and!; [done..|].
  apply bind_Ok in Hr as (out & db1 & Ho%set_control_spec & Hr). destruct out; simpl in *.
  - right. destruct Ho as (Hf & j & Hj & _ & Hc & _ & Hv & ->). simplify_eq.
    do 2 (apply bind_Ok in Hr as (? & ? & [_ ->]%lift_Ok & Hr)). split_and!; try done. lia.
  - left. destruct Ho as (-> & prior & Hf & Hs). injection Hr as <-. split; [done|]. exists prior.
    unfold same_control in Hs. rewrite !andb_true_iff, !bool_decide_eq_true in Hs. simpl in Hs. naive_solver.
  - apply bind_Ok in Hr as (? & ? & [_ ->]%lift_Ok & Hr). by destruct (bool_decide _).
Qed.
(** The permission an action asks for. *)
Definition needs (a : ManagementAction) : SagaManagementPermission :=
  match a with
  | Action_Pause => Permission_Pause
  | Action_Resume => Permission_Resume
  | Action_RetryCompensation _ => Permission_RetryCompensation
  | Action_RetryResolution _ => Permission_RetryResolution
  | Action_ManualClose => Permission_ManualClose
  end.

Lemma require_permission_Ok m p u : require_permission m p = Ok u → p ∈ permissions m.
Proof. unfold require_permission. by case_bool_decide. Qed.

(** Opens an action to its body. *)
Lemma manage_cases a r db out db' :
  manage a r db = Ok (out, db') →
  needs a ∈ permissions (by_whom r) ∧
  match recovers a (operation r) with
  | Some (action, act) =>
      ∃ s, out = Some s ∧
        recovery self (by_whom r) (of_tenant r) (of_saga r) (operation r) action (expecting r) act db
        = Ok (s, db')
  | None =>
      ∃ from to wake, out = None ∧ switches a = Some (from, to) ∧
        (wake = ret tt ∨ wake = (do! wake_saga_timers in ret tt)) ∧
        switch_control self (by_whom r) (of_tenant r) (of_saga r) (operation r) (expecting r) from to wake db
        = Ok (tt, db')
  end.
Proof.
  unfold manage, pause, resume, retry_compensation, retry_resolution, manual_close.
  destruct a; simpl; intros (x & db1 & Hr & [= <- <-])%bind_Ok;
    apply bind_Ok in Hr as (u & ? & [Hp%require_permission_Ok ->]%lift_Ok & Hr);
    (split; [done|]).
  - destruct x. eexists _, _, _. split_and!; [done|done| |exact Hr]. auto.
  - destruct x. eexists _, _, _. split_and!; [done|done| |exact Hr]. auto.
  - eauto.
  - eauto.
  - destruct (negb _); [done|]. eauto.
Qed.

Lemma wake_footprint wake db db' :
  (wake = ret tt ∨ wake = (do! wake_saga_timers in ret tt)) → wake db = Ok (tt, db') →
  db' = set_timers (db_timers db') db.
Proof.
  intros [-> | ->]; [intros [= <-]; by destruct db|]. unfold wake_saga_timers. intros Hr. by inv_tx.
Qed.

(** The operation of a request is already in the log its action writes, word
    for word: the same action, actor and reason under the same operation id. *)
Definition recorded (a : ManagementAction) (r : ManagementRequest) (db : Db) : Prop :=
  match recovers a (operation r), switches a with
  | Some (action, _), _ =>
      mkAuditRow (operation r) action (actor (by_whom r)) (reason (by_whom r)) ∈ db_audits db
  | None, Some (from, to) =>
      ∃ seq, mkControlRow seq from to (operation r) (actor (by_whom r)) (reason (by_whom r)) ∈ db_controls db
  | None, None => False
  end.

(** What a replay reports: where the saga stands. *)
Definition replayed (a : ManagementAction) (r : ManagementRequest) (i : SagaInstanceRow) : option SagaStatus :=
  (λ _, inst_status i) <$> recovers a (operation r).

Lemma audit_prior op action who why prior audits :
  find_first (audit_of op) audits = Some prior → same_audit action who why prior = true →
  mkAuditRow op action who why ∈ audits.
Proof.
  intros [Hin Hop]%find_first_Some Hs. unfold audit_of, same_audit in *. destruct prior.
  rewrite !andb_true_iff, !bool_decide_eq_true in *. simpl in *. naive_solver.
Qed.

Lemma control_prior op prior controls :
  find_first (has_operation op) controls = Some prior →
  mkControlRow (control_seq prior) (control_from prior) (control_to prior) op (control_actor prior)
    (control_reason prior) ∈ controls.
Proof. intros [Hin Hop%bool_decide_eq_true]%find_first_Some. destruct prior. simpl in *. by subst op. Qed.

Lemma operation_fresh {A} (key : A → string) op (rows : list A) :
  find_first (λ row, bool_decide (key row = op)) rows = None → op ∉ map key rows.
Proof.
  intros Hf (row & -> & Hin)%list_elem_of_fmap. rewrite find_first_None in Hf. specialize (Hf _ Hin).
  by apply bool_decide_eq_false in Hf.
Qed.

Lemma manage_effects a r db out db' :
  manage a r db = Ok (out, db') →
  ∃ i, db_instance db = Some i ∧ inst_saga_id i = of_saga r ∧ inst_tenant i = of_tenant r ∧
  needs a ∈ permissions (by_whom r) ∧
  ((db' = db ∧ recorded a r db ∧ out = replayed a r i) ∨
   (∃ from to, switches a = Some (from, to) ∧ out = None ∧ inst_control_state i = from ∧
      (operation r ∉ map control_operation_id (db_controls db)) ∧
      db' = set_timers (db_timers db') (switched r from to i db)) ∨
   (∃ action act s, recovers a (operation r) = Some (action, act) ∧ out = Some s ∧
      inst_status i = ManualIntervention ∧ inst_control_state i = Active ∧
      (operation r ∉ map audit_operation_id (db_audits db)) ∧
      mkAuditRow (operation r) action (actor (by_whom r)) (reason (by_whom r)) ∈ db_audits db' ∧
      status_of db' = Some s ∧ s ≠ ManualIntervention ∧ s ≠ Completed ∧
      (s = Compensated → all_effects_undone db'))).
Proof.
  intros [Hp Hrun]%manage_cases.
  destruct (recovers a (operation r)) as [[action act]|] eqn:Ha.
  - destruct Hrun as (s & -> & (i & Hi & Hid & Ht & [(-> & -> & prior & Hf & Hsame)|(Hs & Hc & Hf & Hact)])%recovery_cases);
      exists i; split_and!; try done.
    { left. unfold recorded, replayed. rewrite Ha. split_and!; [done| |done]. by eapply audit_prior. }
    pose proof (never_completed _ _ _ _ _ _ _ _ Ha Hact) as [Hmi Hdone].
    right. right. exists action, act, s. pose proof (declared_recovers _ _ _ _ i Ha _ _ _ Hact) as (Hst & _ & Hcomp).
    split_and!; try done; [by apply operation_fresh|].
    assert (Keeps evidence_kept (act i)) as Hk.
      { destruct a; simplify_eq/=; [eapply keeps_retry_compensation_act|eapply keeps_retry_resolution_act|
          eapply keeps_manual_close_act]; exact _. }
      eapply elem_of_prefix; [|apply (kept_audits _ _ (Hk _ _ _ Hact))]. simpl. set_solver.
  - destruct Hrun as (from & to & wake & -> & Hsw & Hw & (i & Hi & Hid & Ht & Hcase)%switch_cases).
    exists i. split_and!; try done.
    destruct Hcase as [(-> & prior & Hf & Hfrom & Hto & Hac & Hre)|(Hc & _ & Hf & Hwake)].
    { left. unfold recorded, replayed. rewrite Ha, Hsw. split_and!; [done| |done].
      exists (control_seq prior). rewrite <-Hac, <-Hre, <-Hfrom, <-Hto. by apply control_prior. }
    right. left. exists from, to. split_and!; try done; [by apply operation_fresh|]. by apply wake_footprint in Hwake.
Qed.
(** C31. Every management action is permitted, targeted and audited.  A committed
    action was asked for by a principal that has its permission, on a saga of
    its tenant, and one of three things happened.  Nothing changed, because the
    log already held this operation with the same action, actor and reason, and
    the answer is where the saga stands; an action is never silently ignored.
    Or the operation was new and switched the control state from the one the
    action starts from, one logged control version further, with no other row
    touched but timers.  Or the operation was new and a recovery of an active
    saga out of manual intervention, audited under its own action in the same
    transaction, whose reported status is the committed one, never [COMPLETED],
    and [COMPENSATED] only when every step that succeeded has durably been
    compensated. *)
Theorem management_acts_as_audited (a : ManagementAction) (r : ManagementRequest) (db db' : Db)
    (out : option SagaStatus) (Hrun : manage a r db = Ok (out, db')) :
  ∃ i, db_instance db = Some i ∧ inst_saga_id i = of_saga r ∧ inst_tenant i = of_tenant r ∧
  needs a ∈ permissions (by_whom r) ∧
  ((db' = db ∧ recorded a r db ∧ out = replayed a r i) ∨
   (∃ from to, switches a = Some (from, to) ∧ out = None ∧ inst_control_state i = from ∧
      (operation r ∉ map control_operation_id (db_controls db)) ∧
      db' = set_timers (db_timers db') (switched r from to i db)) ∨
   (∃ action act s, recovers a (operation r) = Some (action, act) ∧ out = Some s ∧
      inst_status i = ManualIntervention ∧ inst_control_state i = Active ∧
      (operation r ∉ map audit_operation_id (db_audits db)) ∧
      mkAuditRow (operation r) action (actor (by_whom r)) (reason (by_whom r)) ∈ db_audits db' ∧
      status_of db' = Some s ∧ s ≠ ManualIntervention ∧ s ≠ Completed ∧
      (s = Compensated → all_effects_undone db'))).
Proof. by apply manage_effects. Qed.
End recovery.
