(* ===== verification/SagaHistory.v ===== *)
(** * Histories of a saga

    The step relation of one saga: its creation, a committed result, a
    committed timer, a claim or a release of timers, a management action, in
    any order and with any inputs, while other sagas move the quota ledger; and
    what holds of every history.  The
    simulation by the abstract machine of
    [SagaState], the persistence of evidence, the absorption of redeliveries
    and the single firing of a timer are proved here from the closure lemmas
    of [SagaSafety]. *)

From Stdlib Require Import ZArith Lia.
From S2P Require Import Prelude Bytes SagaIdentity SagaState SagaDefinition SagaPlan SagaEnvelope.
From S2P Require Import SagaStore SagaAdminStore SagaRegistry SagaOrchestrator SagaStart SagaManagement.
From S2P Require Import SagaSafety SagaAdmin SagaEnds SagaRecovery.
From stdpp Require Import prelude strings list relations gmap.

Local Open Scope Z_scope.
Local Open Scope rust_scope.

Section history.
Context `{Runtime} (self : Orchestrator).

(** A transaction that leaves no trace when it fails, so only commits count. *)
Inductive transacts : Db → Db → Prop :=
| commit_result env now auth out db db' :
    handle_verified_result self env now auth db = Ok (out, db') → transacts db db'
| commit_timer timer token now out db db' :
    fire_timer self timer token now db = Ok (out, db') → transacts db db'
| commit_claim picked owner token now lease limit rows db db' :
    claim_due_timers picked owner token now lease limit db = Ok (rows, db') → transacts db db'
| commit_release id token now at_ms out db db' :
    release_timer id token now at_ms db = Ok (out, db') → transacts db db'
| commit_start others request trace auth auth' out db db' :
    start_saga self others request trace auth auth' db = Ok (out, db') → transacts db db'
| commit_managed a r out db db' :
    manage self a r db = Ok (out, db') → transacts db db'.

(** Between the transactions of a saga those of others move the quota ledger. *)
Inductive commits : Db → Db → Prop :=
| commit_own db db' : transacts db db' → commits db db'
| commit_ledger db ledger : commits db (set_quota ledger db).

(** What the store keeps, histories keep. *)
Lemma commits_closed R `{!StoreClosed R} `{!LedgerFree R} db db' : commits db db' → R db db'.
Proof.
  destruct 1 as [db db' []|db ledger]; [..|apply ledger_free].
  - by eapply (keeps_handle self R env now auth (λ _ _ _ _ _ _ _ _, I)).
  - by eapply (keeps_fire self R).
  - by eapply closed_claim.
  - by eapply closed_release.
  - by eapply (keeps_start self R).
  - by eapply (keeps_manage self R).
Qed.

Lemma history_closed R `{!StoreClosed R} `{!LedgerFree R} db db' : rtc commits db db' → R db db'.
Proof. induction 1; [reflexivity|]. etrans; [by apply commits_closed|done]. Qed.

Lemma commits_spend db db' : commits db db' → spends 0 db db'.
Proof.
  destruct 1 as [db db' []|db ledger]; [..|by unfold spends, outbox_len, log_len; simpl; lia].
  - by eapply spends_handle.
  - by eapply spends_fire.
  - by eapply (spends_quiet 0 _ (Z.le_refl 0)); [apply quiet_claim|].
  - by eapply (spends_quiet 0 _ (Z.le_refl 0)); [apply quiet_release|].
  - by eapply spends_start.
  - by eapply spends_manage.
Qed.

Lemma history_spend db db' : rtc commits db db' → spends 0 db db'.
Proof.
  induction 1 as [db|db db1 db' Hc _ IH]; [unfold spends; lia|].
  apply commits_spend in Hc. unfold spends in *. lia.
Qed.

(** Handling an event leaves it in the inbox. *)
Lemma handle_claims env now auth db out db' :
  handle_verified_result self env now auth db = Ok (out, db') → res_event_id env ∈ db_inbox db'.
Proof.
  unfold handle_verified_result. intros Hh.
  do 3 (apply bind_Ok in Hh as (? & ? & [? ->]%lift_Ok & Hh)). apply authorized_Ok in Hh as (_ & Hh & _).
  apply bind_Ok in Hh as (c & db1 & [Hc Hd]%claim_footprint & Hh).
  destruct c; [|injection Hh as _ <-; by destruct (Hd eq_refl) as [? ->]].
  destruct (Hc eq_refl) as [_ ->]. clear Hc Hd.
  assert (evidence_kept (set_inbox (db_inbox db ++ [res_event_id env]) db) db') as He.
  { revert Hh. match goal with |- ?c _ = _ → _ => assert (Keeps evidence_kept c) as Hk end.
    { pose proof evidence_closed. pose proof (keeps_escalate evidence_kept). pose proof (λ ctx, keeps_route self evidence_kept ctx (λ _ _, I)).
      unfold load_instance. keeps. }
    apply Hk. }
  eapply elem_of_prefix; [|apply He]. simpl. set_solver.
Qed.

(** C6. Refinement: every history of a saga is a run of the abstract machine of
    [check_transition].  The log it appends is a chain of checked transitions
    from the status before to the status after, numbered by consecutive
    instance versions, and the version grows by exactly the transitions logged;
    the control log alternates from the control state before to the one after
    and numbers the control versions; the contract fixed at creation never
    changes; without a logged transition of either kind the instance row is
    untouched, and while the control state is not switched there is none
    unless the saga was active. *)
Theorem histories_refine_the_machine (db db' : Db) (i : SagaInstanceRow)
    (Hi : db_instance db = Some i) (Hh : rtc commits db db') :
  ∃ i' log controls, db_instance db' = Some i' ∧ contract_of i' = contract_of i ∧
    db_transitions db' = db_transitions db ++ log ∧ db_controls db' = db_controls db ++ controls ∧
    chained (inst_status i) log (inst_status i') ∧
    map transition_seq log = seqZ (inst_version i + 1) (Z.of_nat (length log)) ∧
    inst_version i' = inst_version i + Z.of_nat (length log) ∧
    toggled (inst_control_state i) (inst_control_version i) controls
      (inst_control_state i') (inst_control_version i') ∧
    (log = [] → controls = [] → i' = i) ∧
    (controls = [] → inst_control_state i = Active ∨ log = []).
Proof.
  apply (history_closed follows) in Hh. unfold follows in Hh. rewrite Hi in Hh.
  destruct (db_instance db') as [i'|]; [|done].
  destruct Hh as (log & controls & ? & ? & []). exists i', log, controls. by split_and!.
Qed.

(** Evidence is append-only: over any history the transition log, the
    control log, the audit of management operations, the conflict facts, the
    inbox and the outbox only grow at their end, no attempt changes identity, a
    settled attempt keeps its row, and the journal keeps its steps and their
    order. *)
Theorem evidence_never_lost (db db' : Db) (Hh : rtc commits db db') : evidence_kept db db'.
Proof. by apply (history_closed evidence_kept). Qed.

(** Commands are paid for by transitions: over any history the outbox grows
    by at most the number of transitions logged, so redeliveries, stale timers
    and late results send nothing. *)
Theorem commands_paid_by_transitions (db db' : Db) (Hh : rtc commits db db') :
  Z.of_nat (length (db_outbox db')) - Z.of_nat (length (db_outbox db)) ≤
  Z.of_nat (length (db_transitions db')) - Z.of_nat (length (db_transitions db)).
Proof.
  apply history_spend in Hh. unfold spends, outbox_len, log_len in Hh. lia.
Qed.

Lemma nothing_logged db db' i :
  db_instance db = Some i → rtc commits db db' → db_transitions db' = db_transitions db →
  db_outbox db' = db_outbox db.
Proof.
  intros Hi Hh Ht. pose proof (history_spend _ _ Hh) as Hs.
  destruct (kept_outbox _ _ (history_closed evidence_kept _ _ Hh)) as [more Hmore].
  unfold spends, outbox_len, log_len in Hs. rewrite Ht, Hmore, length_app in Hs.
  destruct more; [by rewrite app_nil_r in Hmore|simpl in Hs; lia].
Qed.

(** A saga that ended or is paused is left alone.  Over any history, results,
    timers and management included, an ended saga keeps its status, version,
    transition log and outbox; and a saga that was paused keeps its whole row,
    its log and its outbox for as long as its control version is the same, that
    is until it is resumed. *)
Theorem inert_saga_is_left_alone (db db' : Db) (i i' : SagaInstanceRow)
    (Hi : db_instance db = Some i) (Hi' : db_instance db' = Some i') (Hh : rtc commits db db')
    (Hinert : SagaStatus_is_terminal (inst_status i) = true ∨
              inst_control_state i = Paused ∧ inst_control_version i' = inst_control_version i) :
  inst_status i' = inst_status i ∧ inst_version i' = inst_version i ∧
  db_transitions db' = db_transitions db ∧ db_outbox db' = db_outbox db ∧
  (inst_control_version i' = inst_control_version i → i' = i).
Proof.
  pose proof (nothing_logged _ _ _ Hi Hh) as Hout.
  apply (history_closed follows) in Hh. unfold follows in Hh. rewrite Hi, Hi' in Hh.
  destruct Hh as (log & controls & Ht & _ & [Hl _ Hv Hc _ Hstill Hact]).
  apply toggled_version in Hc.
  assert (log = []) as ->.
  { destruct Hinert as [Hterm|[Hp Hcv]].
    - apply chained_path, saga_path_terminal in Hl as [Hl _]; [by apply fmap_nil_inv in Hl|done].
    - destruct controls; [|simpl in Hc; lia]. destruct (Hact eq_refl); [congruence|done]. }
  rewrite app_nil_r in Ht. simpl in Hl, Hv. split_and!; [done|lia|done|by apply Hout|].
  intros Hcv. apply Hstill; [done|]. destruct controls; [done|simpl in Hc; lia].
Qed.

(** C22. A redelivery is absorbed: once a result was handled and committed, and
    after any further history, handling the same event again at any time
    changes nothing.  It reports a duplicate if the authority holds at every
    poll of the transaction and before its commit; otherwise the transaction
    fails with the authority's own error. *)
Theorem redelivery_absorbed (env : SagaResultEnvelope) (now now' : Z) (auth auth' : Authority)
    (out : HandleOutcome) (db db1 db2 : Db)
    (Hfirst : handle_verified_result self env now auth db = Ok (out, db1))
    (Hh : rtc commits db1 db2) :
  handle_verified_result self env now' auth' db2
  = (let? _ := poll_authorized (at_polls auth') in
     let? _ := at_commit auth' in
     Ok (Handle_Duplicate, db2)).
Proof.
  assert (res_event_id env ∈ db_inbox db2) as Hin.
  { apply (history_closed evidence_kept) in Hh. eapply elem_of_prefix; [|apply Hh].
    by eapply handle_claims. }
  revert Hfirst. unfold handle_verified_result. intros Hr.
  do 3 (apply bind_Ok in Hr as (? & ? & [Hx ->]%lift_Ok & Hr);
        unfold bind at 1, lift at 1; rewrite Hx; clear Hx).
  apply authorized_Ok in Hr as (_ & (c & ? & Hc & _)%bind_Ok & _).
  unfold run_authorized_for, bind at 1, lift at 1.
  destruct (poll_authorized _) as [[]|e]; [|done]. simpl. unfold apply_verified_result, bind at 1 2.
  unfold inbox_claim in *. destruct (_ && _); [|done]. unfold bind at 1, read.
  replace (existsb _ _) with true; [by destruct (at_commit auth') as [[]|]|]. symmetry. apply existsb_exists.
  exists (res_event_id env). split; [by apply list_elem_of_In|by apply bool_decide_eq_true].
Qed.

(** *** Triggers *)

Definition triggers (db : Db) : list (TriggerKind * string) :=
  map (λ t, (transition_trigger_kind t, transition_trigger_id t)) (db_transitions db).

Definition triggers_distinct (db db' : Db) : Prop := NoDup (triggers db) → NoDup (triggers db').

#[local] Instance triggers_preorder : PreOrder triggers_distinct.
Proof. split; [by intros db Hd|]. intros a b c Hab Hbc Ha. auto. Qed.

Lemma fresh_trigger kind id (log : list TransitionRow) :
  NoDup (map (λ t, (transition_trigger_kind t, transition_trigger_id t)) log) →
  existsb (same_trigger kind id) log = false →
  NoDup (map (λ t, (transition_trigger_kind t, transition_trigger_id t)) log ++ [(kind, id)]).
Proof.
  intros Hnd Hfresh. eapply fresh_key; [|exact Hfresh|exact Hnd]. simpl.
  intros t [= Hk Hid]. unfold same_trigger. by rewrite !bool_decide_eq_true_2.
Qed.

#[local] Instance triggers_ledger_free : LedgerFree triggers_distinct.
Proof. by intros db ledger Hd. Qed.
#[local] Instance triggers_closed : StoreClosed triggers_distinct.
Proof.
  apply closed_of_core; [exact _| | | |].
  - intros db db' (_ & Ht & _). unfold triggers_distinct, triggers. by rewrite Ht.
  - intros saga v from spec db out db' Ho%store_advance_spec.
    destruct out; [|by subst|by destruct Ho as [-> _]].
    destruct Ho as (i & _ & _ & _ & _ & _ & Hfresh & _ & _ & ->).
    unfold triggers_distinct, triggers. simpl. rewrite map_app. intros Hnd.
    by apply fresh_trigger.
  - intros others spec db out db' Ho%create_spec. destruct out; [|by destruct Ho as [-> _]].
    destruct Ho as (_ & _ & Hfresh & ->).
    unfold triggers_distinct, triggers. simpl. rewrite map_app. intros Hnd. by apply fresh_trigger.
  - intros spec db out db' Ho%set_control_spec. destruct out; [|by destruct Ho as [-> _]|by subst].
    destruct Ho as (_ & i & _ & _ & _ & _ & _ & ->). by intros Hnd.
Qed.

(** A trigger moves a saga at most once: over any history no two logged
    transitions have the same trigger, be it the event of a result or the
    identity of a timer, so a repeated trigger cannot repeat its transition. *)
Theorem triggers_apply_once (db db' : Db) (Hnd : NoDup (triggers db)) (Hh : rtc commits db db') :
  NoDup (triggers db').
Proof. by apply (history_closed triggers_distinct) in Hh; apply Hh. Qed.

(** *** Timers *)

Definition timer_ids (l : list TimerRow) : list string := map (λ row, spec_timer_id (timer_spec row)) l.

(** The two ways the timer table changes: a row under a new identity, or rows
    updated in place, of which a closed one is never reopened. *)
Inductive timer_move (l : list TimerRow) : list TimerRow → Prop :=
| timer_inserted row : spec_timer_id (timer_spec row) ∉ timer_ids l → timer_move l (l ++ [row])
| timer_updated f :
    (∀ row, timer_spec (f row) = timer_spec row ∧ (open_timer (f row) = true → open_timer row = true)) →
    timer_move l (map f l).

Definition timers_evolve (db db' : Db) : Prop := rtc timer_move (db_timers db) (db_timers db').

#[local] Instance timers_preorder : PreOrder timers_evolve.
Proof. split; [intros db; apply rtc_refl|]. intros a b c Hab Hbc. exact (rtc_trans _ _ _ Hab Hbc). Qed.

Lemma evolve_modify (f : Db → Db) :
  (∀ db, db_timers (f db) = db_timers db) → Keeps timers_evolve (modify f).
Proof. intros Hf. apply keeps_modify. intros db. unfold timers_evolve. by rewrite Hf. Qed.

Lemma evolve_update db f :
  (∀ row, timer_spec (f row) = timer_spec row ∧ (open_timer (f row) = true → open_timer row = true)) →
  timers_evolve db (set_timers (map f (db_timers db)) db).
Proof. intros Hf. by apply rtc_once, timer_updated. Qed.

Lemma evolve_schedule spec : Keeps timers_evolve (store_schedule_timer spec).
Proof.
  unfold store_schedule_timer. do 5 (apply keeps_bind; [exact _|keeps|intros _]).
  intros db x db' (l & db1 & [= <- <-] & Hr)%bind_Ok.
  destruct (existsb _ _) eqn:E.
  { destruct (find_first _ _); [|done]. destruct (bool_decide _); [|done].
    injection Hr as _ <-. reflexivity. }
  apply bind_Ok in Hr as (? & ? & [= _ <-] & [= _ <-]). apply rtc_once, timer_inserted. simpl.
  intros (row & Hid & Hrow)%list_elem_of_fmap. apply not_true_iff_false in E. apply E, existsb_exists.
  exists row. split; [by apply list_elem_of_In|].
  apply orb_true_iff. right. by apply bool_decide_eq_true.
Qed.

Lemma evolve_if (b : bool) (row row' : TimerRow) :
  timer_spec row' = timer_spec row →
  (b = true → open_timer row' = true → open_timer row = true) →
  timer_spec (if b then row' else row) = timer_spec row ∧
  (open_timer (if b then row' else row) = true → open_timer row = true).
Proof. intros Hs Ho. destruct b; auto. Qed.

Lemma held_open id token now row : timer_held id token now row = true → open_timer row = true.
Proof.
  unfold timer_held, open_timer.
  intros [[[_ ->%bool_decide_eq_true]%andb_true_iff _]%andb_true_iff _]%andb_true_iff. done.
Qed.

#[local] Instance timers_ledger_free : LedgerFree timers_evolve.
Proof. intros db ledger. unfold timers_evolve. simpl. reflexivity. Qed.
#[local] Instance timers_closed : StoreClosed timers_evolve.
Proof.
  split; intros.
  - exact _.
  - unfold update_step_journal, load_steps. keeps. by apply evolve_modify.
  - unfold record_attempt_started. keeps; by apply evolve_modify.
  - unfold record_attempt_outcome. keeps. by apply evolve_modify.
  - induction entries; simpl; unfold load_steps; keeps. by apply evolve_modify.
  - apply evolve_schedule.
  - unfold cancel_scope_timers. keeps. apply keeps_modify. intros db. apply evolve_update.
    intros row. by apply evolve_if.
  - unfold complete_timer. do 2 (apply keeps_bind; [exact _|keeps|intros _]).
    intros db x db' Hr. inv_tx. destruct (existsb _ _); inv_tx; [|reflexivity].
    apply evolve_update. intros row. by apply evolve_if.
  - unfold claim_due_timers. keeps. apply keeps_modify. intros db. apply evolve_update.
    intros row. apply evolve_if; [done|]. intros [Hc _]%andb_true_iff _. revert Hc.
    unfold claimable, open_timer. by destruct (timer_state row).
  - unfold release_timer. do 3 (apply keeps_bind; [exact _|keeps|intros _]).
    intros db x db' Hr. inv_tx. destruct (db_instance _); [|inv_tx; reflexivity].
    destruct (existsb _ _); inv_tx; [|reflexivity].
    apply evolve_update. intros row. apply evolve_if; [done|]. intros Hh _. by eapply held_open.
  - unfold record_attempt_conflict. keeps. by apply evolve_modify.
  - unfold inbox_claim. keeps. by apply evolve_modify.
  - unfold outbox_append. keeps. by apply evolve_modify.
  - intros db out db' Ho%store_advance_spec. destruct out; [|by subst|by destruct Ho as [-> _]].
    destruct Ho as (i & _ & _ & _ & _ & _ & _ & _ & _ & ->). apply rtc_refl.
  - intros db out db' Ho%create_spec. destruct out; [|by destruct Ho as [-> _]].
    destruct Ho as (_ & _ & _ & ->). apply rtc_refl.
  - by apply evolve_modify.
  - intros db out db' Ho%set_control_spec. destruct out; [|by destruct Ho as [-> _]|by subst].
    destruct Ho as (_ & i & _ & _ & _ & _ & _ & ->). apply rtc_refl.
  - unfold record_management_operation. keeps. by apply evolve_modify.
  - unfold reopen, load_steps. keeps. by apply evolve_modify.
  - unfold wake_saga_timers. intros db x db' Hr. inv_tx. apply evolve_update. intros row.
    unfold wake_row, open_timer. by destruct (put_off row).
Qed.

(** An identity whose timers are all closed. *)
Definition spent (id : string) (l : list TimerRow) : Prop :=
  id ∈ timer_ids l ∧ ∀ row, row ∈ l → spec_timer_id (timer_spec row) = id → open_timer row = false.

Lemma spent_move id l l' : timer_move l l' → spent id l → spent id l'.
Proof.
  intros [row Hf|f Hf] [Hin Hall]; split.
  - unfold timer_ids. rewrite map_app. set_solver.
  - intros r [Hr| ->%list_elem_of_singleton]%elem_of_app Hid; [auto|]. by rewrite Hid in Hf.
  - unfold timer_ids in *. rewrite map_map. erewrite map_ext; [exact Hin|].
    intros r. simpl. by destruct (Hf r) as [-> _].
  - intros r (r0 & -> & Hr0)%list_elem_of_fmap Hid. destruct (Hf r0) as [Hs Ho]. rewrite Hs in Hid.
    specialize (Hall r0 Hr0 Hid). destruct (open_timer (f r0)); [|done]. rewrite Ho in Hall; done.
Qed.

Lemma spent_evolve id db db' : timers_evolve db db' → spent id (db_timers db) → spent id (db_timers db').
Proof. unfold timers_evolve. induction 1; [done|]. intros. eauto using spent_move. Qed.

Lemma complete_spends id token now db db' :
  NoDup (timer_ids (db_timers db)) → complete_timer id token now db = Ok (Fencing_Applied, db') →
  spent id (db_timers db').
Proof.
  intros Hnd. unfold complete_timer. intros Hr. inv_tx. destruct (existsb _ _) eqn:E; inv_tx; [|done].
  apply existsb_exists in E as (row & Hrow%list_elem_of_In & Hheld).
  assert (spec_timer_id (timer_spec row) = id) as Hid.
  { unfold timer_held in Hheld.
    by apply andb_true_iff in Hheld as [[[?%bool_decide_eq_true _]%andb_true_iff _]%andb_true_iff _]. }
  simpl. split.
  - unfold timer_ids. rewrite map_map. apply list_elem_of_fmap. exists row. split; [|done].
    by case_match.
  - intros r (r0 & -> & Hr0)%list_elem_of_fmap Hid0.
    assert (r0 = row) as ->; [|by rewrite Hheld].
    assert (spec_timer_id (timer_spec r0) = spec_timer_id (timer_spec row)) as Heq.
    { rewrite Hid, <- Hid0. by case_match. }
    apply list_elem_of_lookup in Hr0 as [m Hm], Hrow as [n Hn].
    assert (m = n) as ->; [|congruence].
    eapply NoDup_lookup; [exact Hnd|unfold timer_ids..].
    + rewrite list_lookup_fmap, Hm. done.
    + rewrite list_lookup_fmap, Hn. simpl. by rewrite Heq.
Qed.

Lemma spent_lost id token now db f db' :
  spent id (db_timers db) → complete_timer id token now db = Ok (f, db') → f = Fencing_Lost.
Proof.
  intros [_ Hall] Hr. unfold complete_timer in Hr. inv_tx. destruct (existsb _ _) eqn:E; inv_tx; [|done].
  apply existsb_exists in E as (row & Hrow%list_elem_of_In & Hheld).
  assert (open_timer row = true) as Ho by (by eapply held_open).
  unfold timer_held in Hheld.
  apply andb_true_iff in Hheld as [[[Hid%bool_decide_eq_true _]%andb_true_iff _]%andb_true_iff _].
  by rewrite (Hall row Hrow Hid) in Ho.
Qed.

(** C21. A timer decides at most once: after a firing was applied, through any
    history, no firing under the same timer identity is applied again, with
    whatever token and at whatever time; the timer table keeps identities
    unique and never reopens a closed row. *)
Theorem timer_decides_once (timer timer' : SagaTimerRow) (token token' : string) (now now' : Z)
    (db db1 db2 db3 : Db) (s : SagaStatus) (out : TimerOutcome)
    (Hnd : NoDup (timer_ids (db_timers db)))
    (Hfirst : fire_timer self timer token now db = Ok (Timer_Applied s, db1))
    (Hh : rtc commits db1 db2)
    (Hsame : st_timer_id timer' = st_timer_id timer)
    (Hagain : fire_timer self timer' token' now' db2 = Ok (out, db3)) :
  ∀ s', out ≠ Timer_Applied s'.
Proof.
  apply fire_cases in Hfirst as [[Hn _]|(i & ? & d & scope & db0 & _ & _ & _ & _ & Hc & Hj)];
    [by edestruct Hn|].
  apply complete_spends in Hc; [|done].
  apply (keeps_judge self timers_evolve) in Hj. apply (spent_evolve _ _ _ Hj) in Hc.
  apply (history_closed timers_evolve) in Hh. apply (spent_evolve _ _ _ Hh) in Hc.
  apply fire_cases in Hagain as [[Hn _]|(? & ? & ? & ? & ? & _ & _ & _ & _ & Hc' & _)]; [done|].
  rewrite Hsame in Hc'. by apply (spent_lost _ _ _ _ _ _ Hc) in Hc'.
Qed.

(** *** Completion *)

Lemma forward_all db db' : same_forward db db' → all_forward_succeeded db → all_forward_succeeded db'.
Proof.
  unfold same_forward, all_forward_succeeded. intros Hs Ha.
  assert (Forall (λ v, v.2 = Forward_Succeeded) (map forward_view (db_steps db'))) as Hv.
  { rewrite Hs. by apply Forall_fmap. }
  by apply Forall_fmap in Hv.
Qed.

Lemma patch_keeps_forward step patch :
  patch_forward_status patch = None → Keeps same_forward (patch_step step patch).
Proof.
  intros Hp. unfold patch_step, update_step_journal. apply keeps_bind; [exact _|keeps|intros _].
  intros db x db' (steps & db1 & [= <- <-] & Hr)%bind_Ok. destruct (has_step _ _); [|done].
  injection Hr as _ <-. apply update_step_forward. intros row. unfold forward_view, patch_row. simpl.
  by rewrite Hp.
Qed.

Lemma merge_succeeded row patch merged :
  row_forward_status row = Forward_Succeeded → merge_deferred_projection row patch = Some merged →
  patch_forward_status merged = None.
Proof.
  unfold merge_deferred_projection. intros ->.
  destruct (patch_forward_status patch) as [[]|]; simpl; repeat case_match; intros; by simplify_eq.
Qed.

(** On a journal whose steps all succeeded, a late result of a terminal saga
    changes no forward status. *)
Lemma deferred_keeps_forward ctx db s db' :
  SagaStatus_is_terminal (inst_status (ctx_instance ctx)) = true → all_forward_succeeded db →
  project_deferred_result ctx db = Ok (s, db') → same_forward db db'.
Proof.
  intros Ht Ha Hr. unfold project_deferred_result, load_steps in Hr.
  apply bind_Ok in Hr as (steps & ? & [= <- <-] & Hr).
  apply bind_Ok in Hr as (row & ? & [Hrow%ok_or_Ok ->]%lift_Ok & Hr). destruct (negb _); [by injection Hr as _ <-|].
  apply bind_Ok in Hr as (built & ? & [_ ->]%lift_Ok & Hr).
  assert (row_forward_status row = Forward_Succeeded) as Hf.
  { unfold find_row in Hrow. apply find_first_Some in Hrow as [Hin _].
    unfold all_forward_succeeded in Ha. rewrite Forall_forall in Ha. by apply Ha. }
  destruct (if resolve_after_compensation_success _ _ _ then _ else _) as [merged|] eqn:Hm.
  - apply bind_Ok in Hr as ([] & db1 & Hc%forward_cancel & Hr).
    apply bind_Ok in Hr as ([] & db2 & Hp & [= _ <-]). etrans; [exact Hc|].
    eapply patch_keeps_forward, Hp. destruct (resolve_after_compensation_success _ _ _); [done|].
    by eapply merge_succeeded.
  - revert Hr. unfold keep_conflict. rewrite Ht. simpl. intros Hr.
    eapply (keeps_bind same_forward) in Hr; [exact Hr|keeps|intros existing]. keeps.
Qed.

Lemma route_terminal ctx :
  SagaStatus_is_terminal (inst_status (ctx_instance ctx)) = true →
  route_result self ctx = project_deferred_result ctx.
Proof.
  intros Ht. assert (∀ s, SagaStatus_is_terminal s = false → is_late ctx s = true) as Hlate.
  { intros s Hs. unfold is_late. rewrite bool_decide_eq_false_2; [done|congruence]. }
  unfold route_result, on_execute_result, on_cancel_result, on_compensate_result, on_resolve_result.
  rewrite !Hlate by done. by destruct (vid_phase _).
Qed.

Definition complete_on_evidence (db : Db) : Prop :=
  status_of db = Some Completed → all_forward_succeeded db.

Lemma handle_complete env now auth db out db' :
  handle_verified_result self env now auth db = Ok (out, db') →
  complete_on_evidence db → complete_on_evidence db'.
Proof.
  intros Hr Hok Hst.
  destruct (handle_cases _ _ _ _ _ _ _ Hr) as [[_ ->]|(i & s & db1 & -> & Hi & _ & Hcore & Hfwd & Hh)];
    [by apply Hok|].
  destruct (decide (inst_status i = Completed)) as [Hc|Hc].
  - assert (all_forward_succeeded db) as Ha by (apply Hok; unfold status_of; rewrite Hi; simpl; by rewrite Hc).
    apply (forward_all _ _ Hfwd) in Ha.
    destruct Hh as [Hd|event s Ht _|ctx s Hctx Hroute]; [by rewrite Hd|by rewrite Hc in Ht|].
    subst i. assert (SagaStatus_is_terminal (inst_status (ctx_instance ctx)) = true) as Ht by (by rewrite Hc).
    rewrite (route_terminal _ Ht) in Hroute. eapply forward_all; [|exact Ha].
    by eapply deferred_keeps_forward.
  - destruct (handle_settled _ _ _ _ _ _ _ Hr) as (j & Hj & [[Hi' ->]|(Hs & Hdone & _)]).
    + unfold status_of in Hst. rewrite Hi' in Hst. simpl in Hst. naive_solver.
    + apply Hdone. congruence.
Qed.

Lemma claim_only_timers picked owner token now lease limit db rows db' :
  claim_due_timers picked owner token now lease limit db = Ok (rows, db') →
  db' = set_timers (db_timers db') db.
Proof.
  unfold claim_due_timers. intros Hr. do 2 (apply bind_Ok in Hr as (? & ? & [_ ->]%lift_Ok & Hr)).
  destruct (negb _); [|done]. by inv_tx.
Qed.

Lemma release_only_timers id token now at_ms db out db' :
  release_timer id token now at_ms db = Ok (out, db') → db' = set_timers (db_timers db') db.
Proof.
  unfold release_timer. intros Hr. inv_tx. destruct (db_instance _); [|inv_tx; by destruct db'].
  destruct (existsb _ _); inv_tx; [done|by destruct db'].
Qed.

Lemma fire_complete timer token now db out db' :
  fire_timer self timer token now db = Ok (out, db') →
  complete_on_evidence db → complete_on_evidence db'.
Proof.
  intros [[_ ->]|(i & s & d & scope & db1 & _ & Hi & _ & _ & Hc & Hj)]%fire_cases Hok Hst; [by apply Hok|].
  destruct (fire_judged _ _ _ _ _ _ _ _ _ _ _ Hi Hc Hj) as (_ & Hs & Ht).
  rewrite Hs in Hst. injection Hst as ->. by destruct Ht as [|[|[|]]].
Qed.

(** A committed start found the saga, or made its instance and its first
    effects. *)
Lemma start_cases others request trace auth auth' db out db' :
  start_saga self others request trace auth auth' db = Ok (out, db') →
  ∃ plan, plan_start self request trace = Ok plan ∧
  match out with
  | AlreadyExists row =>
      db' = db ∧ same_business (plan_spec plan) row = true ∧ same_request (plan_spec plan) row = true ∧
      (db_instance db = Some row ∨ row ∈ others)
  | Started row =>
      row = new_row (plan_spec plan) ∧ db_instance db = None ∧
      launch self request plan row
        (set_transitions (db_transitions db ++ [first_transition (plan_spec plan)]) (set_instance row db))
      = Ok (Started row, db')
  end.
Proof.
  unfold start_saga. intros (? & ? & [_ ->]%lift_Ok & Hr)%bind_Ok.
  apply bind_Ok in Hr as (plan & ? & [Hp ->]%lift_Ok & Hr). exists plan. split; [done|].
  apply authorized_Ok in Hr as (_ & (c & db1 & Hc & Ho)%bind_Ok & _).
  unfold on_error in Hc. apply map_err_Ok, create_spec in Hc. destruct c as [row|row].
  - destruct Hc as (-> & Hn & _ & ->).
    assert (out = Started (new_row (plan_spec plan))) as ->; [|done].
    revert Ho. unfold launch. destruct (negb _); [|done]. intros Ho. inv_tx.
    match goal with q : QuotaReservation |- _ => destruct q end; [|done]. by inv_tx.
  - inv_tx. destruct Hc as (-> & ? & ? & ?). done.
Qed.

Lemma rows_launch request plan i : Keeps same_rows (launch self request plan i).
Proof.
  assert (∀ A (c : Tx A), Keeps same_core c → Keeps same_rows c) as Hk
    by (intros A c Hk db x db' Hr; by eapply same_core_rows, Hk).
  unfold launch, reserve_tenant_quota. keeps; first [by apply keeps_modify|apply Hk; keeps].
Qed.

Lemma start_complete others request trace auth auth' db out db' :
  start_saga self others request trace auth auth' db = Ok (out, db') →
  complete_on_evidence db → complete_on_evidence db'.
Proof.
  intros (plan & _ & Hr)%start_cases Hok. destruct out as [row|row]; [|by destruct Hr as [-> _]].
  destruct Hr as (-> & _ & [Hi _]%rows_launch). intros Hst. unfold status_of in Hst.
  rewrite Hi in Hst. done.
Qed.

Lemma manage_complete a r db out db' :
  manage self a r db = Ok (out, db') → complete_on_evidence db → complete_on_evidence db'.
Proof.
  intros (i & Hi & _ & _ & _ & Hcase)%manage_effects Hok Hst.
  destruct Hcase as [[-> _]|[(from & to & _ & _ & _ & _ & Hd)|
    (action & act & s & _ & _ & _ & _ & _ & _ & Hs & _ & Hn & _)]].
  - by apply Hok.
  - unfold all_forward_succeeded. rewrite Hd. apply Hok. unfold status_of in *.
    rewrite Hd in Hst. rewrite Hi. done.
  - congruence.
Qed.

Lemma commits_complete db db' :
  commits db db' → complete_on_evidence db → complete_on_evidence db'.
Proof.
  destruct 1 as [a b [env now auth out a' b' Hr|timer token now out a' b' Hr|
    picked owner token now lease limit rows a' b' Hr|id token now at_ms out a' b' Hr|
    others request trace auth auth' out a' b' Hr|act r out a' b' Hr]|a ledger]; [..|done].
  - by eapply handle_complete.
  - by eapply fire_complete.
  - by rewrite (claim_only_timers _ _ _ _ _ _ _ _ _ Hr).
  - by rewrite (release_only_timers _ _ _ _ _ _ _ Hr).
  - by eapply start_complete.
  - by eapply manage_complete.
Qed.

(** [COMPLETED] stays true: if a saga reported as completed has every step
    succeeded, which holds of one that is not completed yet, then so it is in
    every later state, whatever results arrive late or conflict and whatever
    management does. *)
Theorem completed_stays_true (db db' : Db) (Hok : complete_on_evidence db) (Hh : rtc commits db db') :
  complete_on_evidence db'.
Proof. induction Hh as [|db db1 db' Hc _ IH]; [done|]. by eapply IH, commits_complete. Qed.
End history.
