(* ===== verification/SagaLife.v ===== *)
(** * The life of a saga

    Histories from the empty rows: what holds of every reachable state of a
    saga, that starting or managing it again does nothing, that it is closed by
    hand only under audit, and that a round of the timer worker is a history.
    The theorems of [SagaHistory] apply to all of them. *)

From Stdlib Require Import ZArith Lia.
From S2P Require Import Prelude Bytes SagaIdentity SagaState SagaDefinition SagaPlan SagaEnvelope.
From S2P Require Import SagaStore SagaAdminStore SagaRegistry SagaOrchestrator SagaStart SagaManagement.
From S2P Require Import SagaSafety SagaAdmin SagaEnds SagaRecovery SagaHistory.
From stdpp Require Import prelude strings list relations gmap.

Local Open Scope Z_scope.
Local Open Scope rust_scope.

(** ** Keys are distinct *)

Section keys.
Context `{Runtime}.

Definition attempt_id (a : SagaStepAttemptRow) := (att_step a, att_phase a, att_attempt a).

(** The primary keys and unique constraints of the tables. *)
Record distinct_keys (db : Db) : Prop := {
  steps_distinct : NoDup (map row_step (db_steps db));
  attempts_distinct : NoDup (map attempt_id (db_attempts db));
  commands_distinct : NoDup (map att_command_id (db_attempts db));
  timers_distinct : NoDup (timer_ids (db_timers db));
  conflicts_distinct : NoDup (map fact_incoming_event_id (db_conflicts db));
  controls_distinct : NoDup (map control_operation_id (db_controls db));
  audits_distinct : NoDup (map audit_operation_id (db_audits db));
  inbox_distinct : NoDup (map id (db_inbox db));
  outbox_distinct : NoDup (map cmd_command_id (db_outbox db));
  log_distinct : NoDup (triggers db)
}.

Definition keeps_keys (db db' : Db) : Prop := distinct_keys db → distinct_keys db'.

#[local] Instance keys_preorder : PreOrder keeps_keys.
Proof. split; [by intros db Hd|]. intros a b c Hab Hbc Ha. auto. Qed.

Lemma keys_read {A B} (f : Db → A) (k : A → Tx B) :
  (∀ db x db', k (f db) db = Ok (x, db') → keeps_keys db db') → Keeps keeps_keys (bind (read f) k).
Proof. intros Hk db x db' (y & db1 & [= <- <-] & Hr)%bind_Ok. by eapply Hk. Qed.

(** Rows updated in place keep their keys. *)
Lemma update_keys {A K} (key : A → K) (hit : A → bool) f l :
  (∀ x, key (f x) = key x) → NoDup (map key l) →
  NoDup (map key (map (λ x, if hit x then f x else x) l)).
Proof.
  intros Hf Hnd. rewrite map_map. erewrite map_ext; [exact Hnd|]. intros x. by destruct (hit x).
Qed.

Lemma keys_steps db l : NoDup (map row_step l) → keeps_keys db (set_steps l db).
Proof. intros Hl []. by split. Qed.
Lemma keys_attempts db l :
  (distinct_keys db → NoDup (map attempt_id l) ∧ NoDup (map att_command_id l)) →
  keeps_keys db (set_attempts l db).
Proof. intros Hl Hd. destruct (Hl Hd). destruct Hd. by split. Qed.
Lemma keys_timers db l : (distinct_keys db → NoDup (timer_ids l)) → keeps_keys db (set_timers l db).
Proof. intros Hl Hd. pose proof (Hl Hd). destruct Hd. by split. Qed.

Lemma keys_register index steps rows :
  NoDup (map row_step rows) → NoDup (map row_step (register_rows index steps rows)).
Proof.
  revert index rows. induction steps as [|s steps IH]; intros index rows Hnd; simpl; [done|].
  apply IH. destruct (has_step _ _) eqn:E; [done|]. rewrite map_app.
  eapply fresh_key; [|exact E|done]. intros row Hk. simpl. rewrite Hk. by apply bool_decide_eq_true.
Qed.

Lemma update_rows_keys db (hit : SagaStepRow → bool) f :
  (∀ row, row_step (f row) = row_step row) →
  keeps_keys db (set_steps (map (λ row, if hit row then f row else row) (db_steps db)) db).
Proof. intros Hf Hd. apply keys_steps; [|done]. apply update_keys, Hd. exact Hf. Qed.

Lemma update_timers_keys db (hit : TimerRow → bool) f :
  (∀ row, timer_spec (f row) = timer_spec row) →
  keeps_keys db (set_timers (map (λ row, if hit row then f row else row) (db_timers db)) db).
Proof.
  intros Hf. apply keys_timers. intros Hd. apply update_keys, Hd. intros row. by rewrite Hf.
Qed.

Lemma keys_started step phase attempt e c :
  Keeps keeps_keys (record_attempt_started step phase attempt e c).
Proof.
  unfold record_attempt_started. apply keys_read. intros db y db'. destruct (existsb _ _) eqn:E.
  { destruct (find_first _ _); [|done]. destruct (_ && _); [|done]. apply (keeps_ret keeps_keys). }
  intros ([] & db1 & [= <-] & ([] & db2 & [= <-] & [= <- <-])%bind_Ok)%bind_Ok.
  etrans; [|apply (update_rows_keys (set_attempts _ db) (λ row, bool_decide (row_step row = step)))].
  - apply keys_attempts. intros Hd. rewrite !map_app. split.
    + eapply fresh_key; [|exact E|apply Hd]. intros a [= Hs Hp Ha]. unfold attempt_key. simpl.
      by rewrite (bool_decide_eq_true_2 _ Hs), (bool_decide_eq_true_2 _ Hp), (bool_decide_eq_true_2 _ Ha).
    + eapply fresh_key; [|exact E|apply Hd]. simpl. intros a Ha. rewrite (bool_decide_eq_true_2 _ Ha).
      by rewrite orb_true_r.
  - intros row. by case_match.
Qed.

Lemma keys_mark version entries : Keeps keeps_keys (mark_entries version entries).
Proof.
  induction entries as [|a entries IH]; simpl; [keeps|]. apply keys_read. intros db y db'.
  destruct (has_step _ _); [|done]. intros ([] & db1 & [= <-] & Hr)%bind_Ok.
  etrans; [|by eapply IH]. by apply (update_rows_keys db (λ row, bool_decide (row_step row = plan_step a))).
Qed.

Lemma keys_schedule spec : Keeps keeps_keys (store_schedule_timer spec).
Proof.
  unfold store_schedule_timer. do 5 (apply keeps_bind; [exact _|keeps|intros ?]).
  apply keys_read. intros db y db'. destruct (existsb _ _) eqn:E.
  { destruct (find_first _ _); [|done]. destruct (bool_decide _); [|done]. apply (keeps_ret keeps_keys). }
  intros ([] & db1 & [= <-] & [= <- <-])%bind_Ok. apply keys_timers. intros Hd.
  unfold timer_ids. rewrite map_app. eapply fresh_key; [|exact E|apply Hd].
  simpl. intros row Hk. by rewrite (bool_decide_eq_true_2 _ Hk), orb_true_r.
Qed.

Lemma keys_advance saga v from spec : Keeps keeps_keys (store_advance saga v from spec).
Proof.
  intros db out db' Ho%store_advance_spec. destruct out; [|by subst|by destruct Ho as [-> _]].
  destruct Ho as (i & _ & _ & _ & _ & _ & Hfresh & _ & _ & ->). intros []. split; try done.
  unfold triggers. simpl. rewrite map_app. by apply fresh_trigger.
Qed.

Lemma keys_create others spec : Keeps keeps_keys (create_instance others spec).
Proof.
  intros db out db' Ho%create_spec. destruct out; [|by destruct Ho as [-> _]].
  destruct Ho as (_ & _ & Hfresh & ->). intros []. split; try done.
  unfold triggers. simpl. rewrite map_app. by apply fresh_trigger.
Qed.

Lemma unfound {A} (p : A → bool) l : find_first p l = None → existsb p l = false.
Proof.
  rewrite find_first_None. intros Hl. apply not_true_iff_false. intros (x & Hx & Hp)%existsb_elem_of.
  by rewrite Hl in Hp.
Qed.

Lemma keys_control spec : Keeps keeps_keys (set_control_state spec).
Proof.
  intros db out db' Ho%set_control_spec. destruct out; [|by destruct Ho as [-> _]|by subst].
  destruct Ho as (Hf%unfound & i & _ & _ & _ & _ & _ & ->). intros []. split; try done. simpl.
  rewrite map_app. eapply fresh_key; [|exact Hf|done].
  intros row Hk. unfold has_operation. by rewrite Hk, bool_decide_eq_true_2.
Qed.

Lemma keys_audit op action who why : Keeps keeps_keys (record_management_operation op action who why).
Proof.
  intros db out db' Ho%audit_spec. destruct out; [|by destruct Ho as [-> _]].
  destruct Ho as [Hf%unfound ->]. intros []. split; try done. simpl. rewrite map_app.
  eapply fresh_key; [|exact Hf|done]. intros row Hk. unfold audit_of. by rewrite Hk, bool_decide_eq_true_2.
Qed.

#[export] Instance keys_ledger_free : LedgerFree keeps_keys.
Proof. by intros db ledger []. Qed.

#[export] Instance keys_closed : StoreClosed keeps_keys.
Proof.
  split; intros.
  - exact _.
  - unfold update_step_journal. apply keeps_bind; [exact _|keeps|intros ?]. apply keys_read.
    intros db y db'. destruct (has_step _ _); [|done]. intros [= <- <-].
    by apply (update_rows_keys db (λ row, bool_decide (row_step row = step))).
  - apply keys_started.
  - unfold record_attempt_outcome. destruct (negb _); [|keeps]. apply keys_read. intros db y db'.
    destruct (find_first _ _) as [a|]; [|done]. destruct (bool_decide _).
    2:{ destruct (bool_decide _); apply (keeps_ret keeps_keys). }
    intros ([] & db1 & [= <-] & [= <- <-])%bind_Ok. apply keys_attempts. intros Hd.
    split; apply update_keys; try done; apply Hd.
  - apply keys_mark.
  - apply keys_schedule.
  - unfold cancel_scope_timers. keeps. apply keeps_modify. intros db. by apply update_timers_keys.
  - unfold complete_timer. do 2 (apply keeps_bind; [exact _|keeps|intros ?]). apply keys_read.
    intros db y db' Hr. destruct (existsb _ _); inv_tx; [|done]. by apply update_timers_keys.
  - unfold claim_due_timers. keeps. apply keeps_modify. intros db. by apply update_timers_keys.
  - unfold release_timer. do 4 (apply keeps_bind; [exact _|keeps|intros ?]). apply keys_read.
    intros db y db' Hr. destruct x2; [|by inv_tx]. destruct (existsb _ _); inv_tx; [|done].
    by apply update_timers_keys.
  - unfold record_attempt_conflict. destruct (negb _); [|keeps].
    apply keeps_bind; [exact _|keeps|intros ?]. apply keys_read. intros db y db'.
    destruct (negb _) eqn:E; [|done]. intros [= <- <-] []. split; try done. simpl. rewrite map_app.
    apply negb_true_iff in E. eapply fresh_key; [|exact E|done]. intros f Hf. by apply bool_decide_eq_true.
  - unfold inbox_claim. destruct (_ && _); [|keeps]. apply keys_read. intros db y db'.
    destruct (existsb _ _) eqn:E; [apply (keeps_ret keeps_keys)|].
    intros ([] & db1 & [= <-] & [= <- <-])%bind_Ok []. split; try done. simpl. rewrite map_app.
    eapply fresh_key; [|exact E|done]. intros m Hm. by apply bool_decide_eq_true.
  - unfold outbox_append. apply keeps_bind; [exact _|keeps|intros ?]. apply keys_read.
    intros db y db'. destruct (existsb _ _) eqn:E; [apply (keeps_ret keeps_keys)|]. destruct b; [|done].
    intros [= <- <-] []. split; try done. simpl. rewrite map_app.
    eapply fresh_key; [|exact E|done]. intros m Hm. by apply bool_decide_eq_true.
  - apply keys_advance.
  - apply keys_create.
  - apply keeps_modify. intros db Hd. apply keys_steps; [|done]. by apply keys_register, Hd.
  - apply keys_control.
  - apply keys_audit.
  - unfold reopen. apply keys_read. intros db y db'. destruct (Nat.eqb _ _); [|done].
    intros [= <- <-]. by apply (update_rows_keys db (λ row, audited && hit row)).
  - unfold wake_saga_timers. apply keys_read. intros db y db' Hr. inv_tx.
    by apply (update_timers_keys db put_off).
Qed.
End keys.

(** A relation on the instance and its logs that may also rely on evidence
    being kept. *)
Lemma closed_of_evidence `{Runtime} (R : Db → Db → Prop) `{!PreOrder R} :
  (∀ db db', same_core db db' → evidence_kept db db' → R db db') →
  (∀ saga v from spec, Keeps R (store_advance saga v from spec)) →
  (∀ others spec, Keeps R (create_instance others spec)) →
  (∀ spec, Keeps R (set_control_state spec)) → StoreClosed R.
Proof.
  intros Hc Ha Hn Hs. pose proof evidence_closed.
  assert (∀ A (c : Tx A), Keeps same_core c → Keeps evidence_kept c → Keeps R c) as Hk
    by (intros A c Hk He db x db' Hr; eapply Hc; [by eapply Hk|by eapply He]).
  split; intros; first [exact _|apply Ha|apply Hn|apply Hs
    |apply Hk; [solve [auto with saga]|first [by eapply closed_reopen|by apply closed_update_step|solve [eauto with saga]]]].
Qed.

(** ** The reachable states *)

Section life.
Context `{Runtime} (self : Orchestrator).

(** No rows yet. *)
Definition no_rows : Db := mkDb None [] [] [] [] [] [] [] [] [] ∅.

Lemma no_rows_distinct : distinct_keys no_rows.
Proof. split; constructor. Qed.

(** The logs of a saga, from its creation to where it is. *)
Definition logs_complete (db : Db) : Prop :=
  match db_instance db with
  | None => db_transitions db = [] ∧ db_controls db = []
  | Some i =>
      (∃ first log, db_transitions db = first :: log ∧ from_state first = None ∧
         to_state first = Running ∧ chained Running log (inst_status i)) ∧
      map transition_seq (db_transitions db) = seqZ 1 (Z.of_nat (length (db_transitions db))) ∧
      inst_version i = Z.of_nat (length (db_transitions db)) ∧
      toggled Active 1 (db_controls db) (inst_control_state i) (inst_control_version i) ∧
      inst_control_version i = 1 + Z.of_nat (length (db_controls db))
  end.

(** *** Versions are BIGINTs *)

Definition versions_bounded (db : Db) : Prop :=
  ∀ i, db_instance db = Some i →
    1 ≤ inst_version i ≤ I64_MAX ∧ 1 ≤ inst_control_version i ≤ I64_MAX.

Definition keeps_bounds (db db' : Db) : Prop := versions_bounded db → versions_bounded db'.

#[local] Instance bounded_preorder : PreOrder keeps_bounds.
Proof. split; [by intros db Hd|]. intros a b c Hab Hbc Ha. auto. Qed.
#[local] Instance bounded_ledger_free : LedgerFree keeps_bounds.
Proof. by intros db ledger Hb. Qed.

#[local] Instance bounded_closed : StoreClosed keeps_bounds.
Proof.
  apply closed_of_core; [exact _| | | |]; unfold keeps_bounds, versions_bounded.
  - intros db db' [-> _]. done.
  - intros saga v from spec db out db' Ho Hb.
    destruct out; [|by apply store_advance_spec in Ho; subst|by apply store_advance_spec in Ho as [-> _]].
    pose proof (advance_version_bounded _ _ _ _ _ _ _ Ho) as Hle. apply store_advance_spec in Ho.
    destruct Ho as (i & Hi & _ & Hv & _ & _ & _ & Hnv & _ & ->). intros j [= <-]. simpl.
    apply Hb in Hi. lia.
  - intros others spec db out db' Ho%create_spec Hb. destruct out; [|by destruct Ho as [-> _]].
    destruct Ho as (_ & _ & _ & ->). intros j [= <-]. simpl. unfold I64_MAX. lia.
  - intros spec db out db' Ho%set_control_spec Hb. destruct out; [|by destruct Ho as [-> _]|by subst].
    destruct Ho as (_ & i & Hi & _ & _ & _ & Hv & ->). intros j [= <-]. simpl. apply Hb in Hi. lia.
Qed.

Lemma life_bounded db : rtc (commits self) no_rows db → versions_bounded db.
Proof. intros Hl. by apply (history_closed self keeps_bounds _ _ Hl). Qed.

(** *** No rows without an instance *)

Definition no_orphans (db : Db) : Prop :=
  db_instance db = None → db = set_quota (db_quota db) no_rows.

Lemma orphans_kept db db' : commits self db db' → no_orphans db → no_orphans db'.
Proof.
  intros Hc Ho Hn'. assert (db_instance db = None) as Hn.
  { pose proof (commits_closed self follows _ _ Hc) as Hf. unfold follows in Hf. rewrite Hn' in Hf.
    by destruct (db_instance db). }
  specialize (Ho Hn). destruct Hc as [db db' [env now auth out a b Hr|timer token now out a b Hr|
    picked owner token now lease limit rows a b Hr|id token now at_ms out a b Hr|
    others request trace auth auth' out a b Hr|act r out a b Hr]|db ledger]; [..|by rewrite Ho].
  - apply handle_cases in Hr as [[_ ->]|(? & ? & ? & _ & ? & _)]; [done|congruence].
  - unfold fire_timer, load_instance in Hr. rewrite Ho in Hr. inv_tx. simpl in *. inv_tx.
    unfold complete_timer in *; inv_tx. simpl in *. by inv_tx.
  - unfold claim_due_timers in Hr. rewrite Ho in Hr. inv_tx. destruct (negb _); [|done]. by inv_tx.
  - unfold release_timer in Hr. rewrite Ho in Hr. inv_tx. simpl in *. by inv_tx.
  - apply start_cases in Hr as (plan & _ & Hr). destruct out as [row|row]; [|by destruct Hr as [-> _]].
    destruct Hr as (_ & _ & [Hi _]%rows_launch). rewrite Hi in Hn'. done.
  - apply manage_effects in Hr as (i & Hi & _). congruence.
Qed.

(** C19. Every reachable state of a saga is well formed.  The tables have distinct
    keys.  Without an instance no table has a row, whatever other sagas did to
    the quota ledger.  With one, the transition log starts with its creation
    from nothing to [RUNNING] and is a chain of checked transitions up to the
    row's status, numbered from 1 up to its version; the control log alternates
    from [ACTIVE] up to its control state, numbered up to its control version;
    and both versions fit the BIGINT columns they are kept in.  The other
    columns of the row are not in the logs, and nothing is said of them. *)
Theorem saga_rows_well_formed (db : Db) (Hlife : rtc (commits self) no_rows db) :
  distinct_keys db ∧ no_orphans db ∧ logs_complete db ∧ versions_bounded db.
Proof.
  split; [by apply (history_closed self keeps_keys _ _ Hlife), no_rows_distinct|].
  split; [by apply (rtc_ind_r no_orphans) with (3 := Hlife); [|intros ? ? _; apply orphans_kept]|].
  split; [|by apply life_bounded].
  apply (history_closed self follows) in Hlife. unfold follows in Hlife. simpl in Hlife.
  unfold logs_complete. destruct (db_instance db) as [i|]; [|done].
  destruct Hlife as (spec & log & controls & Ht & Hc & [Hl Hs Hv Htog _ _ _]). simpl in *. subst controls.
  rewrite Ht. split_and!.
  - by exists (first_transition spec), log.
  - cbn [map length]. rewrite Hs, (seqZ_cons 1) by lia. do 2 f_equal. lia.
  - cbn [length]. lia.
  - done.
  - by apply toggled_version in Htog.
Qed.

(** The saga a request is about is there in every later state. *)
Lemma target_persists db db' i :
  db_instance db = Some i → rtc (commits self) db db' →
  ∃ i', db_instance db' = Some i' ∧ inst_saga_id i' = inst_saga_id i ∧ inst_tenant i' = inst_tenant i ∧
    contract_of i' = contract_of i.
Proof.
  intros Hi Hh. apply (history_closed self follows) in Hh. unfold follows in Hh. rewrite Hi in Hh.
  destruct (db_instance db') as [i'|]; [|done]. destruct Hh as (? & ? & _ & _ & [_ _ _ _ Hc _ _]).
  exists i'. split_and!; [done| | |done]; unfold contract_of in Hc; by simplify_eq.
Qed.

(** ** Repeating an operation *)

Lemma find_first_prefix {A} (p : A → bool) l l' x :
  l `prefix_of` l' → find_first p l = Some x → find_first p l' = Some x.
Proof. intros [k ->] Hf. by rewrite find_first_app, Hf. Qed.

Lemma load_target_found tenant saga_id db i :
  db_instance db = Some i → inst_saga_id i = saga_id → inst_tenant i = tenant →
  load_target tenant saga_id db = Ok (i, db).
Proof.
  intros Hi Hid Ht. unfold load_target, load_instance, bind, read. rewrite Hi.
  by rewrite bool_decide_eq_true_2, bool_decide_eq_true_2.
Qed.

(** A control transition whose operation is recorded, asked for again. *)
Lemma set_control_again spec spec' db out db1 db2 prior :
  set_control_state spec db = Ok (out, db1) →
  (ctl_from spec', ctl_to spec', ctl_operation_id spec', ctl_actor spec', ctl_reason spec')
  = (ctl_from spec, ctl_to spec, ctl_operation_id spec, ctl_actor spec, ctl_reason spec) →
  1 ≤ ctl_expected_control_version spec' ≤ I64_MAX →
  find_first (has_operation (ctl_operation_id spec)) (db_controls db2) = Some prior →
  same_control spec prior = true →
  set_control_state spec' db2 = Ok (Control_AlreadyApplied, db2).
Proof.
  unfold set_control_state, same_control. intros Hr [= -> -> -> -> ->] Hcv Hf Hs.
  destruct (negb (bool_decide (ctl_from spec = ctl_to spec))); [|done].
  destruct (negb (_ || (_ =? U64_MAX))); [|done].
  replace ((ctl_expected_control_version spec' =? 0) || (ctl_expected_control_version spec' =? U64_MAX))
    with false by (unfold U64_MAX, I64_MAX in *; lia). simpl.
  do 3 (apply bind_Ok in Hr as (? & ? & [Hx ->]%lift_Ok & Hr); unfold bind at 1, lift at 1; rewrite Hx; clear Hx).
  unfold bind at 1, read. rewrite Hf, Hs. done.
Qed.

(** Where an applied switch is recorded. *)
Lemma switch_recorded m tenant saga_id op e from to wake db db' :
  (wake = ret tt ∨ wake = (do! wake_saga_timers in ret tt)) →
  switch_control self m tenant saga_id op e from to wake db = Ok (tt, db') →
  ∃ i prior, db_instance db' = Some i ∧ inst_saga_id i = saga_id ∧ inst_tenant i = tenant ∧
    find_first (has_operation op) (db_controls db') = Some prior ∧
    control_from prior = from ∧ control_to prior = to ∧
    control_actor prior = actor m ∧ control_reason prior = reason m.
Proof.
  intros Hw (i & Hi & Hid & Ht & [(-> & prior & Hf & Hp)|(Hc & _ & Hn & Hwake)])%switch_cases.
  - exists i, prior. destruct Hp as (? & ? & ? & ?). by split_and!.
  - apply wake_footprint in Hwake; [|done]. rewrite Hwake.
    exists (control_row i to), (mkControlRow (inst_control_version i + 1) from to op (actor m) (reason m)).
    split; [reflexivity|]. split_and!; [done|done| |done..]. simpl.
    rewrite find_first_app, Hn. simpl. unfold has_operation. simpl. by rewrite bool_decide_eq_true_2.
Qed.

Lemma switch_again m tenant saga_id op e e' from to wake db db1 db2 i prior :
  switch_control self m tenant saga_id op e from to wake db = Ok (tt, db1) →
  db_instance db2 = Some i → inst_saga_id i = saga_id → inst_tenant i = tenant →
  1 ≤ inst_control_version i ≤ I64_MAX →
  find_first (has_operation op) (db_controls db2) = Some prior →
  control_from prior = from → control_to prior = to →
  control_actor prior = actor m → control_reason prior = reason m →
  switch_control self m tenant saga_id op e' from to wake db2 = Ok (tt, db2).
Proof.
  unfold switch_control. intros (j & ? & _ & Hr)%bind_Ok Hi Hid Ht Hcv Hf Hfrom Hto Ha Hwhy.
  apply bind_Ok in Hr as (out & ? & Hs & _).
  unfold bind at 1. rewrite (load_target_found _ _ _ _ Hi Hid Ht). unfold bind at 1.
  erewrite (set_control_again _ _ _ _ _ db2 prior Hs); [done|done|done|done|].
  unfold same_control. simpl. by rewrite !bool_decide_eq_true_2.
Qed.

(** A recovery whose operation is recorded, asked for again. *)
Lemma recovery_again m tenant saga_id op action e e' act act' db s db1 db2 i prior :
  recovery self m tenant saga_id op action e act db = Ok (s, db1) →
  db_instance db2 = Some i → inst_saga_id i = saga_id → inst_tenant i = tenant →
  find_first (audit_of op) (db_audits db2) = Some prior →
  same_audit action (actor m) (reason m) prior = true →
  recovery self m tenant saga_id op action e' act' db2 = Ok (inst_status i, db2).
Proof.
  unfold recovery. intros (j & ? & _ & Hr)%bind_Ok Hi Hid Ht Hf Hs.
  apply bind_Ok in Hr as (out & ? & Ha & _).
  unfold bind at 1. rewrite (load_target_found _ _ _ _ Hi Hid Ht).
  enough (record_management_operation op action (actor m) (reason m) db2 = Ok (Audit_AlreadyRecorded, db2))
    as Hrec by (unfold bind at 1; by rewrite Hrec).
  unfold record_management_operation in *.
  do 4 (apply bind_Ok in Ha as (? & ? & [Hx ->]%lift_Ok & Ha); unfold bind at 1, lift at 1; rewrite Hx; clear Hx).
  unfold bind at 1, read. by rewrite Hf, Hs.
Qed.

Lemma recovery_recorded a op action act m tenant saga_id e db s db' :
  recovers self a op = Some (action, act) →
  recovery self m tenant saga_id op action e act db = Ok (s, db') →
  ∃ prior, find_first (audit_of op) (db_audits db') = Some prior ∧
    same_audit action (actor m) (reason m) prior = true.
Proof.
  intros Hact (i & _ & _ & _ & [(-> & _ & Hp)|(_ & _ & Hn & Hrun)])%recovery_cases; [done|].
  assert (Keeps evidence_kept (act i)) as Hk.
  { destruct a; simplify_eq/=; [eapply keeps_retry_compensation_act|eapply keeps_retry_resolution_act|
      eapply keeps_manual_close_act]; exact _. }
  apply Hk, kept_audits in Hrun. eexists. split.
  - eapply find_first_prefix; [exact Hrun|]. simpl. rewrite find_first_app, Hn. simpl.
    unfold audit_of. simpl. by rewrite bool_decide_eq_true_2.
  - unfold same_audit. simpl. by rewrite !bool_decide_eq_true_2.
Qed.
Lemma switch_replays m tenant saga_id op e e' from to wake db db1 db2 :
  (wake = ret tt ∨ wake = (do! wake_saga_timers in ret tt)) →
  switch_control self m tenant saga_id op e from to wake db = Ok (tt, db1) →
  rtc (commits self) no_rows db2 → rtc (commits self) db1 db2 →
  switch_control self m tenant saga_id op e' from to wake db2 = Ok (tt, db2).
Proof.
  intros Hw Hs Hlife Hh.
  destruct (switch_recorded _ _ _ _ _ _ _ _ _ _ Hw Hs) as (i & prior & Hi & Hid & Ht & Hf & ? & ? & ? & ?).
  destruct (target_persists _ _ _ Hi Hh) as (i' & Hi' & Hid' & Ht' & _).
  eapply switch_again; [exact Hs|exact Hi'|congruence|congruence| |..|done|done|done|done].
  - by apply (life_bounded _ Hlife).
  - eapply find_first_prefix; [|exact Hf]. apply (history_closed self evidence_kept _ _ Hh).
Qed.

Lemma recovery_replays a m tenant saga_id op action act act' e e' db s db1 db2 :
  recovers self a op = Some (action, act) →
  recovery self m tenant saga_id op action e act db = Ok (s, db1) → rtc (commits self) db db2 →
  rtc (commits self) db1 db2 →
  ∃ s', status_of db2 = Some s' ∧
    recovery self m tenant saga_id op action e' act' db2 = Ok (s', db2).
Proof.
  intros Ha Hr Hall Hh. destruct (recovery_recorded _ _ _ _ _ _ _ _ _ _ _ Ha Hr) as (prior & Hf & Hs).
  destruct (recovery_cases _ _ _ _ _ _ _ _ _ _ _ Hr) as (i & Hi & Hid & Ht & _).
  destruct (target_persists _ _ _ Hi Hall) as (i' & Hi' & Hid' & Ht' & _).
  exists (inst_status i'). split; [unfold status_of; by rewrite Hi'|].
  eapply recovery_again; [exact Hr|exact Hi'|congruence|congruence| |exact Hs].
  eapply find_first_prefix; [|exact Hf]. apply (history_closed self evidence_kept _ _ Hh).
Qed.

(** A management operation takes effect once: in the life of a saga, after an
    action was committed and any further history, asking for it again under
    the same operation id, by the same principal for the same reason, at
    whatever time and having seen whatever versions, commits nothing; it
    reports success, with the current status where the action reports one. *)
Theorem management_replay_absorbed (a a' : ManagementAction) (r : ManagementRequest)
    (e' : SagaManagementExpectation) (db db1 db2 : Db) (out : option SagaStatus)
    (Hlife : rtc (commits self) no_rows db) (Hfirst : manage self a r db = Ok (out, db1))
    (Hh : rtc (commits self) db1 db2) (Hsame : needs a' = needs a) :
  ∃ out', manage self a' (mkManagementRequest (by_whom r) (of_tenant r) (of_saga r) (operation r) e') db2
          = Ok (out', db2) ∧ (out' = None ∨ out' = status_of db2).
Proof.
  assert (rtc (commits self) db db2) as Hall by (eapply rtc_l; [by eapply commit_own, commit_managed|done]).
  assert (rtc (commits self) no_rows db2) as Hlife2 by (by etrans).
  unfold manage, pause, resume, retry_compensation, retry_resolution, manual_close in *.
  destruct a, a'; try discriminate Hsame; clear Hsame; simpl in *;
    apply bind_Ok in Hfirst as (x & ? & Hr & [= <- <-]);
    apply bind_Ok in Hr as (u & ? & [Hp ->]%lift_Ok & Hr);
    unfold bind at 1; unfold bind at 1; unfold lift at 1; rewrite Hp.
  - destruct x. rewrite (switch_replays _ _ _ _ _ e' _ _ _ _ _ db2 (or_introl eq_refl) Hr) by done.
    exists None. auto.
  - destruct x. rewrite (switch_replays _ _ _ _ _ e' _ _ _ _ _ db2 (or_intror eq_refl) Hr) by done.
    exists None. auto.
  - destruct (recovery_replays (Action_RetryCompensation now_ms) _ _ _ _ _ _
      (retry_compensation_act self (operation r) now_ms0) _ e' _ _ _ db2 eq_refl Hr Hall Hh) as (s & Hs & ->).
    exists (Some s). auto.
  - destruct (recovery_replays (Action_RetryResolution now_ms) _ _ _ _ _ _
      (retry_resolution_act self (operation r) now_ms0) _ e' _ _ _ db2 eq_refl Hr Hall Hh) as (s & Hs & ->).
    exists (Some s). auto.
  - destruct (negb _); [done|]. destruct (recovery_replays Action_ManualClose _ _ _ _ _ _
      (manual_close_act (operation r)) _ e' _ _ _ db2 eq_refl Hr Hall Hh) as (s & Hs & ->).
    exists (Some s). auto.
Qed.

(** ** Starting again *)

Lemma create_again others others' spec db row db1 db2 i :
  create_instance others spec db = Ok (Created row, db1) →
  db_instance db2 = Some i → contract_of i = contract_of (new_row spec) →
  create_instance others' spec db2 = Ok (Existing i, db2).
Proof.
  unfold create_instance. intros Hr Hi Hc. unfold contract_of in Hc. simpl in Hc.
  do 5 (apply bind_Ok in Hr as (? & ? & [Hx ->]%lift_Ok & Hr); unfold bind at 1, lift at 1; rewrite Hx; clear Hx).
  unfold bind at 1, load_instance, read. rewrite Hi. injection Hc as -> Ht Hw Hb _ _ Hd _.
  rewrite bool_decide_eq_true_2 by done. unfold same_business, accept_existing, same_request.
  rewrite Ht, Hw, Hb, Hd. by rewrite !bool_decide_eq_true_2.
Qed.

Lemma started_created others request trace auth auth' db row db1 :
  start_saga self others request trace auth auth' db = Ok (Started row, db1) →
  ∃ plan mid, plan_start self request trace = Ok plan ∧
    create_instance others (plan_spec plan) db = Ok (Created row, mid) ∧
    launch self request plan row mid = Ok (Started row, db1).
Proof.
  unfold start_saga. intros (? & ? & [_ ->]%lift_Ok & Hr)%bind_Ok.
  apply bind_Ok in Hr as (plan & ? & [Hp ->]%lift_Ok & Hr).
  apply authorized_Ok in Hr as (_ & (c & mid & Hc%map_err_Ok & Ho)%bind_Ok & _). destruct c as [row'|row']; [|by inv_tx].
  exists plan, mid. split; [done|].
  assert (row' = row) as ->; [|done].
  revert Ho. unfold launch. destruct (negb _); [|done]. intros Ho. inv_tx.
  match goal with q : QuotaReservation |- _ => destruct q end; [|done]. by inv_tx; simplify_eq.
Qed.

(** The created row is the instance of every later state, with its contract. *)
Lemma started_persists others request trace auth auth' db row db1 db2 :
  start_saga self others request trace auth auth' db = Ok (Started row, db1) →
  rtc (commits self) db1 db2 →
  ∃ plan i, plan_start self request trace = Ok plan ∧
    (∃ mid, create_instance others (plan_spec plan) db = Ok (Created row, mid)) ∧
    db_instance db2 = Some i ∧ contract_of i = contract_of (new_row (plan_spec plan)).
Proof.
  intros (plan & mid & Hp & Hc & [Hi _]%rows_launch)%started_created Hh.
  pose proof (create_spec _ _ _ _ _ Hc) as (-> & _ & _ & ->).
  destruct (target_persists db1 db2 (new_row (plan_spec plan))) as (i & Hi2 & _ & _ & Hk); [by rewrite Hi|done|].
  exists plan, i. eauto.
Qed.

(** Starting is idempotent: after a start was committed and any further
    history, the same request under an authority that holds, whatever other
    sagas there are by then, finds its saga where it stands and commits
    nothing; no second instance, command or timer comes of it. *)
Theorem start_replay_absorbed (others others' : list SagaInstanceRow) (request : StartSagaRequest)
    (trace : option string) (entry : SagaResult unit) (auth auth' : Authority) (db db1 db2 : Db) (row : SagaInstanceRow)
    (Hfirst : start_saga self others request trace entry auth db = Ok (Started row, db1))
    (Hh : rtc (commits self) db1 db2) :
  ∃ i, db_instance db2 = Some i ∧ contract_of i = contract_of row ∧
    start_saga self others' request trace (Ok tt) auth' db2
    = (let? _ := poll_authorized (at_polls auth') in
       let? _ := at_commit auth' in
       Ok (AlreadyExists i, db2)).
Proof.
  destruct (started_persists _ _ _ _ _ _ _ _ _ Hfirst Hh) as (plan & i & Hp & (mid & Hc) & Hi & Hk).
  exists i. pose proof (create_spec _ _ _ _ _ Hc) as (-> & _). split_and!; [done|done|].
  unfold start_saga. unfold bind at 1. simpl. unfold bind at 1, lift at 1. rewrite Hp.
  unfold run_authorized_for, bind at 1, lift at 1. destruct (poll_authorized _) as [[]|]; [|done].
  simpl. unfold bind at 1 2, on_error. rewrite (create_again _ others' _ _ _ _ _ _ Hc Hi Hk).
  unfold bind, lift. simpl. by destruct (at_commit auth') as [[]|].
Qed.

(** ** Closed by hand *)

(** A logged close has its audit. *)
Definition close_audited (db : Db) (t : TransitionRow) : Prop :=
  to_state t = ManuallyClosed →
  transition_trigger_kind t = Trigger_Admin ∧
  ∃ a, a ∈ db_audits db ∧ audit_operation_id a = transition_trigger_id t ∧
    audit_action a = MANUAL_CLOSE_ACTION.

Definition closes_audited (db db' : Db) : Prop :=
  db_audits db `prefix_of` db_audits db' ∧
  (Forall (close_audited db) (db_transitions db) → Forall (close_audited db') (db_transitions db')).

Lemma close_audited_mono db db' t :
  db_audits db `prefix_of` db_audits db' → close_audited db t → close_audited db' t.
Proof.
  intros Hp Hc Ht. destruct (Hc Ht) as (Hk & a & Ha & Hid & Hact). split; [done|]. exists a.
  split_and!; [by eapply elem_of_prefix|done..].
Qed.

#[local] Instance closes_preorder : PreOrder closes_audited.
Proof.
  split; [intros db; by split|]. intros a b c [Hab Kab] [Hbc Kbc]. split; [by etrans|auto].
Qed.

(** The guard of a close is read from the audit of the same transaction. *)
Lemma advance_close_audited saga v from spec db nv db' :
  store_advance saga v from spec db = Ok (Cas_Applied nv, db') →
  close_audited db (logged spec from nv).
Proof.
  unfold store_advance. intros Ho Hto. simpl in Hto.
  do 3 (apply bind_Ok in Ho as (? & ? & [_ ->]%lift_Ok & Ho)).
  apply bind_Ok in Ho as (guard & db1 & Hg & Ho).
  apply bind_Ok in Ho as ([] & ? & [Hck%map_err_Ok _]%lift_Ok & _).
  apply check_transition_Ok in Hck as (_ & _ & Ha). specialize (Ha Hto).
  unfold advance_guard in Hg. rewrite Hto in Hg.
  rewrite (bool_decide_eq_false_2 (ManuallyClosed = Running)), andb_false_r in Hg by done.
  rewrite bool_decide_eq_true_2 in Hg by done. simpl.
  case_bool_decide as Hk; [|by injection Hg as <- <-]. split; [done|].
  apply bind_Ok in Hg as (b & ? & Hb & [= <- <-]). simpl in Ha. subst b.
  apply bind_Ok in Hb as (b & ? & [= <- <-] & [Hb%decode_present_Ok _]%lift_Ok). symmetry in Hb.
  apply existsb_elem_of in Hb as (a & Hin & [Hid Hact]%andb_true_iff).
  apply bool_decide_eq_true in Hid, Hact. eauto.
Qed.

Lemma logs_kept db db' :
  db_audits db `prefix_of` db_audits db' → db_transitions db' = db_transitions db → closes_audited db db'.
Proof.
  intros Hp Ht. split; [done|]. rewrite Ht. intros Hall. eapply Forall_impl; [exact Hall|].
  intros t. by apply close_audited_mono.
Qed.

#[local] Instance closes_ledger_free : LedgerFree closes_audited.
Proof. by intros db ledger. Qed.

#[local] Instance closes_closed : StoreClosed closes_audited.
Proof.
  apply closed_of_evidence; [exact _| | | |].
  - intros db db' (_ & Ht & _) He. by apply logs_kept; [apply He|].
  - intros saga v from spec db out db' Hr. pose proof (store_advance_spec _ _ _ _ _ _ _ Hr) as Ho.
    destruct out; [|by subst|by destruct Ho as [-> _]].
    destruct Ho as (i & _ & _ & _ & _ & _ & _ & _ & _ & ->). split; [done|]. simpl. intros Hall.
    apply Forall_app_2; [by eapply Forall_impl; [exact Hall|]|].
    constructor; [|constructor]. by apply advance_close_audited in Hr.
  - intros others spec db out db' Ho%create_spec. destruct out; [|by destruct Ho as [-> _]].
    destruct Ho as (_ & _ & _ & ->). split; [done|]. simpl. intros Hall.
    apply Forall_app_2; [by eapply Forall_impl; [exact Hall|]|]. constructor; [|constructor]. by intros [=].
  - intros spec db out db' Ho%set_control_spec. destruct out; [|by destruct Ho as [-> _]|by subst].
    destruct Ho as (_ & i & _ & _ & _ & _ & _ & ->). by apply logs_kept.
Qed.

Lemma chained_last s log s' :
  chained s log s' → log = [] ∧ s' = s ∨ ∃ log' t, log = log' ++ [t] ∧ to_state t = s'.
Proof.
  destruct log as [|t log' _] using rev_ind; [by left|]. intros Hc. right.
  exists log', t. split; [done|].
  revert s Hc. induction log' as [|r l IH]; simpl; intros s; [by intros (_ & _ & ->)|naive_solver].
Qed.

(** Nothing is closed by hand without its audit: in the life of a saga, if it
    is [MANUALLY_CLOSED] then the last transition of its log closed it, was
    triggered by an administrator's operation, and the audit log holds that
    operation under the action of a manual close, with the actor and the
    reason.  It takes a driver that reads the guard; below is one that does
    not. *)
Theorem manually_closed_is_audited (db : Db) (Hlife : rtc (commits self) no_rows db)
    (Hclosed : status_of db = Some ManuallyClosed) :
  ∃ log t a, db_transitions db = log ++ [t] ∧ to_state t = ManuallyClosed ∧
    transition_trigger_kind t = Trigger_Admin ∧ a ∈ db_audits db ∧
    audit_operation_id a = transition_trigger_id t ∧ audit_action a = MANUAL_CLOSE_ACTION.
Proof.
  pose proof (history_closed self closes_audited _ _ Hlife) as [_ Hall]. specialize (Hall (Forall_nil_2 _)).
  apply (history_closed self follows) in Hlife. unfold follows in Hlife. simpl in Hlife.
  unfold status_of in Hclosed. destruct (db_instance db) as [i|]; [|done]. injection Hclosed as Hst.
  destruct Hlife as (spec & log & controls & Ht & _ & [Hl _ _ _ _ _ _]). simpl in *.
  rewrite Hst in Hl. apply chained_last in Hl as [[-> ?]|(log' & t & -> & Hto)]; [done|].
  exists (first_transition spec :: log'), t. rewrite Ht in Hall.
  apply Forall_cons in Hall as [_ [_ [Ha _]%Forall_cons]%Forall_app].
  destruct (Ha Hto) as (Hk & a & Hin & Hid & Hact). exists a. by split_and!.
Qed.

(** *** A driver that refuses the guards *)

(** A transition whose guard is read with [try_get::<i64>]. *)
Definition guarded_by_exists (t : TransitionRow) : Prop :=
  to_state t = ManuallyClosed ∨ (from_state t = Some ManualIntervention ∧ to_state t = Running).

Definition stays_unguarded (db db' : Db) : Prop :=
  Forall (λ t, ¬ guarded_by_exists t) (db_transitions db) →
  Forall (λ t, ¬ guarded_by_exists t) (db_transitions db').

#[local] Instance unguarded_preorder : PreOrder stays_unguarded.
Proof. split; [by intros db Hd|]. intros a b c Hab Hbc Ha. auto. Qed.
#[local] Instance unguarded_ledger_free : LedgerFree stays_unguarded.
Proof. by intros db ledger Hb. Qed.

Section refusing.
Context (Hrefuses : ∀ present, try_get_i64 present = None).

Lemma refused_present present : decode_present present = Err (Store "database operation failed").
Proof using Hrefuses. unfold decode_present. by rewrite Hrefuses. Qed.

Lemma refused_advance saga v from spec db nv db' :
  store_advance saga v from spec db = Ok (Cas_Applied nv, db') → ¬ guarded_by_exists (logged spec from nv).
Proof using Hrefuses.
  unfold store_advance. intros Ho.
  do 3 (apply bind_Ok in Ho as (? & ? & [_ ->]%lift_Ok & Ho)).
  apply bind_Ok in Ho as (guard & db1 & Hg & Ho).
  apply bind_Ok in Ho as ([] & ? & [Hck%map_err_Ok _]%lift_Ok & _).
  apply check_transition_Ok in Hck as (_ & _ & Ha).
  unfold advance_guard, store_any_compensation_succeeded, store_manual_close_audited in Hg.
  intros [Hto|[[= Hfrom] Hto]]; simpl in *; rewrite ?Hfrom, Hto in *.
  - rewrite andb_false_r in Hg. simpl in Hg. case_bool_decide.
    + inv_tx. by match goal with Hd : decode_present _ = Ok _ |- _ => rewrite refused_present in Hd end.
    + inv_tx. by specialize (Ha eq_refl).
  - simpl in Hg. inv_tx.
    by match goal with Hd : decode_present _ = Ok _ |- _ => rewrite refused_present in Hd end.
Qed.

#[local] Instance unguarded_closed : StoreClosed stays_unguarded.
Proof using Hrefuses.
  apply closed_of_core; [exact _| | | |]; unfold stays_unguarded.
  - by intros db db' (_ & -> & _).
  - intros saga v from spec db out db' Hr Hall. pose proof (store_advance_spec _ _ _ _ _ _ _ Hr) as Ho.
    destruct out; [|by subst|by destruct Ho as [-> _]].
    destruct Ho as (i & _ & _ & _ & _ & _ & _ & _ & _ & ->). simpl.
    apply Forall_app_2; [done|]. constructor; [|constructor]. by apply refused_advance in Hr.
  - intros others spec db out db' Ho%create_spec Hall. destruct out; [|by destruct Ho as [-> _]].
    destruct Ho as (_ & _ & _ & ->). simpl. apply Forall_app_2; [done|].
    constructor; [|constructor]. by intros [|[[=] _]].
  - intros spec db out db' Ho%set_control_spec. destruct out; [|by destruct Ho as [-> _]|by subst].
    by destruct Ho as (_ & i & _ & _ & _ & _ & _ & ->).
Qed.

(** With a driver that refuses to read the answer of [SELECT EXISTS] as an
    [i64], as that of PostgreSQL does, no saga is ever closed by hand or sent
    forward again from manual intervention, whoever asks. *)
Theorem guards_refused_by_driver (db : Db) (Hlife : rtc (commits self) no_rows db) :
  status_of db ≠ Some ManuallyClosed ∧ Forall (λ t, ¬ guarded_by_exists t) (db_transitions db).
Proof using Hrefuses.
  assert (Forall (λ t, ¬ guarded_by_exists t) (db_transitions db)) as Hall
    by by apply (history_closed self stays_unguarded _ _ Hlife).
  split; [|done]. intros Hs. unfold status_of in Hs. apply (history_closed self follows) in Hlife.
  unfold follows in Hlife. simpl in Hlife. destruct (db_instance db) as [i|]; [|done].
  destruct Hlife as (spec & log & controls & Ht & _ & [Hl _ _ _ _ _ _]). injection Hs as Hs.
  rewrite Ht in Hall. apply chained_last in Hl as [[-> Hi]|(log' & t & -> & Hto)].
  - rewrite Hs in Hi. done.
  - apply Forall_cons in Hall as [_ Hall]. apply Forall_app in Hall as [_ Hall].
    apply Forall_cons in Hall as [Hall _]. apply Hall. left. congruence.
Qed.
End refusing.

(** ** The timer worker *)

Lemma run_timers_history saga_id token now elapsed index applied timers db :
  rtc (commits self) db (run_timers self saga_id token now elapsed index applied timers db).2.
Proof.
  revert index applied db. induction timers as [|row timers IH]; intros index applied db; simpl; [reflexivity|].
  destruct (elapsed_epoch_ms now (elapsed index)) as [t|]; [|reflexivity].
  destruct (fire_timer self (claimed_row saga_id row) token t db) as [[out db1]|] eqn:Hf; [|reflexivity].
  apply (rtc_l _ _ db1); [by eapply commit_own, commit_timer|]. destruct out; try apply IH.
  destruct (bind _ _ db1) as [[o db2]|] eqn:Hr; [|reflexivity].
  apply bind_Ok in Hr as (rn & ? & [_ ->]%lift_Ok & Hr). apply bind_Ok in Hr as (at_ms & ? & [_ ->]%lift_Ok & Hr).
  apply (rtc_l _ _ db2); [by eapply commit_own, commit_release|apply IH].
Qed.

(** A round of the timer worker is a history: whatever it claims, wherever it
    stops and whatever error it returns, what it leaves committed is reached by
    the committed steps of this relation, so everything proved of histories
    holds across rounds that fail halfway. *)
Theorem worker_round_is_history (picked : TimerRow → bool) (saga_id : SagaId) (owner token : string)
    (now_ms : Z) (elapsed : nat → Z) (db : Db) :
  rtc (commits self) db (run_due_timers self picked saga_id owner token now_ms elapsed db).2.
Proof.
  unfold run_due_timers. destruct (claim_due_timers _ _ _ _ _ _ db) as [[rows db1]|] eqn:Hc; [|reflexivity].
  apply (rtc_l _ _ db1); [by eapply commit_own, commit_claim|apply run_timers_history].
Qed.
End life.
