(* ===== verification/SagaQuota.v ===== *)
(** * The ledgers of a tenant

    Models the rest of [nasaga-pgsql/src/quota.rs] and [action_rate.rs]: the
    reconciliation and the readings of the quota ledger, whose reservation and
    release are operations of [SagaStore], and the fixed windows in which
    management actions are counted.  A fleet is the rows of all sagas with the
    ledger they share; its histories are committed transactions of any saga, in
    any order, each of which finds the ledger as the one before left it. *)

From Stdlib Require Import ZArith Lia Sorted.
From S2P Require Import Prelude Bytes SagaIdentity SagaState SagaDefinition SagaPlan SagaEnvelope.
From S2P Require Import SagaStore SagaAdminStore SagaRegistry SagaOrchestrator SagaStart SagaManagement.
From S2P Require Import SagaSafety SagaAdmin SagaEnds SagaRecovery SagaHistory SagaLife.
From stdpp Require Import prelude strings list relations gmap.

Local Open Scope Z_scope.
Local Open Scope rust_scope.

(** ** Reading and reconciling the quota ledger *)

Definition tenant_quota_initialized (tenant : TenantId) (ledger : QuotaLedger) : bool :=
  match ledger !! TenantId_as_str tenant with Some row => initialized row | None => false end.

Definition tenant_quota_usage (tenant : TenantId) (ledger : QuotaLedger) : SagaResult Z :=
  match ledger !! TenantId_as_str tenant with
  | Some row =>
      ensure 0 <=? in_flight row else Store "tenant quota value is invalid" in Ok (in_flight row)
  | None => Ok 0
  end.

(** [actual] is the [COUNT] of the tenant's instances that have not ended. *)
Definition store_reconcile_tenant_quota (tenant : TenantId) (actual : Z) (ledger : QuotaLedger)
    : SagaResult (Z * QuotaLedger) :=
  let actual := Z.max actual 0 in
  ensure actual <=? I64_MAX else Store "tenant quota value overflow" in
  Ok (actual, put_quota tenant (mkQuota actual true) ledger).

(** ** Fleets *)

Section fleet.
Context `{Runtime} (self : Orchestrator).

(** The ledger, and the rows of each saga; the copy of the ledger in the rows
    of a saga is the one its last transaction left. *)
Record Fleet := mkFleet { fleet_ledger : QuotaLedger; fleet_rows : gmap string Db }.

Definition rows_of (id : string) (rows : gmap string Db) : Db := default no_rows (rows !! id).

Definition live_in (tenant : TenantId) (db : Db) : bool :=
  match db_instance db with
  | Some i => bool_decide (inst_tenant i = tenant) && negb (SagaStatus_is_terminal (inst_status i))
  | None => false
  end.

(** How many sagas of a tenant have not ended. *)
Definition live (tenant : TenantId) (rows : gmap string Db) : Z :=
  Z.of_nat (size (filter (λ entry, live_in tenant entry.2 = true) rows)).

Inductive fleet_step : Fleet → Fleet → Prop :=
| fleet_commits ledger rows id db' :
    transacts self (set_quota ledger (rows_of id rows)) db' →
    fleet_step (mkFleet ledger rows) (mkFleet (db_quota db') (<[id := db']> rows))
| fleet_reconciles ledger rows tenant n ledger' :
    store_reconcile_tenant_quota tenant (live tenant rows) ledger = Ok (n, ledger') →
    fleet_step (mkFleet ledger rows) (mkFleet ledger' rows).

(** *** What a transaction does to the count of a tenant *)

Lemma TenantId_str_ne (a b : TenantId) : a ≠ b → TenantId_as_str a ≠ TenantId_as_str b.
Proof. destruct a, b. simpl. congruence. Qed.

Lemma reserve_spec tenant cap ledger ledger' :
  reserve_in_flight tenant cap ledger = Ok (Quota_Reserved, ledger') →
  ledger' = put_quota tenant (mkQuota (in_flight (quota_row tenant ledger) + 1)
                                (initialized (quota_row tenant ledger))) ledger ∧
  ∀ c, cap = Some c → in_flight (quota_row tenant ledger) < c.
Proof.
  unfold reserve_in_flight, add_one, i64_checked_add. destruct cap as [c|].
  - destruct (_ <=? _); [|done]. simpl.
    destruct ((in_flight _ <? c) && _) eqn:E; [|destruct (negb _); done].
    apply andb_true_iff in E as [E%Z.ltb_lt _]. destruct (is_i64 _); [|done]. intros [= <-].
    split; [done|]. by intros ? [= <-].
  - destruct (is_i64 _); [|done]. by intros [= <-].
Qed.

Section balance.
Context (tenant : TenantId).

Definition counts (n : Z) (db : Db) : Prop := db_quota db !! TenantId_as_str tenant = Some (mkQuota n true).

(** On an instance that is there, the ledger follows the instance: if it counts
    this saga, then it still counts it exactly when it has not ended. *)
Definition balanced (db db' : Db) : Prop :=
  ∀ i, db_instance db = Some i →
  (∃ i', db_instance db' = Some i') ∧ (live_in tenant db' = true → live_in tenant db = true) ∧
  ∀ n, counts n db → Z.b2z (live_in tenant db) ≤ n →
    counts (n - Z.b2z (live_in tenant db) + Z.b2z (live_in tenant db')) db'.

#[local] Instance balanced_preorder : PreOrder balanced.
Proof.
  split.
  - intros db i Hi. split_and!; [by eauto|done|]. intros n Hn _. by rewrite Z.sub_add.
  - intros a b c Hab Hbc i Hi. destruct (Hab i Hi) as ((j & Hj) & Lab & Cab).
    destruct (Hbc j Hj) as (Hk & Lbc & Cbc). split_and!; [done|auto|]. intros n Hn Hle.
    specialize (Cbc _ (Cab n Hn Hle)). rewrite Z.add_simpl_r in Cbc. apply Cbc. lia.
Qed.

Lemma release_counts i n db ledger :
  db_quota db = ledger → counts n db → inst_tenant i = tenant → 0 < n →
  counts (n - 1) (set_quota (release_in_flight (inst_tenant i) ledger) db).
Proof.
  unfold counts, release_in_flight. intros <- Hn -> Hpos. simpl. rewrite Hn. simpl.
  replace (0 <? n) with true by (symmetry; by apply Z.ltb_lt). unfold put_quota. by rewrite lookup_insert_eq.
Qed.

Lemma release_counts_other i n db ledger :
  db_quota db = ledger → counts n db → inst_tenant i ≠ tenant →
  counts n (set_quota (release_in_flight (inst_tenant i) ledger) db).
Proof.
  unfold counts, release_in_flight, put_quota. intros <- Hn Hne. simpl. repeat case_match; try done.
  rewrite lookup_insert_ne; [done|]. by apply TenantId_str_ne.
Qed.

Lemma balanced_advance saga v from spec : Keeps balanced (store_advance saga v from spec).
Proof.
  intros db out db' Ho%store_advance_spec. destruct out; [|by subst|by destruct Ho as [-> _]].
  destruct Ho as (i & Hi & _ & _ & Hfrom & _ & _ & _ & Hstep & ->). intros j Hj.
  rewrite Hi in Hj. injection Hj as <-. split; [by eexists|].
  assert (SagaStatus_is_terminal (inst_status i) = false) as Hlive.
  { apply saga_step_can in Hstep. rewrite Hfrom. by destruct from, (to_status spec). }
  unfold live_in, quota_after. simpl. rewrite Hi, Hlive. clear Hlive. simpl.
  case_bool_decide as Ht; simpl; split; try done; intros n Hn Hle;
    destruct (SagaStatus_is_terminal (to_status spec)); simpl.
  - rewrite Z.add_0_r. apply release_counts; [done|done|done|lia].
  - by rewrite Z.sub_add.
  - rewrite Z.sub_0_r, Z.add_0_r. by apply release_counts_other.
  - by rewrite Z.sub_0_r, Z.add_0_r.
Qed.

#[local] Instance balanced_closed : StoreClosed balanced.
Proof.
  apply closed_of_core; [exact _| |apply balanced_advance| |].
  - intros db db' (Hi & _ & _ & Hq) i Hi0. unfold live_in, counts. rewrite Hi, Hq, Hi0.
    split_and!; [by eauto|done|]. intros n Hn _. by rewrite Z.sub_add.
  - intros others spec db out db' Ho%create_spec. destruct out; [|by destruct Ho as [-> _]].
    destruct Ho as (_ & Hn & _). intros i Hi. congruence.
  - intros spec db out db' Ho%set_control_spec. destruct out; [|by destruct Ho as [-> _]|by subst].
    destruct Ho as (_ & i & Hi & _ & _ & _ & _ & ->). intros j Hj. rewrite Hi in Hj. injection Hj as <-.
    unfold live_in. simpl. rewrite Hi. split_and!; [by eauto|done|]. intros n Hn _. by rewrite Z.sub_add.
Qed.

(** A start reserves for the instance it makes; what follows is balanced. *)
Lemma launch_reserves request plan i db out db' :
  launch self request plan i db = Ok (out, db') →
  ∃ ledger, reserve_in_flight (req_tenant request)
      (tenant_quotas (config self) !! TenantId_as_str (req_tenant request)) (db_quota db)
    = Ok (Quota_Reserved, ledger) ∧ balanced (set_quota ledger db) db'.
Proof.
  unfold launch, reserve_tenant_quota. destruct (negb _); [|done].
  intros (q & db1 & Hq & Hl)%bind_Ok. apply bind_Ok in Hq as (ledger & ? & [= <- <-] & Hq).
  apply bind_Ok in Hq as ([answer ledger] & ? & [Ha ->]%lift_Ok & Hq).
  apply bind_Ok in Hq as ([] & ? & [= <-] & [= <- <-]). simpl in *.
  destruct answer; [|done]. exists ledger. split; [done|].
  revert Hl. match goal with |- ?c _ = _ → _ => assert (Keeps balanced c) as Hk end; [|apply Hk].
  pose proof balanced_closed. pose proof (keeps_issue_command self balanced).
  pose proof (keeps_schedule_timer balanced). keeps.
Qed.

Lemma plan_tenant request trace plan :
  plan_start self request trace = Ok plan → new_tenant (plan_spec plan) = req_tenant request.
Proof.
  unfold plan_start. intros (d & _ & Hr)%result_bind_Ok. cbv zeta in Hr.
  apply result_bind_Ok in Hr as (step & _ & Hr). destruct (negb _); [|done].
  apply result_bind_Ok in Hr as (u & _ & Hr). apply result_bind_Ok in Hr as (l & _ & Hr). by simplify_eq/=.
Qed.

(** Where the count of the tenant goes in one transaction: up by a saga it
    starts, if that is below the cap; down by a saga that ends. *)
Definition moves_count (n : Z) (db db' : Db) : Prop :=
  let n' := n - Z.b2z (live_in tenant db) + Z.b2z (live_in tenant db') in
  counts n' db' ∧
  (n' ≤ n ∨ ∀ c, tenant_quotas (config self) !! TenantId_as_str tenant = Some c → n' ≤ c).

Lemma balanced_moves n i db db' :
  db_instance db = Some i → balanced db db' → counts n db → Z.b2z (live_in tenant db) ≤ n →
  moves_count n db db'.
Proof.
  intros Hi Hb Hn Hle. destruct (Hb i Hi) as (_ & Hl & Hc). split; [by apply Hc|]. left.
  destruct (live_in tenant db'); [rewrite Hl by done|]; simpl; [lia|destruct (live_in tenant db); simpl; lia].
Qed.

Lemma unchanged_moves n db db' :
  db_instance db' = db_instance db → db_quota db' = db_quota db → counts n db → moves_count n db db'.
Proof.
  intros Hi Hq Hn. unfold moves_count, counts, live_in in *. rewrite Hi, Hq, Z.sub_add. split; [done|lia].
Qed.

Lemma start_moves n others request trace entry auth db out db' :
  start_saga self others request trace entry auth db = Ok (out, db') → counts n db → 0 ≤ n →
  moves_count n db db'.
Proof.
  intros (plan & Hp%plan_tenant & Hr)%start_cases Hn Hpos.
  destruct out as [row|row]; [|destruct Hr as [-> _]; by apply unchanged_moves].
  destruct Hr as (Hrow & Hnone & Hl). pose proof (rows_launch _ _ _ _ _ _ _ Hl) as (Hi & _). simpl in Hi.
  apply launch_reserves in Hl as (ledger & [Hled Hcap]%reserve_spec & Hb). simpl in Hled, Hcap.
  unfold moves_count. assert (live_in tenant db = false) as -> by (unfold live_in; by rewrite Hnone).
  destruct (Hb row) as (_ & _ & Hc); [done|]. unfold live_in, counts in Hc |- *. simpl in Hc.
  rewrite Hi in *. subst row. simpl in *. rewrite Hp, andb_true_r in *. subst ledger.
  case_bool_decide as Ht; simpl in *.
  - rewrite Ht in *. unfold put_quota, quota_row, counts in *. rewrite Hn in *. rewrite lookup_insert_eq in Hc.
    simpl in *. rewrite (Hc (n + 1)) by (done || lia). split; [do 2 f_equal; lia|].
    right. intros c Hq. apply Hcap in Hq. lia.
  - unfold put_quota in Hc. rewrite lookup_insert_ne in Hc by (by apply TenantId_str_ne).
    rewrite (Hc n) by done. split; [do 2 f_equal; lia|lia].
Qed.

Lemma transaction_moves n db db' :
  transacts self db db' → counts n db → Z.b2z (live_in tenant db) ≤ n → moves_count n db db'.
Proof.
  intros Hc Hn Hle. assert (0 ≤ n) by (destruct (live_in tenant db); simpl in Hle; lia).
  destruct (db_instance db) as [i|] eqn:Hi.
  - destruct Hc as [env now auth out db db' Hr|timer token now out db db' Hr
      |picked owner token now lease limit rows db db' Hr|id token now at_ms out db db' Hr
      |others request trace auth auth' out db db' Hr|a r out db db' Hr]; [..|by eapply start_moves|];
      (eapply balanced_moves; [exact Hi| |done|done]); revert Hr.
    + apply (keeps_handle self balanced env now auth (λ _ _ _ _ _ _ _ _, I)).
    + apply (keeps_fire self balanced).
    + apply closed_claim.
    + apply closed_release.
    + apply (keeps_manage self balanced).
  - destruct Hc as [env now auth out db db' Hr|timer token now out db db' Hr
      |picked owner token now lease limit rows db db' Hr|id token now at_ms out db db' Hr
      |others request trace auth auth' out db db' Hr|a r out db db' Hr]; [..|by eapply start_moves|].
    + apply handle_cases in Hr as [[_ ->]|(? & ? & ? & _ & ? & _)]; [by apply unchanged_moves|congruence].
    + apply fire_cases in Hr as [[_ Hr]|(? & ? & ? & ? & ? & _ & ? & _)]; [|congruence].
      apply unchanged_moves; [by rewrite Hr..|done].
    + apply core_claim in Hr as (? & _ & _ & ?). by apply unchanged_moves.
    + apply core_release in Hr as (? & _ & _ & ?). by apply unchanged_moves.
    + apply manage_effects in Hr as (i & Hi0 & _). congruence.
Qed.
End balance.

(** *** Counting *)

Lemma live_insert tenant id db' rows :
  live tenant (<[id := db']> rows)
  = live tenant rows - Z.b2z (live_in tenant (rows_of id rows)) + Z.b2z (live_in tenant db').
Proof.
  unfold live, rows_of. set (P := λ entry : string * Db, live_in tenant entry.2 = true).
  assert (Z.of_nat (size (delete id (filter P rows)))
          = Z.of_nat (size (filter P rows)) - Z.b2z (live_in tenant (default no_rows (rows !! id)))) as Hsize.
  { destruct (filter P rows !! id) as [db|] eqn:Hf.
    - pose proof Hf as [Hdb Hl]%map_lookup_filter_Some. unfold P in Hl. simpl in Hl. rewrite Hdb. simpl.
      rewrite Hl, map_size_delete_Some by eauto.
      assert (size (filter P rows) ≠ 0%nat); [|simpl; lia].
      eapply map_size_ne_0_lookup_2. eauto.
    - rewrite map_size_delete_None by done. apply map_lookup_filter_None in Hf.
      replace (live_in _ _) with false; [simpl; lia|]. symmetry. destruct (rows !! id) as [db|]; [|done].
      simpl. destruct Hf as [|Hf]; [done|]. specialize (Hf db eq_refl). unfold P in Hf. simpl in Hf.
      by destruct (live_in tenant db). }
  destruct (live_in tenant db') eqn:Hl.
  - rewrite map_filter_insert_True by done. rewrite <- insert_delete_eq.
    rewrite map_size_insert_None by apply lookup_delete_eq. rewrite Nat2Z.inj_succ, Hsize. simpl. lia.
  - rewrite map_filter_insert_False by (unfold P; simpl; congruence).
    rewrite map_filter_delete, Hsize. simpl. lia.
Qed.

(** *** The ledger is exact *)

Definition exact (tenant : TenantId) (f : Fleet) : Prop :=
  fleet_ledger f !! TenantId_as_str tenant = Some (mkQuota (live tenant (fleet_rows f)) true).

Lemma live_counted tenant id rows : Z.b2z (live_in tenant (rows_of id rows)) ≤ live tenant rows.
Proof.
  pose proof (live_insert tenant id no_rows rows) as Hi. simpl in Hi.
  assert (0 ≤ live tenant (<[id:=no_rows]> rows)) by (unfold live; lia). lia.
Qed.

Lemma fleet_step_exact tenant f f' :
  fleet_step f f' → exact tenant f →
  exact tenant f' ∧
  (live tenant (fleet_rows f') ≤ live tenant (fleet_rows f) ∨
   ∀ c, tenant_quotas (config self) !! TenantId_as_str tenant = Some c → live tenant (fleet_rows f') ≤ c).
Proof.
  unfold exact. intros Hs He. destruct Hs as [ledger rows id db' Hc|ledger rows t n ledger' Hr]; simpl in *.
  - rewrite live_insert. apply (transaction_moves tenant (live tenant rows)) in Hc as [Hc Hb]; [done|done|].
    apply live_counted.
  - unfold store_reconcile_tenant_quota in Hr. destruct (_ <=? _); [|done]. injection Hr as <- <-.
    unfold put_quota. split; [|lia]. destruct (decide (t = tenant)) as [->|Hne].
    + rewrite lookup_insert_eq. do 2 f_equal. unfold live. lia.
    + rewrite lookup_insert_ne; [done|]. by apply TenantId_str_ne.
Qed.

(** C38. The quota ledger is exact: once the row of a tenant counts its running
    sagas, as [reconcile_tenant_quota] makes it, it does so after any history
    of transactions of any sagas and of reconciliations, where [launch]
    reserves and [advance] releases as part of the transaction.  And a capped
    tenant then never has more running sagas than the larger of its cap and
    the number it had when the row became exact: a tenant that was over its
    cap is not cut back, but gets no new saga until it is below. *)
Theorem quota_exact_and_capped (tenant : TenantId) (f f' : Fleet)
    (Hexact : exact tenant f) (Hh : rtc fleet_step f f') :
  exact tenant f' ∧
  ∀ cap, tenant_quotas (config self) !! TenantId_as_str tenant = Some cap →
    live tenant (fleet_rows f') ≤ Z.max cap (live tenant (fleet_rows f)).
Proof.
  induction Hh as [f|f f1 f' Hs _ IH]; [split; [done|lia]|].
  destruct (fleet_step_exact _ _ _ Hs Hexact) as [He1 Hb1].
  destruct (IH He1) as [He Hb]. split; [done|]. intros cap Hcap. specialize (Hb cap Hcap).
  destruct Hb1 as [Hb1|Hb1]; [lia|]. specialize (Hb1 cap Hcap). lia.
Qed.
End fleet.

(** ** The windows of management actions *)

Abbreviation RateLedger := (gmap (string * Z) Z).

(** [now_ms - now_ms % window] *)
Definition window_start (now_ms window_ms : Z) : Z := now_ms - now_ms mod window_ms.

(** [DELETE .. WHERE tenant_id = $1 AND window_start_ms < $2] *)
Definition drop_windows (tenant : TenantId) (start : Z) (ledger : RateLedger) : RateLedger :=
  filter (λ entry, ¬ (entry.1.1 = TenantId_as_str tenant ∧ entry.1.2 < start)) ledger.

(** [reserve_tenant_action_rate]; [now_ms] is the database's clock. *)
Definition store_reserve_tenant_action_rate (tenant : TenantId) (max_actions window_ms now_ms : Z)
    (ledger : RateLedger) : SagaResult (ActionRateReservation * RateLedger) :=
  ensure 0 <? window_ms else Store "action rate window_ms must be positive" in
  ensure 0 <=? now_ms else Store "database clock is invalid" in
  let start := window_start now_ms window_ms in
  let key := (TenantId_as_str tenant, start) in
  ensure start <=? I64_MAX else Store "action rate window overflow" in
  ensure max_actions <=? I64_MAX else Store "action rate limit overflow" in
  let used := default 0 (ledger !! key) in
  if used <? max_actions
  then Ok (Rate_Reserved, drop_windows tenant start (<[key := used + 1]> ledger))
  else Ok (Rate_Exceeded, drop_windows tenant start (<[key := used]> ledger)).

Definition tenant_action_rate_usage (tenant : TenantId) (window_ms now_ms : Z) (ledger : RateLedger)
    : SagaResult (Z * Z) :=
  ensure 0 <? window_ms else Store "action rate window_ms must be positive" in
  ensure 0 <=? now_ms else Store "database clock is invalid" in
  let start := window_start now_ms window_ms in
  ensure start <=? I64_MAX else Store "action rate window overflow" in
  let used := default 0 (ledger !! (TenantId_as_str tenant, start)) in
  ensure 0 <=? used else Store "action rate value is invalid" in
  Ok (start, used).

Section rates.
Context (limits : string → TenantActionRate).

(** An action tried by a tenant at a time, and whether the rest of its
    transaction goes through; a refused or failed one leaves no row. *)
Record Attempt := mkAttempt { tried_by : TenantId; tried_at : Z; goes_through : bool }.

(** The actions that are committed. *)
Fixpoint admissions (ledger : RateLedger) (attempts : list Attempt) : list Attempt :=
  match attempts with
  | [] => []
  | a :: rest =>
      let rate := limits (TenantId_as_str (tried_by a)) in
      match store_reserve_tenant_action_rate (tried_by a) (max_actions rate) (window_ms rate)
              (tried_at a) ledger with
      | Ok (Rate_Reserved, ledger') =>
          if goes_through a then a :: admissions ledger' rest else admissions ledger rest
      | _ => admissions ledger rest
      end
  end.

Definition in_window (tenant : TenantId) (start : Z) (a : Attempt) : bool :=
  bool_decide (tried_by a = tenant)
  && (window_start (tried_at a) (window_ms (limits (TenantId_as_str tenant))) =? start).

Definition admitted (tenant : TenantId) (start : Z) (ledger : RateLedger) (attempts : list Attempt) : Z :=
  Z.of_nat (length (List.filter (in_window tenant start) (admissions ledger attempts))).

Lemma window_start_mono a b w : 0 < w → a ≤ b → window_start a w ≤ window_start b w.
Proof.
  intros Hw Hab. unfold window_start.
  rewrite (Z.div_mod a w) at 1 by lia. rewrite (Z.div_mod b w) at 1 by lia.
  pose proof (Z.div_le_mono a b w Hw Hab). nia.
Qed.

Lemma rate_reserved tenant max w now ledger ledger' :
  store_reserve_tenant_action_rate tenant max w now ledger = Ok (Rate_Reserved, ledger') →
  let key := (TenantId_as_str tenant, window_start now w) in
  0 < w ∧ default 0 (ledger !! key) < max ∧
  ledger' = drop_windows tenant (window_start now w) (<[key := default 0 (ledger !! key) + 1]> ledger).
Proof.
  unfold store_reserve_tenant_action_rate. destruct (0 <? w) eqn:Hw; [|done].
  do 3 (case_match; [|done]). simpl. destruct (_ <? max) eqn:E; [|done]. intros [= <-].
  split_and!; [lia|by apply Z.ltb_lt|done].
Qed.

(** No admission in a window that the clock has left. *)
Lemma admitted_past tenant start now ledger attempts :
  0 < window_ms (limits (TenantId_as_str tenant)) →
  start < window_start now (window_ms (limits (TenantId_as_str tenant))) →
  Forall (λ a, now ≤ tried_at a) attempts → admitted tenant start ledger attempts = 0.
Proof.
  intros Hw Hs Hall. unfold admitted. replace (List.filter _ _) with (@nil Attempt); [done|]. symmetry.
  revert ledger. induction Hall as [|a rest Ha _ IH]; intros ledger; simpl; [done|].
  repeat case_match; try apply IH. simpl. rewrite IH.
  replace (in_window tenant start a) with false; [done|]. symmetry. unfold in_window.
  apply andb_false_iff. case_bool_decide; [|by left]. right. apply Z.eqb_neq.
  pose proof (window_start_mono now (tried_at a) _ Hw Ha). lia.
Qed.

Lemma lookup_dropped tenant start tenant' start' ledger :
  (tenant' ≠ tenant ∨ start ≤ start') →
  drop_windows tenant start ledger !! (TenantId_as_str tenant', start')
  = ledger !! (TenantId_as_str tenant', start').
Proof.
  intros Hk. unfold drop_windows. destruct (ledger !! (_, start')) as [n|] eqn:E.
  - apply map_lookup_filter_Some. split; [done|]. simpl. intros [Ht Hs].
    destruct Hk as [Hk|Hk]; [|lia]. destruct tenant, tenant'. simpl in *. congruence.
  - apply map_lookup_filter_None. by left.
Qed.

Lemma admitted_bound tenant start ledger attempts :
  let rate := limits (TenantId_as_str tenant) in
  Sorted Z.le (map tried_at attempts) →
  default 0 (ledger !! (TenantId_as_str tenant, start)) ≤ max_actions rate →
  admitted tenant start ledger attempts + default 0 (ledger !! (TenantId_as_str tenant, start))
  ≤ max_actions rate.
Proof.
  intros rate Hsorted. apply Sorted_StronglySorted in Hsorted; [|intros ? ? ?; lia]. revert ledger.
  induction attempts as [|a rest IH]; intros ledger Hu; [unfold admitted; simpl; lia|].
  apply StronglySorted_inv in Hsorted as [Hrest Hall]. specialize (IH Hrest).
  assert (Forall (λ b, tried_at a ≤ tried_at b) rest) as Hlater by (apply Forall_map; exact Hall). clear Hall.
  unfold admitted in *. simpl.
  destruct (store_reserve_tenant_action_rate _ _ _ _ _) as [[[] ledger']|] eqn:E; [|by apply IH..].
  destruct (goes_through a); [|by apply IH]. specialize (IH ledger').
  apply rate_reserved in E as (Hw & Hlt & Hl). simpl. unfold in_window at 1.
  case_bool_decide as Ht; simpl.
  - subst tenant. fold rate in Hw, Hlt, Hl |- *.
    set (s := window_start (tried_at a) (window_ms rate)) in *. destruct (s =? start) eqn:Hs.
    + apply Z.eqb_eq in Hs. subst start ledger'.
      rewrite lookup_dropped, lookup_insert_eq in IH by (right; lia). simpl in *. lia.
    + apply Z.eqb_neq in Hs. destruct (decide (s < start)) as [Hlt'|Hge].
      * subst ledger'. rewrite lookup_dropped, lookup_insert_ne in IH by (first [right; lia|congruence]). auto.
      * pose proof (admitted_past (tried_by a) start (tried_at a) ledger' rest) as Hz. unfold admitted in Hz.
        rewrite Hz; [lia|done|fold rate s; lia|done].
  - subst ledger'. rewrite lookup_dropped, lookup_insert_ne in IH; [auto| |left; congruence].
    intros [= Hx _]. destruct tenant, (tried_by a). simpl in *. congruence.
Qed.

(** Management actions are bounded per window: whatever actions tenants try,
    in whatever interleaving and however many of them fail and roll back, as
    long as the database's clock does not go back no window of a tenant has
    more committed actions than its limit; a limit of zero blocks the tenant. *)
Theorem action_rate_bounded (tenant : TenantId) (start : Z) (attempts : list Attempt)
    (Hclock : Sorted Z.le (map tried_at attempts))
    (Hu64 : 0 ≤ max_actions (limits (TenantId_as_str tenant))) :
  admitted tenant start ∅ attempts ≤ max_actions (limits (TenantId_as_str tenant)).
Proof.
  pose proof (admitted_bound tenant start ∅ attempts Hclock) as Hb. rewrite lookup_empty in Hb.
  simpl in Hb. lia.
Qed.
End rates.

(** Three tries in one window of a tenant that may act twice, one of which fails. *)
Definition demo_limits (_ : string) : TenantActionRate := {| max_actions := 2; window_ms := 1000 |}.
Definition demo_attempts : list Attempt :=
  map (λ n, mkAttempt (mkTenantId "acme") n (negb (n =? 5010))) [5000; 5010; 5020; 5030; 6001].

Lemma action_rate_bounded_witness :
  map tried_at (admissions demo_limits ∅ demo_attempts) = [5000; 5020; 6001] ∧
  admitted demo_limits (mkTenantId "acme") 5000 ∅ demo_attempts ≤ 2.
Proof.
  split; [vm_compute; reflexivity|].
  apply (action_rate_bounded demo_limits (mkTenantId "acme") 5000 demo_attempts).
  - simpl. repeat constructor; lia.
  - simpl. lia.
Defined.
