(* ===== verification/SagaScenario.v ===== *)
(** * A saga, evaluated

    One saga of two steps run through the model: its journal is registered,
    its first command issued, and results and timers are handled.  The
    theorems of [SagaEnds] and [SagaHistory] are instantiated on it. *)

From Stdlib Require Import ZArith Lia.
From S2P Require Import Prelude Bytes SagaIdentity SagaState SagaDefinition SagaPlan SagaEnvelope.
From S2P Require Import SagaStore SagaAdminStore SagaRegistry SagaOrchestrator SagaStart SagaManagement.
From S2P Require Import SagaProjection SagaSafety SagaAdmin SagaEnds SagaRecovery SagaHistory.
From stdpp Require Import prelude strings list relations gmap.

Local Open Scope Z_scope.
Local Open Scope rust_scope.

#[local] Existing Instance demo_runtime.

Definition demo_definition : WorkflowDefinition := sample_definition 5000000000.

Definition demo : Orchestrator :=
  mkOrchestrator OrchestratorConfig_default
    (mkRegistry {[ ("order", 1) := mkEntry demo_definition true ]} ∅)
    (λ _, true) (λ _ _ _, Ok Rate_Reserved).

Definition demo_instance : SagaInstanceRow :=
  {| inst_saga_id := mkSagaId "saga-1"; inst_tenant := mkTenantId "acme";
     inst_workflow := mkWorkflowName "order"; inst_business_key := mkBusinessKey "order-7";
     inst_definition_version := mkDefinitionVersion 1; inst_definition_digest := demo_digest;
     inst_start_request_digest := None; inst_status := Running; inst_control_state := Active;
     inst_control_version := 1; inst_direction := Direction_Forward;
     inst_current_step := Some (mkStepName "debit"); inst_compensation_plan_version := None;
     inst_version := 1; inst_deadline_at_ms := None; inst_failure_code := None;
     inst_traceparent := None |}.

(** The rows after a committed run; the rows before if it failed. *)
Definition after {A} (c : Tx A) (db : Db) : Db :=
  match c db with Ok (_, db') => db' | Err _ => db end.

(** The saga has been started: its first step is out. *)
Definition demo_db : Db :=
  after (do! register_steps demo_definition in
         issue_command demo demo_instance (sample_step "debit" Compensable 5000000000) Execute
           AttemptNo_FIRST None None 1000 1)
    (mkDb (Some demo_instance) [] [] [] [] [] [] [] [] [] ∅).

Definition debit_done : SagaResultEnvelope :=
  demo_result (demo_identity "debit" Execute 1) Attempt_Succeeded None.
Definition notify_done : SagaResultEnvelope :=
  demo_result (demo_identity "notify" Execute 1) Attempt_Succeeded None.
Definition notify_rejected : SagaResultEnvelope :=
  demo_result (demo_identity "notify" Execute 1) Attempt_Rejected None.
Definition debit_undone : SagaResultEnvelope :=
  demo_result (demo_identity "debit" Compensate 1) Attempt_Succeeded None.

Local Abbreviation handle env := (handle_verified_result demo env 2000 granted).

Definition db_debited : Db := after (handle debit_done) demo_db.
Definition db_completed : Db := after (handle notify_done) db_debited.
Definition db_compensating : Db := after (handle notify_rejected) db_debited.
Definition db_compensated : Db := after (handle debit_undone) db_compensating.

(** The timeout of the first step, claimed by a worker at its deadline. *)
Local Abbreviation claim_all := (claim_due_timers (λ _, true) "worker" "token-1" 6000 30000 16).
Definition db_claimed : Db := after claim_all demo_db.
Definition debit_timer : SagaTimerRow :=
  {| st_timer_id := derive_timer_id (mkSagaId "saga-1") (Scope_Step (mkStepName "debit"))
                      KIND_STEP_TIMEOUT AttemptNo_FIRST;
     st_saga_id := mkSagaId "saga-1";
     st_scope_kind := TimerScope_kind_str (Scope_Step (mkStepName "debit"));
     st_scope_key := TimerScope_key_str (Scope_Step (mkStepName "debit"));
     st_kind := KIND_STEP_TIMEOUT; st_attempt := AttemptNo_FIRST; st_expected_saga_version := 1 |}.
Local Abbreviation fire token := (fire_timer demo debit_timer token 6500).
Definition db_cancelling : Db := after (fire "token-1") db_claimed.

(** ** The runs *)

(** What a run returns, without the rows. *)
Definition outcome {A} (c : Tx A) (db : Db) : SagaResult A :=
  match c db with Ok (x, _) => Ok x | Err e => Err e end.

Lemma outcome_run {A} (c : Tx A) db x : outcome c db = Ok x → c db = Ok (x, after c db).
Proof. unfold outcome, after. destruct (c db) as [[y db']|e]; [|done]. by intros [= ->]. Qed.

Ltac by_running := match goal with |- _ = ?r => vm_cast_no_check (@eq_refl _ r) end.
Ltac by_outcome :=
  match goal with |- ?c ?db = Ok (?x, _) =>
    let H := fresh in assert (outcome c db = Ok x) as H by by_running;
    exact (outcome_run c db x H) end.

Lemma runs_debited : handle debit_done demo_db = Ok (Handle_Applied Running, db_debited).
Proof. by_outcome. Qed.
Lemma runs_completed : handle notify_done db_debited = Ok (Handle_Applied Completed, db_completed).
Proof. by_outcome. Qed.
Lemma runs_compensating :
  handle notify_rejected db_debited = Ok (Handle_Applied Compensating, db_compensating).
Proof. by_outcome. Qed.
Lemma runs_compensated :
  handle debit_undone db_compensating = Ok (Handle_Applied Compensated, db_compensated).
Proof. by_outcome. Qed.
Lemma runs_cancelling : fire "token-1" db_claimed = Ok (Timer_Applied Cancelling, db_cancelling).
Proof. by_outcome. Qed.

Lemma demo_started : db_instance demo_db = Some demo_instance.
Proof. reflexivity. Qed.

Lemma status_completed : status_of db_completed = Some Completed.
Proof. by_running. Qed.

Lemma demo_completes : rtc (commits demo) demo_db db_completed.
Proof.
  apply rtc_l with db_debited; [|apply rtc_once].
  - exact (commit_own _ _ _ (commit_result demo _ _ _ _ _ _ runs_debited)).
  - exact (commit_own _ _ _ (commit_result demo _ _ _ _ _ _ runs_completed)).
Qed.

Lemma late_history : rtc (commits demo) db_completed (after claim_all db_completed).
Proof.
  apply rtc_once, commit_own, (commit_claim demo (λ _, true) "worker" "token-1" 6000 30000 16 []).
  by_outcome.
Qed.

(** ** Witnesses *)

Lemma declared_on_evidence_witness :
  status_of db_compensated = Some Compensated ∧
  (status_of db_compensating = Some Compensated ∨ all_effects_undone db_compensated).
Proof.
  destruct (declared_on_evidence demo debit_undone 2000 granted db_compensating db_compensated Compensated)
    as (Hs & _ & Hc); [exact runs_compensated|]. split; [exact Hs|]. by apply Hc.
Defined.

Lemma timer_never_ends_a_saga_witness : status_of db_cancelling = Some Cancelling.
Proof.
  destruct (timer_never_ends_a_saga demo debit_timer "token-1" 6500 db_claimed db_cancelling
              (Timer_Applied Cancelling)) as (i & _ & _ & _ & _ & Hs & _); [exact runs_cancelling|].
  exact Hs.
Defined.

Lemma histories_refine_the_machine_witness :
  ∃ i log, db_instance db_completed = Some i ∧ db_transitions db_completed = [] ++ log ∧
    chained Running log (inst_status i).
Proof.
  destruct (histories_refine_the_machine demo demo_db db_completed demo_instance)
    as (i & log & controls & Hi & _ & Ht & _ & Hp & _).
  - exact demo_started.
  - exact demo_completes.
  - exists i, log. split; [exact Hi|]. split; [exact Ht|exact Hp].
Defined.

Lemma evidence_never_lost_witness : evidence_kept demo_db db_completed.
Proof. apply (evidence_never_lost demo demo_db db_completed). exact demo_completes. Defined.

Lemma commands_paid_by_transitions_witness :
  Z.of_nat (length (db_outbox db_completed)) - Z.of_nat (length (db_outbox demo_db)) ≤
  Z.of_nat (length (db_transitions db_completed)) - Z.of_nat (length (db_transitions demo_db)).
Proof. apply (commands_paid_by_transitions demo demo_db db_completed). exact demo_completes. Defined.

Lemma inert_saga_is_left_alone_witness :
  db_outbox (after claim_all db_completed) = db_outbox db_completed.
Proof.
  pose proof status_completed as Hs. unfold status_of in Hs.
  destruct (db_instance db_completed) as [i|] eqn:Hi; [|discriminate Hs]. injection Hs as Hs.
  apply (inert_saga_is_left_alone demo db_completed (after claim_all db_completed) i i Hi).
  - rewrite <- Hi. apply (core_claim (λ _, true) "worker" "token-1" 6000 30000 16 db_completed []).
    by_outcome.
  - exact late_history.
  - left. rewrite Hs. reflexivity.
Defined.

(** The authority is lost after the second poll. *)
Definition revoked : Authority := mkAuthority [Ok tt; Ok tt; Err (Anyhow "revoked")] (Ok tt) (Ok tt).

Lemma redelivery_absorbed_witness :
  handle_verified_result demo debit_done 9000 granted db_completed = Ok (Handle_Duplicate, db_completed) ∧
  handle_verified_result demo debit_done 9000 revoked db_completed = Err (Anyhow "revoked").
Proof.
  split.
  - apply (redelivery_absorbed demo debit_done 2000 9000 granted granted
             (Handle_Applied Running) demo_db db_debited db_completed).
    + exact runs_debited.
    + apply rtc_once. exact (commit_own _ _ _ (commit_result demo _ _ _ _ _ _ runs_completed)).
  - apply (redelivery_absorbed demo debit_done 2000 9000 granted revoked
             (Handle_Applied Running) demo_db db_debited db_completed).
    + exact runs_debited.
    + apply rtc_once. exact (commit_own _ _ _ (commit_result demo _ _ _ _ _ _ runs_completed)).
Defined.

Lemma triggers_apply_once_witness : NoDup (triggers db_completed).
Proof.
  apply (triggers_apply_once demo demo_db db_completed); [|exact demo_completes].
  replace (triggers demo_db) with (@nil (TriggerKind * string)) by by_running. constructor.
Defined.

Lemma timer_decides_once_witness :
  outcome (fire "token-2") (after claim_all db_cancelling) = Ok SkippedFencingLost ∧
  SkippedFencingLost ≠ Timer_Applied Cancelling.
Proof.
  split; [by_running|].
  apply (timer_decides_once demo debit_timer debit_timer "token-1" "token-2" 6500 6500
           db_claimed db_cancelling (after claim_all db_cancelling)
           (after (fire "token-2") (after claim_all db_cancelling)) Cancelling SkippedFencingLost).
  - apply (bool_decide_eq_true_1 (NoDup (timer_ids (db_timers db_claimed)))). by_running.
  - exact runs_cancelling.
  - apply rtc_once, commit_own, (commit_claim demo (λ _, true) "worker" "token-1" 6000 30000 16 []).
    by_outcome.
  - reflexivity.
  - by_outcome.
Defined.

Lemma completed_stays_true_witness : complete_on_evidence db_completed.
Proof.
  apply (completed_stays_true demo demo_db db_completed); [|exact demo_completes].
  intros Hs. exfalso. assert (status_of demo_db = Some Running) as Hr by by_running. congruence.
Defined.
