(* ===== verification/SagaLifeScenario.v ===== *)
(** * The life of a saga, evaluated

    A saga of a tenant that may run one: started from nothing, and then either
    completed, or stopped by a compensation that halts and recovered by hand.
    The theorems of [SagaRecovery], [SagaLife] and [SagaQuota] are instantiated
    on it. *)

From Stdlib Require Import ZArith Lia.
From S2P Require Import Prelude Bytes SagaIdentity SagaState SagaDefinition SagaPlan SagaEnvelope.
From S2P Require Import SagaStore SagaAdminStore SagaRegistry SagaOrchestrator SagaStart SagaManagement.
From S2P Require Import SagaSafety SagaAdmin SagaEnds SagaRecovery SagaHistory SagaLife SagaQuota SagaScenario.
From stdpp Require Import prelude strings list relations gmap.

Local Open Scope Z_scope.
Local Open Scope rust_scope.

#[local] Existing Instance demo_runtime.

(** The demonstration's orchestrator without caps, and with a cap of one saga. *)
Definition desk : Orchestrator :=
  mkOrchestrator (mkConfig "nasaga-orchestrator" 5 5 10 32 60000 30000 1000 ∅ ∅ true)
    (registry demo) (λ _, true) (λ _ _ _, Ok Rate_Reserved).

Definition capped : Orchestrator :=
  mkOrchestrator (mkConfig "nasaga-orchestrator" 5 5 10 32 60000 30000 1000 {[ "acme" := 1 ]} ∅ true)
    (registry demo) (λ _, true) (λ _ _ _, Ok Rate_Reserved).

Definition order_request : StartSagaRequest :=
  {| req_saga_id := mkSagaId "saga-1"; req_tenant := mkTenantId "acme"; req_workflow := mkWorkflowName "order";
     req_version := mkDefinitionVersion 1; req_business_key := mkBusinessKey "order-7";
     req_deadline_at_ms := None; req_trigger_kind := Trigger_Event; req_trigger_id := "order-placed";
     req_first_command_payload := None; req_first_command_raw_payload := None; req_now_ms := 1000 |}.

(** The tenant's ledger was reconciled when it ran nothing. *)
Definition idle_ledger : QuotaLedger := {[ "acme" := mkQuota 0 true ]}.
Definition db_idle : Db := set_quota idle_ledger no_rows.

Local Abbreviation start := (start_saga capped [] order_request None (Ok tt) granted).

Definition db_started : Db := after start db_idle.

Definition started_row : SagaInstanceRow :=
  match outcome start db_idle with Ok (Started row) => row | _ => demo_instance end.

(** A result under the digest of the registered definition. *)
Definition answer (step : string) (phase : StepPhase) (status : StepAttemptStatus) : SagaResultEnvelope :=
  let id := demo_identity step phase 1 in
  demo_result
    (@mkVerified demo_runtime (vid_saga_id id) (vid_tenant id) (vid_workflow id)
       (vid_definition_version id) (WorkflowDefinition_digest sha256 demo_definition) (vid_step id)
       (vid_phase id) (vid_attempt id) (vid_effect id) (vid_command id)) status None.

Local Abbreviation hear step phase status :=
  (handle_verified_result capped (answer step phase status) 2000 granted).

Definition db_paid : Db := after (hear "debit" Execute Attempt_Succeeded) db_started.
Definition db_finished : Db := after (hear "notify" Execute Attempt_Succeeded) db_paid.
Definition db_refunding : Db := after (hear "notify" Execute Attempt_Rejected) db_paid.
Definition db_halted : Db := after (hear "debit" Compensate Attempt_Halted) db_refunding.

Definition recovering : ManagementRequest :=
  mkManagementRequest (mkManagement "alice" "ticket 7" [Permission_RetryCompensation]) (mkTenantId "acme")
    (mkSagaId "saga-1") "op-1" (mkExpectation (Some 4) None).

Local Abbreviation recover := (manage capped (Action_RetryCompensation 3000) recovering).
Definition db_recovered : Db := after recover db_halted.

(** ** The runs *)

Lemma runs_started : start db_idle = Ok (Started started_row, db_started).
Proof. by_outcome. Qed.
Lemma runs_paid : hear "debit" Execute Attempt_Succeeded db_started = Ok (Handle_Applied Running, db_paid).
Proof. by_outcome. Qed.
Lemma runs_finished :
  hear "notify" Execute Attempt_Succeeded db_paid = Ok (Handle_Applied Completed, db_finished).
Proof. by_outcome. Qed.
Lemma runs_refunding :
  hear "notify" Execute Attempt_Rejected db_paid = Ok (Handle_Applied Compensating, db_refunding).
Proof. by_outcome. Qed.
Lemma runs_halted :
  hear "debit" Compensate Attempt_Halted db_refunding = Ok (Handle_Applied ManualIntervention, db_halted).
Proof. by_outcome. Qed.
Lemma runs_recovered : recover db_halted = Ok (Some Compensating, db_recovered).
Proof. by_outcome. Qed.

Lemma heard env now auth out db db' :
  handle_verified_result capped env now auth db = Ok (out, db') → rtc (commits capped) db db'.
Proof. intros Hr. exact (rtc_once _ _ (commit_own _ _ _ (commit_result capped _ _ _ _ _ _ Hr))). Qed.

Lemma halted_life : rtc (commits capped) db_started db_halted.
Proof.
  transitivity db_paid; [exact (heard _ _ _ _ _ _ runs_paid)|].
  transitivity db_refunding; [exact (heard _ _ _ _ _ _ runs_refunding)|exact (heard _ _ _ _ _ _ runs_halted)].
Qed.

Lemma recovered_life : rtc (commits capped) db_started db_recovered.
Proof.
  exact (rtc_r _ _ _ halted_life (commit_own _ _ _ (commit_managed capped _ _ _ _ _ runs_recovered))).
Qed.

Lemma started_life : rtc (commits capped) no_rows db_started.
Proof.
  apply rtc_l with db_idle; [apply commit_ledger|apply rtc_once].
  exact (commit_own _ _ _ (commit_start capped _ _ _ _ _ _ _ _ runs_started)).
Qed.

(** ** Witnesses *)

Lemma saga_rows_well_formed_witness :
  distinct_keys db_recovered ∧ no_orphans db_recovered ∧ logs_complete db_recovered ∧
  versions_bounded db_recovered.
Proof.
  apply (saga_rows_well_formed capped db_recovered). transitivity db_started; [exact started_life|exact recovered_life].
Defined.

Lemma management_acts_as_audited_witness :
  Permission_RetryCompensation ∈ permissions (by_whom recovering).
Proof.
  destruct (management_acts_as_audited capped (Action_RetryCompensation 3000) recovering db_halted db_recovered
              (Some Compensating)) as (i & _ & _ & _ & Hp & _); [exact runs_recovered|exact Hp].
Defined.

Lemma management_replay_absorbed_witness :
  ∃ out, manage capped (Action_RetryCompensation 9000)
    (mkManagementRequest (by_whom recovering) (mkTenantId "acme") (mkSagaId "saga-1") "op-1"
       (mkExpectation (Some 99) (Some 99))) db_recovered = Ok (out, db_recovered).
Proof.
  destruct (management_replay_absorbed capped (Action_RetryCompensation 3000) (Action_RetryCompensation 9000)
              recovering (mkExpectation (Some 99) (Some 99)) db_halted db_recovered db_recovered
              (Some Compensating)) as (out & Ho & _).
  - transitivity db_started; [exact started_life|exact halted_life].
  - exact runs_recovered.
  - apply rtc_refl.
  - reflexivity.
  - exists out. exact Ho.
Defined.

Lemma start_replay_absorbed_witness :
  ∃ i, start_saga capped [demo_instance] order_request None (Ok tt) granted db_recovered
       = Ok (AlreadyExists i, db_recovered).
Proof.
  destruct (start_replay_absorbed capped [] [demo_instance] order_request None (Ok tt) granted granted
              db_idle db_started db_recovered started_row) as (i & _ & _ & Hi).
  - exact runs_started.
  - exact recovered_life.
  - exists i. exact Hi.
Defined.

(** ** The ledger of the tenant *)

Lemma set_quota_same (db : Db) : set_quota (db_quota db) db = db.
Proof. by destruct db. Qed.

Lemma fleet_turn id db db' rows :
  transacts capped db db' →
  fleet_step capped (mkFleet (db_quota db) (<[id := db]> rows))
    (mkFleet (db_quota db') (<[id := db']> (<[id := db]> rows))).
Proof.
  intros Ht. apply fleet_commits. unfold rows_of. rewrite lookup_insert_eq. simpl.
  by rewrite set_quota_same.
Qed.

Definition fleet_of (db : Db) (rows : gmap string Db) : Fleet := mkFleet (db_quota db) (<["saga-1" := db]> rows).

(** The saga is started, and ends. *)
Definition finished_fleet : Fleet :=
  fleet_of db_finished (<["saga-1" := db_paid]> (<["saga-1" := db_started]> ∅)).

Lemma finished_history : rtc (fleet_step capped) (mkFleet idle_ledger ∅) finished_fleet.
Proof.
  apply rtc_l with (fleet_of db_started ∅);
    [|apply rtc_l with (fleet_of db_paid (<["saga-1" := db_started]> ∅)); [|apply rtc_once]].
  - exact (fleet_commits capped idle_ledger ∅ "saga-1" _ (commit_start _ _ _ _ _ _ _ _ _ runs_started)).
  - exact (fleet_turn _ _ _ _ (commit_result _ _ _ _ _ _ _ runs_paid)).
  - exact (fleet_turn _ _ _ _ (commit_result _ _ _ _ _ _ _ runs_finished)).
Qed.

Lemma quota_exact_and_capped_witness :
  tenant_quota_usage (mkTenantId "acme") (db_quota db_started) = Ok 1 ∧
  tenant_quota_usage (mkTenantId "acme") (fleet_ledger finished_fleet) = Ok 0 ∧
  exact (mkTenantId "acme") finished_fleet ∧
  live (mkTenantId "acme") (fleet_rows finished_fleet)
  ≤ Z.max 1 (live (mkTenantId "acme") (fleet_rows (mkFleet idle_ledger ∅))).
Proof.
  split; [by_running|]. split; [by_running|].
  destruct (quota_exact_and_capped capped (mkTenantId "acme") (mkFleet idle_ledger ∅) finished_fleet)
    as [He Hl]; [reflexivity|exact finished_history|]. split; [exact He|]. exact (Hl 1 eq_refl).
Defined.

Lemma guards_refused_by_driver_witness : status_of db_recovered ≠ Some ManuallyClosed.
Proof.
  apply (guards_refused_by_driver capped); [reflexivity|].
  transitivity db_started; [exact started_life|exact recovered_life].
Defined.
