(* ===== verification/SagaGate.v ===== *)
(** * The step gate of a participant

    Models [nasaga-pgsql/src/participant.rs] with the admission results of
    [nasaga-backend/src/participant.rs]: one row per saga and step, on which
    execute, cancel, compensate and resolve are decided.  An operation reads
    the row under its lock and runs inside the transaction that also holds the
    business write and the result event, so it is a function of the table that
    either fails or returns the table to commit. *)

From Stdlib Require Import ZArith.
From S2P Require Import Prelude Bytes SagaIdentity SagaState SagaDefinition SagaEnvelope.
From stdpp Require Import prelude strings gmap.

Local Open Scope Z_scope.
Local Open Scope rust_scope.

(** ** Admission results (nasaga-backend) *)

Record ParticipantGateKey := mkGateKey {
  gk_saga_id : SagaId;
  gk_step : StepName;
  gk_tenant : TenantId;
  gk_workflow : WorkflowName;
  gk_definition_version : DefinitionVersion;
  gk_definition_digest : string
}.

Inductive ExecuteAdmission :=
| Execute_Admitted
| Execute_AlreadyTerminal (status : StepForwardStatus)
| Execute_Suppressed.

Inductive CompensationAdmission :=
| Compensation_Admitted
| Compensation_AlreadySettled (status : StepCompensationStatus)
| MissingForwardEffect.

Inductive CancelAdjudication :=
| Adjudicated_Confirmed
| Adjudicated_AlreadyTerminal (status : StepForwardStatus)
| Adjudicated_ResolutionPending.

Inductive ExternalCancelAdmission :=
| ExternalCancel_Admitted
| AlreadyAdjudicated (adjudication : CancelAdjudication).

Inductive ResolutionTarget := Target_Forward | Target_Compensation.

Inductive ResolutionAdmission :=
| Resolution_Admitted (target : ResolutionTarget)
| Resolution_AlreadySettled (target : ResolutionTarget) (status : StepResolutionStatus)
| MissingUnknownEffect.

(** ** The table [saga_participant_step] *)

Record GateRow := mkGate {
  gate_tenant_id : string;
  gate_workflow_name : string;
  gate_definition_version : Z;
  gate_definition_digest : string;
  gate_forward_status : StepForwardStatus;
  gate_cancel_status : StepCancelStatus;
  gate_compensation_status : StepCompensationStatus;
  gate_resolution_status : StepResolutionStatus;
  gate_execute_effect_id : string;
  gate_cancel_effect_id : option string;
  gate_compensate_effect_id : option string;
  gate_resolve_effect_id : option string
}.

(** The primary key, saga and step, as the columns hold it. *)
Abbreviation GateTable := (gmap (string * string) GateRow).
Abbreviation Gx := (St SagaError GateTable).

Definition set_forward (status : StepForwardStatus) (row : GateRow) : GateRow :=
  mkGate (gate_tenant_id row) (gate_workflow_name row) (gate_definition_version row)
    (gate_definition_digest row) status (gate_cancel_status row) (gate_compensation_status row)
    (gate_resolution_status row) (gate_execute_effect_id row) (gate_cancel_effect_id row)
    (gate_compensate_effect_id row) (gate_resolve_effect_id row).
Definition set_cancel (status : StepCancelStatus) (row : GateRow) : GateRow :=
  mkGate (gate_tenant_id row) (gate_workflow_name row) (gate_definition_version row)
    (gate_definition_digest row) (gate_forward_status row) status (gate_compensation_status row)
    (gate_resolution_status row) (gate_execute_effect_id row) (gate_cancel_effect_id row)
    (gate_compensate_effect_id row) (gate_resolve_effect_id row).
Definition set_compensation (status : StepCompensationStatus) (row : GateRow) : GateRow :=
  mkGate (gate_tenant_id row) (gate_workflow_name row) (gate_definition_version row)
    (gate_definition_digest row) (gate_forward_status row) (gate_cancel_status row) status
    (gate_resolution_status row) (gate_execute_effect_id row) (gate_cancel_effect_id row)
    (gate_compensate_effect_id row) (gate_resolve_effect_id row).
Definition set_resolution (status : StepResolutionStatus) (row : GateRow) : GateRow :=
  mkGate (gate_tenant_id row) (gate_workflow_name row) (gate_definition_version row)
    (gate_definition_digest row) (gate_forward_status row) (gate_cancel_status row)
    (gate_compensation_status row) status (gate_execute_effect_id row) (gate_cancel_effect_id row)
    (gate_compensate_effect_id row) (gate_resolve_effect_id row).
Definition set_cancel_effect (effect : string) (row : GateRow) : GateRow :=
  mkGate (gate_tenant_id row) (gate_workflow_name row) (gate_definition_version row)
    (gate_definition_digest row) (gate_forward_status row) (gate_cancel_status row)
    (gate_compensation_status row) (gate_resolution_status row) (gate_execute_effect_id row)
    (Some effect) (gate_compensate_effect_id row) (gate_resolve_effect_id row).
Definition set_compensate_effect (effect : string) (row : GateRow) : GateRow :=
  mkGate (gate_tenant_id row) (gate_workflow_name row) (gate_definition_version row)
    (gate_definition_digest row) (gate_forward_status row) (gate_cancel_status row)
    (gate_compensation_status row) (gate_resolution_status row) (gate_execute_effect_id row)
    (gate_cancel_effect_id row) (Some effect) (gate_resolve_effect_id row).
Definition set_resolve_effect (effect : string) (row : GateRow) : GateRow :=
  mkGate (gate_tenant_id row) (gate_workflow_name row) (gate_definition_version row)
    (gate_definition_digest row) (gate_forward_status row) (gate_cancel_status row)
    (gate_compensation_status row) (gate_resolution_status row) (gate_execute_effect_id row)
    (gate_cancel_effect_id row) (gate_compensate_effect_id row) (Some effect).

Definition row_key (saga_id : SagaId) (step : StepName) : string * string :=
  (SagaId_as_str saga_id, StepName_as_str step).

Definition gate_key (gate : ParticipantGateKey) : string * string :=
  row_key (gk_saga_id gate) (gk_step gate).

(** A fresh row of a gate, with the statuses the [INSERT] binds. *)
Definition new_gate (gate : ParticipantGateKey) (forward : StepForwardStatus)
    (cancel : StepCancelStatus) (compensation : StepCompensationStatus)
    (resolution : StepResolutionStatus) (execute_effect : string) : GateRow :=
  mkGate (TenantId_as_str (gk_tenant gate)) (WorkflowName_as_str (gk_workflow gate))
    (DefinitionVersion_get (gk_definition_version gate)) (gk_definition_digest gate)
    forward cancel compensation resolution execute_effect None None None.

(** [SELECT .. FOR UPDATE] *)
Definition select_gate (gate : ParticipantGateKey) : Gx (option GateRow) :=
  st_get (λ gates, gates !! gate_key gate).

(** [INSERT]: refused, answering [false], on the primary key or on
    [UNIQUE (execute_effect_id)]. *)
Definition effect_taken (effect : string) (gates : GateTable) : bool :=
  existsb (λ entry, bool_decide (gate_execute_effect_id entry.2 = effect)) (map_to_list gates).

Definition insert_gate (gate : ParticipantGateKey) (row : GateRow) : Gx bool :=
  run! gates := st_get id in
  if bool_decide (is_Some (gates !! gate_key gate))
     || effect_taken (gate_execute_effect_id row) gates
  then st_ret false
  else then! st_modify (<[gate_key gate := row]>) in st_ret true.

(** [UPDATE .. WHERE saga_id = .. AND step_name = .. AND p], answering
    [rows_affected]. *)
Definition update_gate (key : string * string) (p : GateRow → bool) (f : GateRow → GateRow) : Gx Z :=
  run! gates := st_get id in
  match gates !! key with
  | Some row =>
      if p row then then! st_modify (<[key := f row]>) in st_ret 1 else st_ret 0
  | None => st_ret 0
  end.

Definition database_failed : SagaError := Store "database operation failed".

Section gate.
Context `{Runtime}.

Definition verify_gate_contract (row : GateRow) (gate : ParticipantGateKey) : SagaResult unit :=
  if negb (bool_decide (gate_tenant_id row = TenantId_as_str (gk_tenant gate)))
     || negb (bool_decide (gate_workflow_name row = WorkflowName_as_str (gk_workflow gate)))
     || negb (gate_definition_version row =? DefinitionVersion_get (gk_definition_version gate))
     || negb (bool_decide (gate_definition_digest row = gk_definition_digest gate))
  then Err (Store "gate contract mismatch: command targets a different tenant, workflow, version, or digest")
  else Ok tt.

(** ** Execute *)

Definition admit_execute (gate : ParticipantGateKey) (execute_effect : Uuid) : Gx ExecuteAdmission :=
  run! existing := select_gate gate in
  match existing with
  | None =>
      run! inserted := insert_gate gate (new_gate gate Forward_Pending Cancel_None Comp_None
        Resolution_None (uuid_to_string execute_effect)) in
      demand! inserted else
        Store "concurrent gate admission lost the race; redeliver to adjudicate" in
      st_ret Execute_Admitted
  | Some row =>
      then! st_lift (verify_gate_contract row gate) in
      demand! bool_decide (gate_execute_effect_id row = uuid_to_string execute_effect) else
        Store "gate effect identity mismatch; command is not for this step effect" in
      match gate_forward_status row with
      | Forward_Cancelled => st_ret Execute_Suppressed
      | Forward_Pending =>
          st_fail (Store "gate row committed in PENDING state; protocol was bypassed")
      | settled => st_ret (Execute_AlreadyTerminal settled)
      end
  end.

Definition settle_execute (saga_id : SagaId) (step : StepName) (status : StepForwardStatus) : Gx unit :=
  demand! match status with
          | Forward_Succeeded | Forward_Rejected | Forward_Unknown | Forward_Halted => true
          | _ => false
          end else
    Store "execute settlement requires a business adjudication status" in
  run! updated := update_gate (row_key saga_id step)
    (λ row, bool_decide (gate_forward_status row = Forward_Pending)) (set_forward status) in
  demand! negb (updated =? 0) else Store "execute settlement found no admitted gate row" in
  st_ret tt.

(** ** Cancel *)

(** The verdict [adjudicate_cancel] reads off the forward status. *)
Definition adjudication_of (forward : StepForwardStatus) : CancelAdjudication :=
  match forward with
  | Forward_Cancelled => Adjudicated_Confirmed
  | Forward_Succeeded | Forward_Rejected | Forward_Halted => Adjudicated_AlreadyTerminal forward
  | Forward_Unknown | Forward_Pending | Forward_TimedOut => Adjudicated_ResolutionPending
  end.

Definition cancel_status_of (adjudication : CancelAdjudication) : StepCancelStatus :=
  match adjudication with
  | Adjudicated_Confirmed => Cancel_Confirmed
  | Adjudicated_AlreadyTerminal _ => Cancel_AlreadyTerminal
  | Adjudicated_ResolutionPending => Cancel_ResolutionPending
  end.

Definition adjudicate_cancel (gate : ParticipantGateKey) (execute_effect cancel_effect : Uuid)
    : Gx CancelAdjudication :=
  run! existing := select_gate gate in
  match existing with
  | None =>
      run! inserted := insert_gate gate
        (set_cancel_effect (uuid_to_string cancel_effect)
           (new_gate gate Forward_Cancelled Cancel_Confirmed Comp_None Resolution_None
              (uuid_to_string execute_effect))) in
      demand! inserted else
        Store "concurrent gate admission lost the race; redeliver to adjudicate" in
      st_ret Adjudicated_Confirmed
  | Some row =>
      then! st_lift (verify_gate_contract row gate) in
      demand! bool_decide (gate_execute_effect_id row = uuid_to_string execute_effect) else
        Store "gate execute effect identity mismatch during cancel adjudication" in
      let adjudication := adjudication_of (gate_forward_status row) in
      let cancel_status := cancel_status_of adjudication in
      if negb (bool_decide (gate_cancel_status row = Cancel_None)) then
        demand! bool_decide (gate_cancel_status row = cancel_status)
                && bool_decide (gate_cancel_effect_id row = Some (uuid_to_string cancel_effect)) else
          Store "cancel adjudication conflicts with the persisted gate fact" in
        st_ret adjudication
      else
        run! updated := update_gate (gate_key gate)
          (λ row, bool_decide (gate_cancel_status row = Cancel_None))
          (λ row, set_cancel_effect (uuid_to_string cancel_effect) (set_cancel cancel_status row)) in
        demand! updated =? 1 else Store "cancel adjudication lost gate authority" in
        st_ret adjudication
  end.

Definition persist_existing_cancel_adjudication (saga_id : SagaId) (step : StepName)
    (cancel_effect : Uuid) (status : StepCancelStatus) : Gx unit :=
  run! updated := update_gate (row_key saga_id step)
    (λ row, bool_decide (gate_cancel_status row = Cancel_None))
    (λ row, set_cancel_effect (uuid_to_string cancel_effect) (set_cancel status row)) in
  demand! updated =? 1 else Store "existing external cancel adjudication lost gate authority" in
  st_ret tt.

(** The verdict a recorded cancel status replays. *)
Definition recorded_adjudication (forward : StepForwardStatus) (cancel : StepCancelStatus)
    : SagaResult (option CancelAdjudication) :=
  match cancel with
  | Cancel_Confirmed => Ok (Some Adjudicated_Confirmed)
  | Cancel_AlreadyTerminal =>
      match forward with
      | Forward_Succeeded | Forward_Rejected | Forward_Halted =>
          Ok (Some (Adjudicated_AlreadyTerminal forward))
      | _ => Err (Store "external cancel terminal adjudication has no terminal forward fact")
      end
  | Cancel_ResolutionPending => Ok (Some Adjudicated_ResolutionPending)
  | Cancel_None => Ok None
  end.

Definition admit_external_cancel (gate : ParticipantGateKey) (execute_effect cancel_effect : Uuid)
    : Gx ExternalCancelAdmission :=
  run! existing := select_gate gate in
  match existing with
  | None =>
      run! inserted := insert_gate gate
        (set_cancel_effect (uuid_to_string cancel_effect)
           (new_gate gate Forward_Pending Cancel_None Comp_None Resolution_None
              (uuid_to_string execute_effect))) in
      demand! inserted else
        Store "concurrent external cancel admission lost the race; redeliver to adjudicate" in
      st_ret ExternalCancel_Admitted
  | Some row =>
      then! st_lift (verify_gate_contract row gate) in
      demand! bool_decide (gate_execute_effect_id row = uuid_to_string execute_effect) else
        Store "gate execute effect identity mismatch during external cancel" in
      let forward := gate_forward_status row in
      demand! match gate_cancel_effect_id row with
              | Some stored => bool_decide (stored = uuid_to_string cancel_effect)
              | None => true
              end else
        Store "gate cancel effect identity mismatch during external cancel" in
      run! existing := st_lift (recorded_adjudication forward (gate_cancel_status row)) in
      match existing with
      | Some existing => st_ret (AlreadyAdjudicated existing)
      | None =>
          match forward with
          | Forward_Cancelled =>
              then! persist_existing_cancel_adjudication (gk_saga_id gate) (gk_step gate)
                cancel_effect Cancel_Confirmed in
              st_ret (AlreadyAdjudicated Adjudicated_Confirmed)
          | Forward_Succeeded | Forward_Rejected | Forward_Halted =>
              then! persist_existing_cancel_adjudication (gk_saga_id gate) (gk_step gate)
                cancel_effect Cancel_AlreadyTerminal in
              st_ret (AlreadyAdjudicated (Adjudicated_AlreadyTerminal forward))
          | Forward_Unknown | Forward_TimedOut =>
              then! update_gate (gate_key gate)
                (λ row, bool_decide (gate_cancel_status row = Cancel_None))
                (set_cancel_effect (uuid_to_string cancel_effect)) in
              st_ret ExternalCancel_Admitted
          | Forward_Pending =>
              st_fail (Store "external cancel gate row was committed in PENDING state")
          end
      end
  end.

Definition external_combination (forward : StepForwardStatus) (cancel : StepCancelStatus) : bool :=
  match forward, cancel with
  | Forward_Cancelled, Cancel_Confirmed => true
  | (Forward_Succeeded | Forward_Rejected | Forward_Halted), Cancel_AlreadyTerminal => true
  | Forward_Unknown, Cancel_ResolutionPending => true
  | _, _ => false
  end.

Definition settle_external_cancel (saga_id : SagaId) (step : StepName)
    (forward : StepForwardStatus) (cancel : StepCancelStatus) : Gx unit :=
  demand! external_combination forward cancel else
    Store "external cancel settlement has an invalid forward/cancel combination" in
  run! updated := update_gate (row_key saga_id step)
    (λ row, bool_decide (gate_cancel_status row = Cancel_None)
            && match gate_forward_status row with
               | Forward_Pending | Forward_Unknown | Forward_TimedOut => true
               | _ => false
               end)
    (λ row, set_cancel cancel (set_forward forward row)) in
  demand! updated =? 1 else Store "external cancel settlement lost gate authority" in
  st_ret tt.

(** ** Compensate *)

Definition execute_effect_of (gate : ParticipantGateKey) : string :=
  uuid_to_string (EffectId_derive uuid_new_v5 (gk_saga_id gate) (gk_definition_version gate)
    (gk_step gate) Execute).

Definition admit_compensation (gate : ParticipantGateKey) (compensate_effect : Uuid)
    (recovery_operation_id : option string) : Gx CompensationAdmission :=
  run! existing := select_gate gate in
  match existing with
  | None =>
      run! inserted := insert_gate gate
        (set_compensate_effect (uuid_to_string compensate_effect)
           (new_gate gate Forward_Halted Cancel_None Comp_Halted Resolution_None
              (execute_effect_of gate))) in
      demand! inserted else database_failed in
      st_ret MissingForwardEffect
  | Some row =>
      then! st_lift (verify_gate_contract row gate) in
      let forward := gate_forward_status row in
      let compensation := gate_compensation_status row in
      if bool_decide (compensation = Comp_Succeeded) || bool_decide (compensation = Comp_Unknown)
      then st_ret (Compensation_AlreadySettled compensation)
      else if bool_decide (compensation = Comp_Halted)
              && (is_none recovery_operation_id || negb (bool_decide (forward = Forward_Succeeded)))
      then st_ret (Compensation_AlreadySettled compensation)
      else if bool_decide (compensation = Comp_Pending)
      then st_fail (Store "compensation gate committed in PENDING state; protocol was bypassed")
      else if negb (bool_decide (forward = Forward_Succeeded)) then
        then! update_gate (gate_key gate) (λ _, true)
          (λ row, set_compensate_effect (uuid_to_string compensate_effect)
                    (set_compensation Comp_Halted row)) in
        st_ret MissingForwardEffect
      else
        then! update_gate (gate_key gate) (λ _, true)
          (λ row, set_resolution Resolution_None
                    (set_compensate_effect (uuid_to_string compensate_effect)
                       (set_compensation Comp_Pending row))) in
        st_ret Compensation_Admitted
  end.

Definition settle_compensation (saga_id : SagaId) (step : StepName) (status : StepCompensationStatus)
    : Gx unit :=
  demand! match status with Comp_Succeeded | Comp_Unknown | Comp_Halted => true | _ => false end else
    Store "compensation settlement requires a business adjudication status" in
  run! updated := update_gate (row_key saga_id step)
    (λ row, bool_decide (gate_compensation_status row = Comp_Pending)) (set_compensation status) in
  demand! negb (updated =? 0) else Store "compensation settlement found no admitted gate row" in
  st_ret tt.

(** ** Resolve *)

Definition resolved_target (forward : StepForwardStatus) (compensation : StepCompensationStatus)
    (resolution : StepResolutionStatus) : ResolutionTarget :=
  match resolution with
  | Resolution_Succeeded =>
      if bool_decide (compensation = Comp_Succeeded) then Target_Compensation else Target_Forward
  | Resolution_Rejected =>
      if bool_decide (forward = Forward_Rejected) then Target_Forward else Target_Compensation
  | Resolution_Halted =>
      if bool_decide (compensation = Comp_Unknown) then Target_Compensation else Target_Forward
  | _ => Target_Forward
  end.

(** The forward fact a first resolution can replay without a query. *)
Definition known_forward (forward : StepForwardStatus) (compensation : StepCompensationStatus)
    (resolution : StepResolutionStatus) : option StepResolutionStatus :=
  if bool_decide (resolution = Resolution_None) && bool_decide (compensation = Comp_None) then
    match forward with
    | Forward_Succeeded => Some Resolution_Succeeded
    | Forward_Rejected => Some Resolution_Rejected
    | _ => None
    end
  else None.

Definition unknown_target (forward : StepForwardStatus) (compensation : StepCompensationStatus)
    : option ResolutionTarget :=
  if bool_decide (compensation = Comp_Unknown) then Some Target_Compensation
  else if bool_decide (forward = Forward_Unknown) then Some Target_Forward
  else None.

(** The verdict is final for an automatic attempt. *)
Definition resolution_closed (resolution : StepResolutionStatus) (recovery : option string) : bool :=
  match resolution with
  | Resolution_Succeeded | Resolution_Rejected => true
  | Resolution_Halted => is_none recovery
  | _ => false
  end.

Definition write_resolution (gate : ParticipantGateKey) (resolve_effect : Uuid)
    (status : StepResolutionStatus) : Gx Z :=
  update_gate (gate_key gate) (λ _, true)
    (λ row, set_resolve_effect (uuid_to_string resolve_effect) (set_resolution status row)).

Definition admit_resolution (gate : ParticipantGateKey) (resolve_effect : Uuid)
    (recovery_operation_id : option string) : Gx ResolutionAdmission :=
  run! existing := select_gate gate in
  match existing with
  | None =>
      run! inserted := insert_gate gate
        (set_resolve_effect (uuid_to_string resolve_effect)
           (new_gate gate Forward_Halted Cancel_None Comp_None Resolution_Halted
              (execute_effect_of gate))) in
      demand! inserted else database_failed in
      st_ret MissingUnknownEffect
  | Some row =>
      then! st_lift (verify_gate_contract row gate) in
      demand! match gate_resolve_effect_id row with
              | Some stored => bool_decide (stored = uuid_to_string resolve_effect)
              | None => true
              end else
        Store "resolution effect identity mismatch; command is not for this step effect" in
      let forward := gate_forward_status row in
      let compensation := gate_compensation_status row in
      let resolution := gate_resolution_status row in
      if resolution_closed resolution recovery_operation_id then
        st_ret (Resolution_AlreadySettled (resolved_target forward compensation resolution) resolution)
      else
        match known_forward forward compensation resolution with
        | Some status =>
            then! write_resolution gate resolve_effect status in
            st_ret (Resolution_AlreadySettled Target_Forward status)
        | None =>
            match unknown_target forward compensation with
            | None =>
                then! write_resolution gate resolve_effect Resolution_Halted in
                st_ret MissingUnknownEffect
            | Some target =>
                then! write_resolution gate resolve_effect Resolution_Pending in
                st_ret (Resolution_Admitted target)
            end
        end
  end.

(** The statuses a resolution verdict writes; [None] keeps the column. *)
Definition resolution_writes (target : ResolutionTarget) (status : StepResolutionStatus)
    : option StepForwardStatus * option StepCompensationStatus :=
  match target, status with
  | Target_Forward, Resolution_Succeeded => (Some Forward_Succeeded, None)
  | Target_Forward, Resolution_Rejected => (Some Forward_Rejected, None)
  | Target_Compensation, Resolution_Succeeded => (None, Some Comp_Succeeded)
  | Target_Compensation, Resolution_Rejected => (None, Some Comp_None)
  | _, _ => (None, None)
  end.

Definition settle_resolution (saga_id : SagaId) (step : StepName) (target : ResolutionTarget)
    (status : StepResolutionStatus) : Gx unit :=
  demand! negb (bool_decide (status = Resolution_None)) else
    Store "resolution settlement requires a query adjudication status" in
  let key := row_key saga_id step in
  let writes := resolution_writes target status in
  run! updated :=
    match target with
    | Target_Forward =>
        update_gate key
          (λ row, bool_decide (gate_forward_status row = Forward_Unknown)
                  && bool_decide (gate_resolution_status row = Resolution_Pending))
          (λ row, set_forward (default (gate_forward_status row) writes.1) (set_resolution status row))
    | Target_Compensation =>
        update_gate key
          (λ row, bool_decide (gate_compensation_status row = Comp_Unknown)
                  && bool_decide (gate_resolution_status row = Resolution_Pending))
          (λ row, set_compensation (default (gate_compensation_status row) writes.2)
                    (set_resolution status row))
    end in
  demand! negb (updated =? 0) else
    Store "resolution settlement found no matching unknown gate fact" in
  match target, status with
  | Target_Forward, (Resolution_Succeeded | Resolution_Rejected) =>
      then! update_gate key
        (λ row, bool_decide (gate_cancel_status row = Cancel_ResolutionPending))
        (set_cancel Cancel_AlreadyTerminal) in
      st_ret tt
  | _, _ => st_ret tt
  end.
End gate.
