(* ===== verification/SagaParticipant.v ===== *)
(** * The participant runtime

    Models [nasaga-runtime-core/src/participant.rs], the payload side of
    [envelope.rs] and the dispatch [nasaga-macro/src/lib.rs] generates for a
    [#[saga]] service.  A command is one transaction over the participant's
    inbox, step gates, business tables and result outbox: identity and trust
    are checked first, then the inbox claim, the gate admission, the business
    handler, the gate settlement and the result event; an error anywhere leaves
    nothing behind.  The business handlers and their decoders are parameters:
    functions of the context, the command and the business tables. *)

From Stdlib Require Import ZArith.
From S2P Require Import Prelude Bytes SagaIdentity SagaState SagaDefinition SagaEnvelope.
From S2P Require Import SagaStore SagaStart SagaGate.
From stdpp Require Import prelude strings pretty gmap.

Local Open Scope Z_scope.
Local Open Scope rust_scope.

(** ** Services *)

(** [serde::de::DeserializeOwned] for a command type, from bytes and from a
    parsed value. *)
Record Deserialize (T : Type) := mkDeserialize {
  from_slice : list Z → option T;
  from_value : Json → option T
}.
Arguments from_slice {T} _ _.
Arguments from_value {T} _ _.
Arguments mkDeserialize {T} _ _.

Inductive SagaExecutionError := Retryable (reason : string).

Definition SagaExecutionError_code (self : SagaExecutionError) : string :=
  match self with Retryable reason => reason end.

Inductive ParticipantHandled :=
| Handled_Executed (status : StepAttemptStatus)
| Handled_Duplicate
| Handled_Suppressed
| Handled_Replayed (status : StepAttemptStatus)
| Handled_ContractViolation.

Record ParticipantCommandTrust := mkCommandTrust {
  trust_producer : ServiceIdentity;
  trust_workflow : WorkflowName;
  trust_definition_version : DefinitionVersion;
  trust_definition_digest : option string
}.

(** The static contract a [#[saga]] step registers in
    [COLLECTED_SAGA_STEPS]. *)
Record SagaStepDescriptor := mkDescriptor {
  desc_payload_content_type : string;
  desc_payload_schema_id : string;
  desc_workflow : string;
  desc_definition_version : Z;
  desc_step : string;
  desc_compensation : Compensation;
  desc_cancel_mode : CancelMode;
  desc_allow_unknown : bool;
  desc_resolution_mode : option ResolutionMode
}.

(** Trust edges by workflow, version and digest; [None] admits any digest. *)
Abbreviation TrustMap := (gmap (string * Z * option string) string).

Record ParticipantRuntime := mkParticipant {
  pr_consumer : string;
  pr_trusted_command_producers : gset string;
  pr_command_trust : TrustMap
}.

Definition RESULT_EVENT_TYPE : string := "saga.result".

Section participant.
Context `{Runtime} {Biz : Type}.

(** The business tables a handler may write in the participant's
    transaction. *)
Definition Handler (C O : Type) : Type :=
  SagaContext Uuid → C → Biz → result (O * Biz) SagaExecutionError.

Record SagaStep := mkSagaStep {
  Command : Type;
  CompensationCommand : Type;
  Product : Type;
  command_de : Deserialize Command;
  compensation_de : Deserialize CompensationCommand;
  step_execute : Handler Command (SagaOutcome Product);
  step_compensate : Handler CompensationCommand CompensationOutcome
}.

Record SagaCancelStep := mkSagaCancelStep {
  CancelCommand : Type;
  cancel_de : Deserialize CancelCommand;
  step_cancel : Handler CancelCommand CancelOutcome
}.

Record SagaResolveStep := mkSagaResolveStep {
  ResolveCommand : Type;
  ResolveProduct : Type;
  resolve_de : Deserialize ResolveCommand;
  step_resolve : Handler ResolveCommand (SagaOutcome ResolveProduct)
}.

(** ** The participant's database *)

Record PDb := mkPDb {
  pdb_gates : GateTable;
  pdb_inbox : list (string * string);
  pdb_outbox : list SagaResultEnvelope;
  pdb_business : Biz
}.

Definition PTx (A : Type) : Type := St SagaError PDb A.

Definition set_gates (gates : GateTable) (db : PDb) : PDb :=
  mkPDb gates (pdb_inbox db) (pdb_outbox db) (pdb_business db).
Definition set_participant_inbox (inbox : list (string * string)) (db : PDb) : PDb :=
  mkPDb (pdb_gates db) inbox (pdb_outbox db) (pdb_business db).
Definition set_participant_outbox (outbox : list SagaResultEnvelope) (db : PDb) : PDb :=
  mkPDb (pdb_gates db) (pdb_inbox db) outbox (pdb_business db).
Definition set_business (business : Biz) (db : PDb) : PDb :=
  mkPDb (pdb_gates db) (pdb_inbox db) (pdb_outbox db) business.

Definition on_gates {A} (c : Gx A) : PTx A :=
  λ db, match c (pdb_gates db) with
        | Ok (x, gates) => Ok (x, set_gates gates db)
        | Err e => Err e
        end.

(** A handler's business writes stay in the transaction; [Retryable] becomes
    the error [what] announces. *)
Definition call_handler {A} (what : string) (h : Biz → result (A * Biz) SagaExecutionError) : PTx A :=
  λ db, match h (pdb_business db) with
        | Ok (x, business) => Ok (x, set_business business db)
        | Err (Retryable reason) => Err (Anyhow (what +:+ reason))
        end.

(** [InboxStore::claim] *)
Definition validate_key (value : string) (max : Z) : bool :=
  negb (is_empty value) && is_trimmed value && (len value <=? max) && negb (has_nul value).

Definition claim (consumer message_id : string) : PTx InboxClaim :=
  demand! validate_key consumer 128 else Store "invalid consumer_name" in
  demand! validate_key message_id 190 else Store "invalid message_id" in
  run! inbox := st_get pdb_inbox in
  if bool_decide ((consumer, message_id) ∈ inbox) then st_ret Duplicate
  else
    then! st_modify (set_participant_inbox (inbox ++ [(consumer, message_id)])) in
    st_ret Claimed.

(** ** Payloads (envelope.rs) *)

Definition contract_invalid : SagaError := CommandProcessing Command_ContractInvalid.

Definition business_payload (self : SagaCommandEnvelope) : SagaResult (option SagaPayload) :=
  if negb (is_none (cmd_payload self)) && negb (is_none (cmd_raw_payload self))
  then Err contract_invalid
  else
    let payload := match cmd_raw_payload self with
                   | Some raw => Some raw
                   | None => SagaPayload_json <$> cmd_payload self
                   end in
    match payload with
    | Some p => try? map_err (λ _, contract_invalid) (validate_payload p) in Ok payload
    | None => Ok payload
    end.

Definition verify_payload_contract (self : SagaCommandEnvelope) (content_type schema_id : string)
    : SagaResult unit :=
  let? payload := business_payload self in
  match payload with
  | Some p =>
      if negb (bool_decide (payload_content_type p = content_type))
         || negb (bool_decide (payload_schema_id p = schema_id))
      then Err contract_invalid else Ok tt
  | None => Ok tt
  end.

Definition decode_payload {T} (de : Deserialize T) (self : SagaCommandEnvelope) : SagaResult T :=
  let? payload := business_payload self in
  ok_or (match payload with
         | None => from_value de Json_Null
         | Some p =>
             if bool_decide (payload_content_type p = "application/json")
             then from_slice de (payload_body p)
             else from_value de (Json_Array (map (λ b, Json_Number (pretty b)) (payload_body p)))
         end) contract_invalid.

(** ** Results (envelope.rs) *)

Definition SagaResultEnvelope_verified (self : SagaResultEnvelope) : SagaResult VerifiedIdentity :=
  let? identity := verify_identity (res_saga_id self) (res_tenant_id self) (res_workflow self)
       (res_definition_version self) (res_definition_digest self) (res_step self) (res_phase self)
       (res_attempt self) (res_effect_id self) (res_command_id self) in
  try? verify_result_contract self identity in
  Ok identity.

(** [validate_event] on the event [to_outbox_event] makes of a result. *)
Definition validate_result_event (result : SagaResultEnvelope) : SagaResult unit :=
  if forallb (λ field, negb (is_empty field.1) && (len field.1 <=? field.2) && negb (has_nul field.1))
       [(res_event_id result, 128); (SAGA_AGGREGATE_TYPE, 128); (res_saga_id result, 190);
        (RESULT_EVENT_TYPE, 128)]
  then Ok tt else Err (Store "invalid outbox event identity").

(** [append_transactional_with_context], with [admits] the verdict of the
    tenant's quota ledger. *)
Definition append_result (admits : bool) (result : SagaResultEnvelope) : PTx unit :=
  then! st_lift (validate_result_event result) in
  run! outbox := st_get pdb_outbox in
  if existsb (λ r, bool_decide (res_event_id r = res_event_id result)) outbox then st_ret tt
  else
    demand! admits else Store "outbox tenant quota exceeded" in
    st_modify (set_participant_outbox (outbox ++ [result])).

Definition result_of (envelope : SagaCommandEnvelope) (status : StepAttemptStatus)
    (terminal : option StepForwardStatus) (reason_code : option string) : SagaResultEnvelope :=
  {| res_event_id := derive_result_event_id (cmd_command_id envelope);
     res_saga_id := cmd_saga_id envelope;
     res_tenant_id := cmd_tenant_id envelope;
     res_workflow := cmd_workflow envelope;
     res_definition_version := cmd_definition_version envelope;
     res_definition_digest := cmd_definition_digest envelope;
     res_step := cmd_step envelope;
     res_phase := cmd_phase envelope;
     res_attempt := cmd_attempt envelope;
     res_effect_id := cmd_effect_id envelope;
     res_command_id := cmd_command_id envelope;
     res_status := StepAttemptStatus_as_str status;
     res_terminal_status := StepForwardStatus_as_str <$> terminal;
     res_reason_code := reason_code |}.

Definition emit_result (admits : bool) (envelope : SagaCommandEnvelope) (status : StepAttemptStatus)
    (terminal : option StepForwardStatus) (reason_code : option string) : PTx unit :=
  let result := result_of envelope status terminal reason_code in
  then! st_lift (map_err (λ _, contract_invalid) (SagaResultEnvelope_verified result)) in
  then! st_lift (map_err (λ _, contract_invalid) (OutboxWriteContext_new (cmd_tenant_id envelope))) in
  append_result admits result.

(** ** Trust *)

Definition ParticipantCommandTrust_new (producer : ServiceIdentity) (workflow : WorkflowName)
    (definition_version : DefinitionVersion) (definition_digest : string)
    : SagaResult ParticipantCommandTrust :=
  ensure lower_hex_digest definition_digest else
    Anyhow "participant command trust requires a canonical definition digest" in
  Ok (mkCommandTrust producer workflow definition_version (Some definition_digest)).

Definition ParticipantCommandTrust_for_definition_version (producer : ServiceIdentity)
    (workflow : WorkflowName) (definition_version : DefinitionVersion) : ParticipantCommandTrust :=
  mkCommandTrust producer workflow definition_version None.

Definition consumer_byte (b : Z) : bool :=
  is_ascii_lowercase b || is_ascii_digit b || (b =? 95) || (b =? 45) || (b =? 46).

Definition trust_key (trust : ParticipantCommandTrust) : string * Z * option string :=
  (WorkflowName_as_str (trust_workflow trust),
   DefinitionVersion_get (trust_definition_version trust), trust_definition_digest trust).

Fixpoint project_trust (command_trust : list ParticipantCommandTrust) (producers : gset string)
    (projected : TrustMap) : SagaResult (gset string * TrustMap) :=
  match command_trust with
  | [] => Ok (producers, projected)
  | trust :: rest =>
      let producer := ServiceIdentity_as_str (trust_producer trust) in
      match projected !! trust_key trust with
      | Some _ =>
          Err (Anyhow "participant command trust contains a duplicate definition projection")
      | None => project_trust rest ({[producer]} ∪ producers) (<[trust_key trust := producer]> projected)
      end
  end.

Definition ParticipantRuntime_build (consumer : string) (command_trust : list ParticipantCommandTrust)
    : SagaResult ParticipantRuntime :=
  if is_empty consumer || negb (is_trimmed consumer) || (128 <? len consumer) || has_nul consumer
     || negb (forallb consumer_byte (as_bytes consumer))
  then Err (Anyhow "participant consumer must satisfy the Inbox key contract")
  else
    let? projection := project_trust command_trust ∅ ∅ in
    if bool_decide (projection.2 = ∅)
    then Err (Anyhow "participant requires at least one command trust projection")
    else Ok (mkParticipant consumer projection.1 projection.2).

Definition producer_unauthorized : SagaError := CommandProcessing Command_ProducerUnauthorized.

(** [authenticate]: the view it returns is the runtime with this producer. *)
Definition authenticate (self : ParticipantRuntime) (producer : ServiceIdentity) : SagaResult unit :=
  if bool_decide (ServiceIdentity_as_str producer ∈ pr_trusted_command_producers self)
  then Ok tt else Err producer_unauthorized.

Definition single_trusted_command_producer (self : ParticipantRuntime) : SagaResult string :=
  match elements (pr_trusted_command_producers self) with
  | [producer] => Ok producer
  | _ => Err (Anyhow "participant transport requires an explicit producer when trust contains multiple producers")
  end.

Definition verify_command_producer (self : ParticipantRuntime) (producer : ServiceIdentity)
    (identity : VerifiedIdentity) : SagaResult unit :=
  let workflow := WorkflowName_as_str (vid_workflow identity) in
  let version := DefinitionVersion_get (vid_definition_version identity) in
  let key := (workflow, version, Some (vid_definition_digest identity)) in
  let version_key := (workflow, version, None) in
  if negb (bool_decide (pr_command_trust self !! key = Some (ServiceIdentity_as_str producer)))
     && negb (bool_decide (pr_command_trust self !! version_key = Some (ServiceIdentity_as_str producer)))
  then Err producer_unauthorized else Ok tt.

(** The steps of this binary, collected at link time. *)
Context (COLLECTED_SAGA_STEPS : list SagaStepDescriptor).

Definition descriptor_matches (envelope : SagaCommandEnvelope) (d : SagaStepDescriptor) : bool :=
  bool_decide (desc_workflow d = cmd_workflow envelope)
  && (desc_definition_version d =? cmd_definition_version envelope)
  && bool_decide (desc_step d = cmd_step envelope).

Definition verified_command_identity (self : ParticipantRuntime) (envelope : SagaCommandEnvelope)
    (producer : ServiceIdentity) : SagaResult VerifiedIdentity :=
  let? identity := map_err (λ _, CommandProcessing Command_IdentityInvalid)
                     (SagaCommandEnvelope_verified envelope) in
  try? verify_command_producer self producer identity in
  let contract :=
    match find_first (descriptor_matches envelope) COLLECTED_SAGA_STEPS with
    | Some d => (desc_payload_content_type d, desc_payload_schema_id d)
    | None => ("application/json", "")
    end in
  try? verify_payload_contract envelope contract.1 contract.2 in
  Ok identity.

(** ** Status projections *)

Definition safe_reason_code (reason : string) : string :=
  if valid_reason_code reason then reason else "participant_reason_code_invalid".

Definition forward_to_attempt_status (terminal : StepForwardStatus) : SagaResult StepAttemptStatus :=
  match terminal with
  | Forward_Succeeded => Ok Attempt_Succeeded
  | Forward_Rejected => Ok Attempt_Rejected
  | Forward_Unknown => Ok Attempt_Unknown
  | Forward_Halted => Ok Attempt_Halted
  | _ => Err (Anyhow "gate terminal status is not replayable")
  end.

Definition cancel_adjudication_result (adjudication : CancelAdjudication)
    : StepAttemptStatus * option StepForwardStatus :=
  match adjudication with
  | Adjudicated_Confirmed => (Attempt_CancelConfirmed, None)
  | Adjudicated_AlreadyTerminal forward => (Attempt_AlreadyTerminal, Some forward)
  | Adjudicated_ResolutionPending => (Attempt_ResolutionPending, None)
  end.

Record ExternalCancelResult := mkExternalCancel {
  ecr_forward : StepForwardStatus;
  ecr_cancel : StepCancelStatus;
  ecr_status : StepAttemptStatus;
  ecr_terminal : option StepForwardStatus;
  ecr_reason : option string
}.

Definition external_cancel_result (outcome : CancelOutcome) : ExternalCancelResult :=
  match outcome with
  | CancelOutcome_CancelConfirmed =>
      mkExternalCancel Forward_Cancelled Cancel_Confirmed Attempt_CancelConfirmed None None
  | CancelOutcome_AlreadyTerminal terminal =>
      let '(forward, reason) :=
        match terminal with
        | Terminal_Succeeded => (Forward_Succeeded, None)
        | Terminal_Rejected reason => (Forward_Rejected, Some reason)
        | Terminal_Halted reason => (Forward_Halted, Some reason)
        end in
      mkExternalCancel forward Cancel_AlreadyTerminal Attempt_AlreadyTerminal (Some forward) reason
  | CancelOutcome_ResolutionPending reason =>
      mkExternalCancel Forward_Unknown Cancel_ResolutionPending Attempt_ResolutionPending None
        (Some reason)
  end.

Definition compensation_to_attempt_status (terminal : StepCompensationStatus)
    : SagaResult StepAttemptStatus :=
  match terminal with
  | Comp_Succeeded => Ok Attempt_Succeeded
  | Comp_Unknown => Ok Attempt_Unknown
  | Comp_Halted => Ok Attempt_Halted
  | Comp_None | Comp_Pending => Err (Anyhow "compensation gate status is not replayable")
  end.

Definition resolution_to_attempt_status (status : StepResolutionStatus)
    : SagaResult StepAttemptStatus :=
  match status with
  | Resolution_Succeeded => Ok Attempt_Succeeded
  | Resolution_Rejected => Ok Attempt_Rejected
  | Resolution_Halted => Ok Attempt_Halted
  | Resolution_None | Resolution_Pending => Err (Anyhow "resolution gate status is not replayable")
  end.

(** ** Handlers *)

Definition context_of (identity : VerifiedIdentity) (envelope : SagaCommandEnvelope)
    : SagaResult (SagaContext Uuid) :=
  let? payload := business_payload envelope in
  Ok (SagaContext_with_payload
        (SagaContext_new uuid_as_bytes uuid_new_v5 (vid_saga_id identity) (vid_tenant identity)
           (vid_workflow identity) (vid_definition_version identity)
           (cmd_definition_digest envelope) (vid_step identity) (vid_phase identity)
           (vid_attempt identity)) payload).

Definition gate_of (identity : VerifiedIdentity) (envelope : SagaCommandEnvelope) : ParticipantGateKey :=
  mkGateKey (vid_saga_id identity) (vid_step identity) (vid_tenant identity) (vid_workflow identity)
    (vid_definition_version identity) (cmd_definition_digest envelope).

Definition execute_effect (identity : VerifiedIdentity) : Uuid :=
  EffectId_derive uuid_new_v5 (vid_saga_id identity) (vid_definition_version identity)
    (vid_step identity) Execute.

(** The head all handlers share: identity, trust and phase before the
    transaction, then the inbox claim. *)
Definition with_claimed (self : ParticipantRuntime) (envelope : SagaCommandEnvelope)
    (producer : ServiceIdentity) (phase : StepPhase)
    (body : VerifiedIdentity → PTx ParticipantHandled) : PTx ParticipantHandled :=
  run! identity := st_lift (verified_command_identity self envelope producer) in
  demand! bool_decide (vid_phase identity = phase) else contract_invalid in
  run! claimed := claim (pr_consumer self) (cmd_command_id envelope) in
  match claimed with
  | Duplicate => st_ret Handled_Duplicate
  | Claimed => body identity
  end.

Section handlers.
Context (self : ParticipantRuntime) (envelope : SagaCommandEnvelope) (producer : ServiceIdentity)
  (admits : bool).

(** What the execute outcomes settle and report. *)
Definition execute_verdict {T} (allow_unknown : bool) (outcome : SagaOutcome T)
    : StepForwardStatus * StepAttemptStatus * option string :=
  match outcome with
  | Outcome_Succeeded _ => (Forward_Succeeded, Attempt_Succeeded, None)
  | Outcome_Rejected reason => (Forward_Rejected, Attempt_Rejected, Some (safe_reason_code reason))
  | Outcome_Unknown reason =>
      if allow_unknown then (Forward_Unknown, Attempt_Unknown, Some (safe_reason_code reason))
      else (Forward_Halted, Attempt_Halted, Some "unknown_not_allowed")
  | Outcome_Halted reason => (Forward_Halted, Attempt_Halted, Some (safe_reason_code reason))
  end.

Definition handle_authenticated_execute (service : SagaStep) (allow_unknown : bool)
    : PTx ParticipantHandled :=
  with_claimed self envelope producer Execute (λ identity,
    run! admission := on_gates (admit_execute (gate_of identity envelope) (vid_effect identity)) in
    match admission with
    | Execute_Suppressed => st_ret Handled_Suppressed
    | Execute_AlreadyTerminal terminal =>
        run! status := st_lift (forward_to_attempt_status terminal) in
        then! emit_result admits envelope status None None in
        st_ret (Handled_Replayed status)
    | Execute_Admitted =>
        run! context := st_lift (context_of identity envelope) in
        run! command := st_lift (decode_payload (command_de service) envelope) in
        run! outcome := call_handler "retryable execution error: "
          (step_execute service context command) in
        let verdict := execute_verdict allow_unknown outcome in
        then! on_gates (settle_execute (vid_saga_id identity) (vid_step identity) verdict.1.1) in
        then! emit_result admits envelope verdict.1.2 None verdict.2 in
        st_ret (Handled_Executed verdict.1.2)
    end).

Definition handle_authenticated_cancel_local : PTx ParticipantHandled :=
  with_claimed self envelope producer SagaIdentity.Cancel (λ identity,
    run! adjudication := on_gates (adjudicate_cancel (gate_of identity envelope)
      (execute_effect identity) (vid_effect identity)) in
    let result := cancel_adjudication_result adjudication in
    then! emit_result admits envelope result.1 result.2 None in
    st_ret (Handled_Executed result.1)).

Definition handle_authenticated_cancel_external (service : SagaCancelStep) : PTx ParticipantHandled :=
  with_claimed self envelope producer SagaIdentity.Cancel (λ identity,
    run! admission := on_gates (admit_external_cancel (gate_of identity envelope)
      (execute_effect identity) (vid_effect identity)) in
    match admission with
    | AlreadyAdjudicated adjudication =>
        let result := cancel_adjudication_result adjudication in
        then! emit_result admits envelope result.1 result.2 None in
        st_ret (Handled_Replayed result.1)
    | ExternalCancel_Admitted =>
        run! context := st_lift (context_of identity envelope) in
        let context := SagaContext_with_target_phase uuid_new_v5 context Execute in
        run! command := st_lift (decode_payload (cancel_de service) envelope) in
        run! outcome := call_handler "retryable external cancel error: "
          (step_cancel service context command) in
        let r := external_cancel_result outcome in
        then! on_gates (settle_external_cancel (vid_saga_id identity) (vid_step identity)
          (ecr_forward r) (ecr_cancel r)) in
        then! emit_result admits envelope (ecr_status r) (ecr_terminal r)
          (safe_reason_code <$> ecr_reason r) in
        st_ret (Handled_Executed (ecr_status r))
    end).

Definition compensation_replay_reason (terminal : StepCompensationStatus) : option string :=
  match terminal with
  | Comp_Unknown => Some "compensation_outcome_unknown"
  | Comp_Halted => Some "compensation_already_halted"
  | _ => None
  end.

Definition compensation_verdict (outcome : CompensationOutcome)
    : StepCompensationStatus * StepAttemptStatus * option string :=
  match outcome with
  | CompOutcome_Succeeded => (Comp_Succeeded, Attempt_Succeeded, None)
  | CompOutcome_Unknown reason => (Comp_Unknown, Attempt_Unknown, Some (safe_reason_code reason))
  | CompOutcome_Halted reason => (Comp_Halted, Attempt_Halted, Some (safe_reason_code reason))
  end.

Definition handle_authenticated_compensate (service : SagaStep) : PTx ParticipantHandled :=
  with_claimed self envelope producer Compensate (λ identity,
    run! admission := on_gates (admit_compensation (gate_of identity envelope) (vid_effect identity)
      (cmd_recovery_operation_id envelope)) in
    match admission with
    | Compensation_AlreadySettled terminal =>
        run! status := st_lift (compensation_to_attempt_status terminal) in
        then! emit_result admits envelope status None (compensation_replay_reason terminal) in
        st_ret (Handled_Replayed status)
    | MissingForwardEffect =>
        then! emit_result admits envelope Attempt_Halted None
          (Some "compensation_contract_violation") in
        st_ret Handled_ContractViolation
    | Compensation_Admitted =>
        run! context := st_lift (context_of identity envelope) in
        run! command := st_lift (decode_payload (compensation_de service) envelope) in
        run! outcome := call_handler "retryable compensation error: "
          (step_compensate service context command) in
        let verdict := compensation_verdict outcome in
        then! on_gates (settle_compensation (vid_saga_id identity) (vid_step identity) verdict.1.1) in
        then! emit_result admits envelope verdict.1.2 None verdict.2 in
        st_ret (Handled_Executed verdict.1.2)
    end).

Definition resolution_verdict {T} (outcome : SagaOutcome T)
    : StepResolutionStatus * StepAttemptStatus * option string :=
  match outcome with
  | Outcome_Succeeded _ => (Resolution_Succeeded, Attempt_Succeeded, None)
  | Outcome_Rejected reason => (Resolution_Rejected, Attempt_Rejected, Some (safe_reason_code reason))
  | Outcome_Unknown reason => (Resolution_Pending, Attempt_Unknown, Some (safe_reason_code reason))
  | Outcome_Halted reason => (Resolution_Halted, Attempt_Halted, Some (safe_reason_code reason))
  end.

Definition target_phase (target : ResolutionTarget) : StepPhase :=
  match target with Target_Forward => Execute | Target_Compensation => Compensate end.

Definition handle_authenticated_resolve (service : SagaResolveStep) : PTx ParticipantHandled :=
  with_claimed self envelope producer Resolve (λ identity,
    run! admission := on_gates (admit_resolution (gate_of identity envelope) (vid_effect identity)
      (cmd_recovery_operation_id envelope)) in
    match admission with
    | Resolution_AlreadySettled _ status =>
        run! status := st_lift (resolution_to_attempt_status status) in
        then! emit_result admits envelope status None None in
        st_ret (Handled_Replayed status)
    | MissingUnknownEffect =>
        then! emit_result admits envelope Attempt_Halted None (Some "resolution_contract_violation") in
        st_ret Handled_ContractViolation
    | Resolution_Admitted target =>
        run! context := st_lift (context_of identity envelope) in
        let context := SagaContext_with_target_phase uuid_new_v5 context (target_phase target) in
        run! command := st_lift (decode_payload (resolve_de service) envelope) in
        run! outcome := call_handler "retryable resolution error: "
          (step_resolve service context command) in
        let verdict := resolution_verdict outcome in
        then! on_gates (settle_resolution (vid_saga_id identity) (vid_step identity) target
          verdict.1.1) in
        then! emit_result admits envelope verdict.1.2 None verdict.2 in
        st_ret (Handled_Executed verdict.1.2)
    end).
End handlers.

(** ** The dispatch generated for a [#[saga]] service *)

(** What the service implements, by its cancel mode: the macro's calls make
    the compiler demand the other two traits. *)
Inductive Capability :=
| Capability_LocalFenceable
| Capability_ResolveOnly (resolver : SagaResolveStep)
| Capability_ExternallyCancellable (canceller : SagaCancelStep) (resolver : SagaResolveStep).

Record SagaService := mkService {
  srv_descriptor : SagaStepDescriptor;
  srv_step : SagaStep;
  srv_capability : Capability
}.

(** The attributes the macro writes into the descriptor for a capability. *)
Definition Capability_cancel_mode (self : Capability) : CancelMode :=
  match self with
  | Capability_LocalFenceable => LocalFenceable
  | Capability_ResolveOnly _ => ResolveOnly
  | Capability_ExternallyCancellable _ _ => ExternallyCancellable
  end.

Definition Capability_resolution_mode (self : Capability) : option ResolutionMode :=
  match self with Capability_LocalFenceable => None | _ => Some Poll end.

(** [parse_args] and [expand]: the descriptor of a service that compiles. *)
Definition macro_accepts (service : SagaService) : bool :=
  let d := srv_descriptor service in
  (1 <=? desc_definition_version d)
  && bool_decide (desc_cancel_mode d = Capability_cancel_mode (srv_capability service))
  && bool_decide (desc_resolution_mode d = Capability_resolution_mode (srv_capability service))
  && match srv_capability service with
     | Capability_LocalFenceable => negb (desc_allow_unknown d)
     | _ => desc_allow_unknown d
     end.

Definition saga_handle_command (self : ParticipantRuntime) (service : SagaService)
    (envelope : SagaCommandEnvelope) (producer : ServiceIdentity) (admits : bool)
    : PTx ParticipantHandled :=
  let d := srv_descriptor service in
  demand! descriptor_matches envelope d else CommandProcessing Command_RouteUnauthorized in
  then! st_lift (verify_payload_contract envelope (desc_payload_content_type d)
                   (desc_payload_schema_id d)) in
  match StepPhase_parse (cmd_phase envelope) with
  | Some Execute =>
      handle_authenticated_execute self envelope producer admits (srv_step service)
        (desc_allow_unknown d)
  | Some SagaIdentity.Cancel =>
      match srv_capability service with
      | Capability_LocalFenceable => handle_authenticated_cancel_local self envelope producer admits
      | Capability_ResolveOnly _ => st_fail contract_invalid
      | Capability_ExternallyCancellable canceller _ =>
          handle_authenticated_cancel_external self envelope producer admits canceller
      end
  | Some Compensate =>
      match desc_compensation d with
      | Compensable =>
          handle_authenticated_compensate self envelope producer admits (srv_step service)
      | NonCompensable => st_fail contract_invalid
      end
  | Some Resolve =>
      match srv_capability service with
      | Capability_LocalFenceable => st_fail contract_invalid
      | Capability_ResolveOnly resolver | Capability_ExternallyCancellable _ resolver =>
          handle_authenticated_resolve self envelope producer admits resolver
      end
  | None => st_fail contract_invalid
  end.
End participant.

Arguments PDb : clear implicits.
