(* ===== verification/SagaParticipantRules.v ===== *)
(** * The protocol of a step gate

    An abstract specification of the participant: the four verdicts of one
    step and the rules by which a committed command may move them, with the
    answer each rule sends.  [participant_refines] shows that every command the
    runtime commits is one of these rules applied to one step, and that the
    rows the store keeps stay well formed. *)

From Stdlib Require Import ZArith.
From S2P Require Import Prelude Bytes SagaIdentity SagaState SagaDefinition SagaEnvelope.
From S2P Require Import SagaStore SagaStart SagaGate SagaParticipant.
From stdpp Require Import prelude strings gmap.

Local Open Scope Z_scope.
Local Open Scope rust_scope.

(** ** Verdicts and rules *)

Record Verdicts := mkVerdicts {
  v_forward : StepForwardStatus;
  v_cancel : StepCancelStatus;
  v_compensation : StepCompensationStatus;
  v_resolution : StepResolutionStatus
}.

Definition verdicts (row : GateRow) : Verdicts :=
  mkVerdicts (gate_forward_status row) (gate_cancel_status row) (gate_compensation_status row)
    (gate_resolution_status row).

(** What a command is answered with: a status and, for an [ALREADY_TERMINAL],
    the forward verdict it reports. *)
Definition Answer : Type := option (StepAttemptStatus * option StepForwardStatus).
Definition reply (s : StepAttemptStatus) : Answer := Some (s, None).

(** The verdicts of a business handler and how they are reported. *)
Inductive reported : StepForwardStatus → StepAttemptStatus → Prop :=
| reported_succeeded : reported Forward_Succeeded Attempt_Succeeded
| reported_rejected : reported Forward_Rejected Attempt_Rejected
| reported_unknown : reported Forward_Unknown Attempt_Unknown
| reported_halted : reported Forward_Halted Attempt_Halted.

Inductive undone : StepCompensationStatus → StepAttemptStatus → Prop :=
| undone_succeeded : undone Comp_Succeeded Attempt_Succeeded
| undone_unknown : undone Comp_Unknown Attempt_Unknown
| undone_halted : undone Comp_Halted Attempt_Halted.

Definition final (f : StepForwardStatus) : Prop :=
  f = Forward_Succeeded ∨ f = Forward_Rejected ∨ f = Forward_Halted.

(** The answer to a cancel command, by the verdicts it leaves. *)
Inductive cancelled : StepForwardStatus → StepCancelStatus → StepAttemptStatus →
    option StepForwardStatus → Prop :=
| cancelled_confirmed : cancelled Forward_Cancelled Cancel_Confirmed Attempt_CancelConfirmed None
| cancelled_terminal f : final f → cancelled f Cancel_AlreadyTerminal Attempt_AlreadyTerminal (Some f)
| cancelled_pending :
    cancelled Forward_Unknown Cancel_ResolutionPending Attempt_ResolutionPending None.

(** A cancel verdict that waited for the forward one is promoted with it. *)
Definition promoted (c : StepCancelStatus) (f : StepForwardStatus) : StepCancelStatus :=
  match c, f with
  | Cancel_ResolutionPending, Forward_Unknown => c
  | Cancel_ResolutionPending, _ => Cancel_AlreadyTerminal
  | _, _ => c
  end.

(** [gate_rule phase recovery before after handled answer]: a command of
    [phase], issued by an audited recovery operation or not, moves the verdicts
    of its step from [before], [None] when the step is new to the participant,
    to [after]. *)
Inductive gate_rule : StepPhase → bool → option Verdicts → Verdicts → ParticipantHandled → Answer → Prop :=
| rule_execute rec f s :
    reported f s →
    gate_rule Execute rec None (mkVerdicts f Cancel_None Comp_None Resolution_None)
      (Handled_Executed s) (reply s)
| rule_execute_again rec v s :
    reported (v_forward v) s →
    gate_rule Execute rec (Some v) v (Handled_Replayed s) (reply s)
| rule_execute_fenced rec v :
    v_forward v = Forward_Cancelled →
    gate_rule Execute rec (Some v) v Handled_Suppressed None
| rule_fence rec :
    gate_rule SagaIdentity.Cancel rec None
      (mkVerdicts Forward_Cancelled Cancel_Confirmed Comp_None Resolution_None)
      (Handled_Executed Attempt_CancelConfirmed) (reply Attempt_CancelConfirmed)
| rule_cancel rec f c0 c k r s t handled :
    c0 = Cancel_None ∨ c0 = c → cancelled f c s t →
    handled = Handled_Executed s ∨ handled = Handled_Replayed s →
    gate_rule SagaIdentity.Cancel rec (Some (mkVerdicts f c0 k r)) (mkVerdicts f c k r) handled
      (Some (s, t))
| rule_cancel_first rec f c s t :
    cancelled f c s t →
    gate_rule SagaIdentity.Cancel rec None (mkVerdicts f c Comp_None Resolution_None)
      (Handled_Executed s) (Some (s, t))
| rule_cancel_unknown rec f c k r s t :
    cancelled f c s t →
    gate_rule SagaIdentity.Cancel rec (Some (mkVerdicts Forward_Unknown Cancel_None k r))
      (mkVerdicts f c k r) (Handled_Executed s) (Some (s, t))
| rule_compensate rec c k0 k r s :
    k0 = Comp_None ∨ k0 = Comp_Halted ∧ rec = true → undone k s →
    gate_rule Compensate rec (Some (mkVerdicts Forward_Succeeded c k0 r))
      (mkVerdicts Forward_Succeeded c k Resolution_None) (Handled_Executed s) (reply s)
| rule_compensate_again rec v s :
    undone (v_compensation v) s →
    (v_compensation v = Comp_Halted → rec = false ∨ v_forward v ≠ Forward_Succeeded) →
    gate_rule Compensate rec (Some v) v (Handled_Replayed s) (reply s)
| rule_compensate_nothing rec :
    gate_rule Compensate rec None
      (mkVerdicts Forward_Halted Cancel_None Comp_Halted Resolution_None)
      Handled_ContractViolation (reply Attempt_Halted)
| rule_compensate_unsuccessful rec f c r :
    f ≠ Forward_Succeeded →
    gate_rule Compensate rec (Some (mkVerdicts f c Comp_None r)) (mkVerdicts f c Comp_Halted r)
      Handled_ContractViolation (reply Attempt_Halted)
| rule_resolve_forward rec c k r0 f c' r s :
    c' = promoted c f → k ≠ Comp_Unknown → r0 ≠ Resolution_Succeeded → r0 ≠ Resolution_Rejected →
    (r0 = Resolution_Halted → rec = true) →
    (f, r, s) ∈ [(Forward_Succeeded, Resolution_Succeeded, Attempt_Succeeded);
                 (Forward_Rejected, Resolution_Rejected, Attempt_Rejected);
                 (Forward_Unknown, Resolution_Pending, Attempt_Unknown);
                 (Forward_Unknown, Resolution_Halted, Attempt_Halted)] →
    gate_rule Resolve rec (Some (mkVerdicts Forward_Unknown c k r0))
      (mkVerdicts f c' k r)
      (Handled_Executed s) (reply s)
| rule_resolve_compensation rec f c r0 k r s :
    r0 ≠ Resolution_Succeeded → r0 ≠ Resolution_Rejected → (r0 = Resolution_Halted → rec = true) →
    (k, r, s) ∈ [(Comp_Succeeded, Resolution_Succeeded, Attempt_Succeeded);
                 (Comp_None, Resolution_Rejected, Attempt_Rejected);
                 (Comp_Unknown, Resolution_Pending, Attempt_Unknown);
                 (Comp_Unknown, Resolution_Halted, Attempt_Halted)] →
    gate_rule Resolve rec (Some (mkVerdicts f c Comp_Unknown r0)) (mkVerdicts f c k r)
      (Handled_Executed s) (reply s)
| rule_resolve_again rec v s :
    (v_resolution v, s) ∈ [(Resolution_Succeeded, Attempt_Succeeded);
                           (Resolution_Rejected, Attempt_Rejected);
                           (Resolution_Halted, Attempt_Halted)] →
    (v_resolution v = Resolution_Halted → rec = false) →
    gate_rule Resolve rec (Some v) v (Handled_Replayed s) (reply s)
| rule_resolve_known rec f c r s :
    (f, r, s) ∈ [(Forward_Succeeded, Resolution_Succeeded, Attempt_Succeeded);
                 (Forward_Rejected, Resolution_Rejected, Attempt_Rejected)] →
    gate_rule Resolve rec (Some (mkVerdicts f c Comp_None Resolution_None))
      (mkVerdicts f c Comp_None r) (Handled_Replayed s) (reply s)
| rule_resolve_nothing rec :
    gate_rule Resolve rec None (mkVerdicts Forward_Halted Cancel_None Comp_None Resolution_Halted)
      Handled_ContractViolation (reply Attempt_Halted)
| rule_resolve_settled rec f c k r0 :
    f ≠ Forward_Unknown → k ≠ Comp_Unknown → r0 ≠ Resolution_Succeeded → r0 ≠ Resolution_Rejected →
    (r0 = Resolution_Halted → rec = true) →
    (r0 = Resolution_None → k = Comp_None → f ≠ Forward_Succeeded ∧ f ≠ Forward_Rejected) →
    gate_rule Resolve rec (Some (mkVerdicts f c k r0)) (mkVerdicts f c k Resolution_Halted)
      Handled_ContractViolation (reply Attempt_Halted).

(** The combinations a committed row can hold. *)
Record verdicts_ok (v : Verdicts) : Prop := {
  vo_forward : v_forward v = Forward_Cancelled ∨ v_forward v = Forward_Unknown ∨ final (v_forward v);
  vo_fence : v_cancel v = Cancel_Confirmed ↔ v_forward v = Forward_Cancelled;
  vo_terminal : v_cancel v = Cancel_AlreadyTerminal → final (v_forward v);
  vo_pending : v_cancel v = Cancel_ResolutionPending → v_forward v = Forward_Unknown;
  vo_compensation : v_compensation v ≠ Comp_Pending;
  vo_undone : v_compensation v = Comp_Succeeded ∨ v_compensation v = Comp_Unknown →
    v_forward v = Forward_Succeeded;
  vo_resolved : v_resolution v = Resolution_Succeeded → v_forward v = Forward_Succeeded;
  vo_refuted : v_resolution v = Resolution_Rejected →
    v_forward v = Forward_Rejected ∨
    v_forward v = Forward_Succeeded ∧ v_compensation v = Comp_None
}.

(** [in_cases] splits membership in the explicit tables of the rules. *)
Ltac in_cases :=
  repeat match goal with
  | H : _ ∈ _ :: _ |- _ => apply elem_of_cons in H as [H|H]; [simplify_eq|]
  | H : _ ∈ [] |- _ => by apply elem_of_nil in H
  end.

(** The rules preserve them. *)
Lemma gate_rule_ok phase rec before after handled answer :
  gate_rule phase rec before after handled answer →
  (∀ v, before = Some v → verdicts_ok v) → verdicts_ok after.
Proof.
  intros Hr Hb. destruct Hr; try (exact (Hb _ eq_refl));
    try (specialize (Hb _ eq_refl); destruct Hb as [Hf Hfe Hte Hpe Hco Hun Hre Hrf]; simpl in *);
    repeat match goal with
    | H : reported _ _ |- _ => inversion H; clear H; subst
    | H : undone _ _ |- _ => inversion H; clear H; subst
    | H : cancelled _ _ _ _ |- _ => inversion H; clear H; subst
    end; in_cases; try (destruct c); split; simpl; unfold final in *; naive_solver.
Qed.

(** ** The store's operations *)

Lemma update_gate_Ok key p f gates n gates' :
  update_gate key p f gates = Ok (n, gates') ↔
  (∃ row, gates !! key = Some row ∧ p row = true ∧ n = 1 ∧ gates' = <[key := f row]> gates) ∨
  ((∀ row, gates !! key = Some row → p row = false) ∧ n = 0 ∧ gates' = gates).
Proof.
  unfold update_gate, st_bind, st_get, st_modify, st_ret. simpl. destruct (gates !! key) as [row|] eqn:E; simpl.
  - destruct (p row) eqn:Hp; simpl; split.
    + intros [= <- <-]. left. eauto.
    + intros [(? & [= <-] & _ & -> & ->)|(Hn & _)]; [done|]. specialize (Hn _ eq_refl). congruence.
    + intros [= <- <-]. right. naive_solver.
    + intros [(? & [= <-] & ? & _)|(_ & -> & ->)]; [congruence|done].
  - split; [intros [= <- <-]; right; naive_solver|naive_solver].
Qed.

Lemma insert_gate_Ok gate row gates b gates' :
  insert_gate gate row gates = Ok (b, gates') →
  b = true ∧ gates' = <[gate_key gate := row]> gates ∨ b = false ∧ gates' = gates.
Proof.
  unfold insert_gate, st_bind, st_get, st_modify, st_ret. simpl. intros H.
  destruct (_ || _) in H; simplify_eq; auto.
Qed.

(** [inv_st] takes a successful transaction on gates apart. *)
Ltac inv_st_step :=
  match goal with
  | H : insert_gate _ _ _ = Ok (_, _) |- _ =>
      apply insert_gate_Ok in H; destruct H as [[-> ->]|[-> ->]]
  | H : update_gate _ _ _ _ = Ok (_, _) |- _ =>
      apply update_gate_Ok in H; let row := fresh "row" in let Hl := fresh "Hl" in
      let Hp := fresh "Hp" in
      destruct H as [[row (Hl & Hp & -> & ->)]|(Hp & -> & ->)]
  | _ => inv_run_step
  | H : (if negb (_ =? 0) then _ else _) _ = Ok (_, _) |- _ => progress cbn in H
  | H : (if _ =? 1 then _ else _) _ = Ok (_, _) |- _ => progress cbn in H
  | _ => inv_check_step
  end.
Ltac inv_st :=
  repeat inv_st_step;
  repeat match goal with
  | H : context [row_key (gk_saga_id ?g) (gk_step ?g)] |- _ =>
      change (row_key (gk_saga_id g) (gk_step g)) with (gate_key g) in H
  | |- context [row_key (gk_saga_id ?g) (gk_step ?g)] =>
      change (row_key (gk_saga_id g) (gk_step g)) with (gate_key g)
  | H : <[?k := _]> _ !! ?k = Some _ |- _ => rewrite lookup_insert_eq in H; injection H as <-
  end.

Section refinement.
Context `{Runtime} {Biz : Type}.
Local Abbreviation PDb := (PDb Biz).

(** The contract columns of a row, and those a command claims. *)
Definition contract (row : GateRow) : string * string * Z * string :=
  (gate_tenant_id row, gate_workflow_name row, gate_definition_version row, gate_definition_digest row).

Definition key_contract (gate : ParticipantGateKey) : string * string * Z * string :=
  (TenantId_as_str (gk_tenant gate), WorkflowName_as_str (gk_workflow gate),
   DefinitionVersion_get (gk_definition_version gate), gk_definition_digest gate).

Lemma verify_gate_contract_Ok row gate x :
  verify_gate_contract row gate = Ok x ↔ x = tt ∧ contract row = key_contract gate.
Proof.
  unfold verify_gate_contract, contract, key_contract. destruct x.
  repeat case_bool_decide; destruct (Z.eqb_spec (gate_definition_version row)
    (DefinitionVersion_get (gk_definition_version gate))); simpl;
    (split; [try discriminate; intros _; split; congruence|intros [_ [=]]; done]).
Qed.

(** The text of the effect a step derives for a phase. *)
Definition effect_text (key : string * string) (version : Z) (phase : StepPhase) : string :=
  uuid_to_string (EffectId_derive uuid_new_v5 (mkSagaId key.1) (mkDefinitionVersion version)
    (mkStepName key.2) phase).

Definition effect_of (gate : ParticipantGateKey) (phase : StepPhase) : Uuid :=
  EffectId_derive uuid_new_v5 (gk_saga_id gate) (gk_definition_version gate) (gk_step gate) phase.

Lemma effect_text_row gate row phase :
  contract row = key_contract gate →
  effect_text (gate_key gate) (gate_definition_version row) phase = uuid_to_string (effect_of gate phase).
Proof. intros [= _ _ -> _]. by destruct gate as [[] [] ? ? [] ?]. Qed.

(** The effects of a committed row are the derived ones, and a recorded cancel
    verdict names its effect. *)
Record effects_ok (key : string * string) (row : GateRow) : Prop := {
  eo_execute : gate_execute_effect_id row = effect_text key (gate_definition_version row) Execute;
  eo_cancel : ∀ e, gate_cancel_effect_id row = Some e →
    e = effect_text key (gate_definition_version row) SagaIdentity.Cancel;
  eo_cancelled : gate_cancel_status row ≠ Cancel_None → is_Some (gate_cancel_effect_id row);
  eo_resolve : ∀ e, gate_resolve_effect_id row = Some e →
    e = effect_text key (gate_definition_version row) Resolve
}.

Definition row_ok (key : string * string) (row : GateRow) : Prop :=
  effects_ok key row ∧ verdicts_ok (verdicts row).

Definition gates_ok (gates : GateTable) : Prop := map_Forall row_ok gates.

(** A transition of one gate: the row named by [gate] moves by a rule and
    keeps the contract of the command. *)
Definition gate_moves (gate : ParticipantGateKey) (phase : StepPhase) (rec : bool)
    (handled : ParticipantHandled) (answer : Answer) (gates gates' : GateTable) : Prop :=
  ∃ row', gates' = <[gate_key gate := row']> gates ∧ contract row' = key_contract gate ∧
    row_ok (gate_key gate) row' ∧
    (∀ row, gates !! gate_key gate = Some row → contract row = key_contract gate) ∧
    gate_rule phase rec (verdicts <$> gates !! gate_key gate) (verdicts row') handled answer.

Lemma gate_created gate phase rec handled answer gates row' :
  gates !! gate_key gate = None → contract row' = key_contract gate →
  effects_ok (gate_key gate) row' →
  gate_rule phase rec None (verdicts row') handled answer →
  gate_moves gate phase rec handled answer gates (<[gate_key gate := row']> gates).
Proof.
  intros Hn Hc He Hr. exists row'. rewrite Hn. split_and!; try done.
  split; [done|]. by eapply gate_rule_ok.
Qed.

Lemma gate_updated gate phase rec handled answer gates row row' :
  gates_ok gates → gates !! gate_key gate = Some row → contract row = key_contract gate →
  contract row' = contract row → effects_ok (gate_key gate) row' →
  gate_rule phase rec (Some (verdicts row)) (verdicts row') handled answer →
  gate_moves gate phase rec handled answer gates (<[gate_key gate := row']> gates).
Proof.
  intros Hg Hs Hc Hc' He Hr. exists row'. rewrite Hs. split_and!; try done; [congruence| |naive_solver].
  split; [done|]. eapply gate_rule_ok; [done|]. intros ? [= <-]. by apply (Hg _ _ Hs).
Qed.

Lemma gate_kept gate phase rec handled answer gates row :
  gates_ok gates → gates !! gate_key gate = Some row → contract row = key_contract gate →
  gate_rule phase rec (Some (verdicts row)) (verdicts row) handled answer →
  gate_moves gate phase rec handled answer gates gates.
Proof.
  intros Hg Hs Hc Hr. rewrite <-(insert_id gates (gate_key gate) row) at 2 by done.
  eapply gate_updated; try done. by apply (Hg _ _ Hs).
Qed.

(** [settle_effects] proves the effects of a row written for [gate]. *)
Ltac settle_effects :=
  match goal with
  | Hc : contract ?row = key_contract ?gate, He : effects_ok (gate_key ?gate) ?row |- _ =>
      let H1 := fresh in let H2 := fresh in
      destruct He; split; simpl in *; try done; intros; simplify_eq;
      rewrite ?(effect_text_row gate row) by done; eauto
  | |- effects_ok (gate_key ?gate) _ =>
      split; simpl; intros; simplify_eq; try done;
      try (symmetry; exact (effect_text_row gate (new_gate gate Forward_Pending Cancel_None Comp_None
             Resolution_None EmptyString) _ eq_refl)); eauto
  end.

(** [open_row Hg E] checks the contract of the row found by [E]. *)
Ltac open_row Hg E :=
  inv_st;
  match goal with H : verify_gate_contract _ _ = _ |- _ =>
    let Hc := fresh "Hc" in apply verify_gate_contract_Ok in H as [_ Hc] end;
  let He := fresh "He" in let Hv := fresh "Hv" in destruct (Hg _ _ E) as [He Hv].

(** ** Execute *)

Lemma execute_runs gate gates gates1 gates2 rec f s :
  admit_execute gate (effect_of gate Execute) gates = Ok (Execute_Admitted, gates1) →
  settle_execute (gk_saga_id gate) (gk_step gate) f gates1 = Ok (tt, gates2) →
  reported f s →
  gate_moves gate Execute rec (Handled_Executed s) (reply s) gates gates2.
Proof.
  unfold admit_execute, settle_execute, select_gate. intros Ha Hs Hf. inv_st.
  destruct (gates !! gate_key gate) as [old|] eqn:E.
  { inv_st. by destruct (gate_forward_status old); inv_st. }
  inv_st. rewrite insert_insert_eq.
  apply gate_created; [done..| |by constructor]. settle_effects.
Qed.

Lemma execute_answered gate gates gates' rec admission :
  gates_ok gates →
  admit_execute gate (effect_of gate Execute) gates = Ok (admission, gates') →
  match admission with
  | Execute_Admitted => True
  | Execute_AlreadyTerminal f => ∀ s, reported f s →
      gate_moves gate Execute rec (Handled_Replayed s) (reply s) gates gates'
  | Execute_Suppressed => gate_moves gate Execute rec Handled_Suppressed None gates gates'
  end.
Proof.
  unfold admit_execute, select_gate. intros Hg Ha. inv_st.
  destruct (gates !! gate_key gate) as [row|] eqn:E; [|by inv_st].
  open_row Hg E.
  destruct (gate_forward_status row) eqn:Ef; inv_st; try done; try (intros s Hs);
    (eapply gate_kept; [done..|]); constructor; simpl; congruence.
Qed.

(** ** Cancel *)

Lemma adjudication_cancelled v :
  verdicts_ok v →
  cancelled (v_forward v) (cancel_status_of (adjudication_of (v_forward v)))
    (cancel_adjudication_result (adjudication_of (v_forward v))).1
    (cancel_adjudication_result (adjudication_of (v_forward v))).2.
Proof.
  intros [Hf _ _ _ _ _ _ _]. unfold final in Hf.
  destruct Hf as [->|[->|[->|[->| ->]]]]; simpl; constructor; unfold final; auto.
Qed.

Lemma rule_cancel_row rec row c a handled :
  gate_cancel_status row = Cancel_None ∨ gate_cancel_status row = c →
  cancelled (gate_forward_status row) c (cancel_adjudication_result a).1 (cancel_adjudication_result a).2 →
  handled = Handled_Executed (cancel_adjudication_result a).1 ∨
  handled = Handled_Replayed (cancel_adjudication_result a).1 →
  gate_rule SagaIdentity.Cancel rec (Some (verdicts row)) (verdicts (set_cancel c row)) handled
    (Some (cancel_adjudication_result a)).
Proof.
  intros H1 H2 H3. rewrite (surjective_pairing (cancel_adjudication_result a)).
  unfold verdicts. simpl. by apply rule_cancel.
Qed.

Lemma recorded_exact v o :
  verdicts_ok v → recorded_adjudication (v_forward v) (v_cancel v) = Ok o →
  match o with
  | Some a => a = adjudication_of (v_forward v) ∧ v_cancel v = cancel_status_of a
  | None => v_cancel v = Cancel_None
  end.
Proof.
  intros [Hf Hfe Hte Hpe _ _ _ _]. destruct (v_cancel v); simpl.
  - by intros [= <-].
  - intros [= <-]. rewrite (proj1 Hfe) by done. done.
  - destruct (v_forward v); simpl; intros; simplify_eq; done.
  - intros [= <-]. rewrite (Hpe eq_refl). done.
Qed.

Lemma gate_cancel_kept gate gates row rec :
  gates_ok gates → gates !! gate_key gate = Some row → contract row = key_contract gate →
  gate_cancel_status row = cancel_status_of (adjudication_of (gate_forward_status row)) →
  let a := adjudication_of (gate_forward_status row) in
  gate_moves gate SagaIdentity.Cancel rec (Handled_Executed (cancel_adjudication_result a).1)
    (Some (cancel_adjudication_result a)) gates gates ∧
  gate_moves gate SagaIdentity.Cancel rec (Handled_Replayed (cancel_adjudication_result a).1)
    (Some (cancel_adjudication_result a)) gates gates.
Proof.
  intros Hg E Hc Hs a. destruct (Hg _ _ E) as [He Hv].
  pose proof (adjudication_cancelled _ Hv) as Hcan. simpl in Hcan.
  assert (verdicts row = verdicts (set_cancel (cancel_status_of a) row)) as Hrow
    by (unfold verdicts; simpl; by rewrite Hs).
  split; (eapply gate_kept; [done..|]); rewrite Hrow at 2; apply rule_cancel_row; auto.
Qed.

Lemma gate_cancel_recorded gate gates row rec :
  gates_ok gates → gates !! gate_key gate = Some row → contract row = key_contract gate →
  gate_cancel_status row = Cancel_None →
  let a := adjudication_of (gate_forward_status row) in
  let gates' := <[gate_key gate :=
    set_cancel_effect (uuid_to_string (effect_of gate SagaIdentity.Cancel))
      (set_cancel (cancel_status_of a) row)]> gates in
  gate_moves gate SagaIdentity.Cancel rec (Handled_Executed (cancel_adjudication_result a).1)
    (Some (cancel_adjudication_result a)) gates gates' ∧
  gate_moves gate SagaIdentity.Cancel rec (Handled_Replayed (cancel_adjudication_result a).1)
    (Some (cancel_adjudication_result a)) gates gates'.
Proof.
  intros Hg E Hc Hs a gates'. destruct (Hg _ _ E) as [He Hv].
  pose proof (adjudication_cancelled _ Hv) as Hcan. simpl in Hcan.
  split; (eapply gate_updated; [done..| |]);
    [settle_effects|apply (rule_cancel_row _ row); auto|settle_effects|
     apply (rule_cancel_row _ row); auto].
Qed.

Lemma cancel_local_adjudicates gate gates gates' rec a :
  gates_ok gates →
  adjudicate_cancel gate (effect_of gate Execute) (effect_of gate SagaIdentity.Cancel) gates
    = Ok (a, gates') →
  gate_moves gate SagaIdentity.Cancel rec (Handled_Executed (cancel_adjudication_result a).1)
    (Some (cancel_adjudication_result a)) gates gates'.
Proof.
  unfold adjudicate_cancel, select_gate. intros Hg Ha. inv_st.
  destruct (gates !! gate_key gate) as [row|] eqn:E.
  2: { inv_st. apply gate_created; [done..| |by constructor]. settle_effects. }
  open_row Hg E. destruct (negb _) eqn:Hn in Ha.
  - inv_st. apply andb_true_iff in Heqb0 as [Hs%bool_decide_eq_true _]. by apply gate_cancel_kept.
  - inv_st. rewrite E in Hl. injection Hl as <-. apply bool_decide_eq_true in Hp.
    by apply gate_cancel_recorded.
Qed.

Lemma cancel_external_replays gate gates gates' rec a :
  gates_ok gates →
  admit_external_cancel gate (effect_of gate Execute) (effect_of gate SagaIdentity.Cancel) gates
    = Ok (AlreadyAdjudicated a, gates') →
  gate_moves gate SagaIdentity.Cancel rec (Handled_Replayed (cancel_adjudication_result a).1)
    (Some (cancel_adjudication_result a)) gates gates'.
Proof.
  unfold admit_external_cancel, persist_existing_cancel_adjudication, select_gate. intros Hg Ha.
  inv_st. destruct (gates !! gate_key gate) as [row|] eqn:E; [|by inv_st].
  open_row Hg E.
  match goal with H : recorded_adjudication _ _ = Ok _ |- _ =>
    apply (recorded_exact (verdicts row)) in H as Hrec; [|done] end.
  destruct x0 as [a'|]; simpl in Hrec.
  - inv_st. destruct Hrec as [-> Hs]. by apply gate_cancel_kept.
  - destruct (gate_forward_status row) eqn:Ef; inv_st; try done;
      rewrite E in Hl; injection Hl as <-;
      pose proof (gate_cancel_recorded gate gates row rec Hg E Hc Hrec) as [_ Hm];
      rewrite Ef in Hm; exact Hm.
Qed.

Lemma cancel_external_runs gate gates gates1 gates2 rec f c s t :
  gates_ok gates →
  admit_external_cancel gate (effect_of gate Execute) (effect_of gate SagaIdentity.Cancel) gates
    = Ok (ExternalCancel_Admitted, gates1) →
  settle_external_cancel (gk_saga_id gate) (gk_step gate) f c gates1 = Ok (tt, gates2) →
  cancelled f c s t →
  gate_moves gate SagaIdentity.Cancel rec (Handled_Executed s) (Some (s, t)) gates gates2.
Proof.
  unfold admit_external_cancel, settle_external_cancel, persist_existing_cancel_adjudication,
    select_gate. intros Hg Ha Hs Hc. inv_st.
  destruct (gates !! gate_key gate) as [old|] eqn:E.
  2: { inv_st. rewrite insert_insert_eq. apply gate_created; [done..| |].
       - settle_effects.
       - by apply rule_cancel_first. }
  open_row Hg E.
  match goal with H : recorded_adjudication _ _ = Ok _ |- _ =>
    apply (recorded_exact (verdicts old)) in H as Hrec; [|done] end.
  destruct x0 as [a|]; [by inv_st|]. simpl in Hrec.
  destruct Hv as [Hf _ _ _ _ _ _ _]. unfold final in Hf. simpl in Hf.
  destruct (gate_forward_status old) eqn:Ef; inv_st; try done; try naive_solver.
  2: { specialize (Hp0 _ E). by rewrite bool_decide_eq_false in Hp0. }
  rewrite E in Hl0. injection Hl0 as <-.
  rewrite insert_insert_eq. eapply gate_updated; [done..| |].
  - settle_effects.
  - unfold verdicts. simpl. rewrite Ef, Hrec. by apply rule_cancel_unknown.
Qed.

(** ** Compensate *)

Lemma compensation_answered gate gates gates' recovery admission :
  gates_ok gates →
  admit_compensation gate (effect_of gate Compensate) recovery gates = Ok (admission, gates') →
  match admission with
  | Compensation_Admitted => True
  | Compensation_AlreadySettled k => ∀ s, undone k s →
      gate_moves gate Compensate (negb (is_none recovery)) (Handled_Replayed s) (reply s) gates gates'
  | MissingForwardEffect =>
      gate_moves gate Compensate (negb (is_none recovery)) Handled_ContractViolation
        (reply Attempt_Halted) gates gates'
  end.
Proof.
  unfold admit_compensation, select_gate. intros Hg Ha. inv_st.
  destruct (gates !! gate_key gate) as [row|] eqn:E.
  2: { inv_st. apply gate_created; [done..| |by constructor]. settle_effects. }
  open_row Hg E.
  destruct (_ || _) eqn:Hk in Ha.
  { inv_st. intros s Hs. eapply gate_kept; [done..|]. constructor; [done|]. simpl.
    intros Hh. rewrite Hh in Hk. done. }
  destruct (bool_decide (_ = Comp_Halted) && _) eqn:Hh in Ha.
  { inv_st. intros s Hs. eapply gate_kept; [done..|]. constructor; [done|]. simpl. intros _.
    apply andb_true_iff in Hh as [_ [Hr|Hr]%orb_true_iff];
      [left; by destruct recovery|right; by apply negb_true_iff, bool_decide_eq_false in Hr]. }
  destruct (bool_decide (_ = Comp_Pending)) eqn:Hpe in Ha; [by inv_st|].
  destruct (negb _) eqn:Hf in Ha; [|by inv_st].
  inv_st; [|by specialize (Hp _ E)]. rewrite E in Hl. injection Hl as <-.
  assert (gate_compensation_status row = Comp_None) as Hn.
  { destruct (gate_compensation_status row); try done. simpl in Hh. rewrite Hf in Hh.
    by rewrite orb_true_r in Hh. }
  apply negb_true_iff, bool_decide_eq_false in Hf.
  eapply gate_updated; [done..|settle_effects|].
  unfold verdicts. simpl. rewrite Hn. by apply rule_compensate_unsuccessful.
Qed.

Lemma compensation_runs gate gates gates1 gates2 recovery k s :
  gates_ok gates →
  admit_compensation gate (effect_of gate Compensate) recovery gates
    = Ok (Compensation_Admitted, gates1) →
  settle_compensation (gk_saga_id gate) (gk_step gate) k gates1 = Ok (tt, gates2) →
  undone k s →
  gate_moves gate Compensate (negb (is_none recovery)) (Handled_Executed s) (reply s) gates gates2.
Proof.
  unfold admit_compensation, settle_compensation, select_gate. intros Hg Ha Hs Hk. inv_st.
  destruct (gates !! gate_key gate) as [old|] eqn:E; [|by inv_st].
  open_row Hg E.
  destruct (_ || _) eqn:Hd in Ha; [by inv_st|].
  destruct (bool_decide (_ = Comp_Halted) && _) eqn:Hh in Ha; [by inv_st|].
  destruct (bool_decide (_ = Comp_Pending)) eqn:Hpe in Ha; [by inv_st|].
  destruct (negb _) eqn:Hf in Ha; [by inv_st|].
  apply negb_false_iff, bool_decide_eq_true in Hf.
  inv_st; [|by specialize (Hp0 _ E)]. rewrite E in Hl0. injection Hl0 as <-. rewrite insert_insert_eq.
  eapply gate_updated; [done..|settle_effects|].
  unfold verdicts. simpl. rewrite Hf. apply rule_compensate; [|done].
  destruct (gate_compensation_status old), recovery; simpl in *; try done; auto.
Qed.

(** ** Resolve *)

Lemma resolution_answered gate gates gates' recovery admission :
  gates_ok gates →
  admit_resolution gate (effect_of gate Resolve) recovery gates = Ok (admission, gates') →
  match admission with
  | Resolution_Admitted _ => True
  | Resolution_AlreadySettled _ r => ∀ s, resolution_to_attempt_status r = Ok s →
      gate_moves gate Resolve (negb (is_none recovery)) (Handled_Replayed s) (reply s) gates gates'
  | MissingUnknownEffect =>
      gate_moves gate Resolve (negb (is_none recovery)) Handled_ContractViolation
        (reply Attempt_Halted) gates gates'
  end.
Proof.
  unfold admit_resolution, write_resolution, select_gate. intros Hg Ha. inv_st.
  destruct (gates !! gate_key gate) as [row|] eqn:E.
  2: { inv_st. apply gate_created; [done..| |by constructor]. settle_effects. }
  open_row Hg E.
  destruct (resolution_closed _ _) eqn:Hr in Ha.
  { inv_st. intros s Hs. eapply gate_kept; [done..|]. constructor; simpl.
    - destruct (gate_resolution_status row); simpl in *; simplify_eq; set_solver.
    - intros Hh. rewrite Hh in Hr. by destruct recovery. }
  destruct (known_forward _ _ _) as [r|] eqn:Hk in Ha.
  { inv_st; [|by specialize (Hp _ E)]. rewrite E in Hl. injection Hl as <-. intros s Hs.
    unfold known_forward in Hk. destruct (_ && _) eqn:Hn in Hk; [|done].
    apply andb_true_iff in Hn as [Hn1%bool_decide_eq_true Hn2%bool_decide_eq_true].
    eapply gate_updated; [done..|settle_effects|].
    unfold verdicts. simpl. rewrite Hn1, Hn2. apply rule_resolve_known.
    destruct (gate_forward_status row); simplify_eq; simpl in Hs; simplify_eq; set_solver. }
  destruct (unknown_target _ _) as [target|] eqn:Ht in Ha; [inv_st; done|].
  inv_st; [|by specialize (Hp _ E)]. rewrite E in Hl. injection Hl as <-.
  eapply gate_updated; [done..|settle_effects|].
  unfold unknown_target, known_forward in *. unfold verdicts. simpl.
  apply rule_resolve_settled; repeat case_bool_decide; simpl in *;
    destruct (gate_resolution_status row), recovery; simpl in *; try done;
    destruct (gate_forward_status row); naive_solver.
Qed.

Lemma resolution_runs gate gates gates1 gates2 recovery target r s :
  gates_ok gates →
  admit_resolution gate (effect_of gate Resolve) recovery gates
    = Ok (Resolution_Admitted target, gates1) →
  settle_resolution (gk_saga_id gate) (gk_step gate) target r gates1 = Ok (tt, gates2) →
  (r, s) ∈ [(Resolution_Succeeded, Attempt_Succeeded); (Resolution_Rejected, Attempt_Rejected);
            (Resolution_Pending, Attempt_Unknown); (Resolution_Halted, Attempt_Halted)] →
  gate_moves gate Resolve (negb (is_none recovery)) (Handled_Executed s) (reply s) gates gates2.
Proof.
  unfold admit_resolution, settle_resolution, write_resolution, select_gate. intros Hg Ha Hs Hrs.
  inv_st. destruct (gates !! gate_key gate) as [old|] eqn:E; [|by inv_st].
  open_row Hg E.
  destruct (resolution_closed _ _) eqn:Hr in Ha; [by inv_st|].
  destruct (known_forward _ _ _) as [?|] eqn:Hk in Ha; [by inv_st|].
  destruct (unknown_target _ _) as [tg|] eqn:Ht in Ha; [|by inv_st].
  inv_st; [|by specialize (Hp _ E)]. rewrite E in Hl. injection Hl as <-.
  assert (gate_resolution_status old ≠ Resolution_Succeeded ∧
          gate_resolution_status old ≠ Resolution_Rejected ∧
          (gate_resolution_status old = Resolution_Halted → negb (is_none recovery) = true))
    as (Hr1 & Hr2 & Hr3).
  { destruct (gate_resolution_status old), recovery; simpl in Hr; try discriminate Hr;
      (split; [done|split; [done|]]); try discriminate 1; done. }
  unfold unknown_target in Ht. destruct tg.
  - repeat case_bool_decide; simplify_eq. inv_st; [|done].
    in_cases; inv_st; rewrite ?insert_insert_eq;
      (eapply gate_updated; [done..|settle_effects|]); simpl in *;
      rewrite ?bool_decide_eq_true in *;
      try (match goal with Hx : _ → is_Some _ |- is_Some _ => apply Hx; congruence end);
      match goal with Hf : gate_forward_status old = _ |- _ => unfold verdicts; simpl; rewrite Hf end;
      apply rule_resolve_forward; auto; try set_solver; simpl;
      try (match goal with Hx : gate_cancel_status old = _ |- _ => by rewrite Hx end);
      destruct (gate_cancel_status old) eqn:?; try done;
      match goal with Hx : ∀ row, _ |- _ => specialize (Hx _ (lookup_insert_eq _ _ _)) end;
      simpl in *; by rewrite bool_decide_eq_false in *.
  - repeat case_bool_decide; simplify_eq. inv_st; [|done].
    in_cases; inv_st; rewrite ?insert_insert_eq; (eapply gate_updated; [done..|settle_effects|]);
      unfold verdicts; simpl in *;
      match goal with Hf : gate_compensation_status old = _ |- _ => rewrite Hf end;
      apply rule_resolve_compensation; auto; set_solver.
Qed.
End refinement.
