(* ===== verification/SagaParticipantRefinement.v ===== *)
(** * Participants refine the gate protocol

    The handlers of [SagaParticipant] against the rules of
    [SagaParticipantRules]: a command that commits claims its inbox key, moves
    the gate of its own step by one rule, answers with what that rule says, and
    touches the business tables only through the handler it ran. *)

From Stdlib Require Import ZArith.
From S2P Require Import Prelude Bytes SagaIdentity SagaState SagaDefinition SagaEnvelope.
From S2P Require Import SagaStore SagaStart SagaGate SagaParticipant SagaParticipantRules.
From stdpp Require Import prelude strings gmap.

Local Open Scope Z_scope.
Local Open Scope rust_scope.

Section refinement.
Context `{Runtime} {Biz : Type} (steps : list SagaStepDescriptor).
Local Abbreviation PDb := (PDb Biz).

(** The event a command was answered with; an event with the same identity may
    already be in the outbox. *)
Definition answered (envelope : SagaCommandEnvelope) (answer : Answer) (db db' : PDb) : Prop :=
  match answer with
  | None => pdb_outbox db' = pdb_outbox db
  | Some (status, terminal) =>
      ∃ reason, let result := result_of envelope status terminal reason in
        is_ok (SagaResultEnvelope_verified result) = true ∧
        (pdb_outbox db' = pdb_outbox db ++ [result] ∨
         pdb_outbox db' = pdb_outbox db ∧
         ∃ r, r ∈ pdb_outbox db ∧ res_event_id r = res_event_id result)
  end.

Definition inbox_key (self : ParticipantRuntime) (envelope : SagaCommandEnvelope) : string * string :=
  (pr_consumer self, cmd_command_id envelope).

Record committed (self : ParticipantRuntime) (envelope : SagaCommandEnvelope)
    (producer : ServiceIdentity) (identity : VerifiedIdentity) (answer : Answer)
    (handled : ParticipantHandled) (db db' : PDb) : Prop := {
  cm_identity : verified_command_identity steps self envelope producer = Ok identity;
  cm_claimed : inbox_key self envelope ∉ pdb_inbox db;
  cm_inbox : pdb_inbox db' = pdb_inbox db ++ [inbox_key self envelope];
  cm_gates : gate_moves (gate_of identity envelope) (vid_phase identity)
    (negb (is_none (cmd_recovery_operation_id envelope))) handled answer
    (pdb_gates db) (pdb_gates db');
  cm_outbox : answered envelope answer db db';
  cm_business : (∀ s, handled ≠ Handled_Executed s) → pdb_business db' = pdb_business db
}.

(** ** The pieces of a handler *)

Lemma on_gates_Ok {A} (c : Gx A) (db : PDb) x db' :
  on_gates c db = Ok (x, db') ↔ ∃ gates, c (pdb_gates db) = Ok (x, gates) ∧ db' = set_gates gates db.
Proof. unfold on_gates. destruct (c (pdb_gates db)) as [[]|]; naive_solver. Qed.

Lemma call_handler_Ok {A} what (h : Biz → result (A * Biz) SagaExecutionError) (db : PDb) x db' :
  call_handler what h db = Ok (x, db') ↔
  ∃ business, h (pdb_business db) = Ok (x, business) ∧ db' = set_business business db.
Proof. unfold call_handler. destruct (h (pdb_business db)) as [[]|[]]; naive_solver. Qed.

Lemma emit_result_Ok admits envelope s t reason (db : PDb) x db' :
  emit_result admits envelope s t reason db = Ok (x, db') →
  answered envelope (Some (s, t)) db db' ∧ pdb_gates db' = pdb_gates db ∧
  pdb_inbox db' = pdb_inbox db ∧ pdb_business db' = pdb_business db.
Proof.
  unfold emit_result, append_result. intros He. inv_st.
  match goal with Hv : map_err _ (SagaResultEnvelope_verified _) = Ok _ |- _ =>
    apply map_err_Ok in Hv end.
  destruct (existsb _ _) eqn:Hx in He.
  - inv_st. split; [|done]. exists reason. simpl.
    match goal with Hv : SagaResultEnvelope_verified _ = Ok _ |- _ => rewrite Hv end. split; [done|].
    right. split; [done|]. apply existsb_elem_of in Hx as (r & Hin & Hr%bool_decide_eq_true).
    by exists r.
  - inv_st. split; [|done]. exists reason. simpl.
    match goal with Hv : SagaResultEnvelope_verified _ = Ok _ |- _ => rewrite Hv end. auto.
Qed.

Lemma with_claimed_Ok self envelope producer phase body (db : PDb) handled db' :
  with_claimed steps self envelope producer phase body db = Ok (handled, db') →
  (handled = Handled_Duplicate ∧ db' = db ∧ inbox_key self envelope ∈ pdb_inbox db) ∨
  ∃ identity, verified_command_identity steps self envelope producer = Ok identity ∧
    vid_phase identity = phase ∧ (inbox_key self envelope ∉ pdb_inbox db) ∧
    body identity (set_participant_inbox (pdb_inbox db ++ [inbox_key self envelope]) db)
      = Ok (handled, db').
Proof.
  unfold with_claimed, claim. intros Hw. inv_st.
  destruct (bool_decide (_ ∈ _)) eqn:Hd in Hrun.
  - inv_st. apply bool_decide_eq_true in Hd. auto.
  - inv_st. apply bool_decide_eq_false in Hd. right. exists x.
    match goal with Hb : bool_decide (vid_phase _ = _) = true |- _ => apply bool_decide_eq_true in Hb end.
    auto.
Qed.

Lemma verified_identity self envelope producer identity :
  verified_command_identity steps self envelope producer = Ok identity →
  identity_ok identity ∧ verify_command_identity envelope = Ok identity.
Proof.
  unfold verified_command_identity, SagaCommandEnvelope_verified. intros Hv. inv_result.
  match goal with Hx : map_err _ _ = Ok _ |- _ => apply map_err_Ok in Hx end. inv_result.
  assert (x = identity) as -> by
    (destruct (cmd_recovery_operation_id envelope); [destruct (_ || _) in H3|]; by simplify_eq).
  split; [|done]. unfold verify_command_identity in *.
  by match goal with Hx : verify_identity _ _ _ _ _ _ _ _ _ _ = Ok _ |- _ =>
    apply verify_identity_Ok in Hx as [Hx _] end.
Qed.

Lemma effect_of_identity identity envelope :
  identity_ok identity →
  vid_effect identity = effect_of (gate_of identity envelope) (vid_phase identity).
Proof. intros Hi. apply Hi. Qed.

(** [gate_of] carries the identity of the command, so the operations' lemmas
    apply to it. *)
Ltac at_gate identity envelope :=
  change (vid_saga_id identity) with (gk_saga_id (gate_of identity envelope)) in *;
  change (vid_step identity) with (gk_step (gate_of identity envelope)) in *.

Ltac run_handler :=
  repeat first
    [ match goal with
      | H : (let _ := _ in _) _ = Ok (_, _) |- _ => cbv zeta in H
      | x : () |- _ => destruct x
      | H : on_gates _ _ = Ok (_, _) |- _ => apply on_gates_Ok in H as (? & ? & ->)
      | H : call_handler _ _ _ = Ok (_, _) |- _ => apply call_handler_Ok in H as (? & ? & ->)
      end
    | inv_st_step ].

Lemma forward_reported f s : forward_to_attempt_status f = Ok s → reported f s.
Proof. destruct f; simpl; intros; simplify_eq; constructor. Qed.

Lemma execute_verdict_reported {T} allow (o : SagaOutcome T) :
  reported (execute_verdict allow o).1.1 (execute_verdict allow o).1.2.
Proof. destruct o, allow; simpl; constructor. Qed.

(** A transaction whose last step is the result event. *)
Lemma answer_commits admits self envelope producer identity handled s t reason (db dbm : PDb) x db' :
  verified_command_identity steps self envelope producer = Ok identity →
  inbox_key self envelope ∉ pdb_inbox db →
  gate_moves (gate_of identity envelope) (vid_phase identity)
    (negb (is_none (cmd_recovery_operation_id envelope))) handled (Some (s, t))
    (pdb_gates db) (pdb_gates dbm) →
  pdb_inbox dbm = pdb_inbox db ++ [inbox_key self envelope] →
  pdb_outbox dbm = pdb_outbox db →
  ((∀ s, handled ≠ Handled_Executed s) → pdb_business dbm = pdb_business db) →
  emit_result admits envelope s t reason dbm = Ok (x, db') →
  ∃ answer, committed self envelope producer identity answer handled db db'.
Proof.
  intros Hid Hfresh Hm Hin Hout Hb He. exists (Some (s, t)).
  apply emit_result_Ok in He as (Ha & Hg' & Hin' & Hb'). split; try done.
  - congruence.
  - by rewrite Hg'.
  - unfold answered in *. by rewrite Hout in Ha.
  - intros Hn. rewrite Hb'. by apply Hb.
Qed.

Ltac by_commit :=
  match goal with He : emit_result _ _ _ _ _ _ = Ok _ |- _ => eapply answer_commits; [..|exact He] end;
  [done|done| |done|done|]; simpl.

(** The command is a duplicate, or it commits. *)
Definition refines (self : ParticipantRuntime) (envelope : SagaCommandEnvelope)
    (producer : ServiceIdentity) (c : PTx ParticipantHandled) : Prop :=
  ∀ (db : PDb) handled db', gates_ok (pdb_gates db) → c db = Ok (handled, db') →
    (handled = Handled_Duplicate ∧ db' = db ∧ inbox_key self envelope ∈ pdb_inbox db) ∨
    ∃ identity answer, committed self envelope producer identity answer handled db db'.

Lemma execute_refines self envelope producer admits service allow :
  refines self envelope producer
    (handle_authenticated_execute steps self envelope producer admits service allow).
Proof.
  intros db handled db' Hg Hh.
  apply with_claimed_Ok in Hh as [?|(identity & Hid & Hph & Hfresh & Hh)]; [by left|].
  right. exists identity. destruct (verified_identity _ _ _ _ Hid) as [Hiok _].
  rewrite (effect_of_identity _ envelope Hiok), Hph in Hh. run_handler.
  match goal with Ha : admit_execute _ _ _ = _ |- _ =>
    pose proof (execute_answered _ _ _ (negb (is_none (cmd_recovery_operation_id envelope))) _ Hg Ha)
      as Hans end.
  destruct x; run_handler.
  - by_commit; [rewrite Hph|naive_solver].
    eapply execute_runs; [done..|apply execute_verdict_reported].
  - by_commit; [rewrite Hph|done].
    by apply Hans, forward_reported.
  - exists None. split; try done. by rewrite Hph.
Qed.

Lemma cancel_local_refines self envelope producer admits :
  refines self envelope producer
    (handle_authenticated_cancel_local steps self envelope producer admits).
Proof.
  intros db handled db' Hg Hh.
  apply with_claimed_Ok in Hh as [?|(identity & Hid & Hph & Hfresh & Hh)]; [by left|].
  right. exists identity. destruct (verified_identity _ _ _ _ Hid) as [Hiok _].
  rewrite (effect_of_identity _ envelope Hiok), Hph in Hh. run_handler.
  by_commit; [rewrite Hph|done].
  rewrite <-surjective_pairing. by apply cancel_local_adjudicates.
Qed.

Lemma external_cancelled o :
  cancelled (ecr_forward (external_cancel_result o)) (ecr_cancel (external_cancel_result o))
    (ecr_status (external_cancel_result o)) (ecr_terminal (external_cancel_result o)).
Proof. destruct o as [|[]|]; simpl; constructor; unfold final; auto. Qed.

Lemma cancel_external_refines self envelope producer admits service :
  refines self envelope producer
    (handle_authenticated_cancel_external steps self envelope producer admits service).
Proof.
  intros db handled db' Hg Hh.
  apply with_claimed_Ok in Hh as [?|(identity & Hid & Hph & Hfresh & Hh)]; [by left|].
  right. exists identity. destruct (verified_identity _ _ _ _ Hid) as [Hiok _].
  rewrite (effect_of_identity _ envelope Hiok), Hph in Hh. run_handler. destruct x; run_handler.
  - by_commit; [rewrite Hph|naive_solver].
    eapply cancel_external_runs; [done..|apply external_cancelled].
  - by_commit; [rewrite Hph|done].
    rewrite <-surjective_pairing. by apply cancel_external_replays.
Qed.

Lemma compensation_undone k s : compensation_to_attempt_status k = Ok s → undone k s.
Proof. destruct k; simpl; intros; simplify_eq; constructor. Qed.

Lemma compensate_refines self envelope producer admits service :
  refines self envelope producer
    (handle_authenticated_compensate steps self envelope producer admits service).
Proof.
  intros db handled db' Hg Hh.
  apply with_claimed_Ok in Hh as [?|(identity & Hid & Hph & Hfresh & Hh)]; [by left|].
  right. exists identity. destruct (verified_identity _ _ _ _ Hid) as [Hiok _].
  rewrite (effect_of_identity _ envelope Hiok), Hph in Hh. run_handler.
  match goal with Ha : admit_compensation _ _ _ _ = _ |- _ =>
    pose proof (compensation_answered _ _ _ _ _ Hg Ha) as Hans end.
  destruct x; run_handler.
  - by_commit; [rewrite Hph|naive_solver].
    eapply compensation_runs; [done..|]. destruct select CompensationOutcome; constructor.
  - by_commit; [rewrite Hph|done].
    by apply Hans, compensation_undone.
  - by_commit; [by rewrite Hph|done].
Qed.

Lemma resolve_refines self envelope producer admits service :
  refines self envelope producer
    (handle_authenticated_resolve steps self envelope producer admits service).
Proof.
  intros db handled db' Hg Hh.
  apply with_claimed_Ok in Hh as [?|(identity & Hid & Hph & Hfresh & Hh)]; [by left|].
  right. exists identity. destruct (verified_identity _ _ _ _ Hid) as [Hiok _].
  rewrite (effect_of_identity _ envelope Hiok), Hph in Hh. run_handler.
  match goal with Ha : admit_resolution _ _ _ _ = _ |- _ =>
    pose proof (resolution_answered _ _ _ _ _ Hg Ha) as Hans end.
  destruct x; run_handler.
  - by_commit; [rewrite Hph|naive_solver].
    eapply resolution_runs; [done..|]. destruct select (SagaOutcome _); simpl; set_solver.
  - by_commit; [rewrite Hph|done]. by apply Hans.
  - by_commit; [by rewrite Hph|done].
Qed.
End refinement.
