(* ===== verification/SagaParticipantSafety.v ===== *)
(** * What a participant guarantees

    Histories of a participant database: any number of runtimes handle
    commands in any order, with redeliveries and failures, for any business
    service.  Over such a history a step executes at most once, its answers
    never contradict each other, a compensation only undoes a success, and a
    command already committed is absorbed. *)

From Stdlib Require Import ZArith.
From S2P Require Import Prelude Bytes SagaIdentity SagaState SagaDefinition SagaEnvelope.
From S2P Require Import SagaStore SagaStart SagaGate SagaParticipant SagaParticipantRules.
From S2P Require Import SagaParticipantRefinement.
From stdpp Require Import prelude strings gmap.

Local Open Scope Z_scope.
Local Open Scope rust_scope.

Section safety.
Context `{Runtime} {Biz : Type} (steps : list SagaStepDescriptor).
Local Abbreviation PDb := (PDb Biz).

(** A database no command has reached yet. *)
Definition fresh_participant (business : Biz) : PDb := mkPDb ∅ [] [] business.

(** One delivery of a command to a runtime that serves its step; [dl_admits]
    is the verdict of the tenant's outbox quota at that moment. *)
Record Delivery := mkDelivery {
  dl_runtime : ParticipantRuntime;
  dl_service : SagaService (Biz:=Biz);
  dl_envelope : SagaCommandEnvelope;
  dl_producer : ServiceIdentity;
  dl_admits : bool
}.

Definition deliver (d : Delivery) : PTx ParticipantHandled :=
  saga_handle_command steps (dl_runtime d) (dl_service d) (dl_envelope d) (dl_producer d) (dl_admits d).

Abbreviation Handling := (Delivery * ParticipantHandled)%type.

(** [participant_history business log db]: from the fresh database, the
    deliveries of [log] committed, in this order, and left [db]; deliveries
    that failed, which roll back, may lie in between. *)
Inductive participant_history (business : Biz) : list Handling → PDb → Prop :=
| history_fresh : participant_history business [] (fresh_participant business)
| history_committed log db d handled db' :
    participant_history business log db → deliver d db = Ok (handled, db') →
    participant_history business (log ++ [(d, handled)]) db'
| history_failed log db d e :
    participant_history business log db → deliver d db = Err e →
    participant_history business log db.

(** ** One command *)

Lemma deliver_refines d :
  refines steps (dl_runtime d) (dl_envelope d) (dl_producer d) (deliver d).
Proof.
  intros db handled db' Hg Hh. destruct d as [self service envelope producer admits].
  unfold deliver, saga_handle_command in Hh. simpl in Hh. inv_st.
  destruct (StepPhase_parse _) as [[]|] in Hh; [| | | |by inv_st].
  - by eapply execute_refines.
  - destruct (srv_capability service); [|by inv_st|];
      [by eapply cancel_local_refines|by eapply cancel_external_refines].
  - destruct (desc_compensation _); [|by inv_st]. by eapply compensate_refines.
  - destruct (srv_capability service); [by inv_st|..]; by eapply resolve_refines.
Qed.

Lemma gates_ok_moves gate phase rec handled answer gates gates' :
  gates_ok gates → gate_moves gate phase rec handled answer gates gates' → gates_ok gates'.
Proof. intros Hg (row & -> & _ & Hrow & _). by apply map_Forall_insert_2. Qed.

Lemma history_gates_ok business log db :
  participant_history business log db → gates_ok (pdb_gates db).
Proof.
  induction 1 as [|log db d handled db' _ IH Hh|]; [apply map_Forall_empty| |done].
  destruct (deliver_refines _ _ _ _ IH Hh) as [(_ & -> & _)|(id & answer & Hc)]; [done|].
  eapply gates_ok_moves; [done|]. by destruct Hc.
Qed.

(** A committed delivery is a duplicate that changed nothing, or a rule. *)
Lemma history_step business log db d handled db' :
  participant_history business log db → deliver d db = Ok (handled, db') →
  (handled = Handled_Duplicate ∧ db' = db) ∨
  ∃ identity answer,
    committed steps (dl_runtime d) (dl_envelope d) (dl_producer d) identity answer handled db db'.
Proof.
  intros Hh Hd. destruct (deliver_refines _ _ _ _ (history_gates_ok _ _ _ Hh) Hd) as [(? & ? & _)|?];
    auto.
Qed.

(** The key of the gate a command addresses. *)
Definition command_key (envelope : SagaCommandEnvelope) : string * string :=
  (cmd_saga_id envelope, cmd_step envelope).

Lemma committed_key self envelope producer identity answer handled (db db' : PDb) :
  committed steps self envelope producer identity answer handled db db' →
  gate_key (gate_of identity envelope) = command_key envelope ∧
  cmd_phase envelope = StepPhase_as_str (vid_phase identity).
Proof.
  intros Hc. destruct (verified_identity _ _ _ _ _ (cm_identity _ _ _ _ _ _ _ _ _ Hc)) as [_ Hv].
  unfold verify_command_identity in Hv.
  apply verify_identity_Ok in Hv as (_ & E1 & _ & _ & _ & _ & E2 & E3 & _).
  unfold command_key. by rewrite E1, E2, E3.
Qed.

(** A committed command, seen at a gate: the gate of another step is as it
    was, the gate of its own step moved by a rule. *)
Lemma committed_gate self envelope producer identity answer handled (db db' : PDb) key :
  committed steps self envelope producer identity answer handled db db' →
  if bool_decide (key = command_key envelope) then
    ∃ row', pdb_gates db' !! key = Some row' ∧
      gate_rule (vid_phase identity) (negb (is_none (cmd_recovery_operation_id envelope)))
        (verdicts <$> pdb_gates db !! key) (verdicts row') handled answer
  else pdb_gates db' !! key = pdb_gates db !! key.
Proof.
  intros Hc. destruct (committed_key _ _ _ _ _ _ _ _ Hc) as [Hk _].
  destruct (cm_gates _ _ _ _ _ _ _ _ _ Hc) as (row' & Hg' & _ & _ & _ & Hr).
  rewrite Hg', Hk in *. case_bool_decide as E.
  - subst key. exists row'. by rewrite lookup_insert_eq.
  - by rewrite lookup_insert_ne.
Qed.

(** ** What the rules keep *)

(** A verdict that can only be reported once it is settled for good. *)
Definition settled (f : StepForwardStatus) : Prop := f = Forward_Cancelled ∨ final f.

Lemma gate_rule_settled phase rec v v' handled answer :
  gate_rule phase rec (Some v) v' handled answer → settled (v_forward v) →
  v_forward v' = v_forward v.
Proof.
  intros Hr Hs. unfold settled, final in Hs.
  inversion Hr; subst; simpl in *; try done; naive_solver.
Qed.

Lemma gate_rule_undone phase rec v v' handled answer :
  gate_rule phase rec (Some v) v' handled answer → v_compensation v = Comp_Succeeded →
  v_compensation v' = Comp_Succeeded.
Proof. intros Hr Hs. inversion Hr; subst; simpl in *; try done; naive_solver. Qed.

(** ** Executions *)

(** The log entry is a command of [phase] for the step whose business handler
    ran, or whose cancel verdict was reached. *)
Definition decides (phase : StepPhase) (key : string * string) (e : Handling) : bool :=
  bool_decide (cmd_phase (dl_envelope e.1) = StepPhase_as_str phase)
  && bool_decide (command_key (dl_envelope e.1) = key)
  && match e.2 with Handled_Executed _ => true | _ => false end.

Lemma decides_committed phase key d handled self producer identity answer (db db' : PDb) :
  decides phase key (d, handled) = true →
  committed steps self (dl_envelope d) producer identity answer handled db db' →
  key = command_key (dl_envelope d) ∧ vid_phase identity = phase.
Proof.
  unfold decides. simpl. intros Hd Hc. apply andb_true_iff in Hd as [Hd _].
  apply andb_true_iff in Hd as [Hp%bool_decide_eq_true Hk%bool_decide_eq_true].
  destruct (committed_key _ _ _ _ _ _ _ _ Hc) as [_ Hph]. split; [done|].
  apply StepPhase_as_str_inj. congruence.
Qed.

(** A gate, once there, stays. *)
Lemma gate_persists business log db d handled db' key :
  participant_history business log db → deliver d db = Ok (handled, db') →
  is_Some (pdb_gates db !! key) → is_Some (pdb_gates db' !! key).
Proof.
  intros Hh Hd Hs. destruct (history_step _ _ _ _ _ _ Hh Hd) as [[_ ->]|(id & a & Hc)]; [done|].
  apply (committed_gate _ _ _ _ _ _ _ _ key) in Hc. case_bool_decide.
  - destruct Hc as (row' & -> & _). eauto.
  - by rewrite Hc.
Qed.

Lemma executions_counted business log db key :
  participant_history business log db →
  (pdb_gates db !! key = None → List.filter (decides Execute key) log = []) ∧
  (length (List.filter (decides Execute key) log) <= 1)%nat.
Proof.
  induction 1 as [|log db d handled db' Hh [IH1 IH2] Hd|log db d e Hh IH Hd]; [by split; simpl; [|lia]| |done].
  rewrite List.filter_app. simpl.
  destruct (history_step _ _ _ _ _ _ Hh Hd) as [[-> ->]|(id & a & Hc)].
  { unfold decides at 2 4. simpl. rewrite andb_false_r. simpl. rewrite app_nil_r. auto. }
  destruct (decides Execute key (d, handled)) eqn:Hdec.
  - destruct (decides_committed _ _ _ _ _ _ _ _ _ _ Hdec Hc) as [-> Hph].
    apply (committed_gate _ _ _ _ _ _ _ _ (command_key (dl_envelope d))) in Hc.
    rewrite bool_decide_true in Hc by done. destruct Hc as (row' & Hrow & Hr). rewrite Hph in Hr.
    assert (pdb_gates db !! command_key (dl_envelope d) = None) as Hn.
    { unfold decides in Hdec. apply andb_true_iff in Hdec as [_ Hx]. simpl in Hx.
      destruct (pdb_gates db !! _); [|done]. inversion Hr; subst; done. }
    rewrite Hrow, (IH1 Hn). simpl. split; [done|lia].
  - rewrite app_nil_r. split; [|done]. intros Hn. apply IH1.
    destruct (pdb_gates db !! key) eqn:E; [|done].
    destruct (gate_persists _ _ _ _ _ _ key Hh Hd) as [x Hx]; [by rewrite E|]. congruence.
Qed.

(** ** Reported verdicts *)

(** The forward verdict an answer commits the participant to: an execution's
    own verdict, a confirmed cancellation, the terminal verdict a cancel
    reports, and the success that a compensation or a resolution presupposes. *)
Definition stated_by (phase : StepPhase) (s : StepAttemptStatus) (t : option StepForwardStatus)
    : option StepForwardStatus :=
  match phase, s with
  | Execute, Attempt_Succeeded => Some Forward_Succeeded
  | Execute, Attempt_Rejected => Some Forward_Rejected
  | Execute, Attempt_Halted => Some Forward_Halted
  | SagaIdentity.Cancel, Attempt_CancelConfirmed => Some Forward_Cancelled
  | SagaIdentity.Cancel, Attempt_AlreadyTerminal => t
  | Compensate, (Attempt_Succeeded | Attempt_Unknown) => Some Forward_Succeeded
  | Resolve, Attempt_Succeeded => Some Forward_Succeeded
  | _, _ => None
  end.

Definition stated_verdict (r : SagaResultEnvelope) : option StepForwardStatus :=
  match StepPhase_parse (res_phase r), StepAttemptStatus_parse (res_status r) with
  | Some phase, Some s => stated_by phase s (res_terminal_status r ≫= StepForwardStatus_parse)
  | _, _ => None
  end.

Definition result_key (r : SagaResultEnvelope) : string * string := (res_saga_id r, res_step r).

Lemma gate_rule_states phase rec before v handled s t f :
  gate_rule phase rec before v handled (Some (s, t)) → verdicts_ok v →
  stated_by phase s t = Some f → v_forward v = f ∧ settled f.
Proof.
  intros Hr Hv Hs. destruct Hv as [_ _ _ _ _ Hu Hre _]. unfold settled, final.
  inversion Hr; subst; simpl in *; simplify_eq; in_cases;
    repeat match goal with
    | Hx : reported _ _ |- _ => inversion Hx; clear Hx; subst
    | Hx : undone _ _ |- _ => inversion Hx; clear Hx; subst
    | Hx : cancelled _ _ _ _ |- _ => inversion Hx; clear Hx; subst
    end; simpl in *; unfold final in *; naive_solver.
Qed.

Definition result_says (says : StepPhase → StepAttemptStatus → option StepForwardStatus → Prop)
    (r : SagaResultEnvelope) : Prop :=
  ∃ phase s, StepPhase_parse (res_phase r) = Some phase ∧ StepAttemptStatus_parse (res_status r) = Some s ∧
    says phase s (res_terminal_status r ≫= StepForwardStatus_parse).

(** What answers of some kind say of the verdicts they leave, and no rule takes
    back, holds at the gate of every such result in the outbox. *)
Lemma outbox_true (says : StepPhase → StepAttemptStatus → option StepForwardStatus → Prop)
    (Q : Verdicts → Prop) business log db r :
  (∀ phase rec before v handled s t, gate_rule phase rec before v handled (Some (s, t)) →
     verdicts_ok v → says phase s t → Q v) →
  (∀ phase rec v v' handled answer, gate_rule phase rec (Some v) v' handled answer → Q v → Q v') →
  participant_history business log db → r ∈ pdb_outbox db → result_says says r →
  ∃ row, pdb_gates db !! result_key r = Some row ∧ Q (verdicts row).
Proof.
  intros Hsays Hkeep Hh. revert r.
  induction Hh as [|log db d handled db' Hh IH Hd|log db d e Hh IH Hd]; intros r Hin Hst;
    [by apply elem_of_nil in Hin| |by apply IH].
  destruct (history_step _ _ _ _ _ _ Hh Hd) as [[-> ->]|(id & a & Hc)]; [by apply IH|].
  assert (r ∈ pdb_outbox db → ∃ row, pdb_gates db' !! result_key r = Some row ∧ Q (verdicts row)) as Hold.
  { intros Hr. destruct (IH _ Hr Hst) as (row & Hrow & HQ).
    apply (committed_gate _ _ _ _ _ _ _ _ (result_key r)) in Hc. case_bool_decide.
    - destruct Hc as (row' & Hrow' & Hru). exists row'. split; [done|].
      rewrite Hrow in Hru. by eapply Hkeep.
    - exists row. by rewrite Hc. }
  pose proof (cm_outbox _ _ _ _ _ _ _ _ _ Hc) as Ha. unfold answered in Ha.
  destruct a as [[s t]|]; [|rewrite Ha in Hin; by apply Hold].
  destruct Ha as (reason & _ & [Ho|[Ho _]]); rewrite Ho in Hin; [|by apply Hold].
  apply elem_of_app in Hin as [Hin|Hin%list_elem_of_singleton]; [by apply Hold|]. subst r.
  destruct (committed_key _ _ _ _ _ _ _ _ Hc) as [Hk Hp].
  assert (gates_ok (pdb_gates db')) as Hok.
  { eapply history_gates_ok. by eapply history_committed. }
  apply (committed_gate _ _ _ _ _ _ _ _ (command_key (dl_envelope d))) in Hc.
  rewrite bool_decide_true in Hc by done. destruct Hc as (row' & Hrow' & Hru). exists row'.
  split; [done|]. eapply Hsays; [exact Hru|by apply (Hok _ _ Hrow')|].
  destruct Hst as (phase & s' & Hphase & Hs' & Hx). simpl in Hphase, Hs', Hx. rewrite Hp in Hphase.
  replace phase with (vid_phase id) in Hx by (by destruct (vid_phase id); injection Hphase).
  replace s' with s in Hx by (by destruct s; injection Hs'). by destruct t as [[]|].
Qed.

Lemma stated_says r f : stated_verdict r = Some f → result_says (λ phase s t, stated_by phase s t = Some f) r.
Proof.
  unfold stated_verdict, result_says. intros Hs. repeat case_match; try done. eauto.
Qed.

(** Every verdict the outbox states is the one its gate holds. *)
Lemma stated_verdicts_hold business log db r f :
  participant_history business log db → r ∈ pdb_outbox db → stated_verdict r = Some f →
  settled f ∧ ∃ row, pdb_gates db !! result_key r = Some row ∧ gate_forward_status row = f.
Proof.
  intros Hh Hr Hs%stated_says.
  destruct (outbox_true (λ phase s t, stated_by phase s t = Some f) (λ v, v_forward v = f ∧ settled f)
    business log db r) as (row & Hrow & Hf & Hx); [..|eauto]; try done.
  - intros. by eapply gate_rule_states.
  - intros phase rec v v' handled answer Hru [Hf Hx]. split; [|done].
    rewrite <-Hf in *. by eapply gate_rule_settled.
Qed.

(** A compensation reported as done is done at its gate. *)
Lemma compensations_hold business log db r :
  participant_history business log db → r ∈ pdb_outbox db →
  result_says (λ phase s _, phase = Compensate ∧ s = Attempt_Succeeded) r →
  ∃ row, pdb_gates db !! result_key r = Some row ∧ gate_compensation_status row = Comp_Succeeded.
Proof.
  intros Hh Hr Hs.
  apply (outbox_true _ (λ v, v_compensation v = Comp_Succeeded) business log db r) in Hs; try done.
  - intros phase rec before v handled s t Hru _ [-> ->]. inversion Hru; subst; simpl in *; try done;
      match goal with Hx : undone _ _ |- _ => by inversion Hx; subst end.
  - intros phase rec v v' handled answer Hru HQ. by eapply gate_rule_undone.
Qed.

(** ** Compensations *)

Lemma compensation_settled business log db key :
  participant_history business log db →
  (∃ d, (d, Handled_Executed Attempt_Succeeded) ∈ log ∧
    decides Compensate key (d, Handled_Executed Attempt_Succeeded) = true) →
  ∃ row, pdb_gates db !! key = Some row ∧ gate_compensation_status row = Comp_Succeeded.
Proof.
  induction 1 as [|log db d handled db' Hh IH Hd|log db d e Hh IH Hd]; intros (d0 & Hin & Hdec);
    [by apply elem_of_nil in Hin| |by eauto].
  destruct (history_step _ _ _ _ _ _ Hh Hd) as [[-> ->]|(id & a & Hc)].
  { apply elem_of_app in Hin as [Hin|Hin%list_elem_of_singleton]; [by eauto|done]. }
  apply elem_of_app in Hin as [Hin|Hin%list_elem_of_singleton].
  - destruct IH as (row & Hrow & Hs); [by eauto|].
    apply (committed_gate _ _ _ _ _ _ _ _ key) in Hc. case_bool_decide.
    + destruct Hc as (row' & Hrow' & Hru). exists row'. split; [done|]. rewrite Hrow in Hru.
      by apply gate_rule_undone in Hru.
    + exists row. by rewrite Hc.
  - injection Hin as -> <-. destruct (decides_committed _ _ _ _ _ _ _ _ _ _ Hdec Hc) as [-> Hph].
    apply (committed_gate _ _ _ _ _ _ _ _ (command_key (dl_envelope d))) in Hc.
    rewrite bool_decide_true in Hc by done. destruct Hc as (row' & Hrow' & Hru). exists row'.
    split; [done|]. rewrite Hph in Hru. inversion Hru; subst; try done.
    match goal with Hx : undone _ _ |- _ => inversion Hx; subst end. done.
Qed.

Lemma compensation_admitted business log db d s db' key :
  participant_history business log db → deliver d db = Ok (Handled_Executed s, db') →
  decides Compensate key (d, Handled_Executed s) = true →
  ∃ row, pdb_gates db !! key = Some row ∧ gate_forward_status row = Forward_Succeeded ∧
    (gate_compensation_status row = Comp_None ∨
     gate_compensation_status row = Comp_Halted ∧
     is_Some (cmd_recovery_operation_id (dl_envelope d))).
Proof.
  intros Hh Hd Hdec. destruct (history_step _ _ _ _ _ _ Hh Hd) as [[? _]|(id & a & Hc)]; [done|].
  destruct (decides_committed _ _ _ _ _ _ _ _ _ _ Hdec Hc) as [-> Hph].
  apply (committed_gate _ _ _ _ _ _ _ _ (command_key (dl_envelope d))) in Hc.
  rewrite bool_decide_true in Hc by done. destruct Hc as (row' & Hrow' & Hru). rewrite Hph in Hru.
  destruct (pdb_gates db !! _) as [row|]; [|by inversion Hru]. exists row. split; [done|].
  unfold verdicts in Hru. inversion Hru; subst. split; [done|].
  destruct (cmd_recovery_operation_id _); naive_solver.
Qed.

(** ** Redelivery *)

Lemma with_claimed_absorbs self envelope producer phase body body' (db0 db : PDb) x :
  with_claimed steps self envelope producer phase body db0 = Ok x →
  inbox_key self envelope ∈ pdb_inbox db →
  with_claimed steps self envelope producer phase body' db = Ok (Handled_Duplicate, db).
Proof.
  unfold with_claimed, claim. destruct x as [h db1]. intros Hw Hin. inv_st.
  unfold st_bind, st_lift, st_get, st_ret. rewrite H0, ?Heqb, ?Heqb0, ?Heqb1.
  by rewrite bool_decide_true.
Qed.

Lemma deliver_absorbs d admits (db0 db : PDb) x :
  deliver d db0 = Ok x → inbox_key (dl_runtime d) (dl_envelope d) ∈ pdb_inbox db →
  deliver (mkDelivery (dl_runtime d) (dl_service d) (dl_envelope d) (dl_producer d) admits) db
    = Ok (Handled_Duplicate, db).
Proof.
  destruct d as [self service envelope producer admits0], x as [h db1].
  unfold deliver, saga_handle_command. simpl. intros Hd Hin. inv_st. rewrite ?Heqb.
  unfold st_bind at 1, st_lift at 1. rewrite H0.
  destruct (StepPhase_parse _) as [[]|] in *; [| | | |done].
  - by eapply with_claimed_absorbs.
  - destruct (srv_capability service); [|done|]; by eapply with_claimed_absorbs.
  - destruct (desc_compensation _); [|done]. by eapply with_claimed_absorbs.
  - destruct (srv_capability service); [done|..]; by eapply with_claimed_absorbs.
Qed.

Lemma log_claimed business log db d handled :
  participant_history business log db → (d, handled) ∈ log →
  inbox_key (dl_runtime d) (dl_envelope d) ∈ pdb_inbox db ∧
  ∃ db0 x, deliver d db0 = Ok x.
Proof.
  induction 1 as [|log db d0 handled0 db' Hh IH Hd|log db d0 e Hh IH Hd]; intros Hin;
    [by apply elem_of_nil in Hin| |by apply IH].
  apply elem_of_app in Hin as [Hin|Hin%list_elem_of_singleton].
  - destruct (IH Hin) as [Hk Hx]. split; [|done].
    destruct (history_step _ _ _ _ _ _ Hh Hd) as [[_ ->]|(id & a & Hc)]; [done|].
    rewrite (cm_inbox _ _ _ _ _ _ _ _ _ Hc). apply elem_of_app. auto.
  - injection Hin as <- <-. split; [|by eauto].
    destruct (deliver_refines _ _ _ _ (history_gates_ok _ _ _ Hh) Hd) as [(_ & -> & ?)|(id & a & Hc)];
      [done|].
    rewrite (cm_inbox _ _ _ _ _ _ _ _ _ Hc). apply elem_of_app. right. by apply list_elem_of_singleton.
Qed.

(** ** Properties *)

(** C3. A participant implements the gate protocol: from any database it can
    reach, a delivery that is acknowledged either is a duplicate and changes
    nothing, or comes from a producer trusted for the command's workflow,
    version and digest, claims the command in the inbox, moves the gate of the
    command's step, and no other, by one rule of the protocol, leaves the answer
    of that rule in the outbox, and touches the business tables only if it
    executed; and the gates stay well formed.  The answer is appended unless the
    outbox already holds an event with the identity derived from the command, as
    when a second consumer on the same database is given the same command. *)
Theorem participant_refines_protocol business log db d handled db'
    (Hreach : participant_history business log db) (Hdeliver : deliver d db = Ok (handled, db')) :
  gates_ok (pdb_gates db') ∧
  ((handled = Handled_Duplicate ∧ db' = db) ∨
   ∃ identity answer,
     committed steps (dl_runtime d) (dl_envelope d) (dl_producer d) identity answer handled db db').
Proof.
  split; [|by eapply history_step]. eapply history_gates_ok. by eapply history_committed.
Qed.

(** C7. A step executes at most once: whatever commands arrive, in whatever
    order and however often, at most one delivery of an execute command for a
    step runs its business handler to a committed verdict. *)
Theorem execute_at_most_once business log db key
    (Hreach : participant_history business log db) :
  (length (List.filter (decides Execute key) log) <= 1)%nat.
Proof. by eapply executions_counted. Qed.

(** C8. A participant never contradicts itself: any two results it ever puts in
    its outbox for the same step that commit it to a forward verdict, be it by
    an execution, a cancellation, a compensation or a resolution, commit it to
    the same verdict, and that is the verdict its gate holds.  In particular no
    step is reported both cancelled and succeeded. *)
Theorem answers_never_contradict business log db r r' f f'
    (Hreach : participant_history business log db)
    (Hr : r ∈ pdb_outbox db) (Hr' : r' ∈ pdb_outbox db) (Hkey : result_key r = result_key r')
    (Hf : stated_verdict r = Some f) (Hf' : stated_verdict r' = Some f') :
  f = f' ∧ ∃ row, pdb_gates db !! result_key r = Some row ∧ gate_forward_status row = f.
Proof.
  destruct (stated_verdicts_hold _ _ _ _ _ Hreach Hr Hf) as (_ & row & Hrow & Hv).
  destruct (stated_verdicts_hold _ _ _ _ _ Hreach Hr' Hf') as (_ & row' & Hrow' & Hv').
  split; [|eauto]. rewrite <-Hkey, Hrow in Hrow'. congruence.
Qed.

(** C20. Compensation undoes a success and no more: a compensation handler runs
    to a committed verdict only on a step whose forward verdict is a success and
    whose compensation was never settled, or was frozen and is reopened by an
    audited recovery operation; and once a compensation has succeeded, no
    compensation handler of that step commits again. *)
Theorem compensation_undoes_success_once business log db key
    (Hreach : participant_history business log db) :
  (∀ d s db', deliver d db = Ok (Handled_Executed s, db') →
    decides Compensate key (d, Handled_Executed s) = true →
    ∃ row, pdb_gates db !! key = Some row ∧ gate_forward_status row = Forward_Succeeded ∧
      (gate_compensation_status row = Comp_None ∨
       gate_compensation_status row = Comp_Halted ∧
       is_Some (cmd_recovery_operation_id (dl_envelope d)))) ∧
  (∀ before d after, log = before ++ (d, Handled_Executed Attempt_Succeeded) :: after →
    decides Compensate key (d, Handled_Executed Attempt_Succeeded) = true →
    List.filter (decides Compensate key) after = []).
Proof.
  split; [by intros; eapply compensation_admitted|].
  induction Hreach as [|log db d handled db' Hh IH Hd|log db d e Hh IH Hd];
    intros before d0 after Hlog Hdec; [by destruct before| |by eapply IH].
  destruct after as [|e after _] using rev_ind; [done|].
  rewrite app_comm_cons, app_assoc in Hlog. apply app_inj_tail in Hlog as [Hlog <-].
  rewrite List.filter_app, (IH _ _ _ Hlog Hdec). simpl.
  destruct (decides Compensate key (d, handled)) eqn:Hx; [|done]. exfalso.
  destruct (compensation_settled _ _ _ key Hh) as (row & Hrow & Hs).
  { exists d0. split; [|done]. rewrite Hlog. apply elem_of_app. right. by left. }
  assert (∃ s, handled = Handled_Executed s) as [s ->].
  { unfold decides in Hx. apply andb_true_iff in Hx as [_ Hx]. simpl in Hx. destruct handled; eauto; done. }
  destruct (compensation_admitted _ _ _ _ _ _ _ Hh Hd Hx) as (row' & Hrow' & _ & Hc).
  rewrite Hrow in Hrow'. injection Hrow' as <-. rewrite Hs in Hc. naive_solver.
Qed.

(** A redelivered command is absorbed: once a delivery was acknowledged,
    delivering the same command to the same runtime again, at any later point of
    the history and whatever the outbox quota says, is acknowledged as a
    duplicate and changes nothing. *)
Theorem command_redelivery_absorbed business log db d handled admits
    (Hreach : participant_history business log db) (Hlog : (d, handled) ∈ log) :
  deliver (mkDelivery (dl_runtime d) (dl_service d) (dl_envelope d) (dl_producer d) admits) db
    = Ok (Handled_Duplicate, db).
Proof.
  destruct (log_claimed _ _ _ _ _ Hreach Hlog) as (Hk & db0 & x & Hx). by eapply deliver_absorbs.
Qed.
End safety.
