(* ===== verification/SagaParticipantAnswers.v ===== *)
(** * A participant answers every honest command

    The gate store has many fail-closed exits: effect identities that do not
    match, verdicts that contradict a recorded one, rows committed in the middle
    of a transaction.  None of them is reachable: from any database a
    participant can reach, a verified and trusted command of the contract its
    gate was opened with commits, provided its handler reaches a verdict and the
    outbox takes the event. *)

From Stdlib Require Import ZArith Lia.
From S2P Require Import Prelude Bytes SagaIdentity SagaState SagaDefinition SagaEnvelope.
From S2P Require Import SagaStore SagaStart SagaGate SagaParticipant SagaParticipantRules.
From S2P Require Import SagaParticipantRefinement SagaParticipantSafety.
From stdpp Require Import prelude strings gmap.

Local Open Scope Z_scope.
Local Open Scope rust_scope.

Section gates.
Context `{Runtime}.

(** The gate may be opened or was opened by this contract, and no other step
    holds its execute effect. *)
Record gate_free (gate : ParticipantGateKey) (gates : GateTable) : Prop := {
  gf_contract : ∀ row, gates !! gate_key gate = Some row → contract row = key_contract gate;
  gf_effect : ∀ key row, gates !! key = Some row → key ≠ gate_key gate →
    gate_execute_effect_id row ≠ uuid_to_string (effect_of gate Execute)
}.

Lemma insert_succeeds {B : Type} (gate : ParticipantGateKey) (row : GateRow) (gates : GateTable) (k : bool → Gx B) Q :
  gate_free gate gates → gates !! gate_key gate = None →
  gate_execute_effect_id row = uuid_to_string (effect_of gate Execute) →
  succeeds (k true) (<[gate_key gate := row]> gates) Q →
  succeeds (st_bind (insert_gate gate row) k) gates Q.
Proof.
  intros [_ Hf] Hn He Hk. eapply succeeds_bind with (R := λ b g, b = true ∧ g = <[gate_key gate := row]> gates).
  - exists true, (<[gate_key gate := row]> gates). split; [|done].
    unfold insert_gate, st_bind, st_get, st_modify, st_ret. simpl. rewrite Hn.
    replace (effect_taken _ _) with false; [done|]. symmetry.
    apply not_true_iff_false. unfold effect_taken. rewrite existsb_elem_of.
    intros ([key row'] & Hin%elem_of_map_to_list & Hx%bool_decide_eq_true). simpl in *.
    apply (Hf key row' Hin); [congruence|]. by rewrite Hx.
  - by intros ? ? [-> ->].
Qed.

Lemma update_succeeds {B : Type} (key : string * string) (p : GateRow → bool) (f : GateRow → GateRow) (gates : GateTable) (row : GateRow) (k : Z → Gx B) Q :
  gates !! key = Some row → p row = true →
  succeeds (k 1) (<[key := f row]> gates) Q →
  succeeds (st_bind (update_gate key p f) k) gates Q.
Proof.
  intros Hl Hp Hk. eapply succeeds_bind with (R := λ n g, n = 1 ∧ g = <[key := f row]> gates).
  - exists 1, (<[key := f row]> gates). split; [|done]. apply update_gate_Ok. left. by exists row.
  - by intros ? ? [-> ->].
Qed.

Lemma contract_verified (gate : ParticipantGateKey) (gates : GateTable) (row : GateRow) :
  gate_free gate gates → gates !! gate_key gate = Some row → verify_gate_contract row gate = Ok tt.
Proof. intros [Hc _] E. apply verify_gate_contract_Ok. auto. Qed.

(** The stored execute effect is the one the command derives. *)
Lemma stored_effect (gate : ParticipantGateKey) (gates : GateTable) (row : GateRow) :
  gates_ok gates → gate_free gate gates → gates !! gate_key gate = Some row →
  bool_decide (gate_execute_effect_id row = uuid_to_string (effect_of gate Execute)) = true.
Proof.
  intros Hg [Hc _] E. apply bool_decide_eq_true. destruct (Hg _ _ E) as [[He _ _ _] _].
  rewrite He. apply effect_text_row. auto.
Qed.

Section operations.
Context (gate : ParticipantGateKey) (gates : GateTable).
Context (Hgates : gates_ok gates) (Hfree : gate_free gate gates).

Ltac at_row row E :=
  destruct (gates !! gate_key gate) as [row|] eqn:E.

(** ** Execute *)

Lemma admit_execute_succeeds :
  succeeds (admit_execute gate (effect_of gate Execute)) gates (λ admission gates',
    match admission with
    | Execute_Admitted => ∃ row, gates' !! gate_key gate = Some row ∧
        gate_forward_status row = Forward_Pending
    | Execute_AlreadyTerminal f => ∃ s, forward_to_attempt_status f = Ok s
    | Execute_Suppressed => True
    end).
Proof.
  unfold admit_execute, select_gate. apply succeeds_get. at_row row E.
  - eapply succeeds_lift; [by eapply contract_verified|].
    rewrite (stored_effect _ _ _ Hgates Hfree E).
    destruct (Hgates _ _ E) as [_ [Hf _ _ _ _ _ _ _]]. unfold final in Hf. simpl in Hf.
    destruct (gate_forward_status row); try (apply succeeds_ret; simpl; eauto; done); naive_solver.
  - apply insert_succeeds; [done..|]. apply succeeds_ret. rewrite lookup_insert_eq. eauto.
Qed.

Lemma settle_execute_succeeds (gates' : GateTable) (row : GateRow) status :
  gates' !! gate_key gate = Some row → gate_forward_status row = Forward_Pending →
  (∃ s, reported status s) →
  succeeds (settle_execute (gk_saga_id gate) (gk_step gate) status) gates' (λ _ _, True).
Proof.
  intros E Hf [s Hs]. unfold settle_execute. destruct Hs; simpl;
    (eapply update_succeeds; [exact E|by rewrite Hf|]; by apply succeeds_ret).
Qed.

(** ** Cancel *)

Definition adjudicated (a : CancelAdjudication) : Prop :=
  match a with Adjudicated_AlreadyTerminal f => final f | _ => True end.

Lemma adjudication_of_ok v : verdicts_ok v → adjudicated (adjudication_of (v_forward v)).
Proof. intros [Hf _ _ _ _ _ _ _]. unfold final in Hf. destruct (v_forward v); simpl; unfold final; naive_solver. Qed.

Lemma adjudicate_cancel_succeeds :
  succeeds (adjudicate_cancel gate (effect_of gate Execute) (effect_of gate SagaIdentity.Cancel)) gates
    (λ a _, adjudicated a).
Proof.
  unfold adjudicate_cancel, select_gate. apply succeeds_get. at_row row E.
  - eapply succeeds_lift; [by eapply contract_verified|].
    rewrite (stored_effect _ _ _ Hgates Hfree E).
    destruct (Hgates _ _ E) as [[_ Hce Hcd _] Hv]. pose proof (adjudication_of_ok _ Hv) as Hadj.
    destruct (negb _) eqn:Hn.
    + apply negb_true_iff, bool_decide_eq_false in Hn.
      rewrite bool_decide_true, bool_decide_true; [by apply succeeds_ret|..].
      * destruct (Hcd Hn) as [e He]. rewrite He. f_equal. rewrite (Hce e He).
        apply effect_text_row. by apply Hfree.
      * destruct Hv as [_ Hfe Hte Hpe _ _ _ _]. simpl in *.
        destruct (gate_cancel_status row); [done|..]; simpl.
        -- by rewrite (proj1 Hfe eq_refl).
        -- destruct (Hte eq_refl) as [->|[->| ->]]; done.
        -- by rewrite (Hpe eq_refl).
    + apply negb_false_iff in Hn. eapply update_succeeds; [exact E|exact Hn|]. by apply succeeds_ret.
  - apply insert_succeeds; [done..|]. by apply succeeds_ret.
Qed.

Lemma recorded_succeeds v :
  verdicts_ok v → ∃ o, recorded_adjudication (v_forward v) (v_cancel v) = Ok o ∧
  match o with Some a => adjudicated a | None => True end.
Proof.
  intros [_ _ Hte _ _ _ _ _]. destruct (v_cancel v); simpl; try (eexists; split; [done|]; done).
  destruct (Hte eq_refl) as [->|[->| ->]]; eexists; split; try done; simpl; unfold final; auto.
Qed.

Lemma admit_external_cancel_succeeds :
  succeeds (admit_external_cancel gate (effect_of gate Execute) (effect_of gate SagaIdentity.Cancel))
    gates (λ admission gates',
    match admission with
    | ExternalCancel_Admitted => ∃ row, gates' !! gate_key gate = Some row ∧
        gate_cancel_status row = Cancel_None ∧
        (gate_forward_status row = Forward_Pending ∨ gate_forward_status row = Forward_Unknown)
    | AlreadyAdjudicated a => adjudicated a
    end).
Proof.
  unfold admit_external_cancel, persist_existing_cancel_adjudication, select_gate.
  apply succeeds_get. at_row row E.
  - eapply succeeds_lift; [by eapply contract_verified|].
    rewrite (stored_effect _ _ _ Hgates Hfree E).
    destruct (Hgates _ _ E) as [[_ Hce Hcd _] Hv].
    replace (match gate_cancel_effect_id row with Some _ => _ | None => _ end) with true.
    2: { destruct (gate_cancel_effect_id row) as [e|]; [|done]. symmetry. apply bool_decide_eq_true.
         rewrite (Hce e eq_refl). apply effect_text_row. by apply Hfree. }
    destruct (recorded_succeeds _ Hv) as (o & Ho & Hadj). simpl in Ho.
    eapply succeeds_lift; [exact Ho|]. destruct o as [a|]; [by apply succeeds_ret|].
    apply (recorded_exact (verdicts row)) in Ho; [|done]. simpl in Ho.
    destruct Hv as [Hf _ _ _ _ _ _ _]. unfold final in Hf. simpl in Hf.
    destruct (gate_forward_status row) eqn:Ef; try naive_solver.
    all: try (eapply succeeds_bind with (R := λ _ _, True);
      [eapply update_succeeds; [exact E|by rewrite Ho|]; by apply succeeds_ret|];
      intros [] ? _; apply succeeds_ret; simpl; unfold final; auto; done).
    eapply update_succeeds; [exact E|by rewrite Ho|]. apply succeeds_ret. rewrite lookup_insert_eq. eauto.
  - apply insert_succeeds; [done..|]. apply succeeds_ret. rewrite lookup_insert_eq. eauto 6.
Qed.

Lemma settle_external_cancel_succeeds (gates' : GateTable) (row : GateRow) o :
  gates' !! gate_key gate = Some row → gate_cancel_status row = Cancel_None →
  gate_forward_status row = Forward_Pending ∨ gate_forward_status row = Forward_Unknown →
  succeeds (settle_external_cancel (gk_saga_id gate) (gk_step gate)
    (ecr_forward (external_cancel_result o)) (ecr_cancel (external_cancel_result o))) gates'
    (λ _ _, True).
Proof.
  intros E Hc Hf. unfold settle_external_cancel.
  replace (external_combination _ _) with true by (by destruct o as [|[]|]).
  eapply update_succeeds; [exact E|rewrite Hc; by destruct Hf as [-> | ->]|]. by apply succeeds_ret.
Qed.

(** ** Compensate *)

Lemma admit_compensation_succeeds recovery :
  succeeds (admit_compensation gate (effect_of gate Compensate) recovery) gates (λ admission gates',
    match admission with
    | Compensation_Admitted => ∃ row, gates' !! gate_key gate = Some row ∧
        gate_compensation_status row = Comp_Pending
    | Compensation_AlreadySettled k => ∃ s, compensation_to_attempt_status k = Ok s
    | MissingForwardEffect => True
    end).
Proof.
  unfold admit_compensation, select_gate. apply succeeds_get. at_row row E.
  - eapply succeeds_lift; [by eapply contract_verified|].
    destruct (Hgates _ _ E) as [_ [_ _ _ _ Hk _ _ _]]. simpl in Hk.
    destruct (_ || _) eqn:H1.
    { apply succeeds_ret. destruct (gate_compensation_status row); simpl; eauto; done. }
    destruct (bool_decide (_ = Comp_Halted) && _) eqn:H2.
    { apply succeeds_ret. apply andb_true_iff in H2 as [->%bool_decide_eq_true _]. simpl. eauto. }
    rewrite bool_decide_false by done. destruct (negb _).
    + eapply update_succeeds; [exact E|done|]. by apply succeeds_ret.
    + eapply update_succeeds; [exact E|done|]. apply succeeds_ret. rewrite lookup_insert_eq. eauto.
  - apply insert_succeeds; [done..|]. by apply succeeds_ret.
Qed.

Lemma settle_compensation_succeeds (gates' : GateTable) (row : GateRow) o :
  gates' !! gate_key gate = Some row → gate_compensation_status row = Comp_Pending →
  succeeds (settle_compensation (gk_saga_id gate) (gk_step gate) (compensation_verdict o).1.1) gates'
    (λ _ _, True).
Proof.
  intros E Hk. unfold settle_compensation. destruct o; simpl;
    (eapply update_succeeds; [exact E|by rewrite Hk|]; by apply succeeds_ret).
Qed.

(** ** Resolve *)

Lemma admit_resolution_succeeds recovery :
  succeeds (admit_resolution gate (effect_of gate Resolve) recovery) gates (λ admission gates',
    match admission with
    | Resolution_Admitted target => ∃ row, gates' !! gate_key gate = Some row ∧
        gate_resolution_status row = Resolution_Pending ∧
        match target with
        | Target_Forward => gate_forward_status row = Forward_Unknown
        | Target_Compensation => gate_compensation_status row = Comp_Unknown
        end
    | Resolution_AlreadySettled _ r => ∃ s, resolution_to_attempt_status r = Ok s
    | MissingUnknownEffect => True
    end).
Proof.
  unfold admit_resolution, write_resolution, select_gate. apply succeeds_get. at_row row E.
  - eapply succeeds_lift; [by eapply contract_verified|].
    destruct (Hgates _ _ E) as [[_ _ _ Hre] _].
    replace (match gate_resolve_effect_id row with Some _ => _ | None => _ end) with true.
    2: { destruct (gate_resolve_effect_id row) as [e|]; [|done]. symmetry. apply bool_decide_eq_true.
         rewrite (Hre e eq_refl). apply effect_text_row. by apply Hfree. }
    destruct (resolution_closed _ _) eqn:H1.
    { apply succeeds_ret. destruct (gate_resolution_status row); simpl in *; eauto; done. }
    destruct (known_forward _ _ _) as [r|] eqn:H2.
    { eapply update_succeeds; [exact E|done|]. apply succeeds_ret. unfold known_forward in H2.
      destruct (_ && _); [|done]. destruct (gate_forward_status row); simplify_eq; simpl; eauto. }
    destruct (unknown_target _ _) as [target|] eqn:H3.
    + eapply update_succeeds; [exact E|done|]. apply succeeds_ret. rewrite lookup_insert_eq.
      eexists. split; [done|]. split; [done|]. unfold unknown_target in H3. simpl.
      repeat case_bool_decide; simplify_eq; done.
    + eapply update_succeeds; [exact E|done|]. by apply succeeds_ret.
  - apply insert_succeeds; [done..|]. by apply succeeds_ret.
Qed.

Lemma settle_resolution_succeeds {T : Type} (gates' : GateTable) (row : GateRow) (target : ResolutionTarget) (o : SagaOutcome T) :
  gates' !! gate_key gate = Some row → gate_resolution_status row = Resolution_Pending →
  match target with
  | Target_Forward => gate_forward_status row = Forward_Unknown
  | Target_Compensation => gate_compensation_status row = Comp_Unknown
  end →
  succeeds (settle_resolution (gk_saga_id gate) (gk_step gate) target (resolution_verdict o).1.1) gates'
    (λ _ _, True).
Proof.
  intros E Hr Ht. unfold settle_resolution.
  replace (negb _) with true by (by destruct o). cbv zeta.
  destruct target; (eapply update_succeeds; [exact E|by rewrite Ht, Hr|]).
  - simpl. destruct o; simpl; try (by apply succeeds_ret);
      (eapply succeeds_bind with (R := λ _ _, True); [|intros; by apply succeeds_ret]);
      (destruct (bool_decide (gate_cancel_status row = Cancel_ResolutionPending)) eqn:Hc;
       [eexists _, _; split; [|done]; apply update_gate_Ok; left; eexists;
        split; [apply lookup_insert_eq|]; split; [exact Hc|done]
       |eexists _, _; split; [|done]; apply update_gate_Ok; right; split; [|done];
        intros ? [= <-]%lookup_insert_rev; exact Hc]).
  - simpl. by destruct o; apply succeeds_ret.
Qed.
End operations.
End gates.

(** ** The result event *)

Lemma any_control_nul bs : any_control bs = false → existsb (λ b, b =? 0) bs = false.
Proof.
  induction bs as [|b r IH]; [done|]. simpl. intros Hc.
  apply orb_false_iff in Hc as [Hc Hr]. apply orb_false_iff in Hc as [Hc _].
  apply orb_false_iff in Hc as [Hb _]. rewrite (IH Hr). apply Z.ltb_ge in Hb.
  rewrite orb_false_r. apply Z.eqb_neq. lia.
Qed.

Lemma outbox_field x m :
  1 ≤ len x ≤ m → any_control (as_bytes x) = false →
  negb (is_empty x) && (len x <=? m) && negb (has_nul x) = true.
Proof.
  intros Hl Hc. unfold has_nul. rewrite any_control_nul by done. simpl.
  pose proof (is_empty_spec x) as [_ He]. rewrite He by lia. simpl. rewrite andb_true_r. lia.
Qed.

Section answers.
Context `{Runtime} {Biz : Type} (steps : list SagaStepDescriptor).
Local Abbreviation PDb := (PDb Biz).

(** The terminal verdict and the reason of an answer are those the contract of
    results admits. *)
Definition answer_ok (phase : StepPhase) (s : StepAttemptStatus) (t : option StepForwardStatus)
    (reason : option string) : Prop :=
  phase_allows_status phase s = true ∧
  (if bool_decide (s = Attempt_AlreadyTerminal) then ∃ f, t = Some f ∧ final f else t = None) ∧
  (∀ c, reason = Some c → valid_reason_code c = true).

Lemma result_of_verified envelope identity s t reason :
  verify_command_identity envelope = Ok identity → answer_ok (vid_phase identity) s t reason →
  SagaResultEnvelope_verified (result_of envelope s t reason) = Ok identity.
Proof.
  unfold verify_command_identity, SagaResultEnvelope_verified. intros Hv (Hp & Ht & Hr). simpl.
  rewrite Hv. simpl. unfold verify_result_contract, SagaResultEnvelope_parsed_status,
    SagaResultEnvelope_parsed_terminal. simpl. rewrite bool_decide_true by done.
  replace (StepAttemptStatus_parse (StepAttemptStatus_as_str s)) with (Some s) by (by destruct s).
  simpl. replace (negb _) with true by (by destruct s, (vid_phase identity)). simpl. rewrite Hp.
  case_bool_decide as Ha.
  - subst s. destruct Ht as (f & -> & Hf). destruct Hf as [->|[->| ->]]; simpl;
      destruct reason as [c|]; rewrite ?(Hr c) by done; done.
  - subst t. destruct s; try done; simpl; destruct reason as [c|]; rewrite ?(Hr c) by done; done.
Qed.

(** What the outbox asks of the event: an identity of its own and a saga that
    fit their columns, and room in the tenant's quota. *)
Definition event_fits (envelope : SagaCommandEnvelope) : Prop :=
  bounded_id (derive_result_event_id (cmd_command_id envelope)) = true ∧
  len (derive_result_event_id (cmd_command_id envelope)) ≤ 128 ∧
  len (cmd_saga_id envelope) ≤ 190.

Lemma emit_succeeds envelope identity s t reason (db : PDb) :
  verify_command_identity envelope = Ok identity → identity_ok identity → event_fits envelope →
  answer_ok (vid_phase identity) s t reason →
  succeeds (emit_result true envelope s t reason) db (λ _ _, True).
Proof.
  intros Hv Hi (Hb & Hl & Hs) Ha. unfold emit_result, append_result.
  eapply succeeds_lift; [by rewrite (result_of_verified _ _ _ _ _ Hv Ha)|].
  unfold verify_command_identity in Hv.
  apply verify_identity_Ok in Hv as (_ & Esaga & Etenant & _).
  destruct Hi as [Hsaga Htenant _ _ _ _ _ _ _]. rewrite <-Esaga in Hsaga. rewrite <-Etenant in Htenant.
  destruct Hsaga as (Hs1 & _ & Hs3), Htenant as (Ht1 & _ & Ht3).
  eapply succeeds_lift.
  { unfold OutboxWriteContext_new. pose proof (is_empty_spec (cmd_tenant_id envelope)) as [_ He].
    rewrite He by lia. replace (len _ <=? 256) with true by lia. by rewrite Ht3. }
  unfold bounded_id in Hb. apply andb_true_iff in Hb as [Hb Hb4]. apply andb_true_iff in Hb as [Hb Hb3].
  apply andb_true_iff in Hb as [Hb1 Hb2]. apply negb_true_iff, is_empty_spec in Hb1.
  apply negb_true_iff in Hb4.
  eapply succeeds_lift.
  { unfold validate_result_event. cbn [forallb fst snd res_event_id res_saga_id result_of].
    rewrite !outbox_field; try done; lia. }
  apply succeeds_get. destruct (existsb _ _); [by apply succeeds_ret|]. by eexists _, _.
Qed.

(** ** Handlers *)

(** The service handles the command's phase: it has the capability, decodes the
    payload, and its handler reaches a verdict. *)
Definition decides_always {C O} (de : Deserialize C) (h : Handler (Biz:=Biz) C O)
    (envelope : SagaCommandEnvelope) : Prop :=
  ∃ command, decode_payload de envelope = Ok command ∧
    ∀ context business, is_ok (h context command business) = true.

Definition willing (service : SagaService (Biz:=Biz)) (envelope : SagaCommandEnvelope)
    (phase : StepPhase) : Prop :=
  match phase with
  | Execute => decides_always (command_de (srv_step service)) (step_execute (srv_step service)) envelope
  | SagaIdentity.Cancel =>
      match srv_capability service with
      | Capability_LocalFenceable => True
      | Capability_ResolveOnly _ => False
      | Capability_ExternallyCancellable canceller _ =>
          decides_always (cancel_de canceller) (step_cancel canceller) envelope
      end
  | Compensate =>
      desc_compensation (srv_descriptor service) = Compensable ∧
      decides_always (compensation_de (srv_step service)) (step_compensate (srv_step service)) envelope
  | Resolve =>
      match srv_capability service with
      | Capability_LocalFenceable => False
      | Capability_ResolveOnly resolver | Capability_ExternallyCancellable _ resolver =>
          decides_always (resolve_de resolver) (step_resolve resolver) envelope
      end
  end.

(** A command the participant must not refuse. *)
Record honest (d : Delivery (Biz:=Biz)) (identity : VerifiedIdentity) (db : PDb) : Prop := {
  ho_identity : verified_command_identity steps (dl_runtime d) (dl_envelope d) (dl_producer d)
    = Ok identity;
  ho_route : descriptor_matches (dl_envelope d) (srv_descriptor (dl_service d)) = true;
  ho_payload : verify_payload_contract (dl_envelope d)
    (desc_payload_content_type (srv_descriptor (dl_service d)))
    (desc_payload_schema_id (srv_descriptor (dl_service d))) = Ok tt;
  ho_consumer : validate_key (pr_consumer (dl_runtime d)) 128 = true;
  ho_command : validate_key (cmd_command_id (dl_envelope d)) 190 = true;
  ho_event : event_fits (dl_envelope d);
  ho_quota : dl_admits d = true;
  ho_gate : gate_free (gate_of identity (dl_envelope d)) (pdb_gates db);
  ho_willing : willing (dl_service d) (dl_envelope d) (vid_phase identity)
}.

Lemma claim_succeeds consumer message_id (db : PDb) :
  validate_key consumer 128 = true → validate_key message_id 190 = true →
  succeeds (claim consumer message_id) db (λ _ db', pdb_gates db' = pdb_gates db).
Proof.
  intros H1 H2. unfold claim. rewrite H1, H2. apply succeeds_get.
  destruct (bool_decide _); [by apply succeeds_ret|]. apply succeeds_modify. by apply succeeds_ret.
Qed.

Lemma on_gates_succeeds {A} (c : Gx A) (db : PDb) (Q : A → GateTable → Prop) :
  succeeds c (pdb_gates db) Q → succeeds (on_gates c) db (λ x db', Q x (pdb_gates db')).
Proof.
  intros (x & gates & Hc & HQ). exists x, (set_gates gates db). split; [|done].
  apply on_gates_Ok. eauto.
Qed.

Lemma call_succeeds {C O} what (h : Handler C O) context command (db : PDb) :
  is_ok (h context command (pdb_business db)) = true →
  succeeds (call_handler what (h context command)) db (λ _ db', pdb_gates db' = pdb_gates db).
Proof.
  intros Hh. destruct (h context command (pdb_business db)) as [[o b]|] eqn:E; [|done].
  exists o, (set_business b db). split; [|done]. apply call_handler_Ok. eauto.
Qed.

Section honest.
Context (d : Delivery (Biz:=Biz)) (identity : VerifiedIdentity) (db : PDb).
Context (Hgates : gates_ok (pdb_gates db)) (Hon : honest d identity db).

Local Abbreviation envelope := (dl_envelope d).
Local Abbreviation gate := (gate_of identity (dl_envelope d)).
Local Abbreviation commits_ c s := (succeeds c s (λ (_ : ParticipantHandled) (_ : PDb), True)).

Lemma honest_verified : identity_ok identity ∧ verify_command_identity envelope = Ok identity.
Proof. eapply verified_identity, Hon. Qed.

Lemma honest_context : ∃ context, context_of identity envelope = Ok context.
Proof.
  pose proof (ho_payload _ _ _ Hon) as Hp. unfold verify_payload_contract in Hp. inv_result.
  unfold context_of. match goal with Hb : business_payload _ = _ |- _ => rewrite Hb end. simpl. eauto.
Qed.

Lemma head_succeeds body :
  (∀ db1, pdb_gates db1 = pdb_gates db → commits_ (body identity) db1) →
  commits_ (with_claimed steps (dl_runtime d) envelope (dl_producer d) (vid_phase identity) body) db.
Proof.
  intros Hb. unfold with_claimed. eapply succeeds_lift; [apply Hon|].
  rewrite bool_decide_true by done.
  eapply succeeds_bind; [apply claim_succeeds; apply Hon|]. intros [] db1 Hdb1; [by apply Hb|].
  by apply succeeds_ret.
Qed.

Lemma answer_succeeds handled s t reason (db1 : PDb) :
  answer_ok (vid_phase identity) s t reason →
  commits_ (then! emit_result (dl_admits d) envelope s t reason in st_ret handled) db1.
Proof.
  intros Ha. destruct honest_verified as [Hi Hv]. rewrite (ho_quota _ _ _ Hon).
  eapply succeeds_bind; [eapply emit_succeeds; try done; apply Hon|].
  intros. by apply succeeds_ret.
Qed.

(** A handler that decides is run between an admission and a settlement. *)
Lemma run_succeeds {C O} (de : Deserialize C) (h : Handler C O) what
    (k : O → PTx ParticipantHandled) (target : SagaContext Uuid → SagaContext Uuid) (db1 : PDb) :
  decides_always de h envelope →
  (∀ o db2, pdb_gates db2 = pdb_gates db1 → commits_ (k o) db2) →
  commits_ (run! context := st_lift (context_of identity envelope) in
            run! command := st_lift (decode_payload de envelope) in
            run! outcome := call_handler what (h (target context) command) in k outcome) db1.
Proof.
  intros (command & Hc & Hh) Hk. destruct honest_context as [context Hctx].
  eapply succeeds_lift; [exact Hctx|]. eapply succeeds_lift; [exact Hc|].
  eapply succeeds_bind; [apply call_succeeds; apply Hh|]. intros o db2 Hg. by apply Hk.
Qed.

Lemma safe_reason_valid c : valid_reason_code (safe_reason_code c) = true.
Proof. unfold safe_reason_code. by destruct (valid_reason_code c) eqn:E. Qed.

Lemma execute_succeeds :
  vid_phase identity = Execute →
  commits_ (handle_authenticated_execute steps (dl_runtime d) envelope (dl_producer d) (dl_admits d)
    (srv_step (dl_service d)) (desc_allow_unknown (srv_descriptor (dl_service d)))) db.
Proof.
  intros Hph. unfold handle_authenticated_execute. rewrite <-Hph. apply head_succeeds. intros db1 Hdb1.
  rewrite (effect_of_identity _ envelope (proj1 honest_verified)), Hph.
  eapply succeeds_bind.
  { apply on_gates_succeeds, admit_execute_succeeds; rewrite Hdb1; [done|apply Hon]. }
  intros [|f|] db2 Hq; simpl in Hq.
  - apply (run_succeeds _ _ _ _ id).
    { pose proof (ho_willing _ _ _ Hon) as Hw. by rewrite Hph in Hw. }
    intros o db3 Hg3. cbv zeta. destruct Hq as (row & E & Hf).
    eapply succeeds_bind.
    { eapply on_gates_succeeds, (settle_execute_succeeds gate); [by rewrite Hg3|done|].
      eexists. apply execute_verdict_reported. }
    intros _ db4 _. apply answer_succeeds. rewrite Hph.
    destruct o, (desc_allow_unknown _); (split; [done|]); (split; [done|]); simpl; intros ? [= <-];
      try apply safe_reason_valid; done.
  - destruct Hq as [s Hs]. eapply succeeds_lift; [exact Hs|]. apply answer_succeeds. rewrite Hph.
    destruct f; simpl in Hs; simplify_eq; by split_and!.
  - by apply succeeds_ret.
Qed.

Lemma adjudication_answer a :
  adjudicated a →
  answer_ok SagaIdentity.Cancel (cancel_adjudication_result a).1 (cancel_adjudication_result a).2 None.
Proof. intros Ha. destruct a as [|f|]; simpl in *; split_and!; simpl; eauto; done. Qed.

Lemma cancel_local_succeeds :
  vid_phase identity = SagaIdentity.Cancel →
  commits_ (handle_authenticated_cancel_local steps (dl_runtime d) envelope (dl_producer d)
    (dl_admits d)) db.
Proof.
  intros Hph. unfold handle_authenticated_cancel_local. rewrite <-Hph. apply head_succeeds. intros db1 Hdb1.
  rewrite (effect_of_identity _ envelope (proj1 honest_verified)), Hph.
  eapply succeeds_bind.
  { apply on_gates_succeeds, (adjudicate_cancel_succeeds gate); rewrite Hdb1; [done|apply Hon]. }
  intros a db2 Ha. cbv zeta. apply answer_succeeds. rewrite Hph. by apply adjudication_answer.
Qed.

Lemma cancel_external_succeeds canceller :
  vid_phase identity = SagaIdentity.Cancel →
  decides_always (cancel_de canceller) (step_cancel canceller) envelope →
  commits_ (handle_authenticated_cancel_external steps (dl_runtime d) envelope (dl_producer d)
    (dl_admits d) canceller) db.
Proof.
  intros Hph Hw. unfold handle_authenticated_cancel_external. rewrite <-Hph. apply head_succeeds. intros db1 Hdb1.
  rewrite (effect_of_identity _ envelope (proj1 honest_verified)), Hph.
  eapply succeeds_bind.
  { apply on_gates_succeeds, (admit_external_cancel_succeeds gate); rewrite Hdb1; [done|apply Hon]. }
  intros [|a] db2 Hq; simpl in Hq.
  - cbv zeta. apply (run_succeeds _ _ _ _ (λ c, SagaContext_with_target_phase uuid_new_v5 c Execute)); [done|].
    intros o db3 Hg3. destruct Hq as (row & E & Hc & Hf).
    eapply succeeds_bind.
    { eapply on_gates_succeeds, (settle_external_cancel_succeeds gate); [by rewrite Hg3|done..]. }
    intros _ db4 _. apply answer_succeeds. rewrite Hph.
    destruct o as [|[]|]; (split; [done|]); simpl; 
      (split; [first [done|eexists; split; [done|unfold final; by auto]]|]);
      intros ? [= <-]; apply safe_reason_valid.
  - cbv zeta. apply answer_succeeds. rewrite Hph. by apply adjudication_answer.
Qed.

Lemma compensate_succeeds :
  vid_phase identity = Compensate →
  commits_ (handle_authenticated_compensate steps (dl_runtime d) envelope (dl_producer d) (dl_admits d)
    (srv_step (dl_service d))) db.
Proof.
  intros Hph. unfold handle_authenticated_compensate. rewrite <-Hph. apply head_succeeds. intros db1 Hdb1.
  rewrite (effect_of_identity _ envelope (proj1 honest_verified)), Hph.
  eapply succeeds_bind.
  { apply on_gates_succeeds, (admit_compensation_succeeds gate); rewrite Hdb1; [done|apply Hon]. }
  intros [|k|] db2 Hq; simpl in Hq.
  - apply (run_succeeds _ _ _ _ id).
    { pose proof (ho_willing _ _ _ Hon) as Hw. rewrite Hph in Hw. apply Hw. }
    intros o db3 Hg3. cbv zeta. destruct Hq as (row & E & Hf).
    eapply succeeds_bind.
    { eapply on_gates_succeeds, (settle_compensation_succeeds gate); [by rewrite Hg3|done]. }
    intros _ db4 _. apply answer_succeeds. rewrite Hph.
    destruct o; (split; [done|]); (split; [done|]); simpl; intros ? [= <-]; apply safe_reason_valid.
  - destruct Hq as [s Hs]. eapply succeeds_lift; [exact Hs|]. apply answer_succeeds. rewrite Hph.
    destruct k; simpl in Hs; simplify_eq; (split; [done|]); (split; [done|]); intros ? [= <-]; done.
  - apply answer_succeeds. rewrite Hph. split; [done|]. split; [done|]. intros ? [= <-]. done.
Qed.

Lemma resolve_succeeds resolver :
  vid_phase identity = Resolve →
  decides_always (resolve_de resolver) (step_resolve resolver) envelope →
  commits_ (handle_authenticated_resolve steps (dl_runtime d) envelope (dl_producer d) (dl_admits d)
    resolver) db.
Proof.
  intros Hph Hw. unfold handle_authenticated_resolve. rewrite <-Hph. apply head_succeeds. intros db1 Hdb1.
  rewrite (effect_of_identity _ envelope (proj1 honest_verified)), Hph.
  eapply succeeds_bind.
  { apply on_gates_succeeds, (admit_resolution_succeeds gate); rewrite Hdb1; [done|apply Hon]. }
  intros [target|target r|] db2 Hq; simpl in Hq.
  - cbv zeta. apply (run_succeeds _ _ _ _
      (λ c, SagaContext_with_target_phase uuid_new_v5 c (target_phase target))); [done|].
    intros o db3 Hg3. destruct Hq as (row & E & Hr & Ht).
    eapply succeeds_bind.
    { eapply on_gates_succeeds, (settle_resolution_succeeds gate); [by rewrite Hg3|done..]. }
    intros _ db4 _. apply answer_succeeds. rewrite Hph.
    destruct o; (split; [done|]); (split; [done|]); simpl; intros ? [= <-]; apply safe_reason_valid.
  - destruct Hq as [s Hs]. eapply succeeds_lift; [exact Hs|]. apply answer_succeeds. rewrite Hph.
    destruct r; simpl in Hs; simplify_eq; by split_and!.
  - apply answer_succeeds. rewrite Hph. split; [done|]. split; [done|]. intros ? [= <-]. done.
Qed.

Lemma deliver_succeeds : succeeds (deliver steps d) db (λ _ _, True).
Proof.
  unfold deliver, saga_handle_command. rewrite (ho_route _ _ _ Hon).
  eapply succeeds_lift; [apply Hon|].
  destruct honest_verified as [_ Hv]. unfold verify_command_identity in Hv.
  apply verify_identity_Ok in Hv as (_ & _ & _ & _ & _ & _ & _ & Hp & _).
  assert (StepPhase_parse (cmd_phase envelope) = Some (vid_phase identity)) as ->
    by (by apply StepPhase_parse_Some).
  pose proof (ho_willing _ _ _ Hon) as Hw.
  destruct (vid_phase identity) eqn:Hph; simpl in Hw.
  - by apply execute_succeeds.
  - destruct (srv_capability _); [by apply cancel_local_succeeds|done|by apply cancel_external_succeeds].
  - destruct Hw as [-> _]. by apply compensate_succeeds.
  - destruct (srv_capability _); [done|..]; by apply resolve_succeeds.
Qed.
End honest.

(** C23. A participant answers every honest command: from any database it can
    reach, an honest command is acknowledged, whatever was done to its step
    before; and unless it was delivered before or its step is fenced by a
    cancellation, an answer with the event identity derived from the command is
    in the outbox.  So none of the store's fail-closed errors is reachable by
    such a command.  It is honest if it verifies and comes from a producer
    trusted for its workflow, version and digest; its route and its payload
    contract are those of the service, whose capabilities include the phase;
    its payload decodes and the handler reaches a verdict on it, which one that
    asks for a retry does not; the consumer's name and the identities fit the
    columns of the inbox and the outbox, a saga id having at most 190 bytes; the
    outbox quota admits the event; and its step's gate, if open, was opened with
    the same contract. *)
Theorem honest_commands_answered business log (db : PDb) d identity
    (Hreach : participant_history steps business log db) (Hon : honest d identity db) :
  ∃ handled db', deliver steps d db = Ok (handled, db') ∧
    (handled = Handled_Duplicate ∨ handled = Handled_Suppressed ∨
     ∃ r, r ∈ pdb_outbox db' ∧
       res_event_id r = derive_result_event_id (cmd_command_id (dl_envelope d))).
Proof.
  destruct (deliver_succeeds d identity db) as (handled & db' & Hd & _);
    [by eapply history_gates_ok|done|].
  exists handled, db'. split; [done|].
  destruct (history_step _ _ _ _ _ _ _ Hreach Hd) as [[-> _]|(id & a & Hc)]; [by left|]. right.
  pose proof (cm_outbox _ _ _ _ _ _ _ _ _ Hc) as Ha. unfold answered in Ha.
  destruct a as [[s t]|].
  - right. destruct Ha as (reason & _ & [Ho|[Ho (r & Hin & Hr)]]); rewrite Ho.
    + eexists. split; [apply elem_of_app; right; by apply list_elem_of_singleton|done].
    + by exists r.
  - left. destruct (cm_gates _ _ _ _ _ _ _ _ _ Hc) as (row & _ & _ & _ & _ & Hr).
    by inversion Hr.
Qed.
End answers.
