(* ===== verification/SagaParticipantScenario.v ===== *)
(** * A participant, evaluated

    A ledger that debits an account: it executes the step of the
    demonstration saga, reports its verdict to a late cancellation, and gives
    the money back.  The theorems of [SagaParticipantSafety] and
    [SagaParticipantAnswers] are instantiated on it. *)

From Stdlib Require Import ZArith Lia.
From S2P Require Import Prelude Bytes SagaIdentity SagaState SagaDefinition SagaEnvelope.
From S2P Require Import SagaStore SagaStart SagaGate SagaParticipant SagaParticipantRules.
From S2P Require Import SagaParticipantRefinement SagaParticipantSafety SagaParticipantAnswers.
From stdpp Require Import prelude strings gmap.

Local Open Scope Z_scope.
Local Open Scope rust_scope.

#[local] Existing Instance demo_runtime.

(** ** The ledger *)

Definition unit_de : Deserialize unit := mkDeserialize (λ _, Some tt) (λ _, Some tt).

(** The business table is a balance. *)
Definition ledger_step : SagaStep (Biz:=Z) :=
  {| Command := unit; CompensationCommand := unit; Product := unit;
     command_de := unit_de; compensation_de := unit_de;
     step_execute := λ _ _ balance, Ok (Outcome_Succeeded tt, balance - 10);
     step_compensate := λ _ _ balance, Ok (CompOutcome_Succeeded, balance + 10) |}.

Definition ledger_descriptor : SagaStepDescriptor :=
  mkDescriptor "application/json" "" "order" 1 "debit" Compensable LocalFenceable false None.

Definition ledger : SagaService (Biz:=Z) :=
  mkService ledger_descriptor ledger_step Capability_LocalFenceable.

Definition ledger_runtime : ParticipantRuntime :=
  mkParticipant "ledger" {[ "orchestrator" ]} {[ ("order", 1, None) := "orchestrator" ]}.

(** The command the orchestrator sends for an identity. *)
Definition demo_command (id : VerifiedIdentity) : SagaCommandEnvelope :=
  mkCommand (SagaId_as_str (vid_saga_id id)) (TenantId_as_str (vid_tenant id))
    (WorkflowName_as_str (vid_workflow id)) (DefinitionVersion_get (vid_definition_version id))
    (vid_definition_digest id) (StepName_as_str (vid_step id)) (StepPhase_as_str (vid_phase id))
    (AttemptNo_get (vid_attempt id)) (uuid_to_string (vid_effect id))
    (uuid_to_string (vid_command id)) None None None.

Definition to_ledger (phase : StepPhase) : Delivery (Biz:=Z) :=
  mkDelivery ledger_runtime ledger (demo_command (demo_identity "debit" phase 1))
    (mkServiceIdentity "orchestrator") true.

Local Abbreviation handled_by_ledger phase := (deliver [ledger_descriptor] (to_ledger phase)).

(** The tables after a committed delivery. *)
Definition left_by {A} (c : St SagaError (PDb Z) A) (db : PDb Z) : PDb Z :=
  match c db with Ok (_, db') => db' | Err _ => db end.

Definition said_by {A} (c : St SagaError (PDb Z) A) (db : PDb Z) : SagaResult A :=
  match c db with Ok (x, _) => Ok x | Err e => Err e end.

Lemma said_left {A} (c : St SagaError (PDb Z) A) db x : said_by c db = Ok x → c db = Ok (x, left_by c db).
Proof. unfold said_by, left_by. destruct (c db) as [[y db']|e]; [|done]. by intros [= ->]. Qed.

Definition ledger_opened : PDb Z := fresh_participant 100.
Definition ledger_debited : PDb Z := left_by (handled_by_ledger Execute) ledger_opened.
Definition ledger_asked : PDb Z := left_by (handled_by_ledger SagaIdentity.Cancel) ledger_debited.
Definition ledger_refunded : PDb Z := left_by (handled_by_ledger Compensate) ledger_asked.

Ltac by_evaluation := match goal with |- _ = ?r => vm_cast_no_check (@eq_refl _ r) end.
Ltac by_delivery :=
  match goal with |- ?c ?db = Ok (?x, _) =>
    let H := fresh in assert (said_by c db = Ok x) as H by by_evaluation;
    exact (said_left c db x H) end.

Lemma ledger_debits :
  handled_by_ledger Execute ledger_opened = Ok (Handled_Executed Attempt_Succeeded, ledger_debited).
Proof. by_delivery. Qed.
Lemma ledger_too_late :
  handled_by_ledger SagaIdentity.Cancel ledger_debited
  = Ok (Handled_Executed Attempt_AlreadyTerminal, ledger_asked).
Proof. by_delivery. Qed.
Lemma ledger_refunds :
  handled_by_ledger Compensate ledger_asked = Ok (Handled_Executed Attempt_Succeeded, ledger_refunded).
Proof. by_delivery. Qed.

Lemma balances :
  (pdb_business ledger_opened, pdb_business ledger_debited, pdb_business ledger_refunded) = (100, 90, 100).
Proof. by_evaluation. Qed.

Definition ledger_log : list (Delivery (Biz:=Z) * ParticipantHandled) :=
  [(to_ledger Execute, Handled_Executed Attempt_Succeeded);
   (to_ledger SagaIdentity.Cancel, Handled_Executed Attempt_AlreadyTerminal)].

Lemma ledger_asked_history : participant_history [ledger_descriptor] 100 ledger_log ledger_asked.
Proof.
  apply (history_committed _ _ [(to_ledger Execute, Handled_Executed Attempt_Succeeded)] ledger_debited);
    [|exact ledger_too_late].
  apply (history_committed _ _ [] ledger_opened); [apply history_fresh|exact ledger_debits].
Qed.

Lemma ledger_history :
  participant_history [ledger_descriptor] 100
    (ledger_log ++ [(to_ledger Compensate, Handled_Executed Attempt_Succeeded)]) ledger_refunded.
Proof. eapply history_committed; [exact ledger_asked_history|exact ledger_refunds]. Qed.

(** ** Witnesses *)

Local Abbreviation debit_key := ("saga-1", "debit").

Lemma participant_refines_protocol_witness : gates_ok (pdb_gates ledger_refunded).
Proof.
  destruct (participant_refines_protocol [ledger_descriptor] 100 ledger_log ledger_asked
    (to_ledger Compensate) (Handled_Executed Attempt_Succeeded) ledger_refunded) as [Hok _].
  - exact ledger_asked_history.
  - exact ledger_refunds.
  - exact Hok.
Defined.

Lemma execute_at_most_once_witness :
  (length (List.filter (decides Execute debit_key) ledger_log) <= 1)%nat.
Proof.
  exact (execute_at_most_once [ledger_descriptor] 100 ledger_log ledger_asked debit_key
    ledger_asked_history).
Defined.

(** The execution's success and the terminal verdict reported to the cancel. *)
Definition success_reported : SagaResultEnvelope :=
  demo_result (demo_identity "debit" Execute 1) Attempt_Succeeded None.
Definition terminal_reported : SagaResultEnvelope :=
  demo_result (demo_identity "debit" SagaIdentity.Cancel 1) Attempt_AlreadyTerminal
    (Some Forward_Succeeded).

Lemma ledger_answers : pdb_outbox ledger_asked = [success_reported; terminal_reported].
Proof. by_evaluation. Qed.

Lemma answers_never_contradict_witness :
  ∃ row, pdb_gates ledger_asked !! debit_key = Some row ∧ gate_forward_status row = Forward_Succeeded.
Proof.
  destruct (answers_never_contradict [ledger_descriptor] 100 ledger_log ledger_asked
    success_reported terminal_reported Forward_Succeeded Forward_Succeeded) as [_ Hrow].
  - exact ledger_asked_history.
  - rewrite ledger_answers. left.
  - rewrite ledger_answers. right. left.
  - reflexivity.
  - reflexivity.
  - reflexivity.
  - exact Hrow.
Defined.

Lemma compensation_undoes_success_once_witness :
  ∃ row, pdb_gates ledger_asked !! debit_key = Some row ∧ gate_forward_status row = Forward_Succeeded.
Proof.
  destruct (compensation_undoes_success_once [ledger_descriptor] 100 ledger_log ledger_asked debit_key
    ledger_asked_history) as [Hadmitted _].
  destruct (Hadmitted (to_ledger Compensate) Attempt_Succeeded ledger_refunded) as (row & Hrow & Hf & _).
  - exact ledger_refunds.
  - reflexivity.
  - exists row. split; [exact Hrow|exact Hf].
Defined.

Lemma command_redelivery_absorbed_witness :
  deliver [ledger_descriptor] (mkDelivery ledger_runtime ledger
    (demo_command (demo_identity "debit" Execute 1)) (mkServiceIdentity "orchestrator") false) ledger_asked
  = Ok (Handled_Duplicate, ledger_asked).
Proof.
  apply (command_redelivery_absorbed [ledger_descriptor] 100 ledger_log ledger_asked (to_ledger Execute)
    (Handled_Executed Attempt_Succeeded) false).
  - exact ledger_asked_history.
  - left.
Defined.

Lemma ledger_gate_free :
  gate_free (gate_of (demo_identity "debit" Compensate 1) (demo_command (demo_identity "debit" Compensate 1)))
    (pdb_gates ledger_asked).
Proof.
  set (gate := gate_of _ _).
  assert (forallb (λ kr, bool_decide (kr.1 = gate_key gate)
            && bool_decide (contract kr.2 = key_contract gate))
          (map_to_list (pdb_gates ledger_asked)) = true) as Hall by by_evaluation.
  rewrite forallb_forall in Hall.
  assert (∀ key row, pdb_gates ledger_asked !! key = Some row →
            key = gate_key gate ∧ contract row = key_contract gate) as Hrows.
  { intros key row Hrow. apply elem_of_map_to_list, list_elem_of_In, Hall, andb_true_iff in Hrow.
    by rewrite !bool_decide_eq_true in Hrow. }
  split.
  - intros row Hrow. by apply (Hrows _ _ Hrow).
  - intros key row Hrow Hne. by destruct Hne, (Hrows _ _ Hrow).
Qed.

Lemma ledger_honest : honest [ledger_descriptor] (to_ledger Compensate) (demo_identity "debit" Compensate 1) ledger_asked.
Proof.
  split.
  - by_evaluation.
  - reflexivity.
  - reflexivity.
  - reflexivity.
  - by_evaluation.
  - split; [by_evaluation|]. split; [by apply Z.leb_le; by_evaluation|done].
  - reflexivity.
  - exact ledger_gate_free.
  - split; [reflexivity|]. exists tt. by split.
Qed.

Lemma honest_commands_answered_witness :
  ∃ handled db', deliver [ledger_descriptor] (to_ledger Compensate) ledger_asked = Ok (handled, db').
Proof.
  destruct (honest_commands_answered [ledger_descriptor] 100 ledger_log ledger_asked (to_ledger Compensate)
    (demo_identity "debit" Compensate 1)) as (handled & db' & Hd & _).
  - exact ledger_asked_history.
  - exact ledger_honest.
  - exists handled, db'. exact Hd.
Defined.
