(* ===== verification/SagaConversation.v ===== *)
(** * A saga and its participants

    The composition: one saga of an orchestrator and the databases of its
    participants.  Any participant may handle any command, any number of
    times; the orchestrator hears the results its participants put into their
    outboxes, late, reordered and repeated as they may arrive, and acts on
    timers, starts and management requests.  What a saga declares is then true
    at the participants. *)

From Stdlib Require Import ZArith Lia.
From S2P Require Import Prelude Bytes SagaIdentity SagaState SagaDefinition SagaPlan SagaEnvelope.
From S2P Require Import SagaStore SagaAdminStore SagaRegistry SagaOrchestrator SagaStart SagaManagement.
From S2P Require Import SagaSafety SagaAdmin SagaEnds SagaRecovery SagaHistory SagaLife.
From S2P Require Import SagaGate SagaParticipant SagaParticipantRules SagaParticipantRefinement SagaParticipantSafety.
From stdpp Require Import prelude strings list relations gmap functions.

Local Open Scope Z_scope.
Local Open Scope rust_scope.

(** ** A journal backed by facts *)

Section backing.
Context `{Runtime} (F : StepName → StepForwardStatus → Prop) (C : StepName → StepCompensationStatus → Prop).
Context (HF : ∀ s f, unsettled f → F s f) (HC : ∀ s c, c ≠ Comp_Succeeded → C s c).

(** Every verdict of the journal is one that [F] and [C] allow. *)
Definition row_backed (row : SagaStepRow) : Prop :=
  F (row_step row) (row_forward_status row) ∧ C (row_step row) (row_compensation_status row).

Definition backed (db : Db) : Prop := ∀ row, row ∈ db_steps db → row_backed row.

Definition stays_backed (db db' : Db) : Prop := backed db → backed db'.

Definition backed_patch (step : StepName) (patch : StepJournalPatch) : Prop :=
  (∀ f, patch_forward_status patch = Some f → F step f) ∧
  (∀ c, patch_compensation_status patch = Some c → C step c).

#[local] Instance stays_backed_preorder : PreOrder stays_backed.
Proof. split; [by intros db Hd|]. intros a b c Hab Hbc Ha. auto. Qed.

#[local] Instance backed_permits : Permits backed_patch.
Proof.
  intros step patch [Hf Hc]. split; [by auto|]. intros c Hx. apply HC. intros ->. done.
Qed.

Lemma backed_same db db' : db_steps db' = db_steps db → stays_backed db db'.
Proof. unfold stays_backed, backed. by intros ->. Qed.

Lemma backed_modify (f : Db → Db) : (∀ db, db_steps (f db) = db_steps db) → Keeps stays_backed (modify f).
Proof. intros Hf. apply keeps_modify. intros db. by apply backed_same. Qed.

Lemma backed_map (f : SagaStepRow → SagaStepRow) db :
  (∀ row, row_backed row → row_backed (f row)) → stays_backed db (set_steps (map f (db_steps db)) db).
Proof.
  intros Hf Hb row (r & -> & Hr)%list_elem_of_fmap. by apply Hf, Hb.
Qed.

Lemma backed_update step (f : SagaStepRow → SagaStepRow) db :
  (∀ row, row_step row = step → row_backed row → row_backed (f row)) →
  stays_backed db (set_steps (update_step step f (db_steps db)) db).
Proof. intros Hf. apply backed_map. intros row Hr. case_bool_decide; [by apply Hf|done]. Qed.

Lemma patch_backed step patch row :
  backed_patch step patch → row_step row = step → row_backed row → row_backed (patch_row patch row).
Proof.
  intros [Hf Hc] <- [Hrf Hrc]. split; simpl.
  - destruct (patch_forward_status patch); simpl; auto.
  - destruct (patch_compensation_status patch); simpl; auto.
Qed.

Lemma mark_backed version entries : Keeps stays_backed (mark_entries version entries).
Proof.
  induction entries as [|e l IH]; simpl; [keeps|].
  intros db x db' (steps & db1 & [= <- <-] & Hr)%bind_Ok.
  destruct (has_step _ _); [|done]. apply bind_Ok in Hr as ([] & db2 & [= <-] & Hr).
  etrans; [|by eapply IH]. apply backed_update. intros row _ [Hf Hc]. split; [done|]. simpl.
  case_bool_decide; [by apply HC|done].
Qed.

Lemma register_backed index steps rows :
  (∀ row, row ∈ rows → row_backed row) → ∀ row, row ∈ register_rows index steps rows → row_backed row.
Proof.
  revert index rows. induction steps as [|s steps IH]; simpl; [done|]. intros index rows Hr. apply IH.
  destruct (has_step _ _); [done|]. intros row [Hin| ->%list_elem_of_singleton]%elem_of_app; [auto|].
  split; [apply HF; by left|by apply HC].
Qed.

Lemma started_backed step phase attempt e c :
  Keeps stays_backed (record_attempt_started step phase attempt e c).
Proof.
  unfold record_attempt_started. keeps; apply keeps_modify; intros db; [by apply backed_same|].
  apply (backed_update step). intros row _ Hr. by case_match.
Qed.

#[global] Instance backed_ledger_free : LedgerFree stays_backed.
Proof. by intros db ledger Hb. Qed.

#[local] Instance backed_closed : StoreKeeps backed_patch stays_backed.
Proof.
  split; intros.
  - exact _.
  - intros db x db' Hr. unfold update_step_journal, load_steps in Hr.
    apply bind_Ok in Hr as (? & ? & [_ ->]%lift_Ok & Hr). apply bind_Ok in Hr as (l & ? & [= <- <-] & Hr).
    destruct (has_step _ _); [|done]. injection Hr as <- <-. apply backed_update. intros row. by apply patch_backed.
  - apply started_backed.
  - unfold record_attempt_outcome. keeps. by apply backed_modify.
  - apply mark_backed.
  - unfold store_schedule_timer. keeps. by apply backed_modify.
  - unfold cancel_scope_timers. keeps. by apply backed_modify.
  - unfold complete_timer. keeps. by apply backed_modify.
  - unfold claim_due_timers. keeps. by apply backed_modify.
  - unfold release_timer. keeps. by apply backed_modify.
  - unfold record_attempt_conflict. keeps. by apply backed_modify.
  - unfold inbox_claim. keeps. by apply backed_modify.
  - unfold outbox_append. keeps. by apply backed_modify.
  - intros db out db' Ho%store_advance_spec. destruct out; [|by subst|by destruct Ho as [-> _]].
    destruct Ho as (i & _ & _ & _ & _ & _ & _ & _ & _ & ->). by apply backed_same.
  - intros db out db' Ho%create_spec. destruct out; [|by destruct Ho as [-> _]].
    destruct Ho as (_ & _ & _ & ->). by apply backed_same.
  - apply keeps_modify. intros db Hb row. by apply register_backed.
  - intros db out db' Ho%set_control_spec. destruct out; [|by destruct Ho as [-> _]|by subst].
    destruct Ho as (_ & i & _ & _ & _ & _ & _ & ->). by apply backed_same.
  - unfold record_management_operation. keeps. by apply backed_modify.
  - intros db x db' Hr. unfold reopen, load_steps in Hr. apply bind_Ok in Hr as (l & ? & [= <- <-] & Hr).
    destruct (Nat.eqb _ _); [|done]. injection Hr as <- <-. apply backed_map. intros row Hrow.
    destruct (_ && _); [|done]. by apply (patch_backed (row_step row)); [apply backed_permits|..].
  - unfold wake_saga_timers. keeps. by apply backed_modify.
Qed.
End backing.

(** ** The journal covers the workflow *)

Section covering.
Context `{Runtime} (self : Orchestrator).

(** Every step of the definition the saga runs has a row in its journal. *)
Definition journal_covers (db : Db) : Prop :=
  ∀ i, db_instance db = Some i →
    ∃ d, get_for_tenant self (inst_tenant i) (inst_workflow i) (inst_definition_version i) = Some d ∧
      ∀ s, s ∈ workflow_steps d → step_name s ∈ map row_step (db_steps db).

Lemma register_keeps_steps index steps rows n :
  n ∈ map row_step rows → n ∈ map row_step (register_rows index steps rows).
Proof.
  intros Hn. destruct (register_rows_prefix index steps rows) as [more ->].
  rewrite map_app. apply elem_of_app. by left.
Qed.

Lemma register_covers index steps rows s :
  s ∈ steps → step_name s ∈ map row_step (register_rows index steps rows).
Proof.
  revert index rows. induction steps as [|t steps IH]; intros index rows; simpl; [by intros ?%elem_of_nil|].
  intros [->|Hs]%elem_of_cons; [|by apply IH]. apply register_keeps_steps.
  destruct (has_step (step_name t) rows) eqn:E.
  - unfold has_step in E. apply existsb_exists in E as (row & Hrow & <-%bool_decide_eq_true).
    apply list_elem_of_fmap_2. by apply list_elem_of_In.
  - rewrite map_app. apply elem_of_app. right. by apply list_elem_of_singleton.
Qed.

Lemma steps_stay db db' n :
  evidence_kept db db' → n ∈ map row_step (db_steps db) → n ∈ map row_step (db_steps db').
Proof.
  intros Hk. replace (map row_step (db_steps db)) with (map fst (map (λ r, (row_step r, row_ordinal r)) (db_steps db)))
    by (by rewrite map_map).
  replace (map row_step (db_steps db')) with (map fst (map (λ r, (row_step r, row_ordinal r)) (db_steps db')))
    by (by rewrite map_map).
  destruct (kept_steps _ _ Hk) as [more ->]. rewrite map_app. intros Hn. apply elem_of_app. by left.
Qed.

(** Only a start makes an instance. *)
Lemma instance_made db db' i' :
  commits self db db' → db_instance db = None → db_instance db' = Some i' →
  ∃ others request trace auth auth' row,
    start_saga self others request trace auth auth' db = Ok (Started row, db').
Proof.
  intros Hc Hn Hi'. destruct Hc as [db db' [env now auth out a b Hr|timer token now out a b Hr|
    picked owner token now lease limit rows a b Hr|id token now at_ms out a b Hr|
    others request trace auth auth' out a b Hr|act r out a b Hr]|db ledger]; [..|simpl in Hi'; congruence].
  - apply handle_cases in Hr as [[_ ->]|(i & ? & ? & _ & Hi & _)]; congruence.
  - apply fire_cases in Hr as [[_ Hd]|(i & ? & ? & ? & ? & _ & Hi & _)]; [rewrite Hd in Hi'; simpl in Hi'|]; congruence.
  - apply claim_only_timers in Hr. rewrite Hr in Hi'. simpl in Hi'. congruence.
  - apply release_only_timers in Hr. rewrite Hr in Hi'. simpl in Hi'. congruence.
  - destruct out as [row|row]; [by exists others, request, trace, auth, auth', row|].
    apply start_cases in Hr as (plan & _ & -> & _). congruence.
  - apply manage_effects in Hr as (i & Hi & _). congruence.
Qed.

Lemma launch_covers request plan row db db' out s :
  launch self request plan row db = Ok (out, db') → s ∈ workflow_steps (plan_definition plan) →
  step_name s ∈ map row_step (db_steps db').
Proof.
  unfold launch. destruct (negb _); [|done]. intros (q & ? & _ & Hr)%bind_Ok Hs.
  destruct q; [|done]. apply bind_Ok in Hr as ([] & db1 & Hreg & Hr).
  apply (steps_stay db1); [|injection Hreg as <-; by apply register_covers].
  revert Hr. match goal with |- ?c _ = _ → _ => assert (Keeps evidence_kept c) as Hk end; [|apply Hk].
  pose proof evidence_closed. pose proof (keeps_issue_command self evidence_kept).
  pose proof (keeps_schedule_timer evidence_kept). keeps.
Qed.

Lemma commits_cover db db' : commits self db db' → journal_covers db → journal_covers db'.
Proof.
  intros Hc Hd i' Hi'. pose proof (commits_closed self evidence_kept _ _ Hc) as He.
  pose proof (commits_closed self follows _ _ Hc) as Hf. unfold follows in Hf. rewrite Hi' in Hf.
  destruct (db_instance db) as [i|] eqn:Hi.
  - destruct Hf as (log & controls & _ & _ & Hx%run_contract). destruct (Hd i Hi) as (d & Hget & Hall).
    exists d. unfold contract_of in Hx. injection Hx as _ -> -> _ -> _. split; [done|].
    intros s Hs. by eapply steps_stay, Hall.
  - destruct (instance_made _ _ _ Hc Hi Hi') as (others & request & trace & auth & auth' & row & Hs).
    apply start_cases in Hs as (plan & Hplan & -> & _ & Hl).
    pose proof (rows_launch self _ _ _ _ _ _ Hl) as [Hsame _]. simpl in Hsame. rewrite Hi' in Hsame.
    injection Hsame as ->. unfold plan_start in Hplan.
    apply result_bind_Ok in Hplan as (d & Hget%ok_or_Ok & Hplan). exists d.
    apply result_bind_Ok in Hplan as (first & _ & Hplan). apply ensure_Ok in Hplan as [_ Hplan].
    apply result_bind_Ok in Hplan as ([] & _ & Hplan). apply result_bind_Ok in Hplan as (legacy & _ & [= <-]).
    split; [done|]. intros s Hs. by eapply launch_covers.
Qed.
End covering.

(** ** The system *)

Section conversation.
Context `{Runtime} {Biz K : Type} `{!EqDecision K} (self : Orchestrator).

(** Participants by their name: the steps each binary collects, its business
    tables when it is installed, and the participant that hosts a step. *)
Context (binary : K → list SagaStepDescriptor) (installed : K → Biz) (host : string → K).

Record System := mkSystem {
  sys_saga : Db;
  sys_party : K → PDb Biz
}.

(** What the orchestrator commits without hearing a result, for this saga or,
    on the quota ledger, for others. *)
Inductive acts : Db → Db → Prop :=
| act_timer timer token now out db db' :
    fire_timer self timer token now db = Ok (out, db') → acts db db'
| act_claim picked owner token now lease limit rows db db' :
    claim_due_timers picked owner token now lease limit db = Ok (rows, db') → acts db db'
| act_release id token now at_ms out db db' :
    release_timer id token now at_ms db = Ok (out, db') → acts db db'
| act_start others request trace auth auth' out db db' :
    start_saga self others request trace auth auth' db = Ok (out, db') → acts db db'
| act_managed a r out db db' :
    manage self a r db = Ok (out, db') → acts db db'
| act_elsewhere db ledger : acts db (set_quota ledger db).

(** One committed transaction of the system.  The orchestrator hears results
    from the outbox of the participant that hosts their step; with [polled]
    off, none of them answers a RESOLVE command.  The commands a participant
    handles are arbitrary. *)
Inductive happens (polled : bool) : System → System → Prop :=
| orchestrator_hears w env now auth out db' :
    env ∈ pdb_outbox (sys_party w (host (res_step env))) →
    (polled = false → res_phase env ≠ StepPhase_as_str Resolve) →
    handle_verified_result self env now auth (sys_saga w) = Ok (out, db') →
    happens polled w (mkSystem db' (sys_party w))
| orchestrator_acts w db' :
    acts (sys_saga w) db' → happens polled w (mkSystem db' (sys_party w))
| party_handles w k d handled db' :
    deliver (binary k) d (sys_party w k) = Ok (handled, db') →
    happens polled w (mkSystem (sys_saga w) (<[k := db']> (sys_party w))).

Definition installed_system : System := mkSystem no_rows (λ k, fresh_participant (installed k)).

Definition reachable (polled : bool) (w : System) : Prop := rtc (happens polled) installed_system w.

(** *** What the participants hold *)

Definition gate_at (w : System) (saga_id : SagaId) (step : StepName) : option GateRow :=
  pdb_gates (sys_party w (host (StepName_as_str step))) !! (SagaId_as_str saga_id, StepName_as_str step).

Definition gate_forward_is (w : System) (saga_id : SagaId) (step : StepName) (f : StepForwardStatus) : Prop :=
  ∃ row, gate_at w saga_id step = Some row ∧ gate_forward_status row = f.

Definition gate_undone (w : System) (saga_id : SagaId) (step : StepName) : Prop :=
  ∃ row, gate_at w saga_id step = Some row ∧ gate_compensation_status row = Comp_Succeeded.

(** The verdicts the journal may hold. *)
Definition forward_true (polled : bool) (w : System) (saga_id : SagaId) (step : StepName)
    (f : StepForwardStatus) : Prop :=
  f = Forward_Succeeded ∨ f = Forward_Cancelled ∨ (polled = false ∧ ¬ unsettled f) →
  gate_forward_is w saga_id step f.

Definition compensation_true (polled : bool) (w : System) (saga_id : SagaId) (step : StepName)
    (c : StepCompensationStatus) : Prop :=
  polled = false → c = Comp_Succeeded → gate_undone w saga_id step.

Definition journal_true (polled : bool) (w : System) : Prop :=
  ∀ saga_id, (∀ i, db_instance (sys_saga w) = Some i → inst_saga_id i = saga_id) →
    backed (forward_true polled w saga_id) (compensation_true polled w saga_id) (sys_saga w).

Definition parties_reachable (w : System) : Prop :=
  ∀ k, ∃ log, participant_history (binary k) (installed k) log (sys_party w k).

(** *** Steps of the system *)

Lemma acts_commits db db' : acts db db' → commits self db db'.
Proof. destruct 1; [eapply commit_own; by econstructor..|apply commit_ledger]. Qed.

Lemma acts_closed R {ok} `{!StoreKeeps ok R} `{!Permits ok} `{!LedgerFree R} db db' : acts db db' → R db db'.
Proof.
  destruct 1.
  - by eapply (keeps_fire self R).
  - by eapply closed_claim.
  - by eapply closed_release.
  - by eapply (keeps_start self R).
  - by eapply (keeps_manage self R).
  - apply ledger_free.
Qed.

(** A result acts on the saga it names, or on none. *)
Lemma handle_targets env now auth db out db' :
  handle_verified_result self env now auth db = Ok (out, db') →
  ∃ identity s t, SagaResultEnvelope_verified_for_delivery env = Ok identity ∧
    SagaResultEnvelope_parsed_status env = Ok s ∧ SagaResultEnvelope_parsed_terminal env = Ok t ∧
    (db' = db ∨ ∃ i, db_instance db = Some i ∧ inst_saga_id i = vid_saga_id identity).
Proof.
  unfold handle_verified_result. intros (identity & ? & [Hid ->]%lift_Ok & Hh)%bind_Ok.
  apply bind_Ok in Hh as (s & ? & [Hs%map_err_Ok ->]%lift_Ok & Hh).
  apply bind_Ok in Hh as (t & ? & [Ht%map_err_Ok ->]%lift_Ok & Hh).
  exists identity, s, t. split_and!; [done..|]. apply authorized_Ok in Hh as (_ & Hh & _).
  apply bind_Ok in Hh as (c & db1 & [Hc Hd]%claim_footprint & Hh).
  destruct c; [|destruct (Hd eq_refl) as [_ ->]; left; by injection Hh as <- <-].
  destruct (Hc eq_refl) as [_ ->]. right. unfold load_instance in Hh.
  apply bind_Ok in Hh as (f & ? & [= Hf <-] & Hh).
  apply bind_Ok in Hh as (i & ? & [Hi%ok_or_Ok ->]%lift_Ok & Hh). subst f. simpl in Hi.
  clear Hh. destruct (db_instance db) as [j|]; [|done]. case_bool_decide; [|done]. by exists j.
Qed.

Lemma delivered_identity env identity :
  SagaResultEnvelope_verified_for_delivery env = Ok identity →
  res_saga_id env = SagaId_as_str (vid_saga_id identity) ∧
  res_step env = StepName_as_str (vid_step identity) ∧
  StepPhase_parse (res_phase env) = Some (vid_phase identity).
Proof.
  unfold SagaResultEnvelope_verified_for_delivery.
  intros (id & Hid%map_err_Ok & Hr)%result_bind_Ok. apply result_bind_Ok in Hr as ([] & _ & [= <-]).
  apply verify_identity_Ok in Hid as (_ & ? & _ & _ & _ & _ & ? & Hp & _).
  split_and!; [done..|]. by apply StepPhase_parse_Some.
Qed.

Lemma parsed_terminal env t :
  SagaResultEnvelope_parsed_terminal env = Ok t → res_terminal_status env ≫= StepForwardStatus_parse = t.
Proof.
  unfold SagaResultEnvelope_parsed_terminal. destruct (res_terminal_status env) as [raw|]; simpl; [|by intros [=]].
  destruct (StepForwardStatus_parse raw); simpl; by intros [=].
Qed.

Lemma parsed_status env s :
  SagaResultEnvelope_parsed_status env = Ok s → StepAttemptStatus_parse (res_status env) = Some s.
Proof.
  unfold SagaResultEnvelope_parsed_status. intros (x & Hx%ok_or_Ok & [_ [= <-]]%ensure_Ok)%result_bind_Ok. done.
Qed.

(** A result out of its host's outbox is evidence for what the gate holds. *)
Lemma host_vouches polled w env saga_id :
  parties_reachable w → env ∈ pdb_outbox (sys_party w (host (res_step env))) →
  (polled = false → res_phase env ≠ StepPhase_as_str Resolve) →
  (∀ identity, SagaResultEnvelope_verified_for_delivery env = Ok identity → vid_saga_id identity = saga_id) →
  envelope_vouched
    (ok:=backed_patch (forward_true polled w saga_id) (compensation_true polled w saga_id)) env.
Proof.
  intros Hreach Hin Hpoll Hid identity s t patch Hv Hs%parsed_status Ht%parsed_terminal [Hf Hc].
  specialize (Hid _ Hv). apply delivered_identity in Hv as (Esaga & Estep & Hph).
  destruct (Hreach (host (res_step env))) as [log Hlog].
  assert (gate_at w saga_id (vid_step identity)
          = pdb_gates (sys_party w (host (res_step env))) !! result_key env) as Hgate.
  { unfold gate_at, result_key. by rewrite <-Hid, Esaga, Estep. }
  assert (polled = false → vid_phase identity ≠ Resolve) as Hnr.
  { intros Hp Hr. apply (Hpoll Hp). apply StepPhase_parse_Some. congruence. }
  split.
  - intros f Hpf Hcase. destruct (Hf f Hpf) as [Hu|Hx]; [unfold unsettled in *; naive_solver|].
    unfold gate_forward_is. rewrite Hgate.
    destruct (stated_verdicts_hold _ _ _ _ env f Hlog Hin) as (_ & row & Hrow & Hx'); [|by exists row].
    unfold stated_verdict. rewrite Hph, Hs, Ht. unfold result_forward in Hx.
    destruct (vid_phase identity), s; simplify_eq/=; naive_solver.
  - intros c Hpc Hp ->. unfold gate_undone. rewrite Hgate.
    eapply compensations_hold; [done..|].
    exists (vid_phase identity), s. do 2 (split; [done|]). specialize (Hc Hpc).
    unfold result_compensates in Hc. specialize (Hnr Hp). by destruct (vid_phase identity), s.
Qed.

(** What no rule of the gate protocol takes back stays at the gate. *)
Lemma party_gate_kept (Q : Verdicts → Prop) w k d handled db' saga_id step row :
  (∀ phase rec v v' handled answer, gate_rule phase rec (Some v) v' handled answer → Q v → Q v') →
  parties_reachable w → deliver (binary k) d (sys_party w k) = Ok (handled, db') →
  gate_at w saga_id step = Some row → Q (verdicts row) →
  ∃ row', gate_at (mkSystem (sys_saga w) (<[k := db']> (sys_party w))) saga_id step = Some row' ∧
    Q (verdicts row').
Proof.
  intros Hkeep Hreach Hd. unfold gate_at. simpl. set (key := (_, _)).
  destruct (decide (k = host (StepName_as_str step))) as [->|Hne];
    [rewrite fn_lookup_insert|rewrite fn_lookup_insert_ne by done; by eauto].
  destruct (Hreach (host (StepName_as_str step))) as [log Hlog].
  destruct (history_step _ _ _ _ _ _ _ Hlog Hd) as [[_ ->]|(id & a & Hc)]; [by eauto|].
  apply (committed_gate _ _ _ _ _ _ _ _ _ key) in Hc.
  case_bool_decide; [|rewrite Hc; by eauto]. destruct Hc as (row' & -> & Hr). intros Hrow HQ.
  rewrite Hrow in Hr. eauto.
Qed.

Lemma reachable_parties polled w : reachable polled w → parties_reachable w.
Proof.
  apply (rtc_ind_r parties_reachable).
  - intros k. exists []. apply history_fresh.
  - clear w. intros w w' _ Hs IH. destruct Hs as [w env now auth out db' _ _ _|w db' _|w k d handled db' Hd]; [done..|].
    intros k'. simpl. destruct (decide (k = k')) as [->|Hne];
      [rewrite fn_lookup_insert|by rewrite fn_lookup_insert_ne].
    destruct (IH k') as [log Hlog]. eexists. by eapply history_committed.
Qed.

(** A verdict that backs the journal is one no rule takes back. *)
Lemma forward_true_settled polled f :
  f = Forward_Succeeded ∨ f = Forward_Cancelled ∨ (polled = false ∧ ¬ unsettled f) →
  SagaParticipantSafety.settled f.
Proof. unfold SagaParticipantSafety.settled, final, unsettled. destruct f; naive_solver. Qed.

Lemma forward_true_unsettled polled w saga_id step f :
  unsettled f → forward_true polled w saga_id step f.
Proof. unfold forward_true, unsettled. naive_solver. Qed.

Lemma compensation_true_open polled w saga_id step c :
  c ≠ Comp_Succeeded → compensation_true polled w saga_id step c.
Proof. by intros Hc _ ->. Qed.

Lemma backed_mono (F F' : StepName → StepForwardStatus → Prop) (C C' : StepName → StepCompensationStatus → Prop) db :
  (∀ s f, F s f → F' s f) → (∀ s c, C s c → C' s c) → backed F C db → backed F' C' db.
Proof. intros HF HC Hb row Hrow. destruct (Hb row Hrow). split; auto. Qed.

#[local] Instance journal_permits polled w saga_id :
  Permits (backed_patch (forward_true polled w saga_id) (compensation_true polled w saga_id)).
Proof. apply backed_permits; [apply forward_true_unsettled|apply compensation_true_open]. Qed.
#[local] Instance journal_closed polled w saga_id :
  StoreKeeps (backed_patch (forward_true polled w saga_id) (compensation_true polled w saga_id))
    (stays_backed (forward_true polled w saga_id) (compensation_true polled w saga_id)).
Proof. apply backed_closed; [apply forward_true_unsettled|apply compensation_true_open]. Qed.

Lemma saga_id_before db db' saga_id :
  commits self db db' → (∀ i, db_instance db' = Some i → inst_saga_id i = saga_id) →
  ∀ i, db_instance db = Some i → inst_saga_id i = saga_id.
Proof.
  intros Hc Hid i Hi. pose proof (commits_closed self follows _ _ Hc) as Hf. unfold follows in Hf.
  rewrite Hi in Hf. destruct (db_instance db') as [i'|] eqn:Hi'; [|done].
  destruct Hf as (log & controls & _ & _ & Hx%run_contract). rewrite <-(Hid i' eq_refl).
  unfold contract_of in Hx. congruence.
Qed.

Lemma party_keeps_journal polled w k d handled db' saga_id :
  parties_reachable w → deliver (binary k) d (sys_party w k) = Ok (handled, db') →
  let w' := mkSystem (sys_saga w) (<[k := db']> (sys_party w)) in
  backed (forward_true polled w saga_id) (compensation_true polled w saga_id) (sys_saga w) →
  backed (forward_true polled w' saga_id) (compensation_true polled w' saga_id) (sys_saga w).
Proof.
  intros Hreach Hd w'. apply backed_mono.
  - intros s f Hf Hcase. destruct (Hf Hcase) as (row & Hrow & Hx).
    destruct (party_gate_kept (λ v, v_forward v = f) w k d handled db' saga_id s row) as (row' & ? & ?);
      [|done..|by exists row'].
    intros phase rec v v' h a Hr Hv. apply gate_rule_settled in Hr; [congruence|].
    rewrite Hv. by eapply forward_true_settled.
  - intros s c Hc Hp Hs. destruct (Hc Hp Hs) as (row & Hrow & Hx).
    destruct (party_gate_kept (λ v, v_compensation v = Comp_Succeeded) w k d handled db' saga_id s row)
      as (row' & ? & ?); [|done..|by exists row'].
    intros phase rec v v' h a Hr Hv. by eapply gate_rule_undone.
Qed.

Lemma journal_true_step polled w w' :
  parties_reachable w → happens polled w w' → journal_true polled w → journal_true polled w'.
Proof.
  intros Hreach Hs Hj. destruct Hs as [w env now auth out db' Hin Hpoll Hh|w db' Ha|w k d handled db' Hd];
    intros saga_id Hid; simpl in *.
  - assert (commits self (sys_saga w) db') as Hc by (eapply commit_own; by econstructor).
    pose proof (saga_id_before _ _ _ Hc Hid) as Hid0.
    destruct (handle_targets _ _ _ _ _ _ Hh) as (identity & s & t & Hv & _ & _ & [->|(i & Hi & Hsame)]);
      [by apply Hj|].
    eapply (keeps_handle self (stays_backed _ _)); [exact _..| |exact Hh|by apply Hj].
    apply host_vouches; [done..|]. intros identity' Hv'. rewrite Hv in Hv'. injection Hv' as <-.
    rewrite <-Hsame. by apply Hid0.
  - pose proof (saga_id_before _ _ _ (acts_commits _ _ Ha) Hid) as Hid0.
    eapply (acts_closed (stays_backed _ _)); [exact _..|exact Ha|by apply Hj].
  - eapply party_keeps_journal; [done..|]. by apply Hj.
Qed.

Lemma reachable_journal polled w : reachable polled w → journal_true polled w.
Proof.
  intros Hr. assert (parties_reachable w ∧ journal_true polled w) as [_ Hj]; [|done].
  revert w Hr. apply (rtc_ind_r (λ w, parties_reachable w ∧ journal_true polled w)).
  - split; [|by intros saga_id _ row Hrow%elem_of_nil]. intros k. exists []. apply history_fresh.
  - intros w w' Hr Hs [Hp Hj]. split; [|by eapply journal_true_step].
    eapply (reachable_parties polled). by eapply rtc_r.
Qed.

Lemma happens_commits polled w w' :
  happens polled w w' → sys_saga w' = sys_saga w ∨ commits self (sys_saga w) (sys_saga w').
Proof.
  destruct 1; [right; eapply commit_own; by econstructor|right; by apply acts_commits|by left].
Qed.

Lemma reachable_kept polled w (P : Db → Prop) :
  (∀ db db', commits self db db' → P db → P db') → P no_rows → reachable polled w → P (sys_saga w).
Proof.
  intros Hk H0. apply (rtc_ind_r (λ w, P (sys_saga w))); [done|].
  intros w1 w2 _ [->|Hc]%happens_commits Hp; [done|]. by eapply Hk.
Qed.

(** C1. A completed saga took effect: in every state the orchestrator and the
    participants can reach together, whatever commands the participants are
    given and however late, often and disordered their results arrive, if the
    saga is [COMPLETED] then every step of the workflow definition it runs has
    succeeded at the gate of the participant that hosts it. *)
Theorem completed_saga_took_effect polled w i (Hreach : reachable polled w)
    (Hi : db_instance (sys_saga w) = Some i) (Hdone : inst_status i = Completed) :
  ∃ d, get_for_tenant self (inst_tenant i) (inst_workflow i) (inst_definition_version i) = Some d ∧
    ∀ s, s ∈ workflow_steps d → gate_forward_is w (inst_saga_id i) (step_name s) Forward_Succeeded.
Proof.
  destruct (reachable_kept polled w (journal_covers self) (commits_cover self)) with i as (d & Hd & Hall);
    [done..|]. exists d. split; [done|]. intros s Hs.
  assert (all_forward_succeeded (sys_saga w)) as Hf.
  { apply (reachable_kept polled w complete_on_evidence (commits_complete self)); [done..|].
    unfold status_of. rewrite Hi. simpl. by rewrite Hdone. }
  apply Hall in Hs. apply list_elem_of_fmap in Hs as (row & Hname & Hrow). rewrite Hname.
  destruct (reachable_journal polled w Hreach (inst_saga_id i)) with row as [Ht _]; [|done|].
  - intros j Hj. congruence.
  - unfold all_forward_succeeded in Hf. rewrite list.Forall_forall in Hf. rewrite (Hf row Hrow) in Ht. apply Ht. by left.
Qed.

(** Where a saga is declared compensated. *)
Lemma declares_compensated polled w w' :
  happens polled w w' → status_of (sys_saga w) ≠ Some Compensated →
  status_of (sys_saga w') = Some Compensated → all_effects_undone (sys_saga w').
Proof.
  intros Hs Hn Hc. destruct Hs as [w env now auth out db' _ _ Hr|w db' Ha|w k d handled db' _]; simpl in *; [| |done].
  - destruct out as [s|].
    + destruct (handle_settled _ _ _ _ _ _ _ Hr) as (i & Hi & [[Hi' ->]|(Hs & _ & Hu)]).
      * unfold status_of in *. rewrite Hi, Hi' in *. done.
      * apply Hu. congruence.
    + apply handle_cases in Hr as [[_ ->]|(i & s & db1 & [=] & _)]. done.
  - destruct Ha as [timer token now out db db' Hr|picked owner token now lease limit rows db db' Hr|
      id token now at_ms out db db' Hr|others request trace auth auth' out db db' Hr|a r out db db' Hr|db ledger]; [..|done].
    + apply fire_cases in Hr as [[_ Hd]|(i & s & d & scope & db1 & _ & Hi & _ & _ & Hcom & Hj)].
      * rewrite Hd in Hc. done.
      * destruct (fire_judged _ _ _ _ _ _ _ _ _ _ _ Hi Hcom Hj) as (_ & Hs & Ht).
        rewrite Hs in Hc. injection Hc as ->. by destruct Ht as [|[|[|]]].
    + apply claim_only_timers in Hr. rewrite Hr in Hc. done.
    + apply release_only_timers in Hr. rewrite Hr in Hc. done.
    + apply start_cases in Hr as (plan & _ & Hr). destruct out as [row|row]; [|by destruct Hr as [-> _]].
      destruct Hr as (-> & _ & [Hi _]%rows_launch). unfold status_of in Hc. rewrite Hi in Hc. done.
    + apply manage_effects in Hr as (i & Hi & _ & _ & _ & Hcase).
      destruct Hcase as [[-> _]|[(from & to & _ & _ & _ & _ & Hd)|
        (action & act & s & _ & _ & _ & _ & _ & _ & Hs & _ & _ & Hu)]].
      * done.
      * rewrite Hd in Hc. unfold status_of in *. rewrite Hi in Hn. simpl in *. done.
      * apply Hu. congruence.
Qed.

(** C2. A compensated saga left nothing standing: when the orchestrator and the
    participants, without polling for resolutions, reach a state that declares
    the saga [COMPENSATED], every step of its journal was never reached, or was
    rejected or cancelled at the gate of its participant, or succeeded there and
    was undone there.  A step was reached if its row has left [PENDING]; nothing
    is said of the gate of one that has not. *)
Theorem compensated_saga_left_nothing w w' i (Hreach : reachable false w) (Hstep : happens false w w')
    (Hbefore : status_of (sys_saga w) ≠ Some Compensated)
    (Hi : db_instance (sys_saga w') = Some i) (Hdone : inst_status i = Compensated)
    (row : SagaStepRow) (Hrow : row ∈ db_steps (sys_saga w')) :
  match row_forward_status row with
  | Forward_Pending => True
  | Forward_Rejected => gate_forward_is w' (inst_saga_id i) (row_step row) Forward_Rejected
  | Forward_Cancelled => gate_forward_is w' (inst_saga_id i) (row_step row) Forward_Cancelled
  | Forward_Succeeded => gate_forward_is w' (inst_saga_id i) (row_step row) Forward_Succeeded ∧
                         gate_undone w' (inst_saga_id i) (row_step row)
  | _ => False
  end.
Proof.
  assert (all_effects_undone (sys_saga w')) as Hu.
  { eapply declares_compensated; [done..|]. unfold status_of. rewrite Hi. simpl. by rewrite Hdone. }
  unfold all_effects_undone in Hu. rewrite list.Forall_forall in Hu. destruct (Hu row Hrow) as [Hset Hundone].
  destruct (reachable_journal false w' (rtc_r _ _ _ Hreach Hstep) (inst_saga_id i)) with row as [Hf Hc];
    [intros j Hj; congruence|done|].
  unfold forward_true, unsettled in Hf. specialize (Hc eq_refl).
  destruct (row_forward_status row); try done; [split; [apply Hf; by left|by apply Hc, Hundone]|
    apply Hf; right; right; naive_solver|apply Hf; by right; left].
Qed.
End conversation.
