(* ===== verification/SagaConversationScenario.v ===== *)
(** * Conversations, evaluated

    A script of moves is played on the orchestrator and its participants: a
    saga completes, a saga is compensated, and a late resolution answer is
    taken for another one.  The theorems of [SagaConversation] are instantiated
    on the first two. *)

From Stdlib Require Import ZArith Lia.
From S2P Require Import Prelude Bytes SagaIdentity SagaState SagaDefinition SagaPlan SagaEnvelope.
From S2P Require Import SagaStore SagaAdminStore SagaRegistry SagaOrchestrator SagaStart SagaManagement.
From S2P Require Import SagaSafety SagaAdmin SagaEnds SagaRecovery SagaHistory SagaLife SagaQuota.
From S2P Require Import SagaScenario SagaLifeScenario SagaGate SagaParticipant SagaParticipantRules.
From S2P Require Import SagaParticipantRefinement SagaParticipantSafety SagaParticipantScenario SagaConversation.
From stdpp Require Import prelude strings list relations gmap functions.

Local Open Scope Z_scope.
Local Open Scope rust_scope.

#[local] Existing Instance demo_runtime.

(** ** Scripts *)

(** A move: the saga is started; the [n]-th command of its outbox is given to a
    participant; the [n]-th result of a participant's outbox is heard; timers
    are claimed; a timer fires. *)
Inductive Move :=
| Begin
| Give (k : string) (service : SagaService (Biz:=unit)) (n : nat)
| Hear (k : string) (n : nat)
| Claim_due (now : Z)
| Fire (timer : SagaTimerRow) (now : Z).

Section script.
Context (self : Orchestrator) (binary : list SagaStepDescriptor).

Local Abbreviation System := (System (Biz:=unit) (K:=string)).

Definition party_runtime : ParticipantRuntime :=
  mkParticipant "party" {[ "orchestrator" ]} {[ ("order", 1, None) := "orchestrator" ]}.

Definition commit_saga {A} (c : Tx A) (w : System) : option System :=
  match c (sys_saga w) with Ok (_, db) => Some (mkSystem db (sys_party w)) | Err _ => None end.

Definition perform (m : Move) (w : System) : option System :=
  match m with
  | Begin => commit_saga (start_saga self [] order_request None (Ok tt) granted) w
  | Give k service n =>
      command ← db_outbox (sys_saga w) !! n;
      match deliver binary (mkDelivery party_runtime service command (mkServiceIdentity "orchestrator") true)
              (sys_party w k) with
      | Ok (_, db) => Some (mkSystem (sys_saga w) (<[k := db]> (sys_party w)))
      | Err _ => None
      end
  | Hear k n =>
      env ← pdb_outbox (sys_party w k) !! n;
      if bool_decide (res_step env = k)
      then commit_saga (handle_verified_result self env 2000 granted) w else None
  | Claim_due now => commit_saga (claim_due_timers (λ _, true) "worker" "token" now 30000 16) w
  | Fire timer now => commit_saga (fire_timer self timer "token" now) w
  end.

Fixpoint play (moves : list Move) (w : System) : option System :=
  match moves with
  | [] => Some w
  | m :: rest => w' ← perform m w; play rest w'
  end.

Local Abbreviation happens := (happens self (λ _, binary) (λ k, k)).

(** With [polled] off, no answer to a RESOLVE command is heard. *)
Definition quiet_move (m : Move) (w : System) : bool :=
  match m with
  | Hear k n =>
      match pdb_outbox (sys_party w k) !! n with
      | Some env => negb (bool_decide (res_phase env = StepPhase_as_str Resolve))
      | None => true
      end
  | _ => true
  end.

Fixpoint quiet_script (moves : list Move) (w : System) : bool :=
  match moves with
  | [] => true
  | m :: rest => quiet_move m w && match perform m w with Some w' => quiet_script rest w' | None => true end
  end.

Lemma commit_saga_Some {A} (c : Tx A) w w' :
  commit_saga c w = Some w' → ∃ x db, c (sys_saga w) = Ok (x, db) ∧ w' = mkSystem db (sys_party w).
Proof. unfold commit_saga. destruct (c (sys_saga w)) as [[x db]|]; [|done]. intros [= <-]. eauto. Qed.

Lemma perform_happens polled m w w' :
  perform m w = Some w' → (polled = false → quiet_move m w = true) → happens polled w w'.
Proof.
  destruct m as [|k service n|k n|now|timer now]; simpl; intros Hp Hq.
  - apply commit_saga_Some in Hp as (x & db & Hr & ->). apply orchestrator_acts. by econstructor.
  - destruct (db_outbox (sys_saga w) !! n) as [command|]; [|done]. simpl in Hp.
    destruct (deliver _ _ _) as [[x db]|] eqn:Hr; [|done]. injection Hp as <-. by econstructor.
  - destruct (pdb_outbox (sys_party w k) !! n) as [env|] eqn:Hn; [|done]. simpl in Hp.
    destruct (bool_decide_reflect (res_step env = k)) as [<-|]; [|done]. apply commit_saga_Some in Hp as (x & db & Hr & ->).
    eapply orchestrator_hears; [by eapply list_elem_of_lookup_2| |exact Hr].
    intros Hpoll. specialize (Hq Hpoll). by apply negb_true_iff, bool_decide_eq_false in Hq.
  - apply commit_saga_Some in Hp as (x & db & Hr & ->). apply orchestrator_acts. by econstructor.
  - apply commit_saga_Some in Hp as (x & db & Hr & ->). apply orchestrator_acts. by econstructor.
Qed.

Lemma play_reaches polled moves w w' :
  play moves w = Some w' → (polled = false → quiet_script moves w = true) → rtc (happens polled) w w'.
Proof.
  revert w. induction moves as [|m rest IH]; simpl; intros w Hp Hq; [injection Hp as <-; apply rtc_refl|].
  destruct (perform m w) as [w1|] eqn:Hm; [|done]. simpl in Hp. eapply rtc_l.
  - eapply perform_happens; [exact Hm|]. intros Hpoll. specialize (Hq Hpoll). by apply andb_true_iff in Hq as [? _].
  - apply IH; [done|]. intros Hpoll. specialize (Hq Hpoll). by apply andb_true_iff in Hq as [_ ?].
Qed.
End script.

(** ** Participants *)

Section services.
Local Abbreviation always o := (λ _ _ (business : unit), Ok (o, business)).

(** A service that answers the same every time. *)
Definition steady (step : string) (compensation : Compensation) (execute : SagaOutcome unit)
    (undo : CompensationOutcome) (resolve : option (SagaOutcome unit)) : SagaService (Biz:=unit) :=
  mkService
    (mkDescriptor "application/json" "" "order" 1 step compensation
       (if is_none resolve then LocalFenceable else ResolveOnly) (negb (is_none resolve))
       (if is_none resolve then None else Some Poll))
    {| Command := unit; CompensationCommand := unit; Product := unit;
       command_de := unit_de; compensation_de := unit_de;
       step_execute := always execute; step_compensate := always undo |}
    (match resolve with
     | Some outcome =>
         Capability_ResolveOnly
           {| ResolveCommand := unit; ResolveProduct := unit; resolve_de := unit_de;
              step_resolve := always outcome |}
     | None => Capability_LocalFenceable
     end).

Definition debit_ok : SagaService := steady "debit" Compensable (Outcome_Succeeded tt) CompOutcome_Succeeded None.
Definition notify_ok : SagaService := steady "notify" NonCompensable (Outcome_Succeeded tt) CompOutcome_Succeeded None.
Definition notify_refuses : SagaService :=
  steady "notify" NonCompensable (Outcome_Rejected "closed") CompOutcome_Succeeded None.
End services.

Definition two_steps : list SagaStepDescriptor := [srv_descriptor debit_ok; srv_descriptor notify_ok].

Local Abbreviation nothing := (installed_system (Biz:=unit) (λ _ : string, tt)).

Definition completing : list Move :=
  [Begin; Give "debit" debit_ok 0; Hear "debit" 0; Give "notify" notify_ok 1; Hear "notify" 0].

Definition compensating : list Move :=
  [Begin; Give "debit" debit_ok 0; Hear "debit" 0; Give "notify" notify_refuses 1; Hear "notify" 0;
   Give "debit" debit_ok 2].

Definition played (self : Orchestrator) (binary : list SagaStepDescriptor) (moves : list Move) :=
  default nothing (play self binary moves nothing).

(** ** Witnesses *)

Lemma played_reachable polled self binary moves :
  is_none (play self binary moves nothing) = false →
  (polled = false → quiet_script self binary moves nothing = true) →
  reachable self (λ _, binary) (λ _, tt) (λ k, k) polled (played self binary moves).
Proof.
  unfold played. intros Hp Hq. destruct (play self binary moves nothing) as [w|] eqn:E; [|done].
  by eapply play_reaches.
Qed.

Definition instance_of (w : System (Biz:=unit) (K:=string)) : SagaInstanceRow :=
  default demo_instance (db_instance (sys_saga w)).

Lemma instance_of_Some w s : status_of (sys_saga w) = Some s → db_instance (sys_saga w) = Some (instance_of w).
Proof. unfold status_of, instance_of. by destruct (db_instance (sys_saga w)). Qed.

Lemma instance_of_status w s : status_of (sys_saga w) = Some s → inst_status (instance_of w) = s.
Proof. unfold status_of, instance_of. destruct (db_instance (sys_saga w)); [|done]. by intros [= <-]. Qed.

Lemma completing_done : status_of (sys_saga (played desk two_steps completing)) = Some Completed.
Proof. by_running. Qed.

Lemma completed_saga_took_effect_witness :
  ∃ d, get_for_tenant desk (inst_tenant (instance_of (played desk two_steps completing)))
         (inst_workflow (instance_of (played desk two_steps completing)))
         (inst_definition_version (instance_of (played desk two_steps completing))) = Some d ∧
    ∀ s, s ∈ workflow_steps d →
      gate_forward_is (λ k, k) (played desk two_steps completing)
        (inst_saga_id (instance_of (played desk two_steps completing))) (step_name s) Forward_Succeeded.
Proof.
  apply (completed_saga_took_effect desk (λ _, two_steps) (λ _, tt) (λ k, k) true).
  - apply played_reachable; [by_running|done].
  - exact (instance_of_Some _ _ completing_done).
  - exact (instance_of_status _ _ completing_done).
Defined.

Lemma play_last self binary moves m w :
  play self binary (moves ++ [m]) w = play self binary moves w ≫= perform self binary m.
Proof.
  revert w. induction moves as [|m0 moves IH]; simpl; intros w.
  - by destruct (perform self binary m w).
  - destruct (perform self binary m0 w); simpl; auto.
Qed.

Definition compensating_end : list Move := compensating ++ [Hear "debit" 1].

Lemma compensating_before : status_of (sys_saga (played desk two_steps compensating)) = Some Compensating.
Proof. by_running. Qed.
Lemma compensating_done : status_of (sys_saga (played desk two_steps compensating_end)) = Some Compensated.
Proof. by_running. Qed.
Lemma compensating_quiet : quiet_script desk two_steps compensating nothing = true.
Proof. by_running. Qed.

Lemma compensating_last :
  happens desk (λ _, two_steps) (λ k, k) false
    (played desk two_steps compensating) (played desk two_steps compensating_end).
Proof.
  apply (perform_happens desk two_steps false (Hear "debit" 1)); [|intros _; by_running].
  assert (is_none (play desk two_steps compensating_end nothing) = false) as Hp by by_running.
  unfold played. unfold compensating_end in *. rewrite play_last in *.
  destruct (play desk two_steps compensating nothing) as [w|]; [|done].
  cbn [mbind option_bind default from_option id] in *.
  by destruct (perform desk two_steps (Hear "debit" 1) w).
Qed.

(** The row of the step that was undone. *)
Definition debit_row (w : System (Biz:=unit) (K:=string)) : SagaStepRow :=
  default (mkStepRow (mkStepName "debit") 1 Forward_Pending Cancel_None Comp_None Resolution_None
             None None None None None None None None None None None None None None None)
    (head (db_steps (sys_saga w))).

Lemma debit_row_in : debit_row (played desk two_steps compensating_end) ∈ db_steps (sys_saga (played desk two_steps compensating_end)).
Proof.
  unfold debit_row. assert (is_none (head (db_steps (sys_saga (played desk two_steps compensating_end)))) = false)
    as Hh by by_running.
  destruct (db_steps _); [done|left].
Qed.

Lemma compensated_saga_left_nothing_witness :
  gate_undone (λ k, k) (played desk two_steps compensating_end)
    (inst_saga_id (instance_of (played desk two_steps compensating_end)))
    (row_step (debit_row (played desk two_steps compensating_end))).
Proof.
  pose proof (compensated_saga_left_nothing desk (λ _, two_steps) (λ _, tt) (λ k, k)
    (played desk two_steps compensating) (played desk two_steps compensating_end)
    (instance_of (played desk two_steps compensating_end))) as Hall.
  assert (row_forward_status (debit_row (played desk two_steps compensating_end)) = Forward_Succeeded)
    as Hf by by_running.
  specialize (Hall (played_reachable false desk two_steps compensating eq_refl (λ _, compensating_quiet))
    compensating_last).
  rewrite compensating_before in Hall. specialize (Hall ltac:(discriminate)
    (instance_of_Some _ _ compensating_done) (instance_of_status _ _ compensating_done)
    (debit_row (played desk two_steps compensating_end)) debit_row_in).
  rewrite Hf in Hall. exact (proj2 Hall).
Defined.

(** ** A late resolution *)

(** A participant that does not know whether it took effect, learns that it did,
    and does not know whether it was undone. *)
Definition debit_unsure : SagaService :=
  steady "debit" Compensable (Outcome_Unknown "unsure") (CompOutcome_Unknown "unsure")
    (Some (Outcome_Succeeded tt)).

Definition polling_steps : list SagaStepDescriptor := [srv_descriptor debit_unsure; srv_descriptor notify_ok].

Definition polling_definition : WorkflowDefinition :=
  mkWorkflowDefinition (mkWorkflowName "order") (mkDefinitionVersion 1)
    [StepDefinition_new (mkStepName "debit") (mkServiceIdentity "ledger") Compensable ResolveOnly
       (ResolutionSpec_allowed Poll 60000000000) 5000000000 AcceptLateSuccess;
     sample_step "notify" NonCompensable 5000000000].

Definition poller : Orchestrator :=
  mkOrchestrator OrchestratorConfig_default
    (mkRegistry {[ ("order", 1) := mkEntry polling_definition true ]} ∅)
    (λ _, true) (λ _ _ _, Ok Rate_Reserved).

Definition first_resolve_timer : SagaTimerRow :=
  {| st_timer_id := derive_timer_id (mkSagaId "saga-1") (Scope_Step (mkStepName "debit"))
                      KIND_RESOLVE_TIMEOUT AttemptNo_FIRST;
     st_saga_id := mkSagaId "saga-1";
     st_scope_kind := TimerScope_kind_str (Scope_Step (mkStepName "debit"));
     st_scope_key := TimerScope_key_str (Scope_Step (mkStepName "debit"));
     st_kind := KIND_RESOLVE_TIMEOUT; st_attempt := AttemptNo_FIRST; st_expected_saga_version := 2 |}.

(** The debit is unsure; its first poll times out and is repeated; the
    participant answers the second poll and then the first, and only the second
    answer arrives; the next step refuses, the debit is to be undone and is
    unsure again; now the answer to the first poll arrives. *)
Definition late_answer : list Move :=
  [Begin; Give "debit" debit_unsure 0; Hear "debit" 0; Claim_due 7500; Fire first_resolve_timer 8000;
   Give "debit" debit_unsure 2; Give "debit" debit_unsure 1; Hear "debit" 1;
   Give "notify" notify_refuses 3; Hear "notify" 0; Give "debit" debit_unsure 4; Hear "debit" 3;
   Hear "debit" 2].

(** C36. A late answer can be taken for another one: a result of an earlier
    RESOLVE attempt, which stated that the forward effect took place, is adopted
    as the answer to the poll whether the compensation took place.  A reachable
    state of the orchestrator and its participants declares the saga
    [COMPENSATED] while the debit stands at its participant's gate and its
    compensation is of unknown outcome. *)
Theorem late_resolution_declares_compensated :
  ∃ w, reachable poller (λ _, polling_steps) (λ _, tt) (λ k, k) true w ∧
    status_of (sys_saga w) = Some Compensated ∧
    ∃ row, gate_at (λ k, k) w (mkSagaId "saga-1") (mkStepName "debit") = Some row ∧
      gate_forward_status row = Forward_Succeeded ∧ gate_compensation_status row = Comp_Unknown.
Proof.
  exists (played poller polling_steps late_answer). split; [apply played_reachable; [by_running|done]|].
  split; [by_running|].
  assert ((λ row, (gate_forward_status row, gate_compensation_status row)) <$>
    gate_at (λ k, k) (played poller polling_steps late_answer) (mkSagaId "saga-1") (mkStepName "debit")
    = Some (Forward_Succeeded, Comp_Unknown)) as Hrow by by_running.
  destruct (gate_at _ _ _ _) as [row|]; [|done]. injection Hrow as Hf Hc. by exists row.
Qed.
