(* ===== verification/KafkaOffset.v ===== *)
(** * The partition watermark of the Kafka consumer

    Models [nafka/src/consumer/offset_state.rs]: the per-partition progress
    ([PartitionOffsetState]) and the per-owner coordinator ([GroupOffsetState])
    that decide which next-offset may be committed.  A method that takes
    [&mut self] returns the new state next to its result; [usize] and [i64]
    values are integers.  [BTreeMap<Tp, _>] is a finite map whose iteration is
    in the order of its keys. *)

From Stdlib Require Import ZArith Lia.
From S2P Require Import Prelude.
From stdpp Require Import prelude strings gmap sorting.

Local Open Scope Z_scope.
Local Open Scope rust_scope.

(** ** Partitions *)

Record Tp := mkTp { topic : string; partition : Z }.

#[global] Instance Tp_eq_dec : EqDecision Tp.
Proof. solve_decision. Defined.
#[global] Instance Tp_countable : Countable Tp.
Proof.
  by refine (inj_countable' (λ t, (topic t, partition t)) (λ p, mkTp p.1 p.2) _); intros [].
Defined.

(** [#[derive(PartialOrd, Ord)]]: topic first, then partition. *)
Definition Tp_leb (a b : Tp) : bool :=
  match String.compare (topic a) (topic b) with
  | Lt => true
  | Eq => partition a <=? partition b
  | Gt => false
  end.

(** ** Outcomes and errors *)

Inductive OffsetStateError :=
| EpochMismatch (expected actual : Z)
| NonIncreasingOffset (previous actual : Z)
| NextOffsetOverflow (offset : Z)
| InvalidCommitConfirmation (expected : option Z) (actual : Z)
| PartitionProgressFull (tp : Tp) (max : Z)
| GroupProgressFull (max : Z).

Definition OffsetStateError_is_capacity (self : OffsetStateError) : bool :=
  match self with
  | PartitionProgressFull _ _ | GroupProgressFull _ => true
  | _ => false
  end.

Abbreviation OffsetResult T := (result T OffsetStateError).

Inductive AckSource := AutoOnSuccess | ManualAck.

Inductive PassthroughSkipReason := NoLocalTarget | TargetNodeMismatch | Loopback | StaleSource.

Inductive SkipReason :=
| InvalidRecord
| UnmatchedRoute
| Tombstone
| AvailabilityFirst
| Passthrough (reason : PassthroughSkipReason).

Inductive RecordOutcome :=
| Acknowledged (source : AckSource)
| Skipped (reason : SkipReason)
| DeadLettered
| Failed
| Unprocessed.

Definition RecordOutcome_is_safe (self : RecordOutcome) : bool :=
  match self with
  | Acknowledged _ | Skipped _ | DeadLettered => true
  | Failed | Unprocessed => false
  end.

Record ObservedOutcome := mkObserved { offset : Z; outcome : RecordOutcome }.

Definition safe (o : ObservedOutcome) : bool := RecordOutcome_is_safe (outcome o).

Record PartitionProgress := mkProgress {
  assignment_epoch : Z;
  observed : list ObservedOutcome
}.

Record PartitionOffsetState := mkPartition {
  baseline : Z;
  last_confirmed : option Z;
  in_flight : option PartitionProgress
}.

(** ** One partition *)

Definition PartitionOffsetState_new (committed : option Z) (resolved_start : Z)
    : OffsetResult PartitionOffsetState :=
  if (match committed with Some offset => offset <? 0 | None => false end)
     || (resolved_start <? 0) then
    Err (InvalidCommitConfirmation committed resolved_start)
  else
    Ok {| baseline := default resolved_start committed;
          last_confirmed := committed;
          in_flight := None |}.

Definition set_in_flight (self : PartitionOffsetState) (p : option PartitionProgress)
    : PartitionOffsetState :=
  {| baseline := baseline self; last_confirmed := last_confirmed self; in_flight := p |}.

(** [observe]: [get_or_insert_with], the two checks, then the push. *)
Definition PartitionOffsetState_observe (self : PartitionOffsetState) (epoch o : Z)
    (out : RecordOutcome) : PartitionOffsetState * OffsetResult unit :=
  let progress := default (mkProgress epoch []) (in_flight self) in
  let self := set_in_flight self (Some progress) in
  if negb (assignment_epoch progress =? epoch) then
    (self, Err (EpochMismatch (assignment_epoch progress) epoch))
  else
    match last (observed progress) with
    | Some l =>
        if o <=? offset l then (self, Err (NonIncreasingOffset (offset l) o))
        else (set_in_flight self (Some (mkProgress (assignment_epoch progress)
                (observed progress ++ [mkObserved o out]))), Ok tt)
    | None =>
        (set_in_flight self (Some (mkProgress (assignment_epoch progress)
           (observed progress ++ [mkObserved o out]))), Ok tt)
    end.

Fixpoint validate_offsets (previous : option Z) (offsets : list Z) : OffsetResult unit :=
  match offsets with
  | [] => Ok tt
  | o :: rest =>
      match previous with
      | Some p => if o <=? p then Err (NonIncreasingOffset p o)
                  else validate_offsets (Some o) rest
      | None => validate_offsets (Some o) rest
      end
  end.

Definition PartitionOffsetState_validate_run (self : PartitionOffsetState) (epoch : Z)
    (offsets : list Z) : OffsetResult unit :=
  try? match in_flight self with
       | Some progress =>
           if negb (assignment_epoch progress =? epoch)
           then Err (EpochMismatch (assignment_epoch progress) epoch)
           else Ok tt
       | None => Ok tt
       end in
  let previous :=
    match in_flight self with
    | Some progress => option_map offset (last (observed progress))
    | None => None
    end in
  validate_offsets previous offsets.

(** [frontier_of], whose precondition is a non-empty slice: its first entry is
    the first argument. *)
Fixpoint frontier_of (entry : ObservedOutcome) (rest : list ObservedOutcome) : OffsetResult Z :=
  if negb (safe entry) then Ok (offset entry)
  else match rest with
       | [] => ok_or (i64_checked_add (offset entry) 1) (NextOffsetOverflow (offset entry))
       | next :: rest' => frontier_of next rest'
       end.

Definition PartitionOffsetState_committable_next (self : PartitionOffsetState)
    : OffsetResult (option Z) :=
  match in_flight self with
  | None => Ok None
  | Some progress =>
      match observed progress with
      | [] => Ok None
      | entry :: rest =>
          let? frontier := frontier_of entry rest in
          Ok (match last_confirmed self with
              | Some confirmed => if frontier <=? confirmed then None else Some frontier
              | None => if frontier <=? baseline self then None else Some frontier
              end)
      end
  end.

Definition PartitionOffsetState_retry_from (self : PartitionOffsetState) : option Z :=
  match in_flight self with
  | None => None
  | Some progress => option_map offset (find_first (λ o, negb (safe o)) (observed progress))
  end.

Definition PartitionOffsetState_confirm_committed (self : PartitionOffsetState) (next_offset : Z)
    : PartitionOffsetState * OffsetResult unit :=
  match PartitionOffsetState_committable_next self with
  | Err e => (self, Err e)
  | Ok expected =>
      if negb (bool_decide (expected = Some next_offset)) then
        (self, Err (InvalidCommitConfirmation expected next_offset))
      else
        let kept :=
          match in_flight self with
          | None => None
          | Some progress =>
              let obs := List.filter (λ o, next_offset <=? offset o) (observed progress) in
              match obs with
              | [] => None
              | _ => Some (mkProgress (assignment_epoch progress) obs)
              end
          end in
        ({| baseline := next_offset;
            last_confirmed := Some next_offset;
            in_flight := kept |}, Ok tt)
  end.

Definition PartitionOffsetState_reset (self : PartitionOffsetState) : PartitionOffsetState :=
  set_in_flight self None.

Definition PartitionOffsetState_observed_len (self : PartitionOffsetState) : Z :=
  match in_flight self with
  | None => 0
  | Some progress => Z.of_nat (length (observed progress))
  end.

Definition PartitionOffsetState_has_unsafe_observation (self : PartitionOffsetState) : bool :=
  match in_flight self with
  | None => false
  | Some progress => existsb (λ o, negb (safe o)) (observed progress)
  end.

(** ** All partitions of one owner *)

Record GroupOffsetState := mkGroup {
  partitions : gmap Tp PartitionOffsetState;
  observed_total : Z;
  max_partition_records : Z;
  max_group_records : Z
}.

Definition GroupOffsetState_new (max_partition max_group : Z) : GroupOffsetState :=
  {| partitions := ∅; observed_total := 0;
     max_partition_records := max_partition; max_group_records := max_group |}.

Definition with_partitions (self : GroupOffsetState) (m : gmap Tp PartitionOffsetState) (total : Z)
    : GroupOffsetState :=
  {| partitions := m; observed_total := total;
     max_partition_records := max_partition_records self;
     max_group_records := max_group_records self |}.

(** The sum over [partitions.values()]. *)
Definition total_observed (m : gmap Tp PartitionOffsetState) : Z :=
  map_fold (λ _ s acc, PartitionOffsetState_observed_len s + acc) 0 m.

Definition GroupOffsetState_recount (self : GroupOffsetState) : GroupOffsetState :=
  with_partitions self (partitions self) (total_observed (partitions self)).

Definition partition_len (self : GroupOffsetState) (tp : Tp) : Z :=
  match partitions self !! tp with
  | Some state => PartitionOffsetState_observed_len state
  | None => 0
  end.

(** [binary_search_by_key] on a strictly increasing slice finds the entry with
    that offset if there is one. *)
Definition GroupOffsetState_already_safe (self : GroupOffsetState) (tp : Tp) (epoch o : Z) : bool :=
  match partitions self !! tp with
  | None => false
  | Some state =>
      if match last_confirmed state with Some next => o <? next | None => false end then true
      else match in_flight state with
           | None => false
           | Some progress =>
               (assignment_epoch progress =? epoch)
               && match find_first (λ item, offset item =? o) (observed progress) with
                  | Some item => safe item
                  | None => false
                  end
           end
  end.

Definition GroupOffsetState_confirmed_offset (self : GroupOffsetState) (tp : Tp) : option Z :=
  match partitions self !! tp with
  | Some state => last_confirmed state
  | None => None
  end.

Definition GroupOffsetState_observe (self : GroupOffsetState) (tp : Tp) (epoch o : Z)
    (out : RecordOutcome) : GroupOffsetState * OffsetResult unit :=
  if max_partition_records self <=? partition_len self tp then
    (self, Err (PartitionProgressFull tp (max_partition_records self)))
  else if max_group_records self <=? observed_total self then
    (self, Err (GroupProgressFull (max_group_records self)))
  else
    match (match partitions self !! tp with
           | Some state => Ok state
           | None => PartitionOffsetState_new None o
           end) with
    | Err e => (self, Err e)
    | Ok state =>
        let '(state', r) := PartitionOffsetState_observe state epoch o out in
        let m := <[tp := state']> (partitions self) in
        match r with
        | Err e => (with_partitions self m (observed_total self), Err e)
        | Ok _ => (with_partitions self m (observed_total self + 1), Ok tt)
        end
    end.

(** The loop [for (offset, outcome) in outcomes { state.observe(..)?; }]. *)
Fixpoint observe_all (state : PartitionOffsetState) (epoch : Z)
    (outcomes : list (Z * RecordOutcome)) : PartitionOffsetState * OffsetResult unit :=
  match outcomes with
  | [] => (state, Ok tt)
  | (o, out) :: rest =>
      let '(state', r) := PartitionOffsetState_observe state epoch o out in
      match r with
      | Err e => (state', Err e)
      | Ok _ => observe_all state' epoch rest
      end
  end.

Definition usize_checked_add (a b : Z) : option Z :=
  if a + b <=? USIZE_MAX then Some (a + b) else None.

Definition GroupOffsetState_observe_run (self : GroupOffsetState) (tp : Tp) (epoch : Z)
    (outcomes : list (Z * RecordOutcome)) : GroupOffsetState * OffsetResult unit :=
  match outcomes with
  | [] => (self, Ok tt)
  | (first, _) :: _ =>
      let n := Z.of_nat (length outcomes) in
      let partition_full := PartitionProgressFull tp (max_partition_records self) in
      let group_full := GroupProgressFull (max_group_records self) in
      match usize_checked_add (partition_len self tp) n with
      | None => (self, Err partition_full)
      | Some next_partition =>
      if max_partition_records self <? next_partition then (self, Err partition_full) else
      match usize_checked_add (observed_total self) n with
      | None => (self, Err group_full)
      | Some next_group =>
      if max_group_records self <? next_group then (self, Err group_full) else
      let offsets := map fst outcomes in
      match (match partitions self !! tp with
             | Some state => PartitionOffsetState_validate_run state epoch offsets
             | None =>
                 let? state := PartitionOffsetState_new None first in
                 PartitionOffsetState_validate_run state epoch offsets
             end) with
      | Err e => (self, Err e)
      | Ok _ =>
      match (match partitions self !! tp with
             | Some state => Ok state
             | None => PartitionOffsetState_new None first
             end) with
      | Err e => (self, Err e)
      | Ok state =>
          let '(state', r) := observe_all state epoch outcomes in
          let m := <[tp := state']> (partitions self) in
          match r with
          | Err e => (with_partitions self m (observed_total self), Err e)
          | Ok _ => (with_partitions self m next_group, Ok tt)
          end
      end end end end
  end.

(** Iteration of a [BTreeMap]. *)
Definition key_le {V} (a b : Tp * V) : Prop := Tp_leb a.1 b.1 = true.

#[global] Instance key_le_dec {V} (a b : Tp * V) : Decision (key_le a b).
Proof. unfold key_le. apply _. Defined.

Definition btree_iter {V} (m : gmap Tp V) : list (Tp * V) :=
  merge_sort key_le (map_to_list m).

(** [filter_map(..).collect::<Result<BTreeMap<_, _>, _>>()]. *)
Fixpoint collect_committable (l : list (Tp * PartitionOffsetState)) : OffsetResult (gmap Tp Z) :=
  match l with
  | [] => Ok ∅
  | (tp, state) :: rest =>
      match PartitionOffsetState_committable_next state with
      | Ok (Some o) => let? m := collect_committable rest in Ok (<[tp := o]> m)
      | Ok None => collect_committable rest
      | Err e => Err e
      end
  end.

Definition GroupOffsetState_committable_offsets (self : GroupOffsetState)
    : OffsetResult (gmap Tp Z) :=
  collect_committable (btree_iter (partitions self)).

(** The first loop of [confirm_committed]: nothing is changed. *)
Fixpoint check_confirmation (m : gmap Tp PartitionOffsetState) (l : list (Tp * Z))
    : OffsetResult unit :=
  match l with
  | [] => Ok tt
  | (tp, o) :: rest =>
      let? expected := match m !! tp with
                       | Some state => PartitionOffsetState_committable_next state
                       | None => Ok None
                       end in
      if bool_decide (expected = Some o) then check_confirmation m rest
      else Err (InvalidCommitConfirmation expected o)
  end.

(** The second loop; [None] is the panic of [expect]. *)
Fixpoint apply_confirmation (m : gmap Tp PartitionOffsetState) (l : list (Tp * Z))
    : option (gmap Tp PartitionOffsetState * OffsetResult unit) :=
  match l with
  | [] => Some (m, Ok tt)
  | (tp, o) :: rest =>
      match m !! tp with
      | None => None
      | Some state =>
          let '(state', r) := PartitionOffsetState_confirm_committed state o in
          let m' := <[tp := state']> m in
          match r with
          | Err e => Some (m', Err e)
          | Ok _ => apply_confirmation m' rest
          end
      end
  end.

Definition GroupOffsetState_confirm_committed (self : GroupOffsetState) (offsets : gmap Tp Z)
    : option (GroupOffsetState * OffsetResult unit) :=
  match check_confirmation (partitions self) (btree_iter offsets) with
  | Err e => Some (self, Err e)
  | Ok _ =>
      match apply_confirmation (partitions self) (btree_iter offsets) with
      | None => None
      | Some (m, Err e) => Some (with_partitions self m (observed_total self), Err e)
      | Some (m, Ok _) =>
          Some (GroupOffsetState_recount (with_partitions self m (observed_total self)), Ok tt)
      end
  end.

Definition GroupOffsetState_reset_partition (self : GroupOffsetState) (tp : Tp) : GroupOffsetState :=
  GroupOffsetState_recount
    (with_partitions self (alter PartitionOffsetState_reset tp (partitions self))
       (observed_total self)).

Definition GroupOffsetState_reset_for_assignment (self : GroupOffsetState) (assigned : list Tp)
    : GroupOffsetState :=
  GroupOffsetState_recount
    (with_partitions self
       (PartitionOffsetState_reset <$> filter (λ kv, kv.1 ∈ assigned) (partitions self))
       (observed_total self)).

Definition GroupOffsetState_clear (self : GroupOffsetState) : GroupOffsetState :=
  with_partitions self ∅ 0.

Definition GroupOffsetState_clear_partition (self : GroupOffsetState) (tp : Tp) : GroupOffsetState :=
  GroupOffsetState_recount
    (with_partitions self (delete tp (partitions self)) (observed_total self)).

Definition GroupOffsetState_has_partition_observations (self : GroupOffsetState) (tp : Tp) : bool :=
  match partitions self !! tp with
  | Some state => negb (PartitionOffsetState_observed_len state =? 0)
  | None => false
  end.

Definition GroupOffsetState_has_group_capacity (self : GroupOffsetState) : bool :=
  observed_total self <? max_group_records self.

Definition GroupOffsetState_has_dispatch_capacity (self : GroupOffsetState) (trigger : option Tp)
    : bool :=
  if negb (GroupOffsetState_has_group_capacity self) then false
  else match trigger with
       | None => true
       | Some tp =>
           match partitions self !! tp with
           | None => true
           | Some state =>
               PartitionOffsetState_observed_len state <? max_partition_records self
           end
       end.

Definition GroupOffsetState_has_pending_gap (self : GroupOffsetState) : bool :=
  existsb (λ kv, PartitionOffsetState_has_unsafe_observation kv.2) (btree_iter (partitions self)).

(** ** Facts about one partition *)

Definition obs (s : PartitionOffsetState) : list ObservedOutcome :=
  match in_flight s with Some p => observed p | None => [] end.

Definition increasing (l : list ObservedOutcome) : Prop := StronglySorted Z.lt (map offset l).

(** A partition state: its progress is non-empty and strictly increasing, and
    the baseline of a confirmed partition is the confirmed offset. *)
Record part_inv (s : PartitionOffsetState) : Prop := {
  part_increasing : increasing (obs s);
  part_nonempty : ∀ p, in_flight s = Some p → observed p ≠ [];
  part_baseline : ∀ c, last_confirmed s = Some c → baseline s = c
}.

(** Where the next commit must go beyond. *)
Definition watermark (s : PartitionOffsetState) : Z := default (baseline s) (last_confirmed s).

Lemma observed_len_obs s : PartitionOffsetState_observed_len s = Z.of_nat (length (obs s)).
Proof. unfold PartitionOffsetState_observed_len, obs. by destruct (in_flight s). Qed.

Lemma increasing_app l o out :
  increasing (l ++ [mkObserved o out]) ↔
  increasing l ∧ (∀ x, last l = Some x → offset x < o).
Proof.
  unfold increasing. rewrite map_app. simpl.
  induction l as [|x l IH]; simpl.
  { split; [intros _; split; [constructor|done]|]. intros _. by repeat constructor. }
  split.
  - intros [Hs Hf]%StronglySorted_inv. apply IH in Hs as [Hs Hl].
    apply Forall_app in Hf as [Hf Ho]. apply Forall_cons in Ho as [Ho _].
    split; [by constructor|]. intros y. destruct l as [|z l]; [by intros [= <-]|].
    rewrite last_cons_cons. apply Hl.
  - intros [[Hs Hf]%StronglySorted_inv Hl]. constructor.
    + apply IH. split; [done|]. intros y Hy. apply Hl. destruct l; [done|]. by rewrite last_cons_cons.
    + apply Forall_app_2; [done|]. constructor; [|constructor].
      destruct l as [|z l] using rev_ind; [by apply Hl|].
      rewrite map_app in Hf. apply Forall_app in Hf as [_ Hf]. apply Forall_cons in Hf as [Hf _].
      eapply Z.lt_trans; [exact Hf|]. apply Hl. rewrite app_comm_cons. apply last_snoc.
Qed.

Lemma increasing_filter p l : increasing l → increasing (List.filter p l).
Proof.
  unfold increasing. induction l as [|x l IH]; simpl; [done|].
  intros [Hs Hf]%StronglySorted_inv. destruct (p x); simpl; [|by apply IH].
  constructor; [by apply IH|]. rewrite Forall_forall in Hf |- *. intros z Hz. apply Hf.
  apply list_elem_of_fmap in Hz as (y & -> & [Hy _]%filter_elem_of).
  by apply list_elem_of_fmap_2.
Qed.

Lemma increasing_inj l x y : increasing l → x ∈ l → y ∈ l → offset x = offset y → x = y.
Proof.
  unfold increasing. induction l as [|z l IH]; simpl; [set_solver|].
  intros [Hs Hf]%StronglySorted_inv Hx Hy E. rewrite Forall_forall in Hf.
  apply elem_of_cons in Hx as [->|Hx], Hy as [->|Hy]; [done|..|by apply IH].
  - specialize (Hf (offset y)). assert (offset z < offset y); [|lia].
    apply Hf. by apply list_elem_of_fmap_2.
  - specialize (Hf (offset x)). assert (offset z < offset x); [|lia].
    apply Hf. by apply list_elem_of_fmap_2.
Qed.

(** In an increasing slice, what precedes the first match does not match. *)
Lemma find_first_increasing p l x y :
  increasing l → find_first p l = Some x → y ∈ l → offset y < offset x → p y = false.
Proof.
  unfold increasing. induction l as [|z l IH]; simpl; [done|].
  intros [Hs Hf]%StronglySorted_inv. destruct (p z) eqn:Hz.
  - intros [= <-] [->|Hy]%elem_of_cons Hlt; [lia|]. rewrite Forall_forall in Hf.
    specialize (Hf (offset y)). assert (offset z < offset y); [|lia].
    apply Hf. by apply list_elem_of_fmap_2.
  - intros Hfind [->|Hy]%elem_of_cons Hlt; [done|]. by apply IH.
Qed.

Lemma increasing_last l x y : increasing l → last l = Some x → y ∈ l → offset y ≤ offset x.
Proof.
  destruct l as [|z l _] using rev_ind; [set_solver|]. rewrite last_snoc. intros Hi [= ->] Hy.
  unfold increasing in Hi. rewrite map_app in Hi. simpl in Hi.
  apply elem_of_app in Hy as [Hy|Hy]; [|apply list_elem_of_singleton in Hy as ->; lia].
  apply (list_elem_of_fmap_2 offset) in Hy.
  apply Z.lt_le_incl. revert Hi. generalize dependent (offset y). intros o Ho.
  change (offset <$> l) with (map offset l) in Ho.
  induction (map offset l) as [|a l' IH]; simpl; [set_solver|].
  intros [Hs Hf]%StronglySorted_inv. apply elem_of_cons in Ho as [->|Ho]; [|by apply IH].
  rewrite Forall_forall in Hf. apply Hf. set_solver.
Qed.

Lemma frontier_of_find entry rest :
  frontier_of entry rest =
  match find_first (λ o, negb (safe o)) (entry :: rest) with
  | Some x => Ok (offset x)
  | None => let z := default entry (last (entry :: rest)) in
            ok_or (i64_checked_add (offset z) 1) (NextOffsetOverflow (offset z))
  end.
Proof.
  revert entry. induction rest as [|e rest IH]; intros entry.
  - simpl. by destruct (safe entry).
  - cbn [frontier_of find_first]. destruct (safe entry); [|done]. simpl negb. cbn iota.
    rewrite IH. rewrite last_cons_cons. cbn [find_first].
    destruct (negb (safe e)); [done|]. destruct (find_first _ rest); [done|].
    by rewrite last_cons_default.
Qed.

(** What a committable next-offset is. *)
Definition frontier_spec (l : list ObservedOutcome) (n : Z) : Prop :=
  (∀ x, x ∈ l → offset x < n → safe x = true) ∧
  ((∃ x, x ∈ l ∧ offset x = n ∧ safe x = false) ∨
   ((∀ x, x ∈ l → safe x = true) ∧ ∃ z, last l = Some z ∧ n = offset z + 1 ∧ n ≤ I64_MAX)).

Lemma frontier_of_spec entry rest n :
  increasing (entry :: rest) → frontier_of entry rest = Ok n → frontier_spec (entry :: rest) n.
Proof.
  intros Hi. rewrite frontier_of_find.
  destruct (find_first _ (entry :: rest)) as [x|] eqn:Hf.
  - intros [= <-]. split.
    + intros y Hy Hlt. eapply find_first_increasing in Hf; [|done..].
      by apply negb_false_iff in Hf.
    + left. apply find_first_Some in Hf as [Hx Hs%negb_true_iff]. eauto.
  - rewrite find_first_None in Hf.
    assert (∀ x, x ∈ entry :: rest → safe x = true) as Hall.
    { intros x Hx. by apply negb_false_iff, Hf. }
    intros H. split; [intros; by apply Hall|]. right. split; [done|].
    rewrite last_cons_default in *. simpl in H. eexists. split; [done|].
    apply ok_or_Ok in H. unfold i64_checked_add in H.
    destruct (is_i64 _) eqn:Hi64; [|done]. injection H as <-.
    apply is_i64_spec in Hi64. unfold I64_MAX. lia.
Qed.

Lemma committable_next_Some s n :
  part_inv s → PartitionOffsetState_committable_next s = Ok (Some n) →
  obs s ≠ [] ∧ frontier_spec (obs s) n ∧ watermark s < n.
Proof.
  intros [Hi Hne Hb]. unfold PartitionOffsetState_committable_next, obs, watermark in *.
  destruct (in_flight s) as [p|]; [|done].
  destruct (observed p) as [|e rest] eqn:Ho; [done|].
  intros (f & Hf & [= H])%result_bind_Ok. apply frontier_of_spec in Hf; [|done].
  destruct (last_confirmed s) as [c|]; simpl; destruct (_ <=? _) eqn:?; simplify_eq;
    split_and!; try done; lia.
Qed.

Lemma set_in_flight_id s p : in_flight s = Some p → set_in_flight s (Some p) = s.
Proof. destruct s. simpl. by intros ->. Qed.

Lemma partition_observe_spec s e o out s' r :
  part_inv s → PartitionOffsetState_observe s e o out = (s', r) →
  match r with
  | Err _ => s' = s
  | Ok _ => part_inv s' ∧ obs s' = obs s ++ [mkObserved o out] ∧
            last_confirmed s' = last_confirmed s ∧ baseline s' = baseline s
  end.
Proof.
  intros [Hi Hne Hb] H. unfold PartitionOffsetState_observe in H.
  destruct (in_flight s) as [p|] eqn:Hp; simpl in H.
  - destruct (assignment_epoch p =? e); simpl in H; [|simplify_eq; by apply set_in_flight_id].
    unfold obs in *. rewrite Hp in *.
    destruct (last (observed p)) as [l|] eqn:Hl.
    + destruct (o <=? offset l) eqn:Ho; simplify_eq; [by apply set_in_flight_id|].
      split; [|done]. split; simpl; [|intros q [= <-]; simpl; by destruct (observed p)|done].
      unfold obs. simpl. apply increasing_app. split; [done|]. intros x. rewrite Hl. intros [= <-]. lia.
    + apply last_None in Hl. by apply Hne in Hl.
  - rewrite Z.eqb_refl in H. simpl in H. simplify_eq. unfold obs. rewrite Hp. simpl.
    split; [|done]. split; simpl; [|by intros q [= <-]|done].
    unfold obs. simpl. by repeat constructor.
Qed.

Lemma partition_observe_accepts s e o out :
  (∀ p, in_flight s = Some p → assignment_epoch p = e) →
  (∀ x, last (obs s) = Some x → offset x < o) →
  ∃ s', PartitionOffsetState_observe s e o out = (s', Ok tt).
Proof.
  intros He Hl. unfold PartitionOffsetState_observe, obs in *.
  destruct (in_flight s) as [p|]; simpl.
  - rewrite (He p), Z.eqb_refl by done. simpl.
    destruct (last (observed p)) as [l|]; [|eauto].
    specialize (Hl l eq_refl). destruct (o <=? offset l) eqn:?; [lia|eauto].
  - rewrite Z.eqb_refl. simpl. eauto.
Qed.

Lemma confirm_partition_spec s n s' r :
  part_inv s → PartitionOffsetState_confirm_committed s n = (s', r) →
  match r with
  | Err _ => s' = s
  | Ok _ => PartitionOffsetState_committable_next s = Ok (Some n) ∧ part_inv s' ∧
            obs s' = List.filter (λ o, n <=? offset o) (obs s) ∧ last_confirmed s' = Some n
  end.
Proof.
  intros [Hi Hne Hb] H. unfold PartitionOffsetState_confirm_committed in H.
  destruct (PartitionOffsetState_committable_next s) as [e|e] eqn:Hc; [|by simplify_eq].
  case_bool_decide; simpl in H; [|by simplify_eq]. simplify_eq. unfold obs in *. simpl.
  destruct (in_flight s) as [p|].
  - destruct (List.filter _ (observed p)) as [|x l] eqn:Hf.
    + split; [done|]. split; [|done]. split; simpl; [constructor|done|by intros c [= ->]].
    + split; [done|]. split; [|done]. split; simpl; [|by intros q [= <-]|by intros c [= ->]].
      unfold obs. simpl. rewrite <- Hf. by apply increasing_filter.
  - split; [done|]. split; [|done]. split; simpl; [constructor|done|by intros c [= ->]].
Qed.

Lemma confirm_partition_accepts s n :
  PartitionOffsetState_committable_next s = Ok (Some n) →
  ∃ s', PartitionOffsetState_confirm_committed s n = (s', Ok tt).
Proof.
  intros H. unfold PartitionOffsetState_confirm_committed. rewrite H.
  rewrite bool_decide_eq_true_2 by done. simpl. eauto.
Qed.

Lemma reset_inv s : part_inv s → part_inv (PartitionOffsetState_reset s).
Proof. intros [_ _ Hb]. by split; [constructor|..]. Qed.

Lemma new_inv c start s : PartitionOffsetState_new c start = Ok s →
  part_inv s ∧ in_flight s = None ∧ last_confirmed s = c ∧ baseline s = default start c.
Proof.
  unfold PartitionOffsetState_new. destruct (_ || _); [done|]. intros [= <-].
  split; [|done]. split; simpl; [constructor|done|]. by intros ? ->.
Qed.

(** ** Facts about the group *)

Lemma total_insert_None m tp s :
  m !! tp = None → total_observed (<[tp:=s]> m) = PartitionOffsetState_observed_len s + total_observed m.
Proof. intros H. unfold total_observed. rewrite map_fold_insert_L; [done|lia|done]. Qed.

Lemma total_delete m tp s :
  m !! tp = Some s → total_observed m = PartitionOffsetState_observed_len s + total_observed (delete tp m).
Proof. intros H. unfold total_observed. rewrite (map_fold_delete_L _ _ tp s); [done|lia|done]. Qed.

Lemma total_insert m tp s s' :
  m !! tp = Some s →
  total_observed (<[tp:=s']> m) =
  total_observed m - PartitionOffsetState_observed_len s + PartitionOffsetState_observed_len s'.
Proof.
  intros H. rewrite <- insert_delete_eq, total_insert_None by apply lookup_delete_eq.
  rewrite (total_delete m tp s) by done. lia.
Qed.

Lemma observed_len_nonneg s : 0 ≤ PartitionOffsetState_observed_len s.
Proof. rewrite observed_len_obs. lia. Qed.

Lemma total_nonneg m : 0 ≤ total_observed m.
Proof.
  unfold total_observed. apply (map_fold_weak_ind (λ acc _, 0 ≤ acc)); [done|].
  intros tp s m' acc _ Hacc. pose proof (observed_len_nonneg s). lia.
Qed.

(** The total is monotone in the observations of each partition. *)
Lemma total_mono m m' :
  (∀ tp s', m' !! tp = Some s' → ∃ s, m !! tp = Some s ∧
     PartitionOffsetState_observed_len s' ≤ PartitionOffsetState_observed_len s) →
  total_observed m' ≤ total_observed m.
Proof.
  revert m. induction m' as [|tp s' m' Hm IH] using map_ind; intros m H.
  - unfold total_observed at 1. rewrite map_fold_empty. apply total_nonneg.
  - rewrite total_insert_None by done.
    destruct (H tp s') as (s & Hs & Hle); [apply lookup_insert_eq|].
    rewrite (total_delete m tp s) by done.
    assert (total_observed m' ≤ total_observed (delete tp m)); [|lia].
    apply IH. intros tp' s'' Hs''. destruct (decide (tp = tp')) as [<-|Hne]; [congruence|].
    rewrite lookup_delete_ne by done. apply H. by rewrite lookup_insert_ne.
Qed.

Record group_inv (g : GroupOffsetState) : Prop := {
  group_parts : ∀ tp s, partitions g !! tp = Some s → part_inv s;
  group_part_bound : ∀ tp s, partitions g !! tp = Some s →
    PartitionOffsetState_observed_len s ≤ max_partition_records g;
  group_total : observed_total g = total_observed (partitions g);
  group_bound : observed_total g ≤ max_group_records g
}.

Lemma partition_len_lookup g tp s :
  partitions g !! tp = Some s → partition_len g tp = PartitionOffsetState_observed_len s.
Proof. unfold partition_len. by intros ->. Qed.

Lemma group_new_inv mp mg : 0 ≤ mg → group_inv (GroupOffsetState_new mp mg).
Proof. intros H. split; simpl; try done. Qed.

Lemma partition_len_insert g tp s' :
  total_observed (<[tp:=s']> (partitions g)) =
  total_observed (partitions g) - partition_len g tp + PartitionOffsetState_observed_len s'.
Proof.
  unfold partition_len. destruct (partitions g !! tp) as [s|] eqn:Hs.
  - by apply total_insert.
  - rewrite total_insert_None by done. lia.
Qed.

Lemma group_insert_inv g tp s' total :
  group_inv g → part_inv s' →
  PartitionOffsetState_observed_len s' ≤ max_partition_records g →
  total = observed_total g - partition_len g tp + PartitionOffsetState_observed_len s' →
  total ≤ max_group_records g →
  group_inv (with_partitions g (<[tp:=s']> (partitions g)) total).
Proof.
  intros [Hp Hb Ht Hg] Hs' Hl -> Hle. split; simpl.
  - intros tp' s Hs. destruct (decide (tp = tp')) as [<-|Hne]; simplify_map_eq; [done|by eapply Hp].
  - intros tp' s Hs. destruct (decide (tp = tp')) as [<-|Hne]; simplify_map_eq; [done|by eapply Hb].
  - rewrite partition_len_insert. lia.
  - done.
Qed.

(** The state a record of partition [tp] is observed in: the existing one, or
    a fresh one that starts at the record. *)
Definition entry_state (g : GroupOffsetState) (tp : Tp) (o : Z) : OffsetResult PartitionOffsetState :=
  match partitions g !! tp with
  | Some s => Ok s
  | None => PartitionOffsetState_new None o
  end.

Definition obs_at (g : GroupOffsetState) (tp : Tp) : list ObservedOutcome :=
  match partitions g !! tp with Some s => obs s | None => [] end.

Lemma partition_len_obs g tp : partition_len g tp = Z.of_nat (length (obs_at g tp)).
Proof. unfold partition_len, obs_at. destruct (partitions g !! tp); [apply observed_len_obs|done]. Qed.

Lemma entry_state_spec g tp o s :
  group_inv g → entry_state g tp o = Ok s →
  part_inv s ∧ obs s = obs_at g tp ∧ last_confirmed s = GroupOffsetState_confirmed_offset g tp ∧
  (partitions g !! tp = Some s ∨ partitions g !! tp = None ∧ in_flight s = None).
Proof.
  intros [Hp _ _ _]. unfold entry_state, obs_at, GroupOffsetState_confirmed_offset.
  destruct (partitions g !! tp) as [s0|] eqn:Hs.
  - intros [= <-]. split_and!; [by eapply Hp|done..|by left].
  - intros (Hi & Hf & Hc & _)%new_inv. unfold obs. rewrite Hf. split_and!; [done..|by right].
Qed.

Lemma with_partitions_id g tp s :
  partitions g !! tp = Some s →
  with_partitions g (<[tp:=s]> (partitions g)) (observed_total g) = g.
Proof. intros H. unfold with_partitions. rewrite insert_id by done. by destruct g. Qed.

(** Appending records keeps the invariant as long as both limits hold. *)
Lemma group_append_inv g tp s s' k :
  group_inv g → part_inv s' →
  obs s = obs_at g tp → length (obs s') = (length (obs s) + k)%nat →
  partition_len g tp + Z.of_nat k ≤ max_partition_records g →
  observed_total g + Z.of_nat k ≤ max_group_records g →
  group_inv (with_partitions g (<[tp:=s']> (partitions g)) (observed_total g + Z.of_nat k)).
Proof.
  intros Hg Hs' Ho Hlen Hp Ht. rewrite partition_len_obs, <- Ho in Hp.
  apply group_insert_inv; [done|done|..]; rewrite ?partition_len_obs, ?observed_len_obs, <- ?Ho; lia.
Qed.

(** [observe] and [observe_run] change one partition, by appending. *)
Definition appended (g g' : GroupOffsetState) (tp : Tp) (l : list ObservedOutcome) : Prop :=
  group_inv g' ∧ obs_at g' tp = obs_at g tp ++ l ∧
  GroupOffsetState_confirmed_offset g' tp = GroupOffsetState_confirmed_offset g tp ∧
  ∀ tp', tp' ≠ tp → partitions g' !! tp' = partitions g !! tp'.

Lemma group_observe_spec g tp e o out g' r :
  group_inv g → GroupOffsetState_observe g tp e o out = (g', r) →
  match r with
  | Err _ => g' = g
  | Ok _ => appended g g' tp [mkObserved o out]
  end.
Proof.
  intros Hg. unfold GroupOffsetState_observe.
  destruct (max_partition_records g <=? _) eqn:Hmp; [by intros [= <- <-]|].
  destruct (max_group_records g <=? _) eqn:Hmg; [by intros [= <- <-]|].
  fold (entry_state g tp o). destruct (entry_state g tp o) as [s|err] eqn:Hs; [|by intros [= <- <-]].
  apply entry_state_spec in Hs as (Hi & Ho & Hc & Hwhere); [|done].
  destruct (PartitionOffsetState_observe s e o out) as [s' [[]|err]] eqn:Hobs; intros [= <- <-].
  - apply partition_observe_spec in Hobs as (Hi' & Ho' & Hc' & _); [|done]. unfold appended.
    split_and!; unfold obs_at, GroupOffsetState_confirmed_offset; simpl; simplify_map_eq.
    + apply (group_append_inv g tp s s' 1); try done; [|lia..].
      rewrite Ho', length_app. simpl. lia.
    + by rewrite Ho', Ho.
    + by rewrite Hc'.
    + intros tp' Hne. by simplify_map_eq.
  - destruct Hwhere as [Hsome|[_ Hfresh]].
    + apply partition_observe_spec in Hobs; [|done]. simpl in Hobs. subst s'.
      by apply with_partitions_id.
    + destruct (partition_observe_accepts s e o out) as [s'' E]; [|unfold obs; by rewrite Hfresh|].
      { by rewrite Hfresh. }
      congruence.
Qed.

Lemma validate_run_step s e o out rest :
  part_inv s → PartitionOffsetState_validate_run s e (o :: rest) = Ok tt →
  ∃ s', PartitionOffsetState_observe s e o out = (s', Ok tt) ∧
        PartitionOffsetState_validate_run s' e rest = Ok tt.
Proof.
  intros Hi H. unfold PartitionOffsetState_validate_run in H.
  apply result_bind_Ok in H as ([] & He & Hv).
  destruct (partition_observe_accepts s e o out) as [s' Hs'].
  - intros p Hp. rewrite Hp in He. destruct (_ =? _) eqn:E; [lia|done].
  - intros x Hx. unfold obs in Hx. destruct (in_flight s) as [p|]; [|done].
    rewrite Hx in Hv. simpl in Hv. destruct (o <=? offset x) eqn:E; [done|lia].
  - exists s'. split; [done|].
    assert (∃ p, in_flight s' = Some p ∧ assignment_epoch p = e ∧ option_map offset (last (observed p)) = Some o)
      as (p & Hp & Hpe & Hpo).
    { unfold PartitionOffsetState_observe in Hs'.
      destruct (assignment_epoch _ =? e) eqn:E in Hs'; [|done]. simpl in Hs'.
      destruct (last (observed _)) in Hs'; [destruct (_ <=? _) in Hs'|]; simplify_eq;
        eexists; (split; [done|]); simpl; rewrite last_snoc; split; try done; lia. }
    unfold PartitionOffsetState_validate_run. rewrite Hp, Hpe, Z.eqb_refl. simpl. rewrite Hpo.
    cbn [validate_offsets] in Hv. by cases_in Hv.
Qed.

Lemma observe_all_validated s e outs :
  part_inv s → PartitionOffsetState_validate_run s e (map fst outs) = Ok tt →
  ∃ s', observe_all s e outs = (s', Ok tt) ∧ part_inv s' ∧
    obs s' = obs s ++ map (λ p, mkObserved p.1 p.2) outs ∧ last_confirmed s' = last_confirmed s.
Proof.
  revert s. induction outs as [|[o out] outs IH]; intros s Hi Hv; simpl in *.
  { exists s. by rewrite app_nil_r. }
  apply (validate_run_step s e o out) in Hv as (s1 & Hs1 & Hv); [|done]. rewrite Hs1.
  apply partition_observe_spec in Hs1 as (Hi1 & Ho1 & Hc1 & _); [|done].
  destruct (IH s1 Hi1 Hv) as (s' & Hr & Hi' & Ho' & Hc'). exists s'.
  split_and!; [done..| |congruence]. by rewrite Ho', Ho1, <- app_assoc.
Qed.

Lemma group_observe_run_spec g tp e outs g' r :
  group_inv g → GroupOffsetState_observe_run g tp e outs = (g', r) →
  match r with
  | Err _ => g' = g
  | Ok _ => outs = [] ∧ g' = g ∨ appended g g' tp (map (λ p, mkObserved p.1 p.2) outs)
  end.
Proof.
  intros Hg. unfold GroupOffsetState_observe_run.
  destruct outs as [|[first out] rest]; [intros [= <- <-]; by left|].
  set (outs := (first, out) :: rest).
  unfold usize_checked_add.
  destruct (partition_len g tp + _ <=? USIZE_MAX); [|by intros [= <- <-]].
  destruct (max_partition_records g <? _) eqn:Hmp; [by intros [= <- <-]|].
  destruct (observed_total g + _ <=? USIZE_MAX); [|by intros [= <- <-]].
  destruct (max_group_records g <? _) eqn:Hmg; [by intros [= <- <-]|].
  fold (entry_state g tp first).
  destruct (match partitions g !! tp with Some _ => _ | None => _ end) as [[]|err] eqn:Hv;
    [|by intros [= <- <-]].
  destruct (entry_state g tp first) as [s|err] eqn:Hs; [|by intros [= <- <-]].
  assert (PartitionOffsetState_validate_run s e (map fst outs) = Ok tt) as Hvs.
  { unfold entry_state in Hs. destruct (partitions g !! tp) as [s0|]; [by simplify_eq|].
    rewrite Hs in Hv. done. }
  apply entry_state_spec in Hs as (Hi & Ho & Hc & _); [|done].
  destruct (observe_all_validated s e outs Hi Hvs) as (s' & Hall & Hi' & Ho' & Hc'). rewrite Hall.
  intros [= <- <-]. right. unfold appended.
  split_and!; unfold obs_at, GroupOffsetState_confirmed_offset; simpl; simplify_map_eq.
  - apply (group_append_inv g tp s s' (S (length rest))); [done..| |by apply Z.ltb_ge|by apply Z.ltb_ge].
    rewrite Ho', length_app. simpl. by rewrite length_map.
  - by rewrite Ho', Ho.
  - by rewrite Hc'.
  - intros tp' Hne. by simplify_map_eq.
Qed.

(** *** Commits *)

Lemma btree_iter_elem {V} (m : gmap Tp V) tp v : (tp, v) ∈ btree_iter m ↔ m !! tp = Some v.
Proof. unfold btree_iter. rewrite merge_sort_Permutation. apply elem_of_map_to_list. Qed.

Lemma btree_iter_NoDup {V} (m : gmap Tp V) : NoDup (map fst (btree_iter m)).
Proof.
  unfold btree_iter. rewrite (fmap_Permutation fst _ _ (merge_sort_Permutation key_le (map_to_list m))).
  apply NoDup_fst_map_to_list.
Qed.

Lemma check_confirmation_Ok m l :
  check_confirmation m l = Ok tt ↔
  ∀ tp o, (tp, o) ∈ l → ∃ s, m !! tp = Some s ∧
    PartitionOffsetState_committable_next s = Ok (Some o).
Proof.
  induction l as [|[tp o] l IH]; simpl; [set_solver|]. rewrite result_bind_Ok. split.
  - intros (x & Hx & H). case_bool_decide as E; [|done]. subst x. rewrite IH in H.
    intros tp' o' [[= -> ->]|Hin]%elem_of_cons; [|by apply H].
    destruct (m !! tp) as [s|]; [|done]. eauto.
  - intros H. exists (Some o). destruct (H tp o) as (s & Hs & Hc); [set_solver|]. rewrite Hs.
    split; [done|]. rewrite bool_decide_eq_true_2 by done. apply IH. intros. apply H. set_solver.
Qed.

Lemma apply_confirmation_spec m l :
  NoDup (map fst l) →
  (∀ tp o, (tp, o) ∈ l → ∃ s, m !! tp = Some s ∧
     PartitionOffsetState_committable_next s = Ok (Some o)) →
  ∃ m', apply_confirmation m l = Some (m', Ok tt) ∧
    (∀ tp o, (tp, o) ∈ l → ∃ s s', m !! tp = Some s ∧
       PartitionOffsetState_confirm_committed s o = (s', Ok tt) ∧ m' !! tp = Some s') ∧
    (∀ tp, tp ∉ map fst l → m' !! tp = m !! tp).
Proof.
  revert m. induction l as [|[tp o] l IH]; intros m Hnd H; simpl in *.
  { exists m. split_and!; [done|set_solver|done]. }
  apply NoDup_cons in Hnd as [Hnin Hnd].
  destruct (H tp o) as (s & Hs & Hc); [set_solver|]. rewrite Hs.
  destruct (confirm_partition_accepts s o Hc) as [s' Hs']. rewrite Hs'.
  assert (∀ tp' o', (tp', o') ∈ l → tp' ≠ tp) as Hne.
  { intros tp' o' Hin ->. apply Hnin. by apply (list_elem_of_fmap_2 fst) in Hin. }
  destruct (IH (<[tp:=s']> m)) as (m' & Hm' & Hin & Hout); [done|..].
  { intros tp' o' Hi. rewrite lookup_insert_ne by (symmetry; eauto). apply H. set_solver. }
  exists m'. split_and!; [done|..].
  - intros tp' o' [[= -> ->]|Hi]%elem_of_cons.
    + exists s, s'. split_and!; [done..|]. rewrite Hout by done. apply lookup_insert_eq.
    + destruct (Hin tp' o' Hi) as (t & t' & Ht & Ht'). exists t, t'.
      rewrite lookup_insert_ne in Ht by (symmetry; eauto). done.
  - intros tp' Hni. rewrite Hout, lookup_insert_ne by set_solver. done.
Qed.

(** What a successful commit does to every partition. *)
Definition confirmed (g g' : GroupOffsetState) (offsets : gmap Tp Z) : Prop :=
  ∀ tp, match offsets !! tp with
        | None => partitions g' !! tp = partitions g !! tp
        | Some n => ∃ s s', partitions g !! tp = Some s ∧
                    PartitionOffsetState_confirm_committed s n = (s', Ok tt) ∧
                    partitions g' !! tp = Some s'
        end.

Lemma filter_length_le {A} (p : A → bool) l : (length (List.filter p l) <= length l)%nat.
Proof. induction l as [|x l IH]; simpl; [lia|]. destruct (p x); simpl; lia. Qed.

Lemma confirmed_parts g g' offsets :
  group_inv g → confirmed g g' offsets → ∀ tp s', partitions g' !! tp = Some s' →
  part_inv s' ∧ ∃ s, partitions g !! tp = Some s ∧
    PartitionOffsetState_observed_len s' ≤ PartitionOffsetState_observed_len s.
Proof.
  intros [Hp Hb _ _] Hc tp s' Hs'. specialize (Hc tp). destruct (offsets !! tp) as [n|].
  - destruct Hc as (s & t & Hs & Hconf & Ht). rewrite Hs' in Ht. injection Ht as <-.
    apply confirm_partition_spec in Hconf as (_ & Hi & Ho & _); [|by eapply Hp].
    split; [done|]. exists s. split; [done|]. rewrite !observed_len_obs, Ho.
    pose proof (filter_length_le (λ o, n <=? offset o) (obs s)). lia.
  - rewrite Hs' in Hc. split; [by eapply Hp|]. eauto with lia.
Qed.

Lemma recount_inv g m :
  group_inv g →
  (∀ tp s', m !! tp = Some s' → part_inv s' ∧ ∃ s, partitions g !! tp = Some s ∧
     PartitionOffsetState_observed_len s' ≤ PartitionOffsetState_observed_len s) →
  group_inv (GroupOffsetState_recount (with_partitions g m (observed_total g))).
Proof.
  intros [Hp Hb Ht Hg] Hm. split; simpl; [|..|done|].
  - intros tp s Hs. by apply (Hm tp).
  - intros tp s Hs. destruct (Hm tp s Hs) as (_ & s0 & Hs0 & Hle). specialize (Hb _ _ Hs0). lia.
  - assert (total_observed m ≤ total_observed (partitions g)); [|lia].
    apply total_mono. intros tp s Hs. by apply (Hm tp).
Qed.

Lemma group_confirm_spec g offsets :
  group_inv g →
  ∃ g' r, GroupOffsetState_confirm_committed g offsets = Some (g', r) ∧
  match r with
  | Err _ => g' = g
  | Ok _ => group_inv g' ∧ confirmed g g' offsets
  end.
Proof.
  intros Hg. unfold GroupOffsetState_confirm_committed.
  destruct (check_confirmation _ _) as [[]|err] eqn:Hc; [|by eexists _, _].
  rewrite check_confirmation_Ok in Hc.
  destruct (apply_confirmation_spec _ _ (btree_iter_NoDup offsets) Hc) as (m' & -> & Hin & Hout).
  eexists _, _. split; [done|].
  assert (confirmed g (with_partitions g m' (observed_total g)) offsets) as Hconf.
  { intros tp. simpl. destruct (offsets !! tp) as [n|] eqn:Hn.
    - apply Hin. by apply btree_iter_elem.
    - apply Hout. intros ([tp' n] & -> & Hin')%list_elem_of_fmap.
      apply btree_iter_elem in Hin'. simpl in Hn. congruence. }
  split; [|done]. apply recount_inv; [done|]. by apply (confirmed_parts _ _ _ Hg Hconf).
Qed.

Lemma group_confirm_Ok g offsets g' :
  group_inv g → GroupOffsetState_confirm_committed g offsets = Some (g', Ok tt) →
  group_inv g' ∧ confirmed g g' offsets.
Proof.
  intros Hg H. destruct (group_confirm_spec g offsets Hg) as (h & r & Hh & Hr). by simplify_eq.
Qed.

(** *** Runs of the coordinator *)

Inductive group_op :=
| OpObserve (tp : Tp) (epoch o : Z) (out : RecordOutcome)
| OpObserveRun (tp : Tp) (epoch : Z) (outcomes : list (Z * RecordOutcome))
| OpConfirm (offsets : gmap Tp Z)
| OpResetPartition (tp : Tp)
| OpResetForAssignment (assigned : list Tp)
| OpClear
| OpClearPartition (tp : Tp).

(** The state after one call, whatever it returned. *)
Definition group_exec (g : GroupOffsetState) (op : group_op) : GroupOffsetState :=
  match op with
  | OpObserve tp e o out => fst (GroupOffsetState_observe g tp e o out)
  | OpObserveRun tp e outs => fst (GroupOffsetState_observe_run g tp e outs)
  | OpConfirm offsets =>
      match GroupOffsetState_confirm_committed g offsets with
      | Some (g', _) => g'
      | None => g
      end
  | OpResetPartition tp => GroupOffsetState_reset_partition g tp
  | OpResetForAssignment assigned => GroupOffsetState_reset_for_assignment g assigned
  | OpClear => GroupOffsetState_clear g
  | OpClearPartition tp => GroupOffsetState_clear_partition g tp
  end.

Definition group_run (g : GroupOffsetState) (ops : list group_op) : GroupOffsetState :=
  fold_left group_exec ops g.

(** The calls that drop the local observations of a partition, and those that
    drop its whole entry. *)
Definition drops_observations (tp : Tp) (op : group_op) : bool :=
  match op with
  | OpResetPartition tp' | OpClearPartition tp' => bool_decide (tp' = tp)
  | OpResetForAssignment _ | OpClear => true
  | _ => false
  end.

Definition drops_entry (tp : Tp) (op : group_op) : bool :=
  match op with
  | OpClearPartition tp' => bool_decide (tp' = tp)
  | OpResetForAssignment assigned => negb (bool_decide (tp ∈ assigned))
  | OpClear => true
  | _ => false
  end.

Lemma reset_len_le s :
  PartitionOffsetState_observed_len (PartitionOffsetState_reset s) ≤ PartitionOffsetState_observed_len s.
Proof. apply observed_len_nonneg. Qed.

(** One call: the limits of the group never change, the invariant is kept, and
    the partition [tp] is affected in one of four ways. *)
Inductive effect (g : GroupOffsetState) (tp : Tp) (op : group_op) (g' : GroupOffsetState) : Prop :=
| effect_none : partitions g' !! tp = partitions g !! tp → effect g tp op g'
| effect_append l :
    obs_at g' tp = obs_at g tp ++ l →
    GroupOffsetState_confirmed_offset g' tp = GroupOffsetState_confirmed_offset g tp →
    effect g tp op g'
| effect_confirm n s s' :
    partitions g !! tp = Some s → partitions g' !! tp = Some s' →
    PartitionOffsetState_confirm_committed s n = (s', Ok tt) → effect g tp op g'
| effect_reset :
    drops_observations tp op = true → drops_entry tp op = false →
    partitions g' !! tp = PartitionOffsetState_reset <$> partitions g !! tp → effect g tp op g'
| effect_drop : drops_observations tp op = true → drops_entry tp op = true →
    partitions g' !! tp = None → effect g tp op g'.

Lemma appended_effect g g' tp tp' l op : appended g g' tp' l → effect g tp op g'.
Proof.
  intros (_ & Ho & Hc & Hne). destruct (decide (tp = tp')) as [->|?].
  - by eapply effect_append.
  - apply effect_none. by apply Hne.
Qed.

Lemma reset_partition_effect g tp :
  group_inv g → group_inv (GroupOffsetState_reset_partition g tp) ∧
  ∀ tp', effect g tp' (OpResetPartition tp) (GroupOffsetState_reset_partition g tp).
Proof.
  intros Hg.
  split.
  - apply recount_inv; [done|]. intros tp' s'. rewrite lookup_alter.
    intros Hs'. assert (∃ s, partitions g !! tp' = Some s ∧ (s' = PartitionOffsetState_reset s ∨ s' = s))
      as (s & Hs & Hor).
    { case_decide; [subst|by eauto]. apply fmap_Some in Hs' as (s & Hs & ->). by eauto. }
    pose proof (group_parts g Hg _ _ Hs). destruct Hor as [->| ->].
    + split; [by apply reset_inv|]. exists s. split; [done|apply reset_len_le].
    + split; [done|]. exists s. split; [done|lia].
  - intros tp'. destruct (decide (tp = tp')) as [<-|Hne].
    + apply effect_reset; simpl; [by apply bool_decide_eq_true_2|done|].
      by rewrite lookup_alter_eq.
    + apply effect_none. simpl. by rewrite lookup_alter_ne.
Qed.

Lemma reset_assignment_effect g assigned :
  group_inv g → group_inv (GroupOffsetState_reset_for_assignment g assigned) ∧
  ∀ tp', effect g tp' (OpResetForAssignment assigned) (GroupOffsetState_reset_for_assignment g assigned).
Proof.
  intros Hg.
  split.
  - apply recount_inv; [done|]. intros tp' s'. rewrite lookup_fmap.
    intros (s & [Hs _]%map_lookup_filter_Some & ->)%fmap_Some.
    split; [eapply reset_inv, group_parts; done|]. exists s. split; [done|apply reset_len_le].
  - intros tp'. destruct (decide (tp' ∈ assigned)) as [Hin|Hnin].
    + apply effect_reset; simpl; [done|by rewrite bool_decide_eq_true_2|].
      rewrite lookup_fmap. f_equal. destruct (partitions g !! tp') as [s|] eqn:Hs.
      { by apply map_lookup_filter_Some. }
      apply map_lookup_filter_None. by left.
    + apply effect_drop; simpl; [done|by rewrite bool_decide_eq_false_2|].
      rewrite lookup_fmap. apply fmap_None, map_lookup_filter_None. right. by intros s _.
Qed.

Lemma group_exec_spec g op :
  group_inv g → group_inv (group_exec g op) ∧ ∀ tp, effect g tp op (group_exec g op).
Proof.
  intros Hg. destruct op as [tp e o out|tp e outs|offsets|tp|assigned| |tp]; simpl.
  - destruct (GroupOffsetState_observe g tp e o out) as [g' [[]|err]] eqn:H; simpl;
      apply group_observe_spec in H; try done.
    + split; [apply H|]. intros tp'. by eapply appended_effect.
    + subst g'. split; [done|]. intros tp'. by apply effect_none.
  - destruct (GroupOffsetState_observe_run g tp e outs) as [g' [[]|err]] eqn:H; simpl;
      apply group_observe_run_spec in H; try done.
    + destruct H as [[_ ->]|H].
      * split; [done|]. intros tp'. by apply effect_none.
      * split; [apply H|]. intros tp'. by eapply appended_effect.
    + subst g'. split; [done|]. intros tp'. by apply effect_none.
  - destruct (group_confirm_spec g offsets Hg) as (g' & [[]|err] & -> & H).
    + destruct H as [Hi Hc]. split; [done|]. intros tp. specialize (Hc tp).
      destruct (offsets !! tp) as [n|]; [|by apply effect_none].
      destruct Hc as (s & s' & Hs & Hconf & Hs'). by eapply effect_confirm.
    + subst g'. split; [done|]. intros tp. by apply effect_none.
  - by apply reset_partition_effect.
  - by apply reset_assignment_effect.
  - split; [|intros tp; by apply effect_drop].
    destruct Hg as [_ _ Ht Hb]. split; simpl; try done.
    pose proof (total_nonneg (partitions g)). lia.
  - split.
    + apply recount_inv; [done|]. intros tp' s' [Hne Hs]%lookup_delete_Some.
      split; [by eapply group_parts|]. exists s'. split; [done|lia].
    + intros tp'. destruct (decide (tp = tp')) as [<-|Hne].
      * apply effect_drop; simpl; [by apply bool_decide_eq_true_2..|]. apply lookup_delete_eq.
      * apply effect_none. simpl. by rewrite lookup_delete_ne.
Qed.

Lemma group_run_inv g ops : group_inv g → group_inv (group_run g ops).
Proof.
  revert g. induction ops as [|op ops IH]; intros g Hg; simpl; [done|].
  apply IH. by apply group_exec_spec.
Qed.

(** *** Failures block commits *)

Definition unsafe_at (g : GroupOffsetState) (tp : Tp) (o : Z) : Prop :=
  ∃ x, x ∈ obs_at g tp ∧ offset x = o ∧ safe x = false.

Lemma unsafe_effect g tp op g' o :
  group_inv g → unsafe_at g tp o → drops_observations tp op = false → effect g tp op g' →
  unsafe_at g' tp o ∧
  ∀ n, GroupOffsetState_confirmed_offset g' tp = Some n →
    GroupOffsetState_confirmed_offset g tp = Some n ∨ n ≤ o.
Proof.
  intros Hg (x & Hx & Hxo & Hxs) Hd He.
  destruct He as [H|l Ho Hc|n s s' Hs Hs' Hconf|H _ _|H _ _]; [..|congruence|congruence].
  - unfold unsafe_at, obs_at, GroupOffsetState_confirmed_offset in *. rewrite H. split; [exists x; done|by eauto].
  - rewrite Hc. split; [|eauto]. exists x. rewrite Ho. set_solver.
  - pose proof (group_parts g Hg _ _ Hs) as Hi.
    apply confirm_partition_spec in Hconf as (Hcn & _ & Ho & Hl); [|done].
    apply committable_next_Some in Hcn as (_ & [Hsafe _] & _); [|done].
    unfold unsafe_at, obs_at, GroupOffsetState_confirmed_offset in *. rewrite Hs in *. rewrite Hs'.
    assert (n ≤ o) as Hno.
    { destruct (Z.le_gt_cases n o) as [|Hlt]; [done|].
      rewrite (Hsafe x) in Hxs; [done|done|lia]. }
    split.
    + exists x. split_and!; [|done..]. rewrite Ho. apply filter_elem_of. split; [done|lia].
    + intros n' Hn'. right. rewrite Hl in Hn'. by simplify_eq.
Qed.

Lemma confirmed_effect g tp op g' c :
  group_inv g → drops_entry tp op = false → effect g tp op g' →
  GroupOffsetState_confirmed_offset g tp = Some c →
  ∃ c', GroupOffsetState_confirmed_offset g' tp = Some c' ∧ c ≤ c'.
Proof.
  intros Hg Hd He. unfold GroupOffsetState_confirmed_offset.
  destruct He as [H|l Ho Hc|n s s' Hs Hs' Hconf|_ _ H|_ H _]; [..|congruence].
  - rewrite H. eauto with lia.
  - unfold GroupOffsetState_confirmed_offset in Hc. rewrite Hc. eauto with lia.
  - pose proof (group_parts g Hg _ _ Hs) as Hi. rewrite Hs, Hs'. intros Hl.
    apply confirm_partition_spec in Hconf as (Hcn & _ & _ & ->); [|done].
    apply committable_next_Some in Hcn as (_ & _ & Hw); [|done].
    unfold watermark in Hw. rewrite Hl in Hw. simpl in Hw. eauto with lia.
  - rewrite H. destruct (partitions g !! tp) as [s|]; [|done]. simpl. eauto with lia.
Qed.

(** *** Committing one's own frontier *)

Lemma collect_committable_Ok l m :
  NoDup (map fst l) → collect_committable l = Ok m →
  (∀ tp s, (tp, s) ∈ l → PartitionOffsetState_committable_next s = Ok (m !! tp)) ∧
  (∀ tp, tp ∉ map fst l → m !! tp = None).
Proof.
  revert m. induction l as [|[tp s] l IH]; intros m Hnd H; simpl in *.
  { simplify_eq. split; [set_solver|]. intros. apply lookup_empty. }
  apply NoDup_cons in Hnd as [Hnin Hnd].
  assert (∀ tp' s', (tp', s') ∈ l → tp' ≠ tp) as Hne.
  { intros tp' s' Hin ->. apply Hnin. by apply (list_elem_of_fmap_2 fst) in Hin. }
  destruct (PartitionOffsetState_committable_next s) as [[o|]|err] eqn:Hc; [| |done].
  - apply result_bind_Ok in H as (m' & Hm' & [= <-]). apply IH in Hm' as [Hin Hout]; [|done]. split.
    + intros tp' s' [[= -> ->]|Hi]%elem_of_cons; [by rewrite lookup_insert_eq|].
      rewrite lookup_insert_ne by (symmetry; eauto). by apply Hin.
    + intros tp' Hni. rewrite lookup_insert_ne by set_solver. apply Hout. set_solver.
  - apply IH in H as [Hin Hout]; [|done]. split.
    + intros tp' s' [[= -> ->]|Hi]%elem_of_cons; [by rewrite Hout|by apply Hin].
    + intros tp' Hni. apply Hout. set_solver.
Qed.

Lemma collect_committable_empty l :
  (∀ tp s, (tp, s) ∈ l → PartitionOffsetState_committable_next s = Ok None) →
  collect_committable l = Ok ∅.
Proof.
  induction l as [|[tp s] l IH]; simpl; [done|]. intros H.
  rewrite (H tp s) by set_solver. apply IH. intros tp' s' Hi. apply (H tp'). set_solver.
Qed.

Lemma committable_offsets_spec g m tp s :
  GroupOffsetState_committable_offsets g = Ok m → partitions g !! tp = Some s →
  PartitionOffsetState_committable_next s = Ok (m !! tp).
Proof.
  intros H Hs. apply collect_committable_Ok in H as [H _]; [|apply btree_iter_NoDup].
  apply H. by apply btree_iter_elem.
Qed.

Lemma committable_offsets_None g m tp :
  GroupOffsetState_committable_offsets g = Ok m → partitions g !! tp = None → m !! tp = None.
Proof.
  intros H Hs. apply collect_committable_Ok in H as [_ H]; [|apply btree_iter_NoDup].
  apply H. intros ([tp' s] & -> & Hin)%list_elem_of_fmap. apply btree_iter_elem in Hin.
  simpl in Hs. congruence.
Qed.

(** Once its frontier is confirmed, a partition has nothing left to commit. *)
Lemma committable_after_confirm s n s' :
  part_inv s → PartitionOffsetState_confirm_committed s n = (s', Ok tt) →
  PartitionOffsetState_committable_next s' = Ok None.
Proof.
  intros Hi Hconf.
  apply confirm_partition_spec in Hconf as (Hcn & Hi' & Ho & Hl); [|done].
  apply committable_next_Some in Hcn as (_ & Hfs & _); [|done].
  unfold PartitionOffsetState_committable_next. rewrite Hl. unfold obs in Ho at 1.
  destruct (in_flight s') as [p|] eqn:Hp; [|done].
  destruct (observed p) as [|e rest] eqn:He; [done|].
  assert (increasing (e :: rest)) as Hinc.
  { destruct Hi' as [Hi' _ _]. unfold obs in Hi'. by rewrite Hp, He in Hi'. }
  assert (∀ x, x ∈ e :: rest ↔ x ∈ obs s ∧ n ≤ offset x) as Helem.
  { intros x. rewrite Ho, filter_elem_of, Z.leb_le. done. }
  destruct Hfs as [_ [(x & Hx & Hxn & Hxs)|[Hall (z & Hz & -> & _)]]].
  - rewrite frontier_of_find. destruct (find_first _ (e :: rest)) as [y|] eqn:Hf.
    + simpl. assert (offset y ≤ n) as Hy.
      { destruct (Z.le_gt_cases (offset y) n) as [|Hgt]; [done|].
        eapply find_first_increasing in Hf; [|done|apply Helem; split; [exact Hx|lia]|lia].
        by rewrite Hxs in Hf. }
      by destruct (Z.leb_spec (offset y) n); [|lia].
    + rewrite find_first_None in Hf. assert (x ∈ e :: rest) as Hin by (apply Helem; split; [done|lia]).
      apply Hf in Hin. by rewrite Hxs in Hin.
  - assert (e ∈ e :: rest) as [He1 He2]%Helem by set_solver.
    eapply increasing_last in Hz; [|apply Hi|exact He1]. lia.
Qed.

(** What [observe] refuses for lack of room. *)
Lemma observe_capacity g tp epoch o out :
  (∃ err, (GroupOffsetState_observe g tp epoch o out).2 = Err err ∧
          OffsetStateError_is_capacity err = true) ↔
  max_partition_records g ≤ partition_len g tp ∨ max_group_records g ≤ observed_total g.
Proof.
  unfold GroupOffsetState_observe.
  destruct (Z.leb_spec (max_partition_records g) (partition_len g tp)); [simpl; naive_solver|].
  destruct (Z.leb_spec (max_group_records g) (observed_total g)); [simpl; naive_solver|].
  split; [|lia]. unfold PartitionOffsetState_new, PartitionOffsetState_observe.
  cases_goal; simpl; naive_solver.
Qed.

(** ** Properties *)

(** The coordinator keeps its invariant: from any fresh coordinator, after
    any sequence of calls, every partition's observations are non-empty when
    present and strictly increasing, no partition holds more than its limit,
    the running total is the exact sum over the partitions, and it never
    exceeds the group's limit. *)
Theorem offset_state_invariant (max_partition max_group : Z) (ops : list group_op)
    (Hmax : 0 ≤ max_group) :
  let g := group_run (GroupOffsetState_new max_partition max_group) ops in
  (∀ tp s, partitions g !! tp = Some s →
     increasing (obs s) ∧ (in_flight s ≠ None → obs s ≠ []) ∧
     PartitionOffsetState_observed_len s ≤ max_partition_records g) ∧
  observed_total g = total_observed (partitions g) ∧
  observed_total g ≤ max_group_records g.
Proof.
  intros g. destruct (group_run_inv _ ops (group_new_inv max_partition max_group Hmax)) as [Hp Hb Ht Hg].
  fold g in Hp, Hb, Ht, Hg. split_and!; [|done..].
  intros tp s Hs. destruct (Hp tp s Hs) as [Hi Hne _]. split_and!; [done| |by eapply Hb].
  unfold obs. destruct (in_flight s) as [p|]; [|done]. intros _. by apply Hne.
Qed.

(** C39. A record that failed or was not processed blocks the watermark: as long
    as its partition is not reset, cleared or reassigned, no sequence of calls
    forgets it, and every offset confirmed meanwhile is at most its offset, so
    a commit never passes it. *)
Theorem unsafe_record_blocks_commit (g : GroupOffsetState) (ops : list group_op) (tp : Tp) (o : Z)
    (Hg : group_inv g) (Hu : unsafe_at g tp o)
    (Hops : Forall (λ op, drops_observations tp op = false) ops) :
  unsafe_at (group_run g ops) tp o ∧
  ∀ n, GroupOffsetState_confirmed_offset (group_run g ops) tp = Some n →
    GroupOffsetState_confirmed_offset g tp = Some n ∨ n ≤ o.
Proof.
  revert g Hg Hu. induction Hops as [|op ops Hop _ IH]; intros g Hg Hu; simpl; [by eauto|].
  destruct (group_exec_spec g op Hg) as [Hg' He]. specialize (He tp).
  destruct (unsafe_effect g tp op _ o Hg Hu Hop He) as [Hu' Hn].
  destruct (IH _ Hg' Hu') as [Hu'' Hn'']. split; [done|].
  intros n Hfin. destruct (Hn'' n Hfin) as [Hmid|Hle]; [by apply Hn|by right].
Qed.

(** The confirmed offset of a partition never goes back: over any sequence
    of calls that does not drop the partition's entry it only grows. *)
Theorem confirmed_offset_monotone (g : GroupOffsetState) (ops : list group_op) (tp : Tp) (c : Z)
    (Hg : group_inv g) (Hc : GroupOffsetState_confirmed_offset g tp = Some c)
    (Hops : Forall (λ op, drops_entry tp op = false) ops) :
  ∃ c', GroupOffsetState_confirmed_offset (group_run g ops) tp = Some c' ∧ c ≤ c'.
Proof.
  revert g c Hg Hc. induction Hops as [|op ops Hop _ IH]; intros g c Hg Hc; simpl; [eauto with lia|].
  destruct (group_exec_spec g op Hg) as [Hg' He].
  destruct (confirmed_effect g tp op _ c Hg Hop (He tp) Hc) as (c1 & Hc1 & Hle).
  destruct (IH _ _ Hg' Hc1) as (c2 & Hc2 & Hle2). eauto with lia.
Qed.

(** The offsets offered for commit are exact: an offered next-offset is
    above what is confirmed, every observed record below it is safe, and it is
    either the offset of the first unsafe record or, when all are safe, one
    past the last observed record; gaps in the offsets change nothing. *)
Theorem committable_offsets_exact (g : GroupOffsetState) (m : gmap Tp Z) (tp : Tp) (n : Z)
    (Hg : group_inv g) (Hm : GroupOffsetState_committable_offsets g = Ok m)
    (Hn : m !! tp = Some n) :
  (∀ x, x ∈ obs_at g tp → offset x < n → safe x = true) ∧
  (unsafe_at g tp n ∨
   (∀ x, x ∈ obs_at g tp → safe x = true) ∧ ∃ z, last (obs_at g tp) = Some z ∧ n = offset z + 1) ∧
  ∀ c, GroupOffsetState_confirmed_offset g tp = Some c → c < n.
Proof.
  unfold unsafe_at, obs_at, GroupOffsetState_confirmed_offset.
  destruct (partitions g !! tp) as [s|] eqn:Hs;
    [|by rewrite (committable_offsets_None g m tp) in Hn].
  pose proof (committable_offsets_spec g m tp s Hm Hs) as Hc. rewrite Hn in Hc.
  apply committable_next_Some in Hc as (_ & [Hsafe Hor] & Hw); [|by eapply group_parts].
  split_and!; [done|naive_solver|]. intros c Hl. unfold watermark in Hw. by rewrite Hl in Hw.
Qed.

(** Confirming exactly what was offered always succeeds without panicking,
    records those offsets as confirmed, and leaves nothing further to commit:
    the commit loop of the owner terminates after one round. *)
Theorem commit_round_completes (g : GroupOffsetState) (m : gmap Tp Z)
    (Hg : group_inv g) (Hm : GroupOffsetState_committable_offsets g = Ok m) :
  ∃ g', GroupOffsetState_confirm_committed g m = Some (g', Ok tt) ∧ group_inv g' ∧
    GroupOffsetState_committable_offsets g' = Ok ∅ ∧
    ∀ tp, GroupOffsetState_confirmed_offset g' tp =
          match m !! tp with
          | Some n => Some n
          | None => GroupOffsetState_confirmed_offset g tp
          end.
Proof.
  assert (check_confirmation (partitions g) (btree_iter m) = Ok tt) as Hcheck.
  { apply check_confirmation_Ok. intros tp o Ho%btree_iter_elem.
    destruct (partitions g !! tp) as [s|] eqn:Hs; [|by rewrite (committable_offsets_None g m tp) in Ho].
    exists s. split; [done|]. rewrite <- Ho. by eapply committable_offsets_spec. }
  destruct (group_confirm_spec g m Hg) as (g' & r & Hr & Hspec).
  assert (r = Ok tt) as ->.
  { destruct r as [[]|err]; [done|]. exfalso. unfold GroupOffsetState_confirm_committed in Hr.
    rewrite Hcheck in Hr. rewrite check_confirmation_Ok in Hcheck.
    destruct (apply_confirmation_spec _ _ (btree_iter_NoDup m) Hcheck) as (m' & E & _).
    by rewrite E in Hr. }
  destruct Hspec as [Hg' Hconf]. exists g'. split_and!; [done..| |].
  - apply collect_committable_empty. intros tp s' Hs'%btree_iter_elem. specialize (Hconf tp).
    destruct (m !! tp) as [n|] eqn:Hn.
    + destruct Hconf as (s & t & Hs & Hc & Ht). simplify_eq.
      eapply committable_after_confirm; [|exact Hc]. exact (group_parts g Hg _ _ Hs).
    + rewrite Hs' in Hconf. symmetry in Hconf. rewrite <- Hn.
      by eapply committable_offsets_spec.
  - intros tp. specialize (Hconf tp). unfold GroupOffsetState_confirmed_offset.
    destruct (m !! tp) as [n|]; [|by rewrite Hconf].
    destruct Hconf as (s & t & Hs & Hc & ->).
    apply confirm_partition_spec in Hc as (_ & _ & _ & Hl); [done|].
    exact (group_parts g Hg _ _ Hs).
Qed.

(** Failed calls leave no trace: when [observe], [observe_run] or
    [confirm_committed] reports an error the coordinator is unchanged, so a
    batch is taken whole or not at all; and [confirm_committed] never panics. *)
Theorem failed_calls_change_nothing (g : GroupOffsetState) (Hg : group_inv g) :
  (∀ tp e o out g' err, GroupOffsetState_observe g tp e o out = (g', Err err) → g' = g) ∧
  (∀ tp e outs g' err, GroupOffsetState_observe_run g tp e outs = (g', Err err) → g' = g) ∧
  (∀ offsets g' err, GroupOffsetState_confirm_committed g offsets = Some (g', Err err) → g' = g) ∧
  (∀ offsets, GroupOffsetState_confirm_committed g offsets ≠ None).
Proof.
  split_and!.
  - intros tp e o out g' err H. by apply group_observe_spec in H.
  - intros tp e outs g' err H. by apply group_observe_run_spec in H.
  - intros offsets g' err H. destruct (group_confirm_spec g offsets Hg) as (h & r & Hh & Hr).
    by simplify_eq.
  - intros offsets H. destruct (group_confirm_spec g offsets Hg) as (h & r & Hh & Hr). congruence.
Qed.

(** Recognition of replayed records is exact: a record counts as already
    safe when the confirmed offset of its partition is beyond it, or when the
    progress of the same assignment epoch holds a safe outcome for it, and in
    no other case. *)
Theorem already_safe_iff (g : GroupOffsetState) (tp : Tp) (epoch o : Z) (Hg : group_inv g) :
  GroupOffsetState_already_safe g tp epoch o = true ↔
  (∃ c, GroupOffsetState_confirmed_offset g tp = Some c ∧ o < c) ∨
  (∃ s p x, partitions g !! tp = Some s ∧ in_flight s = Some p ∧ assignment_epoch p = epoch ∧
     x ∈ observed p ∧ offset x = o ∧ safe x = true).
Proof.
  unfold GroupOffsetState_already_safe, GroupOffsetState_confirmed_offset.
  destruct (partitions g !! tp) as [s|] eqn:Hs; [|naive_solver].
  pose proof (part_increasing s (group_parts g Hg _ _ Hs)) as Hinc.
  assert ((match last_confirmed s with Some next => o <? next | None => false end) = true ↔
          ∃ c, last_confirmed s = Some c ∧ o < c) as Hconf.
  { destruct (last_confirmed s) as [c|]; [rewrite Z.ltb_lt|]; naive_solver. }
  destruct (match last_confirmed s with Some next => o <? next | None => false end); [naive_solver|].
  assert (¬ ∃ c, last_confirmed s = Some c ∧ o < c) as Hno by naive_solver.
  unfold obs in Hinc. destruct (in_flight s) as [p|] eqn:Hp; [|naive_solver].
  rewrite andb_true_iff, Z.eqb_eq.
  destruct (find_first (λ item, offset item =? o) (observed p)) as [y|] eqn:Hf.
  - apply find_first_Some in Hf as [Hy Hyo]. apply Z.eqb_eq in Hyo. split.
    + intros [He Hsafe]. right. exists s, p, y. done.
    + intros [?|(s' & p' & x & [= <-] & Hp' & He & Hx & Hxo & Hsafe)]; [done|].
      rewrite Hp in Hp'. injection Hp' as <-.
      split; [done|]. by rewrite (increasing_inj _ y x Hinc Hy Hx) by congruence.
  - rewrite find_first_None in Hf. split; [naive_solver|].
    intros [?|(s' & p' & x & [= <-] & Hp' & He & Hx & Hxo & Hsafe)]; [done|].
    rewrite Hp in Hp'. injection Hp' as <-. apply Hf in Hx. by apply Z.eqb_neq in Hx.
Qed.

(** The dispatch gate is exact: with a positive partition limit,
    [observe] answers with a capacity error precisely when
    [has_dispatch_capacity] is false for that partition. *)
Theorem dispatch_gate_exact (g : GroupOffsetState) (tp : Tp) (epoch o : Z) (out : RecordOutcome)
    (Hmax : 0 < max_partition_records g) :
  (∃ err, (GroupOffsetState_observe g tp epoch o out).2 = Err err ∧
          OffsetStateError_is_capacity err = true) ↔
  GroupOffsetState_has_dispatch_capacity g (Some tp) = false.
Proof.
  unfold GroupOffsetState_has_dispatch_capacity, GroupOffsetState_has_group_capacity.
  pose proof (observe_capacity g tp epoch o out) as Hc. unfold partition_len in Hc.
  destruct (partitions g !! tp) as [s|];
    destruct (Z.ltb_spec (observed_total g) (max_group_records g)); simpl;
    rewrite ?Z.ltb_ge, Hc; naive_solver lia.
Qed.

(** ** Witnesses *)

(** An owner of [orders/0] that saw offsets 5 and 9 succeed and 12 fail. *)
Definition demo_tp : Tp := mkTp "orders" 0.
Definition demo_ops : list group_op :=
  [OpObserve demo_tp 1 5 (Acknowledged AutoOnSuccess);
   OpObserveRun demo_tp 1 [(9, DeadLettered); (12, Failed)]].
Definition demo_group : GroupOffsetState := group_run (GroupOffsetState_new 8 16) demo_ops.

Lemma demo_inv : group_inv demo_group.
Proof. apply group_run_inv, group_new_inv. lia. Qed.

Lemma offset_state_invariant_witness :
  observed_total demo_group = 3 ∧ observed_total demo_group ≤ max_group_records demo_group.
Proof.
  split; [vm_compute; reflexivity|].
  apply (offset_state_invariant 8 16 demo_ops). lia.
Defined.

Lemma unsafe_record_blocks_commit_witness :
  unsafe_at (group_run demo_group [OpConfirm {[demo_tp := 12]}; OpObserve demo_tp 1 13 Unprocessed])
    demo_tp 12 ∧
  GroupOffsetState_confirmed_offset
    (group_run demo_group [OpConfirm {[demo_tp := 12]}; OpObserve demo_tp 1 13 Unprocessed]) demo_tp
  = Some 12.
Proof.
  split; [|vm_compute; reflexivity].
  apply (unsafe_record_blocks_commit demo_group _ demo_tp 12 demo_inv).
  - exists (mkObserved 12 Failed). split_and!; [|done..].
    apply list_elem_of_In. vm_compute. tauto.
  - repeat constructor.
Defined.

Lemma confirmed_offset_monotone_witness :
  ∃ c', GroupOffsetState_confirmed_offset
          (group_run (group_exec demo_group (OpConfirm {[demo_tp := 12]}))
             [OpResetPartition demo_tp; OpObserve demo_tp 2 12 DeadLettered;
              OpConfirm {[demo_tp := 13]}]) demo_tp = Some c' ∧ 12 ≤ c'.
Proof.
  apply confirmed_offset_monotone.
  - apply group_exec_spec, demo_inv.
  - vm_compute. reflexivity.
  - repeat constructor.
Defined.

Lemma committable_offsets_exact_witness :
  GroupOffsetState_committable_offsets demo_group = Ok {[demo_tp := 12]} ∧
  ∀ x, x ∈ obs_at demo_group demo_tp → offset x < 12 → safe x = true.
Proof.
  assert (GroupOffsetState_committable_offsets demo_group = Ok {[demo_tp := 12]}) as H
    by (vm_compute; reflexivity).
  split; [exact H|].
  apply (committable_offsets_exact demo_group {[demo_tp := 12]} demo_tp 12 demo_inv H).
  vm_compute. reflexivity.
Defined.

Lemma commit_round_completes_witness :
  ∃ g', GroupOffsetState_confirm_committed demo_group {[demo_tp := 12]} = Some (g', Ok tt) ∧
        GroupOffsetState_committable_offsets g' = Ok ∅.
Proof.
  destruct (commit_round_completes demo_group {[demo_tp := 12]} demo_inv) as (g' & H & _ & H' & _).
  - vm_compute. reflexivity.
  - exists g'. split; [exact H|exact H'].
Defined.

Lemma failed_calls_change_nothing_witness :
  GroupOffsetState_observe_run demo_group demo_tp 1 [(13, DeadLettered); (13, DeadLettered)]
  = (demo_group, Err (NonIncreasingOffset 13 13)).
Proof.
  destruct (GroupOffsetState_observe_run demo_group demo_tp 1 [(13, DeadLettered); (13, DeadLettered)])
    as [g' r] eqn:E.
  assert (r = Err (NonIncreasingOffset 13 13)) as ->.
  { apply (f_equal snd) in E. vm_compute in E. symmetry. exact E. }
  f_equal. destruct (failed_calls_change_nothing demo_group demo_inv) as (_ & H & _).
  exact (H _ _ _ _ _ E).
Defined.

Lemma dispatch_gate_exact_witness :
  ∃ err, (GroupOffsetState_observe (group_run (GroupOffsetState_new 3 16) demo_ops)
            demo_tp 1 13 Failed).2 = Err err ∧ OffsetStateError_is_capacity err = true.
Proof. apply dispatch_gate_exact; vm_compute; reflexivity. Defined.
