(* ===== verification/KafkaAck.v ===== *)
(** * The manual acknowledgement slots of the Kafka consumer

    Models [nafka/src/consumer/ack.rs].  The slots and the authority flags are
    atomics shared between the handler's threads (which hold [AckToken]s) and
    the owner (which holds the [ManualAckSet]), so every method is a [cmd]: a
    tree of single atomic actions on the shared memory.  A schedule picks which
    thread performs its next action; every interleaving is a schedule.  The
    atomics are read and written through one location each, for which
    acquire/release accesses are interleaved reads and writes. *)

From Stdlib Require Import ZArith Lia.
From S2P Require Import Prelude.
From stdpp Require Import prelude strings functions list.

Local Open Scope Z_scope.
Local Open Scope rust_scope.

(** ** Shared memory and atomic actions *)

Definition SLOT_OPEN : Z := 0.
Definition SLOT_ACKED : Z := 1.
Definition SLOT_SEALED : Z := 2.

(** [AtomicU8] slots and [AtomicBool] flags, by location. *)
Record Mem := mkMem { slot : nat → Z; flag : nat → bool }.

Definition set_slot (i : nat) (v : Z) (m : Mem) : Mem := mkMem (<[i:=v]> (slot m)) (flag m).
Definition set_flag (f : nat) (v : bool) (m : Mem) : Mem := mkMem (slot m) (<[f:=v]> (flag m)).

Inductive action : Type → Type :=
| LoadFlag (f : nat) : action bool
| LoadState (i : nat) : action Z
| StoreState (i : nat) (v : Z) : action unit
| SwapState (i : nat) (v : Z) : action Z
| CompareExchange (i : nat) (current new : Z) : action bool.

Definition perform {T} (a : action T) (m : Mem) : Mem * T :=
  match a in action T return Mem * T with
  | LoadFlag f => (m, flag m f)
  | LoadState i => (m, slot m i)
  | StoreState i v => (set_slot i v m, tt)
  | SwapState i v => (set_slot i v m, slot m i)
  | CompareExchange i current new =>
      if slot m i =? current then (set_slot i new m, true) else (m, false)
  end.

Inductive cmd (A : Type) : Type :=
| Return (x : A)
| Atomic {T : Type} (a : action T) (k : T → cmd A).
Arguments Return {A} x.
Arguments Atomic {A T} a k.

Fixpoint cmd_bind {A B} (c : cmd A) (f : A → cmd B) : cmd B :=
  match c with
  | Return x => f x
  | Atomic a k => Atomic a (λ v, cmd_bind (k v) f)
  end.
Notation "'do' x <- c 'in' k" := (cmd_bind c (λ x, k))
  (at level 10, x name, c at level 100, k at level 200) : rust_scope.

Definition atomic {T} (a : action T) : cmd T := Atomic a Return.

(** One action of a thread; a finished thread does nothing. *)
Definition cmd_step {A} (m : Mem) (c : cmd A) : Mem * cmd A :=
  match c with
  | Return x => (m, Return x)
  | Atomic a k => let '(m', v) := perform a m in (m', k v)
  end.

(** A run that no other thread interrupts. *)
Fixpoint cmd_run {A} (m : Mem) (c : cmd A) : Mem * A :=
  match c with
  | Return x => (m, x)
  | Atomic a k => let '(m', v) := perform a m in cmd_run m' (k v)
  end.

(** ** Slots and tokens *)

(** The two errors of [NafkaError] this component returns. *)
Inductive AckError := AckExpired | AckNotManual.

(** [authority] and [stopping] are shared flags: locations. *)
Record AckIdentity := mkAckIdentity {
  invocation_id : Z;
  assignment_epoch : Z;
  authority : option nat;
  stopping : option nat;
  topic : string;
  partition : Z;
  offset : Z
}.

Record AckSlot := mkAckSlot { state : nat; identity : AckIdentity }.

Definition AckSlot_new (m : Mem) (loc : nat) (id : AckIdentity) : Mem * AckSlot :=
  (set_slot loc SLOT_OPEN m, mkAckSlot loc id).

Definition AckSlot_authorized (self : AckSlot) : cmd bool :=
  do stopped <- match stopping (identity self) with
                | Some s => atomic (LoadFlag s)
                | None => Return false
                end in
  if stopped then Return false
  else match authority (identity self) with
       | Some a => atomic (LoadFlag a)
       | None => Return true
       end.

(** The body of the [loop] of [acknowledge]; [None] goes round again. *)
Definition acknowledge_body (self : AckSlot) : cmd (option (result unit AckError)) :=
  do ok <- AckSlot_authorized self in
  if negb ok then
    do _ <- atomic (StoreState (state self) SLOT_SEALED) in
    Return (Some (Err AckExpired))
  else
    do st <- atomic (LoadState (state self)) in
    if st =? SLOT_OPEN then
      do swapped <- atomic (CompareExchange (state self) SLOT_OPEN SLOT_ACKED) in
      if swapped then
        do ok <- AckSlot_authorized self in
        Return (Some (if ok then Ok tt else Err AckExpired))
      else Return None
    else if st =? SLOT_ACKED then Return (Some (Ok tt))
    else Return (Some (Err AckExpired)).

Definition AckSlot_seal (self : AckSlot) : cmd bool :=
  do old <- atomic (SwapState (state self) SLOT_SEALED) in
  if old =? SLOT_ACKED then AckSlot_authorized self else Return false.

(** [AckToken] is the slot it points to. *)
Inductive RecordAck := Auto | Manual (token : AckSlot).

(** The first iteration of [RecordAck::acknowledge]. *)
Definition RecordAck_acknowledge (self : RecordAck) : cmd (option (result unit AckError)) :=
  match self with
  | Auto => Return (Some (Err AckNotManual))
  | Manual token => acknowledge_body token
  end.

Definition RecordAck_into_token (self : RecordAck) : result AckSlot AckError :=
  match self with
  | Auto => Err AckNotManual
  | Manual token => Ok token
  end.

(** ** The set of one handler call *)

Record ManualAckSummary := mkSummary { prefix : nat; acked : nat }.

(** [ManualAckSet]: its slots, each in its own location from [loc] on. *)
Fixpoint ManualAckSet_new (m : Mem) (loc : nat) (identities : list AckIdentity)
    : Mem * list AckSlot :=
  match identities with
  | [] => (m, [])
  | id :: rest =>
      let '(m, s) := AckSlot_new m loc id in
      let '(m, slots) := ManualAckSet_new m (S loc) rest in
      (m, s :: slots)
  end.

(** [None] is the panic of indexing out of range. *)
Definition ManualAckSet_record_ack (slots : list AckSlot) (index : nat) : option RecordAck :=
  Manual <$> slots !! index.

Fixpoint seal_all (slots : list AckSlot) : cmd (list bool) :=
  match slots with
  | [] => Return []
  | s :: rest =>
      do b <- AckSlot_seal s in
      do bs <- seal_all rest in
      Return (b :: bs)
  end.

Fixpoint take_while_count (states : list bool) : nat :=
  match states with
  | true :: rest => S (take_while_count rest)
  | _ => 0
  end.

Definition summarise (handler_succeeded : bool) (states : list bool) : ManualAckSummary :=
  if handler_succeeded then
    {| prefix := take_while_count states; acked := length (List.filter id states) |}
  else {| prefix := 0; acked := 0 |}.

Definition ManualAckSet_finish (slots : list AckSlot) (handler_succeeded : bool)
    : cmd ManualAckSummary :=
  do states <- seal_all slots in
  Return (summarise handler_succeeded states).

Definition ManualAckSet_drop (slots : list AckSlot) : cmd unit :=
  do _ <- seal_all slots in
  Return tt.

(** ** Interleavings *)

(** A thread inside [token.ack()]. *)
Record Acker := mkAcker { token : AckSlot; running : cmd (option (result unit AckError)) }.

(** What the owner does with the set: [finish] and then the destructor, or the
    destructor alone when the handler future is dropped. *)
Definition owner_program (slots : list AckSlot) (returned : option bool)
    : cmd (option ManualAckSummary) :=
  match returned with
  | Some succeeded =>
      do summary <- ManualAckSet_finish slots succeeded in
      do _ <- ManualAckSet_drop slots in
      Return (Some summary)
  | None =>
      do _ <- ManualAckSet_drop slots in
      Return None
  end.

Record Sys := mkSys { mem : Mem; ackers : list Acker; owner : cmd (option ManualAckSummary) }.

Inductive event :=
| EvAck (t : AckSlot)            (* some thread calls [ack] on the token *)
| EvAcker (n : nat)              (* the n-th such thread performs one action *)
| EvOwner                        (* the owner performs one action *)
| EvFlag (f : nat) (v : bool).   (* an authority or stopping flag is stored *)

Definition advance (m : Mem) (a : Acker) : Mem * Acker :=
  let '(m', c) := cmd_step m (running a) in
  (m', mkAcker (token a) (match c with
                          | Return None => acknowledge_body (token a)
                          | _ => c
                          end)).

Definition sys_exec (s : Sys) (e : event) : Sys :=
  match e with
  | EvAck t => mkSys (mem s) (ackers s ++ [mkAcker t (acknowledge_body t)]) (owner s)
  | EvAcker n =>
      match ackers s !! n with
      | Some a => let '(m, a') := advance (mem s) a in
                  mkSys m (<[n:=a']> (ackers s)) (owner s)
      | None => s
      end
  | EvOwner => let '(m, c) := cmd_step (mem s) (owner s) in mkSys m (ackers s) c
  | EvFlag f v => mkSys (set_flag f v (mem s)) (ackers s) (owner s)
  end.

Definition sys_run (s : Sys) (schedule : list event) : Sys := foldl sys_exec s schedule.

(** The system when the handler is called. *)
Definition sys_start (m : Mem) (slots : list AckSlot) (returned : option bool) : Sys :=
  mkSys m [] (owner_program slots returned).

(** How often the owner, or the [n]-th thread, is scheduled. *)
Definition owner_turn (e : event) : bool := match e with EvOwner => true | _ => false end.
Definition acker_turn (n : nat) (e : event) : bool :=
  match e with EvAcker k => Nat.eqb k n | _ => false end.
Definition turns (p : event → bool) (schedule : list event) : nat := length (List.filter p schedule).

(** ** Rely and guarantee *)

Section rely.
(** Which slots some token may acknowledge, and which flag values are final. *)
Context (used : nat → Prop) (frozen : nat → bool → Prop).

(** What any thread may do to the shared memory: open an acknowledgement of a
    used slot, seal a slot, change a flag that is not final. *)
Definition evolves (m m' : Mem) : Prop :=
  (∀ i, slot m' i = slot m i ∨ (used i ∧ slot m i = SLOT_OPEN ∧ slot m' i = SLOT_ACKED) ∨
        slot m' i = SLOT_SEALED) ∧
  (∀ f v, frozen f v → flag m f = v → flag m' f = v).

#[local] Instance evolves_preorder : PreOrder evolves.
Proof.
  split.
  - intros m. split; auto.
  - intros m1 m2 m3 [Hs Hf] [Hs' Hf']. split; [|eauto].
    intros i. destruct (Hs i) as [E | [(? & ? & E) | E]], (Hs' i) as [E' | [(? & ? & E') | E']];
      rewrite ?E in *; try congruence; auto; by right; left.
Qed.

Lemma evolves_set_slot m i v :
  v = SLOT_SEALED ∨ (used i ∧ slot m i = SLOT_OPEN ∧ v = SLOT_ACKED) → evolves m (set_slot i v m).
Proof.
  intros H. split; [|done]. intros j. simpl. destruct (decide (i = j)) as [<-|Hne].
  - rewrite fn_lookup_insert. naive_solver.
  - rewrite fn_lookup_insert_ne by done. auto.
Qed.

Lemma evolves_sealed m m' i : evolves m m' → slot m i = SLOT_SEALED → slot m' i = SLOT_SEALED.
Proof. intros [Hs _] E. by destruct (Hs i) as [-> | [(_ & E' & _) | ? ]]; [|rewrite E in E'|]. Qed.

Lemma evolves_not_open m m' i : evolves m m' → slot m i ≠ SLOT_OPEN → slot m' i ≠ SLOT_OPEN.
Proof. intros [Hs _] E. by destruct (Hs i) as [-> | [(_ & E' & _) | ->]]. Qed.

Lemma evolves_not_acked m m' i :
  ¬ used i → evolves m m' → slot m i ≠ SLOT_ACKED → slot m' i ≠ SLOT_ACKED.
Proof. intros Hu [Hs _] E. by destruct (Hs i) as [-> | [(? & _) | ->]]. Qed.

(** [wp n c Q m]: however the other threads interfere, [c] started in [m] does
    only what [evolves] allows, ends within [n] actions of its own, and ends
    in [Q], which also sees how many of the [n] are left. *)
Fixpoint wp {A} (n : nat) (c : cmd A) (Q : nat → A → Mem → Prop) (m : Mem)
    {struct c} : Prop :=
  match c with
  | Return x => Q n x m
  | Atomic a k =>
      match n with
      | O => False
      | S n' => ∀ m1, evolves m m1 →
                evolves m1 (perform a m1).1 ∧ wp n' (k (perform a m1).2) Q (perform a m1).1
      end
  end.

Definition stable {A} (Q : nat → A → Mem → Prop) : Prop :=
  ∀ n x m m', evolves m m' → Q n x m → Q n x m'.

Lemma wp_evolves {A} (Q : nat → A → Mem → Prop) c n m m' :
  stable Q → evolves m m' → wp n c Q m → wp n c Q m'.
Proof.
  intros HQ He. destruct c as [x|T a k]; simpl; [by apply HQ|].
  destruct n; [done|]. intros H m1 Hm1. apply H. by trans m'.
Qed.

Lemma wp_mono {A} (Q Q' : nat → A → Mem → Prop) c n m :
  (∀ n x m, Q n x m → Q' n x m) → wp n c Q m → wp n c Q' m.
Proof.
  intros HQ. revert n m. induction c as [x|T a k IH]; intros n m; simpl; [apply HQ|].
  destruct n; [done|]. intros H m1 Hm1. destruct (H m1 Hm1). auto.
Qed.

Lemma wp_bind {A B} (c : cmd A) (f : A → cmd B) n Q m :
  wp n c (λ n x m, wp n (f x) Q m) m → wp n (cmd_bind c f) Q m.
Proof.
  revert n m. induction c as [x|T a k IH]; intros n m; simpl; [done|].
  destruct n; [done|]. intros H m1 Hm1. destruct (H m1 Hm1). auto.
Qed.

Lemma wp_step {A} (Q : nat → A → Mem → Prop) n c m :
  wp n c Q m →
  evolves m (cmd_step m c).1 ∧
  (match c with Return _ => True | Atomic _ _ => 0 < n end)%nat ∧
  wp (match c with Return _ => n | Atomic _ _ => pred n end) (cmd_step m c).2 Q (cmd_step m c).1.
Proof.
  destruct c as [x|T a k]; simpl; [done|].
  destruct n; [done|]. intros H. specialize (H m). destruct (perform a m) as [m' v]. simpl in *.
  destruct H; [done|]. auto with lia.
Qed.

Lemma wp_atomic {T} (a : action T) n Q m :
  (∀ m1, evolves m m1 →
     evolves m1 (perform a m1).1 ∧ Q n (perform a m1).2 (perform a m1).1) →
  wp (S n) (atomic a) Q m.
Proof. done. Qed.

(** The slot's permission has been withdrawn for good. *)
Definition unauthorized (s : AckSlot) (m : Mem) : Prop :=
  (∃ f, stopping (identity s) = Some f ∧ frozen f true ∧ flag m f = true) ∨
  (∃ f, authority (identity s) = Some f ∧ frozen f false ∧ flag m f = false).

Lemma unauthorized_evolves s m m' : evolves m m' → unauthorized s m → unauthorized s m'.
Proof. intros [_ Hf] [(f & ? & ? & ?)|(f & ? & ? & ?)]; [left|right]; exists f; auto. Qed.

Lemma wp_authorized s n Q m :
  (2 ≤ n)%nat →
  (∀ k b m', evolves m m' → (n ≤ k + 2)%nat → (unauthorized s m → b = false) → Q k b m') →
  wp n (AckSlot_authorized s) Q m.
Proof.
  intros Hn HQ. destruct n as [|[|n]]; [lia..|].
  apply wp_bind. destruct (stopping (identity s)) as [f|] eqn:Hs.
  - intros m1 Hm1. simpl. split; [done|]. destruct (flag m1 f) eqn:Hf.
    { apply HQ; [done|lia|done]. }
    assert (unauthorized s m1 → ∃ g, authority (identity s) = Some g ∧ frozen g false ∧ flag m1 g = false)
      as Hau by (intros [(g & ? & ? & ?)|?]; [congruence|done]).
    destruct (authority (identity s)) as [g|] eqn:Ha.
    + intros m2 Hm2. split; [done|]. apply HQ; [by trans m1|simpl; lia|]. intros Hu.
      destruct Hau as (g' & [= <-] & Hfz & Hg); [by eapply unauthorized_evolves|].
      by apply Hm2.
    + apply HQ; [done|lia|]. intros Hu.
      destruct Hau as (g' & ? & _); [by eapply unauthorized_evolves|done].
  - simpl. destruct (authority (identity s)) as [g|] eqn:Ha.
    + intros m2 Hm2. split; [done|]. apply HQ; [done|simpl; lia|].
      intros [(f & ? & _)|(f & Hf & Hfz & Hg)]; [congruence|].
      replace g with f by congruence. by apply Hm2.
    + apply HQ; [done|lia|]. intros [(f & ? & _)|(f & ? & _)]; congruence.
Qed.

(** What a call of [ack] ends with; [None] is the way back into the loop. *)
Definition ack_post (expired : Prop) (s : AckSlot) (n : nat) (r : option (result unit AckError))
    (m : Mem) : Prop :=
  match r with
  | None => slot m (state s) ≠ SLOT_OPEN ∧ (3 ≤ n)%nat ∧ ¬ expired
  | Some (Ok _) => slot m (state s) ≠ SLOT_OPEN ∧ ¬ expired
  | Some (Err e) => e = AckExpired
  end.

Lemma ack_post_stable expired s : stable (ack_post expired s).
Proof.
  intros n [[[]|e]|] m m' He; simpl; [|done|];
    intros [H ?]; (split; [by eapply evolves_not_open|done]).
Qed.

Lemma wp_ack s m n : used (state s) → (7 ≤ n)%nat → wp n (acknowledge_body s) (ack_post False s) m.
Proof.
  intros Hu Hn. apply wp_bind, wp_authorized; [lia|]. intros k [] m1 _ Hk _; simpl.
  2:{ destruct k as [|k]; [lia|]. intros m2 _. simpl. split; [|done].
      apply evolves_set_slot. by left. }
  destruct k as [|k]; [lia|]. intros m2 _. simpl. split; [done|].
  destruct (Z.eqb_spec (slot m2 (state s)) SLOT_OPEN) as [Ho|Ho].
  - destruct k as [|k]; [lia|]. intros m3 _. simpl.
    destruct (Z.eqb_spec (slot m3 (state s)) SLOT_OPEN) as [Ho3|Ho3]; simpl.
    + split; [apply evolves_set_slot; by right|].
      apply wp_bind, wp_authorized; [lia|]. intros k' b m4 Hm4 _ _. simpl.
      destruct b; [|done]. split; [|tauto]. eapply evolves_not_open; [done|].
      simpl. by rewrite fn_lookup_insert.
    + split; [done|]. split_and!; [done|lia|tauto].
  - destruct (Z.eqb_spec (slot m2 (state s)) SLOT_ACKED) as [Ha|Ha]; simpl; [|done].
    split; [done|tauto].
Qed.

(** A slot that is no longer open ends the loop in this iteration. *)
Lemma wp_ack_again expired s m n :
  slot m (state s) ≠ SLOT_OPEN → (expired → slot m (state s) = SLOT_SEALED) → (3 ≤ n)%nat →
  wp n (acknowledge_body s) (ack_post expired s) m.
Proof.
  intros Ho He Hn. apply wp_bind, wp_authorized; [lia|]. intros k [] m1 Hm1 Hk _; simpl.
  2:{ destruct k as [|k]; [lia|]. intros m2 _. simpl. split; [|done].
      apply evolves_set_slot. by left. }
  destruct k as [|k]; [lia|]. intros m2 Hm2. simpl. split; [done|].
  assert (evolves m m2) as Hm by by trans m1.
  destruct (Z.eqb_spec (slot m2 (state s)) SLOT_OPEN) as [Ho2|Ho2].
  { by eapply evolves_not_open in Ho2. }
  destruct (Z.eqb_spec (slot m2 (state s)) SLOT_ACKED) as [Ha|Ha]; simpl; [|done].
  split; [done|]. intros Hx. eapply evolves_sealed in Hm; [|by apply He]. by rewrite Ha in Hm.
Qed.

(** A slot that sealing must not count: no token may acknowledge it, or its
    permission is gone, or it is sealed already. *)
Definition discounted (s : AckSlot) (m : Mem) : Prop :=
  (¬ used (state s) ∧ slot m (state s) ≠ SLOT_ACKED) ∨ unauthorized s m ∨
  slot m (state s) = SLOT_SEALED.

Lemma discounted_evolves s m m' : evolves m m' → discounted s m → discounted s m'.
Proof.
  intros He [[Hu Ha]|[Hu|Hs]].
  - left. split; [done|]. by eapply evolves_not_acked.
  - right; left. by eapply unauthorized_evolves.
  - right; right. by eapply evolves_sealed.
Qed.

Lemma wp_seal s n Q m :
  (3 ≤ n)%nat →
  (∀ k b m', evolves m m' → (n ≤ k + 3)%nat → slot m' (state s) = SLOT_SEALED →
     (discounted s m → b = false) → Q k b m') →
  wp n (AckSlot_seal s) Q m.
Proof.
  intros Hn HQ. destruct n as [|n]; [lia|]. intros m1 Hm1. simpl.
  assert (evolves m1 (set_slot (state s) SLOT_SEALED m1)) as Hm2
    by (apply evolves_set_slot; by left).
  assert (slot (set_slot (state s) SLOT_SEALED m1) (state s) = SLOT_SEALED) as Hs
    by apply fn_lookup_insert.
  split; [done|].
  destruct (Z.eqb_spec (slot m1 (state s)) SLOT_ACKED) as [Ha|Ha].
  - apply wp_authorized; [lia|]. intros k b m' Hm' Hk Hb. apply HQ.
    + by trans m1; [|trans (set_slot (state s) SLOT_SEALED m1)].
    + lia.
    + by eapply evolves_sealed.
    + intros Hd. apply Hb. eapply unauthorized_evolves; [exact Hm2|].
      destruct (discounted_evolves _ _ _ Hm1 Hd) as [[_ ?]|[?|E]]; [done..|].
      by rewrite Ha in E.
  - apply HQ; [by trans m1|lia|done..].
Qed.

Lemma wp_seal_all slots n Q m :
  (3 * length slots ≤ n)%nat →
  (∀ k bs m', evolves m m' → (n ≤ k + 3 * length slots)%nat →
     (∀ s, s ∈ slots → slot m' (state s) = SLOT_SEALED) →
     Forall2 (λ s b, discounted s m → b = false) slots bs → Q k bs m') →
  wp n (seal_all slots) Q m.
Proof.
  revert n Q m. induction slots as [|s slots IH]; intros n Q m Hn HQ;
    cbn [seal_all length] in *.
  { apply HQ; [done|lia|set_solver|constructor]. }
  apply wp_bind, wp_seal; [lia|]. intros k b m1 Hm1 Hk Hs Hb.
  apply wp_bind, IH; [lia|]. intros k' bs m2 Hm2 Hk' Hall Hbs. simpl. apply HQ.
  - by trans m1.
  - lia.
  - intros s' [->|Hin]%elem_of_cons; [by eapply evolves_sealed|by apply Hall].
  - constructor; [done|]. eapply Forall2_impl; [exact Hbs|]. intros s' b' H Hd.
    by eapply H, discounted_evolves.
Qed.

(** What the owner ends with, having started in [m0]. *)
Definition owner_post (slots : list AckSlot) (returned : option bool) (m0 : Mem) (n : nat)
    (r : option ManualAckSummary) (m : Mem) : Prop :=
  (∀ s, s ∈ slots → slot m (state s) = SLOT_SEALED) ∧
  match returned with
  | Some succeeded => ∃ bs, r = Some (summarise succeeded bs) ∧
                            Forall2 (λ s b, discounted s m0 → b = false) slots bs
  | None => r = None
  end.

Lemma owner_post_stable slots returned m0 : stable (owner_post slots returned m0).
Proof.
  intros n r m m' He [Hs Hr]. split; [|done]. intros s Hin. eapply evolves_sealed; [done|by apply Hs].
Qed.

Lemma wp_owner slots returned m :
  wp (6 * length slots) (owner_program slots returned) (owner_post slots returned m) m.
Proof.
  destruct returned as [succeeded|]; simpl.
  - apply wp_bind, wp_bind, wp_seal_all; [lia|]. intros k bs m1 Hm1 Hk Hs Hbs. simpl.
    apply wp_bind, wp_bind, wp_seal_all; [lia|]. intros k' bs' m2 Hm2 Hk' Hs' _. simpl.
    split; [done|eauto].
  - apply wp_bind, wp_bind, wp_seal_all; [lia|]. intros k bs m1 Hm1 Hk Hs Hbs. by split.
Qed.

(** *** The whole system *)

Definition event_ok (e : event) : Prop :=
  match e with
  | EvAck t => used (state t)
  | EvFlag f v => ∀ w, frozen f w → v = w
  | _ => True
  end.

Definition acker_ok (m : Mem) (a : Acker) : Prop :=
  ∃ n, wp n (running a) (ack_post False (token a)) m.

Definition owner_ok (n : nat) (P : nat → option ManualAckSummary → Mem → Prop) (s : Sys) : Prop :=
  wp n (owner s) P (mem s).

Definition ackers_ok (s : Sys) : Prop := Forall (acker_ok (mem s)) (ackers s).

Lemma advance_ok expired m a n :
  wp n (running a) (ack_post expired (token a)) m →
  evolves m (advance m a).1 ∧ token (advance m a).2 = token a ∧
  wp (match running a with Return _ => n | Atomic _ _ => pred n end)
    (running (advance m a).2) (ack_post expired (token a)) (advance m a).1 ∧
  ((∃ r, running a = Return (Some r)) ∧ (advance m a).2 = a ∨
   (∀ r, running a ≠ Return (Some r)) ∧ (0 < n)%nat).
Proof.
  intros Hwp. destruct (wp_step _ _ _ _ Hwp) as (He & Hn & Hwp').
  unfold advance. destruct (cmd_step m (running a)) as [m' c] eqn:Hc. simpl in *.
  split_and!; [done..| |].
  - destruct c as [[r|]|T act k]; [done| |done]. destruct Hwp' as (Ho & Hk & Hx).
    by apply wp_ack_again.
  - destruct (running a) as [[r|]|T act k] eqn:Hr; [left|right|by right].
    + split; [by eauto|]. injection Hc as <- <-. destruct a. simpl in *. by subst.
    + destruct Hwp as (_ & ? & _). split; [done|lia].
Qed.

Lemma acker_ok_evolves m m' a : evolves m m' → acker_ok m a → acker_ok m' a.
Proof. intros He [n H]. exists n. eapply wp_evolves; [apply ack_post_stable|done..]. Qed.

Lemma ackers_ok_evolves m m' l : evolves m m' → Forall (acker_ok m) l → Forall (acker_ok m') l.
Proof. intros He H. eapply Forall_impl; [exact H|]. intros a. by apply acker_ok_evolves. Qed.

Lemma evolves_set_flag f v m : (∀ w, frozen f w → v = w) → evolves m (set_flag f v m).
Proof.
  intros H. split; [by left|]. intros g w Hz E. simpl. destruct (decide (f = g)) as [<-|Hne].
  - rewrite fn_lookup_insert. by apply H.
  - by rewrite fn_lookup_insert_ne.
Qed.

Lemma sys_exec_ok P e s n :
  stable P → event_ok e → ackers_ok s → owner_ok n P s →
  evolves (mem s) (mem (sys_exec s e)) ∧ ackers_ok (sys_exec s e) ∧
  ∃ n', owner_ok n' P (sys_exec s e) ∧
        ((∃ r, owner s = Return r ∧ owner (sys_exec s e) = Return r) ∨
         (n' + turns owner_turn [e] ≤ n)%nat).
Proof.
  intros HP He Ha Ho. unfold turns. destruct e as [t|j| |f v]; simpl in *.
  - split_and!; [done| |exists n; split; [done|right; lia]].
    apply Forall_app. split; [done|]. repeat constructor. exists 7%nat. by apply wp_ack.
  - destruct (ackers s !! j) as [a|] eqn:Hj.
    2:{ split_and!; [done..|]. exists n. split; [done|right; lia]. }
    pose proof (Forall_lookup_1 _ _ _ _ Ha Hj) as [k Hk].
    destruct (advance_ok _ _ _ _ Hk) as (Hev & Ht & Hwp & _).
    destruct (advance (mem s) a) as [m' a']. simpl in *.
    split_and!; [done| |].
    + apply Forall_insert; [by eapply ackers_ok_evolves|]. rewrite <- Ht in Hwp. by eexists.
    + exists n. split; [by eapply wp_evolves|right; lia].
  - destruct (wp_step _ _ _ _ Ho) as (Hev & Hn & Hwp).
    destruct (owner s) as [r|T a k] eqn:Hc; simpl in *.
    + split_and!; [done..|]. exists n. split; [by unfold owner_ok; simpl|left; eauto].
    + destruct (perform a (mem s)) as [m' v]. simpl in *.
      split_and!; [done|by eapply ackers_ok_evolves|].
      exists (pred n). split; [done|right; lia].
  - pose proof (evolves_set_flag f v (mem s) He) as Hev.
    split_and!; [done|by eapply ackers_ok_evolves|].
    exists n. split; [by eapply wp_evolves|right; lia].
Qed.

Lemma turns_cons p e schedule : turns p (e :: schedule) = (turns p [e] + turns p schedule)%nat.
Proof. unfold turns. simpl. by destruct (p e). Qed.

Lemma owner_done s schedule r : owner s = Return r → owner (sys_run s schedule) = Return r.
Proof.
  unfold sys_run. revert s. induction schedule as [|e schedule IH]; intros s H; simpl; [done|].
  apply IH. destruct e; simpl; [done| |by rewrite H|done].
  destruct (ackers s !! n) as [a|]; [|done]. by destruct (advance (mem s) a).
Qed.

Lemma sys_run_ok P schedule s n :
  stable P → Forall event_ok schedule → ackers_ok s → owner_ok n P s →
  let s' := sys_run s schedule in
  evolves (mem s) (mem s') ∧ ackers_ok s' ∧
  ∃ n', owner_ok n' P s' ∧
        ((∃ r, owner s' = Return r) ∨ (n' + turns owner_turn schedule ≤ n)%nat).
Proof.
  intros HP Hall. revert s n. induction Hall as [|e schedule He _ IH]; intros s n Ha Ho s'; simpl in *.
  { split_and!; [done..|]. exists n. split; [done|]. right. unfold turns, s'. simpl. lia. }
  destruct (sys_exec_ok P e s n HP He Ha Ho) as (Hev & Ha' & n1 & Ho' & Hn1).
  destruct (IH _ _ Ha' Ho') as (Hev' & Ha'' & n2 & Ho'' & Hn2).
  split_and!; [by trans (mem (sys_exec s e))|done|]. exists n2. split; [done|].
  rewrite turns_cons.
  destruct Hn2 as [?|Hn2]; [by left|]. destruct Hn1 as [(r & _ & Hr)|Hn1]; [|right; lia].
  left. exists r. by apply owner_done.
Qed.

(** *** One thread inside [ack] *)

Lemma acker_done s schedule j a r :
  ackers s !! j = Some a → running a = Return (Some r) →
  ackers (sys_run s schedule) !! j = Some a.
Proof.
  unfold sys_run. revert s. induction schedule as [|e schedule IH]; intros s Hj Hr; simpl; [done|].
  apply IH; [|done]. destruct e as [t|k| |f v]; simpl; [|..|done].
  - by apply lookup_app_l_Some.
  - destruct (ackers s !! k) as [b|] eqn:Hk; [|done].
    destruct (decide (k = j)) as [->|Hne].
    + rewrite Hj in Hk. injection Hk as <-. unfold advance. rewrite Hr. simpl.
      rewrite list_lookup_insert_eq by by apply lookup_lt_Some in Hj.
      destruct a. simpl in *. by subst.
    + destruct (advance (mem s) b). simpl. by rewrite list_lookup_insert_ne.
  - by destruct (cmd_step (mem s) (owner s)).
Qed.

Lemma acknowledge_body_acts t : acknowledge_body t ≠ Return None.
Proof.
  unfold acknowledge_body, AckSlot_authorized.
  by destruct (stopping (identity t)), (authority (identity t)).
Qed.

Lemma advance_acts m a : running (advance m a).2 ≠ Return None.
Proof.
  unfold advance. destruct (cmd_step m (running a)) as [m' [[r|]|T act k]]; simpl; [done| |done].
  apply acknowledge_body_acts.
Qed.

Lemma acker_exec expired P k e s j a n :
  stable P → event_ok e → ackers_ok s → owner_ok k P s → ackers s !! j = Some a →
  running a ≠ Return None → wp n (running a) (ack_post expired (token a)) (mem s) →
  ∃ a' n', ackers (sys_exec s e) !! j = Some a' ∧ token a' = token a ∧ running a' ≠ Return None ∧
    wp n' (running a') (ack_post expired (token a)) (mem (sys_exec s e)) ∧
    ((∃ r, running a' = Return (Some r)) ∨ (n' + turns (acker_turn j) [e] ≤ n)%nat).
Proof.
  intros HP He Ha Ho Hj Hact Hwp.
  destruct (sys_exec_ok P e s k HP He Ha Ho) as (Hev & _ & _).
  assert (wp n (running a) (ack_post expired (token a)) (mem (sys_exec s e))) as Hwp'
    by (eapply wp_evolves; [apply ack_post_stable|done..]).
  unfold turns. destruct e as [t|i| |f v]; simpl in *.
  - exists a, n. split_and!; [by apply lookup_app_l_Some|done..|right; lia].
  - destruct (Nat.eqb_spec i j) as [->|Hne].
    + rewrite Hj in *. destruct (advance_ok _ _ _ _ Hwp) as (_ & Ht & Hw & Hcase).
      pose proof (advance_acts (mem s) a) as Hact'.
      destruct (advance (mem s) a) as [m' a']. simpl in *.
      eexists a', _. split_and!; [|done..|].
      { rewrite list_lookup_insert_eq; [done|]. by apply lookup_lt_Some in Hj. }
      destruct Hcase as [[Hr ->]|[Hr Hn]]; [by left|]. right.
      destruct (running a) as [[r|]|T act c]; [by destruct (Hr r)|done|simpl; lia].
    + exists a, n. destruct (ackers s !! i) as [b|] eqn:Hi; [|split_and!; [done..|right; simpl; lia]].
      destruct (advance (mem s) b) as [m' b']. simpl in *.
      split_and!; [by rewrite list_lookup_insert_ne|done..|right; lia].
  - exists a, n. destruct (cmd_step (mem s) (owner s)). split_and!; [done..|right; lia].
  - exists a, n. split_and!; [done..|right; lia].
Qed.

Lemma acker_run expired P k schedule s j a n :
  stable P → Forall event_ok schedule → ackers_ok s → owner_ok k P s → ackers s !! j = Some a →
  running a ≠ Return None → wp n (running a) (ack_post expired (token a)) (mem s) →
  ∃ a' n', ackers (sys_run s schedule) !! j = Some a' ∧ token a' = token a ∧
    wp n' (running a') (ack_post expired (token a)) (mem (sys_run s schedule)) ∧
    ((∃ r, running a' = Return (Some r)) ∨ (n' + turns (acker_turn j) schedule ≤ n)%nat).
Proof.
  intros HP Hall. revert s k a n.
  induction Hall as [|e schedule He _ IH]; intros s k a n Ha Ho Hj Hact Hwp; simpl.
  { exists a, n. split_and!; [done..|]. right. unfold turns. simpl. lia. }
  destruct (acker_exec expired P k e s j a n) as (a1 & n1 & Hj1 & Ht1 & Hact1 & Hwp1 & Hn1); [done..|].
  destruct (sys_exec_ok P e s k HP He Ha Ho) as (_ & Ha1 & k1 & Ho1 & _).
  rewrite <- Ht1 in Hwp1.
  destruct (IH _ k1 a1 n1 Ha1 Ho1 Hj1 Hact1 Hwp1) as (a2 & n2 & Hj2 & Ht2 & Hwp2 & Hn2).
  rewrite Ht1 in Hwp2, Ht2. exists a2, n2. split_and!; [done..|]. rewrite turns_cons.
  destruct Hn1 as [[r Hr]|Hn1]; [left|destruct Hn2; [by left|right; lia]].
  exists r. pose proof (acker_done (sys_exec s e) schedule j a1 r Hj1 Hr) as Hd.
  unfold sys_run in *. simpl in Hj2. congruence.
Qed.

(** What the thread has, once it has been scheduled [n] times. *)
Lemma acker_result expired n a m :
  wp n (running a) (ack_post expired (token a)) m →
  (∃ r, running a = Return (Some r)) ∨ n = O →
  ∃ r, running a = Return (Some r) ∧
       (r = Ok tt ∧ ¬ expired ∧ slot m (state (token a)) ≠ SLOT_OPEN ∨ r = Err AckExpired).
Proof.
  intros Hwp [[r Hr]| ->].
  - rewrite Hr in Hwp. exists r. split; [done|]. destruct r as [[]|e]; simpl in Hwp; naive_solver.
  - destruct (running a) as [[r|]|T act c]; simpl in Hwp; [|lia|done].
    exists r. split; [done|]. destruct r as [[]|e]; simpl in Hwp; naive_solver.
Qed.
End rely.

(** ** Interference in general *)

Definition any_slot : nat → Prop := λ _, True.
Definition no_flag : nat → bool → Prop := λ _ _, False.

Lemma event_ok_any schedule : Forall (event_ok any_slot no_flag) schedule.
Proof. apply Forall_forall. intros [] _; [done..|]. by intros w []. Qed.

Lemma start_ok used frozen m slots returned :
  ackers_ok used frozen (sys_start m slots returned) ∧
  owner_ok used frozen (6 * length slots) (owner_post used frozen slots returned m)
    (sys_start m slots returned).
Proof. split; [constructor|apply wp_owner]. Qed.

Lemma reach_ok m slots returned schedule :
  let s := sys_run (sys_start m slots returned) schedule in
  ackers_ok any_slot no_flag s ∧
  ∃ n, owner_ok any_slot no_flag n (owner_post any_slot no_flag slots returned m) s ∧
       ((∃ r, owner s = Return r) ∨ (n + turns owner_turn schedule ≤ 6 * length slots)%nat).
Proof.
  destruct (start_ok any_slot no_flag m slots returned) as [Ha Ho].
  destruct (sys_run_ok _ _ _ schedule _ _ (owner_post_stable _ _ _ _ _) (event_ok_any _) Ha Ho)
    as (_ & Ha' & H). by split.
Qed.

(** Threads do not touch the flags, so which flags are final is no concern of
    theirs. *)
Lemma perform_flag {T} (a : action T) m : flag (perform a m).1 = flag m.
Proof. destruct a; simpl; [done..|]. by destruct (slot m i =? current). Qed.

Lemma evolves_weaken used frozen m m' : evolves used frozen m m' → evolves used no_flag m m'.
Proof. intros [Hs _]. by split. Qed.

Lemma wp_frozen {A} used frozen n (c : cmd A) Q m : wp used no_flag n c Q m → wp used frozen n c Q m.
Proof.
  revert n m. induction c as [x|T a k IH]; intros n m; simpl; [done|].
  destruct n; [done|]. intros H m1 Hm1. destruct (H m1) as [[Hs _] Hw]; [by eapply evolves_weaken|].
  split; [|by apply IH]. split; [done|]. intros f v _ E. by rewrite perform_flag.
Qed.

(** The [n]-th call of [ack], made after [before] and watched through [after]. *)
Lemma ack_call expired m slots returned before after t n :
  let s := sys_run (sys_start m slots returned) before in
  let j := length (ackers s) in
  wp any_slot no_flag n (acknowledge_body t) (ack_post expired t) (mem s) →
  ∃ a k, ackers (sys_run (sys_exec s (EvAck t)) after) !! j = Some a ∧ token a = t ∧
    wp any_slot no_flag k (running a) (ack_post expired t)
      (mem (sys_run (sys_exec s (EvAck t)) after)) ∧
    ((∃ r, running a = Return (Some r)) ∨ (k + turns (acker_turn j) after ≤ n)%nat).
Proof.
  intros s j Hwp. destruct (reach_ok m slots returned before) as (Ha & k & Ho & _).
  fold s in Ha, Ho.
  destruct (sys_exec_ok _ _ _ (EvAck t) _ _ (owner_post_stable _ _ _ _ _) I Ha Ho)
    as (_ & Ha' & k' & Ho' & _).
  apply (acker_run any_slot no_flag expired _ k' after _ j (mkAcker t (acknowledge_body t)) n
           (owner_post_stable _ _ _ _ _) (event_ok_any _) Ha' Ho'); simpl.
  - unfold j. by rewrite lookup_app_r, Nat.sub_diag.
  - apply acknowledge_body_acts.
  - done.
Qed.

(** *** The summary *)

Lemma summarise_false succeeded bs i :
  bs !! i = Some false →
  (prefix (summarise succeeded bs) ≤ i ∧ acked (summarise succeeded bs) < length bs)%nat.
Proof.
  destruct succeeded; simpl.
  2:{ intros H%lookup_lt_Some. lia. }
  revert i. induction bs as [|b bs IH]; intros i H; [done|]. destruct i as [|i]; simpl in *.
  - injection H as ->. simpl. pose proof (filter_length_le id bs). lia.
  - apply IH in H as [H1 H2]. destruct b; simpl; lia.
Qed.

Lemma summarise_prefix succeeded bs :
  (prefix (summarise succeeded bs) ≤ acked (summarise succeeded bs))%nat.
Proof. destruct succeeded; simpl; [|lia]. induction bs as [|[] bs IH]; simpl; lia. Qed.

Lemma owner_untouched s schedule :
  turns owner_turn schedule = O → owner (sys_run s schedule) = owner s.
Proof.
  unfold sys_run. revert s. induction schedule as [|e schedule IH]; intros s H; simpl; [done|].
  rewrite turns_cons in H. rewrite IH by lia. destruct e; simpl; [done| |done..].
  destruct (ackers s !! n) as [a|]; [|done]. by destruct (advance (mem s) a).
Qed.

Lemma owner_summary used frozen s slots succeeded after i sl summary :
  ackers_ok used frozen s → owner s = owner_program slots (Some succeeded) →
  Forall (event_ok used frozen) after →
  slots !! i = Some sl → discounted used frozen sl (mem s) →
  owner (sys_run s after) = Return (Some summary) →
  (prefix summary ≤ i ∧ acked summary < length slots ∧ prefix summary ≤ acked summary)%nat.
Proof.
  intros Ha Ho Hev Hi Hd Hdone.
  assert (owner_ok used frozen (6 * length slots)
            (owner_post used frozen slots (Some succeeded) (mem s)) s) as Hok.
  { unfold owner_ok. rewrite Ho. apply wp_owner. }
  destruct (sys_run_ok _ _ _ after _ _ (owner_post_stable _ _ _ _ _) Hev Ha Hok)
    as (_ & _ & n & Hok' & _).
  unfold owner_ok in Hok'. rewrite Hdone in Hok'. destruct Hok' as (_ & bs & [= ->] & Hbs).
  destruct (Forall2_lookup_l _ _ _ _ _ Hbs Hi) as (b & Hb & Hfalse).
  rewrite (Hfalse Hd) in Hb. apply Forall2_length in Hbs. rewrite Hbs.
  apply (summarise_false succeeded) in Hb. pose proof (summarise_prefix succeeded bs). lia.
Qed.

(** ** Properties *)

(** Once a slot is sealed, a later [ack] on it never succeeds: however the
    threads interleave, the only result such a call returns is [AckExpired],
    and it has returned it by the time its thread has been scheduled three
    times. *)
Theorem ack_after_seal_expires (m : Mem) (slots : list AckSlot) (returned : option bool)
    (before after : list event) (t : AckSlot)
    (Hsealed : slot (mem (sys_run (sys_start m slots returned) before)) (state t) = SLOT_SEALED) :
  let s := sys_run (sys_start m slots returned) before in
  let j := length (ackers s) in
  ∃ a, ackers (sys_run (sys_exec s (EvAck t)) after) !! j = Some a ∧
    (∀ r, running a = Return (Some r) → r = Err AckExpired) ∧
    ((3 ≤ turns (acker_turn j) after)%nat → running a = Return (Some (Err AckExpired))).
Proof.
  cbv zeta.
  destruct (ack_call True m slots returned before after t 3) as (a & k & Ha & Ht & Hwp & Hk).
  { apply wp_ack_again; [by rewrite Hsealed|done|lia]. }
  exists a. split; [done|].
  assert ((∃ r, running a = Return (Some r)) ∨ k = O → running a = Return (Some (Err AckExpired)))
    as Hres.
  { intros Hd. rewrite <- Ht in Hwp. destruct (acker_result _ _ _ _ _ _ Hwp Hd) as (r & Hr & [?| ->]).
    - naive_solver.
    - done. }
  split.
  - intros r Hr. rewrite Hres in Hr by eauto. by simplify_eq.
  - intros Hturns. apply Hres. destruct Hk as [?|Hk]; [by left|right; lia].
Qed.

(** C40. [ack] is wait-free: whatever the other threads, the owner and the flags
    do, a thread that calls [ack] has returned, with success or [AckExpired],
    by the time it has been scheduled seven times, and success means that the
    slot is not open any more. *)
Theorem ack_wait_free (m : Mem) (slots : list AckSlot) (returned : option bool)
    (before after : list event) (t : AckSlot)
    (Hturns : (7 ≤ turns (acker_turn (length (ackers
                     (sys_run (sys_start m slots returned) before)))) after)%nat) :
  let s := sys_run (sys_start m slots returned) before in
  let s' := sys_run (sys_exec s (EvAck t)) after in
  ∃ a r, ackers s' !! length (ackers s) = Some a ∧ running a = Return (Some r) ∧
    (r = Ok tt ∧ slot (mem s') (state t) ≠ SLOT_OPEN ∨ r = Err AckExpired).
Proof.
  cbv zeta.
  destruct (ack_call False m slots returned before after t 7) as (a & k & Ha & Ht & Hwp & Hk).
  { by apply wp_ack. }
  rewrite <- Ht in Hwp.
  destruct (acker_result _ _ _ _ _ _ Hwp) as (r & Hr & Hcase).
  { destruct Hk as [?|Hk]; [by left|right; lia]. }
  exists a, r. subst t. naive_solver.
Qed.

(** The owner always gets through and leaves every slot sealed for good:
    after six turns per slot [finish] and the destructor (or the destructor
    alone, when the handler was cancelled) are done, whatever the handler's
    threads do, and no later step reopens or acknowledges a slot. *)
Theorem owner_seals_every_slot (m : Mem) (slots : list AckSlot) (returned : option bool)
    (schedule later : list event)
    (Hturns : (6 * length slots ≤ turns owner_turn schedule)%nat) :
  (∃ r, owner (sys_run (sys_start m slots returned) schedule) = Return r ∧
        (r = None ↔ returned = None)) ∧
  ∀ s, s ∈ slots →
    slot (mem (sys_run (sys_start m slots returned) (schedule ++ later))) (state s) = SLOT_SEALED.
Proof.
  assert (∃ r, owner (sys_run (sys_start m slots returned) schedule) = Return r) as [r Hr].
  { destruct (reach_ok m slots returned schedule) as (_ & n & Ho & [?|Hn]); [done|].
    unfold owner_ok in Ho. destruct (owner _) as [r|T a k]; [by exists r|].
    destruct n; [done|lia]. }
  split.
  - exists r. split; [done|].
    destruct (reach_ok m slots returned schedule) as (_ & n & Ho & _).
    unfold owner_ok in Ho. rewrite Hr in Ho. destruct Ho as [_ Ho].
    destruct returned; naive_solver.
  - destruct (reach_ok m slots returned (schedule ++ later)) as (_ & n & Ho & _).
    unfold owner_ok in Ho. revert Ho. unfold sys_run. rewrite foldl_app.
    fold (sys_run (sys_start m slots returned) schedule).
    fold (sys_run (sys_run (sys_start m slots returned) schedule) later).
    rewrite (owner_done _ _ _ Hr). by intros [H _].
Qed.

(** Reasons for which the acknowledgement of a slot must not count when the
    owner starts to finish after [before]: no token of the slot is ever used,
    the source is stopping for good, or the authority has been revoked. *)
Definition void_ack (m : Mem) (s1 : Sys) (before after : list event) (sl : AckSlot) : Prop :=
  (slot m (state sl) ≠ SLOT_ACKED ∧ ∀ t, EvAck t ∈ before ++ after → state t ≠ state sl) ∨
  (∃ f, stopping (identity sl) = Some f ∧ flag (mem s1) f = true ∧ EvFlag f false ∉ after) ∨
  (∃ f, authority (identity sl) = Some f ∧ flag (mem s1) f = false ∧ EvFlag f true ∉ after).

(** What [finish] counts was acknowledged and authorised: a record whose
    token was never used, or whose stop flag was raised or authority revoked
    before [finish] began, is not counted, and neither the prefix nor the
    watermark it feeds reaches past it, in any interleaving. *)
Theorem finish_counts_only_valid_acks (m : Mem) (slots : list AckSlot) (succeeded : bool)
    (before after : list event) (i : nat) (sl : AckSlot) (summary : ManualAckSummary)
    (Hbefore : turns owner_turn before = O)
    (Hi : slots !! i = Some sl)
    (Hvoid : void_ack m (sys_run (sys_start m slots (Some succeeded)) before) before after sl)
    (Hdone : owner (sys_run (sys_start m slots (Some succeeded)) (before ++ after))
             = Return (Some summary)) :
  (prefix summary ≤ i ∧ acked summary < length slots ∧ prefix summary ≤ acked summary)%nat.
Proof.
  set (s0 := sys_start m slots (Some succeeded)) in *.
  assert (owner (sys_run s0 before) = owner_program slots (Some succeeded)) as Howner
    by by rewrite owner_untouched.
  destruct (reach_ok m slots (Some succeeded) before) as [Ha _]. fold s0 in Ha.
  assert (∀ frozen, ackers_ok any_slot frozen (sys_run s0 before)) as Ha'.
  { intros frozen. eapply Forall_impl; [exact Ha|]. intros a [n Hn]. exists n. by apply wp_frozen. }
  assert (owner (sys_run (sys_run s0 before) after) = Return (Some summary)) as Hdone'
    by (revert Hdone; unfold sys_run; by rewrite foldl_app).
  destruct Hvoid as [[Hm Hnever]|[(f & Hf & Hv & Hno)|(f & Hf & Hv & Hno)]].
  - apply (owner_summary (λ l, l ≠ state sl) no_flag s0 slots succeeded (before ++ after) i sl);
      [constructor|done| |done| |done].
    + apply Forall_forall. intros [t|k| |g v] Hin; simpl; [by apply Hnever|done|done|by intros w []].
    + left. split; [|done]. intros H. by apply H.
  - apply (owner_summary any_slot (λ g v, g = f ∧ v = true) (sys_run s0 before) slots succeeded
      after i sl);
      [done..| |done| |done].
    + apply Forall_forall. intros [t| | |g v] Hin; simpl; [done..|].
      intros w [-> ->]. destruct v; [done|]. by destruct Hno.
    + right; left; left. exists f. done.
  - apply (owner_summary any_slot (λ g v, g = f ∧ v = false) (sys_run s0 before) slots succeeded
      after i sl);
      [done..| |done| |done].
    + apply Forall_forall. intros [t| | |g v] Hin; simpl; [done..|].
      intros w [-> ->]. destruct v; [|done]. by destruct Hno.
    + right; left; right. exists f. done.
Qed.

(** Permission as a single read, when nobody interferes. *)
Definition allowed (m : Mem) (s : AckSlot) : bool :=
  negb (match stopping (identity s) with Some f => flag m f | None => false end)
  && match authority (identity s) with Some f => flag m f | None => true end.

Lemma cmd_run_bind {A B} (c : cmd A) (f : A → cmd B) m :
  cmd_run m (cmd_bind c f) = let '(m', x) := cmd_run m c in cmd_run m' (f x).
Proof.
  revert m. induction c as [x|T a k IH]; intros m; simpl; [done|].
  destruct (perform a m) as [m' v]. apply IH.
Qed.

Lemma run_authorized m s : cmd_run m (AckSlot_authorized s) = (m, allowed m s).
Proof.
  unfold AckSlot_authorized, allowed. rewrite cmd_run_bind.
  destruct (stopping (identity s)) as [f|], (authority (identity s)) as [g|]; simpl; [| |done..];
    by destruct (flag m f).
Qed.

Lemma run_seal m s :
  cmd_run m (AckSlot_seal s) =
  (set_slot (state s) SLOT_SEALED m, (slot m (state s) =? SLOT_ACKED) && allowed m s).
Proof.
  unfold AckSlot_seal. rewrite cmd_run_bind. simpl.
  destruct (slot m (state s) =? SLOT_ACKED); [|done]. apply run_authorized.
Qed.

Lemma run_seal_all m slots :
  NoDup (map state slots) →
  cmd_run m (seal_all slots) =
  (foldl (λ m s, set_slot (state s) SLOT_SEALED m) m slots,
   map (λ s, (slot m (state s) =? SLOT_ACKED) && allowed m s) slots).
Proof.
  revert m. induction slots as [|s slots IH]; intros m Hnd; [done|].
  apply NoDup_cons in Hnd as [Hnin Hnd]. cbn [seal_all].
  rewrite cmd_run_bind, run_seal, cmd_run_bind, IH by done. simpl. do 2 f_equal.
  apply map_ext_in. intros s' Hs'%list_elem_of_In. f_equal. simpl.
  rewrite fn_lookup_insert_ne; [done|]. intros E. apply Hnin. rewrite E.
  by apply list_elem_of_fmap_2.
Qed.

(** Uninterrupted, [finish] is exact: on a successful handler the prefix is
    the number of leading records, and [acked] the number of all records, whose
    slot is acknowledged and still permitted; on a failed handler both are
    zero; an [ack] before it on a permitted open slot succeeds and is counted. *)
Theorem finish_exact (m : Mem) (slots : list AckSlot) (succeeded : bool)
    (Hslots : NoDup (map state slots)) :
  (cmd_run m (ManualAckSet_finish slots succeeded)).2 =
    (if succeeded then
       let counted := map (λ s, (slot m (state s) =? SLOT_ACKED) && allowed m s) slots in
       {| prefix := take_while_count counted; acked := length (List.filter id counted) |}
     else {| prefix := 0; acked := 0 |}) ∧
  ∀ s, slot m (state s) = SLOT_OPEN → allowed m s = true →
    cmd_run m (acknowledge_body s) = (set_slot (state s) SLOT_ACKED m, Some (Ok tt)).
Proof.
  split.
  - unfold ManualAckSet_finish. rewrite cmd_run_bind, run_seal_all by done. by destruct succeeded.
  - intros s Ho Hal. unfold acknowledge_body. rewrite cmd_run_bind, run_authorized, Hal. simpl.
    rewrite Ho. simpl. rewrite Ho. simpl. rewrite cmd_run_bind, run_authorized. simpl.
    unfold allowed in *. simpl. by rewrite Hal.
Qed.

(** ** Witnesses *)

(** Two records of one call, sharing an authority flag (1) and a stop flag (0). *)
Definition demo_identity (o : Z) : AckIdentity := mkAckIdentity 1 1 (Some 1%nat) (Some 0%nat) "t" 0 o.
Definition demo_mem : Mem := mkMem (λ _, SLOT_OPEN) (λ f, Nat.eqb f 1).
Definition demo_set : list AckSlot := (ManualAckSet_new demo_mem 0 [demo_identity 5; demo_identity 6]).2.
Definition demo_slot : AckSlot := mkAckSlot 0 (demo_identity 5).

Lemma ack_after_seal_expires_witness :
  ∃ a, ackers (sys_run (sys_exec (sys_run (sys_start demo_mem demo_set (Some true)) [EvOwner])
                 (EvAck demo_slot)) [EvAcker 0; EvOwner; EvAcker 0; EvAcker 0]) !! 0%nat = Some a ∧
    running a = Return (Some (Err AckExpired)).
Proof.
  destruct (ack_after_seal_expires demo_mem demo_set (Some true) [EvOwner]
              [EvAcker 0; EvOwner; EvAcker 0; EvAcker 0] demo_slot) as (a & Ha & _ & Hr).
  - reflexivity.
  - exists a. split; [exact Ha|]. apply Hr. vm_compute. lia.
Defined.

Lemma ack_wait_free_witness :
  ∃ a r, ackers (sys_run (sys_exec (sys_start demo_mem demo_set None) (EvAck demo_slot))
                   (repeat (EvAcker 0) 7)) !! 0%nat = Some a ∧ running a = Return (Some r).
Proof.
  destruct (ack_wait_free demo_mem demo_set None [] (repeat (EvAcker 0) 7) demo_slot)
    as (a & r & Ha & Hr & _).
  - vm_compute. lia.
  - exists a, r. split; [exact Ha|exact Hr].
Defined.

Lemma owner_seals_every_slot_witness :
  slot (mem (sys_run (sys_start demo_mem demo_set None)
               (repeat EvOwner 12 ++ [EvAck demo_slot; EvAcker 0; EvAcker 0; EvAcker 0]))) 0
  = SLOT_SEALED.
Proof.
  apply (owner_seals_every_slot demo_mem demo_set None (repeat EvOwner 12)
           [EvAck demo_slot; EvAcker 0; EvAcker 0; EvAcker 0]) with (s := demo_slot).
  - vm_compute. lia.
  - apply list_elem_of_In. left. reflexivity.
Defined.

(** The first record is acknowledged, the second is not. *)
Definition demo_before : list event := EvAck demo_slot :: repeat (EvAcker 0) 7.
Definition demo_after : list event := repeat EvOwner 12.

Lemma finish_counts_only_valid_acks_witness :
  owner (sys_run (sys_start demo_mem demo_set (Some true)) (demo_before ++ demo_after))
  = Return (Some (mkSummary 1 1)) ∧
  (prefix (mkSummary 1 1) ≤ 1)%nat.
Proof.
  assert (owner (sys_run (sys_start demo_mem demo_set (Some true)) (demo_before ++ demo_after))
          = Return (Some (mkSummary 1 1))) as H by (vm_compute; reflexivity).
  split; [exact H|].
  apply (finish_counts_only_valid_acks demo_mem demo_set true demo_before demo_after 1
           (mkAckSlot 1 (demo_identity 6)) (mkSummary 1 1)); [reflexivity|reflexivity| |exact H].
  left. split; [done|]. intros t Ht%list_elem_of_In. simpl in Ht.
  repeat (destruct Ht as [Ht|Ht]; [try discriminate Ht; injection Ht as <-; simpl; lia|]).
  destruct Ht.
Defined.

Lemma finish_exact_witness :
  (cmd_run (set_slot 0 SLOT_ACKED demo_mem) (ManualAckSet_finish demo_set true)).2 = mkSummary 1 1.
Proof.
  rewrite (proj1 (finish_exact (set_slot 0 SLOT_ACKED demo_mem) demo_set true
                    ltac:(vm_compute; apply (bool_decide_unpack _); vm_compute; exact I))).
  vm_compute. reflexivity.
Defined.
