(* ===== verification/OutboxCore.v ===== *)
(** * The outbox contract and the in-process outbox

    Models [naoutbox-core/src/lib.rs]: events, write contexts, the retention
    policy, publish errors with their class, the in-order dispatch of a batch,
    and [InMemoryOutbox], whose dispatch round may be cancelled at every await
    while other tasks append. *)

From Stdlib Require Import ZArith Lia.
From S2P Require Import Prelude AsyncProg Bytes SagaIdentity SagaState.
From stdpp Require Import prelude strings list relations.

Local Open Scope Z_scope.
Local Open Scope rust_scope.

(** ** Errors *)

Record OutboxStoreError := OutboxStoreError_new { reason : string }.

#[global] Instance OutboxStoreError_eq_dec : EqDecision OutboxStoreError.
Proof. solve_decision. Defined.

Inductive PublishErrorClass := Terminal | Transient.

Record OutboxPublishError := mkPublishError {
  publish_reason : string;
  publish_class : PublishErrorClass
}.

Definition OutboxPublishError_new (reason : string) : OutboxPublishError :=
  mkPublishError reason Terminal.
Definition OutboxPublishError_transient (reason : string) : OutboxPublishError :=
  mkPublishError reason Transient.
Definition is_transient (error : OutboxPublishError) : bool :=
  match publish_class error with Transient => true | Terminal => false end.

Record OutboxArchiveError := OutboxArchiveError_new { archive_reason : string }.

(** ** Events *)

Definition SYSTEM_TENANT : string := "system".
Definition TENANT_QUOTA_EXCEEDED_REASON : string := "outbox_tenant_quota_exceeded".

Record OutboxEvent := mkEvent {
  event_id : string;
  aggregate_type : string;
  aggregate_id : string;
  event_type : string;
  payload : list Z;
  traceparent : option string;
  tenant : string
}.

#[global] Instance OutboxEvent_eq_dec : EqDecision OutboxEvent.
Proof. solve_decision. Defined.

(** [OutboxEvent::new]; the UUID it draws is an argument. *)
Definition OutboxEvent_new (uuid aggregate_type aggregate_id event_type : string) (payload : list Z)
    : OutboxEvent :=
  mkEvent uuid aggregate_type aggregate_id event_type payload None SYSTEM_TENANT.

Definition with_traceparent (self : OutboxEvent) (traceparent : string) : OutboxEvent :=
  mkEvent (event_id self) (aggregate_type self) (aggregate_id self) (event_type self) (payload self)
    (Some traceparent) (tenant self).

(** The tenant column decides the tenant of what is read back. *)
Definition of_tenant (name : string) (self : OutboxEvent) : OutboxEvent :=
  mkEvent (event_id self) (aggregate_type self) (aggregate_id self) (event_type self) (payload self)
    (traceparent self) name.

(** ** Write contexts *)

Record WriteContext := mkWriteContext { context_tenant : string }.

Definition WriteContext_new (tenant : string) : result WriteContext string :=
  ensure negb (is_empty tenant || (256 <? len tenant)) else "outbox tenant must be 1..=256 bytes" in
  ensure negb (any_control (as_bytes tenant)) else
    "outbox tenant must not contain control characters" in
  Ok (mkWriteContext tenant).

(** ** Retention policy *)

Record OutboxRetentionPolicy := mkRetentionPolicy {
  dispatched_min_age_ms : Z;
  batch_limit : Z;
  round_time_budget_ms : Z;
  archive_required : bool;
  delete_dead : bool;
  dead_min_age_ms : option Z;
  dead_approval : option string
}.

Definition approval_acceptable (approval : string) : bool :=
  negb (is_empty approval) && is_trimmed approval && (len approval <=? 128)
  && negb (any_control (as_bytes approval)).

Definition RetentionPolicy_validate (self : OutboxRetentionPolicy) : result unit string :=
  ensure negb (dispatched_min_age_ms self <=? 0) else "dispatched_min_age_ms must be positive" in
  ensure negb ((batch_limit self =? 0) || (10000 <? batch_limit self)) else
    "batch_limit must be within 1..=10000" in
  ensure (1 <=? round_time_budget_ms self) && (round_time_budget_ms self <=? 3600000) else
    "round_time_budget_ms must be within 1..=3600000" in
  if delete_dead self then
    ensure match dead_min_age_ms self with Some age => 0 <? age | None => false end else
      "delete_dead requires a positive dead_min_age_ms" in
    ensure match dead_approval self with
           | Some approval => approval_acceptable approval
           | None => false
           end else
      "delete_dead requires a non-empty bounded dead_approval identifier" in
    Ok tt
  else Ok tt.

Record ArchiveReceipt := mkReceipt { receipt_event_id : string }.

Record RetentionRoundReport := mkRetentionReport {
  archived : Z;
  deleted_dispatched : Z;
  deleted_dead : Z;
  claim_contended : bool;
  budget_exhausted : bool;
  oldest_candidate_age_ms : option Z
}.

(** ** Dispatch *)

Record DispatchReport := mkReport {
  published : nat;
  total : nat;
  first_error : option OutboxPublishError
}.

Definition is_complete (self : DispatchReport) : bool := (published self =? total self)%nat.

(** What a publisher is asked; [Ok] confirms the delivery. *)
Inductive PublishCall : Type → Type :=
| Publish (event : OutboxEvent) : PublishCall (result unit OutboxPublishError).

(** The loop of [dispatch_in_order], [published] events into the batch. *)
Fixpoint dispatch_from (total published : nat) (events : list OutboxEvent)
    : Prog PublishCall DispatchReport :=
  match events with
  | [] => Done (mkReport published total None)
  | event :: rest =>
      await answer := ask (Publish event) in
      match answer with
      | Ok _ => dispatch_from total (S published) rest
      | Err error => Done (mkReport published total (Some error))
      end
  end.

Definition dispatch_in_order (events : list OutboxEvent) : Prog PublishCall DispatchReport :=
  dispatch_from (length events) 0 events.

(** ** The in-process outbox *)

(** [running] is the round that holds the dispatch lock: its [DrainedBatch] and
    what is left of it to do. *)
Record InMemoryOutbox := mkOutbox {
  queue : list OutboxEvent;
  running : option (list OutboxEvent * Prog PublishCall DispatchReport)
}.

Definition InMemoryOutbox_new : InMemoryOutbox := mkOutbox [] None.

Definition InMemoryOutbox_append (event : OutboxEvent) (self : InMemoryOutbox) : InMemoryOutbox :=
  mkOutbox (queue self ++ [event]) (running self).

Definition InMemoryOutbox_drain (self : InMemoryOutbox) : list OutboxEvent * InMemoryOutbox :=
  (queue self, mkOutbox [] (running self)).

Definition InMemoryOutbox_len (self : InMemoryOutbox) : nat := length (queue self).

(** The [Drop] of a [DrainedBatch]. *)
Definition DrainedBatch_drop (events : list OutboxEvent) (published : nat)
    (current : list OutboxEvent) : list OutboxEvent :=
  let published := Nat.min published (length events) in
  let remaining := drop published events in
  match remaining with [] => current | _ => remaining ++ current end.

(** [dispatch_once] from the moment it has the lock to the first publish. *)
Definition dispatch_begin (self : InMemoryOutbox) : InMemoryOutbox :=
  let '(batch, self) := InMemoryOutbox_drain self in
  mkOutbox (queue self) (Some (batch, dispatch_in_order batch)).

(** Its end: [batch.published = report.published], then the guard is dropped;
    a cancelled round drops the guard with [published] at zero. *)
Definition dispatch_end (published : nat) (batch : list OutboxEvent) (self : InMemoryOutbox)
    : InMemoryOutbox :=
  mkOutbox (DrainedBatch_drop batch published (queue self)) None.

(** One publish is answered. *)
Definition dispatch_answer (answer : result unit OutboxPublishError) (self : InMemoryOutbox)
    : option (OutboxEvent * InMemoryOutbox) :=
  match running self with
  | Some (batch, Await call k) =>
      match call in PublishCall B return (B → Prog PublishCall DispatchReport) → _ with
      | Publish event => λ k, Some (event, mkOutbox (queue self) (Some (batch, k answer)))
      end k
  | _ => None
  end.

(** A run of the outbox, with what was appended to it and what its publisher
    has delivered.  An error leaves open whether the event arrived. *)
Record MemRun := mkRun {
  mem : InMemoryOutbox;
  mem_appended : list OutboxEvent;
  mem_delivered : list OutboxEvent
}.

Inductive mem_step : MemRun → MemRun → Prop :=
| mem_append self appended delivered event :
    mem_step (mkRun self appended delivered)
             (mkRun (InMemoryOutbox_append event self) (appended ++ [event]) delivered)
| mem_begin self appended delivered :
    running self = None →
    mem_step (mkRun self appended delivered) (mkRun (dispatch_begin self) appended delivered)
| mem_answer self appended delivered answer event self' arrived :
    dispatch_answer answer self = Some (event, self') →
    (answer = Ok tt → arrived = [event]) → (arrived = [event] ∨ arrived = []) →
    mem_step (mkRun self appended delivered) (mkRun self' appended (delivered ++ arrived))
| mem_end self appended delivered batch report :
    running self = Some (batch, Done report) →
    mem_step (mkRun self appended delivered)
             (mkRun (dispatch_end (published report) batch self) appended delivered)
| mem_cancel self appended delivered batch rest :
    running self = Some (batch, rest) →
    mem_step (mkRun self appended delivered) (mkRun (dispatch_end 0 batch self) appended delivered).

(** What the outbox still holds: the batch in flight, then the queue. *)
Definition held (self : InMemoryOutbox) : list OutboxEvent :=
  match running self with Some (batch, _) => batch | None => [] end ++ queue self.

(** ** First in, first out, at least once *)

Lemma DrainedBatch_drop_eq events n current :
  DrainedBatch_drop events n current = drop n events ++ current.
Proof.
  unfold DrainedBatch_drop. destruct (decide (n ≤ length events)%nat) as [Hn|Hn].
  - rewrite Nat.min_l by done. by destruct (drop n events).
  - rewrite Nat.min_r by lia. by rewrite drop_all, drop_ge by lia.
Qed.

(** A round that has had [n] events of its batch confirmed. *)
Definition confirms (n : nat) (batch : list OutboxEvent) (p : Prog PublishCall DispatchReport) : Prop :=
  (n ≤ length batch)%nat ∧
  (p = dispatch_from (length batch) n (drop n batch) ∨
   ∃ error, p = Done (mkReport n (length batch) error)).

Lemma confirmed_done n batch report : confirms n batch (Done report) → published report = n.
Proof.
  intros [Hn [He|[error [= ->]]]]; [|done].
  destruct (drop n batch); [|done]. by injection He as ->.
Qed.

Lemma confirmed_answer n batch p answer self event self' :
  running self = Some (batch, p) → confirms n batch p →
  dispatch_answer answer self = Some (event, self') →
  ∃ p', self' = mkOutbox (queue self) (Some (batch, p')) ∧ batch !! n = Some event ∧
    confirms (if is_ok answer then S n else n) batch p'.
Proof.
  intros Hr [Hn [->|[error ->]]] Ha; unfold dispatch_answer in Ha; rewrite Hr in Ha; [|done].
  destruct (drop n batch) as [|e rest] eqn:Hd; [done|]. simpl in Ha. injection Ha as <- <-.
  eexists. split; [done|]. assert (batch !! n = Some e) as Hl.
  { replace n with (n + 0)%nat by lia. by rewrite <- lookup_drop, Hd. }
  split; [done|]. apply lookup_lt_Some in Hl as Hlt.
  destruct answer as [[]|error]; simpl; (split; [lia|]).
  - left. f_equal. rewrite (drop_S _ _ _ Hl) in Hd. by injection Hd as ->.
  - right. by exists (Some error).
Qed.

(** [c] events are confirmed and gone, [n] more in the round, and the first
    [m] are what has been delivered. *)
Record mem_inv (c n m : nat) (r : MemRun) : Prop := {
  mi_order : (c + n ≤ m ≤ length (mem_appended r))%nat;
  mi_held : held (mem r) = drop c (mem_appended r);
  mi_delivered : ∀ e, e ∈ mem_delivered r ↔ e ∈ take m (mem_appended r);
  mi_round : match running (mem r) with
             | Some (batch, p) => confirms n batch p
             | None => n = 0%nat
             end
}.

(** An event at most one past what was delivered extends the prefix. *)
Lemma prefix_arrived (appended delivered arrived : list OutboxEvent) m i event :
  (∀ e, e ∈ delivered ↔ e ∈ take m appended) → (i ≤ m)%nat → (m ≤ length appended)%nat →
  appended !! i = Some event → (arrived = [event] ∨ arrived = []) →
  ∃ m', (m ≤ m' ≤ length appended)%nat ∧ (arrived = [event] → (i < m')%nat) ∧
    ∀ e, e ∈ delivered ++ arrived ↔ e ∈ take m' appended.
Proof.
  intros Hd Hi Hm Hl [->| ->].
  - apply lookup_lt_Some in Hl as Hlt. destruct (decide (i = m)) as [->|Hne].
    + exists (S m). split; [lia|]. split; [lia|]. intros e.
      rewrite (take_S_r _ _ _ Hl), !elem_of_app, Hd. done.
    + exists m. split; [lia|]. split; [lia|]. intros e. rewrite elem_of_app, Hd.
      rewrite list_elem_of_singleton. split; [|auto]. intros [He| ->]; [done|].
      apply list_elem_of_lookup_2 with i. by rewrite lookup_take_lt by lia.
  - exists m. rewrite app_nil_r. split; [lia|]. done.
Qed.

Lemma mem_inv_step r r' c n m :
  mem_inv c n m r → mem_step r r' → ∃ c' n' m', mem_inv c' n' m' r'.
Proof.
  intros [Ho Hh Hd Hr] Hs.
  destruct Hs as [self appended delivered event|self appended delivered Hn
    |self appended delivered answer event self' arrived Ha Hok Harr
    |self appended delivered batch report Hrun|self appended delivered batch rest Hrun]; simpl in *.
  - exists c, n, m. split; simpl; [rewrite length_app; simpl; lia| | |done].
    + unfold held in *. simpl. by rewrite app_assoc, Hh, drop_app_le by lia.
    + intros e. by rewrite Hd, take_app_le by lia.
  - rewrite Hn in Hr. subst n. exists c, 0%nat, m. split; simpl; [lia| |done|split; [lia|by left]].
    rewrite <- Hh. unfold held. rewrite Hn. simpl. by rewrite app_nil_r.
  - destruct (running self) as [[batch p]|] eqn:Hrun; [|unfold dispatch_answer in Ha; by rewrite Hrun in Ha].
    destruct (confirmed_answer _ _ _ _ _ _ _ Hrun Hr Ha) as (p' & -> & Hl & Hc).
    assert (appended !! (c + n)%nat = Some event) as Hla.
    { rewrite <- lookup_drop, <- Hh. unfold held. rewrite Hrun. by apply lookup_app_l_Some. }
    destruct (prefix_arrived appended delivered arrived m (c + n) event) as (m' & Hm & Hin & Hd');
      [done|lia..|done|done|].
    exists c, (if is_ok answer then S n else n), m'. split; simpl; [|  |done|done].
    + destruct answer as [[]|]; simpl; [|lia]. specialize (Hin (Hok eq_refl)). lia.
    + rewrite <- Hh. unfold held. by rewrite Hrun.
  - rewrite Hrun in Hr. apply confirmed_done in Hr as Hp. destruct Hr as [Hn _].
    exists (c + n)%nat, 0%nat, m. split; simpl; [lia| |done|done].
    unfold held in *. rewrite Hrun in Hh. simpl. rewrite DrainedBatch_drop_eq, Hp.
    by rewrite <- drop_drop, <- Hh, drop_app_le by done.
  - exists c, 0%nat, m. split; simpl; [lia| |done|done].
    rewrite <- Hh. unfold held. rewrite Hrun. simpl. by rewrite DrainedBatch_drop_eq.
Qed.

(** First in, first out, at least once: however appends, dispatch rounds,
    failed publishes, lost answers and cancelled rounds interleave, what the
    publisher has delivered is exactly a prefix of what was appended, in
    append order, and every event beyond a shorter or equal prefix is still
    held by the outbox, in order.  So no event is skipped, none is lost before
    its delivery, and none is invented. *)
Theorem in_memory_fifo_at_least_once r :
  rtc mem_step (mkRun InMemoryOutbox_new [] []) r →
  ∃ c m, (c ≤ m ≤ length (mem_appended r))%nat ∧
    held (mem r) = drop c (mem_appended r) ∧
    ∀ e, e ∈ mem_delivered r ↔ e ∈ take m (mem_appended r).
Proof.
  intros Hr. assert (∃ c n m, mem_inv c n m r) as (c & n & m & Hi).
  { revert r Hr. apply (rtc_ind_r (λ r, ∃ c n m, mem_inv c n m r)).
    - exists 0%nat, 0%nat, 0%nat. by split; simpl; [lia| |intros e; rewrite elem_of_nil|].
    - intros r1 r2 _ Hs (c & n & m & Hi). by apply (mem_inv_step _ _ _ _ _ Hi). }
  destruct Hi as [Ho Hh Hd _]. exists c, m. split; [lia|]. done.
Qed.

(** ** A run *)

Definition order_created (id : string) : OutboxEvent :=
  OutboxEvent_new id "Order" "42" "OrderCreated" [123; 125].

(** The first event is delivered, the second refused, a third appended
    meanwhile; the next round delivers the second and is then cancelled. *)
Definition mem_cancelled : InMemoryOutbox :=
  mkOutbox [order_created "b"; order_created "c"] None.

Lemma in_memory_fifo_at_least_once_witness :
  ∃ r, rtc mem_step (mkRun InMemoryOutbox_new [] []) r ∧ mem r = mem_cancelled ∧
    mem_delivered r = [order_created "a"; order_created "b"] ∧
    ∃ c m, (c ≤ m ≤ length (mem_appended r))%nat ∧
      held (mem r) = drop c (mem_appended r) ∧
      ∀ e, e ∈ mem_delivered r ↔ e ∈ take m (mem_appended r).
Proof.
  exists (mkRun mem_cancelled [order_created "a"; order_created "b"; order_created "c"]
            [order_created "a"; order_created "b"]).
  assert (Hr : rtc mem_step (mkRun InMemoryOutbox_new [] [])
    (mkRun mem_cancelled [order_created "a"; order_created "b"; order_created "c"]
       [order_created "a"; order_created "b"])).
  { eapply rtc_l; [apply (mem_append _ _ _ (order_created "a"))|].
    eapply rtc_l; [apply (mem_append _ _ _ (order_created "b"))|].
    eapply rtc_l; [by apply mem_begin|].
    eapply rtc_l; [eapply (mem_answer _ _ _ (Ok tt) _ _ [order_created "a"]); [reflexivity|done|by left]|].
    eapply rtc_l; [apply (mem_append _ _ _ (order_created "c"))|].
    eapply rtc_l; [eapply (mem_answer _ _ _ (Err (OutboxPublishError_new "refused")) _ _ []);
      [reflexivity|discriminate|by right]|].
    eapply rtc_l; [eapply mem_end; reflexivity|].
    eapply rtc_l; [by apply mem_begin|].
    eapply rtc_l; [eapply (mem_answer _ _ _ (Ok tt) _ _ [order_created "b"]); [reflexivity|done|by left]|].
    eapply rtc_l; [eapply mem_cancel; reflexivity|]. apply rtc_refl. }
  split; [exact Hr|]. split; [reflexivity|]. split; [reflexivity|].
  exact (in_memory_fifo_at_least_once _ Hr).
Defined.
