(* ===== verification/OutboxStore.v ===== *)
(** * The durable outbox: tables and statements

    Models [naoutbox-pgsql/src/lib.rs]: the routes and quotas frozen for the
    process, the tables [outbox_event], [outbox_dispatch_owner],
    [outbox_tenant_quota] and [outbox_dead_disposal], and every transaction on
    them: appends with the reservation of a tenant's quota, the claim of a lane
    with its fencing token, the poll, the confirmation of a prefix, the count
    of a failure.  [now] is the database clock as a transaction reads it, and
    [locked] the rows that SKIP LOCKED passes over. *)

From Stdlib Require Import ZArith Lia.
From S2P Require Import Prelude AsyncProg Bytes SagaIdentity SagaState OutboxCore.
From stdpp Require Import prelude strings list sorting gmap.

Local Open Scope Z_scope.
Local Open Scope rust_scope.

Definition DEFAULT_CHANNEL : string := "global".
Definition DEFAULT_OWNER_ROLE : string := "dispatch-global".
Definition LANE_OWNER_ROLE : string := "dispatch-lane".
Definition OWNER_LEASE_MS : Z := 30 * 1000.
Definition I32_MAX : Z := 2 ^ 31 - 1.

Definition i64_saturating_sub (a b : Z) : Z := Z.max I64_MIN (Z.min I64_MAX (a - b)).
Definition i64_saturating_add (a b : Z) : Z := Z.max I64_MIN (Z.min I64_MAX (a + b)).

(** [map_err] *)
Definition database_error : OutboxStoreError := OutboxStoreError_new "database error".

(** A BIGINT expression, out of range a database error. *)
Definition bigint (z : Z) : result Z OutboxStoreError :=
  if is_i64 z then Ok z else Err database_error.

(** ** What is frozen for the process *)

Record Frozen := mkFrozen {
  CHANNEL_ROUTES : option (gmap string string);
  TENANT_QUOTAS : option (gmap string Z)
}.

Definition valid_channel_name (channel : string) : bool :=
  negb (is_empty channel) && (len channel <=? 64)
  && forallb (λ b, is_ascii_lowercase b || is_ascii_digit b || (b =? 95) || (b =? 45) || (b =? 46))
       (as_bytes channel).

Definition install_channel_routes (routes : gmap string string) (self : Frozen)
    : result Frozen OutboxStoreError :=
  ensure forallb (λ route, negb (is_empty route.1 || (128 <? len route.1)
                                 || negb (valid_channel_name route.2))) (map_to_list routes) else
    OutboxStoreError_new "channel routes require bounded aggregate types and canonical channel names" in
  let installed := default routes (CHANNEL_ROUTES self) in
  ensure bool_decide (installed = routes) else
    OutboxStoreError_new "channel routes are frozen for the process lifetime" in
  Ok (mkFrozen (Some installed) (TENANT_QUOTAS self)).

Definition channel_of (self : Frozen) (aggregate_type : string) : string :=
  match CHANNEL_ROUTES self with
  | Some routes => default DEFAULT_CHANNEL (routes !! aggregate_type)
  | None => DEFAULT_CHANNEL
  end.

Definition install_outbox_tenant_quotas (quotas : gmap string Z) (self : Frozen)
    : result Frozen OutboxStoreError :=
  ensure forallb (λ quota, negb (negb (is_ok (WriteContext_new quota.1)) || (quota.2 =? 0)
                                 || (I64_MAX <? quota.2))) (map_to_list quotas) else
    OutboxStoreError_new "tenant quotas require canonical tenant names and PostgreSQL BIGINT limits" in
  let installed := default quotas (TENANT_QUOTAS self) in
  ensure bool_decide (installed = quotas) else
    OutboxStoreError_new "tenant quotas are frozen for the process lifetime" in
  Ok (mkFrozen (CHANNEL_ROUTES self) (Some installed)).

Definition outbox_tenant_quota_of (self : Frozen) (tenant : string) : option Z :=
  match TENANT_QUOTAS self with Some quotas => quotas !! tenant | None => None end.

Definition tenant_quotas_enabled (self : Frozen) : bool :=
  match TENANT_QUOTAS self with Some quotas => negb (bool_decide (quotas = ∅)) | None => false end.

(** ** The tables *)

Record OutboxRow := mkRow {
  row_id : Z;
  row_event : OutboxEvent;
  row_channel : string;
  row_dispatched : bool;
  row_attempts : Z;
  row_dead : bool;
  row_dead_at_ms : option Z;
  row_created_at_ms : Z;
  row_dispatched_at_ms : option Z
}.

Record OwnerRow := mkOwner { owner_id : string; fencing_token : Z; lease_until_ms : Z }.

Record TenantQuota := mkTenantQuota { quota_in_flight : Z; quota_initialized : bool }.

Record DeadDisposal := mkDisposal {
  disposal_approval : string;
  disposal_receipt : string;
  disposed_at_ms : Z
}.

Record OutboxDb := mkOutboxDb {
  outbox_event : list OutboxRow;
  outbox_dispatch_owner : gmap (string * string) OwnerRow;
  outbox_tenant_quota : gmap string TenantQuota;
  outbox_dead_disposal : gmap string DeadDisposal
}.

Abbreviation Ox := (St OutboxStoreError OutboxDb).

Definition set_events (events : list OutboxRow) (db : OutboxDb) : OutboxDb :=
  mkOutboxDb events (outbox_dispatch_owner db) (outbox_tenant_quota db) (outbox_dead_disposal db).
Definition set_owner (key : string * string) (row : OwnerRow) (db : OutboxDb) : OutboxDb :=
  mkOutboxDb (outbox_event db) (<[key := row]> (outbox_dispatch_owner db)) (outbox_tenant_quota db)
    (outbox_dead_disposal db).
Definition set_quota (name : string) (row : TenantQuota) (db : OutboxDb) : OutboxDb :=
  mkOutboxDb (outbox_event db) (outbox_dispatch_owner db) (<[name := row]> (outbox_tenant_quota db))
    (outbox_dead_disposal db).
Definition set_disposal (event : string) (row : DeadDisposal) (db : OutboxDb) : OutboxDb :=
  mkOutboxDb (outbox_event db) (outbox_dispatch_owner db) (outbox_tenant_quota db)
    (<[event := row]> (outbox_dead_disposal db)).

(** [NOT dispatched AND NOT dead] *)
Definition is_pending (row : OutboxRow) : bool := negb (row_dispatched row) && negb (row_dead row).

(** [WHERE id = $1 AND event_id = $2] *)
Definition is_row (id : Z) (name : string) (row : OutboxRow) : bool :=
  (row_id row =? id) && bool_decide (event_id (row_event row) = name).

(** ** Validation *)

Definition within (value : string) (limit : Z) : bool :=
  negb (is_empty value || (limit <? len value) || existsb (λ b, b =? 0) (as_bytes value)).

Definition PgOutbox_validate_event (event : OutboxEvent) : result unit OutboxStoreError :=
  ensure forallb (λ field, within field.1 field.2)
           [(event_id event, 128); (aggregate_type event, 128); (aggregate_id event, 190);
            (event_type event, 128)] else
    OutboxStoreError_new "invalid outbox event identity" in
  ensure match traceparent event with Some value => within value 64 | None => true end else
    OutboxStoreError_new "invalid outbox trace context" in
  Ok tt.

Definition validate_tenant (name : string) : result unit OutboxStoreError :=
  match WriteContext_new name with
  | Ok _ => Ok tt
  | Err _ => Err (OutboxStoreError_new "invalid outbox tenant")
  end.

(** ** Appending *)

(** [SELECT EXISTS (SELECT 1 FROM outbox_event WHERE event_id = $1)] *)
Definition already_exists (event : OutboxEvent) (db : OutboxDb) : bool :=
  existsb (λ row, bool_decide (event_id (row_event row) = event_id event)) (outbox_event db).

(** [id] is the value the identity column drew from its sequence. *)
Definition append_on_with_tenant (frozen : Frozen) (id now : Z) (event : OutboxEvent) (name : string)
    : Ox bool :=
  run! exists_ := st_get (already_exists event) in
  if exists_ then st_ret false
  else
    run! events := st_get outbox_event in
    demand! negb (existsb (λ row, row_id row =? id) events) else database_error in
    then! st_modify (set_events (events ++
      [mkRow id (of_tenant name event) (channel_of frozen (aggregate_type event))
         false 0 false None now None])) in
    st_ret true.

(** [INSERT INTO outbox_tenant_quota .. ON CONFLICT (tenant_id) DO NOTHING] *)
Definition ensure_quota_row (name : string) : Ox TenantQuota :=
  run! ledger := st_get outbox_tenant_quota in
  match ledger !! name with
  | Some row => st_ret row
  | None => then! st_modify (set_quota name (mkTenantQuota 0 false)) in st_ret (mkTenantQuota 0 false)
  end.

(** [UPDATE .. SET in_flight = in_flight - 1 WHERE tenant_id = $1 AND in_flight > 0] *)
Definition release_quota (name : string) : Ox unit :=
  run! ledger := st_get outbox_tenant_quota in
  match ledger !! name with
  | Some row =>
      if 0 <? quota_in_flight row
      then st_modify (set_quota name (mkTenantQuota (quota_in_flight row - 1) (quota_initialized row)))
      else st_ret tt
  | None => st_ret tt
  end.

(** The conditional increment of the ledger: [true] when the event exists
    already and nothing is left to do. *)
Definition reserve_quota (name : string) (cap : Z) (event : OutboxEvent) : Ox bool :=
  run! exists_ := st_get (already_exists event) in
  if exists_ then st_ret true
  else
    run! row := ensure_quota_row name in
    if quota_initialized row && (quota_in_flight row <? cap) then
      then! st_modify (set_quota name (mkTenantQuota (quota_in_flight row + 1) (quota_initialized row))) in
      st_ret false
    else
      run! exists_ := st_get (already_exists event) in
      if exists_ then st_ret true
      else if negb (quota_initialized row)
      then st_fail (OutboxStoreError_new "outbox tenant quota ledger is not initialized")
      else st_fail (OutboxStoreError_new TENANT_QUOTA_EXCEEDED_REASON).

(** *** The ambient transaction and the wake-up signals

    A session has the tables as its transaction sees them, the notifications
    registered for after the commit, and the generations of the process. *)
Record Session := mkSession {
  session_db : OutboxDb;
  after_commit : list (string * string);
  COMMIT_SIGNALS : gmap (string * string) Z
}.

Abbreviation Sx := (St OutboxStoreError Session).

Definition on_db {A} (c : Ox A) : Sx A :=
  λ s, match c (session_db s) with
       | Ok (x, db) => Ok (x, mkSession db (after_commit s) (COMMIT_SIGNALS s))
       | Err e => Err e
       end.

Definition commit_signal (datasource channel : string) (signals : gmap (string * string) Z) : Z :=
  default 0 (signals !! (datasource, channel)).

Definition send_modify (datasource channel : string) (signals : gmap (string * string) Z)
    : gmap (string * string) Z :=
  <[(datasource, channel) := u64_wrapping_add (commit_signal datasource channel signals) 1]> signals.

Definition notify_committed_append (datasource channel : string) (signals : gmap (string * string) Z)
    : gmap (string * string) Z :=
  let signals := send_modify datasource channel signals in
  if bool_decide (channel ≠ "*") then send_modify datasource "*" signals else signals.

Definition register_commit_notification (ambient : option string) (datasource channel : string)
    : Sx unit :=
  match ambient with
  | Some _ => st_modify (λ s, mkSession (session_db s) (after_commit s ++ [(datasource, channel)])
                                (COMMIT_SIGNALS s))
  | None => st_fail database_error
  end.

(** The commit of the ambient transaction runs what was registered. *)
Definition commit_session (s : Session) : Session :=
  mkSession (session_db s) []
    (foldl (λ signals hook, notify_committed_append hook.1 hook.2 signals)
       (COMMIT_SIGNALS s) (after_commit s)).

Section appends.
Context (frozen : Frozen) (datasource : string) (ambient : option string).

Definition in_transaction : bool := bool_decide (is_Some ambient).

Definition require_ambient_datasource : result unit OutboxStoreError :=
  match ambient with
  | Some current =>
      if bool_decide (current = datasource) then Ok tt
      else Err (OutboxStoreError_new "ambient transaction datasource mismatch")
  | None => Err (OutboxStoreError_new "ambient transaction is required")
  end.

Definition PgOutbox_append (id now : Z) (event : OutboxEvent) : Sx unit :=
  then! st_lift (PgOutbox_validate_event event) in
  then! st_lift (if in_transaction then require_ambient_datasource else Ok tt) in
  run! inserted := on_db (append_on_with_tenant frozen id now event SYSTEM_TENANT) in
  if negb inserted then st_ret tt
  else if in_transaction then
    register_commit_notification ambient datasource (channel_of frozen (aggregate_type event))
  else
    st_modify (λ s, mkSession (session_db s) (after_commit s)
      (notify_committed_append datasource (channel_of frozen (aggregate_type event)) (COMMIT_SIGNALS s))).

Definition append_transactional (id now : Z) (event : OutboxEvent) : Sx unit :=
  then! st_lift (PgOutbox_validate_event event) in
  then! st_lift require_ambient_datasource in
  run! inserted := on_db (append_on_with_tenant frozen id now event SYSTEM_TENANT) in
  if inserted : bool then
    register_commit_notification ambient datasource (channel_of frozen (aggregate_type event))
  else st_ret tt.

Definition append_transactional_with_context (id now : Z) (context : WriteContext)
    (event : OutboxEvent) : Sx unit :=
  then! st_lift (PgOutbox_validate_event event) in
  then! st_lift require_ambient_datasource in
  run! settled :=
    match outbox_tenant_quota_of frozen (context_tenant context) with
    | Some cap =>
        demand! cap <=? I64_MAX else database_error in
        on_db (reserve_quota (context_tenant context) cap event)
    | None => st_ret false
    end in
  if settled : bool then st_ret tt
  else
    run! inserted := on_db (append_on_with_tenant frozen id now event (context_tenant context)) in
    then! (if bool_decide (is_Some (outbox_tenant_quota_of frozen (context_tenant context)))
              && negb inserted
           then on_db (release_quota (context_tenant context)) else st_ret tt) in
    if inserted : bool then
      register_commit_notification ambient datasource (channel_of frozen (aggregate_type event))
    else st_ret tt.
End appends.

(** ** Reading and reconciling *)

(** How many rows [SELECT COUNT( * ) .. WHERE p] counts. *)
Definition count_rows (p : OutboxRow → bool) (events : list OutboxRow) : Z :=
  Z.of_nat (length (List.filter p events)).

Definition pending_count (db : OutboxDb) : Z := Z.max (count_rows is_pending (outbox_event db)) 0.

Definition dead_count (db : OutboxDb) : Z := Z.max (count_rows row_dead (outbox_event db)) 0.

Definition pending_count_channel (channel : string) (db : OutboxDb) : result Z OutboxStoreError :=
  ensure valid_channel_name channel else OutboxStoreError_new "invalid outbox channel name" in
  Ok (Z.max (count_rows (λ row, bool_decide (row_channel row = channel) && is_pending row)
               (outbox_event db)) 0).

Definition oldest_pending_age_ms (now : Z) (name : string) (db : OutboxDb) : Z :=
  match List.filter (λ row, is_pending row && bool_decide (event_type (row_event row) = name))
          (outbox_event db) with
  | [] => 0
  | row :: rows =>
      Z.max (now - foldr (λ row oldest, Z.min (row_created_at_ms row) oldest)
                     (row_created_at_ms row) rows) 0
  end.

Definition outbox_tenant_quota_usage (name : string) (db : OutboxDb) : result Z OutboxStoreError :=
  try? validate_tenant name in
  Ok (match outbox_tenant_quota db !! name with Some row => Z.max (quota_in_flight row) 0 | None => 0 end).

Definition is_pending_of (name : string) (row : OutboxRow) : bool :=
  bool_decide (tenant (row_event row) = name) && is_pending row.

Definition reconcile_outbox_tenant_quota (datasource : string) (ambient : option string)
    (name : string) : Ox Z :=
  then! st_lift (validate_tenant name) in
  then! st_lift (require_ambient_datasource datasource ambient) in
  then! ensure_quota_row name in
  run! events := st_get outbox_event in
  let actual := count_rows (is_pending_of name) events in
  then! st_modify (set_quota name (mkTenantQuota actual true)) in
  st_ret (Z.max actual 0).

(** [verify_outbox_tenant_quota_schema_for], once the tables are there. *)
Definition verify_tenant_quotas (frozen : Frozen) (db : OutboxDb) : result unit OutboxStoreError :=
  if negb (tenant_quotas_enabled frozen) then Ok tt
  else
    match TENANT_QUOTAS frozen with
    | Some quotas =>
        ensure forallb (λ quota, match outbox_tenant_quota db !! quota.1 with
                                 | Some row => quota_initialized row
                                 | None => false
                                 end) (map_to_list quotas) else
          OutboxStoreError_new "outbox tenant quota ledger for a capped tenant is not initialized" in
        Ok tt
    | None => Ok tt
    end.

(** ** Owners *)

Record OwnerClaim := mkClaim {
  claim_role : string;
  claim_lane : string;
  claim_owner_id : string;
  claim_token : Z
}.

Definition claim_key (claim : OwnerClaim) : string * string := (claim_role claim, claim_lane claim).

Definition ownership_lost : OutboxStoreError := OutboxStoreError_new "outbox dispatch ownership was lost".

(** The row grants the claim: same owner, same token. *)
Definition grants (claim : OwnerClaim) (row : OwnerRow) : bool :=
  bool_decide (owner_id row = claim_owner_id claim) && (fencing_token row =? claim_token claim).

Definition try_claim_owner (role lane owner : string) (lease_ms now : Z) : Ox (option OwnerClaim) :=
  run! until := st_lift (bigint (now + lease_ms)) in
  run! owners := st_get outbox_dispatch_owner in
  match owners !! (role, lane) with
  | None =>
      then! st_modify (set_owner (role, lane) (mkOwner owner 1 until)) in
      st_ret (Some (mkClaim role lane owner 1))
  | Some row =>
      if lease_until_ms row <? now then
        run! token := st_lift (bigint (fencing_token row + 1)) in
        then! st_modify (set_owner (role, lane) (mkOwner owner token until)) in
        st_ret (Some (mkClaim role lane owner token))
      else st_ret None
  end.

Definition OwnerClaim_renew (self : OwnerClaim) (lease_ms now : Z) : Ox unit :=
  run! until := st_lift (bigint (now + lease_ms)) in
  run! owners := st_get outbox_dispatch_owner in
  match owners !! claim_key self with
  | Some row =>
      demand! grants self row && (now <=? lease_until_ms row) else ownership_lost in
      st_modify (set_owner (claim_key self) (mkOwner (owner_id row) (fencing_token row) until))
  | None => st_fail ownership_lost
  end.

Definition OwnerClaim_release (self : OwnerClaim) : Ox unit :=
  run! owners := st_get outbox_dispatch_owner in
  match owners !! claim_key self with
  | Some row =>
      demand! grants self row else ownership_lost in
      st_modify (set_owner (claim_key self) (mkOwner (owner_id row) (fencing_token row) 0))
  | None => st_fail ownership_lost
  end.

Definition ensure_owner (claim : OwnerClaim) (now : Z) : Ox unit :=
  run! owners := st_get outbox_dispatch_owner in
  match owners !! claim_key claim with
  | Some row =>
      demand! grants claim row && (now <=? lease_until_ms row) else ownership_lost in
      st_ret tt
  | None => st_fail ownership_lost
  end.

(** ** Polling and settling *)

Record PendingRow := mkPending { pending_id : Z; pending_event : OutboxEvent }.

Definition parse_pending (row : OutboxRow) : PendingRow := mkPending (row_id row) (row_event row).

(** [ORDER BY id ASC] *)
Definition by_id (a b : OutboxRow) : Prop := row_id a ≤ row_id b.
#[global] Instance by_id_dec a b : Decision (by_id a b).
Proof. unfold by_id. apply _. Defined.

(** The rows a poll selects: pending, of the channel if there is one, and not
    locked by another transaction. *)
Definition selectable (channel : option string) (locked : list Z) (row : OutboxRow) : bool :=
  match channel with Some channel => bool_decide (row_channel row = channel) | None => true end
  && is_pending row && negb (existsb (λ id, row_id row =? id) locked).

Definition poll_pending (claim : OwnerClaim) (channel : option string) (limit now : Z)
    (locked : list Z) : Ox (list PendingRow) :=
  then! ensure_owner claim now in
  run! events := st_get outbox_event in
  st_ret (map parse_pending
    (take (Z.to_nat limit) (merge_sort by_id (List.filter (selectable channel locked) events)))).

(** [UPDATE outbox_event .. WHERE id = $ AND event_id = $ AND NOT dispatched AND
    NOT dead RETURNING ..]: the row as it is after the update. *)
Definition update_pending (row : PendingRow) (f : OutboxRow → result OutboxRow OutboxStoreError)
    : Ox (option OutboxRow) :=
  run! events := st_get outbox_event in
  let matches r := is_row (pending_id row) (event_id (pending_event row)) r && is_pending r in
  match find_first matches events with
  | Some found =>
      run! updated := st_lift (f found) in
      then! st_modify (set_events (map (λ r, if matches r then updated else r) events)) in
      st_ret (Some updated)
  | None => st_ret None
  end.

Definition dispatched_row (now : Z) (row : OutboxRow) : OutboxRow :=
  mkRow (row_id row) (row_event row) (row_channel row) true (row_attempts row) (row_dead row)
    (row_dead_at_ms row) (row_created_at_ms row) (Some now).

Definition mark_dispatched_one (now : Z) (row : PendingRow) : Ox unit :=
  run! updated := update_pending row (λ found, Ok (dispatched_row now found)) in
  match updated with
  | Some found => release_quota (tenant (row_event found))
  | None => st_fail (OutboxStoreError_new "outbox success prefix no longer matches pending facts")
  end.

Fixpoint mark_dispatched_all (now : Z) (rows : list PendingRow) : Ox unit :=
  match rows with
  | [] => st_ret tt
  | row :: rest => then! mark_dispatched_one now row in mark_dispatched_all now rest
  end.

Definition mark_dispatched_exact (claim : OwnerClaim) (rows : list PendingRow) (now : Z) : Ox unit :=
  then! ensure_owner claim now in
  mark_dispatched_all now rows.

(** The update of [record_failed_attempt]; [attempts] is an INTEGER. *)
Definition failed_row (max_attempts now : Z) (row : OutboxRow) : result OutboxRow OutboxStoreError :=
  ensure row_attempts row + 1 <=? I32_MAX else database_error in
  let dead := max_attempts <=? row_attempts row + 1 in
  Ok (mkRow (row_id row) (row_event row) (row_channel row) (row_dispatched row) (row_attempts row + 1)
        dead (if dead then Some now else row_dead_at_ms row) (row_created_at_ms row)
        (row_dispatched_at_ms row)).

Definition record_failed_attempt (claim : OwnerClaim) (row : PendingRow) (max_attempts now : Z)
    : Ox unit :=
  then! ensure_owner claim now in
  run! updated := update_pending row (failed_row max_attempts now) in
  match updated with
  | Some found =>
      if row_dead found then release_quota (tenant (row_event found)) else st_ret tt
  | None => st_fail (OutboxStoreError_new "outbox failed event no longer matches pending facts")
  end.
