(* ===== verification/OutboxRetention.v ===== *)
(** * The durable outbox: retention statements

    Models the transactions of [naoutbox-pgsql/src/retention.rs]: which rows
    are candidates, in what order, and the fenced deletion that writes the
    disposal of a dead letter in the same transaction. *)

From Stdlib Require Import ZArith Lia.
From S2P Require Import Prelude AsyncProg Bytes SagaIdentity SagaState OutboxCore OutboxStore.
From stdpp Require Import prelude strings list sorting gmap.

Local Open Scope Z_scope.
Local Open Scope rust_scope.

Definition RETENTION_OWNER_ROLE : string := "retention".
Definition RETENTION_OWNER_LANE : string := "global".
Definition RETENTION_BUDGET_EXHAUSTED_REASON : string := "retention round time budget exhausted".
Definition RETENTION_LOCK_CONTENTION_REASON : string := "retention storage lock contention".

Inductive CandidateKind := Candidate_Dispatched | Candidate_Dead.

Record RetentionCandidate := mkCandidate {
  candidate_row : PendingRow;
  candidate_kind : CandidateKind;
  lifecycle_at_ms : Z
}.

Definition dispatched_before (policy : OutboxRetentionPolicy) (now_ms : Z) : Z :=
  i64_saturating_sub now_ms (dispatched_min_age_ms policy).

Definition dead_before (policy : OutboxRetentionPolicy) (now_ms : Z) : Z :=
  match dead_min_age_ms policy with Some age => i64_saturating_sub now_ms age | None => -1 end.

(** [at IS NOT NULL AND at <= bound] *)
Definition not_after (at_ms : option Z) (bound : Z) : bool :=
  match at_ms with Some t => t <=? bound | None => false end.

(** The [WHERE] of the candidates; no pending row satisfies it. *)
Definition is_candidate (policy : OutboxRetentionPolicy) (now_ms : Z) (row : OutboxRow) : bool :=
  (row_dispatched row && negb (row_dead row)
   && not_after (row_dispatched_at_ms row) (dispatched_before policy now_ms))
  || (delete_dead policy && row_dead row && not_after (row_dead_at_ms row) (dead_before policy now_ms)).

Definition row_lifecycle (row : OutboxRow) : Z :=
  default 0 (if row_dead row then row_dead_at_ms row else row_dispatched_at_ms row).

(** [ORDER BY lifecycle_at_ms ASC, id ASC] *)
Definition by_lifecycle (a b : OutboxRow) : Prop :=
  row_lifecycle a < row_lifecycle b ∨ row_lifecycle a = row_lifecycle b ∧ row_id a ≤ row_id b.
#[global] Instance by_lifecycle_dec a b : Decision (by_lifecycle a b).
Proof. unfold by_lifecycle. apply _. Defined.

Definition parse_candidate (row : OutboxRow) : RetentionCandidate :=
  mkCandidate (parse_pending row) (if row_dead row then Candidate_Dead else Candidate_Dispatched)
    (row_lifecycle row).

Definition fetch_retention_candidates (claim : OwnerClaim) (policy : OutboxRetentionPolicy)
    (now_ms now : Z) (locked : list Z) : Ox (list RetentionCandidate) :=
  then! ensure_owner claim now in
  run! events := st_get outbox_event in
  st_ret (map parse_candidate
    (take (Z.to_nat (batch_limit policy))
       (merge_sort by_lifecycle
          (List.filter (λ row, is_candidate policy now_ms row
                               && negb (existsb (λ id, row_id row =? id) locked)) events)))).

Definition oldest_candidate_age (claim : OwnerClaim) (policy : OutboxRetentionPolicy)
    (now_ms now : Z) : Ox (option Z) :=
  then! ensure_owner claim now in
  run! events := st_get outbox_event in
  st_ret (match map row_lifecycle (List.filter (is_candidate policy now_ms) events) with
          | [] => None
          | t :: ts => Some (Z.max (i64_saturating_sub now_ms (foldr Z.min t ts)) 0)
          end).

(** [DELETE FROM outbox_event WHERE p], answering whether a row was there. *)
Definition delete_row (p : OutboxRow → bool) : Ox bool :=
  run! events := st_get outbox_event in
  if existsb p events
  then then! st_modify (set_events (List.filter (λ row, negb (p row)) events)) in st_ret true
  else st_ret false.

(** The row a candidate was read from, still in the state it was read in. *)
Definition still_dispatched (candidate : RetentionCandidate) (bound : Z) (row : OutboxRow) : bool :=
  is_row (pending_id (candidate_row candidate)) (event_id (pending_event (candidate_row candidate))) row
  && row_dispatched row && negb (row_dead row)
  && bool_decide (row_dispatched_at_ms row = Some (lifecycle_at_ms candidate))
  && not_after (row_dispatched_at_ms row) bound.

Definition still_dead (candidate : RetentionCandidate) (bound : Z) (row : OutboxRow) : bool :=
  is_row (pending_id (candidate_row candidate)) (event_id (pending_event (candidate_row candidate))) row
  && row_dead row && negb (row_dispatched row)
  && bool_decide (row_dead_at_ms row = Some (lifecycle_at_ms candidate))
  && not_after (row_dead_at_ms row) bound.

Definition delete_candidate (policy : OutboxRetentionPolicy) (now_ms : Z)
    (candidate : RetentionCandidate) (receipt : option ArchiveReceipt) : Ox bool :=
  match candidate_kind candidate with
  | Candidate_Dispatched =>
      demand! negb (archive_required policy && bool_decide (receipt = None)) else
        OutboxStoreError_new "dispatched retention requires an archive receipt" in
      delete_row (still_dispatched candidate (dispatched_before policy now_ms))
  | Candidate_Dead =>
      match receipt with
      | None => st_fail (OutboxStoreError_new "dead-letter retention requires an archive receipt")
      | Some receipt =>
          match dead_approval policy with
          | None => st_fail (OutboxStoreError_new "dead-letter retention requires approval")
          | Some approval =>
              let bound := i64_saturating_sub now_ms (default I64_MAX (dead_min_age_ms policy)) in
              run! affected := delete_row (still_dead candidate bound) in
              if affected : bool then
                then! st_modify (set_disposal (event_id (pending_event (candidate_row candidate)))
                                   (mkDisposal approval (receipt_event_id receipt) now_ms)) in
                st_ret true
              else st_ret false
          end
      end
  end.

Fixpoint delete_candidates (policy : OutboxRetentionPolicy) (now_ms : Z)
    (batch : list (RetentionCandidate * option ArchiveReceipt)) : Ox (list bool) :=
  match batch with
  | [] => st_ret []
  | (candidate, receipt) :: rest =>
      run! was_deleted := delete_candidate policy now_ms candidate receipt in
      run! others := delete_candidates policy now_ms rest in
      st_ret (was_deleted :: others)
  end.

Definition delete_retention_candidates (claim : OwnerClaim) (policy : OutboxRetentionPolicy)
    (now_ms now : Z) (candidates : list RetentionCandidate) (receipts : list (option ArchiveReceipt))
    : Ox (list bool) :=
  then! ensure_owner claim now in
  delete_candidates policy now_ms (zip candidates receipts).
