(* ===== verification/OutboxRelay.v ===== *)
(** * The durable outbox: relays

    Models the asynchronous rounds of [naoutbox-pgsql]: [dispatch_inner] and
    what it runs (lib.rs), [retention_round] and what it runs (retention.rs).
    A round awaits transactions, the publisher, the archive and its deadline,
    so it is a [Prog] over [Call]; between two awaits anything may happen.  The
    system at the end of the file is the tables with any number of rounds in
    progress, and applications that append. *)

From Stdlib Require Import ZArith Lia.
From S2P Require Import Prelude AsyncProg Bytes SagaIdentity SagaState OutboxCore OutboxStore OutboxRetention.
From stdpp Require Import prelude strings list sorting gmap relations.

Local Open Scope Z_scope.
Local Open Scope rust_scope.

(** ** Calls

    A transaction is given the database clock and the rows others hold
    locked.  A [Timed] call may run into its timeout, and then answers
    [None]. *)

Inductive Call : Type → Type :=
| NewUuid : Call string
| Transact {A} (tx : Z → list Z → Ox A) : Call (result A OutboxStoreError)
| TimedTransact {A} (tx : Z → list Z → Ox A) : Call (option (result A OutboxStoreError))
| TimedPublish (event : OutboxEvent) : Call (option (result unit OutboxPublishError))
| TimedReceiptOf (name : string) : Call (option (result (option ArchiveReceipt) OutboxArchiveError))
| TimedArchive (event : OutboxEvent) : Call (option (result ArchiveReceipt OutboxArchiveError))
| DeadlinePassed : Call bool.

Abbreviation Async A := (Prog Call A).
Abbreviation Fallible A := (Prog Call (result A OutboxStoreError)).

Definition fail_with {A} (reason : string) : Fallible A := Done (Err (OutboxStoreError_new reason)).

(** ** Dispatch *)

Definition empty_report : DispatchReport := mkReport 0 0 None.

(** The loop of [dispatch_in_order_fenced], [sent] events into the batch. *)
Fixpoint dispatch_fenced_from (claim : OwnerClaim) (total sent : nat) (events : list OutboxEvent)
    : Fallible DispatchReport :=
  match events with
  | [] => Done (Ok (mkReport sent total None))
  | event :: rest =>
      await! ask (Transact (λ now _, OwnerClaim_renew claim OWNER_LEASE_MS now)) in
      await answer := ask (TimedPublish event) in
      match answer with
      | Some (Ok _) => dispatch_fenced_from claim total (S sent) rest
      | Some (Err error) => Done (Ok (mkReport sent total (Some error)))
      | None =>
          Done (Ok (mkReport sent total
                      (Some (OutboxPublishError_transient "outbox publish deadline exceeded"))))
      end
  end.

Definition dispatch_in_order_fenced (claim : OwnerClaim) (events : list OutboxEvent)
    : Fallible DispatchReport :=
  dispatch_fenced_from claim (length events) 0 events.

(** Whether the first failure of a round counts against its event. *)
Definition counts_failure (report : DispatchReport) (pending : list PendingRow) : bool :=
  match first_error report with Some error => negb (is_transient error) | None => false end
  && (published report <? length pending)%nat.

(** What the round does with its report: confirm the prefix, count the first
    failure, give the lane back. *)
Definition settle_round (claim : OwnerClaim) (max_attempts : option Z) (pending : list PendingRow)
    (report : DispatchReport) : Fallible DispatchReport :=
  await! (if (0 <? published report)%nat
          then ask (Transact (λ now _,
                 mark_dispatched_exact claim (take (published report) pending) now))
          else Done (Ok tt)) in
  await! (match max_attempts with
          | Some max_attempts =>
              if counts_failure report pending then
                match pending !! published report with
                | Some row => ask (Transact (λ now _, record_failed_attempt claim row max_attempts now))
                | None => Done (Ok tt)
                end
              else Done (Ok tt)
          | None => Done (Ok tt)
          end) in
  await! ask (Transact (λ _ _, OwnerClaim_release claim)) in
  Done (Ok report).

Definition dispatch_inner (ambient : option string) (channel : option string) (limit : Z)
    (max_attempts : option Z) : Fallible DispatchReport :=
  if in_transaction ambient then fail_with "dispatcher cannot run inside an ambient transaction"
  else
    let role := match channel with Some _ => LANE_OWNER_ROLE | None => DEFAULT_OWNER_ROLE end in
    let lane := default DEFAULT_CHANNEL channel in
    await owner := ask NewUuid in
    await? claimed := ask (Transact (λ now _, try_claim_owner role lane owner OWNER_LEASE_MS now)) in
    match claimed with
    | None => Done (Ok empty_report)
    | Some claim =>
        await? pending := ask (Transact (λ now locked, poll_pending claim channel limit now locked)) in
        await? report := dispatch_in_order_fenced claim (map pending_event pending) in
        settle_round claim max_attempts pending report
    end.

Definition dispatch_batch (ambient : option string) (limit : Z) : Fallible DispatchReport :=
  dispatch_inner ambient None limit None.

Definition dispatch_batch_with_dlt (ambient : option string) (limit max_attempts : Z)
    : Fallible DispatchReport :=
  if max_attempts =? 0 then fail_with "max_attempts must be greater than zero"
  else dispatch_inner ambient None limit (Some max_attempts).

Definition dispatch_batch_channel (ambient : option string) (channel : string) (limit : Z)
    : Fallible DispatchReport :=
  if negb (valid_channel_name channel) then fail_with "invalid outbox channel name"
  else dispatch_inner ambient (Some channel) limit None.

Definition dispatch_batch_channel_with_dlt (ambient : option string) (channel : string)
    (limit max_attempts : Z) : Fallible DispatchReport :=
  if max_attempts =? 0 then fail_with "max_attempts must be greater than zero"
  else if negb (valid_channel_name channel) then fail_with "invalid outbox channel name"
  else dispatch_inner ambient (Some channel) limit (Some max_attempts).

(** ** Retention *)

Definition default_report : RetentionRoundReport := mkRetentionReport 0 0 0 false false None.

Definition set_contended (r : RetentionRoundReport) : RetentionRoundReport :=
  mkRetentionReport (archived r) (deleted_dispatched r) (deleted_dead r) true (budget_exhausted r)
    (oldest_candidate_age_ms r).
Definition set_exhausted (r : RetentionRoundReport) : RetentionRoundReport :=
  mkRetentionReport (archived r) (deleted_dispatched r) (deleted_dead r) (claim_contended r) true
    (oldest_candidate_age_ms r).
Definition set_oldest (age : option Z) (r : RetentionRoundReport) : RetentionRoundReport :=
  mkRetentionReport (archived r) (deleted_dispatched r) (deleted_dead r) (claim_contended r)
    (budget_exhausted r) age.
Definition add_archived (r : RetentionRoundReport) : RetentionRoundReport :=
  mkRetentionReport (u64_saturating_add (archived r) 1) (deleted_dispatched r) (deleted_dead r)
    (claim_contended r) (budget_exhausted r) (oldest_candidate_age_ms r).
Definition add_deleted (kind : CandidateKind) (r : RetentionRoundReport) : RetentionRoundReport :=
  match kind with
  | Candidate_Dispatched =>
      mkRetentionReport (archived r) (u64_saturating_add (deleted_dispatched r) 1) (deleted_dead r)
        (claim_contended r) (budget_exhausted r) (oldest_candidate_age_ms r)
  | Candidate_Dead =>
      mkRetentionReport (archived r) (deleted_dispatched r) (u64_saturating_add (deleted_dead r) 1)
        (claim_contended r) (budget_exhausted r) (oldest_candidate_age_ms r)
  end.

(** [confirm_archive_receipt] under the timeout of the round. *)
Definition confirm_archive_receipt (event : OutboxEvent)
    : Async (option (result ArchiveReceipt OutboxStoreError)) :=
  let check receipt :=
    if bool_decide (receipt_event_id receipt = event_id event) then Ok receipt
    else Err (OutboxStoreError_new "archive receipt identity does not match the outbox event") in
  await found := ask (TimedReceiptOf (event_id event)) in
  match found with
  | None => Done None
  | Some (Ok (Some receipt)) => Done (Some (check receipt))
  | Some (Ok None) =>
      await written := ask (TimedArchive event) in
      match written with
      | None => Done None
      | Some (Ok receipt) => Done (Some (check receipt))
      | Some (Err error) => Done (Some (Err (OutboxStoreError_new (archive_reason error))))
      end
  | Some (Err error) => Done (Some (Err (OutboxStoreError_new (archive_reason error))))
  end.

(** The receipts of a batch, as far as the deadline lets it come. *)
Fixpoint collect_receipts (policy : OutboxRetentionPolicy) (archive : bool)
    (candidates : list RetentionCandidate) (receipts : list (option ArchiveReceipt))
    (report : RetentionRoundReport) : Fallible (list (option ArchiveReceipt) * RetentionRoundReport) :=
  match candidates with
  | [] => Done (Ok (receipts, report))
  | candidate :: rest =>
      await passed := ask DeadlinePassed in
      if passed : bool then Done (Ok (receipts, set_exhausted report))
      else if archive_required policy
              || match candidate_kind candidate with Candidate_Dead => true | Candidate_Dispatched => false end
      then
        if negb archive then fail_with "retention archive target is required"
        else
          await passed := ask DeadlinePassed in
          if passed : bool then Done (Ok (receipts, set_exhausted report))
          else
            await confirmed := confirm_archive_receipt (pending_event (candidate_row candidate)) in
            match confirmed with
            | Some (Ok receipt) =>
                collect_receipts policy archive rest (receipts ++ [Some receipt]) (add_archived report)
            | Some (Err error) => Done (Err error)
            | None => Done (Ok (receipts, set_exhausted report))
            end
      else collect_receipts policy archive rest (receipts ++ [None]) report
  end.

Definition tally (candidates : list RetentionCandidate) (deleted : list bool)
    (report : RetentionRoundReport) : RetentionRoundReport :=
  foldl (λ report entry, if entry.2 : bool then add_deleted (candidate_kind entry.1) report else report)
    report (zip candidates deleted).

(** The loop of [retention_round_owned]; [batches] is how many times it finds
    the deadline not yet passed. *)
Fixpoint retention_batches (claim : OwnerClaim) (policy : OutboxRetentionPolicy) (archive : bool)
    (now_ms : Z) (batches : nat) (report : RetentionRoundReport) : Fallible RetentionRoundReport :=
  match batches with
  | O => Done (Ok (set_exhausted report))
  | S batches =>
      await fetched := ask (TimedTransact (fetch_retention_candidates claim policy now_ms)) in
      match fetched with
      | None => Done (Ok (set_exhausted report))
      | Some (Err error) => Done (Err error)
      | Some (Ok []) => Done (Ok report)
      | Some (Ok candidates) =>
          await? collected := collect_receipts policy archive candidates [] report in
          let '(receipts, report) := collected in
          if negb (length receipts =? length candidates)%nat then Done (Ok report)
          else
            await passed := ask DeadlinePassed in
            if passed : bool then Done (Ok (set_exhausted report))
            else
              await deleted := ask (Transact (λ now _,
                delete_retention_candidates claim policy now_ms now candidates receipts)) in
              match deleted with
              | Ok deleted =>
                  let report := tally candidates deleted report in
                  if existsb id deleted
                  then retention_batches claim policy archive now_ms batches report
                  else Done (Ok report)
              | Err error =>
                  await passed := ask DeadlinePassed in
                  if bool_decide (reason error = RETENTION_BUDGET_EXHAUSTED_REASON)
                     || (bool_decide (reason error = RETENTION_LOCK_CONTENTION_REASON) && passed)
                  then Done (Ok (set_exhausted report))
                  else Done (Err error)
              end
      end
  end.

Definition retention_round_owned (claim : OwnerClaim) (policy : OutboxRetentionPolicy) (archive : bool)
    (now_ms : Z) (batches : nat) (report : RetentionRoundReport) : Fallible RetentionRoundReport :=
  await passed := ask DeadlinePassed in
  if passed : bool then Done (Ok (set_exhausted report))
  else
    await oldest := ask (TimedTransact (λ now _, oldest_candidate_age claim policy now_ms now)) in
    match oldest with
    | None => Done (Ok (set_exhausted report))
    | Some (Err error) => Done (Err error)
    | Some (Ok age) => retention_batches claim policy archive now_ms batches (set_oldest age report)
    end.

(** [archive] says whether an archive was given. *)
Definition retention_round (ambient : option string) (policy : OutboxRetentionPolicy) (archive : bool)
    (now_ms : Z) (batches : nat) : Fallible RetentionRoundReport :=
  match RetentionPolicy_validate policy with
  | Err reason => fail_with ("invalid retention policy: " +:+ reason)
  | Ok _ =>
      if now_ms <? 0 then fail_with "retention clock must be non-negative"
      else if archive_required policy && negb archive then
        fail_with "retention policy requires an archive target"
      else if delete_dead policy && negb archive then
        fail_with "dead-letter retention always requires an archive target"
      else if in_transaction ambient then
        fail_with "retention cannot run inside an ambient transaction"
      else
        let lease_ms := Z.max (i64_saturating_add (round_time_budget_ms policy) 60000) OWNER_LEASE_MS in
        await owner := ask NewUuid in
        await claimed := ask (TimedTransact (λ now _,
          try_claim_owner RETENTION_OWNER_ROLE RETENTION_OWNER_LANE owner lease_ms now)) in
        match claimed with
        | None => Done (Ok (set_exhausted default_report))
        | Some (Err error) => Done (Err error)
        | Some (Ok None) => Done (Ok (set_contended default_report))
        | Some (Ok (Some claim)) =>
            await outcome := retention_round_owned claim policy archive now_ms batches default_report in
            await passed := ask DeadlinePassed in
            match outcome with
            | Ok report =>
                if passed : bool then Done (Ok (set_exhausted report))
                else
                  await released := ask (TimedTransact (λ _ _, OwnerClaim_release claim)) in
                  match released with
                  | Some (Ok _) => Done (Ok report)
                  | Some (Err error) => Done (Err error)
                  | None => Done (Ok (set_exhausted report))
                  end
            | Err error =>
                if passed : bool then Done (Err error)
                else
                  await _ := ask (TimedTransact (λ _ _, OwnerClaim_release claim)) in
                  Done (Err error)
            end
        end
  end.

(** ** The system *)

(** The tables, the clock and the ids drawn from the sequence; what reached the
    publisher's side, what it refused for good, and what the archive holds. *)
Record World := mkWorld {
  w_db : OutboxDb;
  w_now : Z;
  w_ids : list Z;
  w_delivered : list OutboxEvent;
  w_refused : list OutboxEvent;
  w_archive : list string
}.

Definition set_db (db : OutboxDb) (w : World) : World :=
  mkWorld db (w_now w) (w_ids w) (w_delivered w) (w_refused w) (w_archive w).
Definition set_delivered (events : list OutboxEvent) (w : World) : World :=
  mkWorld (w_db w) (w_now w) (w_ids w) events (w_refused w) (w_archive w).
Definition set_refused (events : list OutboxEvent) (w : World) : World :=
  mkWorld (w_db w) (w_now w) (w_ids w) (w_delivered w) events (w_archive w).
Definition set_archive (names : list string) (w : World) : World :=
  mkWorld (w_db w) (w_now w) (w_ids w) (w_delivered w) (w_refused w) names.

(** A transaction commits with its answer, or the caller sees an error: its
    own, the database's, or a lost acknowledgement after the commit. *)
Definition transacts {A} (tx : Z → list Z → Ox A) (w : World)
    (answer : result A OutboxStoreError) (w' : World) : Prop :=
  ∃ locked,
    match tx (w_now w) locked (w_db w) with
    | Ok (x, db) => (answer = Ok x ∧ w' = set_db db w)
                    ∨ (is_ok answer = false ∧ (w' = w ∨ w' = set_db db w))
    | Err _ => is_ok answer = false ∧ w' = w
    end.

(** The event may have arrived even when the answer says otherwise. *)
Definition publishes (event : OutboxEvent) (w : World)
    (answer : option (result unit OutboxPublishError)) (w' : World) : Prop :=
  ∃ arrived, (arrived = [] ∨ arrived = [event]) ∧
    match answer with
    | Some (Ok _) => w' = set_delivered (w_delivered w ++ [event]) w
    | Some (Err error) =>
        w' = set_refused (w_refused w ++ if is_transient error then [] else [event])
               (set_delivered (w_delivered w ++ arrived) w)
    | None => w' = set_delivered (w_delivered w ++ arrived) w
    end.

(** A receipt names an event the archive holds. *)
Definition archives (stored : list string) (w : World)
    (answer : option (result ArchiveReceipt OutboxArchiveError)) (w' : World) : Prop :=
  ∃ landed, (landed = [] ∨ landed = stored) ∧ w' = set_archive (w_archive w ++ landed) w ∧
    match answer with
    | Some (Ok receipt) => receipt_event_id receipt ∈ w_archive w ++ landed
    | _ => True
    end.

Definition handle {B} (call : Call B) (w : World) : B → World → Prop :=
  match call in Call B return B → World → Prop with
  | NewUuid => λ _ w', w' = w
  | Transact tx => transacts tx w
  | TimedTransact tx => λ answer w',
      match answer with
      | Some answer => transacts tx w answer w'
      | None => ∃ lost, is_ok lost = false ∧ transacts tx w lost w'
      end
  | TimedPublish event => publishes event w
  | TimedReceiptOf _ => λ answer w',
      w' = w ∧ match answer with
               | Some (Ok (Some receipt)) => receipt_event_id receipt ∈ w_archive w
               | _ => True
               end
  | TimedArchive event => archives [event_id event] w
  | DeadlinePassed => λ _ w', w' = w
  end.

(** The rounds of a relay, through the public entry points. *)
Inductive Round :=
| Round_batch (limit : Z)
| Round_batch_dlt (limit max_attempts : Z)
| Round_channel (channel : string) (limit : Z)
| Round_channel_dlt (channel : string) (limit max_attempts : Z)
| Round_retention (policy : OutboxRetentionPolicy) (archive : bool) (now_ms : Z) (batches : nat).

Definition finish {A} (p : Async A) : Async unit := and_then p (λ _, Done tt).

Definition start_round (round : Round) : Async unit :=
  match round with
  | Round_batch limit => finish (dispatch_batch None limit)
  | Round_batch_dlt limit max_attempts => finish (dispatch_batch_with_dlt None limit max_attempts)
  | Round_channel channel limit => finish (dispatch_batch_channel None channel limit)
  | Round_channel_dlt channel limit max_attempts =>
      finish (dispatch_batch_channel_with_dlt None channel limit max_attempts)
  | Round_retention policy archive now_ms batches =>
      finish (retention_round None policy archive now_ms batches)
  end.

(** The outbox calls of a business transaction, with the id each draws. *)
Inductive AppCall :=
| App_append (id : Z) (event : OutboxEvent)
| App_append_transactional (id : Z) (event : OutboxEvent)
| App_append_with_context (id : Z) (context : WriteContext) (event : OutboxEvent)
| App_reconcile (name : string).

Definition drawn (call : AppCall) : list Z :=
  match call with
  | App_append id _ | App_append_transactional id _ | App_append_with_context id _ _ => [id]
  | App_reconcile _ => []
  end.

Section system.
Context (frozen : Frozen) (datasource : string).

Definition run_call (ambient : option string) (now : Z) (call : AppCall) : Sx unit :=
  match call with
  | App_append id event => PgOutbox_append frozen datasource ambient id now event
  | App_append_transactional id event => append_transactional frozen datasource ambient id now event
  | App_append_with_context id context event =>
      append_transactional_with_context frozen datasource ambient id now context event
  | App_reconcile name =>
      then! on_db (reconcile_outbox_tenant_quota datasource ambient name) in st_ret tt
  end.

Fixpoint run_calls (ambient : option string) (now : Z) (calls : list AppCall) : Sx unit :=
  match calls with
  | [] => st_ret tt
  | call :: rest => then! run_call ambient now call in run_calls ambient now rest
  end.

Record RelaySystem := mkSystem { sys_world : World; sys_rounds : list (Async unit) }.

(** A round goes on with the answer to what it awaits. *)
Definition round_step (p : Async unit) (w : World) (p' : Async unit) (w' : World) : Prop :=
  match p with
  | Done _ => False
  | Await call k => ∃ answer, handle call w answer w' ∧ p' = k answer
  end.

Inductive system_step : RelaySystem → RelaySystem → Prop :=
| step_clock w rounds now :
    system_step (mkSystem w rounds)
      (mkSystem (mkWorld (w_db w) now (w_ids w) (w_delivered w) (w_refused w) (w_archive w)) rounds)
| step_application w rounds ambient calls s ids :
    (ambient = Some datasource ∨ length calls = 1%nat) →
    concat (map drawn calls) = ids → NoDup ids → (∀ id, id ∈ ids → id ∉ w_ids w) →
    run_calls ambient (w_now w) calls (mkSession (w_db w) [] ∅) = Ok (tt, s) →
    system_step (mkSystem w rounds)
      (mkSystem (mkWorld (session_db s) (w_now w) (w_ids w ++ ids) (w_delivered w) (w_refused w)
                   (w_archive w)) rounds)
| step_start w rounds round :
    system_step (mkSystem w rounds) (mkSystem w (rounds ++ [start_round round]))
| step_round w rounds i p p' w' :
    rounds !! i = Some p → round_step p w p' w' →
    system_step (mkSystem w rounds) (mkSystem w' (<[i := p']> rounds))
| step_crash w rounds i :
    system_step (mkSystem w rounds) (mkSystem w (<[i := Done tt]> rounds)).
End system.

Definition empty_tables : OutboxDb := mkOutboxDb [] ∅ ∅ ∅.
Definition initial (now : Z) : RelaySystem := mkSystem (mkWorld empty_tables now [] [] [] []) [].
