(* ===== verification/OutboxSafety.v ===== *)
(** * The durable outbox: what every interleaving keeps

    The invariant [sound] of the tables and the relation [kept] between an
    earlier and a later world, and that every transaction of the outbox keeps
    both, given what the round that runs it knows: the rows it polled, the
    deliveries it saw confirmed, the receipts it holds. *)

From Stdlib Require Import ZArith Lia.
From S2P Require Import Prelude AsyncProg Bytes SagaIdentity SagaState.
From S2P Require Import OutboxCore OutboxStore OutboxRetention OutboxRelay.
From stdpp Require Import prelude strings list sorting gmap relations.

Local Open Scope Z_scope.
Local Open Scope rust_scope.

(** ** Counting rows *)

Definition bool_Z (b : bool) : Z := if b then 1 else 0.

Lemma count_rows_app p l1 l2 : count_rows p (l1 ++ l2) = count_rows p l1 + count_rows p l2.
Proof. unfold count_rows. rewrite List.filter_app, length_app. lia. Qed.

Lemma count_rows_cons p r l : count_rows p (r :: l) = bool_Z (p r) + count_rows p l.
Proof. unfold count_rows. simpl. destruct (p r); simpl; lia. Qed.

Lemma count_rows_nonneg p l : 0 ≤ count_rows p l.
Proof. unfold count_rows. lia. Qed.

Lemma count_rows_filter p q l :
  (∀ r, r ∈ l → p r = true → q r = true) → count_rows p (List.filter q l) = count_rows p l.
Proof.
  induction l as [|r l IH]; intros H; [done|]. simpl.
  destruct (q r) eqn:Hq; rewrite ?count_rows_cons, IH by set_solver; [done|].
  destruct (p r) eqn:Hp; [|done]. rewrite (H r) in Hq by set_solver. done.
Qed.

(** ** The ledger *)

(** The ledger of a capped tenant, once initialised, counts its pending rows.
    The tenant of unattributed appends is not counted when it appends. *)
Definition ledger_exact (frozen : Frozen) (db : OutboxDb) : Prop :=
  ∀ name cap q, name ≠ SYSTEM_TENANT → outbox_tenant_quota_of frozen name = Some cap →
    outbox_tenant_quota db !! name = Some q → quota_initialized q = true →
    quota_in_flight q = count_rows (is_pending_of name) (outbox_event db).

(** ** Single statements *)

Lemma release_quota_Ok name db x db' :
  release_quota name db = Ok (x, db') →
  outbox_event db' = outbox_event db ∧ outbox_dispatch_owner db' = outbox_dispatch_owner db ∧
  outbox_dead_disposal db' = outbox_dead_disposal db ∧
  ∀ t q', outbox_tenant_quota db' !! t = Some q' →
    ∃ q, outbox_tenant_quota db !! t = Some q ∧ quota_initialized q' = quota_initialized q ∧
      quota_in_flight q' = if decide (t = name) then Z.max (quota_in_flight q - 1) (Z.min (quota_in_flight q) 0)
                           else quota_in_flight q.
Proof.
  unfold release_quota. intros H. inv_run. destruct (outbox_tenant_quota db !! name) as [q|] eqn:Hq.
  - destruct (0 <? quota_in_flight q) eqn:Hpos; inv_run; (do 3 (split; [done|])); simpl; intros t q' Hq'.
    + destruct (decide (t = name)) as [->|Hne].
      * rewrite lookup_insert_eq in Hq'. injection Hq' as <-. exists q. simpl. split; [done|]. split; [done|]. lia.
      * rewrite lookup_insert_ne in Hq' by done. by exists q'.
    + exists q'. split; [done|]. split; [done|]. destruct (decide (t = name)) as [->|]; [|done].
      rewrite Hq in Hq'. injection Hq' as <-. lia.
  - inv_run. do 3 (split; [done|]). intros t q' Hq'. exists q'. split; [done|]. split; [done|].
    destruct (decide (t = name)) as [->|]; [|done]. by rewrite Hq in Hq'.
Qed.

(** A statement that finds one pending row and rewrites it. *)
Definition rewrites (found updated : OutboxRow) (db db' : OutboxDb) : Prop :=
  ∃ l1 l2, outbox_event db = l1 ++ found :: l2 ∧ db' = set_events (l1 ++ updated :: l2) db.

Lemma find_first_split {A} (p : A → bool) l x :
  find_first p l = Some x → ∃ l1 l2, l = l1 ++ x :: l2 ∧ ∀ y, y ∈ l1 → p y = false.
Proof.
  induction l as [|y l IH]; simpl; [done|]. destruct (p y) eqn:Hy.
  - intros [= ->]. exists [], l. split; [done|]. set_solver.
  - intros (l1 & l2 & -> & H1)%IH. exists (y :: l1), l2. split; [done|]. set_solver.
Qed.

Lemma update_pending_Ok row f db o db' :
  NoDup (map row_id (outbox_event db)) → update_pending row f db = Ok (o, db') →
  match o with
  | Some updated => ∃ found, is_row (pending_id row) (event_id (pending_event row)) found = true ∧
      is_pending found = true ∧ f found = Ok updated ∧ rewrites found updated db db'
  | None => db' = db
  end.
Proof.
  unfold update_pending. intros Hnd H. inv_run.
  destruct (find_first _ _) as [found|] eqn:Hf in H; inv_run; [|done].
  exists found. apply find_first_Some in Hf as Hp. destruct Hp as [_ [Hr Hp]%andb_prop].
  do 3 (split; [done|]). apply find_first_split in Hf as (l1 & l2 & He & Hl1).
  exists l1, l2. split; [done|]. f_equal. rewrite He, map_app. simpl. rewrite Hr, Hp. simpl.
  f_equal; [|f_equal].
  - rewrite <- (map_id l1) at 2. apply map_ext_in. intros r Hin%list_elem_of_In. by rewrite Hl1.
  - rewrite <- (map_id l2) at 2. apply map_ext_in. intros r Hin%list_elem_of_In.
    destruct (is_row _ _ r) eqn:Hr2; [|done]. exfalso. rewrite He, map_app in Hnd. simpl in Hnd.
    apply NoDup_app in Hnd as (_ & _ & [Hnot _]%NoDup_cons). apply Hnot.
    apply list_elem_of_fmap. exists r. split; [|done].
    unfold is_row in Hr, Hr2. apply andb_prop in Hr as [Hr _], Hr2 as [Hr2 _]. lia.
Qed.

(** ** The invariant *)

Definition same_row (row row' : OutboxRow) : Prop :=
  row_id row' = row_id row ∧ row_event row' = row_event row ∧ row_channel row' = row_channel row.

(** A row is dispatched on a delivery, and has failed on a refusal. *)
Record row_sound (w : World) (row : OutboxRow) : Prop := {
  rs_dispatched : row_dispatched row = true → row_event row ∈ w_delivered w;
  rs_attempts : 0 ≤ row_attempts row;
  rs_refused : 0 < row_attempts row → row_event row ∈ w_refused w;
  rs_dead : row_dead row = true → 0 < row_attempts row;
  rs_one : row_dispatched row && row_dead row = false
}.

Record sound (frozen : Frozen) (w : World) : Prop := {
  so_ids : NoDup (map row_id (outbox_event (w_db w)));
  so_events : NoDup (map (λ row, event_id (row_event row)) (outbox_event (w_db w)));
  so_drawn : ∀ row, row ∈ outbox_event (w_db w) → row_id row ∈ w_ids w;
  so_rows : ∀ row, row ∈ outbox_event (w_db w) → row_sound w row;
  so_disposals : ∀ name d, outbox_dead_disposal (w_db w) !! name = Some d →
    disposal_receipt d = name ∧ name ∈ w_archive w;
  so_tokens : ∀ key o, outbox_dispatch_owner (w_db w) !! key = Some o → 0 < fencing_token o;
  so_exact : ledger_exact frozen (w_db w)
}.

(** ** What stays *)

Record row_later (row row' : OutboxRow) : Prop := {
  rl_same : same_row row row';
  rl_attempts : row_attempts row ≤ row_attempts row';
  rl_dispatched : row_dispatched row = true → row_dispatched row' = true;
  rl_dead : row_dead row = true → row_dead row' = true
}.

(** Why a row may be gone: delivered, or refused for good, archived and
    disposed of. *)
Definition accounted (w : World) (event : OutboxEvent) : Prop :=
  event ∈ w_delivered w ∨
  event ∈ w_refused w ∧ event_id event ∈ w_archive w ∧
  is_Some (outbox_dead_disposal (w_db w) !! event_id event).

Definition owner_later (o o' : OwnerRow) : Prop :=
  fencing_token o < fencing_token o' ∨
  fencing_token o = fencing_token o' ∧ owner_id o = owner_id o'.

Record kept (w w' : World) : Prop := {
  k_ids : w_ids w ⊆ w_ids w';
  k_delivered : w_delivered w ⊆ w_delivered w';
  k_refused : w_refused w ⊆ w_refused w';
  k_archive : w_archive w ⊆ w_archive w';
  k_rows : ∀ row, row ∈ outbox_event (w_db w) →
    (∃ row', row' ∈ outbox_event (w_db w') ∧ row_later row row') ∨ accounted w' (row_event row);
  k_old : ∀ row', row' ∈ outbox_event (w_db w') → row_id row' ∈ w_ids w →
    ∃ row, row ∈ outbox_event (w_db w) ∧ same_row row row';
  k_owners : ∀ key o, outbox_dispatch_owner (w_db w) !! key = Some o →
    ∃ o', outbox_dispatch_owner (w_db w') !! key = Some o' ∧ owner_later o o';
  k_disposals : ∀ name, is_Some (outbox_dead_disposal (w_db w) !! name) →
    is_Some (outbox_dead_disposal (w_db w') !! name)
}.

Lemma same_row_refl row : same_row row row.
Proof. done. Qed.

Lemma row_later_refl row : row_later row row.
Proof. split; [apply same_row_refl|lia|done|done]. Qed.

Lemma row_later_trans a b c : row_later a b → row_later b c → row_later a c.
Proof.
  intros [(?&?&?) ? ? ?] [(?&?&?) ? ? ?]. split; [|lia|auto|auto].
  split_and!; congruence.
Qed.

Lemma owner_later_refl o : owner_later o o.
Proof. by right. Qed.

Lemma owner_later_trans a b c : owner_later a b → owner_later b c → owner_later a c.
Proof. unfold owner_later. intros [?|[? ?]] [?|[? ?]]; [left; lia..|right; split; [lia|congruence]]. Qed.

Lemma accounted_kept w w' event : kept w w' → accounted w event → accounted w' event.
Proof.
  intros [_ Hd Hr Ha _ _ _ Hs] [He|(He & Hn & Hdis)]; [left; by apply Hd|right].
  split; [by apply Hr|]. split; [by apply Ha|by apply Hs].
Qed.

#[global] Instance kept_preorder : PreOrder kept.
Proof.
  split.
  - intros w. split; try done.
    + intros row Hrow. left. exists row. split; [done|apply row_later_refl].
    + intros row Hrow _. by exists row.
    + intros key o Ho. exists o. split; [done|apply owner_later_refl].
  - intros w1 w2 w3 H12 H23. split.
    + etrans; [apply H12|apply H23].
    + etrans; [apply H12|apply H23].
    + etrans; [apply H12|apply H23].
    + etrans; [apply H12|apply H23].
    + intros row Hrow. destruct (k_rows _ _ H12 row Hrow) as [(row2 & Hrow2 & H2)|Hg].
      * destruct (k_rows _ _ H23 row2 Hrow2) as [(row3 & Hrow3 & H3)|Hg].
        -- left. exists row3. split; [done|]. by eapply row_later_trans.
        -- right. destruct (rl_same _ _ H2) as (_ & <- & _). done.
      * right. by eapply accounted_kept.
    + intros row Hrow Hid. destruct (k_old _ _ H23 row Hrow) as (row2 & Hrow2 & H2).
      { by apply (k_ids _ _ H12). }
      destruct (k_old _ _ H12 row2 Hrow2) as (row1 & Hrow1 & H1).
      { by destruct H2 as (<- & _ & _). }
      exists row1. split; [done|]. destruct H1 as (?&?&?), H2 as (?&?&?). split_and!; congruence.
    + intros key o Ho. destruct (k_owners _ _ H12 _ _ Ho) as (o2 & Ho2 & H2).
      destruct (k_owners _ _ H23 _ _ Ho2) as (o3 & Ho3 & H3).
      exists o3. split; [done|]. by eapply owner_later_trans.
    + intros name Hn. by apply (k_disposals _ _ H23), (k_disposals _ _ H12).
Qed.

(** ** What a transaction keeps *)

Section keeping.
Context (frozen : Frozen).

Definition keeps (w : World) (db' : OutboxDb) : Prop :=
  sound frozen (set_db db' w) ∧ kept w (set_db db' w).

Lemma keeps_refl w : sound frozen w → keeps w (w_db w).
Proof. destruct w. split; [done|]. apply kept_preorder. Qed.

Lemma keeps_trans w db1 db2 : keeps w db1 → keeps (set_db db1 w) db2 → keeps w db2.
Proof. intros [_ H1] [H2 H3]. split; [done|]. by etrans. Qed.

(** One row is rewritten, and the ledger follows. *)
Lemma keeps_rewrite w found updated db1 db2 :
  sound frozen w → rewrites found updated (w_db w) db1 → row_later found updated →
  row_sound w updated → outbox_event db2 = outbox_event db1 →
  outbox_dispatch_owner db2 = outbox_dispatch_owner db1 →
  outbox_dead_disposal db2 = outbox_dead_disposal db1 → ledger_exact frozen db2 → keeps w db2.
Proof.
  intros Hw (l1 & l2 & He & ->) Hl Hu Hev How Hd Hx. simpl in Hev, How, Hd.
  destruct (rl_same _ _ Hl) as (Hid & Heq & Hch).
  assert (Hrow : ∀ row, row ∈ outbox_event db2 → row = updated ∨ row ∈ outbox_event (w_db w)).
  { intros row. rewrite Hev, He, !elem_of_app, !elem_of_cons. tauto. }
  split; split; simpl.
  - rewrite Hev, map_app. simpl. rewrite Hid. pose proof (so_ids _ _ Hw) as Hn.
    rewrite He, map_app in Hn. done.
  - rewrite Hev, map_app. simpl. rewrite Heq. pose proof (so_events _ _ Hw) as Hn.
    rewrite He, map_app in Hn. done.
  - intros row [->|Hr]%Hrow; [|by apply (so_drawn _ _ Hw)].
    rewrite Hid. apply (so_drawn _ _ Hw). rewrite He. set_solver.
  - intros row [->|Hr]%Hrow; [by destruct Hu|]. by destruct (so_rows _ _ Hw row Hr).
  - rewrite Hd. apply (so_disposals _ _ Hw).
  - rewrite How. apply (so_tokens _ _ Hw).
  - done.
  - done.
  - done.
  - done.
  - done.
  - intros row Hr. left. rewrite Hev. rewrite He in Hr.
    apply elem_of_app in Hr as [Hr|[->|Hr]%elem_of_cons].
    + exists row. split; [set_solver|apply row_later_refl].
    + exists updated. split; [set_solver|done].
    + exists row. split; [set_solver|apply row_later_refl].
  - intros row [->|Hr]%Hrow _; [|by exists row].
    exists found. split; [rewrite He; set_solver|by split_and!].
  - rewrite How. intros key o Ho. exists o. split; [done|apply owner_later_refl].
  - by rewrite Hd.
Qed.

(** An owner row is written, with a later token or the same owner. *)
Lemma keeps_owner w key o' :
  sound frozen w → 0 < fencing_token o' →
  (∀ o, outbox_dispatch_owner (w_db w) !! key = Some o → owner_later o o') →
  keeps w (set_owner key o' (w_db w)).
Proof.
  intros Hw Ht Hl. split; split; simpl; try done; try apply Hw.
  - intros row Hr. by destruct (so_rows _ _ Hw row Hr).
  - intros key' o. destruct (decide (key' = key)) as [->|Hne].
    + rewrite lookup_insert_eq. by intros [= <-].
    + rewrite lookup_insert_ne by done. apply (so_tokens _ _ Hw).
  - intros row Hr. left. exists row. split; [done|apply row_later_refl].
  - intros row Hr _. by exists row.
  - intros key' o Ho. destruct (decide (key' = key)) as [->|Hne].
    + rewrite lookup_insert_eq. eauto.
    + rewrite lookup_insert_ne by done. exists o. split; [done|apply owner_later_refl].
Qed.

(** Only the ledger changes. *)
Lemma keeps_ledger w db' :
  sound frozen w → outbox_event db' = outbox_event (w_db w) →
  outbox_dispatch_owner db' = outbox_dispatch_owner (w_db w) →
  outbox_dead_disposal db' = outbox_dead_disposal (w_db w) → ledger_exact frozen db' → keeps w db'.
Proof.
  intros Hw Hev How Hd Hx. split; split; simpl; rewrite ?Hev, ?How, ?Hd; try done; try apply Hw.
  - intros row Hr. by destruct (so_rows _ _ Hw row Hr).
  - intros row Hr. left. exists row. split; [done|apply row_later_refl].
  - intros row Hr _. by exists row.
  - intros key o Ho. exists o. split; [done|apply owner_later_refl].
Qed.

(** Rows that are accounted for are deleted, perhaps with a disposal. *)
Lemma keeps_delete w p disposals :
  sound frozen w →
  (∀ row, row ∈ outbox_event (w_db w) → p row = true → is_pending row = false ∧
     (row_event row ∈ w_delivered w ∨
      row_event row ∈ w_refused w ∧ event_id (row_event row) ∈ w_archive w ∧
      is_Some (disposals !! event_id (row_event row)))) →
  (∀ name d, disposals !! name = Some d → disposal_receipt d = name ∧ name ∈ w_archive w) →
  (∀ name, is_Some (outbox_dead_disposal (w_db w) !! name) → is_Some (disposals !! name)) →
  keeps w (mkOutboxDb (List.filter (λ row, negb (p row)) (outbox_event (w_db w)))
             (outbox_dispatch_owner (w_db w)) (outbox_tenant_quota (w_db w)) disposals).
Proof.
  intros Hw Hp Hd Hs.
  assert (Hsub : ∀ row, row ∈ List.filter (λ row, negb (p row)) (outbox_event (w_db w)) →
    row ∈ outbox_event (w_db w)) by (intros row [? _]%filter_elem_of; done).
  assert (Hnd : ∀ {B} (f : OutboxRow → B), NoDup (map f (outbox_event (w_db w))) →
    NoDup (map f (List.filter (λ row, negb (p row)) (outbox_event (w_db w))))).
  { intros B f. generalize (outbox_event (w_db w)). intros l.
    induction l as [|r l IH]; simpl; [done|]. intros [Hn Hl]%NoDup_cons.
    destruct (negb (p r)); [|auto]. simpl. apply NoDup_cons. split; [|auto].
    intros (y & Hy & [Hin _]%filter_elem_of)%list_elem_of_fmap. apply Hn, list_elem_of_fmap. eauto. }
  split; split; simpl; try done; try (by apply Hnd, Hw); try (by apply Hw).
  - intros row Hr%Hsub. by apply (so_drawn _ _ Hw).
  - intros row Hr%Hsub. by destruct (so_rows _ _ Hw row Hr).
  - intros name cap q Hne Hc Hq Hi. simpl. rewrite (so_exact _ _ Hw name cap q) by done.
    symmetry. apply count_rows_filter. intros row Hr Hpend.
    destruct (p row) eqn:Hprow; [|done]. destruct (Hp row Hr Hprow) as [Hn _].
    unfold is_pending_of in Hpend. rewrite Hn, andb_false_r in Hpend. done.
  - intros row Hr. destruct (p row) eqn:Hprow.
    + right. by destruct (Hp row Hr Hprow).
    + left. exists row. split; [|apply row_later_refl]. apply filter_elem_of. by rewrite Hprow.
  - intros row Hr%Hsub _. by exists row.
  - intros key o Ho. exists o. split; [done|apply owner_later_refl].
Qed.

(** ** Owners *)

Lemma ensure_owner_Ok claim now db x db' :
  ensure_owner claim now db = Ok (x, db') →
  db' = db ∧ ∃ o, outbox_dispatch_owner db !! claim_key claim = Some o ∧ grants claim o = true ∧
    now ≤ lease_until_ms o.
Proof.
  unfold ensure_owner. intros H. inv_run.
  destruct (outbox_dispatch_owner db !! claim_key claim) as [o|]; inv_run.
  split; [done|]. exists o. apply andb_prop in Heqb as [? ?]. do 2 (split; [done|]). lia.
Qed.

Lemma try_claim_owner_keeps w role lane owner lease now o db' :
  sound frozen w → try_claim_owner role lane owner lease now (w_db w) = Ok (o, db') → keeps w db'.
Proof.
  unfold try_claim_owner. intros Hw H. inv_run.
  destruct (outbox_dispatch_owner (w_db w) !! (role, lane)) as [row|] eqn:Hl; inv_run.
  - destruct (lease_until_ms row <? now); inv_run; [|by apply keeps_refl].
    pose proof (so_tokens _ _ Hw _ _ Hl). unfold bigint in H1.
    destruct (is_i64 _) in H1; [|done]. injection H1 as <-.
    apply keeps_owner; [done|simpl; lia|]. rewrite Hl. intros o [= <-]. left. simpl. lia.
  - apply keeps_owner; [done|done|]. by rewrite Hl.
Qed.

Lemma keeps_same_owner w claim o until :
  sound frozen w → outbox_dispatch_owner (w_db w) !! claim_key claim = Some o →
  keeps w (set_owner (claim_key claim) (mkOwner (owner_id o) (fencing_token o) until) (w_db w)).
Proof.
  intros Hw Ho. apply keeps_owner; [done|by apply (so_tokens _ _ Hw _ _ Ho)|].
  rewrite Ho. intros o' [= <-]. by right.
Qed.

Lemma renew_keeps w claim lease now x db' :
  sound frozen w → OwnerClaim_renew claim lease now (w_db w) = Ok (x, db') → keeps w db'.
Proof.
  unfold OwnerClaim_renew. intros Hw H. inv_run.
  destruct (outbox_dispatch_owner (w_db w) !! claim_key claim) as [o|] eqn:Ho; inv_run.
  by apply keeps_same_owner.
Qed.

Lemma release_keeps w claim x db' :
  sound frozen w → OwnerClaim_release claim (w_db w) = Ok (x, db') → keeps w db'.
Proof.
  unfold OwnerClaim_release. intros Hw H. inv_run.
  destruct (outbox_dispatch_owner (w_db w) !! claim_key claim) as [o|] eqn:Ho; inv_run.
  by apply keeps_same_owner.
Qed.

(** ** Settling rows *)

(** What a round knows of a row it polled. *)
Definition polled (w : World) (p : PendingRow) : Prop :=
  pending_id p ∈ w_ids w ∧
  ∀ row, row ∈ outbox_event (w_db w) → row_id row = pending_id p → row_event row = pending_event p.

Lemma polled_kept w w' p : kept w w' → polled w p → polled w' p.
Proof.
  intros Hk [Hid Hp]. split; [by apply (k_ids _ _ Hk)|]. intros row Hrow He.
  destruct (k_old _ _ Hk row Hrow) as (row0 & Hrow0 & Hs); [by rewrite He|].
  destruct Hs as (Hi & -> & _). apply Hp; [done|]. by rewrite <- Hi.
Qed.

Lemma polled_found w p db' updated found :
  polled w p → is_row (pending_id p) (event_id (pending_event p)) found = true →
  rewrites found updated (w_db w) db' → row_event found = pending_event p.
Proof.
  intros [_ Hp] [Hr _]%andb_prop (l1 & l2 & He & _). apply Hp; [rewrite He; set_solver|lia].
Qed.

(** A pending row that leaves takes its place in the ledger along. *)
Lemma exact_release db found updated db1 x db2 :
  ledger_exact frozen db → rewrites found updated db db1 → same_row found updated →
  is_pending found = true → is_pending updated = false →
  release_quota (tenant (row_event updated)) db1 = Ok (x, db2) → ledger_exact frozen db2.
Proof.
  intros Hx (l1 & l2 & He & ->) (_ & Hev & _) Hf Hu Hr name cap q' Hne Hcap Hq' Hi.
  apply release_quota_Ok in Hr as (Hevs & _ & _ & Hq). simpl in Hevs, Hq.
  destruct (Hq _ _ Hq') as (q & Hq0 & Hinit & Hfl). rewrite Hinit in Hi.
  pose proof (Hx name cap q Hne Hcap Hq0 Hi) as Hc. rewrite Hfl, Hevs.
  rewrite He in Hc. rewrite !count_rows_app, !count_rows_cons in *.
  unfold is_pending_of in *. rewrite Hf, Hu, Hev in *. rewrite andb_true_r, andb_false_r in *. simpl.
  pose proof (count_rows_nonneg (is_pending_of name) l1) as H1.
  pose proof (count_rows_nonneg (is_pending_of name) l2) as H2. unfold is_pending_of in H1, H2.
  destruct (decide (name = tenant (row_event found))) as [->|Hn].
  - rewrite bool_decide_eq_true_2 in Hc by done. simpl in Hc. lia.
  - rewrite bool_decide_eq_false_2 in Hc by congruence. simpl in Hc. lia.
Qed.

(** A pending row that stays pending keeps the ledger exact. *)
Lemma exact_rewrite db found updated db1 :
  ledger_exact frozen db → rewrites found updated db db1 → same_row found updated →
  is_pending updated = is_pending found → ledger_exact frozen db1.
Proof.
  intros Hx (l1 & l2 & He & ->) (_ & Hev & _) Hp name cap q Hne Hcap Hq Hi. simpl.
  rewrite (Hx name cap q) by done. rewrite He, !count_rows_app, !count_rows_cons.
  unfold is_pending_of. by rewrite Hev, Hp.
Qed.

Lemma mark_one_keeps w p now x db' :
  sound frozen w → polled w p → pending_event p ∈ w_delivered w →
  mark_dispatched_one now p (w_db w) = Ok (x, db') → keeps w db'.
Proof.
  unfold mark_dispatched_one. intros Hw Hp Hd H. inv_run.
  apply update_pending_Ok in Hrun; [|apply (so_ids _ _ Hw)].
  destruct x0 as [updated|]; [|by inv_run].
  destruct Hrun as (found & Hrow & Hpend & Hf & Hrw). injection Hf as <-.
  pose proof (polled_found _ _ _ _ _ Hp Hrow Hrw) as Hev.
  assert (Hin : found ∈ outbox_event (w_db w)).
  { destruct Hrw as (l1 & l2 & -> & _). set_solver. }
  pose proof (so_rows _ _ Hw found Hin) as [_ Ha Hrf Hdd _].
  unfold is_pending in Hpend. apply andb_prop in Hpend as [Hnd Hndead].
  pose proof (release_quota_Ok _ _ _ _ H) as (He & Ho & Hdis & _).
  eapply keeps_rewrite; try done.
  - split; simpl; try done; [by rewrite Hev|]. by destruct (row_dead found).
  - eapply exact_release; try done; [apply (so_exact _ _ Hw)|].
    unfold is_pending. by rewrite Hnd, Hndead.
Qed.

Lemma mark_all_keeps w ps now x db' :
  sound frozen w → (∀ p, p ∈ ps → polled w p ∧ pending_event p ∈ w_delivered w) →
  mark_dispatched_all now ps (w_db w) = Ok (x, db') → keeps w db'.
Proof.
  revert w. induction ps as [|p ps IH]; simpl; intros w Hw Hps H; inv_run; [by apply keeps_refl|].
  destruct (Hps p) as [Hp Hd]; [set_solver|].
  pose proof (mark_one_keeps _ _ _ _ _ Hw Hp Hd Hrun) as Hk.
  eapply keeps_trans; [done|]. apply IH; [apply Hk| |done].
  intros p' Hp'. destruct (Hps p') as [Hq Hd']; [set_solver|].
  split; [|done]. eapply polled_kept; [apply Hk|done].
Qed.

Lemma record_failed_keeps w claim p max_attempts now x db' :
  sound frozen w → polled w p → pending_event p ∈ w_refused w →
  record_failed_attempt claim p max_attempts now (w_db w) = Ok (x, db') → keeps w db'.
Proof.
  unfold record_failed_attempt. intros Hw Hp Hd H. inv_run.
  apply ensure_owner_Ok in Hrun as [-> _].
  apply update_pending_Ok in Hrun0; [|apply (so_ids _ _ Hw)].
  destruct x1 as [updated|]; [|by inv_run].
  destruct Hrun0 as (found & Hrow & Hpend & Hf & Hrw).
  pose proof (polled_found _ _ _ _ _ Hp Hrow Hrw) as Hev.
  assert (Hin : found ∈ outbox_event (w_db w)).
  { destruct Hrw as (l1 & l2 & -> & _). set_solver. }
  pose proof (so_rows _ _ Hw found Hin) as [Hdd Ha Hrf Hdead Hone].
  unfold failed_row in Hf. destruct (_ <=? I32_MAX); [|done]. injection Hf as <-.
  apply andb_prop in Hpend as Hpend'. destruct Hpend' as [Hnd Hndead].
  assert (Hl : row_later found (mkRow (row_id found) (row_event found) (row_channel found)
    (row_dispatched found) (row_attempts found + 1) (max_attempts <=? row_attempts found + 1)
    (if max_attempts <=? row_attempts found + 1 then Some now else row_dead_at_ms found)
    (row_created_at_ms found) (row_dispatched_at_ms found))).
  { split; simpl; [done|lia|done|]. by destruct (row_dead found). }
  assert (Hs := rl_same _ _ Hl). simpl in H.
  destruct (max_attempts <=? row_attempts found + 1) eqn:Hmax.
  - pose proof (release_quota_Ok _ _ _ _ H) as (He & Ho & Hdis & _).
    eapply keeps_rewrite; try done.
    + split; simpl; try done; [lia|by rewrite Hev|lia|]. by destruct (row_dispatched found).
    + eapply exact_release; try done; [apply (so_exact _ _ Hw)|].
      unfold is_pending. simpl. by rewrite andb_false_r.
  - inv_run. eapply keeps_rewrite; try done.
    + split; simpl; try done; [lia|by rewrite Hev|]. by rewrite andb_false_r.
    + eapply exact_rewrite; try done; [apply (so_exact _ _ Hw)|].
      unfold is_pending. simpl. by rewrite Hndead.
Qed.
(** ** Deleting rows *)

Lemma delete_row_Ok p db b db' :
  delete_row p db = Ok (b, db') →
  b = true ∧ db' = set_events (List.filter (λ row, negb (p row)) (outbox_event db)) db ∨
  b = false ∧ db' = db.
Proof. unfold delete_row. intros H. inv_run. destruct (existsb _ _); inv_run; auto. Qed.

(** A receipt in hand names its event, and the archive holds it. *)
Definition receipted (w : World) (candidate : RetentionCandidate) (receipt : option ArchiveReceipt) : Prop :=
  ∀ r, receipt = Some r →
    receipt_event_id r = event_id (pending_event (candidate_row candidate)) ∧
    receipt_event_id r ∈ w_archive w.

Lemma receipted_kept w w' candidate receipt :
  kept w w' → receipted w candidate receipt → receipted w' candidate receipt.
Proof. intros Hk H r Hr. destruct (H r Hr) as [? ?]. split; [done|]. by apply (k_archive _ _ Hk). Qed.

Lemma delete_candidate_keeps w policy now_ms candidate receipt b db' :
  sound frozen w → receipted w candidate receipt →
  delete_candidate policy now_ms candidate receipt (w_db w) = Ok (b, db') → keeps w db'.
Proof.
  unfold delete_candidate. intros Hw Hr H. destruct (candidate_kind candidate).
  - inv_run. apply delete_row_Ok in H as [[-> ->]|[-> ->]]; [|by apply keeps_refl].
    apply (keeps_delete _ _ (outbox_dead_disposal (w_db w))); [done| |apply Hw|done].
    intros row Hin Hp. unfold still_dispatched, is_pending in *. destruct (row_dispatched row) eqn:Hd.
    + split; [done|]. left. by apply (so_rows _ _ Hw row Hin).
    + by rewrite andb_false_r in Hp.
  - destruct receipt as [r|]; [|by inv_run]. destruct (dead_approval policy) as [approval|]; [|by inv_run].
    destruct (Hr r eq_refl) as [Hid Harch]. inv_run.
    apply delete_row_Ok in Hrun as [[-> ->]|[-> ->]]; inv_run; [|by apply keeps_refl].
    apply (keeps_delete _ _ (<[_ := _]> (outbox_dead_disposal (w_db w)))); [done|..].
    + intros row Hin Hp. unfold still_dead, is_row, is_pending in *.
      destruct (row_dead row) eqn:Hd; [|by rewrite andb_false_r in Hp].
      split; [by rewrite andb_false_r|]. right.
      destruct (bool_decide_reflect (event_id (row_event row) =
        event_id (pending_event (candidate_row candidate)))) as [He|He]; [|by rewrite andb_false_r in Hp].
      destruct (so_rows _ _ Hw row Hin) as [_ _ Hf Hd' _]. split; [by apply Hf, Hd'|].
      rewrite He. split; [by rewrite <- Hid|]. rewrite lookup_insert_eq. eauto.
    + intros name d. destruct (decide (name = event_id (pending_event (candidate_row candidate)))) as [->|Hn].
      * rewrite lookup_insert_eq. intros [= <-]. simpl. rewrite <- Hid. done.
      * rewrite lookup_insert_ne by done. apply (so_disposals _ _ Hw).
    + intros name Hs. destruct (decide (name = event_id (pending_event (candidate_row candidate)))) as [->|Hn].
      * rewrite lookup_insert_eq. eauto.
      * by rewrite lookup_insert_ne.
Qed.

Lemma delete_candidates_keeps w policy now_ms batch bs db' :
  sound frozen w → (∀ c r, (c, r) ∈ batch → receipted w c r) →
  delete_candidates policy now_ms batch (w_db w) = Ok (bs, db') → keeps w db'.
Proof.
  revert w bs. induction batch as [|[c r] batch IH]; simpl; intros w bs Hw Hb H; inv_run;
    [by apply keeps_refl|].
  pose proof (delete_candidate_keeps _ _ _ _ _ _ _ Hw (Hb c r ltac:(set_solver)) Hrun) as Hk.
  eapply keeps_trans; [done|]. eapply IH; [apply Hk| |done].
  intros c' r' Hc. eapply receipted_kept; [apply Hk|]. apply Hb. set_solver.
Qed.

(** ** Appending *)

(** The world after an application drew ids and committed. *)
Definition drew (ids : list Z) (db : OutboxDb) (w : World) : World :=
  mkWorld db (w_now w) (w_ids w ++ ids) (w_delivered w) (w_refused w) (w_archive w).

Definition keeps_drew (w : World) (ids : list Z) (db' : OutboxDb) : Prop :=
  sound frozen (drew ids db' w) ∧ kept w (drew ids db' w).

(** Ids may be drawn for nothing. *)
Lemma keeps_drawn w ids db' : keeps w db' → keeps_drew w ids db'.
Proof.
  intros [Hw Hk]. split; split; simpl; try apply Hw; try apply Hk.
  - intros row Hr. apply elem_of_app. left. by apply (so_drawn _ _ Hw).
  - intros row Hr. by destruct (so_rows _ _ Hw row Hr).
  - intros id Hid. apply elem_of_app. by left.
Qed.

Definition fresh_row (row : OutboxRow) : Prop :=
  row_dispatched row = false ∧ row_dead row = false ∧ row_attempts row = 0.

Lemma keeps_insert w row db' :
  sound frozen w → fresh_row row → row_id row ∉ w_ids w →
  (∀ r, r ∈ outbox_event (w_db w) → event_id (row_event r) ≠ event_id (row_event row)) →
  outbox_event db' = outbox_event (w_db w) ++ [row] →
  outbox_dispatch_owner db' = outbox_dispatch_owner (w_db w) →
  outbox_dead_disposal db' = outbox_dead_disposal (w_db w) →
  ledger_exact frozen db' → keeps_drew w [row_id row] db'.
Proof.
  intros Hw (Hd & Hdead & Ha) Hid Hfresh Hev How Hdis Hx.
  assert (Hone : ∀ {B} (f : OutboxRow → B), NoDup (map f (outbox_event (w_db w))) →
    (∀ r, r ∈ outbox_event (w_db w) → f r ≠ f row) → NoDup (map f (outbox_event db'))).
  { intros B f Hn Hf. rewrite Hev, map_app. apply NoDup_app. split; [done|].
    split; [|apply NoDup_singleton]. intros y (r & -> & Hr)%list_elem_of_fmap.
    simpl. rewrite list_elem_of_singleton. by apply Hf. }
  split; split; simpl; rewrite ?How, ?Hdis; try done; try (by apply Hw).
  - apply Hone; [apply (so_ids _ _ Hw)|]. intros r Hr He. apply Hid. rewrite <- He.
    by apply (so_drawn _ _ Hw).
  - apply (Hone _ (λ row, event_id (row_event row))); [apply (so_events _ _ Hw)|done].
  - rewrite Hev. intros r [Hr|Hr%list_elem_of_singleton]%elem_of_app.
    + apply elem_of_app. left. by apply (so_drawn _ _ Hw).
    + subst r. apply elem_of_app. right. set_solver.
  - rewrite Hev. intros r [Hr|Hr%list_elem_of_singleton]%elem_of_app.
    + by destruct (so_rows _ _ Hw r Hr).
    + subst r. split; rewrite ?Hd, ?Hdead, ?Ha; done || lia.
  - intros id Hi. apply elem_of_app. by left.
  - intros r Hr. left. exists r. rewrite Hev. split; [set_solver|apply row_later_refl].
  - rewrite Hev. intros r [Hr|Hr%list_elem_of_singleton]%elem_of_app; [by exists r|]. by subst r.
  - intros key o Ho. exists o. split; [done|apply owner_later_refl].
Qed.

Lemma exact_insert db row db' :
  ledger_exact frozen db → is_pending row = true → outbox_event db' = outbox_event db ++ [row] →
  (∀ name cap q', name ≠ SYSTEM_TENANT → outbox_tenant_quota_of frozen name = Some cap →
     outbox_tenant_quota db' !! name = Some q' → quota_initialized q' = true →
     ∃ q, outbox_tenant_quota db !! name = Some q ∧ quota_initialized q = true ∧
       quota_in_flight q' = quota_in_flight q + bool_Z (bool_decide (tenant (row_event row) = name))) →
  ledger_exact frozen db'.
Proof.
  intros Hx Hp Hev Hq name cap q' Hne Hc Hl Hi.
  destruct (Hq name cap q' Hne Hc Hl Hi) as (q & Hq0 & Hi0 & ->).
  rewrite (Hx name cap q) by done. rewrite Hev, count_rows_app, count_rows_cons.
  unfold is_pending_of at 3. rewrite Hp, andb_true_r. unfold count_rows at 3. simpl. lia.
Qed.

Lemma exact_ensure_quota name db q db' :
  ledger_exact frozen db → ensure_quota_row name db = Ok (q, db') →
  ledger_exact frozen db' ∧ outbox_event db' = outbox_event db ∧
  outbox_dispatch_owner db' = outbox_dispatch_owner db ∧
  outbox_dead_disposal db' = outbox_dead_disposal db ∧ outbox_tenant_quota db' !! name = Some q.
Proof.
  unfold ensure_quota_row. intros Hx H. inv_run.
  destruct (outbox_tenant_quota db !! name) as [q0|] eqn:Hq; inv_run; [done|].
  split; [|do 3 (split; [done|]); simpl; by rewrite lookup_insert_eq].
  intros name' cap q Hne Hc Hl Hi. simpl in Hl. destruct (decide (name' = name)) as [->|Hn].
  - rewrite lookup_insert_eq in Hl. by injection Hl as <-.
  - rewrite lookup_insert_ne in Hl by done. by apply (Hx name' cap q).
Qed.

Lemma append_on_Ok id now event name db b db' :
  append_on_with_tenant frozen id now event name db = Ok (b, db') →
  b = false ∧ already_exists event db = true ∧ db' = db ∨
  b = true ∧ already_exists event db = false ∧
    db' = set_events (outbox_event db ++ [mkRow id (of_tenant name event)
            (channel_of frozen (aggregate_type event)) false 0 false None now None]) db.
Proof.
  unfold append_on_with_tenant. intros H. inv_run.
  destruct (already_exists event db); inv_run; [by left|by right].
Qed.

Lemma already_exists_false event db :
  already_exists event db = false →
  ∀ r, r ∈ outbox_event db → event_id (row_event r) ≠ event_id event.
Proof.
  intros Hf r Hr He. apply not_true_iff_false in Hf. apply Hf, existsb_elem_of.
  exists r. by rewrite bool_decide_eq_true.
Qed.

(** An append whose reservation [db1] has already counted its event. *)
Lemma append_on_keeps w db1 id now event name b db' :
  sound frozen w → id ∉ w_ids w → outbox_event db1 = outbox_event (w_db w) →
  outbox_dispatch_owner db1 = outbox_dispatch_owner (w_db w) →
  outbox_dead_disposal db1 = outbox_dead_disposal (w_db w) →
  append_on_with_tenant frozen id now event name db1 = Ok (b, db') →
  already_exists event (w_db w) = false →
  (∀ t cap q', t ≠ SYSTEM_TENANT → outbox_tenant_quota_of frozen t = Some cap →
     outbox_tenant_quota db1 !! t = Some q' → quota_initialized q' = true →
     ∃ q, outbox_tenant_quota (w_db w) !! t = Some q ∧ quota_initialized q = true ∧
       quota_in_flight q' = quota_in_flight q + bool_Z (bool_decide (name = t))) →
  b = true ∧ keeps_drew w [id] db'.
Proof.
  intros Hw Hid Hev How Hdis H Hn Hq. assert (He : already_exists event db1 = false).
  { unfold already_exists in *. by rewrite Hev. }
  apply append_on_Ok in H as [(_ & Ht & _)|(-> & _ & ->)]; [congruence|]. split; [done|].
  set (row := mkRow id _ _ _ _ _ _ _ _). change [id] with [row_id row].
  apply keeps_insert; try done; simpl.
  - by apply already_exists_false.
  - by rewrite Hev.
  - eapply exact_insert; [apply (so_exact _ _ Hw)| |simpl; by rewrite Hev|done]. done.
Qed.

Lemma reserve_quota_Ok name cap event db b db' :
  reserve_quota name cap event db = Ok (b, db') →
  b = true ∧ already_exists event db = true ∧ db' = db ∨
  b = false ∧ already_exists event db = false ∧
    ∃ q, quota_initialized q = true ∧ quota_in_flight q < cap ∧
      outbox_tenant_quota db !! name = Some q ∧
      db' = set_quota name (mkTenantQuota (quota_in_flight q + 1) true) db.
Proof.
  unfold reserve_quota, ensure_quota_row. intros H. inv_run.
  destruct (already_exists event db) eqn:He; inv_run; [by left|]. right.
  destruct (outbox_tenant_quota db !! name) as [q|] eqn:Hq; inv_run.
  - destruct (quota_initialized q) eqn:Hi; simpl in H.
    + destruct (quota_in_flight q <? cap) eqn:Hc; inv_run; [|done].
      do 2 (split; [done|]). exists q. rewrite Z.ltb_lt in Hc. by rewrite <- Hi.
    + by inv_run.
  - simpl in H. inv_run. unfold already_exists in *. simpl in *. congruence.
Qed.

Lemma on_db_Ok {A} (c : Ox A) s x s' :
  on_db c s = Ok (x, s') → c (session_db s) = Ok (x, session_db s').
Proof. unfold on_db. destruct (c (session_db s)) as [[y db]|e]; [|done]. by intros [= <- <-]. Qed.

Lemma register_Ok ambient ds channel s x s' :
  register_commit_notification ambient ds channel s = Ok (x, s') → session_db s' = session_db s.
Proof. unfold register_commit_notification. destruct ambient; intros H; by inv_run. Qed.

(** The plain appends, on behalf of the system tenant. *)
Lemma plain_append_keeps w id now event b db' :
  sound frozen w → id ∉ w_ids w →
  append_on_with_tenant frozen id now event SYSTEM_TENANT (w_db w) = Ok (b, db') →
  keeps_drew w [id] db'.
Proof.
  intros Hw Hid H. destruct (already_exists event (w_db w)) eqn:He.
  - apply append_on_Ok in H as [(_ & _ & ->)|(_ & Ht & _)]; [|congruence].
    by apply keeps_drawn, keeps_refl.
  - eapply append_on_keeps; try done. intros t cap q Hne _ Hq Hi. exists q. do 2 (split; [done|]).
    rewrite bool_decide_eq_false_2 by congruence. simpl. lia.
Qed.

Lemma context_append_keeps w s ds ambient id now context event x s' :
  sound frozen w → session_db s = w_db w → id ∉ w_ids w →
  append_transactional_with_context frozen ds ambient id now context event s = Ok (x, s') →
  keeps_drew w [id] (session_db s').
Proof.
  unfold append_transactional_with_context. intros Hw Hs Hid H.
  apply st_bind_Ok in H as (? & ? & [_ ->]%st_lift_Ok & H).
  apply st_bind_Ok in H as (? & ? & [_ ->]%st_lift_Ok & H).
  apply st_bind_Ok in H as (settled & s1 & Hres & H).
  assert (Hdb1 : settled = true ∧ session_db s1 = w_db w ∨
    settled = false ∧ (∀ b db', append_on_with_tenant frozen id now event (context_tenant context)
      (session_db s1) = Ok (b, db') → (is_Some (outbox_tenant_quota_of frozen (context_tenant context)) →
        b = true) ∧ keeps_drew w [id] db')).
  { destruct (outbox_tenant_quota_of frozen (context_tenant context)) as [cap|] eqn:Hcap; inv_run.
    - apply on_db_Ok, reserve_quota_Ok in Hres. rewrite Hs in Hres.
      destruct Hres as [(-> & _ & Hdb)|(-> & He & q & Hi & Hc & Hq & Hdb)]; [by left|right].
      split; [done|]. intros b db' Hap. rewrite Hdb in Hap.
      eapply append_on_keeps in Hap as [-> Hk]; try done.
      intros t cap' q' Hne Hc' Hq' Hi'. simpl in Hq'.
      destruct (decide (context_tenant context = t)) as [<-|Hn].
      + rewrite lookup_insert_eq in Hq'. injection Hq' as <-. exists q.
        rewrite bool_decide_eq_true_2 by done. done.
      + rewrite lookup_insert_ne in Hq' by done. exists q'. rewrite bool_decide_eq_false_2 by done.
        do 2 (split; [done|]). simpl. lia.
    - right. split; [done|]. intros b db' Hap. split; [by intros [? ?]|]. rewrite Hs in Hap.
      destruct (already_exists event (w_db w)) eqn:He.
      + apply append_on_Ok in Hap as [(_ & _ & ->)|(_ & Ht & _)]; [|congruence].
        by apply keeps_drawn, keeps_refl.
      + eapply append_on_keeps; try done. intros t cap q Hne Hcap' Hq Hi.
        exists q. do 2 (split; [done|]). rewrite bool_decide_eq_false_2 by congruence. simpl. lia. }
  destruct Hdb1 as [[-> Hdb1]|[-> Hap]]; inv_run.
  { rewrite Hdb1. by apply keeps_drawn, keeps_refl. }
  apply on_db_Ok in Hrun. destruct (Hap _ _ Hrun) as [Hb Hk].
  destruct x2; simpl in *.
  - rewrite andb_false_r in Hrun0. inv_run. apply register_Ok in H. by rewrite H.
  - destruct (bool_decide_reflect (is_Some (outbox_tenant_quota_of frozen (context_tenant context))));
      [by specialize (Hb i)|]. simpl in *. by inv_run.
Qed.

Lemma reconcile_keeps w ds ambient name x db' :
  sound frozen w → reconcile_outbox_tenant_quota ds ambient name (w_db w) = Ok (x, db') → keeps w db'.
Proof.
  unfold reconcile_outbox_tenant_quota. intros Hw H. inv_run.
  match goal with He : ensure_quota_row _ _ = _ |- _ =>
    destruct (exact_ensure_quota _ _ _ _ (so_exact _ _ Hw) He) as (Hx & Hev & Ho & Hd & _) end.
  apply keeps_ledger; try done. intros t cap q Hne Hc Hq Hi. simpl in *.
  destruct (decide (t = name)) as [->|Hn].
  - rewrite lookup_insert_eq in Hq. by injection Hq as <-.
  - rewrite lookup_insert_ne in Hq by done. by apply (Hx t cap q).
Qed.

Lemma run_call_keeps w s ds ambient now call x s' :
  sound frozen w → session_db s = w_db w → (∀ id, id ∈ drawn call → id ∉ w_ids w) →
  run_call frozen ds ambient now call s = Ok (x, s') → keeps_drew w (drawn call) (session_db s').
Proof.
  intros Hw Hs Hids. destruct call as [id event|id event|id context event|name]; simpl; intros H.
  - unfold PgOutbox_append in H. inv_run.
    match goal with Ha : on_db _ _ = Ok (_, ?s1) |- _ =>
      apply on_db_Ok in Ha; rewrite Hs in Ha;
      apply plain_append_keeps in Ha; [|done|apply Hids; set_solver] end.
    destruct (negb _); inv_run; [done|]. destruct (in_transaction ambient); [|by inv_run].
    apply register_Ok in H. by rewrite H.
  - unfold append_transactional in H. inv_run.
    match goal with Ha : on_db _ _ = Ok (?b, ?s1) |- _ =>
      apply on_db_Ok in Ha; rewrite Hs in Ha;
      apply plain_append_keeps in Ha; [|done|apply Hids; set_solver]; destruct b end.
    + apply register_Ok in H. by rewrite H.
    + by inv_run.
  - eapply context_append_keeps; try done. apply Hids. set_solver.
  - inv_run. apply on_db_Ok in Hrun. rewrite Hs in Hrun. by apply keeps_drawn, (reconcile_keeps _ _ _ _ _ _ Hw Hrun).
Qed.

Lemma run_calls_keeps w s ds ambient now calls x s' :
  sound frozen w → session_db s = w_db w → NoDup (concat (map drawn calls)) →
  (∀ id, id ∈ concat (map drawn calls) → id ∉ w_ids w) →
  run_calls frozen ds ambient now calls s = Ok (x, s') →
  keeps_drew w (concat (map drawn calls)) (session_db s').
Proof.
  revert w s. induction calls as [|call calls IH]; simpl; intros w s Hw Hs Hnd Hids H; inv_run.
  { rewrite Hs. by apply keeps_drawn, keeps_refl. }
  apply NoDup_app in Hnd as (_ & Hdis & Hnd).
  assert (Hk : keeps_drew w (drawn call) (session_db s0)).
  { eapply run_call_keeps; try done. intros id Hid. apply Hids, elem_of_app. by left. }
  destruct (IH (drew (drawn call) (session_db s0) w) s0) as [Hs2 Hk2]; try done; [apply Hk| |].
  { simpl. intros id Hid [Hw'|Hd]%elem_of_app; [|by apply (Hdis id)].
    apply (Hids id); [|done]. apply elem_of_app. by right. }
  destruct Hk as [_ Hk1]. unfold keeps_drew, drew in *. simpl in *.
  rewrite app_assoc. split; [done|]. by etrans.
Qed.
End keeping.
