(* ===== verification/OutboxRounds.v ===== *)
(** * The durable outbox: rounds under interference

    The rules for rounds and their application: [safely p Q w] says that from
    [w] on, whatever others do between its awaits, every effect of [p] keeps
    the tables sound and what others rely on, and that [p] ends with [Q]. *)

From Stdlib Require Import ZArith Lia.
From S2P Require Import Prelude AsyncProg Bytes SagaIdentity SagaState.
From S2P Require Import OutboxCore OutboxStore OutboxRetention OutboxRelay OutboxSafety.
From stdpp Require Import prelude strings list sorting gmap relations.

Local Open Scope Z_scope.
Local Open Scope rust_scope.

Section rules.
Context (frozen : Frozen).

Local Abbreviation safely := (safely (@handle) (sound frozen) kept kept).

(** An answer that changes nothing. *)
Lemma safe_still {B} (call : Call B) w :
  (∀ w1 answer w2, handle call w1 answer w2 → w2 = w1) → safely (ask call) (λ _ _, True) w.
Proof. intros H w1 Hk Hw answer w2 ->%H. split; [done|]. split; [reflexivity|done]. Qed.

(** What a committed transaction leaves, as the caller knows it later. *)
Definition commits_with {A} (tx : Z → list Z → Ox A) (R : A → World → Prop) (w : World) : Prop :=
  ∀ w1 now locked x db, kept w w1 → sound frozen w1 → tx now locked (w_db w1) = Ok (x, db) →
    keeps frozen w1 db ∧ ∀ w3, kept (set_db db w1) w3 → sound frozen w3 → R x w3.

Lemma committed_transacts {A} (tx : Z → list Z → Ox A) R w w1 answer w2 :
  commits_with tx R w → kept w w1 → sound frozen w1 → transacts tx w1 answer w2 →
  sound frozen w2 ∧ kept w1 w2 ∧
  ∀ x w3, answer = Ok x → kept w2 w3 → sound frozen w3 → R x w3.
Proof.
  intros Hc Hk Hw [locked Ht].
  destruct (tx (w_now w1) locked (w_db w1)) as [[x db]|e] eqn:Htx.
  - destruct (Hc w1 _ _ _ _ Hk Hw Htx) as [[Hs Hkk] HR].
    destruct Ht as [[-> ->]|[Ha [->| ->]]].
    + do 2 (split; [done|]). intros x' w3 [= <-]. apply HR.
    + split; [done|]. split; [reflexivity|]. intros x' w3 ->. done.
    + do 2 (split; [done|]). intros x' w3 ->. done.
  - destruct Ht as [Ha ->]. split; [done|]. split; [reflexivity|]. intros x' w3 ->. done.
Qed.

Lemma safe_transact {A} (tx : Z → list Z → Ox A) R w :
  commits_with tx R w →
  safely (ask (Transact tx)) (λ r w', match r with Ok x => R x w' | Err _ => True end) w.
Proof.
  intros Hc w1 Hk Hw answer w2 Ht. simpl in Ht.
  destruct (committed_transacts _ _ _ _ _ _ Hc Hk Hw Ht) as (? & ? & HR).
  do 2 (split; [done|]). intros w3 Hk3 Hw3. destruct answer; [|done]. by apply HR.
Qed.

Lemma safe_timed {A} (tx : Z → list Z → Ox A) R w :
  commits_with tx R w →
  safely (ask (TimedTransact tx)) (λ r w', match r with Some (Ok x) => R x w' | _ => True end) w.
Proof.
  intros Hc w1 Hk Hw answer w2 Ht. simpl in Ht. destruct answer as [answer|].
  - destruct (committed_transacts _ _ _ _ _ _ Hc Hk Hw Ht) as (? & ? & HR).
    do 2 (split; [done|]). intros w3 Hk3 Hw3. destruct answer; [|done]. by apply HR.
  - destruct Ht as (lost & _ & Ht).
    by destruct (committed_transacts _ _ _ _ _ _ Hc Hk Hw Ht) as (? & ? & _).
Qed.

(** ** The publisher and the archive *)

(** Logs only grow. *)
Lemma keeps_logs w delivered refused archive :
  sound frozen w → w_delivered w ⊆ delivered → w_refused w ⊆ refused → w_archive w ⊆ archive →
  let w' := mkWorld (w_db w) (w_now w) (w_ids w) delivered refused archive in
  sound frozen w' ∧ kept w w'.
Proof.
  intros Hw Hd Hr Ha. split; split; simpl; try done; try apply Hw.
  - intros row Hin. destruct (so_rows _ _ Hw row Hin) as [H1 H2 H3 H4 H5].
    split; simpl; auto.
  - intros name d Hn. destruct (so_disposals _ _ Hw name d Hn). auto.
  - intros row Hin. left. exists row. split; [done|apply row_later_refl].
  - intros row Hin _. by exists row.
  - intros key o Ho. exists o. split; [done|apply owner_later_refl].
Qed.

Definition published_as (event : OutboxEvent) (answer : option (result unit OutboxPublishError))
    (w : World) : Prop :=
  match answer with
  | Some (Ok _) => event ∈ w_delivered w
  | Some (Err error) => is_transient error = false → event ∈ w_refused w
  | None => True
  end.

Lemma safe_publish event w : safely (ask (TimedPublish event)) (published_as event) w.
Proof.
  intros w1 Hk Hw answer w2 (arrived & _ & Ha). simpl in *.
  assert (∃ d r, w_delivered w1 ⊆ d ∧ w_refused w1 ⊆ r ∧
    w2 = mkWorld (w_db w1) (w_now w1) (w_ids w1) d r (w_archive w1) ∧
    published_as event answer w2) as (d & r & Hd & Hr & -> & Hp).
  { destruct answer as [[[]|error]|]; subst w2; eexists _, _; (split; [|split; [|split; [done|]]]);
      simpl; try set_solver. destruct (is_transient error); [done|]. set_solver. }
  destruct (keeps_logs w1 d r (w_archive w1)) as [Hs Hkept]; [done..|].
  do 2 (split; [done|]). intros w3 Hk3 _. unfold published_as in *. simpl in Hp.
  destruct answer as [[[]|error]|]; [|intros Ht|done].
  - by apply (k_delivered _ _ Hk3).
  - by apply (k_refused _ _ Hk3), Hp.
Qed.

(** ** Dispatch rounds *)

Definition any {A} (a : A) (w : World) : Prop := True.

Lemma safe_true {A} (p : Async A) R w : safely p R w → safely p any w.
Proof.
  revert w. induction p as [a|B call k IH]; simpl; [done|]. intros w H w1 Hk Hw answer w2 Hh.
  destruct (H w1 Hk Hw answer w2 Hh) as (? & ? & ?). auto.
Qed.

(** What a report of [events] stands for. *)
Definition report_holds (events : list OutboxEvent) (report : DispatchReport) (w : World) : Prop :=
  (∀ e, e ∈ take (published report) events → e ∈ w_delivered w) ∧
  ∀ error e, first_error report = Some error → is_transient error = false →
    events !! published report = Some e → e ∈ w_refused w.

Lemma dispatch_fenced_safe claim events n w :
  sound frozen w → (∀ e, e ∈ take n events → e ∈ w_delivered w) → (n ≤ length events)%nat →
  safely (dispatch_fenced_from claim (length events) n (drop n events))
    (λ r w', match r with Ok report => report_holds events report w' | Err _ => True end) w.
Proof.
  remember (drop n events) as rest eqn:Hrest. revert n w Hrest.
  induction rest as [|event rest IH]; intros n w Hrest Hw Htake Hn; cbn [dispatch_fenced_from].
  { intros w' Hk _. split; [|done]. intros e He. by apply (k_delivered _ _ Hk), Htake. }
  assert (Hl : events !! n = Some event).
  { replace n with (n + 0)%nat by lia. by rewrite <- lookup_drop, <- Hrest. }
  apply lookup_lt_Some in Hl as Hlt.
  eapply safe_try; [apply (safe_transact _ (λ _ _, True))| |intros _ w1 Hk1 Hw1 _|done]; [|done|].
  { intros w1 now locked x db Hk Hs Htx. split; [|done]. by eapply renew_keeps. }
  eapply safe_bind; [apply safe_publish| |done]. intros answer w2 Hk2 Hw2 Hp.
  assert (Htake2 : ∀ e, e ∈ take n events → e ∈ w_delivered w2).
  { intros e He. by apply (k_delivered _ _ Hk2), (k_delivered _ _ Hk1), Htake. }
  destruct answer as [[[]|error]|]; simpl in Hp.
  - apply IH; [|done| |lia].
    + rewrite (drop_S _ _ _ Hl) in Hrest. by injection Hrest.
    + intros e. rewrite (take_S_r _ _ _ Hl). intros [He|He%list_elem_of_singleton]%elem_of_app; [auto|].
      by subst e.
  - intros w3 Hk3 _. split; simpl.
    + intros e He. by apply (k_delivered _ _ Hk3), Htake2.
    + intros error' e [= <-] Ht He. rewrite Hl in He. injection He as <-.
      by apply (k_refused _ _ Hk3), Hp.
  - intros w3 Hk3 _. split; simpl.
    + intros e He. by apply (k_delivered _ _ Hk3), Htake2.
    + by intros error' e [= <-].
Qed.

Lemma poll_pending_Ok claim channel limit now locked db rows db' :
  poll_pending claim channel limit now locked db = Ok (rows, db') →
  db' = db ∧ ∀ p, p ∈ rows → ∃ row, row ∈ outbox_event db ∧ selectable channel locked row = true ∧
    p = parse_pending row.
Proof.
  unfold poll_pending. intros H. inv_run.
  match goal with He : ensure_owner _ _ _ = _ |- _ => apply ensure_owner_Ok in He as [-> _] end.
  split; [done|]. intros p (row & -> & Hrow)%list_elem_of_fmap. exists row.
  apply elem_of_take in Hrow as (i & Hi & _). apply list_elem_of_lookup_2 in Hi.
  rewrite merge_sort_Permutation in Hi. apply filter_elem_of in Hi as [? ?]. done.
Qed.

Lemma unique_id w row row' :
  sound frozen w → row ∈ outbox_event (w_db w) → row' ∈ outbox_event (w_db w) →
  row_id row = row_id row' → row = row'.
Proof.
  intros Hw [i Hi]%list_elem_of_lookup [j Hj]%list_elem_of_lookup He.
  assert (i = j) as <-.
  { apply (NoDup_lookup (map row_id (outbox_event (w_db w))) i j (row_id row));
      [apply (so_ids _ _ Hw)| |]; rewrite list_lookup_fmap.
    - by rewrite Hi.
    - by rewrite Hj, He. }
  congruence.
Qed.

Lemma parse_polled w row : sound frozen w → row ∈ outbox_event (w_db w) → polled w (parse_pending row).
Proof.
  intros Hw Hr. split; [by apply (so_drawn _ _ Hw)|]. intros row' Hr' He.
  by rewrite (unique_id w row' row).
Qed.

Lemma committed_read {A} (tx : Z → list Z → Ox A) R w :
  (∀ w1 now locked x db, sound frozen w1 → tx now locked (w_db w1) = Ok (x, db) →
     db = w_db w1 ∧ ∀ w3, kept w1 w3 → R x w3) → commits_with tx R w.
Proof.
  intros H w1 now locked x db _ Hw Htx. destruct (H _ _ _ _ _ Hw Htx) as [-> HR].
  split; [by apply keeps_refl|]. intros w3 Hk _. apply HR. by destruct w1.
Qed.

Lemma poll_committed claim channel limit w :
  commits_with (λ now locked, poll_pending claim channel limit now locked)
    (λ rows w', ∀ p, p ∈ rows → polled w' p) w.
Proof.
  apply committed_read. intros w1 now locked rows db Hw [-> Hrows]%poll_pending_Ok.
  split; [done|]. intros w3 Hk p Hp. destruct (Hrows p Hp) as (row & Hin & _ & ->).
  eapply polled_kept; [done|]. by apply parse_polled.
Qed.

Lemma settle_round_safe claim max_attempts pending report w :
  sound frozen w → (∀ p, p ∈ pending → polled w p) → report_holds (map pending_event pending) report w →
  safely (settle_round claim max_attempts pending report) any w.
Proof.
  intros Hw Hpolled [Hdel Href]. unfold settle_round.
  assert (Hlater : ∀ w', kept w w' → ∀ p, p ∈ pending → polled w' p).
  { intros w' Hk p Hp. eapply polled_kept; [done|auto]. }
  assert (Hdone : ∀ {A} (x : A) w1, safely (Done (Ok x) : Fallible A) any w1) by done.
  eapply (safe_try _ _ any); [|done|intros _ w1 Hk1 Hw1 _|done].
  { destruct (0 <? published report)%nat; [|apply Hdone].
    eapply safe_true, (safe_transact _ any). intros w2 now locked x db Hk2 Hw2 Htx. split; [|done].
    unfold mark_dispatched_exact in Htx. inv_run.
    match goal with He : ensure_owner _ _ _ = _ |- _ => apply ensure_owner_Ok in He as [-> _] end.
    eapply mark_all_keeps; [done| |done]. intros p Hp. split.
    - apply (Hlater _ Hk2). by apply elem_of_take in Hp as (i & ?%list_elem_of_lookup_2 & _).
    - apply (k_delivered _ _ Hk2), Hdel. rewrite <- fmap_take. apply list_elem_of_fmap. eauto. }
  eapply (safe_try _ _ any); [|done|intros _ w2 Hk2 Hw2 _|done].
  { destruct max_attempts as [m|]; [|apply Hdone].
    destruct (counts_failure report pending) eqn:Hc; [|apply Hdone].
    destruct (pending !! published report) as [row|] eqn:Hl; [|apply Hdone].
    eapply safe_true, (safe_transact _ any). intros w2 now locked x db Hk2 Hw2 Htx. split; [|done].
    eapply record_failed_keeps; [done| | |done].
    - apply Hlater; [by etrans|]. by eapply list_elem_of_lookup_2.
    - apply (k_refused _ _ Hk2), (k_refused _ _ Hk1). unfold counts_failure in Hc.
      destruct (first_error report) as [error|] eqn:He; [|done].
      apply andb_prop in Hc as [Hc%negb_true_iff _].
      apply (Href error (pending_event row)); [done|done|]. by rewrite list_lookup_fmap, Hl. }
  eapply (safe_try _ _ any); [|done|done|done].
  eapply safe_true, (safe_transact _ any). intros w3 now locked x db Hk3 Hw3 Htx. split; [|done].
  by eapply release_keeps.
Qed.

Lemma dispatch_inner_safe ambient channel limit max_attempts w :
  sound frozen w → safely (dispatch_inner ambient channel limit max_attempts) any w.
Proof.
  intros Hw. unfold dispatch_inner. destruct (in_transaction ambient); [done|].
  eapply safe_bind; [by apply safe_still| |done]. intros owner w1 Hk1 Hw1 _.
  eapply safe_try; [apply (safe_transact _ any)|done|intros claimed w2 Hk2 Hw2 _|done].
  { intros w2 now locked x db Hk Hs Htx. split; [|done]. by eapply try_claim_owner_keeps. }
  destruct claimed as [claim|]; [|done].
  eapply safe_try; [apply safe_transact, poll_committed|done|intros pending w3 Hk3 Hw3 Hp|done].
  eapply safe_try; [apply (dispatch_fenced_safe _ _ 0)|done|intros report w4 Hk4 Hw4 Hr|done];
    [done|set_solver|lia|].
  apply settle_round_safe; [done| |done]. intros p Hin. eapply polled_kept; [done|auto].
Qed.

(** ** Retention rounds *)

Definition holds_receipt (event : OutboxEvent) (r : option (result ArchiveReceipt OutboxStoreError))
    (w : World) : Prop :=
  match r with
  | Some (Ok receipt) => receipt_event_id receipt = event_id event ∧ receipt_event_id receipt ∈ w_archive w
  | _ => True
  end.

Lemma confirm_safe event w : sound frozen w → safely (confirm_archive_receipt event) (holds_receipt event) w.
Proof.
  intros Hw. unfold confirm_archive_receipt.
  assert (Hcheck : ∀ receipt w1, receipt_event_id receipt ∈ w_archive w1 →
    safely (Done (Some (if bool_decide (receipt_event_id receipt = event_id event) then Ok receipt
            else Err (OutboxStoreError_new "archive receipt identity does not match the outbox event"))))
      (holds_receipt event) w1).
  { intros receipt w1 Hin w2 Hk _. case_bool_decide; [|done]. split; [done|]. by apply (k_archive _ _ Hk). }
  eapply (safe_bind _ _ (λ r w', match r with
    | Some (Ok (Some receipt)) => receipt_event_id receipt ∈ w_archive w' | _ => True end)); [| |done].
  { intros w1 Hk Hw1 answer w2 [-> Ha]. split; [done|]. split; [reflexivity|]. intros w3 Hk3 _.
    destruct answer as [[[receipt|]|]|]; try done. by apply (k_archive _ _ Hk3). }
  intros [[[receipt|]|error]|] w1 Hk1 Hw1 Hr; [by apply Hcheck| |done|done].
  eapply (safe_bind _ _ (λ r w', match r with
    | Some (Ok receipt) => receipt_event_id receipt ∈ w_archive w' | _ => True end)); [| |done].
  { intros w2 Hk Hw2 answer w3 (landed & _ & -> & Ha).
    destruct (keeps_logs w2 (w_delivered w2) (w_refused w2) (w_archive w2 ++ landed)) as [Hs Hkept];
      [done|done|done|set_solver|].
    do 2 (split; [done|]). intros w4 Hk4 _. destruct answer as [[receipt|]|]; try done.
    by apply (k_archive _ _ Hk4). }
  intros [[receipt|error]|] w2 Hk2 Hw2 Ha; [by apply Hcheck|done|done].
Qed.

(** The receipts so far are those of the first candidates. *)
Definition collected (candidates : list RetentionCandidate)
    (r : result (list (option ArchiveReceipt) * RetentionRoundReport) OutboxStoreError) (w : World) : Prop :=
  match r with
  | Ok (receipts, _) => ∃ seen rest, candidates = seen ++ rest ∧ Forall2 (receipted w) seen receipts
  | Err _ => True
  end.

Lemma receipted_all_kept w w' seen receipts :
  kept w w' → Forall2 (receipted w) seen receipts → Forall2 (receipted w') seen receipts.
Proof. intros Hk H. induction H; constructor; [by eapply receipted_kept|done]. Qed.

Lemma collect_safe policy archive seen candidates receipts report w :
  sound frozen w → Forall2 (receipted w) seen receipts →
  safely (collect_receipts policy archive candidates receipts report) (collected (seen ++ candidates)) w.
Proof.
  revert seen receipts report w.
  induction candidates as [|c candidates IH]; intros seen receipts report w Hw Hr; cbn [collect_receipts].
  { intros w' Hk _. exists seen, []. split; [done|]. by eapply receipted_all_kept. }
  assert (Hstop : ∀ w1 report', kept w w1 →
    safely (Done (Ok (receipts, report'))) (collected (seen ++ c :: candidates)) w1).
  { intros w1 report' Hk1 w2 Hk2 _. exists seen, (c :: candidates). split; [done|].
    eapply receipted_all_kept; [|done]. by etrans. }
  assert (Hnext : ∀ w1 receipt report', kept w w1 → sound frozen w1 → receipted w1 c receipt →
    safely (collect_receipts policy archive candidates (receipts ++ [receipt]) report')
      (collected (seen ++ c :: candidates)) w1).
  { intros w1 receipt report' Hk1 Hw1 Hc. rewrite (cons_middle c seen), app_assoc. apply IH; [done|].
    apply Forall2_app; [by eapply receipted_all_kept|]. by apply Forall2_cons. }
  eapply safe_bind; [by apply safe_still| |done]. intros [] w1 Hk1 Hw1 _; [by apply Hstop|].
  destruct (_ || _); [|apply Hnext; [done|done|by intros ?]].
  destruct (negb archive); [done|].
  eapply safe_bind; [by apply safe_still| |done]. intros [] w2 Hk2 Hw2 _; [apply Hstop; by etrans|].
  eapply safe_bind; [by apply confirm_safe| |done]. intros [[receipt|error]|] w3 Hk3 Hw3 Hh.
  - apply Hnext; [etrans; [done|]; by etrans|done|]. by intros r [= <-].
  - done.
  - apply Hstop. etrans; [done|]. by etrans.
Qed.

Lemma zip_receipted w candidates receipts c r :
  Forall2 (receipted w) candidates receipts → (c, r) ∈ zip candidates receipts → receipted w c r.
Proof.
  induction 1 as [|c' r' cs rs H _ IH]; simpl; [set_solver|].
  intros [Heq|Hin]%elem_of_cons; [by injection Heq as -> ->|auto].
Qed.

Lemma retention_batches_safe claim policy archive now_ms batches report w :
  sound frozen w → safely (retention_batches claim policy archive now_ms batches report) any w.
Proof.
  revert report w. induction batches as [|batches IH]; intros report w Hw; cbn [retention_batches]; [done|].
  eapply safe_bind; [apply (safe_timed _ any), committed_read| |done].
  { intros w1 now locked x db Hw1 Htx. unfold fetch_retention_candidates in Htx. inv_run.
    match goal with He : ensure_owner _ _ _ = _ |- _ => by apply ensure_owner_Ok in He as [-> _] end. }
  intros [[[|c cs]|error]|] w1 Hk1 Hw1 _; try done.
  eapply safe_try; [by apply (collect_safe _ _ [])|done| |done].
  intros [receipts report'] w2 Hk2 Hw2 (seen & rest & Heq & Hseen). simpl in Heq.
  destruct (negb _) eqn:Hlen; [done|]. apply negb_false_iff, Nat.eqb_eq in Hlen.
  assert (Hall : Forall2 (receipted w2) (c :: cs) receipts).
  { assert (rest = []) as ->.
    { apply length_zero_iff_nil. apply Forall2_length in Hseen.
      rewrite <- Hseen, Heq, length_app in Hlen. lia. }
    by rewrite Heq, app_nil_r. }
  eapply safe_bind; [by apply safe_still| |done]. intros [] w3 Hk3 Hw3 _; [done|].
  eapply safe_bind; [apply (safe_transact _ any)| |done].
  { intros w4 now locked bs db Hk4 Hw4 Htx. split; [|done].
    unfold delete_retention_candidates in Htx. inv_run.
    match goal with He : ensure_owner _ _ _ = _ |- _ => apply ensure_owner_Ok in He as [-> _] end.
    eapply delete_candidates_keeps; [done| |done]. intros c' r' Hin.
    eapply zip_receipted; [|done]. eapply receipted_all_kept; [|done]. by etrans. }
  intros [deleted|error] w4 Hk4 Hw4 _.
  - destruct (existsb id deleted); [by apply IH|done].
  - eapply safe_bind; [by apply safe_still| |done]. intros passed w5 _ _ _. by destruct (_ || _).
Qed.

Lemma retention_round_safe ambient policy archive now_ms batches w :
  sound frozen w → safely (retention_round ambient policy archive now_ms batches) any w.
Proof.
  intros Hw. unfold retention_round. destruct (RetentionPolicy_validate policy); [|done].
  do 4 (case_match; [done|]). cbv zeta.
  eapply safe_bind; [by apply safe_still| |done]. intros owner w1 Hk1 Hw1 _.
  eapply safe_bind; [apply (safe_timed _ any)| |done].
  { intros w2 now locked x db Hk Hs Htx. split; [|done]. by eapply try_claim_owner_keeps. }
  intros [[[claim|]|error]|] w2 Hk2 Hw2 _; try done.
  assert (Hrel : ∀ w, safely (ask (TimedTransact (λ _ _, OwnerClaim_release claim))) any w).
  { intros w3. eapply safe_true, (safe_timed _ any). intros w4 now locked x db Hk Hs Htx.
    split; [|done]. by eapply release_keeps. }
  eapply (safe_bind _ _ any); [| |done].
  { unfold retention_round_owned. eapply safe_bind; [by apply safe_still| |done].
    intros [] w3 Hk3 Hw3 _; [done|].
    eapply safe_bind; [apply (safe_timed _ any), committed_read| |done].
    { intros w4 now locked x db Hw4 Htx. unfold oldest_candidate_age in Htx. inv_run.
      match goal with He : ensure_owner _ _ _ = _ |- _ => by apply ensure_owner_Ok in He as [-> _] end. }
    intros [[age|error]|] w4 Hk4 Hw4 _; try done. by apply retention_batches_safe. }
  intros outcome w3 Hk3 Hw3 _.
  eapply safe_bind; [by apply safe_still| |done]. intros passed w4 Hk4 Hw4 _.
  destruct outcome as [report|error], passed; try done.
  - eapply safe_bind; [apply Hrel| |done]. intros [[[]|error]|] w5 _ _ _; done.
  - eapply safe_bind; [apply Hrel| |done]. done.
Qed.

(** ** Systems *)

Lemma start_round_safe round w : sound frozen w → safely (start_round round) any w.
Proof.
  intros Hw. destruct round; cbn [start_round]; unfold finish; (eapply (safe_bind _ _ any); [|done|done]).
  - by apply dispatch_inner_safe.
  - unfold dispatch_batch_with_dlt. case_match; [done|]. by apply dispatch_inner_safe.
  - unfold dispatch_batch_channel. case_match; [done|]. by apply dispatch_inner_safe.
  - unfold dispatch_batch_channel_with_dlt. do 2 (case_match; [done|]). by apply dispatch_inner_safe.
  - by apply retention_round_safe.
Qed.

Record system_sound (s : RelaySystem) : Prop := {
  ss_world : sound frozen (sys_world s);
  ss_rounds : ∀ p, p ∈ sys_rounds s → safely p any (sys_world s)
}.

Lemma kept_clock w now :
  sound frozen w →
  let w' := mkWorld (w_db w) now (w_ids w) (w_delivered w) (w_refused w) (w_archive w) in
  sound frozen w' ∧ kept w w'.
Proof.
  intros Hw. split; split; simpl; try done; try apply Hw.
  - intros row Hin. by destruct (so_rows _ _ Hw row Hin).
  - intros row Hin. left. exists row. split; [done|apply row_later_refl].
  - intros row Hin _. by exists row.
  - intros key o Ho. exists o. split; [done|apply owner_later_refl].
Qed.

Lemma elem_of_insert_list {A} (l : list A) i x y : y ∈ <[i := x]> l → y = x ∨ y ∈ l.
Proof.
  intros [j Hj]%list_elem_of_lookup. apply list_lookup_insert_Some in Hj as [(_ & <- & _)|[_ Hj]]; [auto|].
  right. by eapply list_elem_of_lookup_2.
Qed.

Lemma system_step_sound datasource s s' :
  system_sound s → system_step frozen datasource s s' →
  system_sound s' ∧ kept (sys_world s) (sys_world s').
Proof.
  intros [Hw Hp] Hs. destruct Hs as [w rounds now|w rounds ambient calls sess ids _ <- Hnd Hfresh Hrun
    |w rounds round|w rounds i p p' w' Hi Hstep|w rounds i]; simpl in *.
  - destruct (kept_clock w now Hw) as [Hw' Hk]. split; [|done]. split; [done|].
    intros p Hin. by eapply safe_kept, Hp.
  - destruct (run_calls_keeps frozen w (mkSession (w_db w) [] ∅) _ _ _ _ _ _ Hw eq_refl Hnd Hfresh Hrun) as [Hw' Hk].
    split; [|done]. split; [done|]. intros p Hin. by eapply safe_kept, Hp.
  - split; [|reflexivity]. split; [done|]. intros p [Hin|Hin%list_elem_of_singleton]%elem_of_app; [auto|].
    subst p. by apply start_round_safe.
  - destruct p as [u|B call k]; [done|]. destruct Hstep as (answer & Hh & ->).
    apply list_elem_of_lookup_2 in Hi.
    destruct (Hp _ Hi w ltac:(reflexivity) Hw answer w' Hh) as (Hw' & Hk & Hsafe).
    split; [|done]. split; [done|]. intros p [->|Hin]%elem_of_insert_list; [done|].
    by eapply safe_kept, Hp.
  - split; [|reflexivity]. split; [done|]. by intros p [->|Hin]%elem_of_insert_list; [|auto].
Qed.

Lemma initial_sound now : system_sound (initial now).
Proof.
  split; [|intros p Hp; by apply elem_of_nil in Hp].
  split; simpl; try (intros ? Hr; by apply elem_of_nil in Hr); try apply NoDup_nil_2.
  - intros name d. by rewrite lookup_empty.
  - intros key o. by rewrite lookup_empty.
  - intros name cap q _ _. simpl. by rewrite lookup_empty.
Qed.

Lemma system_steps_sound datasource s s' :
  rtc (system_step frozen datasource) s s' → system_sound s →
  system_sound s' ∧ kept (sys_world s) (sys_world s').
Proof.
  induction 1 as [s|s1 s2 s3 H12 _ IH]; intros Hs; [by split; [|reflexivity]|].
  destruct (system_step_sound _ _ _ Hs H12) as [H2 Hk]. destruct (IH H2) as [H3 Hk2].
  split; [done|]. by etrans.
Qed.

Definition outbox_reachable (datasource : string) (s : RelaySystem) : Prop :=
  ∃ now, rtc (system_step frozen datasource) (initial now) s.

Lemma reachable_sound datasource s : outbox_reachable datasource s → system_sound s.
Proof. intros [now H]. by apply system_steps_sound in H as [H _]; [|apply initial_sound]. Qed.
End rules.
