(* ===== verification/OutboxAlone.v ===== *)
(** * The durable outbox: a round on its own

    A round whose surroundings answer at once and change nothing in between:
    [run_alone] evaluates it, and every evaluation is a run of the system.  A
    dispatch round then publishes the pending rows of its lane in id order up
    to the first failure and marks exactly what was accepted; rounds against a
    publisher that accepts everything empty the outbox. *)

From Stdlib Require Import ZArith Lia.
From S2P Require Import Prelude AsyncProg Bytes SagaIdentity SagaState.
From S2P Require Import OutboxCore OutboxStore OutboxRetention OutboxRelay OutboxSafety OutboxRounds.
From stdpp Require Import prelude strings list sorting gmap relations.

Local Open Scope Z_scope.
Local Open Scope rust_scope.

(** ** Running a round *)

(** The UUID drawn and what the publisher says to an event; what it does not
    accept does not arrive. *)
Record Surroundings := mkSurroundings {
  env_uuid : string;
  env_publish : OutboxEvent → option (result unit OutboxPublishError)
}.

Section alone.
Context (env : Surroundings).

Definition transact_alone {A} (tx : Z → list Z → Ox A) (w : World) : result A OutboxStoreError * World :=
  match tx (w_now w) [] (w_db w) with
  | Ok (x, db) => (Ok x, set_db db w)
  | Err e => (Err e, w)
  end.

Definition publish_alone (event : OutboxEvent) (w : World)
    : option (result unit OutboxPublishError) * World :=
  let answer := env_publish env event in
  (answer,
   match answer with
   | Some (Ok _) => set_delivered (w_delivered w ++ [event]) w
   | Some (Err error) => set_refused (w_refused w ++ if is_transient error then [] else [event]) w
   | None => w
   end).

Definition answer_alone {B} (call : Call B) (w : World) : B * World :=
  match call in Call B return B * World with
  | NewUuid => (env_uuid env, w)
  | Transact tx => transact_alone tx w
  | TimedTransact tx => let '(answer, w') := transact_alone tx w in (Some answer, w')
  | TimedPublish event => publish_alone event w
  | TimedReceiptOf name =>
      (Some (Ok (if bool_decide (name ∈ w_archive w) then Some (mkReceipt name) else None)), w)
  | TimedArchive event =>
      (Some (Ok (mkReceipt (event_id event))), set_archive (w_archive w ++ [event_id event]) w)
  | DeadlinePassed => (false, w)
  end.

Fixpoint run_alone {A} (p : Async A) (w : World) : A * World :=
  match p with
  | Done a => (a, w)
  | Await call k => let '(b, w') := answer_alone call w in run_alone (k b) w'
  end.

Lemma run_alone_bind {A C} (p : Async A) (f : A → Async C) w :
  run_alone (and_then p f) w = let '(a, w') := run_alone p w in run_alone (f a) w'.
Proof.
  revert w. induction p as [a|B call k IH]; intros w; simpl; [done|].
  destruct (answer_alone call w) as [b w']. apply IH.
Qed.

Lemma run_alone_try {A C} (p : Fallible A) (f : A → Fallible C) w :
  run_alone (and_try p f) w =
  match run_alone p w with
  | (Ok a, w') => run_alone (f a) w'
  | (Err e, w') => (Err e, w')
  end.
Proof. unfold and_try. rewrite run_alone_bind. by destruct (run_alone p w) as [[a|e] w']. Qed.

Lemma set_id w : set_db (w_db w) w = w ∧ set_delivered (w_delivered w) w = w ∧
  set_refused (w_refused w) w = w ∧ set_archive (w_archive w) w = w.
Proof. by destruct w. Qed.

Lemma transact_alone_transacts {A} (tx : Z → list Z → Ox A) w :
  transacts tx w (transact_alone tx w).1 (transact_alone tx w).2.
Proof.
  exists []. unfold transact_alone. destruct (tx (w_now w) [] (w_db w)) as [[x db]|e]; simpl; auto.
Qed.

Lemma answer_alone_handle {B} (call : Call B) w :
  handle call w (answer_alone call w).1 (answer_alone call w).2.
Proof.
  destruct call as [|A tx|A tx|event|name|event|]; simpl; try done.
  - apply transact_alone_transacts.
  - pose proof (transact_alone_transacts tx w) as Ht.
    destruct (transact_alone tx w) as [answer w']. done.
  - exists []. split; [by left|]. simpl. destruct (set_id w) as (_ & Hd & _).
    rewrite app_nil_r, Hd. by destruct (env_publish env event) as [[[]|error]|].
  - split; [done|]. case_bool_decide; done.
  - exists [event_id event]. split; [by right|]. split; [done|]. simpl. set_solver.
Qed.

(** What a round does alone is a run of the system. *)
Lemma run_alone_steps frozen datasource (p : Async unit) w rounds1 rounds2 :
  rtc (system_step frozen datasource) (mkSystem w (rounds1 ++ p :: rounds2))
    (mkSystem (run_alone p w).2 (rounds1 ++ Done tt :: rounds2)).
Proof.
  revert w. induction p as [[]|B call k IH]; intros w; simpl; [done|].
  pose proof (answer_alone_handle call w) as Hh. destruct (answer_alone call w) as [b w']. simpl in Hh.
  eapply rtc_l; [|apply IH]. 
  replace (rounds1 ++ k b :: rounds2)
    with (<[length rounds1 := k b]> (rounds1 ++ Await call k :: rounds2)).
  - apply (step_round _ _ _ _ _ (Await call k)); [by apply list_lookup_middle|]. by exists b.
  - by rewrite insert_app_r_alt, Nat.sub_diag by lia.
Qed.
End alone.

(** ** Marking *)

Definition marked (now : Z) (ids : list Z) (row : OutboxRow) : OutboxRow :=
  if bool_decide (row_id row ∈ ids) then dispatched_row now row else row.

Lemma marked_id now ids row : row_id (marked now ids row) = row_id row.
Proof. unfold marked. by case_bool_decide. Qed.

Lemma map_marked_ids now ids rows : map row_id (map (marked now ids) rows) = map row_id rows.
Proof. rewrite map_map. apply map_ext. intros row. apply marked_id. Qed.

Lemma release_quota_succeeds name db :
  ∃ db', release_quota name db = Ok (tt, db') ∧ outbox_event db' = outbox_event db ∧
    outbox_dispatch_owner db' = outbox_dispatch_owner db.
Proof.
  assert (∃ db', release_quota name db = Ok (tt, db')) as [db' Hr].
  { unfold release_quota, st_bind, st_get, st_modify, st_ret.
    destruct (outbox_tenant_quota db !! name) as [q|]; [|eauto]. destruct (0 <? quota_in_flight q); eauto. }
  exists db'. split; [done|]. apply release_quota_Ok in Hr as (? & ? & _). done.
Qed.

Lemma same_id_same_row (rows : list OutboxRow) row row' :
  NoDup (map row_id rows) → row ∈ rows → row' ∈ rows → row_id row = row_id row' → row = row'.
Proof.
  intros Hnd [i Hi]%list_elem_of_lookup [j Hj]%list_elem_of_lookup He.
  assert (i = j) as <-.
  { apply (NoDup_lookup (map row_id rows) i j (row_id row)); [done| |]; rewrite list_lookup_fmap.
    - by rewrite Hi.
    - by rewrite Hj, He. }
  congruence.
Qed.

Lemma mark_one_succeeds now db row :
  NoDup (map row_id (outbox_event db)) → row ∈ outbox_event db → is_pending row = true →
  ∃ db', mark_dispatched_one now (parse_pending row) db = Ok (tt, db') ∧
    outbox_event db' = map (marked now [row_id row]) (outbox_event db) ∧
    outbox_dispatch_owner db' = outbox_dispatch_owner db.
Proof.
  intros Hnd Hin Hp. unfold mark_dispatched_one, update_pending. cbn -[release_quota].
  set (matches := λ r, is_row (row_id row) (event_id (row_event row)) r && is_pending r).
  assert (Hrow : matches row = true).
  { unfold matches, is_row. by rewrite Z.eqb_refl, bool_decide_eq_true_2, Hp. }
  assert (Hm : ∀ r, r ∈ outbox_event db → matches r = bool_decide (row_id r ∈ [row_id row])).
  { intros r Hr. destruct (matches r) eqn:He; symmetry.
    - apply andb_prop in He as [[Hid _]%andb_prop _]. apply bool_decide_eq_true_2. set_solver by lia.
    - apply bool_decide_eq_false_2. intros Hid%list_elem_of_singleton.
      rewrite (same_id_same_row _ _ _ Hnd Hr Hin Hid) in He. congruence. }
  unfold st_bind at 1, st_bind at 1, st_get at 1. fold matches.
  destruct (find_first matches (outbox_event db)) as [found|] eqn:Hf.
  2:{ rewrite find_first_None in Hf. rewrite Hf in Hrow by done. done. }
  apply find_first_Some in Hf as [Hfin Hfound].
  assert (found = row) as ->.
  { apply (same_id_same_row _ _ _ Hnd Hfin Hin). rewrite Hm in Hfound by done.
    apply bool_decide_eq_true in Hfound. set_solver. }
  simpl. match goal with |- context [release_quota ?n ?d] =>
    destruct (release_quota_succeeds n d) as (db' & Hr & He & Ho) end.
  exists db'. split; [exact Hr|]. split; [|by rewrite Ho]. rewrite He. simpl.
  apply map_ext_in. intros r Hr'%list_elem_of_In. fold (matches r). rewrite Hm by done. unfold marked.
  case_bool_decide as Hid; [|done]. apply list_elem_of_singleton in Hid.
  by rewrite (same_id_same_row _ _ _ Hnd Hr' Hin Hid).
Qed.

Lemma mark_all_succeeds now rows db :
  NoDup (map row_id (outbox_event db)) → NoDup (map row_id rows) →
  (∀ row, row ∈ rows → row ∈ outbox_event db ∧ is_pending row = true) →
  ∃ db', mark_dispatched_all now (map parse_pending rows) db = Ok (tt, db') ∧
    outbox_event db' = map (marked now (map row_id rows)) (outbox_event db) ∧
    outbox_dispatch_owner db' = outbox_dispatch_owner db.
Proof.
  revert db. induction rows as [|row rows IH]; intros db Hnd Hnr Hrows; simpl.
  { exists db. split; [done|]. split; [|done]. rewrite <- (map_id (outbox_event db)) at 1.
    apply map_ext. intros r. by unfold marked. }
  apply NoDup_cons in Hnr as [Hnot Hnr].
  destruct (Hrows row) as [Hin Hp]; [set_solver|].
  destruct (mark_one_succeeds now db row Hnd Hin Hp) as (db1 & H1 & He1 & Ho1).
  destruct (IH db1) as (db2 & H2 & He2 & Ho2).
  - by rewrite He1, map_marked_ids.
  - done.
  - intros r Hr. destruct (Hrows r) as [Hin' Hp']; [set_solver|]. split; [|done]. rewrite He1.
    apply list_elem_of_fmap. exists r. split; [|done]. unfold marked.
    rewrite bool_decide_eq_false_2; [done|]. intros Hid%list_elem_of_singleton. apply Hnot.
    apply list_elem_of_fmap. exists r. by rewrite Hid.
  - exists db2. unfold st_bind. rewrite H1. split; [done|]. split; [|congruence].
    rewrite He2, He1, map_map. apply map_ext. intros r. unfold marked.
    destruct (decide (row_id r = row_id row)) as [Hr|Hr].
    + rewrite (bool_decide_eq_true_2 (row_id r ∈ [row_id row])) by set_solver.
      rewrite (bool_decide_eq_true_2 (row_id r ∈ row_id row :: _)) by set_solver. simpl.
      rewrite bool_decide_eq_false_2; [done|]. by rewrite Hr.
    + rewrite (bool_decide_eq_false_2 (row_id r ∈ [row_id row])) by set_solver.
      rewrite (bool_decide_ext (row_id r ∈ map row_id rows) (row_id r ∈ row_id row :: map row_id rows));
        [done|set_solver].
Qed.

(** ** A dispatch round *)

(** How far a publisher lets a batch come, and what stops it. *)
Fixpoint accepts (publish : OutboxEvent → option (result unit OutboxPublishError))
    (events : list OutboxEvent) : nat * option OutboxPublishError :=
  match events with
  | [] => (0%nat, None)
  | event :: rest =>
      match publish event with
      | Some (Ok _) => let '(n, error) := accepts publish rest in (S n, error)
      | Some (Err error) => (0%nat, Some error)
      | None => (0%nat, Some (OutboxPublishError_transient "outbox publish deadline exceeded"))
      end
  end.

Definition lane_key (channel : option string) : string * string :=
  (match channel with Some _ => LANE_OWNER_ROLE | None => DEFAULT_OWNER_ROLE end,
   default DEFAULT_CHANNEL channel).

(** Nobody holds the lane, and its token has room for [rounds] more. *)
Record lane_free (rounds : Z) (channel : option string) (w : World) : Prop := {
  lf_now : 0 < w_now w;
  lf_lease : w_now w + OWNER_LEASE_MS ≤ I64_MAX;
  lf_room : 0 ≤ rounds < I64_MAX;
  lf_owner : ∀ o, outbox_dispatch_owner (w_db w) !! lane_key channel = Some o →
    lease_until_ms o < w_now w ∧ 0 < fencing_token o ∧ fencing_token o + rounds ≤ I64_MAX
}.

(** The rows of a poll, in its order. *)
Definition batch_of (channel : option string) (limit : Z) (db : OutboxDb) : list OutboxRow :=
  take (Z.to_nat limit) (merge_sort by_id (List.filter (selectable channel []) (outbox_event db))).

(** The lane is held until the end of its lease. *)
Definition lane_held (channel : option string) (claim : OwnerClaim) (w : World) : Prop :=
  claim_key claim = lane_key channel ∧
  outbox_dispatch_owner (w_db w) !! lane_key channel =
    Some (mkOwner (claim_owner_id claim) (claim_token claim) (w_now w + OWNER_LEASE_MS)).

Section rounds.
Context (env : Surroundings).

Lemma lease_bigint rounds channel w :
  lane_free rounds channel w → bigint (w_now w + OWNER_LEASE_MS) = Ok (w_now w + OWNER_LEASE_MS).
Proof.
  intros [Hn Hl _ _]. unfold bigint.
  replace (is_i64 _) with true; [done|]. symmetry. apply is_i64_spec. unfold I64_MAX, OWNER_LEASE_MS in *. lia.
Qed.

Lemma claim_alone rounds channel w :
  lane_free (rounds + 1) channel w → 0 ≤ rounds →
  ∃ token, 0 < token ∧ token + rounds ≤ I64_MAX ∧
    let claim := mkClaim (lane_key channel).1 (lane_key channel).2 (env_uuid env) token in
    let owner := mkOwner (env_uuid env) token (w_now w + OWNER_LEASE_MS) in
    transact_alone (λ now _, try_claim_owner (lane_key channel).1 (lane_key channel).2 (env_uuid env)
                              OWNER_LEASE_MS now) w
    = (Ok (Some claim), set_db (set_owner (lane_key channel) owner (w_db w)) w).
Proof.
  intros Hf Hr. pose proof (lease_bigint _ _ _ Hf) as Hb. destruct Hf as [Hn Hl Hroom Ho].
  unfold transact_alone, try_claim_owner, st_bind, st_lift, st_get, st_modify, st_ret. rewrite Hb. cbn -[lane_key].
  replace ((lane_key channel).1, (lane_key channel).2) with (lane_key channel) by done.
  destruct (outbox_dispatch_owner (w_db w) !! lane_key channel) as [o|] eqn:Hl'.
  - destruct (Ho o eq_refl) as (Hlease & Htok & Hmax). exists (fencing_token o + 1).
    replace (lease_until_ms o <? w_now w) with true by lia.
    unfold bigint. replace (is_i64 (fencing_token o + 1)) with true.
    2:{ symmetry. apply is_i64_spec. unfold I64_MAX in *. lia. }
    split; [lia|]. split; [lia|]. done.
  - exists 1. split; [lia|]. split; [unfold I64_MAX in *; lia|]. done.
Qed.

Lemma held_owner channel claim w :
  lane_held channel claim w →
  outbox_dispatch_owner (w_db w) !! claim_key claim =
    Some (mkOwner (claim_owner_id claim) (claim_token claim) (w_now w + OWNER_LEASE_MS)).
Proof. by intros [-> ?]. Qed.

Lemma held_grants claim until :
  grants claim (mkOwner (claim_owner_id claim) (claim_token claim) until) = true.
Proof. unfold grants. simpl. by rewrite bool_decide_eq_true_2, Z.eqb_refl. Qed.

Lemma ensure_owner_held channel claim w :
  lane_held channel claim w → ensure_owner claim (w_now w) (w_db w) = Ok (tt, w_db w).
Proof.
  intros Hh. unfold ensure_owner, st_bind, st_get. rewrite (held_owner _ _ _ Hh), held_grants.
  simpl. replace (w_now w <=? w_now w + OWNER_LEASE_MS) with true; [done|]. unfold OWNER_LEASE_MS. lia.
Qed.

(** Renewing a lease that runs as long already changes nothing. *)
Lemma renew_alone channel claim w :
  lane_held channel claim w → 0 < w_now w → w_now w + OWNER_LEASE_MS ≤ I64_MAX →
  transact_alone (λ now _, OwnerClaim_renew claim OWNER_LEASE_MS now) w = (Ok tt, w).
Proof.
  intros Hh Hn Hl. unfold transact_alone, OwnerClaim_renew, st_bind, st_lift, st_get, st_modify.
  unfold bigint. replace (is_i64 _) with true.
  2:{ symmetry. apply is_i64_spec. unfold I64_MAX, OWNER_LEASE_MS in *. lia. }
  rewrite (held_owner _ _ _ Hh), held_grants. simpl.
  replace (w_now w <=? w_now w + OWNER_LEASE_MS) with true by (unfold OWNER_LEASE_MS; lia). simpl.
  f_equal. destruct w as [[events owners quotas disposals] now ids d r a]. unfold set_db, set_owner. simpl.
  rewrite insert_id; [done|]. exact (held_owner _ _ _ Hh).
Qed.

(** The publishing loop leaves the tables alone and delivers what is
    accepted, in order. *)
Lemma fenced_alone channel claim events total sent w :
  lane_held channel claim w → 0 < w_now w → w_now w + OWNER_LEASE_MS ≤ I64_MAX →
  ∃ refused,
    run_alone env (dispatch_fenced_from claim total sent events) w =
    (Ok (mkReport (sent + (accepts (env_publish env) events).1) total
           (accepts (env_publish env) events).2),
     mkWorld (w_db w) (w_now w) (w_ids w)
       (w_delivered w ++ take (accepts (env_publish env) events).1 events) refused (w_archive w)).
Proof.
  revert sent w. induction events as [|event rest IH]; intros sent w Hh Hn Hl; cbn [dispatch_fenced_from].
  { exists (w_refused w). simpl. rewrite Nat.add_0_r, app_nil_r. by destruct w. }
  rewrite run_alone_try. cbn [run_alone ask answer_alone]. rewrite (renew_alone channel) by done.
  rewrite run_alone_bind. cbn [run_alone ask answer_alone]. unfold publish_alone. simpl accepts.
  destruct (env_publish env event) as [[[]|error]|] eqn:Hp.
  - destruct (IH (S sent) (set_delivered (w_delivered w ++ [event]) w)) as [refused Hrun]; [done..|].
    exists refused. rewrite Hrun. destruct (accepts (env_publish env) rest) as [n error]. simpl.
    rewrite <- app_assoc. simpl. by replace (S (sent + n))%nat with (sent + S n)%nat by lia.
  - eexists. simpl. by rewrite Nat.add_0_r, app_nil_r.
  - exists (w_refused w). simpl. rewrite Nat.add_0_r, app_nil_r. by destruct w.
Qed.

Lemma poll_alone channel limit claim w :
  lane_held channel claim w →
  transact_alone (λ now locked, poll_pending claim channel limit now locked) w =
  (Ok (map parse_pending (batch_of channel limit (w_db w))), w).
Proof.
  intros Hh. unfold transact_alone, poll_pending, st_bind at 1. rewrite (ensure_owner_held _ _ _ Hh).
  unfold st_bind, st_get, st_ret. destruct (set_id w) as [Hid _]. by rewrite Hid.
Qed.

Lemma release_alone channel claim w :
  lane_held channel claim w →
  transact_alone (λ _ _, OwnerClaim_release claim) w =
  (Ok tt, set_db (set_owner (lane_key channel)
                    (mkOwner (claim_owner_id claim) (claim_token claim) 0) (w_db w)) w).
Proof.
  intros Hh. unfold transact_alone, OwnerClaim_release, st_bind, st_get, st_modify.
  rewrite (held_owner _ _ _ Hh), held_grants. by destruct Hh as [-> _].
Qed.

Lemma batch_pending channel limit db row :
  row ∈ batch_of channel limit db → row ∈ outbox_event db ∧ is_pending row = true.
Proof.
  unfold batch_of. intros (i & Hi%list_elem_of_lookup_2 & _)%elem_of_take.
  rewrite merge_sort_Permutation in Hi. apply filter_elem_of in Hi as [Hin Hs]. split; [done|].
  unfold selectable in Hs. by apply andb_prop in Hs as [[_ Hs]%andb_prop _].
Qed.

Lemma batch_distinct channel limit db :
  NoDup (map row_id (outbox_event db)) → NoDup (map row_id (batch_of channel limit db)).
Proof.
  intros Hnd. unfold batch_of. rewrite <- firstn_map. apply (sublist_NoDup _ (map row_id
    (merge_sort by_id (List.filter (selectable channel []) (outbox_event db))))).
  - rewrite merge_sort_Permutation. revert Hnd. generalize (outbox_event db). intros l.
    induction l as [|r l IH]; simpl; [done|]. intros [Hn Hl]%NoDup_cons.
    destruct (selectable channel [] r); [|auto]. simpl. apply NoDup_cons. split; [|auto].
    intros (y & Hy & [Hin _]%filter_elem_of)%list_elem_of_fmap. apply Hn, list_elem_of_fmap. eauto.
  - apply sublist_take.
Qed.

Lemma marked_none now rows : map (marked now []) rows = rows.
Proof. rewrite <- (map_id rows) at 2. apply map_ext. done. Qed.

(** The confirmation of the first [n] rows of a batch. *)
Lemma mark_alone channel limit claim n w :
  lane_held channel claim w → NoDup (map row_id (outbox_event (w_db w))) →
  ∃ db, transact_alone (λ now _, mark_dispatched_exact claim
            (take n (map parse_pending (batch_of channel limit (w_db w)))) now) w = (Ok tt, set_db db w) ∧
    outbox_event db = map (marked (w_now w) (map row_id (take n (batch_of channel limit (w_db w)))))
                        (outbox_event (w_db w)) ∧
    outbox_dispatch_owner db = outbox_dispatch_owner (w_db w).
Proof.
  intros Hh Hnd. set (batch := batch_of channel limit (w_db w)).
  destruct (mark_all_succeeds (w_now w) (take n batch) (w_db w)) as (db & Hm & He & Ho).
  - done.
  - eapply sublist_NoDup; [by apply (batch_distinct channel limit)|]. rewrite <- firstn_map. apply sublist_take.
  - intros row (i & Hi%list_elem_of_lookup_2 & _)%elem_of_take. by eapply batch_pending.
  - exists db. split; [|done]. unfold transact_alone, mark_dispatched_exact, st_bind.
    by rewrite (ensure_owner_held _ _ _ Hh), firstn_map, Hm.
Qed.

Lemma settle_alone channel limit claim report w :
  lane_held channel claim w → NoDup (map row_id (outbox_event (w_db w))) →
  ∃ db, run_alone env (settle_round claim None (map parse_pending (batch_of channel limit (w_db w))) report) w
      = (Ok report, set_db db w) ∧
    outbox_event db =
      map (marked (w_now w) (map row_id (take (published report) (batch_of channel limit (w_db w)))))
        (outbox_event (w_db w)) ∧
    outbox_dispatch_owner db !! lane_key channel =
      Some (mkOwner (claim_owner_id claim) (claim_token claim) 0).
Proof.
  intros Hh Hnd. unfold settle_round. rewrite run_alone_try.
  assert (∃ db, run_alone env (if (0 <? published report)%nat
      then ask (Transact (λ now _, mark_dispatched_exact claim
             (take (published report) (map parse_pending (batch_of channel limit (w_db w)))) now))
      else Done (Ok tt)) w = (Ok tt, set_db db w) ∧
    outbox_event db =
      map (marked (w_now w) (map row_id (take (published report) (batch_of channel limit (w_db w)))))
        (outbox_event (w_db w)) ∧
    outbox_dispatch_owner db = outbox_dispatch_owner (w_db w)) as (db & Hm & He & Ho).
  { destruct (published report) as [|n].
    - exists (w_db w). simpl. destruct (set_id w) as [Hid _]. by rewrite Hid, marked_none.
    - destruct (mark_alone channel limit claim (S n) w Hh Hnd) as (db & Hm & He & Ho).
      exists db. split; [|done]. replace (0 <? S n)%nat with true by done.
      cbn [run_alone ask answer_alone]. by rewrite Hm. }
  rewrite Hm. rewrite run_alone_try. cbn [run_alone]. rewrite run_alone_try.
  cbn [run_alone ask answer_alone]. rewrite (release_alone channel).
  - eexists. split; [done|]. simpl. split; [done|]. apply lookup_insert_eq.
  - destruct Hh as [Hk Hl]. split; [done|]. simpl. by rewrite Ho.
Qed.

#[local] Instance by_id_total : Total by_id.
Proof. intros a b. unfold by_id. lia. Qed.
#[local] Instance by_id_trans : Transitive by_id.
Proof. intros a b c. unfold by_id. lia. Qed.

Lemma batch_sorted channel limit db : StronglySorted by_id (batch_of channel limit db).
Proof.
  unfold batch_of. generalize (Z.to_nat limit). intros n.
  pose proof (StronglySorted_merge_sort by_id (List.filter (selectable channel []) (outbox_event db))) as Hs.
  rewrite <- (take_drop n) in Hs. by eapply StronglySorted_app_1_l.
Qed.

Lemma round_alone channel limit rounds w :
  NoDup (map row_id (outbox_event (w_db w))) → lane_free (rounds + 1) channel w → 0 ≤ rounds →
  let batch := batch_of channel limit (w_db w) in
  let stop := accepts (env_publish env) (map row_event batch) in
  ∃ w', run_alone env (dispatch_inner None channel limit None) w =
        (Ok (mkReport stop.1 (length batch) stop.2), w') ∧
    w_delivered w' = w_delivered w ++ map row_event (take stop.1 batch) ∧
    outbox_event (w_db w') = map (marked (w_now w) (map row_id (take stop.1 batch))) (outbox_event (w_db w)) ∧
    lane_free rounds channel w' ∧ w_now w' = w_now w.
Proof.
  intros Hnd Hf Hr batch stop. destruct (claim_alone rounds channel w Hf Hr) as (token & Ht & Hmax & Hclaim).
  destruct Hf as [Hn Hl Hroom _].
  cbv zeta in Hclaim.
  set (claim := mkClaim _ _ _ token) in Hclaim. set (w1 := set_db _ w) in Hclaim.
  assert (Hh1 : lane_held channel claim w1).
  { split; [done|]. simpl. apply lookup_insert_eq. }
  unfold dispatch_inner. replace (in_transaction None) with false by done.
  rewrite run_alone_bind. cbn [run_alone ask answer_alone]. rewrite run_alone_try.
  cbn [run_alone ask answer_alone].
  change (match channel with Some _ => LANE_OWNER_ROLE | None => DEFAULT_OWNER_ROLE end) with (lane_key channel).1.
  change (default DEFAULT_CHANNEL channel) with (lane_key channel).2. rewrite Hclaim.
  rewrite run_alone_try. cbn [run_alone ask answer_alone]. rewrite (poll_alone channel limit claim w1 Hh1).
  rewrite run_alone_try. unfold dispatch_in_order_fenced.
  destruct (fenced_alone channel claim (map pending_event (map parse_pending batch))
    (length (map pending_event (map parse_pending batch))) 0 w1 Hh1 Hn Hl) as [refused Hfen].
  change (batch_of channel limit (w_db w1)) with batch. rewrite Hfen.
  rewrite map_map in *. simpl. change (map (λ x, row_event x) batch) with (map row_event batch).
  fold stop. rewrite length_map.
  set (w2 := mkWorld _ _ _ _ refused _).
  destruct (settle_alone channel limit claim (mkReport stop.1 (length batch) stop.2) w2) as (db & Hset & He & Ho).
  { exact Hh1. }
  { exact Hnd. }
  change (batch_of channel limit (w_db w2)) with batch in Hset, He. rewrite Hset.
  eexists. split; [done|]. simpl. split; [by rewrite <- firstn_map|]. split; [done|]. split; [|done].
  split; simpl; [done|done|lia|]. rewrite Ho. intros o [= <-]. simpl. lia.
Qed.

(** A dispatch round that runs undisturbed does exactly this: it publishes
    the pending rows of its lane in ascending id order, one after the other,
    up to the first that is not accepted; it reports how far it came and what
    stopped it; it marks exactly the accepted rows dispatched and changes no
    other row; and it gives the lane back. *)
Theorem dispatch_round_exact channel limit rounds w :
  NoDup (map row_id (outbox_event (w_db w))) → lane_free (rounds + 1) channel w → 0 ≤ rounds →
  let batch := batch_of channel limit (w_db w) in
  let stop := accepts (env_publish env) (map row_event batch) in
  StronglySorted by_id batch ∧
  ∃ w', run_alone env (dispatch_inner None channel limit None) w =
        (Ok (mkReport stop.1 (length batch) stop.2), w') ∧
    w_delivered w' = w_delivered w ++ map row_event (take stop.1 batch) ∧
    outbox_event (w_db w') = map (marked (w_now w) (map row_id (take stop.1 batch))) (outbox_event (w_db w)) ∧
    lane_free rounds channel w'.
Proof.
  intros Hnd Hf Hr batch stop. split; [apply batch_sorted|].
  destruct (round_alone channel limit rounds w Hnd Hf Hr) as (w' & Hrun & Hd & He & Hl & _).
  by exists w'.
Qed.

(** ** Draining *)

(** The selectable rows in order of id. *)
Definition queue_of (channel : option string) (db : OutboxDb) : list OutboxRow :=
  merge_sort by_id (List.filter (selectable channel []) (outbox_event db)).

Fixpoint rounds_alone (n : nat) (channel : option string) (limit : Z) (w : World) : World :=
  match n with
  | O => w
  | S n => rounds_alone n channel limit (run_alone env (dispatch_inner None channel limit None) w).2
  end.

Lemma accepts_all events :
  (∀ e, env_publish env e = Some (Ok tt)) → accepts (env_publish env) events = (length events, None).
Proof. intros Ha. induction events as [|e events IH]; simpl; [done|]. by rewrite Ha, IH. Qed.

Lemma filter_marked channel now ids rows :
  List.filter (selectable channel []) (map (marked now ids) rows) =
  List.filter (λ row, negb (bool_decide (row_id row ∈ ids))) (List.filter (selectable channel []) rows).
Proof.
  induction rows as [|row rows IH]; simpl; [done|]. unfold marked at 1. case_bool_decide as Hid.
  - assert (selectable channel [] (dispatched_row now row) = false) as ->.
    { unfold selectable, is_pending. simpl. by rewrite andb_false_r. }
    destruct (selectable channel [] row); simpl; [|done]. by rewrite (bool_decide_eq_true_2 _ Hid).
  - destruct (selectable channel [] row); simpl; [|done]. rewrite (bool_decide_eq_false_2 _ Hid). simpl.
    rewrite <- IH. f_equal. unfold marked. by rewrite (bool_decide_eq_false_2 _ Hid).
Qed.

Lemma filter_rest (ids : list Z) (batch rest : list OutboxRow) :
  map row_id batch = ids → NoDup (map row_id (batch ++ rest)) →
  List.filter (λ row, negb (bool_decide (row_id row ∈ ids))) (batch ++ rest) = rest.
Proof.
  intros <- Hnd. rewrite map_app in Hnd. apply NoDup_app in Hnd as (_ & Hdis & _).
  rewrite List.filter_app.
  assert (List.filter (λ row, negb (bool_decide (row_id row ∈ map row_id batch))) batch = []) as ->.
  { assert (∀ l, (∀ r, r ∈ l → r ∈ batch) →
      List.filter (λ row, negb (bool_decide (row_id row ∈ map row_id batch))) l = []) as Hl; [|by apply Hl].
    intros l Hin. induction l as [|r l IH]; simpl; [done|].
    rewrite bool_decide_eq_true_2; [apply IH; set_solver|].
    apply list_elem_of_fmap. exists r. split; [done|]. apply Hin. set_solver. }
  simpl. clear -Hdis. induction rest as [|r rest IH]; simpl; [done|].
  rewrite bool_decide_eq_false_2.
  - simpl. f_equal. apply IH. intros x Hx Hr. apply (Hdis x Hx). set_solver.
  - intros Hin. apply (Hdis _ Hin). set_solver.
Qed.

Lemma filter_permutation {A} (p : A → bool) l k : l ≡ₚ k → List.filter p l ≡ₚ List.filter p k.
Proof.
  induction 1 as [|x l k _ IH|x y l|l1 l2 l3 _ IH1 _ IH2]; simpl; [done|..].
  - by destruct (p x); [f_equiv|].
  - by destruct (p x), (p y); [constructor|..].
  - by etrans.
Qed.

(** What is left is the rest of the queue. *)
Lemma queue_marked channel limit now db db' :
  NoDup (map row_id (outbox_event db)) →
  outbox_event db' = map (marked now (map row_id (batch_of channel limit db))) (outbox_event db) →
  queue_of channel db' = drop (Z.to_nat limit) (queue_of channel db).
Proof.
  intros Hnd He. unfold queue_of at 1. rewrite He, filter_marked.
  assert (Hq : List.filter (selectable channel []) (outbox_event db) ≡ₚ queue_of channel db)
    by (symmetry; apply merge_sort_Permutation).
  assert (Hids : NoDup (map row_id (queue_of channel db))).
  { pose proof (batch_distinct channel (Z.of_nat (length (queue_of channel db))) db Hnd) as Hb.
    unfold batch_of in Hb. rewrite Nat2Z.id in Hb. fold (queue_of channel db) in Hb. by rewrite take_ge in Hb. }
  set (p := λ row, negb (bool_decide (row_id row ∈ map row_id (batch_of channel limit db)))).
  assert (Hrest : List.filter p (queue_of channel db) = drop (Z.to_nat limit) (queue_of channel db)).
  { rewrite <- (take_drop (Z.to_nat limit) (queue_of channel db)) at 1. apply filter_rest; [done|].
    by rewrite take_drop. }
  pose proof (filter_permutation p _ _ Hq) as Hperm. rewrite Hrest in Hperm.
  apply (StronglySorted_unique_strong by_id).
  - intros r1 r2 Hr1 Hr2 H12 H21. rewrite merge_sort_Permutation, Hperm in Hr1.
    apply (same_id_same_row (queue_of channel db)); [done|..].
    + by apply (subseteq_drop (Z.to_nat limit)).
    + by apply (subseteq_drop (Z.to_nat limit)).
    + unfold by_id in *. lia.
  - apply StronglySorted_merge_sort; apply _.
  - pose proof (StronglySorted_merge_sort by_id (List.filter (selectable channel []) (outbox_event db))) as Hs.
    fold (queue_of channel db) in Hs. rewrite <- (take_drop (Z.to_nat limit)) in Hs.
    by eapply StronglySorted_app_1_r.
  - by rewrite merge_sort_Permutation, Hperm.
Qed.

(** C32. The outbox drains: [n] undisturbed rounds against a publisher that
    accepts what it is given deliver the first [n * limit] waiting events of
    the lane, each once and in ascending id order, and leave exactly the rest
    of the queue waiting; so enough rounds leave nothing. *)
Theorem outbox_drains n channel limit w :
  (∀ e, env_publish env e = Some (Ok tt)) → NoDup (map row_id (outbox_event (w_db w))) →
  lane_free (Z.of_nat n) channel w →
  let sent := (n * Z.to_nat limit)%nat in
  let w' := rounds_alone n channel limit w in
  w_delivered w' = w_delivered w ++ map row_event (take sent (queue_of channel (w_db w))) ∧
  queue_of channel (w_db w') = drop sent (queue_of channel (w_db w)).
Proof.
  intros Ha. revert w. induction n as [|n IH]; intros w Hnd Hf; cbn [rounds_alone].
  { simpl. by rewrite app_nil_r. }
  rewrite Nat2Z.inj_succ, <- Z.add_1_r in Hf.
  destruct (round_alone channel limit (Z.of_nat n) w Hnd Hf) as (w1 & Hrun & Hd & He & Hl & _); [lia|].
  rewrite Hrun. simpl snd. rewrite (accepts_all _ Ha) in Hd, He. simpl in Hd, He.
  rewrite length_map, take_ge in Hd, He by lia.
  pose proof (queue_marked channel limit _ _ _ Hnd He) as Hq.
  destruct (IH w1) as [Hd2 Hq2]; [by rewrite He, map_marked_ids|done|].
  simpl in Hd2, Hq2. rewrite Hd2, Hq2, Hd, Hq, drop_drop. split; [|done].
  rewrite <- app_assoc, <- map_app. do 2 f_equal. unfold batch_of. fold (queue_of channel (w_db w)).
  by rewrite take_take_drop.
Qed.
End rounds.
