(* ===== verification/OutboxGuarantees.v ===== *)
(** * The durable outbox: guarantees

    What holds of every system of applications, relays and retention workers,
    in every interleaving, with crashes, lost acknowledgements and timeouts:
    no event is lost, rows are settled on evidence, a relay that was replaced
    can do nothing any more, the ledger of a capped tenant is exact.  The
    ledger of the system tenant is not, and a run shows it. *)

From Stdlib Require Import ZArith Lia.
From S2P Require Import Prelude AsyncProg Bytes SagaIdentity SagaState.
From S2P Require Import OutboxCore OutboxStore OutboxRetention OutboxRelay OutboxSafety OutboxRounds OutboxAlone.
From stdpp Require Import prelude strings list sorting gmap relations.

Local Open Scope Z_scope.
Local Open Scope rust_scope.

Section guarantees.
Context (frozen : Frozen) (datasource : string).

Abbreviation tables s := (w_db (sys_world s)).

(** C5. No event is lost: take any system that applications, relays and
    retention workers can reach, and any continuation of it.  An event in the
    outbox has been delivered, or still waits under its id for a relay, or was
    refused for good by the publisher; and then it is a dead letter in the
    table, or the archive holds it and its disposal is on record.  Crashes,
    timeouts, lost acknowledgements and takeovers do not change that, and
    retention never deletes an event that waits. *)
Theorem outbox_never_loses s s' row :
  outbox_reachable frozen datasource s → rtc (system_step frozen datasource) s s' →
  row ∈ outbox_event (tables s) →
  row_event row ∈ w_delivered (sys_world s') ∨
  (∃ row', row' ∈ outbox_event (tables s') ∧ same_row row row' ∧ is_pending row' = true) ∨
  row_event row ∈ w_refused (sys_world s') ∧
    ((∃ row', row' ∈ outbox_event (tables s') ∧ same_row row row' ∧ row_dead row' = true) ∨
     event_id (row_event row) ∈ w_archive (sys_world s') ∧
     ∃ d, outbox_dead_disposal (tables s') !! event_id (row_event row) = Some d ∧
       disposal_receipt d = event_id (row_event row)).
Proof.
  intros Hs Hss Hrow. apply reachable_sound in Hs.
  destruct (system_steps_sound _ _ _ _ Hss Hs) as [[Hw _] Hk].
  destruct (k_rows _ _ Hk row Hrow) as [(row' & Hrow' & Hl)|[Hd|(Hr & Ha & d & Hd)]].
  - destruct (so_rows _ _ Hw row' Hrow') as [H1 H2 H3 H4 H5]. destruct (rl_same _ _ Hl) as (Hid & He & Hc).
    destruct (row_dispatched row') eqn:Hdis; [left; rewrite <- He; auto|]. right.
    destruct (row_dead row') eqn:Hdead.
    + right. rewrite <- He. split; [auto|]. left. exists row'. split; [done|]. split; [|done].
      by apply Hl.
    + left. exists row'. split; [done|]. split; [by apply Hl|]. unfold is_pending. by rewrite Hdis, Hdead.
  - by left.
  - right. right. split; [done|]. right. split; [done|]. exists d. split; [done|].
    by apply (so_disposals _ _ Hw).
Qed.

(** C10. Rows are settled on evidence: in every reachable system ids and event
    ids are distinct, a row is marked dispatched only when its event was
    delivered, a failure is counted and a row becomes a dead letter only when
    the publisher refused its event for good (a transient or uncertain failure
    never counts), no row is both, and a recorded disposal carries the receipt
    of its own event, which the archive holds. *)
Theorem outbox_settles_on_evidence s :
  outbox_reachable frozen datasource s →
  NoDup (map row_id (outbox_event (tables s))) ∧
  NoDup (map (λ row, event_id (row_event row)) (outbox_event (tables s))) ∧
  (∀ row, row ∈ outbox_event (tables s) →
     (row_dispatched row = true → row_event row ∈ w_delivered (sys_world s)) ∧
     (0 < row_attempts row → row_event row ∈ w_refused (sys_world s)) ∧
     (row_dead row = true → 0 < row_attempts row ∧ row_dispatched row = false)) ∧
  (∀ name d, outbox_dead_disposal (tables s) !! name = Some d →
     disposal_receipt d = name ∧ name ∈ w_archive (sys_world s)).
Proof.
  intros [Hw _]%reachable_sound. do 2 (split; [apply Hw|]). split; [|apply Hw].
  intros row Hrow. destruct (so_rows _ _ Hw row Hrow) as [H1 H2 H3 H4 H5].
  do 2 (split; [done|]). intros Hd. split; [auto|]. rewrite Hd in H5. by destruct (row_dispatched row).
Qed.

(** ** Fencing *)

(** Nobody grants a claim whose token has been passed. *)
Lemma passed_not_granted claim o : claim_token claim < fencing_token o → grants claim o = false.
Proof.
  intros H. unfold grants. replace (fencing_token o =? claim_token claim) with false by lia.
  apply andb_false_r.
Qed.

Lemma passed_lost claim o now db :
  outbox_dispatch_owner db !! claim_key claim = Some o → claim_token claim < fencing_token o →
  ensure_owner claim now db = Err ownership_lost.
Proof.
  intros Ho Ht. unfold ensure_owner, st_bind, st_get.
  by rewrite Ho, (passed_not_granted _ _ Ht).
Qed.

Lemma fenced {A} claim o now db (c : Ox A) :
  outbox_dispatch_owner db !! claim_key claim = Some o → claim_token claim < fencing_token o →
  st_bind (ensure_owner claim now) (λ _, c) db = Err ownership_lost.
Proof. intros Ho Ht. unfold st_bind. by rewrite (passed_lost _ _ _ _ Ho Ht). Qed.

(** C9. A relay that was replaced can do nothing any more: once the token of a
    lane is past that of a claim, then in every later state of the system each
    transaction of the claim fails with lost ownership and so changes nothing,
    whatever the clock says; and every later claim of the lane gets a larger
    token than the lane ever had, so a token never belongs to two claims. *)
Theorem superseded_claim_is_powerless s s' claim o now locked :
  outbox_reachable frozen datasource s → rtc (system_step frozen datasource) s s' →
  outbox_dispatch_owner (tables s) !! claim_key claim = Some o → claim_token claim < fencing_token o →
  is_ok (OwnerClaim_renew claim OWNER_LEASE_MS now (tables s')) = false ∧
  OwnerClaim_release claim (tables s') = Err ownership_lost ∧
  (∀ channel limit, poll_pending claim channel limit now locked (tables s') = Err ownership_lost) ∧
  (∀ rows, mark_dispatched_exact claim rows now (tables s') = Err ownership_lost) ∧
  (∀ row max, record_failed_attempt claim row max now (tables s') = Err ownership_lost) ∧
  (∀ policy now_ms, fetch_retention_candidates claim policy now_ms now locked (tables s') = Err ownership_lost) ∧
  (∀ policy now_ms, oldest_candidate_age claim policy now_ms now (tables s') = Err ownership_lost) ∧
  (∀ policy now_ms candidates receipts,
     delete_retention_candidates claim policy now_ms now candidates receipts (tables s') = Err ownership_lost) ∧
  (∀ owner lease claim' db,
     try_claim_owner (claim_role claim) (claim_lane claim) owner lease now (tables s') = Ok (Some claim', db) →
     fencing_token o < claim_token claim').
Proof.
  intros Hs Hss Ho Ht. apply reachable_sound in Hs.
  destruct (system_steps_sound _ _ _ _ Hss Hs) as [_ Hk].
  destruct (k_owners _ _ Hk _ _ Ho) as (o' & Ho' & Hl).
  assert (fencing_token o ≤ fencing_token o') as Hle by (destruct Hl as [?|[? ?]]; lia).
  assert (claim_token claim < fencing_token o') as Ht' by lia.
  split.
  { unfold OwnerClaim_renew, st_bind, st_lift, st_get. destruct (bigint _); [|done].
    by rewrite Ho', (passed_not_granted _ _ Ht'). }
  split.
  { unfold OwnerClaim_release, st_bind, st_get. by rewrite Ho', (passed_not_granted _ _ Ht'). }
  do 6 (split; [intros; by eapply fenced|]).
  intros owner lease claim' db H. unfold try_claim_owner in H. inv_run.
  change (claim_role claim, claim_lane claim) with (claim_key claim) in H. rewrite Ho' in H.
  destruct (lease_until_ms o' <? now); inv_run. simpl.
  match goal with Hb : bigint _ = Ok _ |- _ => unfold bigint in Hb; destruct (is_i64 _) in Hb; [|done];
    injection Hb as <- end. lia.
Qed.

(** ** The ledger *)

(** C33. The ledger of a capped tenant other than the system tenant is exact: in
    every reachable system, once reconciled, it holds the number of events of
    the tenant that wait, and [outbox_tenant_quota_usage] reads that number; and
    a further event of the tenant is stored only while fewer than its cap wait.
    The system tenant, for which plain appends do not reserve, is excluded:
    there the statement is false. *)
Theorem outbox_ledger_exact s name cap q :
  outbox_reachable frozen datasource s → name ≠ SYSTEM_TENANT →
  outbox_tenant_quota_of frozen name = Some cap →
  outbox_tenant_quota (tables s) !! name = Some q → quota_initialized q = true →
  let waiting := count_rows (is_pending_of name) (outbox_event (tables s)) in
  quota_in_flight q = waiting ∧
  (validate_tenant name = Ok tt → outbox_tenant_quota_usage name (tables s) = Ok waiting) ∧
  ∀ ambient id now event hooks signals sess,
    append_transactional_with_context frozen datasource ambient id now (mkWriteContext name) event
      (mkSession (tables s) hooks signals) = Ok (tt, sess) →
    already_exists event (tables s) = false → waiting < cap.
Proof.
  intros Hs Hne Hcap Hq Hi waiting. apply reachable_sound in Hs as [Hw _].
  pose proof (so_exact _ _ Hw name cap q Hne Hcap Hq Hi) as Hx. split; [done|]. split.
  - intros Hv. unfold outbox_tenant_quota_usage. rewrite Hv. simpl. rewrite Hq, Hx.
    f_equal. apply Z.max_l, count_rows_nonneg.
  - intros ambient id now event hooks signals sess H Hn. unfold append_transactional_with_context in H.
    apply st_bind_Ok in H as (? & ? & [_ ->]%st_lift_Ok & H).
    apply st_bind_Ok in H as (? & ? & [_ ->]%st_lift_Ok & H).
    apply st_bind_Ok in H as (settled & s1 & Hres & _). simpl in Hres. rewrite Hcap in Hres. inv_run.
    apply on_db_Ok, reserve_quota_Ok in Hres. simpl in Hres.
    destruct Hres as [(_ & He & _)|(_ & _ & q' & _ & Hlt & Hq' & _)]; [congruence|].
    rewrite Hq in Hq'. injection Hq' as <-. unfold waiting. lia.
Qed.
End guarantees.
