(* ===== verification/OutboxScenario.v ===== *)
(** * The durable outbox: a run

    An application appends two events of a capped tenant; a relay delivers one
    and the publisher refuses the other, which becomes a dead letter; later a
    retention worker archives and deletes both.  The theorems are applied to
    the states of this run. *)

From Stdlib Require Import ZArith Lia.
From S2P Require Import Prelude AsyncProg Bytes SagaIdentity SagaState.
From S2P Require Import OutboxCore OutboxStore OutboxRetention OutboxRelay OutboxSafety OutboxRounds OutboxAlone.
From S2P Require Import OutboxGuarantees.
From stdpp Require Import prelude strings list sorting gmap relations.

Local Open Scope Z_scope.
Local Open Scope rust_scope.

Definition acme_frozen : Frozen :=
  mkFrozen (Some {[ "Order" := "orders" ]}) (Some {[ "acme" := 2 ]}).

Definition acme : WriteContext := mkWriteContext "acme".

Definition acme_calls : list AppCall :=
  [App_reconcile "acme";
   App_append_with_context 7 acme (order_created "a");
   App_append_with_context 5 acme (order_created "b")].

(** The publisher takes everything but "a". *)
Definition picky (uuid : string) : Surroundings :=
  mkSurroundings uuid (λ event,
    if bool_decide (event_id event = "a") then Some (Err (OutboxPublishError_new "schema rejected"))
    else Some (Ok tt)).

Definition session_after (frozen : Frozen) (calls : list AppCall) (w : World) : Session :=
  match run_calls frozen "main" (Some "main") (w_now w) calls (mkSession (w_db w) [] ∅) with
  | Ok (_, s) => s
  | Err _ => mkSession (w_db w) [] ∅
  end.

Definition after_calls (frozen : Frozen) (calls : list AppCall) (w : World) : World :=
  mkWorld (session_db (session_after frozen calls w)) (w_now w) (w_ids w ++ concat (map drawn calls))
    (w_delivered w) (w_refused w) (w_archive w).

Definition after_round (env : Surroundings) (round : Round) (w : World) : World :=
  (run_alone env (start_round round) w).2.

Definition at_clock (now : Z) (w : World) : World :=
  mkWorld (w_db w) now (w_ids w) (w_delivered w) (w_refused w) (w_archive w).

Lemma calls_step frozen calls w rounds :
  is_ok (run_calls frozen "main" (Some "main") (w_now w) calls (mkSession (w_db w) [] ∅)) = true →
  bool_decide (NoDup (concat (map drawn calls)) ∧
               Forall (λ id, id ∉ w_ids w) (concat (map drawn calls))) = true →
  system_step frozen "main" (mkSystem w rounds) (mkSystem (after_calls frozen calls w) rounds).
Proof.
  intros Hok [Hnd Hf]%bool_decide_eq_true. unfold after_calls, session_after.
  destruct (run_calls _ _ _ _ _ _) as [[[] s]|] eqn:Hrun; [|done].
  eapply step_application; [by left|done|done| |exact Hrun]. by rewrite <- list.Forall_forall.
Qed.


(** Rounds that have ended may stay. *)
Lemma round_steps_more frozen env round w rounds :
  rtc (system_step frozen "main") (mkSystem w rounds)
    (mkSystem (after_round env round w) (rounds ++ [Done tt])).
Proof.
  eapply rtc_l; [apply (step_start _ _ _ _ round)|].
  apply (run_alone_steps env frozen "main" (start_round round) w rounds []).
Qed.

Definition acme_start : World := sys_world (initial 1000).
Definition acme_appended : World := after_calls acme_frozen acme_calls acme_start.
Definition acme_relayed : World := after_round (picky "relay-1") (Round_batch_dlt 10 1) acme_appended.

Definition acme_policy : OutboxRetentionPolicy :=
  mkRetentionPolicy 60000 100 5000 false true (Some 60000) (Some "OPS-7").
Definition acme_later : World := at_clock 100000 acme_relayed.
Definition acme_retired : World :=
  after_round (picky "janitor") (Round_retention acme_policy true 100000 4) acme_later.

Lemma acme_appended_reachable : outbox_reachable acme_frozen "main" (mkSystem acme_appended []).
Proof.
  exists 1000. eapply rtc_l; [|apply rtc_refl].
  apply (calls_step acme_frozen acme_calls acme_start []); vm_compute; reflexivity.
Qed.

Lemma acme_relayed_reachable : outbox_reachable acme_frozen "main" (mkSystem acme_relayed [Done tt]).
Proof.
  destruct acme_appended_reachable as [now H]. exists now. etrans; [exact H|].
  apply (round_steps_more _ (picky "relay-1") (Round_batch_dlt 10 1) acme_appended []).
Qed.

Lemma acme_retired_later :
  rtc (system_step acme_frozen "main") (mkSystem acme_appended []) (mkSystem acme_retired [Done tt; Done tt]).
Proof.
  etrans; [apply (round_steps_more _ (picky "relay-1") (Round_batch_dlt 10 1) acme_appended [])|].
  eapply rtc_l; [apply (step_clock _ _ _ _ 100000)|].
  apply (round_steps_more _ (picky "janitor") (Round_retention acme_policy true 100000 4) acme_later [Done tt]).
Qed.

Example acme_run :
  map event_id (w_delivered acme_retired) = ["b"] ∧ map event_id (w_refused acme_retired) = ["a"] ∧
  w_archive acme_retired = ["a"] ∧ outbox_event (w_db acme_retired) = [] ∧
  outbox_dead_disposal (w_db acme_retired) !! "a" = Some (mkDisposal "OPS-7" "a" 100000) ∧
  map (λ r, (row_id r, row_dispatched r, row_dead r)) (outbox_event (w_db acme_relayed))
    = [(7, false, true); (5, true, false)].
Proof. vm_compute. by split_and!. Qed.

(** ** The theorems on it *)

Definition acme_row (id : Z) (name : string) : OutboxRow :=
  mkRow id (of_tenant "acme" (order_created name)) "orders" false 0 false None 1000 None.

Lemma acme_rows : outbox_event (w_db acme_appended) = [acme_row 7 "a"; acme_row 5 "b"].
Proof. vm_compute. reflexivity. Qed.

Lemma outbox_never_loses_witness :
  ∃ s s' row,
    outbox_reachable acme_frozen "main" s ∧ rtc (system_step acme_frozen "main") s s' ∧
    row ∈ outbox_event (w_db (sys_world s)) ∧ outbox_event (w_db (sys_world s')) = [] ∧
    (row_event row ∈ w_delivered (sys_world s') ∨
     (∃ row', row' ∈ outbox_event (w_db (sys_world s')) ∧ same_row row row' ∧ is_pending row' = true) ∨
     row_event row ∈ w_refused (sys_world s') ∧
       ((∃ row', row' ∈ outbox_event (w_db (sys_world s')) ∧ same_row row row' ∧ row_dead row' = true) ∨
        event_id (row_event row) ∈ w_archive (sys_world s') ∧
        ∃ d, outbox_dead_disposal (w_db (sys_world s')) !! event_id (row_event row) = Some d ∧
          disposal_receipt d = event_id (row_event row))).
Proof.
  assert (Hrow : acme_row 7 "a" ∈ outbox_event (w_db acme_appended)).
  { rewrite acme_rows. apply list_elem_of_here. }
  exists (mkSystem acme_appended []), (mkSystem acme_retired [Done tt; Done tt]), (acme_row 7 "a").
  split; [exact acme_appended_reachable|]. split; [exact acme_retired_later|]. split; [exact Hrow|].
  split; [vm_compute; reflexivity|].
  exact (outbox_never_loses acme_frozen "main" _ _ _ acme_appended_reachable acme_retired_later Hrow).
Defined.

Lemma outbox_settles_on_evidence_witness :
  ∃ s, outbox_reachable acme_frozen "main" s ∧
    (∃ row, row ∈ outbox_event (w_db (sys_world s)) ∧ row_dead row = true) ∧
    NoDup (map row_id (outbox_event (w_db (sys_world s)))) ∧
    NoDup (map (λ row, event_id (row_event row)) (outbox_event (w_db (sys_world s)))) ∧
    (∀ row, row ∈ outbox_event (w_db (sys_world s)) →
       (row_dispatched row = true → row_event row ∈ w_delivered (sys_world s)) ∧
       (0 < row_attempts row → row_event row ∈ w_refused (sys_world s)) ∧
       (row_dead row = true → 0 < row_attempts row ∧ row_dispatched row = false)) ∧
    (∀ name d, outbox_dead_disposal (w_db (sys_world s)) !! name = Some d →
       disposal_receipt d = name ∧ name ∈ w_archive (sys_world s)).
Proof.
  exists (mkSystem acme_relayed [Done tt]). split; [exact acme_relayed_reachable|]. split.
  - eexists. split; [vm_compute; left|reflexivity].
  - exact (outbox_settles_on_evidence acme_frozen "main" _ acme_relayed_reachable).
Defined.

(** A second relay takes the lane. *)
Definition acme_taken : World := after_round (picky "relay-2") (Round_batch 10) acme_relayed.
Definition first_claim : OwnerClaim := mkClaim DEFAULT_OWNER_ROLE DEFAULT_CHANNEL "relay-1" 1.

Lemma acme_taken_reachable : outbox_reachable acme_frozen "main" (mkSystem acme_taken [Done tt; Done tt]).
Proof.
  destruct acme_relayed_reachable as [now H]. exists now. etrans; [exact H|].
  apply (round_steps_more _ (picky "relay-2") (Round_batch 10) acme_relayed [Done tt]).
Qed.

Lemma superseded_claim_is_powerless_witness :
  ∃ s, outbox_reachable acme_frozen "main" s ∧ OwnerClaim_release first_claim (w_db (sys_world s)) = Err ownership_lost ∧
    ∀ rows, mark_dispatched_exact first_claim rows 1000 (w_db (sys_world s)) = Err ownership_lost.
Proof.
  exists (mkSystem acme_taken [Done tt; Done tt]). split; [exact acme_taken_reachable|].
  destruct (superseded_claim_is_powerless acme_frozen "main" _ _ first_claim (mkOwner "relay-2" 2 0) 1000 []
    acme_taken_reachable (rtc_refl _ _)) as (_ & Hrel & _ & Hmark & _).
  - vm_compute. reflexivity.
  - reflexivity.
  - split; [exact Hrel|exact Hmark].
Defined.

Lemma outbox_ledger_exact_witness :
  ∃ s q, outbox_reachable acme_frozen "main" s ∧ outbox_tenant_quota (w_db (sys_world s)) !! "acme" = Some q ∧
    quota_in_flight q = 2 ∧
    quota_in_flight q = count_rows (is_pending_of "acme") (outbox_event (w_db (sys_world s))).
Proof.
  exists (mkSystem acme_appended []), (mkTenantQuota 2 true).
  assert (Hq : outbox_tenant_quota (w_db acme_appended) !! "acme" = Some (mkTenantQuota 2 true))
    by (vm_compute; reflexivity).
  split; [exact acme_appended_reachable|]. split; [exact Hq|]. split; [reflexivity|].
  refine (proj1 (outbox_ledger_exact acme_frozen "main" _ "acme" 2 _ acme_appended_reachable _ _ Hq _)).
  - discriminate.
  - vm_compute. reflexivity.
  - reflexivity.
Defined.

Lemma acme_lane_free rounds : 0 ≤ rounds < I64_MAX → lane_free rounds None acme_appended.
Proof.
  intros Hr. split; [done|done|done|]. intros o Ho. vm_compute in Ho. done.
Qed.

Lemma acme_ids : NoDup (map row_id (outbox_event (w_db acme_appended))).
Proof. rewrite acme_rows. apply (bool_decide_unpack _). vm_compute. done. Qed.

Lemma dispatch_round_exact_witness :
  ∃ w w', run_alone (picky "relay-1") (dispatch_inner None None 10 None) w =
      (Ok (mkReport 1 2 (Some (OutboxPublishError_new "schema rejected"))), w') ∧
    map event_id (w_delivered w') = ["b"].
Proof.
  destruct (dispatch_round_exact (picky "relay-1") None 10 0 acme_appended acme_ids) as [_ (w' & Hrun & Hd & _)].
  - apply acme_lane_free. done.
  - done.
  - exists acme_appended, w'. split; [rewrite Hrun; vm_compute; reflexivity|].
    rewrite Hd. vm_compute. reflexivity.
Defined.

Definition generous : Surroundings := mkSurroundings "relay-3" (λ _, Some (Ok tt)).

Lemma outbox_drains_witness :
  map event_id (w_delivered (rounds_alone generous 2 None 1 acme_appended)) = ["b"; "a"] ∧
  queue_of None (w_db (rounds_alone generous 2 None 1 acme_appended)) = [].
Proof.
  destruct (outbox_drains generous 2 None 1 acme_appended (λ _, eq_refl) acme_ids) as [Hd Hq].
  - apply acme_lane_free. done.
  - rewrite Hd, Hq. split; vm_compute; reflexivity.
Defined.

(** ** The ledger of the system tenant *)

Definition system_frozen : Frozen := mkFrozen None (Some {[ SYSTEM_TENANT := 1 ]}).

Definition system_calls : list AppCall :=
  [App_append_transactional 1 (order_created "x");
   App_reconcile SYSTEM_TENANT].

Definition system_more : list AppCall :=
  [App_append_transactional 2 (order_created "y"); App_append_transactional 3 (order_created "z")].

(** C34. The ledger drifts for the system tenant: [install_outbox_tenant_quotas]
    accepts a cap for it, yet the plain appends store its events without a
    reservation.  From a reconciled ledger, two such appends leave three events
    waiting with one in flight under a cap of one. *)
Theorem system_ledger_drifts :
  install_outbox_tenant_quotas {[ SYSTEM_TENANT := 1 ]} (mkFrozen None None) = Ok system_frozen ∧
  ∃ s q, outbox_reachable system_frozen "main" s ∧
    outbox_tenant_quota (w_db (sys_world s)) !! SYSTEM_TENANT = Some q ∧ quota_initialized q = true ∧
    quota_in_flight q = 1 ∧
    count_rows (is_pending_of SYSTEM_TENANT) (outbox_event (w_db (sys_world s))) = 3.
Proof.
  split; [vm_compute; reflexivity|].
  set (w1 := after_calls system_frozen system_calls acme_start).
  exists (mkSystem (after_calls system_frozen system_more w1) []), (mkTenantQuota 1 true).
  split; [|vm_compute; by split_and!]. exists 1000.
  eapply rtc_l; [apply (calls_step system_frozen system_calls acme_start []); vm_compute; reflexivity|].
  eapply rtc_l; [apply (calls_step system_frozen system_more w1 []); vm_compute; reflexivity|].
  apply rtc_refl.
Qed.
