(* ===== verification/Idempotency.v ===== *)
(** * Idempotency: the contract and the in-process store

    Models [naidempotency/src/lib.rs]: keys, fingerprints, leases, stored
    responses, the outcomes of [begin] and the in-process store.  The trait
    [IdempotencyStore] is the class [Backend] of its three operations, as
    programs over a backend's own statements; what a store promises to the
    request path is [StoreContract], and [DurableContract] for a store that
    does not forget. *)

From Stdlib Require Import ZArith Lia.
From S2P Require Import Prelude AsyncProg Bytes.
From stdpp Require Import prelude strings list gmap relations.

Local Open Scope Z_scope.
Local Open Scope rust_scope.

(** ** Data *)

(** [[u8; 32]] and [[u8; 16]]. *)
Record RequestFingerprint := mkFingerprint { fp_bytes : list Z }.
Record ExecutionLease := mkLease { lease_bytes : list Z }.

#[global] Instance RequestFingerprint_eq_dec : EqDecision RequestFingerprint.
Proof. solve_decision. Defined.
#[global] Instance ExecutionLease_eq_dec : EqDecision ExecutionLease.
Proof. solve_decision. Defined.

Record IdempotencyKey := mkKey {
  key_tenant : string;
  key_subject : string;
  key_route_id : string;
  key_client_key : string
}.

#[global] Instance IdempotencyKey_eq_dec : EqDecision IdempotencyKey.
Proof. solve_decision. Defined.
#[global] Instance IdempotencyKey_countable : Countable IdempotencyKey.
Proof.
  refine (inj_countable'
    (λ k, (key_tenant k, key_subject k, key_route_id k, key_client_key k))
    (λ '(a, b, c, d), mkKey a b c d) _).
  by intros [].
Defined.

Record StoredHeader := mkStoredHeader { header_name : string; header_value : string }.

#[global] Instance StoredHeader_eq_dec : EqDecision StoredHeader.
Proof. solve_decision. Defined.

Record StoredResponse := mkStoredResponse {
  stored_status : Z;
  stored_body : list Z;
  stored_headers : list StoredHeader
}.

#[global] Instance StoredResponse_eq_dec : EqDecision StoredResponse.
Proof. solve_decision. Defined.

Inductive IdempotencyOutcome :=
| FirstExecution
| Replay (response : StoredResponse)
| ConcurrentInFlight
| FingerprintConflict.

#[global] Instance IdempotencyOutcome_eq_dec : EqDecision IdempotencyOutcome.
Proof. solve_decision. Defined.

Inductive RecordState :=
| InFlight (fingerprint : RequestFingerprint) (lease : ExecutionLease)
| Completed (fingerprint : RequestFingerprint) (response : StoredResponse).

#[global] Instance RecordState_eq_dec : EqDecision RecordState.
Proof. solve_decision. Defined.

Definition record_fingerprint (record : RecordState) : RequestFingerprint :=
  match record with InFlight fingerprint _ | Completed fingerprint _ => fingerprint end.

Record IdempotencyError := IdempotencyError_new { idempotency_reason : string }.

#[global] Instance IdempotencyError_eq_dec : EqDecision IdempotencyError.
Proof. solve_decision. Defined.

(** What the array types say. *)
Definition fingerprint_wf (fingerprint : RequestFingerprint) : Prop :=
  length (fp_bytes fingerprint) = 32%nat.
Definition lease_wf (lease : ExecutionLease) : Prop := length (lease_bytes lease) = 16%nat.

(** The statuses a durable store accepts and gives back. *)
Definition status_storable (status : Z) : bool := (100 <=? status) && (status <=? 599).

(** ** The trait *)

(** [serve] is what one atomic statement of the backend does, [elapse] what
    happens by itself; [view] is the record a key is found to have, at the
    [Slot] the backend keeps it under. *)
Class Backend := {
  Stmt : Type → Type;
  Store : Type;
  Slot : Type;
  slot_of : IdempotencyKey → Slot;
  view : Store → Slot → option RecordState;
  serve : ∀ B, Stmt B → Store → B → Store → Prop;
  elapse : Store → Store → Prop;
  fresh_store : Store → Prop;
  begin : IdempotencyKey → RequestFingerprint → ExecutionLease →
    Prog Stmt (result IdempotencyOutcome IdempotencyError);
  complete : IdempotencyKey → RequestFingerprint → ExecutionLease → StoredResponse →
    Prog Stmt (result bool IdempotencyError);
  abort : IdempotencyKey → RequestFingerprint → ExecutionLease →
    Prog Stmt (result bool IdempotencyError)
}.

(** ** Histories of a store *)

Record History (S : Type) := mkHistory { present : S; past : list S }.
Arguments mkHistory {S} present past.
Arguments present {S} h.
Arguments past {S} h.

Definition push {S} (s : S) (h : History S) : History S := mkHistory s (present h :: past h).

Definition grown {S} (step : S → S → Prop) (h h' : History S) : Prop :=
  ∃ s, step (present h) s ∧ h' = push s h.

Lemma grown_mono {S} (R R' : S → S → Prop) h h' :
  (∀ s s', R s s' → R' s s') → grown R h h' → grown R' h h'.
Proof. intros H (s & Hs & ->). exists s. auto. Qed.

(** Every effect of a program is a move, and so is everything around it. *)
#[export] Instance history_interference {S} (move G : S → S → Prop) :
  Interference (rtc (grown move)) (grown (λ s s', move s s' ∧ G s s')).
Proof.
  refine {| later := rtc (grown move) |}; try apply _; [done|].
  intros h h' Hg. apply rtc_once. eapply grown_mono; [|exact Hg]. by intros s s' [].
Defined.

Section contract.
Context `{Backend}.

(** A record that the key had at some moment. *)
Definition was (h : History Store) (slot : Slot) (record : RecordState) : Prop :=
  ∃ s, s ∈ present h :: past h ∧ view s slot = Some record.

Definition store_handle {B} (stmt : Stmt B) (h : History Store) (answer : B) (h' : History Store) : Prop :=
  ∃ s, serve B stmt (present h) answer s ∧ h' = push s h.

Lemma was_now h slot record : view (present h) slot = Some record → was h slot record.
Proof. intros Hv. exists (present h). split; [by left|done]. Qed.

Lemma was_push s h slot record :
  was (push s h) slot record ↔ view s slot = Some record ∨ was h slot record.
Proof.
  unfold was, push. simpl. split.
  - intros (s' & [->|Hs]%elem_of_cons & Hv); eauto.
  - intros [Hv|(s' & Hs & Hv)]; [exists s; split; [by left|done]|exists s'; split; [by right|done]].
Qed.

Lemma was_later R h h' slot record : rtc (grown R) h h' → was h slot record → was h' slot record.
Proof.
  induction 1 as [h|h1 h2 h3 (s & _ & ->) _ IH]; [done|]. intros Hw. apply IH, was_push. by right.
Qed.

(** What one request may do to the records of others: nothing. *)
Definition begins (key : IdempotencyKey) (fingerprint : RequestFingerprint) (lease : ExecutionLease)
    (s s' : Store) : Prop :=
  ∀ slot record, view s' slot = Some record →
    view s slot = Some record ∨ (slot = slot_of key ∧ record = InFlight fingerprint lease).

Definition completes (key : IdempotencyKey) (fingerprint : RequestFingerprint) (lease : ExecutionLease)
    (response : StoredResponse) (s s' : Store) : Prop :=
  ∀ slot record, view s' slot = Some record →
    view s slot = Some record
    ∨ (slot = slot_of key ∧ record = Completed fingerprint response
       ∧ view s slot = Some (InFlight fingerprint lease)).

(** What an outcome is evidence of. *)
Definition begin_evidence (key : IdempotencyKey) (fingerprint : RequestFingerprint)
    (lease : ExecutionLease) (answer : result IdempotencyOutcome IdempotencyError)
    (h : History Store) : Prop :=
  match answer with
  | Ok FirstExecution => was h (slot_of key) (InFlight fingerprint lease)
  | Ok (Replay response) => was h (slot_of key) (Completed fingerprint response)
  | Ok ConcurrentInFlight => ∃ record, was h (slot_of key) record
  | Ok FingerprintConflict => ∃ record, was h (slot_of key) record ∧ record_fingerprint record ≠ fingerprint
  | Err _ => True
  end.

Definition complete_evidence (key : IdempotencyKey) (fingerprint : RequestFingerprint)
    (response : StoredResponse) (answer : result bool IdempotencyError) (h : History Store) : Prop :=
  answer = Ok true → was h (slot_of key) (Completed fingerprint response).

(** [move] is how the store changes under [begin], [complete] and time.
    However requests interleave with the statements of an operation, each of
    them is such a move, changes no other request's record, and the answer is
    backed by a record the store had. *)
Class StoreContract := {
  store_ok : Store → Prop;
  move : Store → Store → Prop;
  fresh_ok s : fresh_store s → store_ok s ∧ ∀ slot, view s slot = None;
  elapse_ok s s' : store_ok s → elapse s s' →
    store_ok s' ∧ move s s' ∧ ∀ slot record, view s' slot = Some record → view s slot = Some record;
  begin_ok key fingerprint lease h : store_ok (present h) →
    fingerprint_wf fingerprint → lease_wf lease →
    safely (@store_handle) (store_ok ∘ present) (rtc (grown move))
      (grown (λ s s', move s s' ∧ begins key fingerprint lease s s'))
      (begin key fingerprint lease) (begin_evidence key fingerprint lease) h;
  complete_ok key fingerprint lease response h : store_ok (present h) →
    fingerprint_wf fingerprint → lease_wf lease →
    status_storable (stored_status response) = true →
    safely (@store_handle) (store_ok ∘ present) (rtc (grown move))
      (grown (λ s s', move s s' ∧ completes key fingerprint lease response s s'))
      (complete key fingerprint lease response) (complete_evidence key fingerprint response) h
}.

(** A record in flight keeps its fingerprint, a completed one everything. *)
Definition carried (before after : option RecordState) : Prop :=
  match before with
  | None => True
  | Some (InFlight fingerprint _) => ∃ record, after = Some record ∧ record_fingerprint record = fingerprint
  | Some (Completed _ _) => after = before
  end.

(** [epoch] counts how often the execution right of a slot was given out. *)
Class DurableContract `{StoreContract} := {
  epoch : Store → Slot → nat;
  fresh_epoch s slot : fresh_store s → epoch s slot = O;
  move_ok s s' : store_ok s → move s s' → store_ok s';
  move_carries s s' slot : store_ok s → move s s' → carried (view s slot) (view s' slot);
  move_epoch s s' slot : store_ok s → move s s' →
    (epoch s slot ≤ epoch s' slot)%nat ∧
    (epoch s' slot = epoch s slot → ∀ fingerprint lease,
       view s' slot = Some (InFlight fingerprint lease) → view s slot = Some (InFlight fingerprint lease))
}.
End contract.

Arguments StoreContract : clear implicits.
Arguments StoreContract H : rename.
Arguments DurableContract H {_} : rename.

(** ** The in-process store *)

Abbreviation Records := (gmap IdempotencyKey RecordState).

Definition mem_begin (key : IdempotencyKey) (fingerprint : RequestFingerprint) (lease : ExecutionLease)
    (records : Records) : result IdempotencyOutcome IdempotencyError * Records :=
  match records !! key with
  | None => (Ok FirstExecution, <[key := InFlight fingerprint lease]> records)
  | Some (InFlight existing _) =>
      (Ok (if bool_decide (existing = fingerprint) then ConcurrentInFlight else FingerprintConflict), records)
  | Some (Completed existing response) =>
      (Ok (if bool_decide (existing = fingerprint) then Replay response else FingerprintConflict), records)
  end.

Definition holds_lease (fingerprint : RequestFingerprint) (lease : ExecutionLease)
    (record : option RecordState) : bool :=
  match record with
  | Some (InFlight existing existing_lease) =>
      bool_decide (existing = fingerprint) && bool_decide (existing_lease = lease)
  | _ => false
  end.

Definition mem_complete (key : IdempotencyKey) (fingerprint : RequestFingerprint) (lease : ExecutionLease)
    (response : StoredResponse) (records : Records) : result bool IdempotencyError * Records :=
  if holds_lease fingerprint lease (records !! key)
  then (Ok true, <[key := Completed fingerprint response]> records)
  else (Ok false, records).

Definition mem_abort (key : IdempotencyKey) (fingerprint : RequestFingerprint) (lease : ExecutionLease)
    (records : Records) : result bool IdempotencyError * Records :=
  let owned := holds_lease fingerprint lease (records !! key) in
  (Ok owned, if owned then delete key records else records).

(** The mutex makes each operation one step. *)
Inductive Locked : Type → Type :=
| WithLock {B} (body : Records → B * Records) : Locked B.

Definition locked_serve {B} (stmt : Locked B) : Records → B → Records → Prop :=
  match stmt in Locked B return Records → B → Records → Prop with
  | WithLock body => λ s answer s', body s = (answer, s')
  end.

Definition InMemoryIdempotencyStore : Backend := {|
  Stmt := Locked;
  Store := Records;
  Slot := IdempotencyKey;
  slot_of key := key;
  view records key := records !! key;
  serve := @locked_serve;
  elapse := eq;
  fresh_store records := records = ∅;
  begin key fingerprint lease := ask (WithLock (mem_begin key fingerprint lease));
  complete key fingerprint lease response := ask (WithLock (mem_complete key fingerprint lease response));
  abort key fingerprint lease := ask (WithLock (mem_abort key fingerprint lease))
|}.

#[local] Existing Instance InMemoryIdempotencyStore.

(** Claimed once, completed once. *)
Inductive record_moves : option RecordState → option RecordState → Prop :=
| record_same r : record_moves r r
| record_claimed fingerprint lease : record_moves None (Some (InFlight fingerprint lease))
| record_completed fingerprint lease response :
    record_moves (Some (InFlight fingerprint lease)) (Some (Completed fingerprint response)).

Lemma holds_lease_true fingerprint lease record :
  holds_lease fingerprint lease record = true ↔ record = Some (InFlight fingerprint lease).
Proof.
  destruct record as [[fp l|fp r]|]; simpl; [|by split..].
  rewrite andb_true_iff, !bool_decide_eq_true. naive_solver.
Qed.

(** One atomic step, of what the caller knows. *)
Lemma safe_locked {B} (body : Records → B * Records) Q R h :
  let S := λ s s', (∀ k, record_moves (s !! k) (s' !! k)) ∧ R s s' in
  (∀ s answer s', body s = (answer, s') → S s s' ∧
     ∀ past, Q answer (mkHistory s' (s :: past)) ) →
  (∀ answer h h', rtc (grown (λ s s' : Records, ∀ k, record_moves (s !! k) (s' !! k))) h h' →
     Q answer h → Q answer h') →
  safely (@store_handle _) (λ _, True) (rtc (grown (λ s s', ∀ k, record_moves (s !! k) (s' !! k))))
    (grown S) (ask (WithLock body)) Q h.
Proof.
  intros S Hbody HQ. apply safe_ask. intros [s1 past1] answer h2 _ _ (s2 & Hb & ->). simpl in Hb.
  destruct (Hbody _ _ _ Hb) as [HS HQ2]. split; [done|]. split; [by exists s2|].
  intros h3 H23 _. eapply HQ; [exact H23|]. apply HQ2.
Qed.

Lemma evidence_later `{Backend} R key fp l answer h h' :
  rtc (grown R) h h' → begin_evidence key fp l answer h → begin_evidence key fp l answer h'.
Proof.
  intros Hh. destruct answer as [[]|]; simpl; try done.
  - by apply was_later with R.
  - by apply was_later with R.
  - intros (r & Hr). exists r. by eapply was_later.
  - intros (r & Hr & Hne). exists r. split; [by eapply was_later|done].
Qed.

Lemma completed_later `{Backend} R key fp r answer h h' :
  rtc (grown R) h h' → complete_evidence key fp r answer h → complete_evidence key fp r answer h'.
Proof. intros Hh Hc Ha. eapply was_later; [done|auto]. Qed.

#[export] Instance in_memory_contract : StoreContract InMemoryIdempotencyStore.
Proof.
  refine {| store_ok := λ _ : @Store InMemoryIdempotencyStore, True;
            move := λ (s s' : @Store InMemoryIdempotencyStore),
              ∀ k : IdempotencyKey, record_moves (view s k) (view s' k) |}.
  - simpl. intros s ->. split; [done|]. intros k. apply lookup_empty.
  - simpl. intros s s' _ <-. split; [done|]. split; [|done]. intros k. constructor.
  - intros key fp l h _ _ _. apply safe_locked; [|intros a h1 h2; apply (@evidence_later InMemoryIdempotencyStore)].
    intros s answer s'. unfold mem_begin. destruct (s !! key) as [[fp' l'|fp' r']|] eqn:Hk; intros [= <- <-].
    + split; [split; [constructor|by left]|]. intros past. case_bool_decide; simpl.
      * exists (InFlight fp' l'). by apply was_now.
      * exists (InFlight fp' l'). split; [by apply was_now|done].
    + split; [split; [constructor|by left]|]. intros past. case_bool_decide; simpl; subst.
      * by apply was_now.
      * exists (Completed fp' r'). split; [by apply was_now|done].
    + split; [split|].
      * intros k. destruct (decide (k = key)) as [->|Hne]; simpl.
        -- rewrite lookup_insert_eq, Hk. constructor.
        -- rewrite lookup_insert_ne by done. constructor.
      * intros k r. simpl. intros [[<- <-]|[_ ?]]%lookup_insert_Some; auto.
      * intros past. apply was_now. apply lookup_insert_eq.
  - intros key fp l r h _ _ _ _. apply safe_locked; [|intros a h1 h2; apply (@completed_later InMemoryIdempotencyStore)].
    intros s answer s'. unfold mem_complete. destruct (holds_lease _ _ _) eqn:Hl; intros [= <- <-].
    + apply holds_lease_true in Hl. split; [split|].
      * intros k. destruct (decide (k = key)) as [->|Hne]; simpl.
        -- rewrite lookup_insert_eq, Hl. constructor.
        -- rewrite lookup_insert_ne by done. constructor.
      * intros k r'. simpl. intros [[<- <-]|[_ ?]]%lookup_insert_Some; auto.
      * intros past _. apply was_now. apply lookup_insert_eq.
    + split; [split; [constructor|by left]|]. by intros past.
Defined.

#[export] Instance in_memory_durable : DurableContract InMemoryIdempotencyStore.
Proof.
  refine {| epoch := λ (s : @Store InMemoryIdempotencyStore) (k : IdempotencyKey),
              match view s k with None => O | Some _ => 1%nat end |}.
  - simpl. by intros s k ->.
  - done.
  - simpl. intros s s' k _ Hm. destruct (Hm k) as [[[]|]| |]; simpl; eauto.
  - simpl. intros s s' k _ Hm. destruct (Hm k) as [[[]|]| |]; split; simpl; try lia; naive_solver.
Defined.

(** The execution right of a key is given out once. *)
Lemma in_memory_epoch (s : Records) (k : IdempotencyKey) : (epoch s k ≤ 1)%nat.
Proof. simpl. destruct (s !! k); lia. Qed.
