(* ===== verification/IdempotencyPg.v ===== *)
(** * The durable idempotency store

    Models [naidempotency-pgsql/src/lib.rs]: the table
    [idempotency_record_v2] with its constraints, the statements of the store as
    functions on it, and [begin], [complete] and [abort] as programs of those
    statements.  Outside a transaction every statement commits on its own, so
    others may act between two of them; any statement may fail, before or after
    it took effect.  [clock_timestamp()] moves while a statement runs: a
    statement is given the successive readings it takes. *)

From Stdlib Require Import ZArith Lia.
From S2P Require Import Prelude AsyncProg Bytes SagaIdentity SagaState Idempotency.
From stdpp Require Import prelude strings list gmap relations.

Local Open Scope Z_scope.
Local Open Scope rust_scope.

(** serde_json on a list of headers: what was written is read back. *)
Class HeaderJson := {
  headers_to_vec : list StoredHeader → list Z;
  headers_from_slice : list Z → option (list StoredHeader);
  headers_roundtrip headers : headers_from_slice (headers_to_vec headers) = Some headers
}.

Definition STATE_IN_FLIGHT : Z := 0.
Definition STATE_COMPLETED : Z := 1.
Definition LEASE_MILLIS : Z := 5 * 60 * 1000.

(** ** The table *)

Record IdempotencyRow := mkIdempotencyRow {
  ir_fingerprint : list Z;
  ir_lease : list Z;
  ir_generation : Z;
  ir_state : Z;
  ir_status : option Z;
  ir_body : option (list Z);
  ir_headers : option (list Z);
  ir_lease_expires_at_ms : Z;
  ir_created_at_ms : Z;
  ir_updated_at_ms : Z
}.

Abbreviation IdempotencyRows := (gmap IdempotencyKey IdempotencyRow).

Record PgIdempotency := mkPgIdempotency { pg_rows : IdempotencyRows; pg_clock : Z }.

Definition octets_between (lo hi : Z) (s : string) : bool := (lo <=? len s) && (len s <=? hi).

(** The CHECK constraints and the column types. *)
Definition row_checks (key : IdempotencyKey) (row : IdempotencyRow) : bool :=
  octets_between 1 128 (key_tenant key) && octets_between 1 190 (key_subject key)
  && octets_between 1 190 (key_route_id key) && octets_between 1 190 (key_client_key key)
  && (length (ir_fingerprint row) =? 32)%nat && (length (ir_lease row) =? 16)%nat
  && (0 <? ir_generation row) && is_i64 (ir_generation row)
  && ((ir_state row =? 0) || (ir_state row =? 1))
  && match ir_status row with Some status => status_storable status | None => true end
  && (0 <=? ir_lease_expires_at_ms row) && is_i64 (ir_lease_expires_at_ms row)
  && (0 <=? ir_created_at_ms row) && (0 <=? ir_updated_at_ms row).

(** ** The statements *)

(** A statement on the table, with the readings of the clock it takes in
    order; the number of rows affected is its answer. *)
Definition Sql (A : Type) : Type := (nat → Z) → IdempotencyRows → result (A * IdempotencyRows) unit.

(** [INSERT ... ON CONFLICT ... DO NOTHING]. *)
Definition insert_record (key : IdempotencyKey) (fingerprint : RequestFingerprint)
    (lease : ExecutionLease) : Sql Z := λ clock rows,
  let row := {| ir_fingerprint := fp_bytes fingerprint; ir_lease := lease_bytes lease;
                ir_generation := 1; ir_state := STATE_IN_FLIGHT;
                ir_status := None; ir_body := None; ir_headers := None;
                ir_lease_expires_at_ms := clock 0%nat + LEASE_MILLIS;
                ir_created_at_ms := clock 1%nat; ir_updated_at_ms := clock 2%nat |} in
  if row_checks key row then
    match rows !! key with
    | None => Ok (1, <[key := row]> rows)
    | Some _ => Ok (0, rows)
    end
  else Err tt.

Definition update_record (key : IdempotencyKey) (where_ : IdempotencyRow → bool)
    (set_ : IdempotencyRow → IdempotencyRow) : Sql Z := λ _ rows,
  match rows !! key with
  | Some row =>
      if where_ row then
        if row_checks key (set_ row) then Ok (1, <[key := set_ row]> rows) else Err tt
      else Ok (0, rows)
  | None => Ok (0, rows)
  end.

(** The takeover of an expired lease by the same request. *)
Definition takeover_record (key : IdempotencyKey) (fingerprint : RequestFingerprint)
    (lease : ExecutionLease) : Sql Z := λ clock,
  update_record key
    (λ row, (ir_state row =? STATE_IN_FLIGHT) && bool_decide (ir_fingerprint row = fp_bytes fingerprint)
            && (ir_lease_expires_at_ms row <? clock 0%nat))
    (λ row, {| ir_fingerprint := fp_bytes fingerprint; ir_lease := lease_bytes lease;
               ir_generation := ir_generation row + 1; ir_state := ir_state row;
               ir_status := None; ir_body := None; ir_headers := None;
               ir_lease_expires_at_ms := clock 1%nat + LEASE_MILLIS;
               ir_created_at_ms := ir_created_at_ms row; ir_updated_at_ms := clock 2%nat |})
    clock.

Definition owned_by (fingerprint : RequestFingerprint) (lease : ExecutionLease) (row : IdempotencyRow) : bool :=
  (ir_state row =? STATE_IN_FLIGHT) && bool_decide (ir_fingerprint row = fp_bytes fingerprint)
  && bool_decide (ir_lease row = lease_bytes lease).

Definition complete_record `{HeaderJson} (key : IdempotencyKey) (fingerprint : RequestFingerprint)
    (lease : ExecutionLease) (response : StoredResponse) : Sql Z := λ clock,
  update_record key (owned_by fingerprint lease)
    (λ row, {| ir_fingerprint := ir_fingerprint row; ir_lease := ir_lease row;
               ir_generation := ir_generation row; ir_state := STATE_COMPLETED;
               ir_status := Some (stored_status response); ir_body := Some (stored_body response);
               ir_headers := Some (headers_to_vec (stored_headers response));
               ir_lease_expires_at_ms := ir_lease_expires_at_ms row;
               ir_created_at_ms := ir_created_at_ms row; ir_updated_at_ms := clock 0%nat |})
    clock.

Definition delete_record (key : IdempotencyKey) (fingerprint : RequestFingerprint)
    (lease : ExecutionLease) : Sql Z := λ _ rows,
  match rows !! key with
  | Some row => if owned_by fingerprint lease row then Ok (1, delete key rows) else Ok (0, rows)
  | None => Ok (0, rows)
  end.

Definition select_record (key : IdempotencyKey) : Sql (option IdempotencyRow) := λ _ rows,
  Ok (rows !! key, rows).

(** ** The store *)

Inductive PgStmt : Type → Type :=
| Statement {A} (sql : Sql A) : PgStmt (result A unit).

(** The readings of a statement that runs from [from] to [to]. *)
Definition readings (from to : Z) (clock : nat → Z) : Prop :=
  from ≤ clock 0%nat ∧ ∀ n, clock n ≤ clock (S n) ∧ clock n ≤ to.

Definition pg_serve {B} (stmt : PgStmt B) : PgIdempotency → B → PgIdempotency → Prop :=
  match stmt in PgStmt B return PgIdempotency → B → PgIdempotency → Prop with
  | Statement sql => λ s answer s',
      ∃ clock, pg_clock s ≤ pg_clock s' ∧ readings (pg_clock s) (pg_clock s') clock ∧
        match sql clock (pg_rows s) with
        | Ok (x, rows) => (answer = Ok x ∧ pg_rows s' = rows)
                          ∨ (answer = Err tt ∧ (pg_rows s' = pg_rows s ∨ pg_rows s' = rows))
        | Err _ => answer = Err tt ∧ pg_rows s' = pg_rows s
        end
  end.

Definition execute {A} (sql : Sql A) : Prog PgStmt (result A IdempotencyError) :=
  await answer := ask (Statement sql) in
  Done (map_err (λ _, IdempotencyError_new "database error") answer).

(** [pg_validate_key]. *)
Definition component_ok (value : string) (max : Z) : bool :=
  negb (is_empty value || (max <? len value) || existsb (λ b, b =? 0) (as_bytes value)).

Definition pg_validate_key (key : IdempotencyKey) : result unit IdempotencyError :=
  ensure component_ok (key_tenant key) 128 && component_ok (key_subject key) 190
         && component_ok (key_route_id key) 190 && component_ok (key_client_key key) 190
    else IdempotencyError_new "invalid idempotency key" in
  Ok tt.

Definition corrupt : IdempotencyError := IdempotencyError_new "corrupt idempotency record".

(** What [decide_existing] makes of a completed row. *)
Definition row_response `{HeaderJson} (row : IdempotencyRow) : result StoredResponse IdempotencyError :=
  let? status := ok_or (match ir_status row with
                        | Some status => if status_storable status then Some status else None
                        | None => None
                        end) corrupt in
  let? body := ok_or (ir_body row) corrupt in
  let? headers := ok_or (ir_headers row) corrupt in
  let? headers := ok_or (headers_from_slice headers) corrupt in
  Ok (mkStoredResponse status body headers).

Definition decide_row `{HeaderJson} (fingerprint : RequestFingerprint) (row : option IdempotencyRow)
    : result IdempotencyOutcome IdempotencyError :=
  match row with
  | None => Ok ConcurrentInFlight
  | Some row =>
      if negb (bool_decide (ir_fingerprint row = fp_bytes fingerprint)) then Ok FingerprintConflict
      else if ir_state row =? STATE_IN_FLIGHT then Ok ConcurrentInFlight
      else if negb (ir_state row =? STATE_COMPLETED) then Err corrupt
      else let? response := row_response row in Ok (Replay response)
  end.

Definition decide_existing `{HeaderJson} (key : IdempotencyKey) (fingerprint : RequestFingerprint)
    : Prog PgStmt (result IdempotencyOutcome IdempotencyError) :=
  await? row := execute (select_record key) in
  Done (decide_row fingerprint row).

Definition pg_begin `{HeaderJson} (key : IdempotencyKey) (fingerprint : RequestFingerprint)
    (lease : ExecutionLease) : Prog PgStmt (result IdempotencyOutcome IdempotencyError) :=
  match pg_validate_key key with
  | Err error => Done (Err error)
  | Ok _ =>
      await? inserted := execute (insert_record key fingerprint lease) in
      if inserted =? 1 then Done (Ok FirstExecution)
      else
        await? takeover := execute (takeover_record key fingerprint lease) in
        if takeover =? 1 then Done (Ok FirstExecution) else decide_existing key fingerprint
  end.

Definition pg_complete `{HeaderJson} (key : IdempotencyKey) (fingerprint : RequestFingerprint)
    (lease : ExecutionLease) (response : StoredResponse) : Prog PgStmt (result bool IdempotencyError) :=
  match pg_validate_key key with
  | Err error => Done (Err error)
  | Ok _ =>
      await? affected := execute (complete_record key fingerprint lease response) in
      Done (Ok (affected =? 1))
  end.

Definition pg_abort (key : IdempotencyKey) (fingerprint : RequestFingerprint) (lease : ExecutionLease)
    : Prog PgStmt (result bool IdempotencyError) :=
  match pg_validate_key key with
  | Err error => Done (Err error)
  | Ok _ =>
      await? affected := execute (delete_record key fingerprint lease) in
      Done (Ok (affected =? 1))
  end.

(** The record a row stands for. *)
Definition row_record `{HeaderJson} (row : IdempotencyRow) : option RecordState :=
  let fingerprint := mkFingerprint (ir_fingerprint row) in
  if ir_state row =? STATE_IN_FLIGHT then Some (InFlight fingerprint (mkLease (ir_lease row)))
  else match row_response row with
       | Ok response => Some (Completed fingerprint response)
       | Err _ => None
       end.

Definition PgIdempotencyStore `{HeaderJson} : Backend := {|
  Stmt := PgStmt;
  Store := PgIdempotency;
  Slot := IdempotencyKey;
  slot_of key := key;
  view s key := pg_rows s !! key ≫= row_record;
  serve := @pg_serve;
  elapse s s' := pg_rows s' = pg_rows s ∧ pg_clock s ≤ pg_clock s';
  fresh_store s := pg_rows s = ∅;
  begin := pg_begin;
  complete := pg_complete;
  abort := pg_abort
|}.

#[local] Existing Instance PgIdempotencyStore.

(** ** The ends of a transaction *)

Inductive TxRunError (E : Type) :=
| Tx_Rollback (error : E)
| Tx_RollbackOnly
| Tx_CommitRejected
| Tx_CommitUncertain
| Tx_RollbackFailed
| Tx_Infrastructure.
Arguments Tx_Rollback {E} error.
Arguments Tx_RollbackOnly {E}.
Arguments Tx_CommitRejected {E}.
Arguments Tx_CommitUncertain {E}.
Arguments Tx_RollbackFailed {E}.
Arguments Tx_Infrastructure {E}.

Inductive PgIdempotencyTransactionError (E : Type) :=
| Business (error : E)
| RollbackOnly
| CommitRejected
| OutcomeUnknown
| RollbackFailed
| Infrastructure.
Arguments Business {E} error.
Arguments RollbackOnly {E}.
Arguments CommitRejected {E}.
Arguments OutcomeUnknown {E}.
Arguments RollbackFailed {E}.
Arguments Infrastructure {E}.

Definition map_transaction_error {E} (error : TxRunError E) : PgIdempotencyTransactionError E :=
  match error with
  | Tx_Rollback error => Business error
  | Tx_RollbackOnly => RollbackOnly
  | Tx_CommitRejected => CommitRejected
  | Tx_CommitUncertain => OutcomeUnknown
  | Tx_RollbackFailed => RollbackFailed
  | Tx_Infrastructure => Infrastructure
  end.

Definition is_outcome_unknown {E} (error : PgIdempotencyTransactionError E) : bool :=
  match error with OutcomeUnknown => true | _ => false end.

(** ** The contract *)

Section contract.
Context `{HeaderJson}.
Implicit Types s : PgIdempotency.

(** A row is either in flight or can be replayed. *)
Definition record_row_ok (row : IdempotencyRow) : Prop :=
  0 < ir_generation row ∧
  (ir_state row = STATE_IN_FLIGHT ∨ ir_state row = STATE_COMPLETED ∧ is_ok (row_response row) = true).

Definition pg_ok s : Prop := ∀ key row, pg_rows s !! key = Some row → record_row_ok row.

(** How a row changes between the times [from] and [to]. *)
Inductive row_moves (from to : Z) : option IdempotencyRow → option IdempotencyRow → Prop :=
| row_same r : row_moves from to r r
| row_inserted row :
    ir_state row = STATE_IN_FLIGHT → ir_generation row = 1 →
    from + LEASE_MILLIS ≤ ir_lease_expires_at_ms row → ir_lease_expires_at_ms row ≤ to + LEASE_MILLIS →
    row_moves from to None (Some row)
| row_taken_over row row' :
    ir_state row = STATE_IN_FLIGHT → ir_state row' = STATE_IN_FLIGHT →
    ir_fingerprint row' = ir_fingerprint row → ir_generation row' = ir_generation row + 1 →
    ir_lease_expires_at_ms row + LEASE_MILLIS ≤ ir_lease_expires_at_ms row' →
    ir_lease_expires_at_ms row' ≤ to + LEASE_MILLIS →
    row_moves from to (Some row) (Some row')
| row_completed row row' :
    ir_state row = STATE_IN_FLIGHT → ir_state row' = STATE_COMPLETED →
    is_ok (row_response row') = true →
    ir_fingerprint row' = ir_fingerprint row → ir_generation row' = ir_generation row →
    ir_lease_expires_at_ms row' = ir_lease_expires_at_ms row →
    row_moves from to (Some row) (Some row').

Definition pg_move s s' : Prop :=
  pg_clock s ≤ pg_clock s' ∧
  ∀ key, row_moves (pg_clock s) (pg_clock s') (pg_rows s !! key) (pg_rows s' !! key).

Lemma row_moves_ok from to row row' :
  row_moves from to (Some row) (Some row') → record_row_ok row → record_row_ok row'.
Proof. intros Hm [Hg Hs]. inversion Hm; subst; split; try lia; auto; done. Qed.

Lemma pg_move_ok s s' : pg_move s s' → pg_ok s → pg_ok s'.
Proof.
  intros [_ Hm] Hok key row' Hr. specialize (Hm key). rewrite Hr in Hm.
  destruct (pg_rows s !! key) as [row|] eqn:Hk.
  - eapply row_moves_ok; [exact Hm|by eapply Hok].
  - inversion Hm; subst. split; [lia|auto].
Qed.

Lemma still_moves s s' : pg_clock s ≤ pg_clock s' → pg_rows s' = pg_rows s → pg_move s s'.
Proof. intros Hc Hr. split; [done|]. intros key. rewrite Hr. constructor. Qed.

Lemma row_view row : record_row_ok row →
  ∃ record, row_record row = Some record ∧ record_fingerprint record = mkFingerprint (ir_fingerprint row).
Proof.
  intros [_ [Hs|[Hs Hr]]]; unfold row_record; rewrite Hs; simpl; [eauto|].
  destruct (row_response row); [eauto|done].
Qed.

Lemma pg_view s key row : pg_rows s !! key = Some row → record_row_ok row →
  ∃ record, view s key = Some record ∧ record_fingerprint record = mkFingerprint (ir_fingerprint row).
Proof. intros Hk Hok. simpl. rewrite Hk. simpl. by apply row_view. Qed.

Lemma fingerprint_eta fp bytes : bytes = fp_bytes fp → mkFingerprint bytes = fp.
Proof. intros ->. by destruct fp. Qed.
Lemma lease_eta l bytes : bytes = lease_bytes l → mkLease bytes = l.
Proof. intros ->. by destruct l. Qed.

(** One statement: what it does when it takes effect, and what is known then. *)
Definition takes_effect {A} (sql : Sql A) (G : PgIdempotency → PgIdempotency → Prop)
    (R : A → History PgIdempotency → Prop) : Prop :=
  ∀ s s' clock x past, pg_ok s → pg_clock s ≤ pg_clock s' → readings (pg_clock s) (pg_clock s') clock →
    sql clock (pg_rows s) = Ok (x, pg_rows s') →
    pg_move s s' ∧ G s s' ∧ R x (mkHistory s' (s :: past)).

Lemma safe_execute {A} (sql : Sql A) G R h :
  takes_effect sql G R → (∀ s s', pg_rows s' = pg_rows s → G s s') →
  (∀ x h1 h2, rtc (grown pg_move) h1 h2 → R x h1 → R x h2) →
  pg_ok (present h) →
  safely (@store_handle PgIdempotencyStore) (pg_ok ∘ present) (rtc (grown pg_move))
    (grown (λ s s', pg_move s s' ∧ G s s')) (execute sql)
    (λ r h', match r with Ok x => R x h' | Err _ => True end) h.
Proof.
  intros Hsql HG HR Hok. unfold execute. eapply (safe_bind _ _
    (λ r h', match r with Ok x => R x h' | Err _ => True end)); [| |done].
  - apply safe_ask. intros [s1 past] answer h2 H1 Hok1 (s2 & (clock & Hc & Hrd & Hans) & ->).
    unfold compose in *. cbn [present push] in *.
    assert (Hstill : pg_rows s2 = pg_rows s1 → pg_ok s2 ∧ grown (λ s s', pg_move s s' ∧ G s s')
      (mkHistory s1 past) (push s2 (mkHistory s1 past))).
    { intros He. assert (pg_move s1 s2) by by apply still_moves. split; [by eapply pg_move_ok|].
      exists s2. auto. }
    assert (Heff : ∀ x, sql clock (pg_rows s1) = Ok (x, pg_rows s2) → pg_ok s2 ∧
      grown (λ s s', pg_move s s' ∧ G s s') (mkHistory s1 past) (push s2 (mkHistory s1 past)) ∧
      R x (push s2 (mkHistory s1 past))).
    { intros x Hx. destruct (Hsql s1 s2 clock x past) as (Hm & HGs & HRx); try done.
      split; [by eapply pg_move_ok|]. split; [by exists s2|done]. }
    destruct (sql clock (pg_rows s1)) as [[x rows]|[]] eqn:Hx.
    + destruct Hans as [[-> <-]|[-> [He|<-]]].
      * destruct (Heff x eq_refl) as (? & ? & HRx). do 2 (split; [done|]). intros h3 H3 _. by eapply HR.
      * destruct (Hstill He). done.
      * by destruct (Heff x eq_refl) as (? & ? & _).
    + destruct Hans as [-> He]. by destruct (Hstill He).
  - intros [x|e] h' Hl Hok' Hr; simpl; [|done]. intros h2 H2 _. by eapply HR.
Qed.

(** What every statement that touches one row is shown by. *)
Lemma row_effect s s' key row' :
  pg_clock s ≤ pg_clock s' → pg_rows s' = <[key := row']> (pg_rows s) →
  row_moves (pg_clock s) (pg_clock s') (pg_rows s !! key) (Some row') → pg_move s s'.
Proof.
  intros Hc Hr Hm. split; [done|]. intros k. rewrite Hr.
  destruct (decide (k = key)) as [->|Hne]; [by rewrite lookup_insert_eq|].
  rewrite lookup_insert_ne by done. constructor.
Qed.

Lemma view_effect s s' key row' slot record :
  pg_rows s' = <[key := row']> (pg_rows s) → view s' slot = Some record →
  (slot = key ∧ row_record row' = Some record) ∨ view s slot = Some record.
Proof.
  intros Hr. simpl. rewrite Hr. destruct (decide (slot = key)) as [->|Hne].
  - rewrite lookup_insert_eq. auto.
  - rewrite lookup_insert_ne by done. auto.
Qed.

Lemma same_view s s' slot record :
  pg_rows s' = pg_rows s → view s' slot = Some record → view s slot = Some record.
Proof. simpl. by intros ->. Qed.

Lemma in_flight_record row fp l :
  ir_state row = STATE_IN_FLIGHT → ir_fingerprint row = fp_bytes fp → ir_lease row = lease_bytes l →
  row_record row = Some (InFlight fp l).
Proof. intros Hs Hf Hl. unfold row_record. by rewrite Hs, (fingerprint_eta _ _ Hf), (lease_eta _ _ Hl). Qed.

Lemma update_effect key where_ set_ clock s s' x :
  update_record key where_ set_ clock (pg_rows s) = Ok (x, pg_rows s') →
  (x = 0 ∧ pg_rows s' = pg_rows s) ∨
  ∃ row, x = 1 ∧ pg_rows s !! key = Some row ∧ where_ row = true ∧ row_checks key (set_ row) = true ∧
    pg_rows s' = <[key := set_ row]> (pg_rows s).
Proof.
  unfold update_record. destruct (pg_rows s !! key) as [row|] eqn:Hk; [|intros [= <- <-]; auto].
  destruct (where_ row) eqn:Hw; [|intros [= <- <-]; auto].
  destruct (row_checks key (set_ row)) eqn:Hc; [|done]. intros [= <- <-]. right. by exists row.
Qed.

Lemma insert_takes_effect key fp l :
  takes_effect (insert_record key fp l) (begins key fp l)
    (λ x h, if x =? 1 then was h key (InFlight fp l) else ∃ record, was h key record).
Proof.
  intros s s' clock x past Hok Hc (H0 & Hn) Hsql. unfold insert_record in Hsql.
  destruct (row_checks _ _); [|done].
  destruct (pg_rows s !! key) as [row|] eqn:Hk; injection Hsql as <- Hr; symmetry in Hr.
  - split; [by apply still_moves|]. split; [intros slot record Hv; left; by eapply same_view|].
    destruct (pg_view s key row Hk (Hok _ _ Hk)) as (record & Hv & _). exists record.
    apply was_now. simpl in *. by rewrite Hr.
  - destruct (Hn 0%nat). split; [|split].
    + eapply row_effect; [done|exact Hr|]. rewrite Hk. constructor; simpl; try done; lia.
    + intros slot record Hv. destruct (view_effect _ _ _ _ _ _ Hr Hv) as [[-> Hrec]|?]; [right|by left].
      split; [done|]. by rewrite (in_flight_record _ fp l) in Hrec by done; injection Hrec.
    + apply was_now. simpl. rewrite Hr, lookup_insert_eq. simpl. by apply in_flight_record.
Qed.

Lemma takeover_takes_effect key fp l :
  takes_effect (takeover_record key fp l) (begins key fp l)
    (λ x h, x = 1 → was h key (InFlight fp l)).
Proof.
  intros s s' clock x past Hok Hc (H0 & Hn) Hsql.
  apply (update_effect _ _ _ clock) in Hsql as [[-> Hr]|(row & -> & Hk & Hw & _ & Hr)].
  - split; [by apply still_moves|]. split; [intros slot record Hv; left; by eapply same_view|done].
  - apply andb_prop in Hw as [[Hst%Z.eqb_eq Hfp%bool_decide_eq_true]%andb_prop Hexp%Z.ltb_lt].
    destruct (Hn 0%nat), (Hn 1%nat). split; [|split].
    + eapply row_effect; [done|exact Hr|]. rewrite Hk. apply row_taken_over; simpl; try done; lia.
    + intros slot record Hv. destruct (view_effect _ _ _ _ _ _ Hr Hv) as [[-> Hrec]|?]; [right|by left].
      split; [done|]. by rewrite (in_flight_record _ fp l) in Hrec by done; injection Hrec.
    + intros _. apply was_now. simpl. rewrite Hr, lookup_insert_eq. simpl. by apply in_flight_record.
Qed.

Lemma select_takes_effect key fp l G :
  (∀ s s', pg_rows s' = pg_rows s → G s s') →
  takes_effect (select_record key) G
    (λ row h, is_Some row → begin_evidence key fp l (decide_row fp row) h).
Proof.
  intros HG s s' clock row past Hok Hc _ [= <- Hr]. symmetry in Hr.
  split; [by apply still_moves|]. split; [by apply HG|]. intros [row Hk]. rewrite Hk. simpl.
  pose proof (Hok _ _ Hk) as Hrow. destruct (row_view row Hrow) as (record & Hrec & Hfp).
  assert (Hv : was (mkHistory s' (s :: past)) key record).
  { apply was_now. simpl. by rewrite Hr, Hk. }
  case_bool_decide as Hf; simpl.
  - destruct (Z.eqb_spec (ir_state row) STATE_IN_FLIGHT); [by exists record|].
    destruct (negb _); [done|]. destruct (row_response row) as [response|] eqn:Hresp; simpl; [|done].
    replace (Completed fp response) with record; [done|]. unfold row_record in Hrec.
    rewrite Hresp in Hrec. destruct (_ =? _) eqn:Hs; [by apply Z.eqb_eq in Hs|].
    injection Hrec as <-. by rewrite (fingerprint_eta fp).
  - exists record. split; [done|]. rewrite Hfp. intros Heq. apply Hf. by rewrite <- Heq.
Qed.

Lemma row_response_stored row response :
  status_storable (stored_status response) = true →
  ir_status row = Some (stored_status response) → ir_body row = Some (stored_body response) →
  ir_headers row = Some (headers_to_vec (stored_headers response)) → row_response row = Ok response.
Proof.
  intros Hs H1 H2 H3. unfold row_response. rewrite H1, H2, H3, Hs. simpl.
  rewrite headers_roundtrip. by destruct response.
Qed.

Lemma complete_takes_effect key fp l response :
  status_storable (stored_status response) = true →
  takes_effect (complete_record key fp l response) (completes key fp l response)
    (λ x h, x = 1 → was h key (Completed fp response)).
Proof.
  intros Hst s s' clock x past Hok Hc _ Hsql.
  apply (update_effect _ _ _ clock) in Hsql as [[-> Hr]|(row & -> & Hk & Hw & _ & Hr)].
  - split; [by apply still_moves|]. split; [intros slot record Hv; left; by eapply same_view|done].
  - apply andb_prop in Hw as [[Hs%Z.eqb_eq Hfp%bool_decide_eq_true]%andb_prop Hl%bool_decide_eq_true].
    set (row' := mkIdempotencyRow _ _ _ _ _ _ _ _ _ _) in Hr.
    assert (Hresp : row_response row' = Ok response) by by apply row_response_stored.
    assert (Hrec : row_record row' = Some (Completed fp response)).
    { unfold row_record. rewrite Hresp. simpl. by rewrite (fingerprint_eta fp). }
    split; [|split].
    + eapply row_effect; [done|exact Hr|]. rewrite Hk. apply row_completed; try done. by rewrite Hresp.
    + intros slot record Hv. destruct (view_effect _ _ _ _ _ _ Hr Hv) as [[-> Hrec']|?]; [right|by left].
      split; [done|]. split; [congruence|]. simpl. rewrite Hk. simpl. by apply in_flight_record.
    + intros _. apply was_now. simpl. by rewrite Hr, lookup_insert_eq.
Qed.

Lemma decide_safe key fp l G h :
  (∀ s s', pg_rows s' = pg_rows s → G s s') → pg_ok (present h) → (∃ record, was h key record) →
  safely (@store_handle PgIdempotencyStore) (pg_ok ∘ present) (rtc (grown pg_move))
    (grown (λ s s', pg_move s s' ∧ G s s')) (decide_existing key fp) (begin_evidence key fp l) h.
Proof.
  intros HG Hok (record & Hrec).
  eapply safe_try; [apply (safe_execute _ G); [by apply (select_takes_effect key fp l)|done| |done]|done| |done].
  - intros row h1 h2 H12 Hr Hs. eapply evidence_later; [exact H12|auto].
  - intros [row|] h1 H1 _ Hr h2 H2 _.
    + eapply evidence_later; [exact H2|]. by apply Hr.
    + exists record. eapply was_later; [|exact Hrec]. etrans; [exact H1|exact H2].
Qed.

#[export] Instance pg_contract : StoreContract PgIdempotencyStore.
Proof.
  refine {| store_ok := pg_ok : @Store PgIdempotencyStore → Prop;
            move := pg_move : @Store PgIdempotencyStore → @Store PgIdempotencyStore → Prop |}.
  - simpl. intros s Hs. split; [|intros k; by rewrite Hs].
    intros key row. by rewrite Hs, lookup_empty.
  - simpl. intros s s' Hok [Hr Hc]. assert (pg_move s s') by by apply still_moves.
    split; [by eapply pg_move_ok|]. split; [done|]. intros slot record. by rewrite Hr.
  - intros key fp l h Hok _ _. unfold begin, PgIdempotencyStore, pg_begin. destruct (pg_validate_key key); [|done].
    assert (Hrefl : ∀ s s', pg_rows s' = pg_rows s → begins key fp l s s').
    { intros s s' Hr slot record Hv. left. by eapply same_view. }
    eapply safe_try; [apply (safe_execute _ (@begins PgIdempotencyStore key fp l)); [apply insert_takes_effect|done| |done]|done| |done].
    { intros x h1 h2 H12. cbv beta. destruct (x =? 1).
      - by eapply was_later.
      - intros (record & Hw). exists record. by eapply was_later. }
    intros inserted h1 H1 Hok1 Hins. cbv beta iota in Hins. destruct (inserted =? 1).
    { intros h2 H2 _. exact (was_later _ _ _ _ _ H2 Hins). }
    eapply safe_try; [apply (safe_execute _ (@begins PgIdempotencyStore key fp l)); [apply takeover_takes_effect|done| |done]|done| |done].
    { intros x h2 h3 H23 Hx ->. eapply was_later; [exact H23|auto]. }
    intros takeover h2 H2 Hok2 Htake. destruct (Z.eqb_spec takeover 1).
    { intros h3 H3 _. eapply was_later; [exact H3|auto]. }
    destruct Hins as (record & Hrec). apply decide_safe; [done|done|].
    exists record. eapply was_later; [exact H2|done].
  - intros key fp l response h Hok _ _ Hst. unfold complete, PgIdempotencyStore, pg_complete.
    destruct (pg_validate_key key); [|done].
    eapply safe_try; [apply (safe_execute _ (@completes PgIdempotencyStore key fp l response));
      [by apply complete_takes_effect| | |done]|done| |done].
    { intros s s' Hr slot record Hv. left. by eapply same_view. }
    { intros x h2 h3 H23 Hx ->. eapply was_later; [exact H23|auto]. }
    intros affected h1 H1 _ Haff h2 H2 _ [= Ha%Z.eqb_eq]. eapply was_later; [exact H2|auto].
Defined.

(** The generation of a row counts its owners. *)
Definition generation (s : PgIdempotency) (key : IdempotencyKey) : nat :=
  match pg_rows s !! key with Some row => Z.to_nat (ir_generation row) | None => O end.

Lemma row_record_in_flight row fp l :
  row_record row = Some (InFlight fp l) → ir_state row = STATE_IN_FLIGHT.
Proof. unfold row_record. destruct (Z.eqb_spec (ir_state row) STATE_IN_FLIGHT); [done|by destruct (row_response row)]. Qed.

#[export] Instance pg_durable : DurableContract PgIdempotencyStore.
Proof.
  refine {| epoch := generation : @Store PgIdempotencyStore → @Slot PgIdempotencyStore → nat |}.
  - simpl. intros s k Hs. unfold generation. by rewrite Hs, lookup_empty.
  - simpl. intros s s' Hok Hm. by eapply pg_move_ok.
  - simpl. intros s s' k Hok [_ Hm]. specialize (Hm k). pose proof (Hok k) as Hk.
    destruct (pg_rows s !! k) as [row|]; [|done]. specialize (Hk _ eq_refl). simpl.
    destruct (row_view row Hk) as (record & Hrec & Hfp).
    revert Hm. generalize (pg_rows s' !! k). intros r' Hm. inversion Hm as [|?|? row' Hs Hs' Hf|? row' Hs Hs' Hr Hf]; subst; simpl.
    + rewrite Hrec. destruct record; simpl; [eauto|done].
    + destruct (row_view row') as (record' & Hrec' & Hfp'); [exact (row_moves_ok _ _ _ _ Hm Hk)|].
      rewrite (in_flight_record row (mkFingerprint (ir_fingerprint row)) (mkLease (ir_lease row)) Hs eq_refl eq_refl). simpl.
      exists record'. split; [done|]. by rewrite Hfp', Hf.
    + destruct (row_view row') as (record' & Hrec' & Hfp'); [exact (row_moves_ok _ _ _ _ Hm Hk)|].
      rewrite (in_flight_record row (mkFingerprint (ir_fingerprint row)) (mkLease (ir_lease row)) Hs eq_refl eq_refl). simpl.
      exists record'. split; [done|]. by rewrite Hfp', Hf.
  - simpl. intros s s' k Hok [_ Hm]. unfold generation. specialize (Hm k). pose proof (Hok k) as Hk.
    revert Hm Hk. generalize (pg_rows s !! k), (pg_rows s' !! k). intros r r' Hm Hk.
    inversion Hm as [?|row Hs Hg|row row' Hs Hs' Hf Hg|row row' Hs Hs' Hr Hf Hg]; subst.
    + split; [done|]. intros _ fp l. done.
    + split; [lia|]. intros. lia.
    + destruct (Hk _ eq_refl) as [? _]. split; [lia|]. intros. lia.
    + split; [lia|]. intros _ fp l Hv%row_record_in_flight. by rewrite Hs' in Hv.
Defined.

(** Every further owner waited for the lease of the one before to run out. *)
Lemma generation_bound s0 s key :
  fresh_store s0 → rtc pg_move s0 s →
  Z.of_nat (generation s key) * LEASE_MILLIS ≤ (pg_clock s - pg_clock s0) + LEASE_MILLIS.
Proof.
  intros H0 Hrun.
  assert (pg_clock s0 ≤ pg_clock s ∧ ∀ row, pg_rows s !! key = Some row →
    0 < ir_generation row ∧
    pg_clock s0 + ir_generation row * LEASE_MILLIS ≤ ir_lease_expires_at_ms row ≤ pg_clock s + LEASE_MILLIS)
    as [Hc Hrow].
  { apply (rtc_ind_r (λ s, pg_clock s0 ≤ pg_clock s ∧ ∀ row, pg_rows s !! key = Some row →
      0 < ir_generation row ∧
      pg_clock s0 + ir_generation row * LEASE_MILLIS ≤ ir_lease_expires_at_ms row
        ≤ pg_clock s + LEASE_MILLIS)) with (3 := Hrun).
    - split; [lia|]. intros row. simpl in H0. by rewrite H0, lookup_empty.
    - intros s1 s2 _ [Hc Hm] [Hc1 IH]. split; [lia|]. specialize (Hm key).
      revert Hm IH. generalize (pg_rows s1 !! key), (pg_rows s2 !! key). unfold LEASE_MILLIS.
      intros r r' Hm IH row ->. inversion Hm; subst; try destruct (IH _ eq_refl); split; unfold LEASE_MILLIS in *; lia. }
  unfold generation. destruct (pg_rows s !! key) as [row|]; unfold LEASE_MILLIS in *; [|lia].
  destruct (Hrow _ eq_refl). lia.
Qed.

(** *** Owners that lost their lease *)

(** [complete] and [abort] of anyone but the owner change nothing. *)
Lemma not_owner_still key fp l row response clock rows :
  rows !! key = Some row → owned_by fp l row = false →
  complete_record key fp l response clock rows = Ok (0, rows) ∧
  delete_record key fp l clock rows = Ok (0, rows).
Proof.
  intros Hk Ho. unfold complete_record, update_record, delete_record. by rewrite Hk, Ho.
Qed.
End contract.
