(* ===== verification/IdempotencyRedis.v ===== *)
(** * The idempotency store on Redis

    Models [naidempotency-redis/src/lib.rs]: the key text, the binary value of a
    record, the two scripts, and the store as programs of atomic commands.  A
    value may disappear at any moment (its time to live, an eviction), so the
    store gives evidence and no durability. *)

From Stdlib Require Import ZArith Lia Ascii.
From S2P Require Import Prelude AsyncProg Bytes SagaIdentity SagaState SagaDefinition.
From S2P Require Import Idempotency IdempotencyPg.
From stdpp Require Import prelude strings list gmap relations.

Local Open Scope Z_scope.
Local Open Scope rust_scope.

(** SHA-256 returns 32 bytes. *)
Class Digest32 (sha256 : list Z → list Z) : Prop := {
  digest_length x : length (sha256 x) = 32%nat;
  digest_range x : Forall (λ b, 0 ≤ b < 256) (sha256 x)
}.

(** ** Keys *)

Definition SEPARATOR : string := String (ascii_of_N 31) EmptyString.

Definition has_separator (component : string) : bool := existsb (λ b, b =? 31) (as_bytes component).

Definition key_components (key : IdempotencyKey) : list string :=
  [key_tenant key; key_subject key; key_route_id key; key_client_key key].

Definition redis_key (sha256 : list Z → list Z) (key : IdempotencyKey) : string :=
  if forallb (λ component, negb (has_separator component)) (key_components key) then
    "idem:" +:+ key_tenant key +:+ SEPARATOR +:+ key_subject key +:+ SEPARATOR
      +:+ key_route_id key +:+ SEPARATOR +:+ key_client_key key
  else "idem:v2:" +:+ hex_string (sha256 (canonical_bytes (map as_bytes (key_components key)))).

(** ** Values *)

(** [ttl] is [Duration::as_millis]. *)
Definition ttl_millis (ttl : Z) : result Z IdempotencyError :=
  ensure ttl <=? U64_MAX else IdempotencyError_new "invalid ttl" in
  ensure negb ((ttl =? 0) || (I64_MAX <? ttl)) else IdempotencyError_new "invalid ttl" in
  Ok ttl.

Definition encode_inflight (fingerprint : RequestFingerprint) (lease : ExecutionLease) : list Z :=
  STATE_IN_FLIGHT :: fp_bytes fingerprint ++ lease_bytes lease.

Definition encode_completed_suffix `{HeaderJson} (response : StoredResponse)
    : result (list Z) IdempotencyError :=
  let headers := headers_to_vec (stored_headers response) in
  let header_len := Z.of_nat (length headers) in
  ensure header_len <=? U32_MAX else IdempotencyError_new "headers too large" in
  Ok (to_le_bytes 2 (stored_status response) ++ to_le_bytes 4 header_len ++ headers ++ stored_body response).

Record Decoded := mkDecoded {
  decoded_state : Z;
  decoded_fingerprint : RequestFingerprint;
  decoded_response : option StoredResponse
}.

(** [&bytes[from..to]], for bounds the code has checked. *)
Definition slice (from to : nat) (bytes : list Z) : list Z := take (to - from) (drop from bytes).

Definition decode_response `{HeaderJson} (bytes : list Z) : option StoredResponse :=
  if (length bytes <? 39)%nat then None
  else
    let status := from_le_bytes (slice 33 35 bytes) in
    if negb (status_storable status) then None
    else
      match u64_checked_add 39 (from_le_bytes (slice 35 39 bytes)) with
      | None => None
      | Some body_start =>
          if Z.of_nat (length bytes) <? body_start then None
          else
            match headers_from_slice (slice 39 (Z.to_nat body_start) bytes) with
            | None => None
            | Some headers => Some (mkStoredResponse status (drop (Z.to_nat body_start) bytes) headers)
            end
      end.

Definition decode `{HeaderJson} (bytes : list Z) : option Decoded :=
  match bytes with
  | state :: _ =>
      if (length bytes <? 33)%nat then None
      else if negb ((state =? STATE_IN_FLIGHT) || (state =? STATE_COMPLETED)) then None
      else if (state =? STATE_IN_FLIGHT) && negb (length bytes =? 49)%nat then None
      else
        let fingerprint := mkFingerprint (slice 1 33 bytes) in
        if state =? STATE_COMPLETED then
          match decode_response bytes with
          | None => None
          | Some response => Some (mkDecoded state fingerprint (Some response))
          end
        else Some (mkDecoded state fingerprint None)
  | [] => None
  end.

(** ** Commands *)

(** A value with the time to live it was written with. *)
Abbreviation RedisValues := (gmap string (list Z * Z)).

(** [SET key value NX PX ttl]. *)
Definition set_nx (key : string) (value : list Z) (ttl : Z) (values : RedisValues)
    : option string * RedisValues :=
  match values !! key with
  | None => (Some "OK", <[key := (value, ttl)]> values)
  | Some _ => (None, values)
  end.

Definition get_value (key : string) (values : RedisValues) : option (list Z) * RedisValues :=
  (fst <$> values !! key, values).

(** [COMPLETE_LUA]; [string.sub(v, 2, 33)] counts from one. *)
Definition complete_lua (key : string) (expected suffix : list Z) (ttl : Z) (values : RedisValues)
    : Z * RedisValues :=
  match values !! key with
  | None => (0, values)
  | Some (v, _) =>
      if negb (bool_decide (v = expected)) then (0, values)
      else
        let fp := slice 1 33 v in
        (1, <[key := (STATE_COMPLETED :: fp ++ suffix, ttl)]> values)
  end.

Definition abort_lua (key : string) (expected : list Z) (values : RedisValues) : Z * RedisValues :=
  match values !! key with
  | None => (0, values)
  | Some (v, _) =>
      if negb (bool_decide (v = expected)) then (0, values) else (1, delete key values)
  end.

(** A command runs alone; the caller may see an error instead of its answer. *)
Inductive RedisStmt : Type → Type :=
| Command {A} (command : RedisValues → A * RedisValues) : RedisStmt (result A unit).

Definition redis_serve {B} (stmt : RedisStmt B) : RedisValues → B → RedisValues → Prop :=
  match stmt in RedisStmt B return RedisValues → B → RedisValues → Prop with
  | Command command => λ s answer s',
      let '(x, values) := command s in
      (answer = Ok x ∧ s' = values) ∨ (answer = Err tt ∧ (s' = s ∨ s' = values))
  end.

Definition execute_raw {A} (command : RedisValues → A * RedisValues)
    : Prog RedisStmt (result A IdempotencyError) :=
  await answer := ask (Command command) in
  Done (map_err (λ _, IdempotencyError_new "redis error") answer).

(** ** The store *)

Section store.
Context `{HeaderJson} (sha256 : list Z → list Z) (inflight_ttl completed_ttl : Z).

(** How [begin] reads a value it found. *)
Definition decide_value (fingerprint : RequestFingerprint) (existing : option (list Z))
    : result IdempotencyOutcome IdempotencyError :=
  match existing with
  | None => Ok ConcurrentInFlight
  | Some bytes =>
      match decode bytes with
      | None => Err corrupt
      | Some decoded =>
          if negb (bool_decide (decoded_fingerprint decoded = fingerprint)) then Ok FingerprintConflict
          else if decoded_state decoded =? STATE_COMPLETED then
            let? response := ok_or (decoded_response decoded) corrupt in
            Ok (Replay response)
          else Ok ConcurrentInFlight
      end
  end.

Definition redis_begin (key : IdempotencyKey) (fingerprint : RequestFingerprint) (lease : ExecutionLease)
    : Prog RedisStmt (result IdempotencyOutcome IdempotencyError) :=
  match ttl_millis inflight_ttl with
  | Err error => Done (Err error)
  | Ok ttl =>
      await? claimed := execute_raw (set_nx (redis_key sha256 key) (encode_inflight fingerprint lease) ttl) in
      match claimed with
      | Some _ => Done (Ok FirstExecution)
      | None =>
          await? existing := execute_raw (get_value (redis_key sha256 key)) in
          Done (decide_value fingerprint existing)
      end
  end.

Definition redis_complete (key : IdempotencyKey) (fingerprint : RequestFingerprint)
    (lease : ExecutionLease) (response : StoredResponse) : Prog RedisStmt (result bool IdempotencyError) :=
  match encode_completed_suffix response with
  | Err error => Done (Err error)
  | Ok suffix =>
      match ttl_millis completed_ttl with
      | Err error => Done (Err error)
      | Ok ttl =>
          await? completed := execute_raw
            (complete_lua (redis_key sha256 key) (encode_inflight fingerprint lease) suffix ttl) in
          Done (Ok (completed =? 1))
      end
  end.

Definition redis_abort (key : IdempotencyKey) (fingerprint : RequestFingerprint) (lease : ExecutionLease)
    : Prog RedisStmt (result bool IdempotencyError) :=
  await? deleted := execute_raw (abort_lua (redis_key sha256 key) (encode_inflight fingerprint lease)) in
  Done (Ok (deleted =? 1)).

(** The record a value stands for. *)
Definition value_record (bytes : list Z) : option RecordState :=
  match decode bytes with
  | None => None
  | Some decoded =>
      Some (match decoded_response decoded with
            | Some response => Completed (decoded_fingerprint decoded) response
            | None => InFlight (decoded_fingerprint decoded) (mkLease (slice 33 49 bytes))
            end)
  end.

Definition RedisIdempotencyStore : Backend := {|
  Stmt := RedisStmt;
  Store := RedisValues;
  Slot := string;
  slot_of := redis_key sha256;
  view values slot := values !! slot ≫= λ entry, value_record entry.1;
  serve := @redis_serve;
  elapse s s' := s' ⊆ s;
  fresh_store values := values = ∅;
  begin := redis_begin;
  complete := redis_complete;
  abort := redis_abort
|}.
#[local] Existing Instance RedisIdempotencyStore.

(** ** Values are read as they were written *)

Lemma slice_app from to xs ys zs :
  length xs = from → length ys = (to - from)%nat → slice from to (xs ++ ys ++ zs) = ys.
Proof. intros <- Hy. unfold slice. by rewrite drop_app_length, take_app_length' by lia. Qed.

(** The fingerprint of a value, and what follows it. *)
Lemma slice_fingerprint state fp rest : fingerprint_wf fp →
  mkFingerprint (slice 1 33 (state :: fp_bytes fp ++ rest)) = fp.
Proof.
  intros Hf. change (state :: fp_bytes fp ++ rest) with ([state] ++ fp_bytes fp ++ rest).
  rewrite slice_app; [by destruct fp|done|by rewrite Hf].
Qed.

Lemma decode_inflight fp l : fingerprint_wf fp → lease_wf l →
  decode (encode_inflight fp l) = Some (mkDecoded STATE_IN_FLIGHT fp None).
Proof.
  unfold fingerprint_wf, lease_wf. intros Hf Hl. unfold decode, encode_inflight.
  rewrite length_cons, length_app, Hf, Hl. by rewrite slice_fingerprint.
Qed.

Lemma inflight_record fp l : fingerprint_wf fp → lease_wf l →
  value_record (encode_inflight fp l) = Some (InFlight fp l).
Proof.
  intros Hf Hl. unfold value_record. rewrite decode_inflight by done. simpl. do 2 f_equal.
  unfold fingerprint_wf, lease_wf in *. unfold encode_inflight.
  rewrite app_comm_cons, <- (app_nil_r (lease_bytes l)), slice_app; [by destruct l|simpl; lia|lia].
Qed.

(** [encode_completed_suffix], inverted. *)
Lemma suffix_Ok response suffix : encode_completed_suffix response = Ok suffix →
  let headers := headers_to_vec (stored_headers response) in
  Z.of_nat (length headers) < 2 ^ 32 ∧
  suffix = to_le_bytes 2 (stored_status response) ++ to_le_bytes 4 (Z.of_nat (length headers))
           ++ headers ++ stored_body response.
Proof.
  unfold encode_completed_suffix, U32_MAX. destruct (Z.leb_spec (Z.of_nat (length (headers_to_vec (stored_headers response)))) (2 ^ 32 - 1)); [|done].
  intros Hs. apply (f_equal (λ r, match r with Ok x => x | Err _ => [] end)) in Hs. split; [lia|done].
Qed.

Lemma length_suffix response suffix : encode_completed_suffix response = Ok suffix →
  length suffix = (6 + length (headers_to_vec (stored_headers response)) + length (stored_body response))%nat.
Proof.
  intros [_ ->]%suffix_Ok. rewrite !length_app, !length_to_le_bytes. lia.
Qed.

Lemma decode_suffix fp response suffix :
  fingerprint_wf fp → status_storable (stored_status response) = true →
  encode_completed_suffix response = Ok suffix →
  decode_response (STATE_COMPLETED :: fp_bytes fp ++ suffix) = Some response.
Proof.
  intros Hf Hs Hsuf. pose proof (length_suffix _ _ Hsuf) as Hlen. unfold fingerprint_wf in Hf.
  apply suffix_Ok in Hsuf as [Hu ->].
  set (hs := headers_to_vec (stored_headers response)) in *. set (n := Z.of_nat (length hs)) in *.
  set (pre := STATE_COMPLETED :: fp_bytes fp).
  change (decode_response (pre ++ to_le_bytes 2 (stored_status response) ++ to_le_bytes 4 n ++ hs
    ++ stored_body response) = Some response).
  assert (Hpre : length pre = 33%nat) by (unfold pre; simpl; lia).
  unfold decode_response. rewrite length_app, Hlen, Hpre.
  destruct (Nat.ltb_spec (33 + (6 + length hs + length (stored_body response))) 39); [lia|].
  rewrite (slice_app 33 35 pre) by (rewrite ?length_to_le_bytes; done).
  unfold status_storable in Hs. rewrite le_bytes_roundtrip by (change (256 ^ Z.of_nat 2) with 65536; lia).
  fold (status_storable (stored_status response)). unfold status_storable. rewrite Hs. cbn [negb].
  replace (slice 35 39 _) with (to_le_bytes 4 n).
  2:{ symmetry. rewrite app_assoc. apply slice_app; rewrite ?length_app, ?length_to_le_bytes, ?Hpre; done. }
  rewrite le_bytes_roundtrip by (change (256 ^ Z.of_nat 4) with 4294967296; lia).
  assert (Hadd : u64_checked_add 39 n = Some (39 + n)).
  { unfold u64_checked_add. by rewrite (proj2 (is_u64_spec (39 + n)) ltac:(lia)). }
  rewrite Hadd.
  destruct (Z.ltb_spec (Z.of_nat (33 + (6 + length hs + length (stored_body response)))) (39 + n)); [lia|].
  replace (Z.to_nat (39 + n)) with (39 + length hs)%nat by lia.
  rewrite !(app_assoc pre), (app_assoc (pre ++ _)).
  set (front := (pre ++ to_le_bytes 2 (stored_status response)) ++ to_le_bytes 4 n).
  assert (Hfront : length front = 39%nat) by (unfold front; rewrite !length_app, !length_to_le_bytes, Hpre; done).
  rewrite slice_app by lia. unfold hs at 1. rewrite headers_roundtrip.
  rewrite (app_assoc front), drop_app_length' by (rewrite length_app; lia). by destruct response.
Qed.

Lemma completed_record fp response suffix :
  fingerprint_wf fp → status_storable (stored_status response) = true →
  encode_completed_suffix response = Ok suffix →
  value_record (STATE_COMPLETED :: fp_bytes fp ++ suffix) = Some (Completed fp response).
Proof.
  intros Hf Hs Hsuf. pose proof (length_suffix _ _ Hsuf) as Hlen.
  unfold value_record, decode. rewrite (decode_suffix fp response) by done.
  unfold fingerprint_wf in Hf. cbn [length]. rewrite length_app.
  destruct (Nat.ltb_spec (S (length (fp_bytes fp) + length suffix)) 33); [lia|].
  cbn [STATE_IN_FLIGHT STATE_COMPLETED Z.eqb orb negb andb decoded_response decoded_fingerprint].
  by rewrite slice_fingerprint.
Qed.
(** ** The contract *)

(** Every value is one the store wrote. *)
Definition redis_ok (values : RedisValues) : Prop :=
  ∀ key entry, values !! key = Some entry → is_Some (value_record entry.1).

Definition any_move (s s' : RedisValues) : Prop := True.

(** A command that writes at most one value. *)
Definition command_effect {A} (command : RedisValues → A * RedisValues)
    (G : RedisValues → RedisValues → Prop) (R : A → History RedisValues → Prop) : Prop :=
  ∀ s x s' past, redis_ok s → command s = (x, s') → redis_ok s' ∧ G s s' ∧ R x (mkHistory s' (s :: past)).

Lemma safe_command {A} (command : RedisValues → A * RedisValues) G R h :
  command_effect command G R → (∀ s, G s s) →
  (∀ x h1 h2, rtc (grown any_move) h1 h2 → R x h1 → R x h2) → redis_ok (present h) →
  safely (@store_handle RedisIdempotencyStore) (redis_ok ∘ present) (rtc (grown any_move))
    (grown (λ s s', any_move s s' ∧ G s s')) (execute_raw command)
    (λ r h', match r with Ok x => R x h' | Err _ => True end) h.
Proof.
  intros Hcmd HG HR Hok. unfold execute_raw. eapply (safe_bind _ _
    (λ r h', match r with Ok x => R x h' | Err _ => True end)); [| |done].
  - apply safe_ask. intros [s1 past] answer h2 _ Hok1 (s2 & Hans & ->). simpl in Hans.
    unfold compose in *. cbn [present push] in *. destruct (command s1) as [x values] eqn:Hx.
    destruct (Hcmd s1 x values past Hok1 Hx) as (Hv & HGv & HRv).
    destruct Hans as [[-> ->]|[-> [-> | ->]]]; (split; [done|]);
      (split; [eexists; (split; [split; [done|]|reflexivity]); auto|]); [|done..].
    intros h3 H3 _. by eapply HR.
  - intros [x|e] h' _ _ Hr; simpl; [|done]. intros h2 H2 _. by eapply HR.
Qed.

Lemma value_effect (s : RedisValues) key value ttl slot record :
  view (<[key := (value, ttl)]> s) slot = Some record →
  (slot = key ∧ value_record value = Some record) ∨ view s slot = Some record.
Proof.
  simpl. destruct (decide (slot = key)) as [->|Hne].
  - rewrite lookup_insert_eq. auto.
  - rewrite lookup_insert_ne by done. auto.
Qed.

Lemma insert_ok s key value ttl : redis_ok s → is_Some (value_record value) →
  redis_ok (<[key := (value, ttl)]> s).
Proof. intros Hok Hv k entry [[<- <-]|[_ Hk]]%lookup_insert_Some; [done|by eapply Hok]. Qed.

Lemma occupied s key entry : redis_ok s → s !! key = Some entry →
  ∃ record, view s key = Some record.
Proof. intros Hok Hk. destruct (Hok _ _ Hk) as [record Hr]. exists record. simpl. by rewrite Hk. Qed.

Lemma set_nx_effect key fp l ttl : fingerprint_wf fp → lease_wf l →
  command_effect (set_nx (redis_key sha256 key) (encode_inflight fp l) ttl) (begins key fp l)
    (λ x h, match x with
            | Some _ => was h (redis_key sha256 key) (InFlight fp l)
            | None => ∃ record, was h (redis_key sha256 key) record
            end).
Proof.
  intros Hf Hl s x s' past Hok. unfold set_nx. pose proof (inflight_record fp l Hf Hl) as Hrec.
  destruct (s !! redis_key sha256 key) as [entry|] eqn:Hk; intros [= <- <-].
  - destruct (occupied _ _ _ Hok Hk) as [record Hv]. split; [done|]. split; [by left|].
    exists record. by apply was_now.
  - split; [apply insert_ok; eauto|]. split.
    + intros slot record Hv. destruct (value_effect _ _ _ _ _ _ Hv) as [[-> Hr]|?]; [right|by left].
      split; [done|]. rewrite Hrec in Hr. by injection Hr.
    + apply was_now. simpl. by rewrite lookup_insert_eq.
Qed.

Lemma get_effect key fp l G : (∀ s, G s s) →
  command_effect (get_value (redis_key sha256 key)) G
    (λ existing h, is_Some existing → begin_evidence key fp l (decide_value fp existing) h).
Proof.
  intros HG s x s' past Hok [= <- <-]. split; [done|]. split; [done|]. intros [bytes Hb].
  rewrite Hb. apply fmap_Some in Hb as ([bytes' ttl] & Hk & ->). simpl.
  destruct (Hok _ _ Hk) as [record Hrec]. simpl in Hrec.
  assert (Hw : was (mkHistory s (s :: past)) (redis_key sha256 key) record).
  { apply was_now. simpl. by rewrite Hk. }
  unfold value_record in Hrec. destruct (decode bytes') as [d|] eqn:Hd; [|done]. injection Hrec as <-.
  case_bool_decide as Hfp; simpl.
  - subst fp. destruct (decoded_state d =? STATE_COMPLETED) eqn:Hs.
    + destruct (decoded_response d); [done|]. done.
    + eexists. exact Hw.
  - eexists. split; [exact Hw|]. by destruct (decoded_response d).
Qed.

Lemma complete_effect key fp l response suffix ttl : fingerprint_wf fp → lease_wf l →
  status_storable (stored_status response) = true → encode_completed_suffix response = Ok suffix →
  command_effect (complete_lua (redis_key sha256 key) (encode_inflight fp l) suffix ttl)
    (completes key fp l response) (λ x h, x = 1 → was h (redis_key sha256 key) (Completed fp response)).
Proof.
  intros Hf Hl Hs Hsuf s x s' past Hok. unfold complete_lua.
  destruct (s !! redis_key sha256 key) as [[v t]|] eqn:Hk; [|intros [= <- <-]; split_and!; [done|by left|done]].
  case_bool_decide as Hv; [|intros [= <- <-]; split_and!; [done|by left|done]]. subst v. simpl negb. cbv iota.
  replace (slice 1 33 (encode_inflight fp l)) with (fp_bytes fp).
  2:{ unfold encode_inflight. by rewrite <- (slice_fingerprint STATE_IN_FLIGHT fp (lease_bytes l) Hf) at 1. }
  pose proof (completed_record fp response suffix Hf Hs Hsuf) as Hrec. intros [= <- <-].
  split; [apply insert_ok; eauto|]. split.
  - intros slot record Hr. destruct (value_effect _ _ _ _ _ _ Hr) as [[-> Hr']|?]; [right|by left].
    split; [done|]. split; [congruence|]. simpl. rewrite Hk. simpl. by apply inflight_record.
  - intros _. apply was_now. simpl. by rewrite lookup_insert_eq.
Qed.

#[export] Instance redis_contract : StoreContract RedisIdempotencyStore.
Proof.
  refine {| store_ok := redis_ok : @Store RedisIdempotencyStore → Prop;
            move := any_move : @Store RedisIdempotencyStore → @Store RedisIdempotencyStore → Prop |}.
  - simpl. intros s ->. split; [|intros k; by rewrite lookup_empty].
    intros key entry. by rewrite lookup_empty.
  - simpl. intros s s' Hok Hsub. split; [|split; [done|]].
    + intros key entry Hk. eapply Hok, lookup_weaken; done.
    + intros slot record. destruct (s' !! slot) as [entry|] eqn:Hk; [|done].
      by rewrite (lookup_weaken _ _ _ _ Hk Hsub).
  - intros key fp l h Hok Hf Hl. unfold begin, RedisIdempotencyStore, redis_begin.
    destruct (ttl_millis inflight_ttl) as [ttl|]; [|done].
    assert (Hrefl : ∀ s, @begins RedisIdempotencyStore key fp l s s) by by left.
    eapply safe_try; [apply (safe_command _ (@begins RedisIdempotencyStore key fp l));
      [by apply set_nx_effect|done| |done]|done| |done].
    { intros [ok|] h1 h2 H12; [by eapply was_later|].
      intros (record & Hw). exists record. by eapply was_later. }
    intros [ok|] h1 H1 Hok1 Hclaim; cbv beta iota in Hclaim.
    { intros h2 H2 _. exact (was_later _ _ _ _ _ H2 Hclaim). }
    destruct Hclaim as (record & Hrec).
    eapply safe_try; [apply (safe_command _ (@begins RedisIdempotencyStore key fp l));
      [by apply (get_effect key fp l)|done| |done]|done| |done].
    { intros x h2 h3 H23 Hx Hs. eapply evidence_later; [exact H23|auto]. }
    intros [bytes|] h2 H2 _ Hev h3 H3 _.
    + eapply evidence_later; [exact H3|]. by apply Hev.
    + exists record. eapply was_later; [|exact Hrec]. etrans; [exact H2|exact H3].
  - intros key fp l response h Hok Hf Hl Hst. unfold complete, RedisIdempotencyStore, redis_complete.
    destruct (encode_completed_suffix response) as [suffix|] eqn:Hsuf; [|done].
    destruct (ttl_millis completed_ttl) as [ttl|]; [|done].
    eapply safe_try; [apply (safe_command _ (@completes RedisIdempotencyStore key fp l response));
      [by apply complete_effect| | |done]|done| |done].
    { by left. }
    { intros x h2 h3 H23 Hx ->. eapply was_later; [exact H23|auto]. }
    intros completed h1 H1 _ Haff h2 H2 _ [= Ha%Z.eqb_eq]. eapply was_later; [exact H2|auto].
Defined.
End store.

(** ** Keys stay apart *)

Definition key_fits (key : IdempotencyKey) : Prop := Forall (λ s, len s < 2 ^ 64) (key_components key).

Lemma split_separator (a a' b b' : list Z) :
  31 ∉ a → 31 ∉ a' → a ++ (31 :: b) = a' ++ (31 :: b') → a = a' ∧ b = b'.
Proof.
  revert a'. induction a as [|x a IH]; intros [|x' a'] Ha Ha' Heq; simplify_eq/=; [done|set_solver..|].
  destruct (IH a') as [-> ->]; [set_solver..|done|done].
Qed.

Lemma has_separator_false s : has_separator s = false → 31 ∉ as_bytes s.
Proof.
  intros Hs Hin. apply not_true_iff_false in Hs. apply Hs, existsb_elem_of. exists 31. by rewrite Z.eqb_refl.
Qed.

Lemma hex_no_separator x : Forall (λ b, 0 ≤ b < 256) x → 31 ∉ as_bytes (hex_string x).
Proof.
  assert (Hd : ∀ n, 0 ≤ n < 16 → byte_of_ascii (hex_digit n) ≠ 31).
  { intros n Hn. unfold hex_digit, byte_of_ascii.
    destruct (Z.ltb_spec n 10); rewrite N_ascii_embedding by lia; lia. }
  induction 1 as [|b x Hb _ IH]; simpl; [set_solver|].
  rewrite !not_elem_of_cons. split_and!; [|  |done]; apply not_eq_sym, Hd.
  - split; [apply Z.div_pos|apply Z.div_lt_upper_bound]; lia.
  - apply Z.mod_pos_bound. lia.
Qed.

(** The text of a key without separators. *)
Lemma redis_key_plain sha256 key :
  forallb (λ c, negb (has_separator c)) (key_components key) = true →
  as_bytes (redis_key sha256 key) = as_bytes "idem:" ++ as_bytes (key_tenant key) ++
    (31 :: as_bytes (key_subject key) ++
      (31 :: as_bytes (key_route_id key) ++ (31 :: as_bytes (key_client_key key))))
  ∧ (31 ∉ as_bytes (key_tenant key)) ∧ (31 ∉ as_bytes (key_subject key)) ∧ (31 ∉ as_bytes (key_route_id key)).
Proof.
  intros Hs. unfold redis_key. rewrite Hs. unfold key_components in Hs. simpl in Hs.
  repeat match goal with H : _ && _ = true |- _ => apply andb_prop in H as [?%negb_true_iff ?] end.
  rewrite !as_bytes_app. split; [done|]. split_and!; by apply has_separator_false.
Qed.

Lemma key_eta key key' : map as_bytes (key_components key) = map as_bytes (key_components key') → key = key'.
Proof.
  destruct key, key'. unfold key_components. simpl. intros [= H1 H2 H3 H4].
  by rewrite (as_bytes_inj _ _ H1), (as_bytes_inj _ _ H2), (as_bytes_inj _ _ H3), (as_bytes_inj _ _ H4).
Qed.

(** The two forms of a key never meet. *)
Lemma forms_apart `{Digest32 sha256} key key' :
  forallb (λ c, negb (has_separator c)) (key_components key) = true →
  forallb (λ c, negb (has_separator c)) (key_components key') = false →
  redis_key sha256 key ≠ redis_key sha256 key'.
Proof.
  intros Hs Hs' Hb%(f_equal as_bytes). destruct (redis_key_plain sha256 key Hs) as (Hk & _).
  rewrite Hk in Hb. unfold redis_key in Hb. rewrite Hs', as_bytes_app in Hb.
  assert (31 ∈ as_bytes "idem:v2:" ++ as_bytes (hex_string (sha256 (canonical_bytes
    (map as_bytes (key_components key')))))) as Hin by (rewrite <- Hb; set_solver).
  apply elem_of_app in Hin as [Hin|Hin]; [|by apply hex_no_separator in Hin; [|apply digest_range]].
  vm_compute in Hin. repeat (apply elem_of_cons in Hin as [Hin|Hin]; [done|]). by apply elem_of_nil in Hin.
Qed.

(** The two byte strings that make two keys share a Redis key. *)
Definition key_collision (sha256 : list Z → list Z) (key key' : IdempotencyKey) : Prop :=
  let encoded k := canonical_bytes (map as_bytes (key_components k)) in
  encoded key ≠ encoded key' ∧ sha256 (encoded key) = sha256 (encoded key').

(** Two keys have the same text only if they are equal, or their
    length-delimited encodings are a collision of SHA-256: a component that
    contains the separator cannot be arranged to meet another tenant's key. *)
Lemma redis_keys_apart `{Digest32 sha256} key key' :
  key_fits key → key_fits key' → redis_key sha256 key = redis_key sha256 key' →
  key = key' ∨ key_collision sha256 key key'.
Proof.
  intros Hf Hf' Heq. apply (f_equal as_bytes) in Heq as Hb.
  destruct (forallb (λ c, negb (has_separator c)) (key_components key)) eqn:Hs,
    (forallb (λ c, negb (has_separator c)) (key_components key')) eqn:Hs'.
  - left. destruct (redis_key_plain sha256 key Hs) as (Hk & H1 & H2 & H3).
    destruct (redis_key_plain sha256 key' Hs') as (Hk' & H1' & H2' & H3').
    rewrite Hk, Hk' in Hb. apply app_inv_head in Hb.
    apply split_separator in Hb as [E1 Hb]; [|done..].
    apply split_separator in Hb as [E2 Hb]; [|done..].
    apply split_separator in Hb as [E3 E4]; [|done..]. apply key_eta. unfold key_components. simpl. congruence.
  - by destruct (forms_apart key key').
  - by destruct (forms_apart key' key).
  - unfold redis_key in Hb. rewrite Hs, Hs', !as_bytes_app in Hb. apply app_inv_head in Hb.
    apply as_bytes_inj, hex_string_inj in Hb; [|apply digest_range..].
    destruct (decide (canonical_bytes (map as_bytes (key_components key)) =
      canonical_bytes (map as_bytes (key_components key')))) as [Hc|Hc]; [left|by right].
    apply key_eta. apply canonical_bytes_inj in Hc; [done|..];
      apply Forall_fmap; eapply Forall_impl; try done; intros s Hl; by apply field_fits_str.
Qed.
