(* ===== verification/IdempotencyLayer.v ===== *)
(** * The idempotent request path

    Models [napp/src/idempotency.rs]: how the middleware admits a request, the
    key and the fingerprint it gives it, which responses it records and how it
    replays them, and the middleware itself as a program whose calls are the
    statements of the store, the reading of bodies, the drawing of a lease and
    the handler behind it.  [http] and [axum] are parameters: [HttpText] has what
    is used of header texts. *)

From Stdlib Require Import ZArith Lia Ascii.
From S2P Require Import Prelude AsyncProg Bytes SagaIdentity SagaState SagaDefinition.
From S2P Require Import Idempotency.
From stdpp Require Import prelude strings list gmap relations.

Local Open Scope Z_scope.
Local Open Scope rust_scope.

(** ** Requests and responses *)

(** [naauthz::Principal], as far as it names someone. *)
Record Principal := mkPrincipal {
  principal_subject : option string;
  principal_client_id : option string;
  principal_tenant : option string
}.

(** A header map: names in lower case, values as bytes, in order. *)
Abbreviation Headers := (list (string * list Z)).

Record HttpRequest := mkRequest {
  rq_method : string;
  rq_path : string;
  rq_query : option string;
  rq_headers : Headers;
  rq_matched_path : option string;
  rq_principal : option Principal;
  rq_body : list Z
}.

Record HttpResponse := mkResponse { rs_status : Z; rs_headers : Headers; rs_body : list Z }.

Definition set_rq_body (bytes : list Z) (request : HttpRequest) : HttpRequest :=
  mkRequest (rq_method request) (rq_path request) (rq_query request) (rq_headers request)
    (rq_matched_path request) (rq_principal request) bytes.

(** What the layer returns: a response, or an [ApiProblem] that is rendered as
    one. *)
Inductive LayerResponse :=
| Plain (response : HttpResponse)
| Problem (status : Z) (code : string) (detail : option string).

Definition get_all (name : string) (headers : Headers) : list (list Z) :=
  map snd (List.filter (λ entry, bool_decide (entry.1 = name)) headers).
Definition get_first (name : string) (headers : Headers) : option (list Z) := head (get_all name headers).

(** [HeaderValue::to_str] yields the text of a value; what it yields is a valid
    value again, and the names of the whitelist are valid names. *)
Class HttpText := {
  to_str : list Z → option string;
  name_try_from : string → option string;
  value_try_from : string → option (list Z);
  to_str_bytes value text : to_str value = Some text → as_bytes text = value;
  value_roundtrip value text : to_str value = Some text → value_try_from text = Some value;
  standard_names : Forall (λ name, name_try_from name = Some name)
    ["content-type"; "location"; "etag"; "retry-after"; "cache-control"; "vary"]
}.

Definition IDEMPOTENCY_HEADER : string := "idempotency-key".
Definition MAX_CLIENT_KEY_BYTES : Z := 190.
Definition MAX_IDEMPOTENT_BODY : Z := 2 ^ 20.

Definition ALLOWED : list string :=
  ["content-type"; "location"; "etag"; "retry-after"; "cache-control"; "vary"].

(** ** Statuses *)

Definition is_success (status : Z) : bool := (200 <=? status) && (status <? 300).
Definition is_redirection (status : Z) : bool := (300 <=? status) && (status <? 400).

Definition storable_status (status : Z) : bool :=
  is_success status || is_redirection status
  || existsb (Z.eqb status) [400; 404; 409; 410; 412; 422].

(** [StatusCode::from_u16]. *)
Definition status_from_u16 (status : Z) : option Z :=
  if (100 <=? status) && (status <=? 999) then Some status else None.

(** ** Recording and replaying *)

Section text.
Context `{HttpText}.

Definition stored_values (name : string) (headers : Headers) : list StoredHeader :=
  concat (map (λ value,
    match to_str value with
    | Some text => if len text <=? 1024 then [mkStoredHeader name text] else []
    | None => []
    end) (take 4 (get_all name headers))).

Definition storable_headers (response : HttpResponse) : list StoredHeader :=
  concat (map (λ name, stored_values name (rs_headers response)) ALLOWED).

Definition replay_headers (headers : list StoredHeader) : Headers :=
  concat (map (λ stored,
    match name_try_from (header_name stored), value_try_from (header_value stored) with
    | Some name, Some value => [(name, value)]
    | _, _ => []
    end) headers).

Definition stored_response (stored : StoredResponse) : HttpResponse :=
  {| rs_status := default 500 (status_from_u16 (stored_status stored));
     rs_headers := replay_headers (stored_headers stored);
     rs_body := stored_body stored |}.

Definition QUOTE : string := String (ascii_of_N 34) EmptyString.

(** What is recorded when the response cannot be. *)
Definition sentinel : StoredResponse :=
  {| stored_status := 500;
     stored_body := as_bytes ("{" +:+ QUOTE +:+ "code" +:+ QUOTE +:+ ":" +:+ QUOTE
       +:+ "idempotency_response_not_storable" +:+ QUOTE +:+ "}");
     stored_headers := [mkStoredHeader "content-type" "application/problem+json"] |}.

Definition recorded (response : HttpResponse) : StoredResponse :=
  {| stored_status := rs_status response;
     stored_body := rs_body response;
     stored_headers := storable_headers response |}.

(** ** Admission *)

Context (sha256 : list Z → list Z).

Definition bounded_namespace (value : string) (max : Z) : string :=
  if len value <=? max then value
  else "overflow-sha256:" +:+ hex_string (sha256 (as_bytes value)).

(** [request_parts] and the buffered body. *)
Definition fingerprint (request : HttpRequest) (route_id : string) (bytes : list Z) : RequestFingerprint :=
  mkFingerprint (sha256 (canonical_bytes
    [as_bytes (rq_method request); as_bytes route_id; as_bytes (default "" (rq_query request));
     default [] (get_first "content-type" (rq_headers request)); bytes])).

Definition blank (value : string) : bool :=
  match trim (as_bytes value) with [] => true | _ => false end.

Definition non_blank (value : option string) : option string :=
  match value with
  | Some value => if blank value then None else Some value
  | None => None
  end.

Definition identity_of (principal : Principal) : option string :=
  match non_blank (principal_subject principal) with
  | Some value => Some ("sub:" +:+ value)
  | None =>
      match non_blank (principal_client_id principal) with
      | Some value => Some ("client:" +:+ value)
      | None => None
      end
  end.

Definition namespace_of (request : HttpRequest) : option (string * string) :=
  principal ← rq_principal request;
  identity ← identity_of principal;
  Some (bounded_namespace (default "" (principal_tenant principal)) 128, bounded_namespace identity 190).

Definition client_key_of (value : list Z) : option string :=
  text ← to_str value;
  if negb (is_empty text) && (len text <=? MAX_CLIENT_KEY_BYTES)
     && forallb (λ byte, (33 <=? byte) && (byte <=? 126)) (as_bytes text)
  then Some text else None.

Fixpoint strip_prefix (prefix s : string) : option string :=
  match prefix, s with
  | EmptyString, _ => Some s
  | String c prefix, String d s => if bool_decide (c = d) then strip_prefix prefix s else None
  | String _ _, EmptyString => None
  end.

Definition matched_path (request : HttpRequest) : string :=
  default (rq_path request) (rq_matched_path request).

(** The route contract the layer was built with. *)
Record LayerState := mkLayerState {
  route_has_crypto : string → string → result bool unit;
  context_path : string
}.

Definition route_path (state : LayerState) (request : HttpRequest) : string :=
  if is_empty (context_path state) then matched_path request
  else default (matched_path request) (strip_prefix (context_path state) (matched_path request)).

Definition route_id_of (request : HttpRequest) : string :=
  bounded_namespace (rq_method request +:+ " " +:+ matched_path request) 190.

(** What the layer does with a request before it reads its body. *)
Inductive Admission :=
| Transparent
| Refused (response : LayerResponse)
| Keyed (key : IdempotencyKey).

Definition admission (state : LayerState) (request : HttpRequest) : Admission :=
  match get_all IDEMPOTENCY_HEADER (rq_headers request) with
  | [] => Transparent
  | _ :: _ :: _ =>
      Refused (Problem 400 "invalid_idempotency_key" (Some "Idempotency-Key must occur exactly once"))
  | [value] =>
      match client_key_of value with
      | None =>
          Refused (Problem 400 "invalid_idempotency_key"
            (Some "Idempotency-Key must be 1..190 visible ASCII bytes"))
      | Some client_key =>
          match route_has_crypto state (rq_method request) (route_path state request) with
          | Ok true =>
              Refused (Problem 400 "idempotency_crypto_not_supported"
                (Some "Idempotency-Key is not supported on encrypted routes until plaintext replay is configured"))
          | Err _ => Refused (Problem 503 "idempotency_route_contract_unavailable" None)
          | Ok false =>
              match namespace_of request with
              | None =>
                  Refused (Problem 401 "idempotency_identity_required"
                    (Some "Idempotency-Key requires an authenticated subject or client"))
              | Some (tenant, subject) =>
                  Keyed (mkKey tenant subject (route_id_of request) client_key)
              end
          end
      end
  end.

(** ** The middleware *)

Context `{Backend}.

(** Everything the middleware awaits; [next.run(request).await] is the start of
    the handler and its response. *)
Inductive LayerCall : Type → Type :=
| StoreCall (B : Type) (stmt : Stmt B) : LayerCall B
| ReadBody (limit : Z) (body : list Z) : LayerCall (result (list Z) unit)
| FillBytes : LayerCall ExecutionLease
| HandlerStart (request : HttpRequest) : LayerCall unit
| HandlerResponse : LayerCall HttpResponse.

Definition next_run (request : HttpRequest) : Prog LayerCall HttpResponse :=
  await _ := ask (HandlerStart request) in ask HandlerResponse.

Definition first_execution (request : HttpRequest) (bytes : list Z) (key : IdempotencyKey)
    (fingerprint : RequestFingerprint) (lease : ExecutionLease) : Prog LayerCall LayerResponse :=
  await response := next_run (set_rq_body bytes request) in
  if negb (storable_status (rs_status response)) then Done (Plain response)
  else
    await read := ask (ReadBody MAX_IDEMPOTENT_BODY (rs_body response)) in
    match read with
    | Err _ =>
        await _ := embed StoreCall (complete key fingerprint lease sentinel) in
        Done (Plain (stored_response sentinel))
    | Ok response_bytes =>
        let response := mkResponse (rs_status response) (rs_headers response) response_bytes in
        await completed := embed StoreCall (complete key fingerprint lease (recorded response)) in
        match completed with
        | Ok true => Done (Plain response)
        | Ok false => Done (Problem 409 "idempotency_lease_lost" None)
        | Err _ => Done (Problem 503 "idempotency_completion_unavailable" None)
        end
    end.

Definition idempotency (state : LayerState) (request : HttpRequest) : Prog LayerCall LayerResponse :=
  match admission state request with
  | Transparent => await response := next_run request in Done (Plain response)
  | Refused response => Done response
  | Keyed key =>
      await read := ask (ReadBody MAX_IDEMPOTENT_BODY (rq_body request)) in
      match read with
      | Err _ => Done (Problem 413 "idempotency_body_too_large" None)
      | Ok bytes =>
          let fingerprint := fingerprint request (key_route_id key) bytes in
          await lease := ask FillBytes in
          await outcome := embed StoreCall (begin key fingerprint lease) in
          match outcome with
          | Err _ =>
              Done (Problem 503 "idempotency_store_unavailable"
                (Some "the idempotency store is temporarily unavailable; retry later"))
          | Ok (Replay stored) => Done (Plain (stored_response stored))
          | Ok ConcurrentInFlight =>
              Done (Problem 409 "idempotency_in_flight"
                (Some "a request with the same Idempotency-Key is still in progress"))
          | Ok FingerprintConflict =>
              Done (Problem 422 "idempotency_key_reuse"
                (Some "the Idempotency-Key was reused with a different request body"))
          | Ok FirstExecution => first_execution request bytes key fingerprint lease
          end
      end
  end.
End text.

Arguments LayerCall H : rename, clear implicits.
