(* ===== verification/IdempotencySafety.v ===== *)
(** * Idempotent requests: the system and its invariant

    Any number of requests run the middleware side by side against one store,
    and each may be dropped at any await.  [LayerWorld] has the history of the
    store, the leases drawn, and what the handlers were given and answer_ok; the
    invariant says where leases, runs and completed records come from. *)

From Stdlib Require Import ZArith Lia.
From S2P Require Import Prelude AsyncProg Bytes SagaIdentity SagaState SagaDefinition.
From S2P Require Import Idempotency IdempotencyLayer.
From stdpp Require Import prelude strings list gmap relations.

Local Open Scope Z_scope.
Local Open Scope rust_scope.

Section system.
Context `{HttpText} (sha256 : list Z → list Z).
Context {B : Backend} `{!StoreContract B} (state : LayerState).

(** Each entry has the number of the request it belongs to. *)
Record LayerWorld := mkLayerWorld {
  lw_history : History Store;
  lw_leases : list (nat * ExecutionLease);
  lw_runs : list (nat * HttpRequest);
  lw_responses : list (nat * HttpResponse)
}.

Definition set_history (h : History Store) (w : LayerWorld) : LayerWorld :=
  mkLayerWorld h (lw_leases w) (lw_runs w) (lw_responses w).

(** A drawn lease is a new one; a body is read whole or not at all; handlers
    answer what they like, with a status of three digits. *)
Definition layer_handle (i : nat) (A : Type) (call : LayerCall B A) (w : LayerWorld)
    : A → LayerWorld → Prop :=
  match call in LayerCall _ A return A → LayerWorld → Prop with
  | StoreCall A stmt => λ answer w',
      ∃ s, serve A stmt (present (lw_history w)) answer s ∧ w' = set_history (push s (lw_history w)) w
  | ReadBody limit body => λ answer w',
      w' = w ∧ match answer with
               | Ok bytes => bytes = body ∧ Z.of_nat (length bytes) ≤ limit
               | Err _ => True
               end
  | FillBytes => λ lease w',
      lease_wf lease ∧ (∀ j l, (j, l) ∈ lw_leases w → l ≠ lease) ∧
      w' = mkLayerWorld (lw_history w) (lw_leases w ++ [(i, lease)]) (lw_runs w) (lw_responses w)
  | HandlerStart request => λ _ w',
      w' = mkLayerWorld (lw_history w) (lw_leases w) (lw_runs w ++ [(i, request)]) (lw_responses w)
  | HandlerResponse => λ response w',
      100 ≤ rs_status response ≤ 999 ∧
      w' = mkLayerWorld (lw_history w) (lw_leases w) (lw_runs w) (lw_responses w ++ [(i, response)])
  end.

(** What the store does by itself. *)
Definition layer_env (w w' : LayerWorld) : Prop :=
  ∃ s, elapse (present (lw_history w)) s ∧ w' = set_history (push s (lw_history w)) w.

Definition layer_init (w : LayerWorld) : Prop :=
  ∃ s, fresh_store s ∧ w = mkLayerWorld (mkHistory s []) [] [] [].

Abbreviation LayerPool := (Pool (E := LayerCall B) (W := LayerWorld) (T := HttpRequest) (A := LayerResponse)).

Definition layer_reachable (pool : LayerPool) : Prop :=
  pool_reachable (idempotency sha256 state) layer_handle layer_env layer_init pool.

(** ** The invariant *)

(** What a request is to the store. *)
Definition request_fingerprint (key : IdempotencyKey) (request : HttpRequest) : RequestFingerprint :=
  fingerprint sha256 request (key_route_id key) (rq_body request).

Definition claims (request : HttpRequest) (slot : Slot) (fp : RequestFingerprint) : Prop :=
  ∃ key, admission sha256 state request = Keyed key ∧ slot_of key = slot
         ∧ request_fingerprint key request = fp.

(** How the response of a handler is on record. *)
Definition on_record (response : HttpResponse) (stored : StoredResponse) : Prop :=
  storable_status (rs_status response) = true ∧
  (stored = recorded response ∧ Z.of_nat (length (rs_body response)) ≤ MAX_IDEMPOTENT_BODY
   ∨ stored = sentinel).

(** The request [i] was given the execution right of [slot]. *)
Definition granted (w : LayerWorld) (i : nat) (slot : Slot) (fp : RequestFingerprint) : Prop :=
  ∃ lease, (i, lease) ∈ lw_leases w ∧ was (lw_history w) slot (InFlight fp lease).

(** A handler run for the same slot and request produced [stored]. *)
Definition produced (w : LayerWorld) (slot : Slot) (fp : RequestFingerprint) (stored : StoredResponse) : Prop :=
  ∃ i request response, (i, request) ∈ lw_runs w ∧ claims request slot fp ∧
    (i, response) ∈ lw_responses w ∧ on_record response stored.

Definition from_fresh (h : History Store) : Prop :=
  ∃ s, fresh_store s ∧ rtc (grown move) (mkHistory s []) h.

Record layer_inv (w : LayerWorld) : Prop := {
  li_store : store_ok (present (lw_history w));
  li_chain : from_fresh (lw_history w);
  li_unique i j lease : (i, lease) ∈ lw_leases w → (j, lease) ∈ lw_leases w → i = j;
  li_drawn slot fp lease : was (lw_history w) slot (InFlight fp lease) → ∃ i, (i, lease) ∈ lw_leases w;
  li_runs i request slot fp : (i, request) ∈ lw_runs w → claims request slot fp → granted w i slot fp;
  li_completed slot fp stored : was (lw_history w) slot (Completed fp stored) → produced w slot fp stored
}.

(** ** What requests do to each other *)

Definition unlogged (i : nat) (w w' : LayerWorld) : Prop :=
  (∀ x, (i, x) ∈ lw_leases w' → (i, x) ∈ lw_leases w) ∧
  (∀ x, (i, x) ∈ lw_runs w' → (i, x) ∈ lw_runs w) ∧
  (∀ x, (i, x) ∈ lw_responses w' → (i, x) ∈ lw_responses w).

Record onward (w w' : LayerWorld) : Prop := {
  on_history : rtc (grown move) (lw_history w) (lw_history w');
  on_leases : lw_leases w ⊆ lw_leases w';
  on_runs : lw_runs w ⊆ lw_runs w';
  on_responses : lw_responses w ⊆ lw_responses w'
}.

Definition layer_rely (i : nat) (w w' : LayerWorld) : Prop := onward w w' ∧ unlogged i w w'.
Definition layer_guar (i : nat) (w w' : LayerWorld) : Prop := onward w w' ∧ ∀ j, j ≠ i → unlogged j w w'.

#[export] Instance onward_preorder : PreOrder onward.
Proof.
  split; [by split|]. intros w1 w2 w3 [] []. split; [by etrans|set_solver..].
Qed.

#[export] Instance layer_interference i : Interference (layer_rely i) (layer_guar i).
Proof.
  refine {| later := onward; later_preorder := onward_preorder |}.
  - split; [split; [reflexivity|by split_and!]|].
    intros w1 w2 w3 [O12 (?&?&?)] [O23 (?&?&?)]. split; [by etrans|]. split_and!; auto.
  - by intros w w' [].
  - by intros w w' [].
Defined.

Definition layer_idle (i : nat) (w : LayerWorld) : Prop :=
  (∀ x, (i, x) ∉ lw_leases w) ∧ (∀ x, (i, x) ∉ lw_runs w) ∧ ∀ x, (i, x) ∉ lw_responses w.

Lemma granted_onward w w' i slot fp : onward w w' → granted w i slot fp → granted w' i slot fp.
Proof.
  intros Ho (lease & Hl & Hw). exists lease. split; [by apply (on_leases _ _ Ho)|].
  eapply was_later; [apply (on_history _ _ Ho)|done].
Qed.

Lemma produced_onward w w' slot fp stored : onward w w' → produced w slot fp stored → produced w' slot fp stored.
Proof.
  intros Ho (i & request & response & Hr & Hc & Hs & Hrec). exists i, request, response.
  split; [by apply (on_runs _ _ Ho)|]. split; [done|]. split; [by apply (on_responses _ _ Ho)|done].
Qed.

Lemma was_onward w w' slot record : onward w w' → was (lw_history w) slot record → was (lw_history w') slot record.
Proof. intros Ho. by apply was_later with move, on_history. Qed.

(** ** Steps *)

(** A store step of request [i] that gives every new record an origin. *)
Lemma store_step i w s :
  layer_inv w → store_ok s → move (present (lw_history w)) s →
  (∀ slot record, view s slot = Some record → view (present (lw_history w)) slot = Some record ∨
     match record with
     | InFlight fp lease => (i, lease) ∈ lw_leases w
     | Completed fp stored => produced w slot fp stored
     end) →
  let w' := set_history (push s (lw_history w)) w in
  layer_inv w' ∧ onward w w' ∧ ∀ j, unlogged j w w'.
Proof.
  intros [Hs Hch Hun Hdr Hru Hco] Hok Hm Hnew w'.
  assert (Ho : onward w w').
  { split; [|done..]. apply rtc_once. by exists s. }
  split; [|split; [done|by intros j; split_and!]]. split; simpl.
  - done.
  - destruct Hch as (s0 & Hf & Hc). exists s0. split; [done|]. eapply rtc_r; [exact Hc|]. by exists s.
  - done.
  - intros slot fp lease [Hv|Hw]%was_push; [|by eapply Hdr].
    destruct (Hnew _ _ Hv) as [Hold|Hl]; [|by exists i]. eapply Hdr, was_now, Hold.
  - intros j request slot fp Hr Hc. eapply granted_onward; [exact Ho|eauto].
  - intros slot fp stored [Hv|Hw]%was_push; apply (produced_onward w); try done; [|by apply Hco].
    destruct (Hnew _ _ Hv) as [Hold|Hp]; [|done]. by apply Hco, was_now.
Qed.

Lemma env_step w w' : layer_inv w → layer_env w w' →
  layer_inv w' ∧ onward w w' ∧ ∀ i, layer_rely i w w'.
Proof.
  intros Hw (s & He & ->). destruct (elapse_ok _ _ (li_store _ Hw) He) as (Hok & Hm & Hv).
  destruct (store_step 0 w s Hw Hok Hm) as (Hi & Ho & Hu); [auto|]. split; [done|]. by split.
Qed.

(** The logs. *)
Lemma draw_step i w lease : layer_inv w → lease_wf lease → (∀ j l, (j, l) ∈ lw_leases w → l ≠ lease) →
  let w' := mkLayerWorld (lw_history w) (lw_leases w ++ [(i, lease)]) (lw_runs w) (lw_responses w) in
  layer_inv w' ∧ layer_guar i w w'.
Proof.
  intros Hw Hl Hfresh w'.
  assert (Ho : onward w w') by (split; simpl; [done|set_solver..]).
  split; [|split; [done|]].
  - destruct Hw as [Hs Hch Hun Hdr Hru Hco]. split; simpl; try done.
    + intros a b l [Ha|Ha%list_elem_of_singleton]%elem_of_app
        [Hb|Hb%list_elem_of_singleton]%elem_of_app; simplify_eq; [by eapply Hun| | |done];
        exfalso; by eapply Hfresh.
    + intros slot fp l Hwas. destruct (Hdr _ _ _ Hwas) as [j Hj]. exists j. set_solver.
    + intros j request slot fp Hr Hc. eapply granted_onward; [exact Ho|eauto].
  - intros j Hj. split_and!; simpl; try done. intros x [?|[= ? _]%list_elem_of_singleton]%elem_of_app; congruence.
Qed.

Lemma run_step i w request : layer_inv w →
  (∀ slot fp, claims request slot fp → granted w i slot fp) →
  let w' := mkLayerWorld (lw_history w) (lw_leases w) (lw_runs w ++ [(i, request)]) (lw_responses w) in
  layer_inv w' ∧ layer_guar i w w'.
Proof.
  intros Hw Hg w'. assert (Ho : onward w w') by (split; simpl; [done|set_solver..]).
  split; [|split; [done|]].
  - destruct Hw as [Hs Hch Hun Hdr Hru Hco]. split; simpl; try done.
    + intros j rq slot fp [Hr|[= -> ->]%list_elem_of_singleton]%elem_of_app Hc;
        (eapply granted_onward; [exact Ho|eauto]).
    + intros slot fp stored Hwas. apply (produced_onward w); [done|auto].
  - intros j Hj. split_and!; simpl; try done. intros x [?|[= ? _]%list_elem_of_singleton]%elem_of_app; congruence.
Qed.

Lemma response_step i w response : layer_inv w →
  let w' := mkLayerWorld (lw_history w) (lw_leases w) (lw_runs w) (lw_responses w ++ [(i, response)]) in
  layer_inv w' ∧ layer_guar i w w'.
Proof.
  intros Hw w'. assert (Ho : onward w w') by (split; simpl; [done|set_solver..]).
  split; [|split; [done|]].
  - destruct Hw as [Hs Hch Hun Hdr Hru Hco]. split; simpl; try done.
    intros slot fp stored Hwas. apply (produced_onward w); [done|auto].
  - intros j Hj. split_and!; simpl; try done. intros x [?|[= ? _]%list_elem_of_singleton]%elem_of_app; congruence.
Qed.

(** ** The store, as a request uses it *)

Abbreviation layer_safely i := (safely (layer_handle i) layer_inv (layer_rely i) (layer_guar i)).

(** An operation of the store whose new records have an origin is safe in the
    system. *)
Lemma safe_store i {A} (p : Prog Stmt A) (G : Store → Store → Prop) Q (P : LayerWorld → Prop) w :
  (∀ w w', layer_rely i w w' → P w → P w') →
  (∀ w s, layer_inv w → P w → G (present (lw_history w)) s → ∀ slot record, view s slot = Some record →
     view (present (lw_history w)) slot = Some record ∨
     match record with
     | InFlight fp lease => (i, lease) ∈ lw_leases w
     | Completed fp stored => produced w slot fp stored
     end) →
  P w →
  safely (@store_handle B) (store_ok ∘ present) (rtc (grown move))
    (grown (λ s s', move s s' ∧ G s s')) p Q (lw_history w) →
  layer_safely i (embed StoreCall p) (λ a w', Q a (lw_history w') ∧ P w') w.
Proof.
  intros HP HG HPw Hp. eapply (safe_embed _ lw_history _ _ _ _ _ _ _ _ P); [..|exact Hp].
  - intros w1 Hw1. apply (li_store _ Hw1).
  - intros w1 w2 Hr. split; [apply (on_history _ _ (proj1 Hr))|by apply HP].
  - intros C call w1 answer w2 (s & Hs & ->). by exists s.
  - intros C call w1 answer w2 (s & Hs & ->) Hw1 HP1 Hok (s' & [Hm Hg] & Heq).
    simpl in Heq. unfold push in Heq. injection Heq as <-.
    destruct (store_step i w1 s Hw1 Hok Hm) as (Hi & Ho & Hu); [by apply HG|].
    split; [done|]. split; [by split|]. apply (HP w1); [by split|done].
  - done.
Qed.

(** The request has not been handed to its handler. *)
Definition not_run (i : nat) (w : LayerWorld) : Prop := ∀ request, (i, request) ∉ lw_runs w.

Lemma not_run_rely i w w' : layer_rely i w w' → not_run i w → not_run i w'.
Proof. intros [_ (_ & Hr & _)] Hq request Hin. by apply (Hq request), Hr. Qed.

Lemma begin_safe i key fp lease w : layer_inv w → fingerprint_wf fp → lease_wf lease →
  (i, lease) ∈ lw_leases w → not_run i w →
  layer_safely i (embed StoreCall (begin key fp lease))
    (λ a w', begin_evidence key fp lease a (lw_history w') ∧ (i, lease) ∈ lw_leases w' ∧ not_run i w') w.
Proof.
  intros Hw Hf Hl Hin Hq.
  eapply (safe_store i _ (begins key fp lease) _ (λ w, (i, lease) ∈ lw_leases w ∧ not_run i w)); [..|done|].
  - intros w1 w2 Hr [H1 H2]. split; [by apply (on_leases _ _ (proj1 Hr))|by eapply not_run_rely].
  - intros w1 s _ [Hin1 _] Hb slot record Hv.
    destruct (Hb _ _ Hv) as [?|[_ ->]]; [by left|by right].
  - apply begin_ok; [apply (li_store _ Hw)|done|done].
Qed.

Lemma complete_safe i key fp lease stored w : layer_inv w → fingerprint_wf fp → lease_wf lease →
  status_storable (stored_status stored) = true → produced w (slot_of key) fp stored →
  layer_safely i (embed StoreCall (complete key fp lease stored))
    (λ a w', complete_evidence key fp stored a (lw_history w')) w.
Proof.
  intros Hw Hf Hl Hs Hp.
  eapply safe_mono; [|eapply (safe_store i _ (completes key fp lease stored) _
    (λ w, produced w (slot_of key) fp stored)); [..|done|]].
  - by intros a w' [].
  - intros w1 w2 Hr. by apply produced_onward, Hr.
  - intros w1 s _ Hp1 Hb slot record Hv.
    destruct (Hb _ _ Hv) as [?|(-> & -> & _)]; [by left|by right].
  - apply complete_ok; [apply (li_store _ Hw)|done|done|done].
Qed.

(** ** The other calls *)

Lemma read_safe i limit body w : layer_inv w →
  layer_safely i (ask (ReadBody limit body))
    (λ a w', match a with Ok bytes => bytes = body ∧ Z.of_nat (length bytes) ≤ limit | Err _ => True end
             ∧ (not_run i w → not_run i w')) w.
Proof.
  intros Hw. apply safe_ask. intros w1 answer w2 Hr Hw1 [-> Ha]. split; [done|].
  split; [by split; [reflexivity|]|]. intros w3 Hr3 _. split; [by destruct answer|].
  intros Hq. eapply not_run_rely; [exact Hr3|]. by eapply not_run_rely.
Qed.

Lemma draw_safe i w : layer_inv w → not_run i w →
  layer_safely i (ask FillBytes) (λ lease w', (i, lease) ∈ lw_leases w' ∧ lease_wf lease ∧ not_run i w') w.
Proof.
  intros Hw Hq. apply safe_ask. intros w1 lease w2 Hr Hw1 (Hl & Hfresh & ->).
  destruct (draw_step i w1 lease Hw1 Hl Hfresh) as [Hi Hg]. split; [done|]. split; [done|].
  intros w3 Hr3 _. split; [|split; [done|]].
  - apply (on_leases _ _ (proj1 Hr3)). set_solver.
  - eapply not_run_rely; [exact Hr3|]. intros x. simpl. by apply (not_run_rely i w).
Qed.

(** The handler is run with a request it may run, and answers. *)
Lemma next_run_safe i request w : layer_inv w →
  (∀ slot fp, claims request slot fp → granted w i slot fp) →
  layer_safely i (next_run request)
    (λ response w', (i, request) ∈ lw_runs w' ∧ (i, response) ∈ lw_responses w'
                    ∧ 100 ≤ rs_status response ≤ 999) w.
Proof.
  intros Hw Hg. unfold next_run. eapply (safe_bind _ _ (λ _ w', (i, request) ∈ lw_runs w')); [| |done].
  - apply safe_ask. intros w1 [] w2 Hr Hw1 ->.
    destruct (run_step i w1 request Hw1) as [Hi Hgu].
    { intros slot fp Hc. eapply granted_onward; [apply Hr|auto]. }
    split; [done|]. split; [done|]. intros w3 Hr3 _. apply (on_runs _ _ (proj1 Hr3)). set_solver.
  - intros _ w1 _ Hw1 Hrun. apply safe_ask. intros w2 response w3 Hr Hw2 [Hs ->].
    destruct (response_step i w2 response Hw2) as [Hi Hgu]. split; [done|]. split; [done|].
    intros w4 Hr4 _. split; [|split; [|done]].
    + apply (on_runs _ _ (proj1 Hr4)). simpl. by apply (on_runs _ _ (proj1 Hr)).
    + apply (on_responses _ _ (proj1 Hr4)). set_solver.
Qed.
End system.
