(* ===== verification/IdempotencyGuarantees.v ===== *)
(** * Idempotent requests: what is guaranteed

    What every answer of the middleware stands for, whatever the store; and for
    a store that does not forget: how often a handler can run for a key, that
    one request owns a key for good, and that a recorded response is final.
    Everything is proved against [StoreContract] and [DurableContract] and then
    read off for the in-process, the PostgreSQL and the Redis store. *)

From Stdlib Require Import ZArith Lia.
From S2P Require Import Prelude AsyncProg Bytes SagaIdentity SagaState SagaDefinition.
From S2P Require Import Idempotency IdempotencyPg IdempotencyRedis IdempotencyLayer IdempotencySafety.
From stdpp Require Import prelude strings list gmap relations.

Local Open Scope Z_scope.
Local Open Scope rust_scope.

Section guarantees.
Context `{HttpText} (sha256 : list Z → list Z) `{!Digest32 sha256}.
Context {B : Backend} `{!StoreContract B} (state : LayerState).

Abbreviation admits := (admission sha256 state).
Abbreviation reached := (layer_reachable sha256 state).
Abbreviation inv := (layer_inv sha256 state).
Abbreviation layer_safe i := (safely (layer_handle i) inv (layer_rely i) (layer_guar i)).

(** What an answer to an admitted request stands for. *)
Inductive explained (i : nat) (request : HttpRequest) (key : IdempotencyKey) (w : LayerWorld)
    : LayerResponse → Prop :=
| ex_too_large :
    not_run i w → explained i request key w (Problem 413 "idempotency_body_too_large" None)
| ex_unavailable :
    not_run i w → explained i request key w (Problem 503 "idempotency_store_unavailable"
      (Some "the idempotency store is temporarily unavailable; retry later"))
| ex_in_flight record :
    not_run i w → was (lw_history w) (slot_of key) record →
    explained i request key w (Problem 409 "idempotency_in_flight"
      (Some "a request with the same Idempotency-Key is still in progress"))
| ex_reuse record :
    not_run i w → was (lw_history w) (slot_of key) record →
    record_fingerprint record ≠ request_fingerprint sha256 key request →
    explained i request key w (Problem 422 "idempotency_key_reuse"
      (Some "the Idempotency-Key was reused with a different request body"))
| ex_replayed stored :
    not_run i w → was (lw_history w) (slot_of key) (Completed (request_fingerprint sha256 key request) stored) →
    explained i request key w (Plain (stored_response stored))
| ex_passed response :
    (i, request) ∈ lw_runs w → (i, response) ∈ lw_responses w →
    storable_status (rs_status response) = false → explained i request key w (Plain response)
| ex_recorded response :
    (i, request) ∈ lw_runs w → (i, response) ∈ lw_responses w →
    was (lw_history w) (slot_of key) (Completed (request_fingerprint sha256 key request) (recorded response)) →
    explained i request key w (Plain response)
| ex_unrecordable response :
    (i, request) ∈ lw_runs w → (i, response) ∈ lw_responses w →
    storable_status (rs_status response) = true → explained i request key w (Plain (stored_response sentinel))
| ex_lost :
    (i, request) ∈ lw_runs w → explained i request key w (Problem 409 "idempotency_lease_lost" None)
| ex_unconfirmed :
    (i, request) ∈ lw_runs w → explained i request key w (Problem 503 "idempotency_completion_unavailable" None).

(** A key the store refuses before it touches anything. *)
Definition refuses (key : IdempotencyKey) : Prop :=
  ∃ error, ∀ fp lease, begin key fp lease = Done (Err error).

Definition refusal (answer : LayerResponse) : Prop :=
  answer = Problem 413 "idempotency_body_too_large" None ∨
  answer = Problem 503 "idempotency_store_unavailable"
    (Some "the idempotency store is temporarily unavailable; retry later").

Definition answer_ok (i : nat) (request : HttpRequest) (answer : LayerResponse) (w : LayerWorld) : Prop :=
  match admits request with
  | Transparent =>
      ∃ response, answer = Plain response ∧ (i, request) ∈ lw_runs w ∧ (i, response) ∈ lw_responses w
  | Refused response => answer = response ∧ not_run i w
  | Keyed key => explained i request key w answer ∧ (refuses key → not_run i w ∧ refusal answer)
  end.

Lemma storable_in_range status : storable_status status = true → status_storable status = true.
Proof.
  unfold storable_status, is_success, is_redirection, status_storable. simpl.
  rewrite !orb_true_iff, !andb_true_iff. lia.
Qed.

Lemma set_rq_body_same request : set_rq_body (rq_body request) request = request.
Proof. by destruct request. Qed.
Lemma response_eta response : mkResponse (rs_status response) (rs_headers response) (rs_body response) = response.
Proof. by destruct response. Qed.

Lemma request_wf key request : fingerprint_wf (request_fingerprint sha256 key request).
Proof. apply (digest_length (sha256 := sha256)). Qed.

(** ** The middleware is safe *)

Lemma first_execution_safe i request key lease w :
  admits request = Keyed key → inv w → lease_wf lease → (i, lease) ∈ lw_leases w →
  let fp := request_fingerprint sha256 key request in
  was (lw_history w) (slot_of key) (InFlight fp lease) →
  layer_safe i (first_execution request (rq_body request) key fp lease)
    (λ answer w', explained i request key w' answer) w.
Proof.
  intros Ha Hw Hl Hin fp Hwas. unfold first_execution. rewrite set_rq_body_same.
  assert (Hfp : fingerprint_wf fp) by apply request_wf.
  eapply safe_bind; [apply next_run_safe; [done|]| |done].
  { intros slot fp' (key' & Ha' & <- & <-). rewrite Ha in Ha'. injection Ha' as <-. by exists lease. }
  intros response w1 _ Hw1 (Hrun & Hresp & Hrange).
  destruct (storable_status (rs_status response)) eqn:Hst; simpl negb; cbv iota.
  2:{ intros w2 Hr2 _. apply ex_passed; [by apply (on_runs _ _ (proj1 Hr2))
        |by apply (on_responses _ _ (proj1 Hr2))|done]. }
  assert (Hclaims : claims sha256 state request (slot_of key) fp) by by exists key.
  eapply safe_bind; [by apply read_safe| |done]. intros read w2 Ho2 Hw2 [Hread _].
  assert (Hrun2 : (i, request) ∈ lw_runs w2) by by apply (on_runs _ _ Ho2).
  assert (Hresp2 : (i, response) ∈ lw_responses w2) by by apply (on_responses _ _ Ho2).
  destruct read as [bytes|[]].
  - destruct Hread as [-> Hlen]. rewrite response_eta.
    eapply safe_bind; [apply complete_safe; try done; [by apply storable_in_range|]| |done].
    { exists i, request, response. do 3 (split; [done|]). split; [done|by left]. }
    intros completed w3 Ho3 Hw3 Hev. destruct completed as [[]|e]; intros w4 Hr4 _.
    + apply ex_recorded; [by apply (on_runs _ _ (proj1 Hr4)), (on_runs _ _ Ho3)
        |by apply (on_responses _ _ (proj1 Hr4)), (on_responses _ _ Ho3)|].
      apply (was_onward w3); [apply Hr4|by apply Hev].
    + apply ex_lost. by apply (on_runs _ _ (proj1 Hr4)), (on_runs _ _ Ho3).
    + apply ex_unconfirmed. by apply (on_runs _ _ (proj1 Hr4)), (on_runs _ _ Ho3).
  - eapply safe_bind; [apply complete_safe; try done| |done].
    { exists i, request, response. do 3 (split; [done|]). split; [done|by right]. }
    intros completed w3 Ho3 Hw3 _ w4 Hr4 _. eapply ex_unrecordable; [| |done].
    + by apply (on_runs _ _ (proj1 Hr4)), (on_runs _ _ Ho3).
    + by apply (on_responses _ _ (proj1 Hr4)), (on_responses _ _ Ho3).
Qed.

Lemma idempotency_safe i request w : inv w → layer_idle i w →
  layer_safe i (idempotency sha256 state request) (answer_ok i request) w.
Proof.
  intros Hw (_ & Hq & _). unfold idempotency, answer_ok. destruct (admits request) as [|refusal|key] eqn:Ha.
  - eapply safe_bind; [apply next_run_safe; [done|]| |done].
    { intros slot fp (key & Hk & _). by rewrite Ha in Hk. }
    intros response w1 _ _ (Hrun & Hresp & _) w2 Hr _. exists response.
    split; [done|]. split; [by apply (on_runs _ _ (proj1 Hr))|by apply (on_responses _ _ (proj1 Hr))].
  - intros w1 Hr _. split; [done|]. by eapply not_run_rely.
  - eapply safe_bind; [by apply read_safe| |done]. intros [bytes|[]] w1 _ Hw1 [Hread Hq1]; specialize (Hq1 Hq).
    2:{ intros w2 Hr2 _. pose proof (not_run_rely _ _ _ Hr2 Hq1). split; [by apply ex_too_large|]. by split; [|left]. }
    destruct Hread as [-> _].
    eapply safe_bind; [by apply draw_safe| |done]. intros lease w2 _ Hw2 (Hin & Hl & Hq2).
    eapply safe_bind; [apply safe_immediate, begin_safe; try done; apply (request_wf key request)| |done].
    intros outcome w3 _ Hw3 [(Hev & Hin3 & Hq3) Himm].
    assert (Hrefuses : ∀ r, outcome = Ok r → ¬ refuses key).
    { intros r -> (error & He). specialize (Himm (Err error)). rewrite He in Himm. by specialize (Himm eq_refl). }
    destruct outcome as [[|stored| |]|e]; simpl in Hev.
    + eapply safe_mono; [|by apply first_execution_safe]. intros answer w4 Hex. split; [done|].
      intros Hr. by destruct (Hrefuses _ eq_refl).
    + intros w4 Hr4 _. split; [|intros Hr; by destruct (Hrefuses _ eq_refl)].
      apply ex_replayed; [by eapply not_run_rely|]. by eapply was_onward; [apply Hr4|].
    + destruct Hev as (record & Hrec). intros w4 Hr4 _. split; [|intros Hr; by destruct (Hrefuses _ eq_refl)].
      apply (ex_in_flight _ _ _ _ record); [by eapply not_run_rely|]. by eapply was_onward; [apply Hr4|].
    + destruct Hev as (record & Hrec & Hne). intros w4 Hr4 _.
      split; [|intros Hr; by destruct (Hrefuses _ eq_refl)].
      apply (ex_reuse _ _ _ _ record); [by eapply not_run_rely|by eapply was_onward; [apply Hr4|]|done].
    + intros w4 Hr4 _. pose proof (not_run_rely _ _ _ Hr4 Hq3). split; [by apply ex_unavailable|].
      by split; [|right].
Qed.

Lemma layer_rules :
  pool_rules (idempotency sha256 state) layer_handle layer_env inv layer_rely layer_guar onward
    layer_idle answer_ok.
Proof.
  split.
  - intros w w' Hw He. by apply (env_step sha256 state).
  - by intros i w w' [].
  - intros i j w w' Hne [Ho Hu]. split; [done|]. by apply Hu.
  - intros i w w' [_ (H1 & H2 & H3)] (Hl & Hr & Hs). split_and!; intros x Hx; [by eapply Hl, H1
      |by eapply Hr, H2|by eapply Hs, H3].
  - intros i request w. apply idempotency_safe.
Qed.

Lemma init_inv w : layer_init w → inv w ∧ ∀ i, layer_idle i w.
Proof.
  intros (s & Hs & ->). destruct (fresh_ok s Hs) as [Hok Hnone]. split; [|intros i; split_and!; set_solver].
  split; simpl; try set_solver.
  - exists s. by split.
  - intros slot fp lease (s' & ->%list_elem_of_singleton & Hv). by rewrite Hnone in Hv.
  - intros slot fp stored (s' & ->%list_elem_of_singleton & Hv). by rewrite Hnone in Hv.
Qed.

Lemma reachable_inv pool : reached pool → inv (pool_world pool).
Proof. intros Hr. by apply (pool_reachable_ok _ _ _ _ _ _ _ _ _ _ _ layer_rules init_inv) in Hr as []. Qed.

Lemma reachable_steps pool pool' : reached pool →
  rtc (pool_step (idempotency sha256 state) layer_handle layer_env) pool pool' →
  reached pool' ∧ onward (pool_world pool) (pool_world pool').
Proof.
  intros (w & Hw & Hrun) Hrun'. split; [exists w; split; [done|by etrans]|].
  assert (pool_ok layer_handle inv layer_rely layer_guar layer_idle answer_ok pool) as Hok.
  { apply (pool_reachable_ok _ _ _ _ _ _ _ _ _ _ _ layer_rules init_inv). by exists w. }
  by destruct (pool_steps_ok _ _ _ _ _ _ _ _ _ _ _ layer_rules Hrun' Hok).
Qed.

Lemma finished_answer_ok pool i request answer : reached pool →
  pool_tasks pool !! i = Some (request, Some (Done answer)) →
  inv (pool_world pool) ∧ answer_ok i request answer (pool_world pool).
Proof. intros Hr Hi. eapply (pool_finished _ _ _ _ _ _ _ _ _ _ _ _ _ _ layer_rules init_inv Hr Hi). Qed.

(** C24. Every answer the middleware gives has its reason, in every interleaving
    of requests, cancellations and store failures: a request without a key gets
    its handler's response; a refused one never reaches a handler; an admitted
    one was either not executed, and the store at some moment held the record
    that says why, or it was executed, and gets the response that is on record,
    the unstorable response, or a problem that leaves the outcome open. *)
Theorem every_answer_explained pool i request answer :
  reached pool → pool_tasks pool !! i = Some (request, Some (Done answer)) →
  answer_ok i request answer (pool_world pool).
Proof. intros Hr Hi. by apply (finished_answer_ok pool). Qed.

Lemma replay_origin pool i request key response :
  reached pool → admits request = Keyed key →
  pool_tasks pool !! i = Some (request, Some (Done (Plain response))) → not_run i (pool_world pool) →
  ∃ stored, response = stored_response stored ∧
    produced sha256 state (pool_world pool) (slot_of key) (request_fingerprint sha256 key request) stored.
Proof.
  intros Hr Ha Hi Hq. destruct (finished_answer_ok pool i request _ Hr Hi) as [Hinv Hans].
  unfold answer_ok in Hans. rewrite Ha in Hans. destruct Hans as [Hex _].
  inversion Hex; subst; try (by edestruct Hq). eexists. split; [done|]. by apply (li_completed _ _ _ Hinv).
Qed.

(** ** Stores that do not forget *)

Section durable.
Context `{!DurableContract B}.

Lemma steps_present (R : Store → Store → Prop) h h' :
  rtc (grown R) h h' → rtc R (present h) (present h').
Proof.
  induction 1 as [h|h1 h2 h3 (s & Hs & ->) _ IH]; [done|]. eapply rtc_l; [exact Hs|exact IH].
Qed.

(** A property of histories that starts with the store and survives moves. *)
Lemma from_fresh_ind (P : History Store → Prop) :
  (∀ s, fresh_store s → P (mkHistory s [])) →
  (∀ h s, P h → store_ok (present h) → move (present h) s → P (push s h)) →
  ∀ h, from_fresh h → store_ok (present h) ∧ P h.
Proof.
  intros H0 Hs h (s0 & Hf & Hrun).
  apply (rtc_ind_r (λ h, store_ok (present h) ∧ P h)) with (3 := Hrun).
  - split; [by apply fresh_ok|auto].
  - intros h1 h2 _ (s & Hm & ->) [Hok HP]. split; [by eapply move_ok|auto].
Qed.

(** What was on record is still there, with its fingerprint. *)
Lemma was_kept h slot record : from_fresh h → was h slot record →
  ∃ record', view (present h) slot = Some record' ∧ record_fingerprint record' = record_fingerprint record ∧
    ∀ fp stored, record = Completed fp stored → record' = record.
Proof.
  intros Hc. revert record. apply (from_fresh_ind (λ h, ∀ record, was h slot record → _)) with (3 := Hc).
  - intros s Hf record (s' & ->%list_elem_of_singleton & Hv). by rewrite (proj2 (fresh_ok s Hf)) in Hv.
  - intros h1 s IH Hok Hm record [Hv|Hw]%was_push; [by exists record|].
    destruct (IH record Hw) as (r1 & Hv1 & Hf1 & Hc1).
    pose proof (move_carries _ _ slot Hok Hm) as Hcar. rewrite Hv1 in Hcar. simpl.
    destruct r1 as [fp1 l1|fp1 st1]; simpl in *.
    + destruct Hcar as (r2 & Hv2 & Hf2). exists r2. split; [done|]. split; [congruence|].
      intros fp st Heq. specialize (Hc1 _ _ Heq). by subst.
    + exists (Completed fp1 st1). done.
Qed.

(** The leases a slot was ever held with. *)
Lemma owners_bounded h slot : from_fresh h →
  ∃ leases, (length leases ≤ epoch (present h) slot)%nat ∧
    ∀ fp lease, was h slot (InFlight fp lease) → lease ∈ leases.
Proof.
  intros Hc. apply (from_fresh_ind (λ h, ∃ leases, (length leases ≤ epoch (present h) slot)%nat ∧
    ∀ fp lease, was h slot (InFlight fp lease) → lease ∈ leases)) with (3 := Hc).
  - intros s Hf. exists []. split; [simpl; lia|].
    intros fp l (s' & ->%list_elem_of_singleton & Hv). by rewrite (proj2 (fresh_ok s Hf)) in Hv.
  - intros h1 s (leases & Hlen & Hall) Hok Hm. simpl.
    destruct (move_epoch _ _ slot Hok Hm) as [Hle Hsame].
    destruct (decide (epoch s slot = epoch (present h1) slot)) as [Heq|Hne].
    + exists leases. split; [lia|]. intros fp l [Hv|Hw]%was_push; [|by eapply Hall].
      by eapply Hall, was_now, Hsame.
    + destruct (view s slot) as [[fp0 l0|fp0 st0]|] eqn:Hv.
      * exists (l0 :: leases). split; [simpl; lia|]. intros fp l [Hv'|Hw]%was_push; [|right; by eapply Hall].
        rewrite Hv in Hv'. injection Hv' as _ <-. by left.
      * exists leases. split; [lia|]. intros fp l [Hv'|Hw]%was_push; [congruence|by eapply Hall].
      * exists leases. split; [lia|]. intros fp l [Hv'|Hw]%was_push; [congruence|by eapply Hall].
Qed.

(** Requests whose leases are among [leases]. *)
Lemma owners_counted (drawn : list (nat * ExecutionLease)) (requests : list nat) (leases : list ExecutionLease) :
  (∀ i j lease, (i, lease) ∈ drawn → (j, lease) ∈ drawn → i = j) → NoDup requests →
  (∀ i, i ∈ requests → ∃ lease, (i, lease) ∈ drawn ∧ lease ∈ leases) →
  (length requests ≤ length leases)%nat.
Proof.
  intros Huniq Hnd Hall.
  set (owner lease := match find_first (λ p : nat * ExecutionLease, bool_decide (p.2 = lease)) drawn with
                      | Some p => p.1 | None => O end).
  rewrite <- (length_map owner leases). apply submseteq_length, NoDup_submseteq; [done|].
  intros i Hi. destruct (Hall i Hi) as (lease & Hd & Hl). apply list_elem_of_fmap. exists lease.
  split; [|done]. unfold owner.
  destruct (find_first _ drawn) as [[j l]|] eqn:Hf.
  - apply find_first_Some in Hf as [Hj Hb%bool_decide_eq_true]. simpl in *. subst l. by eapply Huniq.
  - rewrite find_first_None in Hf. specialize (Hf _ Hd). by rewrite bool_decide_true in Hf.
Qed.

(** No more requests of a slot reach their handlers than the store gave out
    execution rights for it. *)
Lemma executions_bounded pool slot (requests : list nat) :
  reached pool → NoDup requests →
  (∀ i, i ∈ requests → ∃ request fp, (i, request) ∈ lw_runs (pool_world pool) ∧
     claims sha256 state request slot fp) →
  (length requests ≤ epoch (present (lw_history (pool_world pool))) slot)%nat.
Proof.
  intros Hr%reachable_inv Hnd Hruns.
  destruct (owners_bounded _ slot (li_chain _ _ _ Hr)) as (leases & Hlen & Hall).
  etrans; [|exact Hlen]. eapply owners_counted; [apply (li_unique _ _ _ Hr)|done|].
  intros i Hi. destruct (Hruns i Hi) as (request & fp & Hrun & Hc).
  destruct (li_runs _ _ _ Hr _ _ _ _ Hrun Hc) as (lease & Hd & Hw). eauto.
Qed.

(** A key belongs to one request for good: all executions of a slot have the
    same fingerprint, so the same key with another method, route, query,
    content type or body is never executed. *)
Theorem one_request_per_key pool slot i j request request' fp fp' :
  reached pool →
  (i, request) ∈ lw_runs (pool_world pool) → claims sha256 state request slot fp →
  (j, request') ∈ lw_runs (pool_world pool) → claims sha256 state request' slot fp' →
  fp = fp'.
Proof.
  intros Hr%reachable_inv Hi Hc Hj Hc'.
  destruct (li_runs _ _ _ Hr _ _ _ _ Hi Hc) as (l & _ & Hw), (li_runs _ _ _ Hr _ _ _ _ Hj Hc') as (l' & _ & Hw').
  destruct (was_kept _ _ _ (li_chain _ _ _ Hr) Hw) as (r & Hv & Hf & _).
  destruct (was_kept _ _ _ (li_chain _ _ _ Hr) Hw') as (r' & Hv' & Hf' & _).
  simpl in *. congruence.
Qed.

(** After a completed record, the slot sees nothing else. *)
Lemma completed_closes h h' slot fp stored record :
  rtc (grown move) h h' → store_ok (present h) → view (present h) slot = Some (Completed fp stored) →
  was h' slot record → was h slot record ∨ record = Completed fp stored.
Proof.
  intros Hrun. induction Hrun as [h|h1 h2 h3 (s & Hm & ->) _ IH]; [by left|]. intros Hok Hv Hw.
  pose proof (move_carries _ _ slot Hok Hm) as Hcar. rewrite Hv in Hcar.
  destruct IH as [Hw2| ->]; [by eapply move_ok|done|done| |by right].
  apply was_push in Hw2 as [Hs|Hw1]; [|by left]. right. simpl in Hcar. congruence.
Qed.

(** C11. A recorded response is final: once the store has a completed record for
    a slot, a request for it that starts afterwards is never executed; if it
    gets a response, it is that record's, and the request has its fingerprint. *)
Theorem recorded_response_is_final pool pool' slot fp stored i request key task :
  reached pool → was (lw_history (pool_world pool)) slot (Completed fp stored) →
  rtc (pool_step (idempotency sha256 state) layer_handle layer_env) pool pool' →
  (length (pool_tasks pool) ≤ i)%nat → pool_tasks pool' !! i = Some (request, task) →
  admits request = Keyed key → slot_of key = slot →
  ((i, request) ∉ lw_runs (pool_world pool')) ∧
  ∀ response, task = Some (Done (Plain response)) →
    response = stored_response stored ∧ request_fingerprint sha256 key request = fp.
Proof.
  intros Hr Hwas Hrun Hlen Hi Ha Hslot. subst slot. destruct (reachable_steps _ _ Hr Hrun) as [Hr' Ho].
  pose proof (reachable_inv _ Hr) as Hinv. pose proof (reachable_inv _ Hr') as Hinv'.
  destruct (was_kept _ _ _ (li_chain _ _ _ Hinv) Hwas) as (record & Hv & _ & Hsame).
  rewrite (Hsame _ _ eq_refl) in Hv. clear record Hsame.
  assert (Hidle : layer_idle i (pool_world pool)).
  { apply (pool_reachable_ok _ _ _ _ _ _ _ _ _ _ _ layer_rules init_inv) in Hr as []. auto. }
  assert (Hnever : (i, request) ∉ lw_runs (pool_world pool')).
  { intros Hin. destruct (li_runs _ _ _ Hinv' i request (slot_of key) (request_fingerprint sha256 key request))
      as (lease & Hd & Hw); [done|by exists key|].
    destruct (completed_closes _ _ _ _ _ _ (on_history _ _ Ho) (li_store _ _ _ Hinv) Hv Hw) as [Hold|]; [|done].
    destruct (li_drawn _ _ _ Hinv _ _ _ Hold) as [j Hj].
    rewrite (li_unique _ _ _ Hinv' i j lease) in Hidle; [|done|by apply (on_leases _ _ Ho)].
    by apply (proj1 Hidle) in Hj. }
  split; [done|]. intros response ->.
  destruct (finished_answer_ok pool' i request _ Hr' Hi) as [_ Hans].
  unfold answer_ok in Hans. rewrite Ha in Hans. destruct Hans as [Hex _].
  inversion Hex as [| | | |st _ Hst| | | | |]; subst; try (by destruct Hnever).
  destruct (was_kept _ _ _ (li_chain _ _ _ Hinv') Hst) as (r & Hv1 & _ & Hr1).
  rewrite (Hr1 _ _ eq_refl) in Hv1.
  destruct (was_kept _ _ _ (li_chain _ _ _ Hinv') (was_onward _ _ _ _ Ho Hwas)) as (r' & Hv2 & _ & Hr2).
  rewrite (Hr2 _ _ eq_refl) in Hv2. by simplify_eq.
Qed.
End durable.
End guarantees.
