(* ===== verification/IdempotencyBackends.v ===== *)
(** * Idempotent requests on the three stores

    What the guarantees come to on each store: the in-process store executes a
    key once, the PostgreSQL store at most once per lease, and a replay on Redis
    is for the key that was asked.  Also the keys the middleware makes, and what
    survives a replay. *)

From Stdlib Require Import ZArith Lia.
From S2P Require Import Prelude AsyncProg Bytes SagaIdentity SagaState SagaDefinition.
From S2P Require Import Idempotency IdempotencyPg IdempotencyRedis IdempotencyLayer IdempotencySafety.
From S2P Require Import IdempotencyGuarantees.
From stdpp Require Import prelude strings list gmap relations.

Local Open Scope Z_scope.
Local Open Scope rust_scope.

(** ** The keys of admitted requests *)

Section keys.
Context `{HttpText} (sha256 : list Z → list Z) `{!Digest32 sha256} (state : LayerState).

Lemma length_hex x : len (hex_string x) = 2 * Z.of_nat (length x).
Proof. unfold len. induction x as [|b x IH]; simpl; [done|]. lia. Qed.

Lemma len_append s t : len (s +:+ t) = len s + len t.
Proof. unfold len. rewrite <- !length_as_bytes, as_bytes_app, length_app. lia. Qed.

Lemma bounded_len value max : 80 ≤ max → len (bounded_namespace sha256 value max) ≤ max ∧
  (1 ≤ len value → 1 ≤ len (bounded_namespace sha256 value max)).
Proof.
  intros Hm. unfold bounded_namespace. destruct (Z.leb_spec (len value) max); [done|].
  rewrite len_append, length_hex, digest_length. change (len "overflow-sha256:") with 16. lia.
Qed.

Lemma admitted_Some request key : admission sha256 state request = Keyed key →
  ∃ value principal identity, client_key_of value = Some (key_client_key key) ∧
    rq_principal request = Some principal ∧ identity_of principal = Some identity ∧
    key_tenant key = bounded_namespace sha256 (default "" (principal_tenant principal)) 128 ∧
    key_subject key = bounded_namespace sha256 identity 190 ∧
    key_route_id key = route_id_of sha256 request.
Proof.
  unfold admission. destruct (get_all _ _) as [|value [|]]; try done.
  destruct (client_key_of value) as [ck|] eqn:Hck; [|done].
  destruct (route_has_crypto _ _ _) as [[]|]; try done.
  unfold namespace_of. destruct (rq_principal request) as [principal|]; [|done]. simpl.
  destruct (identity_of principal) as [identity|] eqn:Hid; [|done]. simpl. intros [= <-].
  by exists value, principal, identity.
Qed.

Lemma client_key_bounds value key : client_key_of value = Some key →
  1 ≤ len key ≤ 190 ∧ forallb (λ byte, (33 <=? byte) && (byte <=? 126)) (as_bytes key) = true.
Proof.
  unfold client_key_of. destruct (to_str value) as [text|]; [|done]. simpl.
  destruct (_ && _) eqn:Hc; [|done]. intros [= <-].
  apply andb_prop in Hc as [[Hn%negb_true_iff%is_empty_spec Hl%Z.leb_le]%andb_prop Hb].
  unfold MAX_CLIENT_KEY_BYTES in Hl. split; [lia|done].
Qed.

Lemma identity_bounds principal identity : identity_of principal = Some identity → 1 ≤ len identity.
Proof.
  unfold identity_of. destruct (non_blank _) as [v|].
  - intros [= <-]. rewrite len_append. change (len "sub:") with 4. pose proof (len_nonneg v). lia.
  - destruct (non_blank _) as [v|]; [|done]. intros [= <-]. rewrite len_append.
    change (len "client:") with 7. pose proof (len_nonneg v). lia.
Qed.

Lemma admitted_bounds request key : admission sha256 state request = Keyed key →
  len (key_tenant key) ≤ 128 ∧ 1 ≤ len (key_subject key) ≤ 190 ∧ 1 ≤ len (key_route_id key) ≤ 190 ∧
  1 ≤ len (key_client_key key) ≤ 190.
Proof.
  intros (value & principal & identity & Hck & _ & Hid & -> & -> & ->)%admitted_Some.
  apply client_key_bounds in Hck as [Hck _]. apply identity_bounds in Hid.
  destruct (bounded_len (default "" (principal_tenant principal)) 128) as [? _]; [lia|].
  destruct (bounded_len identity 190) as [? Hi]; [lia|]. unfold route_id_of.
  destruct (bounded_len (rq_method request +:+ " " +:+ matched_path request) 190) as [? Hr]; [lia|].
  rewrite !len_append in Hr. change (len " ") with 1 in Hr.
  pose proof (len_nonneg (rq_method request)). pose proof (len_nonneg (matched_path request)).
  specialize (Hi Hid). specialize (Hr ltac:(lia)). lia.
Qed.

Lemma admitted_fits request key : admission sha256 state request = Keyed key → key_fits key.
Proof.
  intros (? & ? & ? & ?)%admitted_bounds. unfold key_fits, key_components.
  repeat (constructor; [lia|]). constructor.
Qed.

Definition nul_inside (value : string) : bool := existsb (λ b, b =? 0) (as_bytes value).

Lemma visible_no_nul s : forallb (λ byte, (33 <=? byte) && (byte <=? 126)) (as_bytes s) = true → nul_inside s = false.
Proof.
  intros Hv. apply not_true_iff_false. intros (b & Hb & Hz%Z.eqb_eq)%existsb_elem_of.
  rewrite forallb_elem_of in Hv. specialize (Hv _ Hb). lia.
Qed.

Lemma component_ok_spec value max : component_ok value max = true ↔ 1 ≤ len value ≤ max ∧ nul_inside value = false.
Proof.
  unfold component_ok, is_empty. fold (nul_inside value). pose proof (len_nonneg value).
  destruct (nul_inside value); rewrite ?orb_true_r, ?orb_false_r; simpl; [split; [done|by intros []]|].
  split; [intros; split; [lia|done]|intros [? _]; lia].
Qed.

(** Long identities are shortened to what the columns hold, so the durable
    store refuses the key of an admitted request exactly when the tenant is
    empty or the tenant, the subject or the route contains a NUL byte. *)
Theorem admitted_key_refused_iff request key :
  admission sha256 state request = Keyed key →
  is_ok (pg_validate_key key) = false ↔
  key_tenant key = "" ∨ nul_inside (key_tenant key) || nul_inside (key_subject key) || nul_inside (key_route_id key) = true.
Proof.
  intros Ha. destruct (admitted_bounds _ _ Ha) as (Ht & Hs & Hr & Hc).
  apply admitted_Some in Ha as (value & _ & _ & [_ Hvis]%client_key_bounds & _).
  apply visible_no_nul in Hvis.
  assert (Hemp : key_tenant key = "" ↔ len (key_tenant key) = 0).
  { split; [by intros ->|]. unfold len. destruct (key_tenant key); [done|]. simpl. lia. }
  assert (Hval : is_ok (pg_validate_key key) =
    component_ok (key_tenant key) 128 && component_ok (key_subject key) 190
    && component_ok (key_route_id key) 190 && component_ok (key_client_key key) 190).
  { unfold pg_validate_key. by destruct (_ && _). }
  rewrite Hemp, Hval, <- not_true_iff_false, !andb_true_iff, !component_ok_spec, Hvis.
  pose proof (len_nonneg (key_tenant key)).
  destruct (nul_inside (key_tenant key)), (nul_inside (key_subject key)), (nul_inside (key_route_id key));
    simpl; split; intros; try lia; intuition lia.
Qed.
End keys.

(** ** Replays *)

Section replays.
Context `{HttpText}.

(** The header values that survive: text of at most a kilobyte. *)
Definition replayable (value : list Z) : bool :=
  match to_str value with Some text => len text <=? 1024 | None => false end.

Lemma replay_values name headers : name ∈ ALLOWED →
  replay_headers (stored_values name headers) =
  map (pair name) (List.filter replayable (take 4 (get_all name headers))).
Proof.
  intros Hin. assert (Hname : name_try_from name = Some name).
  { pose proof standard_names as Hst. rewrite list.Forall_forall in Hst. by apply Hst. }
  unfold stored_values. induction (take 4 (get_all name headers)) as [|value values IH]; [done|].
  simpl. unfold replayable at 1. destruct (to_str value) as [text|] eqn:Ht; [|done].
  destruct (len text <=? 1024); [|done]. simpl. unfold replay_headers in *. simpl.
  by rewrite Hname, (value_roundtrip _ _ Ht), IH.
Qed.

Lemma replay_headers_app xs ys : replay_headers (xs ++ ys) = replay_headers xs ++ replay_headers ys.
Proof. unfold replay_headers. by rewrite map_app, concat_app. Qed.

(** A replay repeats the recorded response exactly: the same status, the same
    body, and of the whitelisted headers the first four values each, in order,
    as far as they are text of at most 1024 bytes; nothing else. *)
Theorem replay_repeats_recorded (response : HttpResponse) :
  100 ≤ rs_status response ≤ 999 →
  stored_response (recorded response) =
  {| rs_status := rs_status response;
     rs_headers := concat (map (λ name, map (pair name)
       (List.filter replayable (take 4 (get_all name (rs_headers response))))) ALLOWED);
     rs_body := rs_body response |}.
Proof.
  intros Hs. unfold stored_response, recorded. simpl stored_status. simpl stored_body.
  unfold status_from_u16. destruct (_ && _) eqn:Hb; [|lia]. simpl default. f_equal.
  simpl stored_headers. unfold storable_headers.
  assert (Hall : ∀ name, name ∈ ALLOWED → name ∈ ALLOWED) by done. revert Hall.
  generalize ALLOWED at 1 3 4 as names. intros names.
  induction names as [|name names IH]; intros Hall; [done|]. cbn [map concat].
  rewrite replay_headers_app, replay_values, IH; [done|..]; set_solver.
Qed.
End replays.

(** ** Requests behind a fingerprint *)

(** A fingerprint pins the request: two requests with the same fingerprint
    have the same method, route, query, content type and body, or the byte
    strings hashed are a collision of SHA-256. *)
Theorem fingerprint_pins_request sha256 request request' route_id route_id' bytes bytes' :
  let fields r route bytes := [as_bytes (rq_method r); as_bytes route; as_bytes (default "" (rq_query r));
    default [] (get_first "content-type" (rq_headers r)); bytes] in
  Forall field_fits (fields request route_id bytes) → Forall field_fits (fields request' route_id' bytes') →
  fingerprint sha256 request route_id bytes = fingerprint sha256 request' route_id' bytes' →
  (rq_method request = rq_method request' ∧ route_id = route_id' ∧
   default "" (rq_query request) = default "" (rq_query request') ∧
   default [] (get_first "content-type" (rq_headers request)) =
     default [] (get_first "content-type" (rq_headers request')) ∧ bytes = bytes') ∨
  (canonical_bytes (fields request route_id bytes) ≠ canonical_bytes (fields request' route_id' bytes') ∧
   sha256 (canonical_bytes (fields request route_id bytes)) =
     sha256 (canonical_bytes (fields request' route_id' bytes'))).
Proof.
  intros fields Hf Hf' Heq. unfold fingerprint in Heq. injection Heq as Heq.
  fold (fields request route_id bytes) in Heq. fold (fields request' route_id' bytes') in Heq.
  destruct (decide (canonical_bytes (fields request route_id bytes) =
    canonical_bytes (fields request' route_id' bytes'))) as [Hc|Hc]; [left|by right].
  apply canonical_bytes_inj in Hc; [|done..]. unfold fields in Hc.
  apply cons_inv in Hc as [H1 Hc]. apply cons_inv in Hc as [H2 Hc]. apply cons_inv in Hc as [H3 Hc].
  apply cons_inv in Hc as [H4 Hc]. apply cons_inv in Hc as [H5 _].
  split_and!; [by apply as_bytes_inj|by apply as_bytes_inj|by apply as_bytes_inj|done|done].
Qed.

(** ** In process *)

Section in_memory.
Context `{HttpText} (sha256 : list Z → list Z) `{!Digest32 sha256} (state : LayerState).
#[local] Existing Instance InMemoryIdempotencyStore.

(** With the in-process store a key is executed at most once: no two requests
    of the same key are ever handed to their handlers, however they interleave
    and whichever of them are cancelled. *)
Theorem in_memory_executes_once pool key i j request request' fp fp' :
  layer_reachable sha256 state pool →
  (i, request) ∈ lw_runs (pool_world pool) → claims sha256 state request key fp →
  (j, request') ∈ lw_runs (pool_world pool) → claims sha256 state request' key fp' →
  i = j.
Proof.
  intros Hr Hi Hc Hj Hc'. destruct (decide (i = j)) as [|Hne]; [done|exfalso].
  pose proof (executions_bounded sha256 state pool key [i; j] Hr) as Hb.
  pose proof (in_memory_epoch (present (lw_history (pool_world pool))) key) as H1.
  assert (2 ≤ epoch (present (lw_history (pool_world pool))) key)%nat; [|lia]. apply Hb.
  - apply NoDup_cons. split; [set_solver|apply NoDup_singleton].
  - intros k [->|[->|[]%elem_of_nil]%elem_of_cons]%elem_of_cons; eauto.
Qed.
End in_memory.

(** ** PostgreSQL *)

Section pgsql.
Context `{HttpText} `{HeaderJson} (sha256 : list Z → list Z) `{!Digest32 sha256} (state : LayerState).
#[local] Existing Instance PgIdempotencyStore.

(** C12. With the durable store a key is executed at most once per lease: when [n]
    requests of a key have been handed to their handlers, at least [n - 1]
    whole leases of five minutes have passed on the database's clock. *)
Theorem pg_executions_spaced (s0 : PgIdempotency) pool key (requests : list nat) :
  pg_rows s0 = ∅ →
  rtc (pool_step (idempotency sha256 state) layer_handle layer_env)
    (mkPool (mkLayerWorld (mkHistory s0 []) [] [] []) []) pool →
  NoDup requests →
  (∀ i, i ∈ requests → ∃ request fp, (i, request) ∈ lw_runs (pool_world pool) ∧
     claims sha256 state request key fp) →
  (Z.of_nat (length requests) - 1) * LEASE_MILLIS
  ≤ pg_clock (present (lw_history (pool_world pool))) - pg_clock s0.
Proof.
  intros Hempty Hrun Hnd Hruns.
  assert (Hinit : layer_reachable sha256 state (mkPool (mkLayerWorld (mkHistory s0 []) [] [] []) [])).
  { eexists. split; [|apply rtc_refl]. by exists s0. }
  destruct (reachable_steps sha256 state _ _ Hinit Hrun) as [Hr Ho].
  set (s := present (lw_history (pool_world pool))).
  assert (length requests ≤ generation s key)%nat.
  { exact (executions_bounded sha256 state pool key requests Hr Hnd Hruns). }
  assert (Z.of_nat (generation s key) * LEASE_MILLIS ≤ pg_clock s - pg_clock s0 + LEASE_MILLIS).
  { apply generation_bound; [done|]. exact (steps_present _ _ _ (on_history _ _ Ho)). }
  unfold LEASE_MILLIS in *. lia.
Qed.

(** C35. A principal without a tenant cannot use idempotent requests on the
    durable store: whatever its request, once it is admitted the only answers
    are that its body is too large or that the store is temporarily
    unavailable, and its handler does not run. *)
Theorem tenantless_requests_refused pool i request principal key answer :
  layer_reachable sha256 state pool →
  rq_principal request = Some principal → default "" (principal_tenant principal) = "" →
  admission sha256 state request = Keyed key →
  pool_tasks pool !! i = Some (request, Some (Done answer)) →
  refusal answer ∧ not_run i (pool_world pool).
Proof.
  intros Hr Hp Ht Ha Hi. destruct (finished_answer_ok sha256 state pool i request answer Hr Hi) as [_ Hans].
  unfold answer_ok in Hans. rewrite Ha in Hans. destruct Hans as [_ Href].
  destruct Href as [Hq Hre]; [|done]. exists (IdempotencyError_new "invalid idempotency key").
  apply admitted_Some in Ha as (_ & principal' & _ & _ & Hp' & _ & Htenant & _).
  rewrite Hp in Hp'. injection Hp' as <-. rewrite Ht in Htenant.
  intros fp lease. simpl. unfold pg_begin, pg_validate_key. by rewrite Htenant.
Qed.
End pgsql.

(** ** Redis *)

Section redis.
Context `{HttpText} `{HeaderJson} (sha256 : list Z → list Z) `{!Digest32 sha256} (state : LayerState).
Context (inflight_ttl completed_ttl : Z).
#[local] Existing Instance RedisIdempotencyStore.

(** C25. On Redis too, where records vanish, a request that is answer_ok without
    being executed is answer_ok with what a handler produced for the very same
    key (tenant, subject, route and client key) and fingerprint, unless the
    encodings of the two keys are a collision of SHA-256. *)
Theorem redis_replays_same_key pool i request key response :
  layer_reachable (B := RedisIdempotencyStore sha256 inflight_ttl completed_ttl) sha256 state pool →
  admission sha256 state request = Keyed key →
  pool_tasks pool !! i = Some (request, Some (Done (Plain response))) → not_run i (pool_world pool) →
  ∃ j request' response' stored key', j ≠ i ∧
    (j, request') ∈ lw_runs (pool_world pool) ∧ (j, response') ∈ lw_responses (pool_world pool) ∧
    admission sha256 state request' = Keyed key' ∧ (key' = key ∨ key_collision sha256 key' key) ∧
    request_fingerprint sha256 key' request' = request_fingerprint sha256 key request ∧
    on_record response' stored ∧ response = stored_response stored.
Proof.
  intros Hr Ha Hi Hq. destruct (replay_origin sha256 state pool i request key response Hr Ha Hi Hq)
    as (stored & -> & j & request' & response' & Hrun & (key' & Ha' & Hslot & Hfp) & Hresp & Hrec).
  exists j, request', response', stored, key'. split; [intros ->; by eapply Hq|]. split_and!; try done.
  apply redis_keys_apart; [by eapply admitted_fits..|exact Hslot].
Qed.
End redis.
