(* ===== verification/IdempotencyScenario.v ===== *)
(** * Idempotent requests: a run

    A driver that executes scripts of the system, and two runs of it: on
    PostgreSQL a request is cancelled while its handler runs, its lease expires,
    a second one takes over and completes, a third is given the recorded
    response and a fourth comes without a tenant; in process a request completes
    and the next one is given its response.  The theorems are applied to them. *)

From Stdlib Require Import ZArith Lia Ascii.
From S2P Require Import Prelude AsyncProg Bytes SagaIdentity SagaState SagaDefinition.
From S2P Require Import Idempotency IdempotencyPg IdempotencyRedis IdempotencyLayer IdempotencySafety.
From S2P Require Import IdempotencyGuarantees IdempotencyBackends.
From stdpp Require Import prelude strings list gmap relations.

Local Open Scope Z_scope.
Local Open Scope rust_scope.

(** ** A concrete surrounding *)

Definition demo_sha (x : list Z) : list Z :=
  to_be_bytes 32 (foldl (λ acc b, (acc * 31 + b) mod 2 ^ 61) 7 x).

#[export] Instance demo_sha32 : Digest32 demo_sha.
Proof. split; intros x; [apply length_to_be_bytes|apply to_be_bytes_range]. Qed.

Definition string_of_bytes (bs : list Z) : string :=
  foldr (λ b s, String (ascii_of_N (Z.to_N b)) s) EmptyString bs.

Lemma as_bytes_string bs : Forall (λ b, 0 ≤ b < 256) bs → as_bytes (string_of_bytes bs) = bs.
Proof.
  induction 1 as [|b bs Hb _ IH]; [done|]. simpl. rewrite IH. f_equal. unfold byte_of_ascii.
  rewrite N_ascii_embedding by lia. lia.
Qed.

Definition visible (b : Z) : bool := (32 <=? b) && (b <=? 126).
Definition demo_to_str (value : list Z) : option string :=
  if forallb visible value then Some (string_of_bytes value) else None.

Lemma demo_to_str_bytes value text : demo_to_str value = Some text → as_bytes text = value.
Proof.
  unfold demo_to_str. destruct (forallb visible value) eqn:Hv; [|done]. intros [= <-]. apply as_bytes_string.
  apply forallb_Forall in Hv. eapply Forall_impl; [exact Hv|]. unfold visible. simpl. lia.
Qed.

#[export] Instance demo_http : HttpText.
Proof.
  refine {| to_str := demo_to_str; name_try_from := Some; value_try_from := λ s, Some (as_bytes s) |}.
  - apply demo_to_str_bytes.
  - intros value text Ht. by rewrite (demo_to_str_bytes _ _ Ht).
  - repeat constructor.
Defined.

#[export] Instance StoredHeader_countable : Countable StoredHeader.
Proof.
  refine (inj_countable' (λ h, (header_name h, header_value h)) (λ '(a, b), mkStoredHeader a b) _).
  by intros [].
Defined.

#[export] Instance demo_json : HeaderJson.
Proof.
  refine {| headers_to_vec := λ hs, [Z.pos (encode hs)];
            headers_from_slice := λ bs, match bs with [Z.pos p] => countable.decode p | _ => None end |}.
  intros hs. apply decode_encode.
Defined.

(** ** The driver *)

Inductive Input :=
| At (time : Z)
| Drawn (lease : ExecutionLease)
| Answers (response : HttpResponse)
| Next.

Inductive Act :=
| Arrive (request : HttpRequest)
| Cancel (i : nat)
| Wait (time : Z)
| Go (i : nat) (input : Input).

Section driver.
Context {B : Backend} (state : LayerState).
Context (run_stmt : ∀ A, Stmt A → Z → Store → option (A * Store)).
Context (run_wait : Z → Store → option Store).

Abbreviation LayerPool := (Pool (E := LayerCall B) (W := LayerWorld) (T := HttpRequest) (A := LayerResponse)).

Definition answer_call {A} (i : nat) (call : LayerCall B A) (input : Input) (w : LayerWorld)
    : option (A * LayerWorld) :=
  match call in LayerCall _ A return option (A * LayerWorld) with
  | StoreCall A stmt =>
      match input with
      | At time =>
          match run_stmt A stmt time (present (lw_history w)) with
          | Some (answer, s) => Some (answer, set_history (push s (lw_history w)) w)
          | None => None
          end
      | _ => None
      end
  | ReadBody limit body =>
      if Z.of_nat (length body) <=? limit then Some (Ok body, w) else Some (Err tt, w)
  | FillBytes =>
      match input with
      | Drawn lease =>
          if (length (lease_bytes lease) =? 16)%nat
             && forallb (λ entry, negb (bool_decide (entry.2 = lease))) (lw_leases w)
          then Some (lease, mkLayerWorld (lw_history w) (lw_leases w ++ [(i, lease)]) (lw_runs w) (lw_responses w))
          else None
      | _ => None
      end
  | HandlerStart request =>
      Some (tt, mkLayerWorld (lw_history w) (lw_leases w) (lw_runs w ++ [(i, request)]) (lw_responses w))
  | HandlerResponse =>
      match input with
      | Answers response =>
          if (100 <=? rs_status response) && (rs_status response <=? 999)
          then Some (response, mkLayerWorld (lw_history w) (lw_leases w) (lw_runs w)
                                 (lw_responses w ++ [(i, response)]))
          else None
      | _ => None
      end
  end.

Definition act (a : Act) (pool : LayerPool) : option LayerPool :=
  let '(mkPool w tasks) := pool in
  match a with
  | Arrive request => Some (mkPool w (tasks ++ [(request, Some (idempotency demo_sha state request))]))
  | Cancel i =>
      match tasks !! i with
      | Some (t, Some _) => Some (mkPool w (<[i := (t, None)]> tasks))
      | _ => None
      end
  | Wait time =>
      match run_wait time (present (lw_history w)) with
      | Some s => Some (mkPool (set_history (push s (lw_history w)) w) tasks)
      | None => None
      end
  | Go i input =>
      match tasks !! i with
      | Some (t, Some (Await call k)) =>
          match answer_call i call input w with
          | Some (answer, w') => Some (mkPool w' (<[i := (t, Some (k answer))]> tasks))
          | None => None
          end
      | _ => None
      end
  end.

Fixpoint drive (script : list Act) (pool : LayerPool) : option LayerPool :=
  match script with
  | [] => Some pool
  | a :: script => match act a pool with Some pool => drive script pool | None => None end
  end.

Context (stmt_sound : ∀ A (stmt : Stmt A) t s answer s',
  run_stmt A stmt t s = Some (answer, s') → serve A stmt s answer s').
Context (wait_sound : ∀ t s s', run_wait t s = Some s' → elapse s s').

Lemma answer_call_sound {A} i (call : LayerCall B A) input w answer w' :
  answer_call i call input w = Some (answer, w') → layer_handle i A call w answer w'.
Proof.
  destruct call as [A stmt|limit body| |request|]; simpl.
  - destruct input as [t| | |]; try done. destruct (run_stmt _ _ _ _) as [[a s]|] eqn:Hs; [|done].
    intros [= <- <-]. exists s. split; [by eapply stmt_sound|done].
  - destruct (Z.leb_spec (Z.of_nat (length body)) limit); intros [= <- <-]; done.
  - destruct input as [|lease| |]; try done. destruct (_ && _) eqn:Hc; [|done]. intros [= <- <-].
    apply andb_prop in Hc as [Hl%Nat.eqb_eq Hf]. split; [done|]. split; [|done].
    intros j l Hin ->. rewrite forallb_elem_of in Hf. specialize (Hf _ Hin). simpl in Hf.
    by rewrite bool_decide_true in Hf.
  - by intros [= <- <-].
  - destruct input as [| |response|]; try done. destruct (_ && _) eqn:Hc; [|done]. intros [= <- <-].
    split; [lia|done].
Qed.

Lemma act_sound a pool pool' : act a pool = Some pool' →
  pool_step (idempotency demo_sha state) layer_handle layer_env pool pool'.
Proof.
  destruct pool as [w tasks], a as [request|i|t|i input]; simpl.
  - intros [= <-]. constructor.
  - destruct (tasks !! i) as [[t [p|]]|] eqn:Hi; try done. intros [= <-]. by econstructor.
  - destruct (run_wait _ _) as [s|] eqn:Hs; [|done]. intros [= <-]. constructor. exists s.
    split; [by eapply wait_sound|done].
  - destruct (tasks !! i) as [[t [[a|A call k]|]]|] eqn:Hi; try done.
    destruct (answer_call _ _ _ _) as [[answer w']|] eqn:Hc; [|done]. intros [= <-].
    econstructor; [done|]. by apply answer_call_sound with input.
Qed.

Lemma drive_sound script pool pool' : drive script pool = Some pool' →
  rtc (pool_step (idempotency demo_sha state) layer_handle layer_env) pool pool'.
Proof.
  revert pool. induction script as [|a script IH]; intros pool; simpl; [by intros [= <-]|].
  destruct (act a pool) as [pool1|] eqn:Ha; [|done]. intros Hd. eapply rtc_l; [by apply act_sound in Ha|auto].
Qed.

(** The last pool of a script, or the first if the script does not run. *)
Definition end_of (script : list Act) (pool : LayerPool) : LayerPool := default pool (drive script pool).

Lemma end_of_steps script pool :
  rtc (pool_step (idempotency demo_sha state) layer_handle layer_env) pool (end_of script pool).
Proof.
  unfold end_of. destruct (drive script pool) as [pool'|] eqn:Hd; [by apply drive_sound in Hd|by apply rtc_refl].
Qed.
End driver.

(** The answer of a task that has ended. *)
Definition ended {E A} (task : option (Prog E A)) : option A :=
  match task with Some (Done a) => Some a | _ => None end.

Lemma ended_task {E W T A} (pool : Pool (E := E) (W := W) (T := T) (A := A)) i t a :
  map fst (pool_tasks pool) !! i = Some t → map (ended ∘ snd) (pool_tasks pool) !! i = Some (Some a) →
  pool_tasks pool !! i = Some (t, Some (Done a)).
Proof.
  rewrite !list_lookup_fmap. destruct (pool_tasks pool !! i) as [[t' [[a'|B call k]|]]|]; simpl; naive_solver.
Qed.

(** ** The requests *)

Definition demo_layer : LayerState := mkLayerState (λ _ _, Ok false) "".

Definition order_by (tenant : option string) : HttpRequest :=
  {| rq_method := "POST"; rq_path := "/orders"; rq_query := None;
     rq_headers := [("content-type", as_bytes "application/json"); ("idempotency-key", as_bytes "k-1")];
     rq_matched_path := None;
     rq_principal := Some (mkPrincipal (Some "alice") None tenant);
     rq_body := [1; 2; 3] |}.

Definition order : HttpRequest := order_by (Some "acme").
Definition order_key : IdempotencyKey := mkKey "acme" "sub:alice" "POST /orders" "k-1".

Definition created : HttpResponse :=
  {| rs_status := 201;
     rs_headers := [("content-type", as_bytes "text/plain"); ("x-trace", as_bytes "7");
                    ("location", as_bytes "/orders/9")];
     rs_body := [9] |}.

Definition replayed : HttpResponse :=
  {| rs_status := 201;
     rs_headers := [("content-type", as_bytes "text/plain"); ("location", as_bytes "/orders/9")];
     rs_body := [9] |}.

Definition lease_no (n : Z) : ExecutionLease := mkLease (to_be_bytes 16 n).

(** ** On PostgreSQL *)

Section pgsql.
#[local] Existing Instance PgIdempotencyStore.

Definition pg_run A (stmt : PgStmt A) : Z → PgIdempotency → option (A * PgIdempotency) :=
  match stmt in PgStmt A return Z → PgIdempotency → option (A * PgIdempotency) with
  | Statement sql => λ t s,
      if pg_clock s <=? t then
        match sql (λ _, t) (pg_rows s) with
        | Ok (x, rows) => Some (Ok x, mkPgIdempotency rows t)
        | Err _ => Some (Err tt, mkPgIdempotency (pg_rows s) t)
        end
      else None
  end.

Definition pg_wait (t : Z) (s : PgIdempotency) : option PgIdempotency :=
  if pg_clock s <=? t then Some (mkPgIdempotency (pg_rows s) t) else None.

Lemma pg_run_sound A (stmt : PgStmt A) t s answer s' :
  pg_run A stmt t s = Some (answer, s') → pg_serve stmt s answer s'.
Proof.
  destruct stmt as [A sql]. simpl. destruct (Z.leb_spec (pg_clock s) t); [|done].
  destruct (sql (λ _, t) (pg_rows s)) as [[x rows]|[]] eqn:Hs; intros [= <- <-]; exists (λ _, t); simpl;
    rewrite Hs; (split; [done|]); (split; [split; [done|]; intros _; lia|]); auto.
Qed.

Lemma pg_wait_sound t s s' : pg_wait t s = Some s' → elapse (Backend := PgIdempotencyStore) s s'.
Proof. unfold pg_wait. destruct (Z.leb_spec (pg_clock s) t); [|done]. by intros [= <-]. Qed.

Definition pg_start : PgIdempotency := mkPgIdempotency ∅ 1000.
Definition pg_first := mkPool (E := LayerCall PgIdempotencyStore) (T := HttpRequest) (A := LayerResponse)
  (mkLayerWorld (mkHistory pg_start []) [] [] []) [].

(** The first two requests, and the two that come later. *)
Definition pg_completes : list Act :=
  [Arrive order; Go 0 Next; Go 0 (Drawn (lease_no 1)); Go 0 (At 1001); Go 0 Next; Cancel 0;
   Wait 400000;
   Arrive order; Go 1 Next; Go 1 (Drawn (lease_no 2)); Go 1 (At 400001); Go 1 (At 400002); Go 1 Next;
   Go 1 (Answers created); Go 1 Next; Go 1 (At 400003)].
Definition pg_later : list Act :=
  [Arrive order; Go 2 Next; Go 2 (Drawn (lease_no 3)); Go 2 (At 400004); Go 2 (At 400005); Go 2 (At 400006);
   Arrive (order_by None); Go 3 Next; Go 3 (Drawn (lease_no 4))].

Definition pg_mid := end_of demo_layer pg_run pg_wait pg_completes pg_first.
Definition pg_end := end_of demo_layer pg_run pg_wait pg_later pg_mid.

Lemma pg_mid_steps : rtc (pool_step (idempotency demo_sha demo_layer) layer_handle layer_env) pg_first pg_mid.
Proof. apply end_of_steps; [apply pg_run_sound|apply pg_wait_sound]. Qed.
Lemma pg_end_steps : rtc (pool_step (idempotency demo_sha demo_layer) layer_handle layer_env) pg_mid pg_end.
Proof. apply end_of_steps; [apply pg_run_sound|apply pg_wait_sound]. Qed.

Lemma pg_mid_reachable : layer_reachable demo_sha demo_layer pg_mid.
Proof. eexists. split; [|apply pg_mid_steps]. by exists pg_start. Qed.
Lemma pg_end_reachable : layer_reachable demo_sha demo_layer pg_end.
Proof. eexists. split; [|etrans; [apply pg_mid_steps|apply pg_end_steps]]. by exists pg_start. Qed.

Lemma pg_story : map (ended ∘ snd) (pool_tasks pg_end) =
  [None; Some (Plain created); Some (Plain replayed);
   Some (Problem 503 "idempotency_store_unavailable"
     (Some "the idempotency store is temporarily unavailable; retry later"))].
Proof. vm_compute. reflexivity. Qed.

Lemma pg_requests : map fst (pool_tasks pg_end) = [order; order; order; order_by None].
Proof. vm_compute. reflexivity. Qed.
Lemma pg_runs : lw_runs (pool_world pg_end) = [(0%nat, order); (1%nat, order)].
Proof. vm_compute. reflexivity. Qed.
Lemma pg_replayed : pool_tasks pg_end !! 2%nat = Some (order, Some (Done (Plain replayed))).
Proof. apply ended_task; [by rewrite pg_requests|by rewrite pg_story]. Qed.

Definition order_fingerprint : RequestFingerprint := request_fingerprint demo_sha order_key order.

Lemma order_admitted : admission demo_sha demo_layer order = Keyed order_key.
Proof. vm_compute. reflexivity. Qed.

Lemma order_claims : claims demo_sha demo_layer order order_key order_fingerprint.
Proof. exists order_key. split; [apply order_admitted|done]. Qed.

Lemma every_answer_explained_witness :
  answer_ok demo_sha demo_layer 2 order (Plain replayed) (pool_world pg_end).
Proof.
  apply (every_answer_explained demo_sha demo_layer pg_end 2 order (Plain replayed)).
  - apply pg_end_reachable.
  - apply pg_replayed.
Defined.

Lemma pg_runs_0 : (0%nat, order) ∈ lw_runs (pool_world pg_end).
Proof. rewrite pg_runs. left. Qed.
Lemma pg_runs_1 : (1%nat, order) ∈ lw_runs (pool_world pg_end).
Proof. rewrite pg_runs. right. left. Qed.

Lemma one_request_per_key_witness : order_fingerprint = order_fingerprint.
Proof.
  apply (one_request_per_key demo_sha demo_layer pg_end order_key 0 1 order order).
  - apply pg_end_reachable.
  - apply pg_runs_0.
  - apply order_claims.
  - apply pg_runs_1.
  - apply order_claims.
Defined.

Lemma pg_mid_count : length (pool_tasks pg_mid) = 2%nat.
Proof. vm_compute. reflexivity. Qed.
Lemma pg_mid_record : view (present (lw_history (pool_world pg_mid))) order_key =
  Some (Completed order_fingerprint (recorded created)).
Proof. vm_compute. reflexivity. Qed.

Lemma recorded_response_is_final_witness :
  ((2%nat, order) ∉ lw_runs (pool_world pg_end)) ∧ replayed = stored_response (recorded created).
Proof.
  destruct (recorded_response_is_final demo_sha demo_layer pg_mid pg_end order_key order_fingerprint
    (recorded created) 2 order order_key (Some (Done (Plain replayed)))) as [Hnever Hsame].
  - apply pg_mid_reachable.
  - apply was_now, pg_mid_record.
  - apply pg_end_steps.
  - rewrite pg_mid_count. lia.
  - apply pg_replayed.
  - apply order_admitted.
  - reflexivity.
  - split; [exact Hnever|]. by apply Hsame.
Defined.

Lemma pg_executions_spaced_witness :
  (Z.of_nat (length [0%nat; 1%nat]) - 1) * LEASE_MILLIS
  ≤ pg_clock (present (lw_history (pool_world pg_end))) - pg_clock pg_start.
Proof.
  apply (pg_executions_spaced demo_sha demo_layer pg_start pg_end order_key).
  - reflexivity.
  - etrans; [apply pg_mid_steps|apply pg_end_steps].
  - apply NoDup_cons. split; [|apply NoDup_singleton]. intros [=]%list_elem_of_singleton.
  - intros i [->|[->|[]%elem_of_nil]%elem_of_cons]%elem_of_cons; exists order, order_fingerprint.
    + split; [apply pg_runs_0|apply order_claims].
    + split; [apply pg_runs_1|apply order_claims].
Defined.

Lemma tenantless_requests_refused_witness :
  refusal (Problem 503 "idempotency_store_unavailable"
    (Some "the idempotency store is temporarily unavailable; retry later")) ∧ not_run 3 (pool_world pg_end).
Proof.
  apply (tenantless_requests_refused demo_sha demo_layer pg_end 3 (order_by None)
    (mkPrincipal (Some "alice") None None) (mkKey "" "sub:alice" "POST /orders" "k-1")).
  - apply pg_end_reachable.
  - reflexivity.
  - reflexivity.
  - vm_compute. reflexivity.
  - apply ended_task; [by rewrite pg_requests|by rewrite pg_story].
Defined.

Lemma admitted_key_refused_iff_witness :
  is_ok (pg_validate_key (mkKey "" "sub:alice" "POST /orders" "k-1")) = false.
Proof.
  apply (admitted_key_refused_iff demo_sha demo_layer (order_by None)).
  - vm_compute. reflexivity.
  - by left.
Defined.

Lemma replay_repeats_recorded_witness : stored_response (recorded created) = replayed.
Proof. rewrite (replay_repeats_recorded created); [vm_compute; reflexivity|]. simpl. lia. Defined.

End pgsql.

(** ** In process *)

Section in_memory.
#[local] Existing Instance InMemoryIdempotencyStore.

Definition mem_run A (stmt : Locked A) : Z → Records → option (A * Records) :=
  match stmt in Locked A return Z → Records → option (A * Records) with
  | WithLock body => λ _ s, Some (body s)
  end.

Lemma mem_run_sound A (stmt : Locked A) t s answer s' :
  mem_run A stmt t s = Some (answer, s') → locked_serve stmt s answer s'.
Proof. destruct stmt. simpl. by intros [= ->]. Qed.

Definition mem_first := mkPool (E := LayerCall InMemoryIdempotencyStore) (T := HttpRequest) (A := LayerResponse)
  (mkLayerWorld (mkHistory (∅ : Records) []) [] [] []) [].

(** The second request arrives while the first one is executed. *)
Definition mem_script : list Act :=
  [Arrive order; Go 0 Next; Go 0 (Drawn (lease_no 1)); Go 0 (At 0); Go 0 Next;
   Arrive order; Go 1 Next; Go 1 (Drawn (lease_no 2)); Go 1 (At 0);
   Go 0 (Answers created); Go 0 Next; Go 0 (At 0);
   Arrive order; Go 2 Next; Go 2 (Drawn (lease_no 3)); Go 2 (At 0)].

Definition mem_end := end_of demo_layer mem_run (λ _, Some) mem_script mem_first.

Lemma mem_end_reachable : layer_reachable demo_sha demo_layer mem_end.
Proof.
  eexists. split; [|apply end_of_steps; [apply mem_run_sound|by intros t s s' [= ->]]]. by exists ∅.
Qed.

Lemma mem_story : map (ended ∘ snd) (pool_tasks mem_end) =
  [Some (Plain created);
   Some (Problem 409 "idempotency_in_flight"
     (Some "a request with the same Idempotency-Key is still in progress"));
   Some (Plain replayed)].
Proof. vm_compute. reflexivity. Qed.

Lemma mem_runs : lw_runs (pool_world mem_end) = [(0%nat, order)].
Proof. vm_compute. reflexivity. Qed.

Lemma in_memory_executes_once_witness : 0%nat = 0%nat.
Proof.
  apply (in_memory_executes_once demo_sha demo_layer mem_end order_key 0 0 order order
    order_fingerprint order_fingerprint).
  - apply mem_end_reachable.
  - rewrite mem_runs. left.
  - apply order_claims.
  - rewrite mem_runs. left.
  - apply order_claims.
Defined.
End in_memory.

(** ** On Redis *)

Section redis.
#[local] Existing Instance RedisIdempotencyStore.

Definition redis_run A (stmt : RedisStmt A) : Z → RedisValues → option (A * RedisValues) :=
  match stmt in RedisStmt A return Z → RedisValues → option (A * RedisValues) with
  | Command command => λ _ s, let '(x, values) := command s in Some (Ok x, values)
  end.

Lemma redis_run_sound A (stmt : RedisStmt A) t s answer s' :
  redis_run A stmt t s = Some (answer, s') → redis_serve stmt s answer s'.
Proof. destruct stmt as [A command]. simpl. destruct (command s) as [x values]. intros [= <- <-]. auto. Qed.

Definition demo_redis : Backend := RedisIdempotencyStore demo_sha 300000 86400000.

Definition redis_first := mkPool (E := LayerCall demo_redis) (T := HttpRequest) (A := LayerResponse)
  (mkLayerWorld (B := demo_redis) (mkHistory (∅ : RedisValues) []) [] [] []) [].

Definition redis_script : list Act :=
  [Arrive order; Go 0 Next; Go 0 (Drawn (lease_no 1)); Go 0 (At 0); Go 0 Next;
   Go 0 (Answers created); Go 0 Next; Go 0 (At 0);
   Arrive order; Go 1 Next; Go 1 (Drawn (lease_no 2)); Go 1 (At 0); Go 1 (At 0)].

Definition redis_end := end_of (B := demo_redis) demo_layer redis_run (λ _, Some) redis_script redis_first.

Lemma redis_end_reachable : layer_reachable (B := demo_redis) demo_sha demo_layer redis_end.
Proof.
  eexists. split; [|apply end_of_steps; [apply redis_run_sound|]]; [by exists ∅|].
  intros t s s' [= ->]. change ((s' : RedisValues) ⊆ s'). reflexivity.
Qed.

Lemma redis_requests : map fst (pool_tasks redis_end) = [order; order].
Proof. vm_compute. reflexivity. Qed.
Lemma redis_story : map (ended ∘ snd) (pool_tasks redis_end) = [Some (Plain created); Some (Plain replayed)].
Proof. vm_compute. reflexivity. Qed.
Lemma redis_runs : lw_runs (pool_world redis_end) = [(0%nat, order)].
Proof. vm_compute. reflexivity. Qed.

Lemma redis_replayed : pool_tasks redis_end !! 1%nat = Some (order, Some (Done (Plain replayed))).
Proof. apply ended_task; [by rewrite redis_requests|by rewrite redis_story]. Qed.
Lemma redis_not_run : not_run 1 (pool_world redis_end).
Proof. intros request. rewrite redis_runs. by intros [= ]%list_elem_of_singleton. Qed.

Lemma redis_replays_same_key_witness :
  ∃ j request' response' stored key', j ≠ 1%nat ∧
    (j, request') ∈ lw_runs (pool_world redis_end) ∧ (j, response') ∈ lw_responses (pool_world redis_end) ∧
    admission demo_sha demo_layer request' = Keyed key' ∧
    (key' = order_key ∨ key_collision demo_sha key' order_key) ∧
    request_fingerprint demo_sha key' request' = request_fingerprint demo_sha order_key order ∧
    on_record response' stored ∧ replayed = stored_response stored.
Proof.
  apply (redis_replays_same_key demo_sha demo_layer 300000 86400000 redis_end 1 order order_key replayed).
  - apply redis_end_reachable.
  - apply order_admitted.
  - exact redis_replayed.
  - exact redis_not_run.
Defined.
End redis.
