(* ===== verification/Wire.v ===== *)
(** * Wire primitives of the long-connection protocol

    [naws-proto]: io.rs.  Unsigned and zigzag varints, the writer that appends
    to a buffer, and the reader, a cursor over a slice whose every operation may
    fail.  A reader is a transaction [St CodecError Reader]: a failed read ends
    the decoding, so the cursor it leaves behind is never looked at. *)

From Stdlib Require Import ZArith Lia Ascii.
From S2P Require Import Prelude Bytes.
From stdpp Require Import prelude strings.

Local Open Scope Z_scope.
Local Open Scope rust_scope.

(** ** Machine words *)

(** [as i64] and [as u64] of a bit pattern, [!] on [u64], and [<<], which drops
    the bits shifted out. *)
Definition wrap_i (w z : Z) : Z := (z + 2 ^ (w - 1)) mod 2 ^ w - 2 ^ (w - 1).
Definition as_u64 (z : Z) : Z := z mod 2 ^ 64.
Definition as_u8 (z : Z) : Z := z mod 2 ^ 8.
Definition u64_not (z : Z) : Z := Z.lxor U64_MAX z.
Definition u64_shl (z k : Z) : Z := as_u64 (Z.shiftl z k).

(** [str::from_utf8]: the well-formed sequences of the Unicode table, without
    overlong forms and surrogates. *)
Definition continuation (b : Z) : bool := (128 <=? b) && (b <=? 191).
Definition second3 (b0 b1 : Z) : bool :=
  if b0 =? 224 then (160 <=? b1) && (b1 <=? 191)
  else if b0 =? 237 then (128 <=? b1) && (b1 <=? 159)
  else (225 <=? b0) && (b0 <=? 239) && continuation b1.
Definition second4 (b0 b1 : Z) : bool :=
  if b0 =? 240 then (144 <=? b1) && (b1 <=? 191)
  else if b0 =? 244 then (128 <=? b1) && (b1 <=? 143)
  else (241 <=? b0) && (b0 <=? 243) && continuation b1.

Fixpoint utf8_valid (bs : list Z) : bool :=
  match bs with
  | [] => true
  | b0 :: r0 =>
      if b0 <? 128 then utf8_valid r0
      else match r0 with
           | [] => false
           | b1 :: r1 =>
               if (194 <=? b0) && (b0 <=? 223) then continuation b1 && utf8_valid r1
               else match r1 with
                    | [] => false
                    | b2 :: r2 =>
                        if (224 <=? b0) && (b0 <=? 239)
                        then second3 b0 b1 && continuation b2 && utf8_valid r2
                        else match r2 with
                             | [] => false
                             | b3 :: r3 =>
                                 (240 <=? b0) && (b0 <=? 244) && second4 b0 b1
                                 && continuation b2 && continuation b3 && utf8_valid r3
                             end
                    end
           end
  end.

Fixpoint string_of_bytes (bs : list Z) : string :=
  match bs with
  | [] => EmptyString
  | b :: r => String (ascii_of_N (Z.to_N b)) (string_of_bytes r)
  end.

Definition from_utf8 (bs : list Z) : option string :=
  if utf8_valid bs then Some (string_of_bytes bs) else None.

(** A [String] of the language holds valid UTF-8. *)
Definition str_ok (s : string) : bool := utf8_valid (as_bytes s).
Definition str_len (s : string) : Z := Z.of_nat (String.length s).
Definition slice_len (bs : list Z) : Z := Z.of_nat (length bs).

(** ** Constants and errors *)

Definition WT_VARINT : Z := 0.
Definition WT_LEN : Z := 2.
Definition MAX_ARRAY_ELEMS : Z := 2 ^ 16.
Definition MAX_STR_LEN : Z := 16 * 1024 * 1024.
Definition MAX_BYTES_LEN : Z := 16 * 1024 * 1024.

Inductive CodecError :=
| Truncated
| VarintOverflow
| LengthExceeds
| WireTypeMismatch (tag expected actual : Z)
| BadBitmap
| TrailingBytes (n : Z)
| LengthOverflow
| BufferTooSmall (required remaining : Z)
| Utf8
| Unsupported (what : string)
| JsonError (text : string).

#[global] Instance CodecError_eq_dec : EqDecision CodecError.
Proof. solve_decision. Defined.

Definition check_wt (tag expected actual : Z) : result unit CodecError :=
  if negb (expected =? actual) then Err (WireTypeMismatch tag expected actual) else Ok tt.

(** ** Zigzag and varint *)

Definition zigzag_enc (v : Z) : Z :=
  as_u64 (Z.lxor (wrap_i 64 (Z.shiftl v 1)) (Z.shiftr v 63)).
Definition zigzag_dec (v : Z) : Z :=
  Z.lxor (wrap_i 64 (Z.shiftr v 1)) (- wrap_i 64 (Z.land v 1)).

(** The loop shifts seven bits out of 64 per turn, so ten turns are enough
    ([write_varint_step]). *)
Fixpoint write_varint_loop (fuel : nat) (buf : list Z) (v : Z) : list Z :=
  match fuel with
  | O => buf
  | S fuel' =>
      if negb (Z.land v (u64_not 127) =? 0)
      then write_varint_loop fuel' (buf ++ [as_u8 (Z.lor (Z.land v 127) 128)]) (Z.shiftr v 7)
      else buf ++ [as_u8 v]
  end.
Definition write_varint (buf : list Z) (v : Z) : list Z := write_varint_loop 10 buf v.

(** ** Writer *)

Definition Writer : Type := list Z.
Definition Writer_new : Writer := [].

Definition key (w : Writer) (tag wt : Z) : Writer := write_varint w (Z.lor (u64_shl tag 3) wt).

Fixpoint bitmap_loop (w : Writer) (bm : Z) (idxs : list nat) : Writer :=
  match idxs with
  | [] => w
  | i :: idxs' => bitmap_loop (w ++ [as_u8 (Z.shiftr bm (Z.of_nat i * 8))]) bm idxs'
  end.
Definition bitmap (w : Writer) (bm : Z) (k : nat) : Writer :=
  bitmap_loop w bm (seq 0 (Nat.min k 8)).

Definition len_delim (w : Writer) (payload : list Z) : Writer :=
  write_varint w (slice_len payload) ++ payload.
Definition val_i64 (w : Writer) (v : Z) : Writer := write_varint w (zigzag_enc v).
Definition val_bool (w : Writer) (b : bool) : Writer := write_varint w (if b then 1 else 0).
Definition val_str (w : Writer) (s : string) : Writer := len_delim w (as_bytes s).
Definition val_bytes (w : Writer) (b : list Z) : Writer := len_delim w b.

Definition push_elem (inner : list Z) (e : option string) : list Z :=
  match e with
  | Some s => write_varint inner (str_len s) ++ as_bytes s
  | None => write_varint inner 0
  end.
Definition val_str_array (w : Writer) (arr : list (option string)) : Writer :=
  len_delim w (foldl push_elem (write_varint [] (Z.of_nat (length arr))) arr).

(** ** Reader *)

Record Reader := mkReader { rdata : list Z; rpos : nat }.

Definition Reader_new (data : list Z) : Reader := mkReader data 0.
Definition remaining (r : Reader) : Z := slice_len (rdata r) - Z.of_nat (rpos r).

Abbreviation Read := (St CodecError Reader).

Definition read_byte : Read Z := λ r,
  match rdata r !! rpos r with
  | None => Err Truncated
  | Some b => Ok (b, mkReader (rdata r) (S (rpos r)))
  end.

Fixpoint read_varint_loop (turns : nat) (i res : Z) : Read Z :=
  match turns with
  | O => st_fail VarintOverflow
  | S turns' =>
      run! b := read_byte in
      if (i =? 9) && negb (Z.land b 254 =? 0) then st_fail VarintOverflow
      else
        let res' := Z.lor res (u64_shl (Z.land b 127) (i * 7)) in
        if Z.land b 128 =? 0 then st_ret res' else read_varint_loop turns' (i + 1) res'
  end.
Definition read_varint : Read Z := read_varint_loop 10 0 0.

Definition read_len : Read Z :=
  run! len := read_varint in
  run! left := st_get remaining in
  demand! negb (left <? len) else LengthExceeds in
  st_ret len.

Definition read_i64 : Read Z := run! v := read_varint in st_ret (zigzag_dec v).
Definition read_bool : Read bool := run! v := read_varint in st_ret (negb (v =? 0)).

Definition reader_take (n : Z) : Read (list Z) := λ r,
  if remaining r <? n then Err LengthExceeds
  else Ok (take (Z.to_nat n) (drop (rpos r) (rdata r)), mkReader (rdata r) (rpos r + Z.to_nat n)).

Definition read_str : Read string :=
  run! n := read_len in
  demand! negb (MAX_STR_LEN <? n) else LengthExceeds in
  run! bytes := reader_take n in
  st_lift (ok_or (from_utf8 bytes) Utf8).

Definition read_bytes : Read (list Z) :=
  run! n := read_len in
  demand! negb (MAX_BYTES_LEN <? n) else LengthExceeds in
  reader_take n.

Definition expect_end : Read unit := λ r,
  if negb (remaining r =? 0) then Err (TrailingBytes (remaining r)) else Ok (tt, r).

(** The loop of [read_str_array] over the declared count. *)
Fixpoint read_elems (count : nat) (out : list (option string)) : Read (list (option string)) :=
  match count with
  | O => st_ret out
  | S count' =>
      run! len := read_len in
      demand! negb (MAX_STR_LEN <? len) else LengthExceeds in
      if len =? 0 then read_elems count' (out ++ [None])
      else
        run! b := reader_take len in
        run! s := st_lift (ok_or (from_utf8 b) Utf8) in
        read_elems count' (out ++ [Some s])
  end.

Definition read_elem_list : Read (list (option string)) :=
  run! count := read_varint in
  run! left := st_get remaining in
  demand! negb ((left <? count) || (MAX_ARRAY_ELEMS <? count)) else LengthExceeds in
  run! out := read_elems (Z.to_nat count) [] in
  then! expect_end in
  st_ret out.

Definition read_str_array : Read (list (option string)) :=
  run! n := read_len in
  run! inner := reader_take n in
  st_lift (result_map fst (read_elem_list (Reader_new inner))).

Fixpoint bitmap_of (i : Z) (bm : Z) (bs : list Z) : Z :=
  match bs with
  | [] => bm
  | b :: bs' => bitmap_of (i + 1) (Z.lor bm (u64_shl b (i * 8))) bs'
  end.
Definition read_bitmap (k : nat) : Read Z :=
  run! bytes := reader_take (Z.of_nat (Nat.min k 8)) in
  st_ret (bitmap_of 0 0 bytes).

Definition skip_value (wt : Z) : Read unit :=
  if wt =? WT_VARINT then then! read_varint in st_ret tt
  else if wt =? WT_LEN then run! n := read_len in then! reader_take n in st_ret tt
  else st_fail (WireTypeMismatch 0 0 wt).
