(* ===== verification/WireLaws.v ===== *)
(** * Laws of the wire primitives

    Arithmetic of the words, what the writer appends, and the two judgements on
    readers: [reads] relates what a writer appended to what a reader finds,
    whatever stands around it; [yields] bounds what a reader produces by what it
    consumed. *)

From Stdlib Require Import ZArith Lia Ascii.
From S2P Require Import Prelude Bytes Wire.
From stdpp Require Import prelude strings.

Local Open Scope Z_scope.
Local Open Scope rust_scope.

(** ** Words *)

Definition is_byte (b : Z) : Prop := 0 ≤ b < 256.

Lemma lor_shiftl_add r x k : 0 ≤ k → 0 ≤ r < 2 ^ k → Z.lor r (Z.shiftl x k) = r + x * 2 ^ k.
Proof.
  intros Hk Hr. rewrite <- Z.shiftl_mul_pow2 by done. rewrite <- Z.add_lor_land.
  assert (Z.land r (Z.shiftl x k) = 0) as ->; [|lia].
  apply Z.bits_inj'. intros i Hi. rewrite Z.land_spec, Z.bits_0.
  destruct (decide (i < k)).
  - by rewrite Z.shiftl_spec_low, andb_false_r by lia.
  - rewrite <- (Z.mod_small r (2 ^ k)) by lia. by rewrite Z.mod_pow2_bits_high by lia.
Qed.

Lemma lor_u64 a b : 0 ≤ a < 2 ^ 64 → 0 ≤ b < 2 ^ 64 → 0 ≤ Z.lor a b < 2 ^ 64.
Proof.
  intros Ha Hb. rewrite <- (Z.mod_small a (2 ^ 64)), <- (Z.mod_small b (2 ^ 64)) by done.
  rewrite <- !Z.land_ones, <- Z.land_lor_distr_l, Z.land_ones by lia. by apply Z.mod_pos_bound.
Qed.

Lemma as_u64_range z : 0 ≤ as_u64 z < 2 ^ 64.
Proof. by apply Z.mod_pos_bound. Qed.

Lemma land_127 v : Z.land v 127 = v mod 128.
Proof. change 127 with (Z.ones 7). by rewrite Z.land_ones. Qed.

Lemma wrap_i_range w z : 0 < w → - 2 ^ (w - 1) ≤ wrap_i w z < 2 ^ (w - 1).
Proof.
  intros Hw. unfold wrap_i. pose proof (Z.mod_pos_bound (z + 2 ^ (w - 1)) (2 ^ w)).
  assert (2 ^ w = 2 * 2 ^ (w - 1)) as E by (rewrite <- Z.pow_succ_r by lia; f_equal; lia).
  assert (0 < 2 ^ (w - 1)) by (apply Z.pow_pos_nonneg; lia). lia.
Qed.

Lemma wrap_i_id w z : 0 < w → - 2 ^ (w - 1) ≤ z < 2 ^ (w - 1) → wrap_i w z = z.
Proof.
  intros Hw Hz. unfold wrap_i.
  assert (2 ^ w = 2 * 2 ^ (w - 1)) as E by (rewrite <- Z.pow_succ_r by lia; f_equal; lia).
  rewrite Z.mod_small; lia.
Qed.

(** The continuation test of the writer, [v & !0x7f != 0]. *)
Lemma more_spec v : 0 ≤ v < 2 ^ 64 → (Z.land v (u64_not 127) =? 0) = (v <? 128).
Proof.
  intros Hv. assert (Z.land v (u64_not 127) = v / 2 ^ 7 * 2 ^ 7) as ->.
  { change (u64_not 127) with (Z.shiftl (Z.ones 57) 7).
    rewrite <- (Z.shiftr_div_pow2 v 7), <- (Z.shiftl_mul_pow2 _ 7) by lia.
    apply Z.bits_inj'. intros i Hi. rewrite Z.land_spec, !Z.shiftl_spec by lia.
    destruct (decide (i < 7)); [by rewrite !(Z.testbit_neg_r _ (i - 7)), andb_false_r by lia|].
    rewrite Z.shiftr_spec by lia. replace (i - 7 + 7) with i by lia.
    destruct (decide (i < 64)); [by rewrite Z.ones_spec_low, andb_true_r by lia|].
    rewrite <- (Z.mod_small v (2 ^ 64)) by lia. by rewrite Z.mod_pow2_bits_high by lia. }
  change (2 ^ 7) with 128. pose proof (Z.div_mod v 128). pose proof (Z.mod_pos_bound v 128). lia.
Qed.

(** ** Zigzag *)

Lemma zigzag_enc_spec v : is_i64 v = true → zigzag_enc v = if 0 <=? v then 2 * v else - 2 * v - 1.
Proof.
  intros Hv%is_i64_spec. unfold zigzag_enc, as_u64.
  rewrite Z.shiftl_mul_pow2, Z.shiftr_div_pow2 by lia. destruct (0 <=? v) eqn:E.
  - rewrite (Z.div_small v), Z.lxor_0_r by lia. unfold wrap_i.
    rewrite Zminus_mod_idemp_l. rewrite Z.mod_small; lia.
  - assert (v / 2 ^ 63 = -1) as -> by (symmetry; apply (Z.div_unique _ _ _ (v + 2 ^ 63)); lia).
    rewrite Z.lxor_m1_r. unfold Z.lnot, wrap_i.
    replace (Z.pred _) with (2 ^ (64 - 1) - 1 - (v * 2 ^ 1 + 2 ^ (64 - 1)) mod 2 ^ 64) by lia.
    rewrite Zminus_mod_idemp_r. rewrite Z.mod_small; lia.
Qed.

Lemma zigzag_dec_spec v : is_u64 v = true →
  zigzag_dec v = if Z.even v then v / 2 else - (v / 2) - 1.
Proof.
  intros Hv%is_u64_spec. unfold zigzag_dec.
  assert (Z.land v 1 = v mod 2) as -> by exact (Z.land_ones v 1 ltac:(lia)).
  rewrite Z.shiftr_div_pow2 by lia. change (2 ^ 1) with 2.
  pose proof (Z.div_mod v 2) as Hd. pose proof (Z.mod_pos_bound v 2).
  rewrite (wrap_i_id 64 (v / 2)), Zmod_even by lia.
  destruct (Z.even v); [by rewrite Z.lxor_0_r|].
  change (- wrap_i 64 1) with (-1). rewrite Z.lxor_m1_r. unfold Z.lnot. lia.
Qed.

Lemma zigzag_enc_range v : is_i64 v = true → is_u64 (zigzag_enc v) = true.
Proof.
  intros Hv. rewrite zigzag_enc_spec by done. apply is_i64_spec in Hv. apply is_u64_spec.
  destruct (0 <=? v) eqn:?; lia.
Qed.

Lemma zigzag_dec_range v : is_u64 v = true → is_i64 (zigzag_dec v) = true.
Proof.
  intros Hv. rewrite zigzag_dec_spec by done. apply is_u64_spec in Hv. apply is_i64_spec.
  pose proof (Z.div_mod v 2). pose proof (Z.mod_pos_bound v 2). destruct (Z.even v); lia.
Qed.

Lemma zigzag_dec_enc v : is_i64 v = true → zigzag_dec (zigzag_enc v) = v.
Proof.
  intros Hv. rewrite zigzag_dec_spec by by apply zigzag_enc_range.
  rewrite zigzag_enc_spec by done. destruct (0 <=? v) eqn:?.
  - rewrite Z.even_mul. simpl. rewrite Z.mul_comm, Z.div_mul; lia.
  - replace (- 2 * v - 1) with (1 + 2 * (- v - 1)) by lia.
    rewrite Z.even_add_mul_2, (Z.mul_comm 2), Z.div_add by lia.
    change (Z.even 1) with false. change (1 / 2) with 0. cbn iota. lia.
Qed.

Lemma zigzag_enc_dec v : is_u64 v = true → zigzag_enc (zigzag_dec v) = v.
Proof.
  intros Hv. rewrite zigzag_enc_spec by by apply zigzag_dec_range.
  rewrite zigzag_dec_spec by done. apply is_u64_spec in Hv.
  pose proof (Z.div_mod v 2). pose proof (Z.mod_pos_bound v 2) as Hm.
  rewrite Zmod_even in *. destruct (Z.even v) eqn:E; destruct (0 <=? _) eqn:?; lia.
Qed.

(** ** Strings and bytes *)

Lemma as_bytes_of_bytes bs : Forall is_byte bs → as_bytes (string_of_bytes bs) = bs.
Proof.
  induction 1 as [|b bs Hb _ IH]; simpl; [done|]. rewrite IH. f_equal.
  unfold byte_of_ascii, is_byte in *. rewrite N_ascii_embedding; lia.
Qed.

Lemma string_of_as_bytes s : string_of_bytes (as_bytes s) = s.
Proof. apply as_bytes_inj, as_bytes_of_bytes, as_bytes_range. Qed.

Lemma slice_len_as_bytes s : slice_len (as_bytes s) = str_len s.
Proof. unfold slice_len, str_len. by rewrite length_as_bytes. Qed.

Lemma from_utf8_as_bytes s : str_ok s = true → from_utf8 (as_bytes s) = Some s.
Proof. unfold str_ok, from_utf8. intros ->. by rewrite string_of_as_bytes. Qed.

Lemma from_utf8_Some bs s :
  Forall is_byte bs → from_utf8 bs = Some s → as_bytes s = bs ∧ str_ok s = true.
Proof.
  unfold from_utf8, str_ok. intros Hb. destruct (utf8_valid bs) eqn:Hv; [|done].
  intros [= <-]. by rewrite as_bytes_of_bytes.
Qed.

(** ** What the writer appends *)

Definition varint (v : Z) : list Z := write_varint [] v.
#[global] Arguments varint : simpl never.

Lemma write_varint_loop_app fuel buf v :
  write_varint_loop fuel buf v = buf ++ write_varint_loop fuel [] v.
Proof.
  revert buf v. induction fuel as [|fuel IH]; intros buf v; simpl; [by rewrite app_nil_r|].
  destruct (negb _); [|done]. rewrite (IH (buf ++ _)), (IH [_]). by rewrite <- app_assoc.
Qed.

Lemma write_varint_app buf v : write_varint buf v = buf ++ varint v.
Proof. apply write_varint_loop_app. Qed.

Lemma write_varint_step fuel v : 0 ≤ v < 2 ^ 64 →
  write_varint_loop (S fuel) [] v =
  if v <? 128 then [v] else (v mod 128 + 128) :: write_varint_loop fuel [] (v / 128).
Proof.
  intros Hv. simpl. rewrite more_spec by done. destruct (v <? 128) eqn:E; simpl.
  - unfold as_u8. rewrite Z.mod_small by lia. done.
  - rewrite write_varint_loop_app. simpl. rewrite Z.shiftr_div_pow2 by lia. f_equal.
    pose proof (Z.mod_pos_bound v 128). rewrite land_127. change 128 with (Z.shiftl 1 7) at 2.
    rewrite lor_shiftl_add by lia. unfold as_u8. rewrite Z.mod_small; lia.
Qed.

Lemma varint_bytes fuel v : 0 ≤ v < 2 ^ 64 → Forall is_byte (write_varint_loop fuel [] v).
Proof.
  revert v. induction fuel as [|fuel IH]; intros v Hv; [constructor|].
  rewrite write_varint_step by done. destruct (v <? 128) eqn:?; constructor.
  - unfold is_byte. lia.
  - constructor.
  - unfold is_byte. pose proof (Z.mod_pos_bound v 128). lia.
  - apply IH. split; [apply Z.div_pos|apply Z.div_lt_upper_bound]; lia.
Qed.

(** ** Reading back

    [reads_at c w post x]: where [w] stands before [post], reading [c] finds [x]
    and stops after [w]. *)

Definition reads_at {A} (c : Read A) (w post : list Z) (x : A) : Prop :=
  ∀ pre, c (mkReader (pre ++ w ++ post) (length pre))
         = Ok (x, mkReader (pre ++ w ++ post) (length pre + length w)).
Definition reads {A} (c : Read A) (w : list Z) (x : A) : Prop := ∀ post, reads_at c w post x.

Lemma reads_at_ret {A} (x : A) post : reads_at (st_ret x) [] post x.
Proof. intros pre. unfold st_ret. by rewrite Nat.add_0_r. Qed.

Lemma reads_at_bind {A B} (c : Read A) (k : A → Read B) w1 w2 post x y :
  reads_at c w1 (w2 ++ post) x → reads_at (k x) w2 post y →
  reads_at (st_bind c k) (w1 ++ w2) post y.
Proof.
  intros H1 H2 pre. unfold st_bind. rewrite <- app_assoc, H1.
  specialize (H2 (pre ++ w1)). rewrite length_app, <- app_assoc in H2.
  rewrite H2, length_app. by rewrite Nat.add_assoc.
Qed.

Lemma reads_at_then {A B} (c : Read A) (k : A → Read B) w post x y :
  reads_at c w post x → reads_at (k x) [] post y → reads_at (st_bind c k) w post y.
Proof. intros H1 H2. rewrite <- (app_nil_r w). by eapply reads_at_bind. Qed.

Lemma reads_at_lift {A B} (v : result A CodecError) (k : A → Read B) w post x y :
  v = Ok x → reads_at (k x) w post y → reads_at (st_bind (st_lift v) k) w post y.
Proof. intros -> H pre. apply H. Qed.

Lemma reads_byte b post : reads_at read_byte [b] post b.
Proof.
  intros pre. unfold read_byte. simpl. rewrite list_lookup_middle by done.
  by rewrite Nat.add_1_r.
Qed.

(** The seven payload bits and the continuation bit of a byte. *)
Lemma land_128_last b : 0 ≤ b < 128 → Z.land b 128 = 0.
Proof.
  intros Hb. pose proof (Z.add_lor_land b 128) as H.
  change 128 with (Z.shiftl 1 7) in H at 1. rewrite lor_shiftl_add in H; lia.
Qed.

Lemma land_128_more b : 0 ≤ b < 128 → Z.land (b + 128) 128 = 128.
Proof.
  intros Hb. replace (b + 128) with (Z.lor b 128).
  - rewrite Z.land_lor_distr_l, land_128_last by done. done.
  - pose proof (Z.add_lor_land b 128). rewrite land_128_last in *; lia.
Qed.

Lemma land_127_more b : 0 ≤ b < 128 → Z.land (b + 128) 127 = b.
Proof. intros Hb. rewrite land_127. symmetry. apply (Z.mod_unique _ _ 1); lia. Qed.

(** One turn of the reader adds seven bits above those it has. *)
Lemma varint_turn i res b :
  0 ≤ i → 0 ≤ res < 2 ^ (7 * i) → 0 ≤ b → b * 2 ^ (7 * i) < 2 ^ 64 →
  Z.lor res (u64_shl b (i * 7)) = res + b * 2 ^ (7 * i).
Proof.
  intros Hi Hres Hb Hlt. unfold u64_shl, as_u64. rewrite (Z.mul_comm i).
  rewrite Z.mod_small by (rewrite Z.shiftl_mul_pow2; lia). apply lor_shiftl_add; lia.
Qed.

Lemma pow_turn k : 0 ≤ k → 2 ^ (7 + k) = 128 * 2 ^ k.
Proof. intros. by rewrite Z.pow_add_r by lia. Qed.

Lemma read_varint_loop_reads n i res v post :
  (1 ≤ n)%nat → i + Z.of_nat n = 10 → 0 ≤ i →
  0 ≤ res < 2 ^ (7 * i) → 0 ≤ v → v * 2 ^ (7 * i) < 2 ^ 64 →
  reads_at (read_varint_loop n i res) (write_varint_loop n [] v) post (res + v * 2 ^ (7 * i)).
Proof.
  revert i res v. induction n as [|n IH]; intros i res v Hn Hi Hi0 Hres Hv0 Hv; [lia|].
  assert (0 < 2 ^ (7 * i)) as Hp by (apply Z.pow_pos_nonneg; lia).
  assert (v < 2 ^ 64) as Hv64 by nia.
  rewrite write_varint_step by lia. cbn [read_varint_loop].
  assert (i = 9 → v < 2) as H9 by (intros ->; change (2 ^ (7 * 9)) with (2 ^ 63) in Hv; lia).
  destruct (v <? 128) eqn:E.
  - eapply reads_at_then; [apply reads_byte|].
    assert ((i =? 9) && negb (Z.land v 254 =? 0) = false) as ->.
    { destruct (i =? 9) eqn:Hi9; [|done]. assert (v = 0 ∨ v = 1) as [->| ->] by lia; done. }
    rewrite land_128_last, land_127, Z.mod_small, varint_turn by lia. apply reads_at_ret.
  - pose proof (Z.mod_pos_bound v 128) as Hm. pose proof (Z.div_mod v 128) as Hdm.
    change (?b :: ?l) with ([b] ++ l). eapply reads_at_bind; [apply reads_byte|].
    assert ((i =? 9) = false) as -> by lia. cbn [andb].
    rewrite land_128_more, land_127_more, varint_turn by nia. cbn [Z.eqb].
    assert (2 ^ (7 * (i + 1)) = 128 * 2 ^ (7 * i)) as E3
      by (rewrite <- pow_turn by lia; f_equal; lia).
    replace (res + v * 2 ^ (7 * i)) with
      (res + v mod 128 * 2 ^ (7 * i) + v / 128 * 2 ^ (7 * (i + 1))) by nia.
    apply IH; [lia..| |apply Z.div_pos; lia|]; rewrite E3; nia.
Qed.

Lemma reads_varint v : is_u64 v = true → reads read_varint (varint v) v.
Proof.
  intros Hv%is_u64_spec post. replace v with (0 + v * 2 ^ (7 * 0)) at 2 by lia.
  apply read_varint_loop_reads; simpl; lia.
Qed.

Lemma remaining_at pre w post :
  remaining (mkReader (pre ++ w ++ post) (length pre + length w)) = slice_len post.
Proof. unfold remaining, slice_len. simpl. rewrite !length_app. lia. Qed.

Lemma reads_len {B} (k : Z → Read B) n w post y :
  is_u64 n = true → n ≤ slice_len (w ++ post) → reads_at (k n) w post y →
  reads_at (st_bind read_len k) (varint n ++ w) post y.
Proof.
  intros Hu Hn Hk. apply (reads_at_bind read_len k _ _ _ n); [|done].
  intros pre. unfold read_len, st_bind at 1. rewrite (reads_varint _ Hu).
  unfold st_bind, st_get. rewrite remaining_at.
  assert ((slice_len (w ++ post) <? n) = false) as -> by lia. done.
Qed.

Lemma slice_len_app bs post : slice_len (bs ++ post) = slice_len bs + slice_len post.
Proof. unfold slice_len. rewrite length_app. lia. Qed.
Lemma slice_len_nonneg bs : 0 ≤ slice_len bs.
Proof. unfold slice_len. lia. Qed.
Lemma slice_len_prefix bs post : slice_len bs ≤ slice_len (bs ++ post).
Proof. rewrite slice_len_app. pose proof (slice_len_nonneg post). lia. Qed.

Lemma reads_take bs post : reads_at (reader_take (slice_len bs)) bs post bs.
Proof.
  intros pre. unfold reader_take, remaining, slice_len. simpl.
  rewrite Nat2Z.id, drop_app_length, take_app_length.
  destruct (_ <? _) eqn:E; [|done]. rewrite !length_app in E. exfalso. apply Z.ltb_lt in E. lia.
Qed.

(** ** What the writer's values read back as *)

Definition bytes_fit (bs : list Z) : Prop := slice_len bs ≤ MAX_BYTES_LEN.
Definition str_fits (s : string) : Prop := str_ok s = true ∧ str_len s ≤ MAX_STR_LEN.
Definition elem_fits (e : option string) : Prop := default True (str_fits <$> e).
Definition array_fits (arr : list (option string)) : Prop :=
  Z.of_nat (length arr) ≤ MAX_ARRAY_ELEMS ∧ Forall elem_fits arr.

(** An element of length zero reads back as [None]. *)
Definition norm_elem (e : option string) : option string :=
  match e with Some EmptyString => None | _ => e end.

Lemma max_str_u64 z : 0 ≤ z ≤ MAX_STR_LEN → is_u64 z = true.
Proof. unfold MAX_STR_LEN. intros. apply is_u64_spec. lia. Qed.

Lemma reads_i64 v : is_i64 v = true → reads read_i64 (val_i64 [] v) v.
Proof.
  intros Hv post. eapply reads_at_then; [by apply reads_varint, zigzag_enc_range|].
  rewrite zigzag_dec_enc by done. apply reads_at_ret.
Qed.

Lemma reads_bool b : reads read_bool (val_bool [] b) b.
Proof.
  intros post. apply (reads_at_then _ _ _ _ (if b then 1 else 0)); [apply reads_varint; by destruct b|].
  destruct b; apply reads_at_ret.
Qed.

Lemma str_len_nonneg s : 0 ≤ str_len s.
Proof. unfold str_len. lia. Qed.

Lemma len_delim_app w bs : len_delim w bs = w ++ varint (slice_len bs) ++ bs.
Proof. unfold len_delim. by rewrite write_varint_app, <- app_assoc. Qed.

Lemma reads_str s : str_fits s → reads read_str (val_str [] s) s.
Proof.
  intros [Hok Hlen] post. unfold val_str. rewrite len_delim_app, slice_len_as_bytes. simpl.
  pose proof (str_len_nonneg s). apply reads_len; [apply max_str_u64; lia| |].
  { rewrite <- slice_len_as_bytes. apply slice_len_prefix. }
  assert ((MAX_STR_LEN <? str_len s) = false) as -> by lia. cbn [negb].
  eapply reads_at_then; [rewrite <- slice_len_as_bytes; apply reads_take|].
  rewrite from_utf8_as_bytes by done. apply reads_at_ret.
Qed.

Lemma reads_bytes bs : bytes_fit bs → reads read_bytes (val_bytes [] bs) bs.
Proof.
  unfold bytes_fit. intros Hlen post. unfold val_bytes. rewrite len_delim_app. simpl.
  pose proof (slice_len_nonneg bs).
  apply reads_len; [by apply max_str_u64|apply slice_len_prefix|].
  assert ((MAX_BYTES_LEN <? slice_len bs) = false) as -> by lia. apply reads_take.
Qed.

(** The bytes of one element, and of the elements of an array. *)
Definition elem_bytes (e : option string) : list Z :=
  match e with Some s => varint (str_len s) ++ as_bytes s | None => varint 0 end.
Definition array_bytes (arr : list (option string)) : list Z :=
  varint (Z.of_nat (length arr)) ++ concat (map elem_bytes arr).

Lemma push_elem_app inner e : push_elem inner e = inner ++ elem_bytes e.
Proof. destruct e as [s|]; simpl; by rewrite write_varint_app, ?app_assoc. Qed.

Lemma val_str_array_app w arr :
  val_str_array w arr = w ++ varint (slice_len (array_bytes arr)) ++ array_bytes arr.
Proof.
  unfold val_str_array. rewrite len_delim_app.
  assert (∀ inner, foldl push_elem inner arr = inner ++ concat (map elem_bytes arr)) as E.
  { clear w. induction arr as [|e arr IH]; intros inner; simpl; [by rewrite app_nil_r|].
    by rewrite IH, push_elem_app, <- app_assoc. }
  by rewrite E, write_varint_app.
Qed.

Lemma reads_elem e (k : option string → Read (list (option string))) w post y :
  elem_fits e → reads_at (k (norm_elem e)) w post y →
  reads_at
    (run! len := read_len in
     demand! negb (MAX_STR_LEN <? len) else LengthExceeds in
     if len =? 0 then k None
     else run! b := reader_take len in
          run! s := st_lift (ok_or (from_utf8 b) Utf8) in k (Some s))
    (elem_bytes e ++ w) post y.
Proof.
  destruct e as [s|]; cbn [elem_bytes]; intros He Hk.
  - destruct He as [Hok Hlen]. pose proof (str_len_nonneg s). rewrite <- app_assoc.
    apply reads_len; [apply max_str_u64; lia| |].
    { rewrite <- slice_len_as_bytes, <- app_assoc. apply slice_len_prefix. }
    assert ((MAX_STR_LEN <? str_len s) = false) as -> by lia. cbn [negb].
    destruct s as [|c s]; [done|]. assert ((str_len (String c s) =? 0) = false) as ->.
    { unfold str_len. simpl. lia. }
    eapply reads_at_bind; [rewrite <- slice_len_as_bytes; apply reads_take|].
    eapply reads_at_lift; [by rewrite from_utf8_as_bytes|done].
  - apply reads_len; [done|apply slice_len_nonneg|done].
Qed.

Lemma reads_elems arr out :
  Forall elem_fits arr →
  reads (read_elems (length arr) out) (concat (map elem_bytes arr)) (out ++ map norm_elem arr).
Proof.
  intros Hf. revert out. induction Hf as [|e arr He _ IH]; intros out post; simpl.
  { rewrite app_nil_r. apply reads_at_ret. }
  apply (reads_elem e (λ x, read_elems (length arr) (out ++ [x]))); [done|].
  specialize (IH (out ++ [norm_elem e]) post). by rewrite <- app_assoc in IH.
Qed.

Lemma varint_nonempty v : is_u64 v = true → (1 ≤ length (varint v))%nat.
Proof.
  intros Hv%is_u64_spec. unfold varint, write_varint. rewrite write_varint_step by done.
  destruct (v <? 128); cbn [length]; lia.
Qed.

Lemma varint_short fuel v : 0 ≤ v < 2 ^ 64 → (length (write_varint_loop fuel [] v) ≤ fuel)%nat.
Proof.
  revert v. induction fuel as [|fuel IH]; intros v Hv; [simpl; lia|].
  rewrite write_varint_step by done. destruct (v <? 128); simpl; [lia|].
  apply le_n_S, IH. split; [apply Z.div_pos|apply Z.div_lt_upper_bound]; lia.
Qed.

Lemma elem_bytes_length e :
  elem_fits e → (1 ≤ length (elem_bytes e))%nat ∧ slice_len (elem_bytes e) ≤ 10 + MAX_STR_LEN.
Proof.
  assert (∀ v, 0 ≤ v ≤ MAX_STR_LEN → (1 ≤ length (varint v) ≤ 10)%nat) as Hv.
  { intros v Hv%max_str_u64. split; [by apply varint_nonempty|].
    by apply varint_short, is_u64_spec. }
  destruct e as [s|]; unfold elem_bytes, slice_len; intros He.
  - destruct He as [_ Hlen]. pose proof (str_len_nonneg s). specialize (Hv (str_len s)).
    rewrite length_app, length_as_bytes. unfold str_len in *. lia.
  - specialize (Hv 0). unfold MAX_STR_LEN in *. lia.
Qed.

Lemma array_bytes_length arr :
  array_fits arr →
  Z.of_nat (length arr) ≤ slice_len (concat (map elem_bytes arr)) ∧
  slice_len (array_bytes arr) < 2 ^ 42.
Proof.
  intros [Hn Hf].
  assert (Z.of_nat (length arr) ≤ slice_len (concat (map elem_bytes arr))
          ≤ (10 + MAX_STR_LEN) * Z.of_nat (length arr)) as [H1 H2].
  { clear Hn. induction Hf as [|e arr He _ IH]; [done|]. cbn [map concat length].
    rewrite slice_len_app. destruct (elem_bytes_length e He). unfold slice_len in *. lia. }
  split; [done|]. unfold array_bytes. rewrite slice_len_app.
  unfold MAX_ARRAY_ELEMS, MAX_STR_LEN in *.
  assert (slice_len (varint (Z.of_nat (length arr))) ≤ 10).
  { unfold slice_len. pose proof (varint_short 10 (Z.of_nat (length arr))) as Hs.
    unfold varint, write_varint. lia. }
  lia.
Qed.

Lemma array_bytes_u64 arr : array_fits arr → is_u64 (slice_len (array_bytes arr)) = true.
Proof.
  intros [_ H]%array_bytes_length. apply is_u64_spec.
  pose proof (slice_len_nonneg (array_bytes arr)). lia.
Qed.

Lemma reads_all {A} (c : Read A) w x :
  reads_at c w [] x → c (Reader_new w) = Ok (x, mkReader w (length w)).
Proof. intros H. specialize (H []). by rewrite app_nil_r in H. Qed.

Lemma reads_str_array arr : array_fits arr → reads read_str_array (val_str_array [] arr) (map norm_elem arr).
Proof.
  intros Ha post. pose proof (array_bytes_u64 arr Ha) as Hu.
  destruct (array_bytes_length arr Ha) as [Hcount _]. destruct Ha as [Hn Hf].
  rewrite val_str_array_app. cbn [app]. apply reads_len; [done|apply slice_len_prefix|].
  eapply reads_at_then; [apply reads_take|].
  assert (read_elem_list (Reader_new (array_bytes arr)) =
          Ok (map norm_elem arr, mkReader (array_bytes arr) (length (array_bytes arr)))) as ->;
    [|apply reads_at_ret].
  apply reads_all. unfold array_bytes. unfold MAX_ARRAY_ELEMS in *.
  eapply reads_at_bind; [apply reads_varint, is_u64_spec; lia|].
  intros pre. unfold st_bind at 1, st_get.
  assert (remaining (mkReader (pre ++ concat (map elem_bytes arr) ++ []) (length pre))
          = slice_len (concat (map elem_bytes arr))) as ->.
  { unfold remaining, slice_len. simpl. rewrite app_nil_r, length_app. lia. }
  unfold MAX_ARRAY_ELEMS. rewrite (proj2 (Z.ltb_ge _ _)) by done.
  rewrite (proj2 (Z.ltb_ge (2 ^ 16) _)) by done. cbn [orb negb]. revert pre.
  eapply reads_at_then; [rewrite Nat2Z.id; apply (reads_elems arr []), Hf|].
  intros pre. unfold st_bind, expect_end. simpl. rewrite app_nil_r, Nat.add_0_r.
  unfold remaining. simpl. assert ((slice_len pre - Z.of_nat (length pre) =? 0) = true) as ->.
  { unfold slice_len. lia. }
  unfold st_ret. done.
Qed.

(** ** Bitmaps, keys and skipped values *)

Lemma bitmap_loop_app w bm idxs :
  bitmap_loop w bm idxs = w ++ map (λ i, as_u8 (Z.shiftr bm (Z.of_nat i * 8))) idxs.
Proof.
  revert w. induction idxs as [|i idxs IH]; intros w; simpl; [by rewrite app_nil_r|].
  by rewrite IH, <- app_assoc.
Qed.

Lemma bitmap_of_bytes bm n i :
  0 ≤ bm → (i + n ≤ 8)%nat →
  bitmap_of (Z.of_nat i) (bm mod 2 ^ (8 * Z.of_nat i))
    (map (λ j, as_u8 (Z.shiftr bm (Z.of_nat j * 8))) (seq i n))
  = bm mod 2 ^ (8 * Z.of_nat (i + n)).
Proof.
  intros Hbm. revert i. induction n as [|n IH]; intros i Hin.
  { simpl. by rewrite Nat.add_0_r. }
  cbn [seq map bitmap_of]. replace (i + S n)%nat with (S i + n)%nat by lia.
  rewrite <- IH by lia. replace (Z.of_nat (S i)) with (Z.of_nat i + 1) by lia. f_equal.
  set (k := Z.of_nat i). assert (0 ≤ k < 8) as Hk by lia.
  assert (0 < 2 ^ (8 * k)) as Hp by (apply Z.pow_pos_nonneg; lia).
  replace (8 * (k + 1)) with (8 * k + 8) by lia. rewrite Z.pow_add_r, Z.rem_mul_r by lia.
  unfold as_u8. rewrite (Z.mul_comm k), Z.shiftr_div_pow2 by lia.
  set (b := (bm / 2 ^ (8 * k)) mod 2 ^ 8).
  assert (0 ≤ b < 2 ^ 8) as Hb by by apply Z.mod_pos_bound.
  assert (2 ^ 8 * 2 ^ (8 * k) ≤ 2 ^ 64) as Hle.
  { rewrite <- Z.pow_add_r by lia. apply Z.pow_le_mono_r; lia. }
  unfold u64_shl, as_u64. rewrite (Z.mod_small (Z.shiftl b _)).
  - rewrite lor_shiftl_add; [lia..|]. by apply Z.mod_pos_bound.
  - rewrite Z.shiftl_mul_pow2 by lia. nia.
Qed.

Lemma reads_bitmap bm k :
  (k ≤ 8)%nat → 0 ≤ bm < 2 ^ (8 * Z.of_nat k) → reads (read_bitmap k) (bitmap [] bm k) bm.
Proof.
  intros Hk Hbm post. unfold bitmap, read_bitmap. rewrite Nat.min_l by done.
  rewrite bitmap_loop_app. cbn [app]. eapply reads_at_then.
  - replace (Z.of_nat k) with (slice_len (map (λ i, as_u8 (Z.shiftr bm (Z.of_nat i * 8))) (seq 0 k)))
      by (unfold slice_len; by rewrite length_map, length_seq).
    apply reads_take.
  - assert (bitmap_of 0 0 (map (λ i, as_u8 (Z.shiftr bm (Z.of_nat i * 8))) (seq 0 k)) = bm) as ->;
      [|apply reads_at_ret].
    pose proof (bitmap_of_bytes bm k 0) as H. simpl in H. rewrite Z.mod_1_r in H.
    etransitivity; [apply H; lia|by apply Z.mod_small].
Qed.

Lemma key_value tag wt :
  0 ≤ tag < 2 ^ 61 → 0 ≤ wt < 8 →
  let v := Z.lor (u64_shl tag 3) wt in
  is_u64 v = true ∧ Z.shiftr v 3 = tag ∧ Z.land v 7 = wt.
Proof.
  intros Htag Hwt v.
  assert (v = wt + tag * 2 ^ 3) as ->.
  { unfold v, u64_shl, as_u64. rewrite Z.mod_small by (rewrite Z.shiftl_mul_pow2; lia).
    rewrite Z.lor_comm. apply lor_shiftl_add; lia. }
  split; [apply is_u64_spec; lia|]. change 7 with (Z.ones 3).
  rewrite Z.shiftr_div_pow2, Z.land_ones, Z.div_add, Z.mod_add, Z.div_small, Z.mod_small; lia.
Qed.

Lemma key_app w tag wt : key w tag wt = w ++ varint (Z.lor (u64_shl tag 3) wt).
Proof. apply write_varint_app. Qed.

Lemma reads_skip_varint v : is_u64 v = true → reads (skip_value WT_VARINT) (varint v) tt.
Proof. intros Hv post. eapply reads_at_then; [by apply reads_varint|apply reads_at_ret]. Qed.

Lemma reads_skip_len bs :
  is_u64 (slice_len bs) = true → reads (skip_value WT_LEN) (varint (slice_len bs) ++ bs) tt.
Proof.
  intros Hu post. apply reads_len; [done|apply slice_len_prefix|].
  eapply reads_at_then; [apply reads_take|apply reads_at_ret].
Qed.

(** ** What a reader yields

    [yields c Q]: a read that succeeds leaves the data alone, stays within it,
    and [Q] relates the number of bytes it consumed to its value. *)

Definition reader_ok (r : Reader) : Prop :=
  Forall is_byte (rdata r) ∧ (rpos r ≤ length (rdata r))%nat.

Definition yields {A} (c : Read A) (Q : nat → A → Prop) : Prop :=
  ∀ r x r', reader_ok r → c r = Ok (x, r') →
    rdata r' = rdata r ∧ reader_ok r' ∧ ∃ n, rpos r' = (rpos r + n)%nat ∧ Q n x.

Lemma yields_ret {A} (x : A) (Q : nat → A → Prop) : Q 0%nat x → yields (st_ret x) Q.
Proof. intros HQ r y r' Hr [= <- <-]. split_and!; [done..|]. exists 0%nat. by rewrite Nat.add_0_r. Qed.

Lemma yields_fail {A} e (Q : nat → A → Prop) : yields (st_fail e) Q.
Proof. by intros r x r' _ [=]. Qed.

Lemma yields_bind {A B} (c : Read A) (k : A → Read B) P (Q : nat → B → Prop) :
  yields c P → (∀ n x, P n x → yields (k x) (λ m y, Q (n + m)%nat y)) → yields (st_bind c k) Q.
Proof.
  intros Hc Hk r y r2 Hr (x & r1 & H1 & H2)%st_bind_Ok.
  destruct (Hc _ _ _ Hr H1) as (Hd1 & Hr1 & n & Hn & HP).
  destruct (Hk n x HP _ _ _ Hr1 H2) as (Hd2 & Hr2 & m & Hm & HQ).
  split_and!; [congruence|done|]. exists (n + m)%nat. split; [lia|done].
Qed.

Lemma yields_mono {A} (c : Read A) (P Q : nat → A → Prop) :
  yields c P → (∀ n x, P n x → Q n x) → yields c Q.
Proof. intros Hc HPQ r x r' Hr H. destruct (Hc _ _ _ Hr H) as (? & ? & n & ? & ?). eauto 6. Qed.

Lemma yields_get {A B} (f : Reader → A) (k : A → Read B) Q :
  (∀ x, yields (k x) Q) → yields (st_bind (st_get f) k) Q.
Proof. intros Hk r x r' Hr H. by apply (Hk (f r)) in H. Qed.

Lemma yields_lift {A B} (v : result A CodecError) (k : A → Read B) Q :
  (∀ x, v = Ok x → yields (k x) Q) → yields (st_bind (st_lift v) k) Q.
Proof. intros Hk r x r' Hr H. destruct v as [a|e]; [|done]. by apply (Hk a eq_refl) in H. Qed.

Lemma yields_demand {A} (b : bool) e (c : Read A) Q :
  (b = true → yields c Q) → yields (if b then c else st_fail e) Q.
Proof. destruct b; [auto|intros _; apply yields_fail]. Qed.

Create HintDb wire.
#[export] Hint Resolve yields_ret yields_fail yields_get yields_demand : wire.

Lemma yields_byte : yields read_byte (λ n b, n = 1%nat ∧ is_byte b).
Proof.
  intros r b r' [Hb Hp]. unfold read_byte. destruct (rdata r !! rpos r) as [b'|] eqn:E; [|done].
  intros [= <- <-]. simpl. split; [done|]. split.
  - split; simpl; [done|]. by apply lookup_lt_Some in E.
  - exists 1%nat. split_and!; [lia|done|]. by eapply Forall_lookup_1.
Qed.

Lemma yields_varint_loop turns i res :
  0 ≤ res < 2 ^ 64 →
  yields (read_varint_loop turns i res) (λ n v, (1 ≤ n)%nat ∧ is_u64 v = true).
Proof.
  revert i res. induction turns as [|turns IH]; intros i res Hres; [apply yields_fail|].
  eapply yields_bind; [apply yields_byte|]. intros n b [-> _].
  destruct (_ && _); [apply yields_fail|].
  assert (0 ≤ Z.lor res (u64_shl (Z.land b 127) (i * 7)) < 2 ^ 64) as Hlor
    by (apply lor_u64; [done|apply as_u64_range]).
  destruct (_ =? 0).
  - apply yields_ret. split; [lia|by apply is_u64_spec].
  - eapply yields_mono; [by apply IH|]. intros m v [Hm Hv]. split; [lia|done].
Qed.

Lemma yields_varint : yields read_varint (λ n v, (1 ≤ n)%nat ∧ is_u64 v = true).
Proof. by apply yields_varint_loop. Qed.

Lemma yields_len : yields read_len (λ n v, (1 ≤ n)%nat ∧ is_u64 v = true).
Proof.
  eapply yields_bind; [apply yields_varint|]. intros n v Hv. apply yields_get. intros left.
  apply yields_demand. intros _. apply yields_ret. by rewrite Nat.add_0_r.
Qed.

Lemma yields_take z : 0 ≤ z →
  yields (reader_take z) (λ n bs, n = Z.to_nat z ∧ length bs = n ∧ Forall is_byte bs).
Proof.
  intros Hz r bs r' [Hb Hp]. unfold reader_take, remaining, slice_len.
  destruct (_ <? _) eqn:E; [done|]. intros [= <- <-]. simpl.
  split; [done|]. split; [split; simpl; [done|lia]|].
  exists (Z.to_nat z). split_and!; [done..| |].
  - rewrite length_take, length_drop. lia.
  - by apply Forall_take, Forall_drop.
Qed.

Lemma yields_str : yields read_str (λ n s, str_fits s ∧ (1 + String.length s ≤ n)%nat).
Proof.
  eapply yields_bind; [apply yields_len|]. intros n z [Hn Hz%is_u64_spec].
  apply yields_demand. intros Hmax. eapply yields_bind; [apply yields_take; lia|].
  intros m bs (-> & Hlen & Hb) r s r' Hr H. unfold st_lift in H.
  destruct (from_utf8 bs) as [s'|] eqn:Hs; [|done]. injection H as <- <-.
  split_and!; [done..|]. exists 0%nat. apply from_utf8_Some in Hs as [<- Hok]; [|done].
  rewrite length_as_bytes in Hlen. unfold str_fits, str_len. split_and!; [lia|done|lia..].
Qed.

Lemma yields_bytes :
  yields read_bytes (λ n bs, bytes_fit bs ∧ Forall is_byte bs ∧ (1 + length bs ≤ n)%nat).
Proof.
  eapply yields_bind; [apply yields_len|]. intros n z [Hn Hz%is_u64_spec].
  apply yields_demand. intros Hmax. eapply yields_mono; [apply yields_take; lia|].
  intros m bs (-> & Hlen & Hb). unfold bytes_fit, slice_len. split_and!; [lia|done|lia].
Qed.

(** The bytes an element takes at least. *)
Definition elem_size (e : option string) : nat := S (default 0%nat (String.length <$> e)).
Definition elems_size (arr : list (option string)) : nat := sum_list_with elem_size arr.

Definition elem_read (e : option string) : Prop := elem_fits e ∧ norm_elem e = e.

Lemma yields_elems count out :
  yields (read_elems count out) (λ n arr, ∃ new,
    arr = out ++ new ∧ length new = count ∧ Forall elem_read new ∧ (elems_size new ≤ n)%nat).
Proof.
  revert out. induction count as [|count IH]; intros out.
  { apply yields_ret. exists []. rewrite app_nil_r. split_and!; done. }
  eapply yields_bind; [apply yields_len|]. intros n z [Hn Hz%is_u64_spec].
  apply yields_demand. intros Hmax. destruct (z =? 0) eqn:E.
  - eapply yields_mono; [apply IH|]. intros m arr (new & -> & Hl & Hf & Hs).
    exists (None :: new). split_and!; [by rewrite <- app_assoc|simpl; lia|by constructor|].
    unfold elems_size in *. simpl. lia.
  - eapply yields_bind; [apply yields_take; lia|]. intros m bs (-> & Hlen & Hb).
    apply yields_lift. intros s Hs%ok_or_Ok. apply from_utf8_Some in Hs as [<- Hok]; [|done].
    eapply yields_mono; [apply IH|]. intros k arr (new & -> & Hl & Hf & Hs).
    rewrite length_as_bytes in Hlen.
    exists (Some s :: new). split_and!; [by rewrite <- app_assoc|simpl; lia| |].
    + constructor; [|done]. split; [split; unfold str_len; [done|lia]|].
      destruct s; [simpl in *; lia|done].
    + unfold elems_size in *. simpl. lia.
Qed.

Definition array_read (arr : list (option string)) : Prop :=
  Z.of_nat (length arr) ≤ MAX_ARRAY_ELEMS ∧ Forall elem_read arr.

Lemma array_read_fits arr : array_read arr → array_fits arr ∧ map norm_elem arr = arr.
Proof.
  intros [Hn Hf]. split.
  - split; [done|]. eapply Forall_impl; [done|]. by intros e [].
  - induction Hf as [|e arr [_ He] _ IH]; simpl; [done|]. rewrite He, IH; [done|]. simpl in Hn. lia.
Qed.

Lemma expect_end_Ok r x r' : expect_end r = Ok (x, r') → r' = r ∧ remaining r = 0.
Proof. unfold expect_end. destruct (_ =? 0) eqn:E; [|done]. intros [= <- <-]. split; [done|lia]. Qed.

Lemma yields_elem_list :
  yields read_elem_list (λ n arr, array_read arr ∧ (1 + elems_size arr ≤ n)%nat).
Proof.
  eapply yields_bind; [apply yields_varint|]. intros n z [Hn Hz%is_u64_spec].
  apply yields_get. intros left. apply yields_demand. intros Hmax.
  eapply yields_bind; [apply yields_elems|]. intros m arr (new & -> & Hl & Hf & Hs).
  intros r x r' Hr (y & r1 & He & Hret)%st_bind_Ok. apply expect_end_Ok in He as [-> _].
  injection Hret as <- <-. split_and!; [done..|]. exists 0%nat. unfold array_read.
  simpl. split_and!; [lia| |done|lia]. unfold MAX_ARRAY_ELEMS in *. lia.
Qed.

Lemma yields_str_array :
  yields read_str_array (λ n arr, array_read arr ∧ (1 + elems_size arr ≤ n)%nat).
Proof.
  eapply yields_bind; [apply yields_len|]. intros n z [Hn Hz%is_u64_spec].
  eapply yields_bind; [apply yields_take; lia|]. intros m bs (-> & Hlen & Hb) r arr r' Hr H.
  unfold st_lift in H. destruct (read_elem_list _) as [[arr' r1]|] eqn:E; [|done].
  injection H as <- <-. split_and!; [done..|]. exists 0%nat. split; [lia|].
  assert (reader_ok (Reader_new bs)) as Hnew by (split; simpl; [done|lia]).
  destruct (yields_elem_list _ _ _ Hnew E) as (Hd & [_ Hp] & k & Hk & Ha & Hs).
  split; [done|]. rewrite Hd in Hp. simpl in *. lia.
Qed.

Lemma yields_i64 : yields read_i64 (λ n v, (1 ≤ n)%nat ∧ is_i64 v = true).
Proof.
  eapply yields_bind; [apply yields_varint|]. intros n v [Hn Hv]. apply yields_ret.
  split; [lia|by apply zigzag_dec_range].
Qed.

Lemma yields_bool : yields read_bool (λ n _, (1 ≤ n)%nat).
Proof. eapply yields_bind; [apply yields_varint|]. intros n v [Hn Hv]. apply yields_ret. lia. Qed.

Lemma yields_bitmap k : yields (read_bitmap k) (λ _ _, True).
Proof. eapply yields_bind; [apply yields_take; lia|]. intros n bs _. by apply yields_ret. Qed.

Lemma yields_skip wt : yields (skip_value wt) (λ n _, (1 ≤ n)%nat).
Proof.
  unfold skip_value. destruct (wt =? WT_VARINT); [|destruct (wt =? WT_LEN); [|apply yields_fail]].
  - eapply yields_bind; [apply yields_varint|]. intros n v [Hn Hv]. apply yields_ret. lia.
  - eapply yields_bind; [apply yields_len|]. intros n v [Hn Hv%is_u64_spec].
    eapply yields_bind; [apply yields_take; lia|]. intros m bs _. apply yields_ret. lia.
Qed.
