(* ===== verification/WireSchema.v ===== *)
(** * Schemas and the code derived for them

    [naws-proto-derive]: lib.rs, the macro [derive(ProtocolBytes)], and
    [naws-proto]: lib.rs ([Mode], [WireCodec]) and schema.rs.  The macro reads a
    struct declaration, accepts or refuses it ([collect_fields]), and writes
    the two binary codecs of the struct field by field; the functions below are
    those codecs as functions of the accepted fields.  A struct value is the list
    of its field values in the order of the tags, which the class
    [ProtocolBytes] relates to the record of the struct.  JSON is the parameter
    [SerdeJson]. *)

From Stdlib Require Import ZArith Lia.
From S2P Require Import Prelude Bytes Wire.
From stdpp Require Import prelude strings.

Local Open Scope Z_scope.
Local Open Scope rust_scope.

(** ** The macro *)

Inductive Kind := KStr | KBytes | KStrArray | KI64 | KI32 | KI8 | KBool.

#[global] Instance Kind_eq_dec : EqDecision Kind.
Proof. solve_decision. Defined.

Definition nullable (k : Kind) : bool :=
  match k with KStr | KBytes | KStrArray => true | _ => false end.
Definition is_len (k : Kind) : bool := nullable k.

(** A type as the macro sees it: the last segment of a path, alone or with its
    first type argument, or anything else. *)
Inductive Ty :=
| TyPath (seg : string)
| TyGeneric (seg : string) (arg : Ty)
| TyOther.

Definition is_path (ty : Ty) (name : string) : bool :=
  match ty with TyPath seg | TyGeneric seg _ => String.eqb seg name | TyOther => false end.
Definition generic_inner (ty : Ty) (wrapper : string) : option Ty :=
  match ty with
  | TyGeneric seg arg => if String.eqb seg wrapper then Some arg else None
  | TyPath _ | TyOther => None
  end.
Definition option_inner (ty : Ty) : option Ty := generic_inner ty "Option".
Definition vec_inner (ty : Ty) : option Ty := generic_inner ty "Vec".

Definition classify (ty : Ty) : option Kind :=
  match option_inner ty with
  | Some inner =>
      if is_path inner "String" then Some KStr
      else match vec_inner inner with
           | Some elem =>
               if is_path elem "u8" then Some KBytes
               else if default false ((λ e, is_path e "String") <$> option_inner elem)
               then Some KStrArray else None
           | None => None
           end
  | None =>
      if is_path ty "i64" then Some KI64
      else if is_path ty "i32" then Some KI32
      else if is_path ty "i8" then Some KI8
      else if is_path ty "bool" then Some KBool
      else None
  end.

(** A field as declared: its name, the literal of [#[proto(tag = N)]], its type. *)
Record FieldDecl := mkDecl { fd_ident : string; fd_tag : option Z; fd_ty : Ty }.
Inductive DeriveInput :=
| NamedStruct (named : list FieldDecl)
| UnnamedStruct
| NotStruct.

Record FieldInfo := mkField { f_ident : string; f_tag : Z; f_kind : Kind }.

Inductive DeriveError :=
| OnlyStructs
| NeedsNamedFields
| MissingTag (field : string)
| BadLiteral (field : string)
| UnsupportedType (field : string)
| ZeroTag (field : string)
| TagTooLarge (field : string)
| TooManyFields
| TagConflict (tag : Z).

Definition MAX_TAG : Z := Z.shiftr U64_MAX 3.

Definition parse_tag (field : FieldDecl) : result Z DeriveError :=
  match fd_tag field with
  | None => Err (MissingTag (fd_ident field))
  | Some t => if is_u64 t then Ok t else Err (BadLiteral (fd_ident field))
  end.

Definition field_info (field : FieldDecl) : result FieldInfo DeriveError :=
  let? tag := parse_tag field in
  let? kind := ok_or (classify (fd_ty field)) (UnsupportedType (fd_ident field)) in
  ensure negb (tag =? 0) else ZeroTag (fd_ident field) in
  ensure negb (MAX_TAG <? tag) else TagTooLarge (fd_ident field) in
  Ok (mkField (fd_ident field) tag kind).

Fixpoint field_infos (named : list FieldDecl) : result (list FieldInfo) DeriveError :=
  match named with
  | [] => Ok []
  | field :: rest =>
      let? info := field_info field in
      let? infos := field_infos rest in
      Ok (info :: infos)
  end.

(** [sort_by_key(|f| f.tag)], which is stable. *)
Fixpoint insert_field (f : FieldInfo) (fs : list FieldInfo) : list FieldInfo :=
  match fs with
  | [] => [f]
  | g :: fs' => if f_tag f <=? f_tag g then f :: fs else g :: insert_field f fs'
  end.
Definition sort_by_tag (fs : list FieldInfo) : list FieldInfo := foldr insert_field [] fs.

(** [windows(2)]. *)
Fixpoint tag_conflict (fs : list FieldInfo) : option Z :=
  match fs with
  | f :: (g :: _) as fs' => if f_tag f =? f_tag g then Some (f_tag f) else tag_conflict fs'
  | _ => None
  end.

Definition collect_fields (ast : DeriveInput) : result (list FieldInfo) DeriveError :=
  match ast with
  | NotStruct => Err OnlyStructs
  | UnnamedStruct => Err NeedsNamedFields
  | NamedStruct named =>
      let? infos := field_infos named in
      let out := sort_by_tag infos in
      ensure negb (64 <? length out)%nat else TooManyFields in
      match tag_conflict out with
      | Some t => Err (TagConflict t)
      | None => Ok out
      end
  end.

(** ** Field values *)

Inductive Value :=
| VStr (x : option string)
| VBytes (x : option (list Z))
| VStrArray (x : option (list (option string)))
| VI64 (x : Z)
| VI32 (x : Z)
| VI8 (x : Z)
| VBool (x : bool).

#[global] Instance Value_eq_dec : EqDecision Value.
Proof. solve_decision. Defined.

Definition kind_of (v : Value) : Kind :=
  match v with
  | VStr _ => KStr | VBytes _ => KBytes | VStrArray _ => KStrArray
  | VI64 _ => KI64 | VI32 _ => KI32 | VI8 _ => KI8 | VBool _ => KBool
  end.

(** [Default]. *)
Definition default_value (k : Kind) : Value :=
  match k with
  | KStr => VStr None | KBytes => VBytes None | KStrArray => VStrArray None
  | KI64 => VI64 0 | KI32 => VI32 0 | KI8 => VI8 0 | KBool => VBool false
  end.

(** Written at all: a field that is not [None]. *)
Definition present (v : Value) : bool :=
  match v with
  | VStr None | VBytes None | VStrArray None => false
  | _ => true
  end.

(** [write_val] under its [if let Some(x)]. *)
Definition write_val (w : Writer) (v : Value) : Writer :=
  match v with
  | VStr (Some x) => val_str w x
  | VBytes (Some x) => val_bytes w x
  | VStrArray (Some x) => val_str_array w x
  | VI64 x | VI32 x | VI8 x => val_i64 w x
  | VBool x => val_bool w x
  | VStr None | VBytes None | VStrArray None => w
  end.

Definition read_val (k : Kind) : Read Value :=
  match k with
  | KStr => run! x := read_str in st_ret (VStr (Some x))
  | KBytes => run! x := read_bytes in st_ret (VBytes (Some x))
  | KStrArray => run! x := read_str_array in st_ret (VStrArray (Some x))
  | KI64 => run! x := read_i64 in st_ret (VI64 x)
  | KI32 => run! x := read_i64 in st_ret (VI32 (wrap_i 32 x))
  | KI8 => run! x := read_i64 in st_ret (VI8 (wrap_i 8 x))
  | KBool => run! x := read_bool in st_ret (VBool x)
  end.

(** ** The derived codecs *)

Definition bm_bytes (n : nat) : nat :=
  if (n <=? 8)%nat then 1 else if (n <=? 16)%nat then 2 else if (n <=? 32)%nat then 4 else 8.

Fixpoint bitpack_presence (bit : nat) (bm : Z) (vs : list Value) : Z :=
  match vs with
  | [] => bm
  | v :: vs' =>
      bitpack_presence (S bit) (if present v then Z.lor bm (u64_shl 1 (Z.of_nat bit)) else bm) vs'
  end.

Definition encode_bitpack (vs : list Value) : list Z :=
  let bm := bitpack_presence 0 0 vs in
  let w := bitmap Writer_new bm (bm_bytes (length vs)) in
  foldl write_val w vs.

Fixpoint bitpack_read (bit : nat) (bm : Z) (fs : list FieldInfo) (out : list Value)
  : Read (list Value) :=
  match fs with
  | [] => st_ret out
  | f :: fs' =>
      if negb (Z.land bm (u64_shl 1 (Z.of_nat bit)) =? 0) then
        run! v := read_val (f_kind f) in
        bitpack_read (S bit) bm fs' (<[bit := v]> out)
      else bitpack_read (S bit) bm fs' out
  end.

Definition default_values (fs : list FieldInfo) : list Value := map (λ f, default_value (f_kind f)) fs.

Definition valid_bits (n : nat) : Z :=
  if (64 <=? n)%nat then U64_MAX else u64_shl 1 (Z.of_nat n) - 1.

Definition decode_bitpack_from (fs : list FieldInfo) : Read (list Value) :=
  run! bm := read_bitmap (bm_bytes (length fs)) in
  demand! Z.land bm (u64_not (valid_bits (length fs))) =? 0 else BadBitmap in
  run! out := bitpack_read 0 bm fs (default_values fs) in
  then! expect_end in
  st_ret out.
Definition decode_bitpack (fs : list FieldInfo) (data : list Z) : result (list Value) CodecError :=
  result_map fst (decode_bitpack_from fs (Reader_new data)).

Definition wire_type (k : Kind) : Z := if is_len k then WT_LEN else WT_VARINT.

Definition write_field (w : Writer) (fv : FieldInfo * Value) : Writer :=
  if present fv.2 then write_val (key w (f_tag fv.1) (wire_type (f_kind fv.1))) fv.2 else w.
Definition encode_varint (fs : list FieldInfo) (vs : list Value) : list Z :=
  foldl write_field Writer_new (zip fs vs).

(** One turn of the loop: a key, then the arm of its tag. *)
Definition decode_field (fs : list FieldInfo) (out : list Value) : Read (list Value) :=
  run! k := read_varint in
  let tag := Z.shiftr k 3 in
  let wt := Z.land k 7 in
  match list_find (λ f, f_tag f = tag) fs with
  | Some (i, f) =>
      then! st_lift (check_wt (f_tag f) (wire_type (f_kind f)) wt) in
      run! v := read_val (f_kind f) in
      st_ret (<[i := v]> out)
  | None => then! skip_value wt in st_ret out
  end.

(** Every turn consumes a byte at least, so as many turns as there are bytes are
    enough ([decode_loop_fuel]). *)
Fixpoint decode_loop (fuel : nat) (fs : list FieldInfo) (out : list Value) : Read (list Value) :=
  run! left := st_get remaining in
  if 0 <? left then
    match fuel with
    | O => st_fail Truncated
    | S fuel' => run! out' := decode_field fs out in decode_loop fuel' fs out'
    end
  else st_ret out.
Definition decode_varint (fs : list FieldInfo) (data : list Z) : result (list Value) CodecError :=
  result_map fst (decode_loop (length data) fs (default_values fs) (Reader_new data)).

(** ** Modes and the codec of a type *)

Inductive Mode := JsonBytes | VarintTlv | BitpackTlv | FastFixed.

#[global] Instance Mode_eq_dec : EqDecision Mode.
Proof. solve_decision. Defined.

Definition from_ordinal (v : Z) : option Mode :=
  if v =? 0 then Some JsonBytes
  else if v =? 1 then Some VarintTlv
  else if v =? 2 then Some BitpackTlv
  else if v =? 3 then Some FastFixed
  else None.
Definition ordinal (m : Mode) : Z :=
  match m with JsonBytes => 0 | VarintTlv => 1 | BitpackTlv => 2 | FastFixed => 3 end.

(** serde_json on a schema type. *)
Class SerdeJson (T : Type) := {
  json_to_vec : T → result (list Z) CodecError;
  json_from_slice : list Z → result T CodecError }.

(** A struct that derives [ProtocolBytes]: its declaration is accepted, and its
    values are lists of field values of the declared kinds. *)
Class ProtocolBytes (T : Type) := {
  declaration : DeriveInput;
  fields : list FieldInfo;
  declaration_accepted : collect_fields declaration = Ok fields;
  to_values : T → list Value;
  of_values : list Value → T;
  to_values_typed : ∀ x, map kind_of (to_values x) = map f_kind fields;
  of_to_values : ∀ x, of_values (to_values x) = x;
  to_of_values : ∀ vs, map kind_of vs = map f_kind fields → to_values (of_values vs) = vs }.

#[global] Arguments fields T {_}.

Section codec.
Context {T : Type} `{!ProtocolBytes T} `{!SerdeJson T}.

Definition wire_encode (mode : Mode) (x : T) : result (list Z) CodecError :=
  match mode with
  | BitpackTlv => Ok (encode_bitpack (to_values x))
  | VarintTlv => Ok (encode_varint (fields T) (to_values x))
  | JsonBytes => json_to_vec x
  | FastFixed => Err (Unsupported "FAST_FIXED")
  end.

Definition wire_decode (mode : Mode) (data : list Z) : result T CodecError :=
  match mode with
  | BitpackTlv => result_map of_values (decode_bitpack (fields T) data)
  | VarintTlv => result_map of_values (decode_varint (fields T) data)
  | JsonBytes => json_from_slice data
  | FastFixed => Err (Unsupported "FAST_FIXED")
  end.
End codec.

(** ** The structs of the protocol *)

Definition ty_str : Ty := TyGeneric "Option" (TyPath "String").
Definition ty_bytes : Ty := TyGeneric "Option" (TyGeneric "Vec" (TyPath "u8")).
Definition ty_str_array : Ty :=
  TyGeneric "Option" (TyGeneric "Vec" (TyGeneric "Option" (TyPath "String"))).
Definition ty_i64 : Ty := TyPath "i64".
Definition ty_i32 : Ty := TyPath "i32".
Definition ty_i8 : Ty := TyPath "i8".
Definition ty_bool : Ty := TyPath "bool".

Definition decl (ident : string) (tag : Z) (ty : Ty) : FieldDecl := mkDecl ident (Some tag) ty.

Abbreviation StrArray := (option (list (option string))).

Record Message := mkMessage {
  msg_events : StrArray;
  msg_from_uid : option string;
  msg_from_client : option string;
  msg_routers : StrArray;
  msg_group : option string;
  msg_uids : StrArray;
  msg_excludes : StrArray;
  msg_payload : option (list Z);
  msg_ack_id : Z }.

Definition message_decl : DeriveInput := NamedStruct
  [decl "events" 10 ty_str_array; decl "from_uid" 20 ty_str; decl "from_client" 30 ty_str;
   decl "routers" 40 ty_str_array; decl "group" 50 ty_str; decl "uids" 60 ty_str_array;
   decl "excludes" 70 ty_str_array; decl "payload" 80 ty_bytes; decl "ack_id" 90 ty_i64].

Record AuthRequest := mkAuthRequest {
  req_token : option string;
  req_endpoint : option string;
  req_device_id : option string;
  req_version : option string;
  req_query_keys : StrArray;
  req_query_values : StrArray;
  req_header_keys : StrArray;
  req_header_values : StrArray }.

Definition auth_request_decl : DeriveInput := NamedStruct
  [decl "token" 10 ty_str; decl "endpoint" 20 ty_str; decl "device_id" 30 ty_str;
   decl "version" 40 ty_str; decl "query_keys" 50 ty_str_array; decl "query_values" 60 ty_str_array;
   decl "header_keys" 70 ty_str_array; decl "header_values" 80 ty_str_array].

Record AuthResponse := mkAuthResponse {
  resp_ok : bool;
  resp_session_id : option string;
  resp_err_msg : option string;
  resp_heartbeat_timeout_ms : Z }.

Definition auth_response_decl : DeriveInput := NamedStruct
  [decl "ok" 10 ty_bool; decl "session_id" 20 ty_str; decl "err_msg" 30 ty_str;
   decl "heartbeat_timeout_ms" 40 ty_i64].

Record CloseReason := mkCloseReason { close_code : Z; close_reason : option string }.

Definition close_reason_decl : DeriveInput := NamedStruct
  [decl "code" 10 ty_i32; decl "reason" 20 ty_str].

Record ClusterEvent := mkClusterEvent {
  ev_source_node : option string;
  ev_timestamp : Z;
  ev_trace_id : option string;
  ev_message_mode : Z;
  ev_message_bytes : option (list Z);
  ev_target_nodes : StrArray;
  ev_source_incarnation : option string }.

Definition cluster_event_decl : DeriveInput := NamedStruct
  [decl "source_node" 10 ty_str; decl "timestamp" 20 ty_i64; decl "trace_id" 30 ty_str;
   decl "message_mode" 40 ty_i8; decl "message_bytes" 50 ty_bytes;
   decl "target_nodes" 60 ty_str_array; decl "source_incarnation" 70 ty_str].

(** The field list the macro collects. *)
Definition collected_fields (ast : DeriveInput) : list FieldInfo :=
  match collect_fields ast with Ok fs => fs | Err _ => [] end.

(** A list of the right kinds is the list of a record. *)
Ltac by_kinds :=
  first [reflexivity | by intros [] |
    let vs := fresh "vs" in let H := fresh "H" in
    intros vs H;
    match type of H with _ = ?r => let r' := eval vm_compute in r in change (map kind_of vs = r') in H end;
    repeat (destruct vs as [|[] vs]; try discriminate H; cbn [map kind_of] in H;
            try (injection H as H));
    reflexivity].

Definition message_values (m : Message) : list Value :=
  [VStrArray (msg_events m); VStr (msg_from_uid m); VStr (msg_from_client m);
   VStrArray (msg_routers m); VStr (msg_group m); VStrArray (msg_uids m);
   VStrArray (msg_excludes m); VBytes (msg_payload m); VI64 (msg_ack_id m)].
Definition message_of (vs : list Value) : Message :=
  match vs with
  | [VStrArray e; VStr u; VStr c; VStrArray r; VStr g; VStrArray us; VStrArray x; VBytes p; VI64 a] => mkMessage e u c r g us x p a
  | _ => mkMessage None None None None None None None None 0
  end.

#[global] Instance Message_protocol : ProtocolBytes Message.
Proof.
  refine {| declaration := message_decl; fields := collected_fields message_decl;
            to_values := message_values; of_values := message_of |}; by_kinds.
Defined.

Definition auth_request_values (m : AuthRequest) : list Value :=
  [VStr (req_token m); VStr (req_endpoint m); VStr (req_device_id m); VStr (req_version m);
   VStrArray (req_query_keys m); VStrArray (req_query_values m);
   VStrArray (req_header_keys m); VStrArray (req_header_values m)].
Definition auth_request_of (vs : list Value) : AuthRequest :=
  match vs with
  | [VStr t; VStr e; VStr d; VStr v; VStrArray qk; VStrArray qv; VStrArray hk; VStrArray hv] => mkAuthRequest t e d v qk qv hk hv
  | _ => mkAuthRequest None None None None None None None None
  end.

#[global] Instance AuthRequest_protocol : ProtocolBytes AuthRequest.
Proof.
  refine {| declaration := auth_request_decl; fields := collected_fields auth_request_decl;
            to_values := auth_request_values; of_values := auth_request_of |}; by_kinds.
Defined.

Definition auth_response_values (m : AuthResponse) : list Value :=
  [VBool (resp_ok m); VStr (resp_session_id m); VStr (resp_err_msg m);
   VI64 (resp_heartbeat_timeout_ms m)].
Definition auth_response_of (vs : list Value) : AuthResponse :=
  match vs with
  | [VBool o; VStr i; VStr e; VI64 h] => mkAuthResponse o i e h
  | _ => mkAuthResponse false None None 0
  end.

#[global] Instance AuthResponse_protocol : ProtocolBytes AuthResponse.
Proof.
  refine {| declaration := auth_response_decl; fields := collected_fields auth_response_decl;
            to_values := auth_response_values; of_values := auth_response_of |}; by_kinds.
Defined.

Definition close_values (m : CloseReason) : list Value :=
  [VI32 (close_code m); VStr (close_reason m)].
Definition close_of (vs : list Value) : CloseReason :=
  match vs with
  | [VI32 c; VStr r] => mkCloseReason c r
  | _ => mkCloseReason 0 None
  end.

#[global] Instance CloseReason_protocol : ProtocolBytes CloseReason.
Proof.
  refine {| declaration := close_reason_decl; fields := collected_fields close_reason_decl;
            to_values := close_values; of_values := close_of |}; by_kinds.
Defined.

Definition cluster_event_values (m : ClusterEvent) : list Value :=
  [VStr (ev_source_node m); VI64 (ev_timestamp m); VStr (ev_trace_id m);
   VI8 (ev_message_mode m); VBytes (ev_message_bytes m); VStrArray (ev_target_nodes m);
   VStr (ev_source_incarnation m)].
Definition cluster_event_of (vs : list Value) : ClusterEvent :=
  match vs with
  | [VStr n; VI64 t; VStr tr; VI8 md; VBytes b; VStrArray ns; VStr i] => mkClusterEvent n t tr md b ns i
  | _ => mkClusterEvent None 0 None 0 None None None
  end.

#[global] Instance ClusterEvent_protocol : ProtocolBytes ClusterEvent.
Proof.
  refine {| declaration := cluster_event_decl; fields := collected_fields cluster_event_decl;
            to_values := cluster_event_values; of_values := cluster_event_of |}; by_kinds.
Defined.
