(* ===== verification/WireCodec.v ===== *)
(** * What the derived codecs guarantee

    For every accepted schema: the two binary formats read back what they wrote,
    an older or newer reader finds the fields it knows, and whatever bytes arrive,
    what is decoded is within the limits, no larger than the input, and canonical. *)

From Stdlib Require Import ZArith Lia Sorted.
From S2P Require Import Prelude Bytes Wire WireLaws WireSchema.
From stdpp Require Import prelude strings.

Local Open Scope Z_scope.
Local Open Scope rust_scope.

(** ** Values within the limits *)

Definition value_fits (v : Value) : Prop :=
  match v with
  | VStr x => default True (str_fits <$> x)
  | VBytes x => default True ((λ b, bytes_fit b ∧ Forall is_byte b) <$> x)
  | VStrArray x => default True (array_fits <$> x)
  | VI64 x => is_i64 x = true
  | VI32 x => - 2 ^ 31 ≤ x < 2 ^ 31
  | VI8 x => - 2 ^ 7 ≤ x < 2 ^ 7
  | VBool _ => True
  end.

(** What a value reads back as: an empty string in an array is [None]. *)
Definition norm_value (v : Value) : Value :=
  match v with
  | VStrArray x => VStrArray (map norm_elem <$> x)
  | _ => v
  end.

Lemma kind_norm_value v : kind_of (norm_value v) = kind_of v.
Proof. by destruct v. Qed.

Lemma write_val_app w v : write_val w v = w ++ write_val [] v.
Proof.
  destruct v as [[x|]|[x|]|[x|]|x|x|x|x]; cbn [write_val]; rewrite ?app_nil_r; try done;
    unfold val_str, val_bytes, val_i64, val_bool;
    rewrite ?len_delim_app, ?val_str_array_app, ?write_varint_app; by rewrite ?app_nil_l.
Qed.

Lemma i_fits_i64 w z : (w = 32 ∨ w = 8) → - 2 ^ (w - 1) ≤ z < 2 ^ (w - 1) → is_i64 z = true.
Proof. intros [->| ->] Hz; apply is_i64_spec; simpl in Hz; lia. Qed.

Lemma reads_val v :
  value_fits v → present v = true → reads (read_val (kind_of v)) (write_val [] v) (norm_value v).
Proof.
  intros Hf Hp post.
  destruct v as [[x|]|[x|]|[x|]|x|x|x|x]; try discriminate Hp; simpl in Hf;
    cbn [write_val kind_of read_val norm_value].
  - eapply reads_at_then; [by apply reads_str|apply reads_at_ret].
  - eapply reads_at_then; [by apply reads_bytes, Hf|apply reads_at_ret].
  - eapply reads_at_then; [by apply reads_str_array|apply reads_at_ret].
  - eapply reads_at_then; [by apply reads_i64|apply reads_at_ret].
  - eapply reads_at_then; [apply reads_i64, (i_fits_i64 32); auto|].
    rewrite wrap_i_id by (simpl; lia). apply reads_at_ret.
  - eapply reads_at_then; [apply reads_i64, (i_fits_i64 8); auto|].
    rewrite wrap_i_id by (simpl; lia). apply reads_at_ret.
  - eapply reads_at_then; [by apply reads_bool|apply reads_at_ret].
Qed.

Lemma norm_absent v : present v = false → norm_value v = default_value (kind_of v) ∧ write_val [] v = [].
Proof. by destruct v as [[]|[]|[]| | | |]. Qed.

(** ** BITPACK *)

Lemma foldl_write_val w vs : foldl write_val w vs = w ++ concat (map (write_val []) vs).
Proof.
  revert w. induction vs as [|v vs IH]; intros w; simpl; [by rewrite app_nil_r|].
  by rewrite IH, write_val_app, app_assoc.
Qed.

Lemma u64_shl_1 bit : (bit < 64)%nat → u64_shl 1 (Z.of_nat bit) = 2 ^ Z.of_nat bit.
Proof.
  intros Hb. unfold u64_shl, as_u64. rewrite Z.shiftl_1_l. apply Z.mod_small.
  split; [apply Z.pow_nonneg; lia|apply Z.pow_lt_mono_r; lia].
Qed.

Lemma presence_bits bit bm vs :
  0 ≤ bm < 2 ^ Z.of_nat bit → (bit + length vs ≤ 64)%nat →
  let r := bitpack_presence bit bm vs in
  0 ≤ r < 2 ^ Z.of_nat (bit + length vs) ∧
  (∀ j, 0 ≤ j < Z.of_nat bit → Z.testbit r j = Z.testbit bm j) ∧
  (∀ i v, vs !! i = Some v → Z.testbit r (Z.of_nat (bit + i)) = present v).
Proof.
  revert bit bm. induction vs as [|v vs IH]; intros bit bm Hbm Hlen; simpl in *.
  { rewrite Nat.add_0_r. split; [done|]. split; [done|]. by intros i v. }
  set (bm' := if present v then _ else bm).
  assert (bm' = bm + (if present v then 1 else 0) * 2 ^ Z.of_nat bit) as E.
  { subst bm'. destruct (present v); [|lia].
    rewrite u64_shl_1 by lia. rewrite <- (Z.shiftl_1_l (Z.of_nat bit)) at 1.
    by apply lor_shiftl_add; [lia|]. }
  assert (∀ j, 0 ≤ j < Z.of_nat bit → Z.testbit bm' j = Z.testbit bm j) as Hlow.
  { intros j Hj. subst bm'. destruct (present v); [|done].
    by rewrite Z.lor_spec, u64_shl_1, Z.pow2_bits_false, orb_false_r by lia. }
  assert (Z.testbit bm' (Z.of_nat bit) = present v) as Hbit.
  { assert (Z.testbit bm (Z.of_nat bit) = false) as Hb.
    { rewrite <- (Z.mod_small bm (2 ^ Z.of_nat bit)) by done. apply Z.mod_pow2_bits_high; lia. }
    subst bm'. destruct (present v); [|done].
    by rewrite Z.lor_spec, u64_shl_1, Z.pow2_bits_true, orb_true_r by lia. }
  destruct (IH (S bit) bm') as (H1 & H2 & H3); [|lia|].
  { rewrite E, Nat2Z.inj_succ, Z.pow_succ_r by lia. destruct (present v); lia. }
  rewrite Nat.add_succ_r. split; [done|]. split.
  - intros j Hj. rewrite H2 by lia. auto.
  - intros [|i] v' Hv; simpl in Hv.
    + injection Hv as ->. rewrite Nat.add_0_r, H2 by lia. done.
    + rewrite Nat.add_succ_r. by apply H3.
Qed.

Lemma land_bit bm bit : (bit < 64)%nat →
  (Z.land bm (u64_shl 1 (Z.of_nat bit)) =? 0) = negb (Z.testbit bm (Z.of_nat bit)).
Proof.
  intros Hb. rewrite u64_shl_1 by done. rewrite Z.land_comm.
  destruct (Z.testbit bm (Z.of_nat bit)) eqn:E; cbn [negb].
  - apply Z.eqb_neq. intros H. apply (f_equal (λ z, Z.testbit z (Z.of_nat bit))) in H.
    rewrite Z.land_spec, E, Z.pow2_bits_true, Z.bits_0 in H by lia. done.
  - apply Z.eqb_eq, Z.bits_inj'. intros j Hj. rewrite Z.land_spec, Z.bits_0, Z.pow2_bits_eqb by lia.
    destruct (Z.eqb_spec (Z.of_nat bit) j) as [<-|]; [by rewrite E|done].
Qed.

Lemma insert_middle {A} (l k : list A) x y : <[length l := y]> (l ++ x :: k) = l ++ y :: k.
Proof. induction l as [|z l IH]; simpl; [done|]. by f_equal. Qed.

Lemma bitpack_read_reads bm fs vs done_ post :
  (length done_ + length vs ≤ 64)%nat →
  map kind_of vs = map f_kind fs → Forall value_fits vs →
  (∀ i v, vs !! i = Some v → Z.testbit bm (Z.of_nat (length done_ + i)) = present v) →
  reads_at (bitpack_read (length done_) bm fs (done_ ++ default_values fs))
    (concat (map (write_val []) vs)) post (done_ ++ map norm_value vs).
Proof.
  revert fs done_. induction vs as [|v vs IH]; intros [|f fs] done_ Hlen Ht Hf Hbm; try discriminate Ht.
  { simpl. apply reads_at_ret. }
  injection Ht as Hk Ht. apply Forall_cons in Hf as [Hv Hf].
  assert (∀ x, x = norm_value v →
    reads_at (bitpack_read (S (length done_)) bm fs (done_ ++ x :: default_values fs))
      (concat (map (write_val []) vs)) post (done_ ++ map norm_value (v :: vs))) as Hnext.
  { intros x ->. specialize (IH fs (done_ ++ [norm_value v])). rewrite length_app, Nat.add_1_r in IH.
    rewrite <- !app_assoc in IH. apply IH; [simpl in *; lia|done..|].
    intros i v' Hi. rewrite Nat.add_succ_l, <- Nat.add_succ_r. by apply (Hbm (S i)). }
  cbn [bitpack_read map concat].
  rewrite land_bit, negb_involutive by (simpl in *; lia).
  specialize (Hbm 0%nat v eq_refl). rewrite Nat.add_0_r in Hbm. rewrite Hbm.
  destruct (present v) eqn:Hp.
  - eapply reads_at_bind; [rewrite <- Hk; by apply reads_val|].
    cbn [default_values map]. rewrite insert_middle. by apply Hnext.
  - destruct (norm_absent v Hp) as [Hn ->]. cbn [app]. apply Hnext. simpl. by rewrite Hn, Hk.
Qed.

Lemma bm_bytes_spec n : (n ≤ 64)%nat → (n ≤ 8 * bm_bytes n)%nat ∧ (bm_bytes n ≤ 8)%nat.
Proof.
  intros Hn. unfold bm_bytes.
  destruct (Nat.leb_spec n 8); [lia|]. destruct (Nat.leb_spec n 16); [lia|].
  destruct (Nat.leb_spec n 32); lia.
Qed.

Lemma valid_bits_spec n bm :
  (n ≤ 64)%nat → 0 ≤ bm < 2 ^ Z.of_nat n → Z.land bm (u64_not (valid_bits n)) = 0.
Proof.
  intros Hn Hbm.
  assert (valid_bits n = Z.ones (Z.of_nat n)) as ->.
  { unfold valid_bits. destruct (64 <=? n)%nat eqn:E.
    - apply Nat.leb_le in E. by replace n with 64%nat by lia.
    - apply Nat.leb_gt in E. rewrite u64_shl_1, Z.ones_equiv by done. lia. }
  apply Z.bits_inj'. intros j Hj. unfold u64_not. change U64_MAX with (Z.ones 64).
  rewrite Z.land_spec, Z.lxor_spec, Z.bits_0, !Z.testbit_ones by lia.
  destruct (decide (j < Z.of_nat n)).
  - assert ((j <? Z.of_nat n) = true) as -> by lia. assert ((j <? 64) = true) as -> by lia.
    assert ((0 <=? j) = true) as -> by lia. by rewrite andb_false_r.
  - rewrite <- (Z.mod_small bm (2 ^ Z.of_nat n)) by done.
    by rewrite Z.mod_pow2_bits_high by lia.
Qed.

Lemma bitpack_roundtrip fs vs :
  (length fs ≤ 64)%nat → map kind_of vs = map f_kind fs → Forall value_fits vs →
  decode_bitpack fs (encode_bitpack vs) = Ok (map norm_value vs).
Proof.
  intros Hn Ht Hf. assert (length vs = length fs) as Hl.
  { rewrite <- (length_map kind_of vs), Ht. apply length_map. }
  destruct (presence_bits 0 0 vs) as (Hr & _ & Hbits); [done|simpl; lia|].
  destruct (bm_bytes_spec (length fs) Hn) as [Hbm1 Hbm2].
  assert (reads_at (decode_bitpack_from fs) (encode_bitpack vs) [] (map norm_value vs)) as H;
    [|unfold decode_bitpack; by rewrite (reads_all _ _ _ H)].
  unfold encode_bitpack. rewrite foldl_write_val. simpl in Hr.
  eapply reads_at_bind; [rewrite Hl; apply reads_bitmap; [done|]|].
  { split; [lia|]. eapply Z.lt_le_trans; [apply Hr|]. apply Z.pow_le_mono_r; lia. }
  rewrite valid_bits_spec by (rewrite <- Hl; done || lia). cbn [Z.eqb].
  eapply reads_at_then; [by apply (bitpack_read_reads _ fs vs []); [simpl; lia|..]|].
  intros pre. unfold st_bind, expect_end. simpl. rewrite app_nil_r, Nat.add_0_r.
  unfold remaining, slice_len. simpl. by rewrite Z.sub_diag.
Qed.

(** ** Accepted schemas *)

Definition tags (fs : list FieldInfo) : list Z := map f_tag fs.

Record accepted (fs : list FieldInfo) : Prop := {
  accepted_len : (length fs ≤ 64)%nat;
  accepted_tags : NoDup (tags fs);
  accepted_range : Forall (λ f, 0 < f_tag f < 2 ^ 61) fs }.

Lemma insert_field_perm f fs : insert_field f fs ≡ₚ f :: fs.
Proof.
  induction fs as [|g fs IH]; simpl; [done|]. destruct (_ <=? _); [done|].
  rewrite IH. apply Permutation_swap.
Qed.

Lemma sort_by_tag_perm fs : sort_by_tag fs ≡ₚ fs.
Proof.
  induction fs as [|f fs IH]; simpl; [done|]. rewrite insert_field_perm. by f_equiv.
Qed.

Definition by_tag (f g : FieldInfo) : Prop := f_tag f ≤ f_tag g.

Lemma insert_field_sorted f fs : StronglySorted by_tag fs → StronglySorted by_tag (insert_field f fs).
Proof.
  induction 1 as [|g fs Hs IH Hg]; simpl; [repeat constructor|].
  unfold by_tag in *. destruct (_ <=? _) eqn:E.
  - constructor; [by constructor|]. constructor; [lia|]. eapply Forall_impl; [done|]. simpl. lia.
  - constructor; [done|]. rewrite insert_field_perm. constructor; [lia|done].
Qed.

Lemma sort_by_tag_sorted fs : StronglySorted by_tag (sort_by_tag fs).
Proof. induction fs as [|f fs IH]; simpl; [constructor|]. by apply insert_field_sorted. Qed.

Lemma no_conflict_NoDup fs :
  StronglySorted by_tag fs → tag_conflict fs = None → NoDup (tags fs).
Proof.
  intros Hs. induction Hs as [|f fs Hs IH Hf]; intros Hc; [constructor|].
  destruct fs as [|g fs]; [apply NoDup_singleton|]. simpl in Hc.
  destruct (f_tag f =? f_tag g) eqn:E; [done|]. constructor; [|by apply IH].
  change (f_tag f ∉ f_tag <$> g :: fs). intros (h & Heq & Hh)%list_elem_of_fmap.
  pose proof (proj1 (Forall_forall _ _) Hf g ltac:(left)) as H1.
  assert (by_tag g h) as H2.
  { apply elem_of_cons in Hh as [->|Hh]; [unfold by_tag; lia|].
    inversion Hs as [|? ? _ Hg]; subst. by eapply (proj1 (Forall_forall _ _) Hg). }
  unfold by_tag in *. lia.
Qed.

Lemma field_info_range d f : field_info d = Ok f → 0 < f_tag f < 2 ^ 61.
Proof.
  unfold field_info, parse_tag. intros H. inv_result. destruct (fd_tag d) as [t|]; [|done].
  destruct (is_u64 t) eqn:Ht; [|done]. inv_result. apply is_u64_spec in Ht.
  change MAX_TAG with (2 ^ 61 - 1) in *.
  repeat match goal with H : (if ?b then _ else _) = Ok _ |- _ => destruct b eqn:?; [|done] end.
  inv_result. simpl. lia.
Qed.

Lemma field_infos_range named fs :
  field_infos named = Ok fs → Forall (λ f, 0 < f_tag f < 2 ^ 61) fs.
Proof.
  revert fs. induction named as [|d named IH]; intros fs H; simpl in H; inv_result; [constructor|].
  constructor; [by eapply field_info_range|eauto].
Qed.

Lemma collect_fields_accepted ast fs : collect_fields ast = Ok fs → accepted fs.
Proof.
  destruct ast as [named| |]; [|done..]. unfold collect_fields. intros H. inv_result.
  destruct (64 <? _)%nat eqn:Hn; [done|]. destruct (tag_conflict _) eqn:Hc; [done|].
  injection H0 as <-. split.
  - by apply Nat.ltb_ge in Hn.
  - by apply no_conflict_NoDup; [apply sort_by_tag_sorted|].
  - rewrite sort_by_tag_perm. by eapply field_infos_range.
Qed.

(** ** VARINT: fields written under one schema and read under another *)

Definition field_bytes (fv : FieldInfo * Value) : list Z :=
  if present fv.2
  then varint (Z.lor (u64_shl (f_tag fv.1) 3) (wire_type (f_kind fv.1))) ++ write_val [] fv.2
  else [].

Lemma encode_varint_bytes fs vs : encode_varint fs vs = concat (map field_bytes (zip fs vs)).
Proof.
  unfold encode_varint, Writer_new.
  assert (∀ l w, foldl write_field w l = w ++ concat (map field_bytes l)) as H; [|apply H].
  intros l. induction l as [|[f v] l IH]; intros w; simpl; [by rewrite app_nil_r|].
  rewrite IH. unfold write_field, field_bytes. simpl. destruct (present v); [|done].
  by rewrite write_val_app, key_app, <- !app_assoc.
Qed.

Lemma wire_type_range k : 0 ≤ wire_type k < 8.
Proof. by destruct k. Qed.

Lemma key_bytes f : 0 < f_tag f < 2 ^ 61 →
  let k := Z.lor (u64_shl (f_tag f) 3) (wire_type (f_kind f)) in
  is_u64 k = true ∧ Z.shiftr k 3 = f_tag f ∧ Z.land k 7 = wire_type (f_kind f).
Proof. intros Ht. apply key_value; [lia|apply wire_type_range]. Qed.

(** A value of any kind can be skipped by its wire type. *)
Lemma reads_skip v :
  value_fits v → present v = true →
  reads (skip_value (wire_type (kind_of v))) (write_val [] v) tt.
Proof.
  intros Hf Hp. destruct v as [[x|]|[x|]|[x|]|x|x|x|x]; try discriminate Hp; simpl in Hf;
    cbn [write_val kind_of]; unfold wire_type; cbn [is_len nullable].
  - unfold val_str. rewrite len_delim_app. apply reads_skip_len. rewrite slice_len_as_bytes.
    apply max_str_u64. split; [apply str_len_nonneg|apply Hf].
  - unfold val_bytes. rewrite len_delim_app. apply reads_skip_len, max_str_u64.
    split; [apply slice_len_nonneg|apply Hf].
  - rewrite val_str_array_app. by apply reads_skip_len, array_bytes_u64.
  - by apply reads_skip_varint, zigzag_enc_range.
  - apply reads_skip_varint, zigzag_enc_range, (i_fits_i64 32); auto.
  - apply reads_skip_varint, zigzag_enc_range, (i_fits_i64 8); auto.
  - apply reads_skip_varint. by destruct x.
Qed.

Definition find_tag (tag : Z) (fs : list FieldInfo) : option (nat * FieldInfo) :=
  list_find (λ f, f_tag f = tag) fs.

(** What one written field does to the reader's struct. *)
Definition absorb (fs : list FieldInfo) (out : list Value) (fv : FieldInfo * Value) : list Value :=
  if present fv.2 then
    match find_tag (f_tag fv.1) fs with
    | Some (i, _) => <[i := norm_value fv.2]> out
    | None => out
    end
  else out.

(** Fields that share a tag have the same kind. *)
Definition agrees (fs : list FieldInfo) (f : FieldInfo) : Prop :=
  ∀ g, g ∈ fs → f_tag g = f_tag f → f_kind g = f_kind f.

Lemma reads_field fs out f v :
  0 < f_tag f < 2 ^ 61 → agrees fs f → kind_of v = f_kind f → value_fits v → present v = true →
  reads (decode_field fs out) (field_bytes (f, v)) (absorb fs out (f, v)).
Proof.
  intros Ht Hag Hk Hf Hp post. unfold field_bytes, absorb. simpl. rewrite Hp.
  destruct (key_bytes f Ht) as (Hu & Htag & Hwt).
  eapply reads_at_bind; [by apply reads_varint|]. cbv zeta. rewrite Htag, Hwt. fold (find_tag (f_tag f) fs).
  destruct (find_tag (f_tag f) fs) as [[i g]|] eqn:Hfind.
  - apply list_find_Some in Hfind as (Hg & Hgt & _).
    rewrite (Hag g) by (by eapply list_elem_of_lookup_2 || done).
    eapply reads_at_lift; [unfold check_wt; by rewrite Z.eqb_refl|].
    eapply reads_at_then; [rewrite <- Hk; by apply reads_val|apply reads_at_ret].
  - eapply reads_at_then; [rewrite <- Hk; by apply reads_skip|apply reads_at_ret].
Qed.

Lemma field_bytes_nonempty f v :
  0 < f_tag f < 2 ^ 61 → present v = true → (1 ≤ length (field_bytes (f, v)))%nat.
Proof.
  intros Ht Hp. unfold field_bytes. simpl. rewrite Hp, length_app.
  destruct (key_bytes f Ht) as (Hu & _). apply varint_nonempty in Hu. lia.
Qed.

Definition field_ok (fs : list FieldInfo) (fv : FieldInfo * Value) : Prop :=
  0 < f_tag fv.1 < 2 ^ 61 ∧ agrees fs fv.1 ∧ kind_of fv.2 = f_kind fv.1 ∧ value_fits fv.2.

Lemma decode_loop_reads fs l fuel out :
  Forall (field_ok fs) l → (length (concat (map field_bytes l)) ≤ fuel)%nat →
  reads_at (decode_loop fuel fs out) (concat (map field_bytes l)) [] (foldl (absorb fs) out l).
Proof.
  intros Hl. revert fuel out. induction Hl as [|[f v] l (Ht & Hag & Hk & Hf) _ IH]; intros fuel out Hfuel.
  - intros pre. destruct fuel; simpl; unfold st_bind, st_get, remaining, slice_len; simpl;
      by rewrite app_nil_r, Z.sub_diag, Nat.add_0_r.
  - simpl in *. rewrite length_app in Hfuel.
    destruct (present v) eqn:Hp; cycle 1.
    { assert (field_bytes (f, v) = []) as E by (unfold field_bytes; simpl; by rewrite Hp).
      assert (absorb fs out (f, v) = out) as -> by (unfold absorb; simpl; by rewrite Hp).
      rewrite E in *. by apply IH. }
    pose proof (field_bytes_nonempty f v Ht Hp). destruct fuel as [|fuel]; [lia|].
    intros pre. cbn [decode_loop]. unfold st_bind at 1, st_get.
    assert ((0 <? remaining (mkReader (pre ++ (field_bytes (f, v) ++ concat (map field_bytes l)) ++ []) (length pre))) = true) as ->.
    { unfold remaining, slice_len. cbn [rdata rpos]. rewrite !length_app. apply Z.ltb_lt. lia. }
    revert pre. eapply reads_at_bind; [by apply reads_field|]. apply IH. lia.
Qed.

(** ** What the reader's struct holds in the end *)

Definition received (l : list (FieldInfo * Value)) (g : FieldInfo) : Value :=
  match find_first (λ fv, f_tag fv.1 =? f_tag g) l with
  | Some (_, v) => norm_value v
  | None => default_value (f_kind g)
  end.

Lemma length_absorb fs out fv : length (absorb fs out fv) = length out.
Proof. unfold absorb. cases_goal; by rewrite ?length_insert. Qed.

Lemma find_tag_unique fs j g :
  NoDup (tags fs) → fs !! j = Some g → ∃ h, find_tag (f_tag g) fs = Some (j, h).
Proof.
  intros Hnd Hg. exists g. apply list_find_Some. split_and!; [done..|].
  intros i h Hh Hlt Heq. assert (i = j); [|lia].
  eapply (NoDup_lookup (tags fs)); [done|unfold tags; by rewrite list_lookup_fmap, Hh|].
  rewrite Heq. unfold tags. by rewrite list_lookup_fmap, Hg.
Qed.

Lemma absorb_lookup fs out fv j g o :
  NoDup (tags fs) → fs !! j = Some g → out !! j = Some o →
  absorb fs out fv !! j =
  Some (if present fv.2 && (f_tag fv.1 =? f_tag g) then norm_value fv.2 else o).
Proof.
  intros Hnd Hg Ho. unfold absorb. destruct (present fv.2); [|done]. cbn [andb].
  destruct (f_tag fv.1 =? f_tag g) eqn:E.
  - apply Z.eqb_eq in E. rewrite E. destruct (find_tag_unique fs j g Hnd Hg) as [h ->].
    rewrite list_lookup_insert_eq; [done|]. by eapply lookup_lt_Some.
  - destruct (find_tag (f_tag fv.1) fs) as [[i h]|] eqn:Hf; [|done].
    apply list_find_Some in Hf as (Hh & Heq & _).
    rewrite list_lookup_insert_ne; [done|]. intros ->. simplify_eq. lia.
Qed.

Lemma absorb_all fs l out j g o :
  NoDup (tags fs) → NoDup (map (λ fv, f_tag fv.1) l) → fs !! j = Some g → out !! j = Some o →
  foldl (absorb fs) out l !! j =
  Some (match find_first (λ fv, f_tag fv.1 =? f_tag g) l with
        | Some fv => if present fv.2 then norm_value fv.2 else o
        | None => o
        end).
Proof.
  intros Hnd Hl Hg. revert out o. induction l as [|fv l IH]; intros out o Ho; [done|].
  apply NoDup_cons in Hl as [Hin Hl]. cbn [foldl find_first].
  erewrite IH by (done || by apply absorb_lookup).
  destruct (f_tag fv.1 =? f_tag g) eqn:E; [|by rewrite andb_false_r].
  rewrite andb_true_r. destruct (find_first _ l) as [fv'|] eqn:Hfind; [|done].
  exfalso. apply find_first_Some in Hfind as [Hfv' E']. apply Hin.
  apply list_elem_of_fmap. exists fv'. split; [lia|done].
Qed.

Lemma fst_zip_tags fs (vs : list Value) :
  length vs = length fs → map (λ fv, f_tag fv.1) (zip fs vs) = tags fs.
Proof.
  revert vs. induction fs as [|f fs IH]; intros [|v vs] Hl; try done. simpl. f_equal.
  apply IH. by injection Hl.
Qed.

Lemma typed_zip fs vs f v :
  map kind_of vs = map f_kind fs → (f, v) ∈ zip fs vs → f ∈ fs ∧ kind_of v = f_kind f ∧ v ∈ vs.
Proof.
  revert vs. induction fs as [|f' fs IH]; intros [|v' vs] Ht; try done; [by intros ?%elem_of_nil|].
  injection Ht as Hk Ht. simpl. intros [?|H]%elem_of_cons; [simplify_eq; split_and!; [left|done|left]|].
  destruct (IH vs Ht H) as (? & ? & ?). split_and!; [by right|done|by right].
Qed.

Lemma fields_ok wfs rfs vs :
  accepted wfs → Forall (agrees rfs) wfs → map kind_of vs = map f_kind wfs → Forall value_fits vs →
  Forall (field_ok rfs) (zip wfs vs).
Proof.
  intros Hw Hag Ht Hf. apply Forall_forall. intros [f v] Hfv.
  destruct (typed_zip _ _ _ _ Ht Hfv) as (Hfin & Hk & Hv).
  split; [|split; [|split]]; simpl; [| |done|].
  - by apply (proj1 (Forall_forall _ _) (accepted_range _ Hw)).
  - by apply (proj1 (Forall_forall _ _) Hag).
  - by apply (proj1 (Forall_forall _ _) Hf).
Qed.

Lemma typed_length vs fs : map kind_of vs = map f_kind fs → length vs = length fs.
Proof. intros Ht. rewrite <- (length_map kind_of vs), Ht. apply length_map. Qed.

Lemma varint_interop wfs rfs vs :
  accepted wfs → accepted rfs → Forall (agrees rfs) wfs →
  map kind_of vs = map f_kind wfs → Forall value_fits vs →
  decode_varint rfs (encode_varint wfs vs) = Ok (map (received (zip wfs vs)) rfs).
Proof.
  intros Hw Hr Hag Ht Hf. unfold decode_varint. rewrite encode_varint_bytes.
  erewrite reads_all by by apply decode_loop_reads, le_n; apply fields_ok. simpl. f_equal.
  apply list_eq. intros j. destruct (rfs !! j) as [g|] eqn:Hg.
  - unfold default_values. erewrite absorb_all; [|apply Hr|rewrite fst_zip_tags; [apply Hw|by apply typed_length]|done|by rewrite list_lookup_fmap, Hg].
    rewrite list_lookup_fmap, Hg. simpl. f_equal. unfold received.
    destruct (find_first _ _) as [[f v]|] eqn:Hfind; [|done]. simpl.
    destruct (present v) eqn:Hp; [done|].
    apply find_first_Some in Hfind as [Hin E]. simpl in E.
    destruct (typed_zip _ _ _ _ Ht Hin) as (Hfin & Hk & _).
    destruct (norm_absent v Hp) as [-> _]. rewrite Hk. f_equal.
    apply (proj1 (Forall_forall _ _) Hag f Hfin); [by eapply list_elem_of_lookup_2|lia].
  - rewrite !lookup_ge_None_2; [done|..]; rewrite ?length_map; apply lookup_ge_None_1 in Hg; [done|].
    assert (∀ l out, length (foldl (absorb rfs) out l) = length out) as ->.
    { intros l. induction l as [|fv l IH]; intros out; simpl; [done|]. by rewrite IH, length_absorb. }
    unfold default_values. by rewrite length_map.
Qed.

(** Read under the schema it was written with. *)
Lemma received_same fs vs :
  NoDup (tags fs) → map kind_of vs = map f_kind fs →
  map (received (zip fs vs)) fs = map norm_value vs.
Proof.
  intros Hnd Ht. pose proof (typed_length _ _ Ht) as Hl.
  apply list_eq. intros j. rewrite !list_lookup_fmap.
  destruct (vs !! j) as [v|] eqn:Hv; cycle 1.
  { apply lookup_ge_None_1 in Hv. by rewrite lookup_ge_None_2 by lia. }
  destruct (lookup_lt_is_Some_2 fs j) as [f Hf].
  { rewrite <- Hl. by eapply lookup_lt_Some. }
  rewrite Hf. simpl. f_equal. unfold received.
  assert ((f, v) ∈ zip fs vs) as Hin.
  { apply list_elem_of_lookup_2 with j. apply lookup_zip_with_Some. eauto. }
  destruct (find_first _ _) as [[f' v']|] eqn:Hfind.
  - apply find_first_Some in Hfind as [Hin' E]. simpl in E.
    apply list_elem_of_lookup_1 in Hin' as [i Hi]. apply lookup_zip_with_Some in Hi as (x & y & Hxy & Hx & Hy).
    injection Hxy as -> ->. assert (i = j) as ->; [|by simplify_eq].
    eapply (NoDup_lookup (tags fs)); [done|unfold tags; by rewrite list_lookup_fmap, Hx|].
    unfold tags. rewrite list_lookup_fmap, Hf. simpl. f_equal. lia.
  - rewrite find_first_None in Hfind. specialize (Hfind _ Hin). simpl in Hfind. lia.
Qed.

Lemma agrees_self fs : NoDup (tags fs) → Forall (agrees fs) fs.
Proof.
  intros Hnd. apply Forall_forall. intros f Hf g Hg Heq.
  apply list_elem_of_lookup_1 in Hf as [i Hi]. apply list_elem_of_lookup_1 in Hg as [j Hj].
  assert (i = j) as ->; [|by simplify_eq].
  eapply (NoDup_lookup (tags fs)); [done|..]; unfold tags; rewrite list_lookup_fmap; [by rewrite Hi|].
  rewrite Hj. simpl. by rewrite Heq.
Qed.

Lemma varint_roundtrip fs vs :
  accepted fs → map kind_of vs = map f_kind fs → Forall value_fits vs →
  decode_varint fs (encode_varint fs vs) = Ok (map norm_value vs).
Proof.
  intros Ha Ht Hf. rewrite varint_interop; [|done..|by apply agrees_self, Ha|done|done].
  by rewrite received_same by (done || apply Ha).
Qed.

(** ** Whatever bytes arrive *)

Definition value_read (v : Value) : Prop := value_fits v ∧ norm_value v = v.

(** The bytes of the input a value stands for at least. *)
Definition value_size (v : Value) : nat :=
  match v with
  | VStr (Some s) => S (String.length s)
  | VBytes (Some b) => S (length b)
  | VStrArray (Some arr) => S (elems_size arr)
  | _ => 0
  end.
Definition struct_size (vs : list Value) : nat := sum_list_with value_size vs.

Definition struct_ok (fs : list FieldInfo) (vs : list Value) : Prop :=
  map kind_of vs = map f_kind fs ∧ Forall value_read vs.

Lemma yields_val k :
  yields (read_val k) (λ n v, (1 ≤ n)%nat ∧ kind_of v = k ∧ value_read v ∧ (value_size v ≤ n)%nat).
Proof.
  destruct k; cbn [read_val]; (eapply yields_bind;
    [first [apply yields_str|apply yields_bytes|apply yields_str_array|apply yields_i64|apply yields_bool]|]);
    intros n x Hx; apply yields_ret; rewrite Nat.add_0_r.
  - destruct Hx. split_and!; [lia|done|by split|simpl; lia].
  - destruct Hx as (? & ? & ?). split_and!; [lia|done|by split|simpl; lia].
  - destruct Hx as [[Hf Hn]%array_read_fits Hs]. split_and!; [lia|done| |simpl; lia].
    split; [done|]. simpl. by rewrite Hn.
  - destruct Hx. split_and!; [lia|done|by split|simpl; lia].
  - destruct Hx. split_and!; [lia|done| |simpl; lia]. split; [|done]. apply (wrap_i_range 32 x). lia.
  - destruct Hx. split_and!; [lia|done| |simpl; lia]. split; [|done]. apply (wrap_i_range 8 x). lia.
  - simpl in Hx. split_and!; [lia|done|by split|simpl; lia].
Qed.

Lemma struct_size_insert i v vs : (struct_size (<[i := v]> vs) ≤ value_size v + struct_size vs)%nat.
Proof.
  unfold struct_size. revert i. induction vs as [|v' vs IH]; intros [|i]; simpl; [lia..|].
  specialize (IH i). lia.
Qed.

Lemma struct_ok_insert fs vs i f v :
  fs !! i = Some f → kind_of v = f_kind f → value_read v → struct_ok fs vs →
  struct_ok fs (<[i := v]> vs).
Proof.
  intros Hf Hk Hv [Ht Hvs]. split; [|by apply Forall_insert].
  change (kind_of <$> <[i := v]> vs = f_kind <$> fs). rewrite list_fmap_insert, Hk.
  change (map kind_of vs) with (kind_of <$> vs) in Ht. rewrite Ht.
  apply list_insert_id. by rewrite list_lookup_fmap, Hf.
Qed.

Lemma struct_ok_default fs : struct_ok fs (default_values fs) ∧ struct_size (default_values fs) = 0%nat.
Proof.
  induction fs as [|f fs [[Ht Hv] Hs]]; [by repeat constructor|]. unfold default_values in *.
  split; [split|]; simpl.
  - rewrite Ht. by destruct f as [? ? []].
  - constructor; [|done]. by destruct f as [? ? []].
  - unfold struct_size in *. simpl. rewrite Hs. by destruct f as [? ? []].
Qed.

Lemma yields_bitpack_read bm fs pre rest out :
  fs = pre ++ rest → struct_ok fs out →
  yields (bitpack_read (length pre) bm rest out)
    (λ n vs, struct_ok fs vs ∧ (struct_size vs ≤ struct_size out + n)%nat).
Proof.
  revert pre out. induction rest as [|f rest IH]; intros pre out -> Hout; cbn [bitpack_read].
  { apply yields_ret. split; [done|lia]. }
  assert (∀ out', struct_ok (pre ++ f :: rest) out' →
    yields (bitpack_read (S (length pre)) bm rest out')
      (λ n vs, struct_ok (pre ++ f :: rest) vs ∧ (struct_size vs ≤ struct_size out' + n)%nat)) as Hnext.
  { intros out' Hout'. specialize (IH (pre ++ [f]) out'). rewrite length_app, Nat.add_1_r in IH.
    apply IH; [by rewrite <- app_assoc|done]. }
  destruct (negb _); [|by apply Hnext].
  eapply yields_bind; [apply yields_val|]. intros n v (Hn & Hk & Hv & Hsz).
  eapply yields_mono; [apply Hnext; eapply struct_ok_insert; [|done..]; by apply list_lookup_middle|].
  intros m vs [Hvs Hs]. split; [done|]. pose proof (struct_size_insert (length pre) v out). lia.
Qed.

Lemma yields_decode_bitpack fs :
  yields (decode_bitpack_from fs) (λ n vs, struct_ok fs vs ∧ (struct_size vs ≤ n)%nat).
Proof.
  destruct (struct_ok_default fs) as [Hd Hd0].
  eapply yields_bind; [apply yields_bitmap|]. intros n bm _. apply yields_demand. intros _.
  eapply yields_bind; [by apply (yields_bitpack_read bm fs [] fs)|]. intros m vs [Hvs Hs].
  rewrite Hd0 in Hs. intros r x r' Hr (y & r1 & He & Hret)%st_bind_Ok.
  apply expect_end_Ok in He as [-> _]. injection Hret as <- <-.
  split_and!; [done..|]. exists 0%nat. split_and!; [lia|done..|lia].
Qed.

Lemma yields_field fs out :
  yields (decode_field fs out) (λ n vs, (1 ≤ n)%nat ∧
    (struct_ok fs out → struct_ok fs vs ∧ (struct_size vs ≤ struct_size out + n)%nat)).
Proof.
  eapply yields_bind; [apply yields_varint|]. intros n k [Hn _].
  cbv zeta. destruct (list_find (λ f, f_tag f = Z.shiftr k 3) fs) as [[i f]|] eqn:Hfind.
  - apply list_find_Some in Hfind as (Hf & _). apply yields_lift. intros _ _.
    eapply yields_bind; [apply yields_val|]. intros m v (Hm & Hk & Hv & Hsz). apply yields_ret.
    split; [lia|]. intros Hout. split; [by eapply struct_ok_insert|].
    pose proof (struct_size_insert i v out). lia.
  - eapply yields_bind; [apply yields_skip|]. intros m x Hm. simpl in Hm. apply yields_ret.
    split; [lia|]. intros Hout. split; [done|lia].
Qed.

Lemma yields_loop fuel fs out :
  struct_ok fs out →
  yields (decode_loop fuel fs out) (λ n vs, struct_ok fs vs ∧ (struct_size vs ≤ struct_size out + n)%nat).
Proof.
  revert out. induction fuel as [|fuel IH]; intros out Hout; apply yields_get; intros left;
    destruct (0 <? left); try (apply yields_ret; split; [done|lia]); [apply yields_fail|].
  eapply yields_bind; [apply yields_field|]. intros n out' [_ Hout'].
  destruct (Hout' Hout) as [Hok Hs]. eapply yields_mono; [by apply IH|].
  intros m vs [Hvs Hs']. split; [done|lia].
Qed.

Lemma decode_loop_fuel fs fuel fuel' out r :
  reader_ok r → remaining r ≤ Z.of_nat fuel → remaining r ≤ Z.of_nat fuel' →
  decode_loop fuel fs out r = decode_loop fuel' fs out r.
Proof.
  revert fuel' out r. induction fuel as [|fuel IH]; intros [|fuel'] out r Hr H1 H2;
    cbn [decode_loop]; unfold st_bind, st_get; destruct (0 <? remaining r) eqn:E; try done;
    apply Z.ltb_lt in E; try lia.
  destruct (decode_field fs out r) as [[out' r']|e] eqn:Hd; [|done].
  destruct (yields_field _ _ _ _ _ Hr Hd) as (Hdata & Hr' & n & Hpos & Hn & _).
  assert (remaining r' < remaining r) by (unfold remaining; rewrite Hdata; lia).
  apply IH; [done|lia..].
Qed.
