(* ===== verification/WireMessage.v ===== *)
(** * The borrowed message envelope

    [naws-proto]: message_ref.rs.  [MessageRef] computes its encoded length in
    advance and writes its bytes straight into the caller's buffer, without the
    owned [Message] and the [Writer].  The buffer is the trait [BufMut] of the
    crate bytes: the class has its operations, [BufMutLaws] what its
    documentation promises; a put without room panics, [None]. *)

From Stdlib Require Import ZArith Lia.
From S2P Require Import Prelude Bytes Wire WireLaws WireSchema WireCodec.
From stdpp Require Import prelude strings.

Local Open Scope Z_scope.
Local Open Scope rust_scope.

(** ** The buffer *)

Class BufMut (B : Type) := {
  contents : B → list Z;
  remaining_mut : B → Z;
  put_slice : list Z → B → option B }.

Class BufMutLaws (B : Type) `{!BufMut B} : Prop := {
  put_slice_room : ∀ s b, slice_len s ≤ remaining_mut b →
    ∃ b', put_slice s b = Some b' ∧ contents b' = contents b ++ s ∧
          remaining_mut b - slice_len s ≤ remaining_mut b' }.

Record MessageRef := mkMessageRef {
  ref_events : option (list string);
  ref_from_uid : option string;
  ref_from_client : option string;
  ref_routers : option (list string);
  ref_group : option string;
  ref_uids : option (list string);
  ref_excludes : option (list string);
  ref_payload : option (list Z);
  ref_ack_id : Z }.

Definition own_array (value : option (list string)) : StrArray := map Some <$> value.

Definition to_owned_message (m : MessageRef) : Message :=
  mkMessage (own_array (ref_events m)) (ref_from_uid m) (ref_from_client m)
    (own_array (ref_routers m)) (ref_group m) (own_array (ref_uids m))
    (own_array (ref_excludes m)) (ref_payload m) (ref_ack_id m).

(** ** Limits and lengths *)

(** [.into_iter().flatten()] over optional fields. *)
Definition flatten {A} (l : list (option A)) : list A := omap id l.

Definition ref_strings (m : MessageRef) : list (option string) :=
  [ref_from_uid m; ref_from_client m; ref_group m].
Definition ref_arrays (m : MessageRef) : list (option (list string)) :=
  [ref_events m; ref_routers m; ref_uids m; ref_excludes m].

Definition too_long (s : string) : bool := MAX_STR_LEN <? str_len s.

Definition validate_fields (m : MessageRef) : result unit CodecError :=
  if existsb too_long (flatten (ref_strings m)) then Err LengthExceeds
  else if existsb (λ values, (MAX_ARRAY_ELEMS <? Z.of_nat (length values)) || existsb too_long values)
            (flatten (ref_arrays m))
  then Err LengthExceeds
  else if default false ((λ p, MAX_BYTES_LEN <? slice_len p) <$> ref_payload m)
  then Err LengthExceeds
  else Ok tt.

Definition checked_add (left right : Z) : result Z CodecError :=
  ok_or (u64_checked_add left right) LengthOverflow.

Fixpoint unsigned_varint_len_loop (fuel : nat) (value len : Z) : Z :=
  match fuel with
  | O => len
  | S fuel' =>
      if 128 <=? value then unsigned_varint_len_loop fuel' (Z.shiftr value 7) (len + 1) else len
  end.
Definition unsigned_varint_len (value : Z) : Z := unsigned_varint_len_loop 10 value 1.

Definition field_key_len (tag wire_type : Z) : Z := unsigned_varint_len (Z.lor (u64_shl tag 3) wire_type).
Definition length_delimited_len (value_len : Z) : result Z CodecError :=
  checked_add (unsigned_varint_len value_len) value_len.

(** [for value in values { total = checked_add(total, f(value)?)?; }] *)
Fixpoint add_lens {A} (f : A → result Z CodecError) (total : Z) (values : list A) : result Z CodecError :=
  match values with
  | [] => Ok total
  | value :: rest =>
      let? n := f value in
      let? total' := checked_add total n in
      add_lens f total' rest
  end.

Fixpoint inner_len (inner : Z) (values : list string) : result Z CodecError :=
  match values with
  | [] => Ok inner
  | value :: rest =>
      let? inner1 := checked_add inner (unsigned_varint_len (str_len value)) in
      let? inner2 := checked_add inner1 (str_len value) in
      inner_len inner2 rest
  end.
Definition array_value_len (values : list string) : result Z CodecError :=
  let? inner := inner_len (unsigned_varint_len (Z.of_nat (length values))) values in
  checked_add (unsigned_varint_len inner) inner.

Definition bitpack_len (m : MessageRef) : result Z CodecError :=
  let? total := add_lens array_value_len 2 (flatten (ref_arrays m)) in
  let? total := add_lens (λ s, length_delimited_len (str_len s)) total (flatten (ref_strings m)) in
  let? total :=
    match ref_payload m with
    | Some p => let? n := length_delimited_len (slice_len p) in checked_add total n
    | None => Ok total
    end in
  checked_add total (unsigned_varint_len (zigzag_enc (ref_ack_id m))).

(** The same loop with the length of the key before each value. *)
Fixpoint add_tagged {A} (f : A → result Z CodecError) (total : Z) (values : list (Z * option A))
  : result Z CodecError :=
  match values with
  | [] => Ok total
  | (tag, Some value) :: rest =>
      let? total1 := checked_add total (field_key_len tag WT_LEN) in
      let? n := f value in
      let? total2 := checked_add total1 n in
      add_tagged f total2 rest
  | (_, None) :: rest => add_tagged f total rest
  end.

Definition varint_len (m : MessageRef) : result Z CodecError :=
  let? total := add_tagged array_value_len 0
    [(10, ref_events m); (40, ref_routers m); (60, ref_uids m); (70, ref_excludes m)] in
  let? total := add_tagged (λ s, length_delimited_len (str_len s)) total
    [(20, ref_from_uid m); (30, ref_from_client m); (50, ref_group m)] in
  let? total :=
    match ref_payload m with
    | Some p =>
        let? total1 := checked_add total (field_key_len 80 WT_LEN) in
        let? n := length_delimited_len (slice_len p) in
        checked_add total1 n
    | None => Ok total
    end in
  let? total := checked_add total (field_key_len 90 WT_VARINT) in
  checked_add total (unsigned_varint_len (zigzag_enc (ref_ack_id m))).

Section encoding.
Context {B : Type} `{!BufMut B} `{!SerdeJson Message}.

Definition encoded_len (m : MessageRef) (mode : Mode) : result Z CodecError :=
  try? validate_fields m in
  match mode with
  | BitpackTlv => bitpack_len m
  | VarintTlv => varint_len m
  | JsonBytes => result_map slice_len (json_to_vec (to_owned_message m))
  | FastFixed => Err (Unsupported "FAST_FIXED")
  end.

(** ** Writing

    [f +> g]: one put after the other. *)

Definition put_then (f g : B → option B) : B → option B := λ out, f out ≫= g.
Infix "+>" := put_then (at level 62, right associativity) : rust_scope.

Definition put_u8 (x : Z) (out : B) : option B := put_slice [x] out.

Fixpoint put_varint_loop (fuel : nat) (value : Z) (out : B) : option B :=
  match fuel with
  | O => Some out
  | S fuel' =>
      if negb (Z.land value (u64_not 127) =? 0)
      then (put_u8 (as_u8 (Z.lor (Z.land value 127) 128)) +> put_varint_loop fuel' (Z.shiftr value 7)) out
      else put_u8 (as_u8 value) out
  end.
Definition put_varint (value : Z) (out : B) : option B := put_varint_loop 10 value out.

Definition put_key (tag wire_type : Z) : B → option B := put_varint (Z.lor (u64_shl tag 3) wire_type).

Definition put_len_delimited (value : list Z) : B → option B :=
  put_varint (slice_len value) +> put_slice value.
Definition put_payload (payload : list Z) : B → option B := put_len_delimited payload.

Fixpoint put_items (values : list string) : B → option B :=
  match values with
  | [] => Some
  | value :: rest => put_varint (str_len value) +> put_slice (as_bytes value) +> put_items rest
  end.

Definition put_array (values : list string) : B → option B :=
  let inner := foldl (λ total value,
      u64_wrapping_add (u64_wrapping_add total (unsigned_varint_len (str_len value))) (str_len value))
      (unsigned_varint_len (Z.of_nat (length values))) values in
  put_varint inner +> put_varint (Z.of_nat (length values)) +> put_items values.

(** [if let Some(value) = field { put(output, value) }] *)
Definition put_opt {A} (put : A → B → option B) (field : option A) (out : B) : option B :=
  match field with Some value => put value out | None => Some out end.

Fixpoint presence_u16 (bit : Z) (bm : Z) (fields : list bool) : Z :=
  match fields with
  | [] => bm
  | p :: rest => presence_u16 (bit + 1) (if p then Z.lor bm (Z.shiftl 1 bit mod 2 ^ 16) else bm) rest
  end.
Definition ref_bitmap (m : MessageRef) : Z :=
  presence_u16 0 (Z.shiftl 1 8 mod 2 ^ 16)
    [bool_decide (is_Some (ref_events m)); bool_decide (is_Some (ref_from_uid m));
     bool_decide (is_Some (ref_from_client m)); bool_decide (is_Some (ref_routers m));
     bool_decide (is_Some (ref_group m)); bool_decide (is_Some (ref_uids m));
     bool_decide (is_Some (ref_excludes m)); bool_decide (is_Some (ref_payload m))].

Definition put_str (s : string) : B → option B := put_len_delimited (as_bytes s).

Definition encode_bitpack_ref (m : MessageRef) : B → option B :=
  put_u8 (as_u8 (ref_bitmap m))
  +> put_u8 (as_u8 (Z.shiftr (ref_bitmap m) 8))
  +> put_opt put_array (ref_events m)
  +> put_opt put_str (ref_from_uid m)
  +> put_opt put_str (ref_from_client m)
  +> put_opt put_array (ref_routers m)
  +> put_opt put_str (ref_group m)
  +> put_opt put_array (ref_uids m)
  +> put_opt put_array (ref_excludes m)
  +> put_opt put_payload (ref_payload m)
  +> put_varint (zigzag_enc (ref_ack_id m)).

(** [put_key] first, then the value. *)
Definition put_field {A} (tag : Z) (put : A → B → option B) (value : A) : B → option B :=
  put_key tag WT_LEN +> put value.

Definition encode_varint_ref (m : MessageRef) : B → option B :=
  put_opt (put_field 10 put_array) (ref_events m)
  +> put_opt (put_field 20 put_str) (ref_from_uid m)
  +> put_opt (put_field 30 put_str) (ref_from_client m)
  +> put_opt (put_field 40 put_array) (ref_routers m)
  +> put_opt (put_field 50 put_str) (ref_group m)
  +> put_opt (put_field 60 put_array) (ref_uids m)
  +> put_opt (put_field 70 put_array) (ref_excludes m)
  +> put_opt (put_field 80 put_payload) (ref_payload m)
  +> put_key 90 WT_VARINT
  +> put_varint (zigzag_enc (ref_ack_id m)).

(** The result and the buffer afterwards, or a panic. *)
Definition encode_into (m : MessageRef) (mode : Mode) (out : B) : option (result Z CodecError * B) :=
  match encoded_len m mode with
  | Err e => Some (Err e, out)
  | Ok expected =>
      if remaining_mut out <? expected
      then Some (Err (BufferTooSmall expected (remaining_mut out)), out)
      else
        match mode with
        | BitpackTlv => pair (Ok expected) <$> encode_bitpack_ref m out
        | VarintTlv => pair (Ok expected) <$> encode_varint_ref m out
        | JsonBytes =>
            match json_to_vec (to_owned_message m) with
            | Ok value => pair (Ok expected) <$> put_slice value out
            | Err e => Some (Err e, out)
            end
        | FastFixed => Some (Err (Unsupported "FAST_FIXED"), out)
        end
  end.
End encoding.

Infix "+>" := put_then (at level 62, right associativity) : rust_scope.

(** ** The computed lengths are the written ones *)

Lemma write_varint_fuel fuel v :
  (1 ≤ fuel)%nat → 0 ≤ v < 2 ^ 64 → v < 2 ^ (7 * Z.of_nat fuel) →
  write_varint_loop (S fuel) [] v = write_varint_loop fuel [] v.
Proof.
  revert v. induction fuel as [|fuel IH]; intros v Hf Hv Hlt; [lia|].
  rewrite (write_varint_step (S fuel)), (write_varint_step fuel v) by done.
  destruct (v <? 128) eqn:E; [done|]. f_equal.
  rewrite Nat2Z.inj_succ, Z.mul_succ_r, Z.add_comm, pow_turn in Hlt by lia.
  destruct fuel as [|fuel]; [simpl in Hlt; lia|].
  apply IH; [lia| |apply Z.div_lt_upper_bound; lia].
  split; [apply Z.div_pos; lia|apply Z.div_lt_upper_bound; lia].
Qed.

Lemma unsigned_varint_len_loop_spec fuel v len :
  0 ≤ v < 2 ^ 64 →
  unsigned_varint_len_loop fuel v len = len - 1 + slice_len (write_varint_loop (S fuel) [] v).
Proof.
  revert v len. induction fuel as [|fuel IH]; intros v len Hv; rewrite write_varint_step by done.
  { simpl. destruct (v <? 128); unfold slice_len; simpl; lia. }
  cbn [unsigned_varint_len_loop]. destruct (v <? 128) eqn:E.
  - assert ((128 <=? v) = false) as -> by lia. unfold slice_len. simpl. lia.
  - assert ((128 <=? v) = true) as -> by lia. rewrite Z.shiftr_div_pow2 by lia.
    change (2 ^ 7) with 128. rewrite IH; [unfold slice_len; cbn [length]; lia|].
    split; [apply Z.div_pos; lia|apply Z.div_lt_upper_bound; lia].
Qed.

Lemma unsigned_varint_len_spec v :
  is_u64 v = true → unsigned_varint_len v = slice_len (varint v) ∧ 1 ≤ slice_len (varint v) ≤ 10.
Proof.
  intros Hv. pose proof (varint_nonempty v Hv) as H1. apply is_u64_spec in Hv.
  unfold unsigned_varint_len. rewrite unsigned_varint_len_loop_spec by done.
  rewrite write_varint_fuel; [|lia|done|change (2 ^ (7 * Z.of_nat 10)) with (2 ^ 70); lia].
  pose proof (varint_short 10 v Hv) as H2. unfold varint, write_varint, slice_len in *. lia.
Qed.

Lemma checked_add_ok a b : 0 ≤ a → 0 ≤ b → a + b < 2 ^ 64 → checked_add a b = Ok (a + b).
Proof.
  intros Ha Hb H. unfold checked_add, u64_checked_add.
  assert (is_u64 (a + b) = true) as ->; [apply is_u64_spec; lia|done].
Qed.

Lemma length_delimited_len_ok bs :
  slice_len bs ≤ MAX_BYTES_LEN →
  length_delimited_len (slice_len bs) = Ok (slice_len (len_delim [] bs)) ∧
  0 ≤ slice_len (len_delim [] bs) < 2 ^ 43.
Proof.
  intros Hbs. pose proof (slice_len_nonneg bs).
  destruct (unsigned_varint_len_spec (slice_len bs)) as [E H1]; [by apply max_str_u64|].
  rewrite len_delim_app. cbn [app]. rewrite slice_len_app. unfold length_delimited_len. rewrite E.
  unfold MAX_BYTES_LEN in *. rewrite checked_add_ok by lia. split; [done|lia].
Qed.

Lemma inner_len_ok values inner :
  Forall (λ s, str_len s ≤ MAX_STR_LEN) values → 0 ≤ inner →
  inner + slice_len (concat (map elem_bytes (map Some values))) < 2 ^ 64 →
  inner_len inner values = Ok (inner + slice_len (concat (map elem_bytes (map Some values)))).
Proof.
  intros Hf. revert inner. induction Hf as [|s values Hs _ IH]; intros inner Hi Hlt.
  { simpl. by rewrite Z.add_0_r. }
  cbn [map concat inner_len elem_bytes] in *. rewrite !slice_len_app, slice_len_as_bytes in *.
  pose proof (str_len_nonneg s). pose proof (slice_len_nonneg (concat (map elem_bytes (map Some values)))).
  destruct (unsigned_varint_len_spec (str_len s)) as [-> Hv]; [by apply max_str_u64|].
  rewrite checked_add_ok by lia. cbn [result_bind]. rewrite checked_add_ok by lia. cbn [result_bind].
  rewrite IH by lia. f_equal. lia.
Qed.

Definition array_len (values : list string) : Z := slice_len (val_str_array [] (map Some values)).

Lemma array_fits_strs values : array_fits (map Some values) → Forall (λ s, str_len s ≤ MAX_STR_LEN) values.
Proof. intros [_ H]. induction values as [|s values IH]; constructor; inversion_clear H; [apply H0|by apply IH]. Qed.

Lemma array_len_spec values :
  array_len values = slice_len (varint (slice_len (array_bytes (map Some values)))) + slice_len (array_bytes (map Some values)).
Proof. unfold array_len. rewrite val_str_array_app. cbn [app]. by rewrite slice_len_app. Qed.

Lemma array_value_len_ok values :
  array_fits (map Some values) →
  array_value_len values = Ok (array_len values) ∧ 0 ≤ array_len values < 2 ^ 43.
Proof.
  intros Ha. pose proof (array_fits_strs _ Ha) as Hs. destruct (array_bytes_length _ Ha) as [_ Hlt].
  pose proof (slice_len_nonneg (array_bytes (map Some values))) as H0.
  destruct (unsigned_varint_len_spec _ (array_bytes_u64 _ Ha)) as [E1 H1].
  rewrite array_len_spec. unfold array_value_len.
  destruct Ha as [Hn _]. rewrite length_map in Hn. unfold MAX_ARRAY_ELEMS in Hn.
  destruct (unsigned_varint_len_spec (Z.of_nat (length values))) as [E2 H2]; [apply is_u64_spec; lia|].
  unfold array_bytes in *. rewrite length_map, slice_len_app in *.
  rewrite inner_len_ok; [|done|lia|lia]. cbn [result_bind]. rewrite E2, E1.
  rewrite checked_add_ok by lia. split; [done|lia].
Qed.

(** ** Sums of lengths *)

Definition olen {A} (g : A → Z) (o : option A) : Z := default 0 (g <$> o).
Definition zsum {A} (g : A → Z) (l : list A) : Z := foldr (λ x s, g x + s) 0 l.

Lemma add_lens_ok {A} (f : A → result Z CodecError) g l total :
  Forall (λ x, f x = Ok (g x) ∧ 0 ≤ g x < 2 ^ 43) l → 0 ≤ total →
  total + 2 ^ 43 * Z.of_nat (length l) < 2 ^ 64 →
  add_lens f total l = Ok (total + zsum g l) ∧ 0 ≤ zsum g l ≤ 2 ^ 43 * Z.of_nat (length l).
Proof.
  intros Hl. revert total. induction Hl as [|x l [Hx Hg] _ IH]; intros total Ht Hlt.
  { simpl. rewrite Z.add_0_r. split; [done|lia]. }
  cbn [add_lens length zsum foldr] in *. fold (zsum g l). rewrite Hx. cbn [result_bind].
  rewrite checked_add_ok by lia. cbn [result_bind].
  destruct (IH (total + g x)) as [-> Hs]; [lia|lia|]. split; [f_equal; lia|lia].
Qed.

Lemma zsum_flatten {A} (g : A → Z) l : zsum g (flatten l) = zsum (olen g) l.
Proof. induction l as [|[x|] l IH]; simpl; [done|..]; unfold flatten in *; simpl; by rewrite IH. Qed.

Lemma length_flatten {A} (l : list (option A)) : (length (flatten l) ≤ length l)%nat.
Proof. induction l as [|[x|] l IH]; simpl; [done|..]; unfold flatten in *; simpl; lia. Qed.

Definition key_len (tag : Z) : Z := slice_len (varint (Z.lor (u64_shl tag 3) WT_LEN)).

Lemma key_len_ok tag wt : 0 < tag < 2 ^ 61 → 0 ≤ wt < 8 →
  field_key_len tag wt = slice_len (varint (Z.lor (u64_shl tag 3) wt)) ∧
  1 ≤ slice_len (varint (Z.lor (u64_shl tag 3) wt)) ≤ 10.
Proof. intros Ht Hw. apply unsigned_varint_len_spec. apply key_value; lia. Qed.

Definition tagged_len {A} (g : A → Z) (x : Z * option A) : Z := olen (λ v, key_len x.1 + g v) x.2.

Lemma add_tagged_ok {A} (f : A → result Z CodecError) g l total :
  Forall (λ x, 0 < x.1 < 2 ^ 61 ∧ ∀ v, x.2 = Some v → f v = Ok (g v) ∧ 0 ≤ g v < 2 ^ 43) l → 0 ≤ total →
  total + 2 ^ 44 * Z.of_nat (length l) < 2 ^ 64 →
  add_tagged f total l = Ok (total + zsum (tagged_len g) l) ∧
  0 ≤ zsum (tagged_len g) l ≤ 2 ^ 44 * Z.of_nat (length l).
Proof.
  intros Hl. revert total. induction Hl as [|[tag o] l [Htag Ho] _ IH]; intros total Ht Hlt.
  { simpl. rewrite Z.add_0_r. split; [done|lia]. }
  cbn [add_tagged length zsum foldr] in *. fold (zsum (tagged_len g) l). simpl in Htag, Ho.
  destruct o as [v|].
  - change (tagged_len g (tag, Some v)) with (key_len tag + g v). destruct (Ho v eq_refl) as [Hv Hg]. destruct (key_len_ok tag WT_LEN) as [Hk Hk1]; [done|done|].
    rewrite Hk. unfold key_len. rewrite Hv. rewrite checked_add_ok by lia. cbn [result_bind].
    rewrite checked_add_ok by lia. cbn [result_bind].
    destruct (IH (total + slice_len (varint (Z.lor (u64_shl tag 3) WT_LEN)) + g v)) as [-> Hs]; [lia|lia|].
    split; [f_equal; lia|lia].
  - change (tagged_len g (tag, None)) with 0. destruct (IH total) as [-> Hs]; [lia|lia|].
    split; [by rewrite Z.add_0_l|lia].
Qed.

(** ** A message of the language, and one within the limits *)

(** What the types of the fields promise: valid UTF-8, bytes, an [i64]. *)
Record ref_ok (m : MessageRef) : Prop := {
  ref_ok_strings : Forall (λ s, str_ok s = true) (flatten (ref_strings m));
  ref_ok_arrays : Forall (Forall (λ s, str_ok s = true)) (flatten (ref_arrays m));
  ref_ok_payload : default True (Forall is_byte <$> ref_payload m);
  ref_ok_ack : is_i64 (ref_ack_id m) = true }.

Record ref_fits (m : MessageRef) : Prop := {
  ref_fits_strings : Forall str_fits (flatten (ref_strings m));
  ref_fits_arrays : Forall (λ a, array_fits (map Some a)) (flatten (ref_arrays m));
  ref_fits_payload : default True ((λ p, bytes_fit p ∧ Forall is_byte p) <$> ref_payload m);
  ref_fits_ack : is_i64 (ref_ack_id m) = true }.

Lemma existsb_false {A} (p : A → bool) l : existsb p l = false → Forall (λ x, p x = false) l.
Proof. induction l as [|x l IH]; simpl; [constructor|]. intros [? ?]%orb_false_elim. constructor; auto. Qed.

Lemma too_long_false s : str_ok s = true → too_long s = false → str_fits s.
Proof. unfold too_long, str_fits. intros Hok Hl. split; [done|lia]. Qed.

Lemma validated m : ref_ok m → validate_fields m = Ok tt → ref_fits m.
Proof.
  intros [Hs Ha Hp Hk]. unfold validate_fields.
  destruct (existsb too_long _) eqn:E1; [done|]. destruct (existsb _ (flatten (ref_arrays m))) eqn:E2; [done|].
  destruct (default false _) eqn:E3; [done|]. intros _.
  apply existsb_false in E1, E2. split; [| | |done].
  - rewrite Forall_forall in *. intros s Hin. apply too_long_false; auto.
  - rewrite Forall_forall in *. intros a Hin. specialize (E2 a Hin). apply orb_false_elim in E2 as [Hn Hl].
    split; [rewrite length_map; lia|]. specialize (Ha a Hin). apply existsb_false in Hl.
    apply Forall_forall. intros e (s & -> & Hs')%list_elem_of_fmap.
    apply too_long_false; [by apply (proj1 (Forall_forall _ _) Ha)|by apply (proj1 (Forall_forall _ _) Hl)].
  - destruct (ref_payload m) as [p|]; [|done]. simpl in *. unfold bytes_fit. split; [lia|done].
Qed.

Definition str_bytes_len (s : string) : Z := slice_len (val_str [] s).

Lemma str_lens_ok l :
  Forall str_fits l →
  Forall (λ s, length_delimited_len (str_len s) = Ok (str_bytes_len s) ∧ 0 ≤ str_bytes_len s < 2 ^ 43) l.
Proof.
  intros H. eapply Forall_impl; [done|]. intros s [_ Hs]. unfold str_bytes_len, val_str.
  rewrite <- slice_len_as_bytes in *. by apply length_delimited_len_ok.
Qed.

Lemma array_lens_ok l :
  Forall (λ a, array_fits (map Some a)) l →
  Forall (λ a, array_value_len a = Ok (array_len a) ∧ 0 ≤ array_len a < 2 ^ 43) l.
Proof. intros H. eapply Forall_impl; [done|]. intros a Ha. by apply array_value_len_ok. Qed.

(** The lengths of the written values. *)
Lemma len_array o : slice_len (write_val [] (VStrArray (own_array o))) = olen array_len o.
Proof. by destruct o. Qed.
Lemma len_str o : slice_len (write_val [] (VStr o)) = olen str_bytes_len o.
Proof. by destruct o. Qed.
Definition payload_len (p : list Z) : Z := slice_len (val_bytes [] p).
Lemma len_payload o : slice_len (write_val [] (VBytes o)) = olen payload_len o.
Proof. by destruct o. Qed.

Lemma payload_len_ok m p :
  ref_fits m → ref_payload m = Some p →
  length_delimited_len (slice_len p) = Ok (payload_len p) ∧ 0 ≤ payload_len p < 2 ^ 43.
Proof.
  intros [_ _ Hp _] E. rewrite E in Hp. destruct Hp as [Hp _]. by apply length_delimited_len_ok.
Qed.

Lemma bitmap_length bm k : (k ≤ 8)%nat → slice_len (bitmap [] bm k) = Z.of_nat k.
Proof.
  intros Hk. unfold bitmap, slice_len. rewrite bitmap_loop_app. simpl.
  rewrite length_map, length_seq. lia.
Qed.

Lemma ack_len m : is_i64 (ref_ack_id m) = true →
  unsigned_varint_len (zigzag_enc (ref_ack_id m)) = slice_len (val_i64 [] (ref_ack_id m)) ∧
  1 ≤ slice_len (val_i64 [] (ref_ack_id m)) ≤ 10.
Proof. intros H. by apply unsigned_varint_len_spec, zigzag_enc_range. Qed.

Lemma bitpack_len_ok m :
  ref_fits m →
  let bytes := encode_bitpack (to_values (to_owned_message m)) in
  bitpack_len m = Ok (slice_len bytes) ∧ slice_len bytes < 2 ^ 60.
Proof.
  intros Hm bytes. unfold bytes, encode_bitpack. rewrite foldl_write_val, slice_len_app.
  change (bm_bytes _) with 2%nat. rewrite bitmap_length by lia.
  cbn [to_values Message_protocol message_values to_owned_message msg_events msg_from_uid
       msg_from_client msg_routers msg_group msg_uids msg_excludes msg_payload msg_ack_id map concat].
  rewrite !slice_len_app, !len_array, !len_str, len_payload. cbn [write_val].
  destruct (ack_len m (ref_fits_ack m Hm)) as [Eack Hack]. unfold bitpack_len. rewrite Eack.
  pose proof (length_flatten (ref_arrays m)) as Hl1. pose proof (length_flatten (ref_strings m)) as Hl2.
  cbn [length ref_arrays ref_strings] in Hl1, Hl2.
  destruct (add_lens_ok array_value_len array_len (flatten (ref_arrays m)) 2) as [-> H1];
    [by apply array_lens_ok, Hm|lia|lia|]. cbn [result_bind].
  destruct (add_lens_ok (λ s, length_delimited_len (str_len s)) str_bytes_len (flatten (ref_strings m))
              (2 + zsum array_len (flatten (ref_arrays m)))) as [-> H2];
    [by apply str_lens_ok, Hm|lia|lia|]. cbn [result_bind].
  assert (∀ total, 0 ≤ total < 2 ^ 60 →
    match ref_payload m with
    | Some p => let? n := length_delimited_len (slice_len p) in checked_add total n
    | None => Ok total
    end = Ok (total + olen payload_len (ref_payload m)) ∧ 0 ≤ olen payload_len (ref_payload m) < 2 ^ 43) as Hpay.
  { intros total Ht. destruct (ref_payload m) as [p|] eqn:E; unfold olen; simpl; [|split; [f_equal; lia|lia]].
    destruct (payload_len_ok m p Hm E) as [-> Hp]. cbn [result_bind]. rewrite checked_add_ok by lia.
    split; [done|lia]. }
  destruct (Hpay (2 + zsum array_len (flatten (ref_arrays m)) + zsum str_bytes_len (flatten (ref_strings m))))
    as [-> H3]; [lia|]. cbn [result_bind].
  rewrite checked_add_ok by lia. rewrite !zsum_flatten in *. unfold ref_arrays, ref_strings in *.
  cbn [zsum foldr] in *. change (slice_len []) with 0. split; [f_equal; lia|lia].
Qed.

Lemma message_fields : fields Message =
  [mkField "events" 10 KStrArray; mkField "from_uid" 20 KStr; mkField "from_client" 30 KStr;
   mkField "routers" 40 KStrArray; mkField "group" 50 KStr; mkField "uids" 60 KStrArray;
   mkField "excludes" 70 KStrArray; mkField "payload" 80 KBytes; mkField "ack_id" 90 KI64].
Proof. vm_compute. reflexivity. Qed.

(** The written field, by the shape of its value. *)
Definition opt_bytes {A} (f : A → list Z) (o : option A) : list Z := default [] (f <$> o).
Definition tagged_bytes {A} (tag : Z) (f : A → list Z) (x : A) : list Z :=
  varint (Z.lor (u64_shl tag 3) WT_LEN) ++ f x.
Definition array_value (values : list string) : list Z := val_str_array [] (map Some values).
Definition ack_bytes (m : MessageRef) : list Z :=
  varint (Z.lor (u64_shl 90 3) WT_VARINT) ++ val_i64 [] (ref_ack_id m).

Lemma encode_varint_owned m :
  encode_varint (fields Message) (to_values (to_owned_message m)) =
  opt_bytes (tagged_bytes 10 array_value) (ref_events m) ++
  opt_bytes (tagged_bytes 20 (val_str [])) (ref_from_uid m) ++
  opt_bytes (tagged_bytes 30 (val_str [])) (ref_from_client m) ++
  opt_bytes (tagged_bytes 40 array_value) (ref_routers m) ++
  opt_bytes (tagged_bytes 50 (val_str [])) (ref_group m) ++
  opt_bytes (tagged_bytes 60 array_value) (ref_uids m) ++
  opt_bytes (tagged_bytes 70 array_value) (ref_excludes m) ++
  opt_bytes (tagged_bytes 80 (val_bytes [])) (ref_payload m) ++ ack_bytes m.
Proof.
  rewrite encode_varint_bytes, message_fields.
  assert (∀ n t o, field_bytes (mkField n t KStrArray, VStrArray (own_array o))
                   = opt_bytes (tagged_bytes t array_value) o) as Ha by (by intros n t []).
  assert (∀ n t o, field_bytes (mkField n t KStr, VStr o)
                   = opt_bytes (tagged_bytes t (val_str [])) o) as Hs by (by intros n t []).
  assert (∀ n t o, field_bytes (mkField n t KBytes, VBytes o)
                   = opt_bytes (tagged_bytes t (val_bytes [])) o) as Hb by (by intros n t []).
  cbn [to_values Message_protocol message_values to_owned_message msg_events msg_from_uid
       msg_from_client msg_routers msg_group msg_uids msg_excludes msg_payload msg_ack_id
       zip zip_with map concat].
  rewrite !Ha, !Hs, Hb, app_nil_r. done.
Qed.

Lemma slice_len_opt {A} (f : A → list Z) (g : A → Z) o :
  (∀ x, slice_len (f x) = g x) → slice_len (opt_bytes f o) = olen g o.
Proof. intros H. destruct o as [x|]; [apply H|done]. Qed.

Lemma slice_len_tagged {A} tag (f : A → list Z) (g : A → Z) o :
  (∀ x, slice_len (f x) = g x) → slice_len (opt_bytes (tagged_bytes tag f) o) = tagged_len g (tag, o).
Proof.
  intros H. unfold tagged_len. apply slice_len_opt. intros x. unfold tagged_bytes.
  by rewrite slice_len_app, H.
Qed.

Lemma tagged_ok {A} (P : A → Prop) (l : list (Z * option A)) :
  forallb (λ x, (0 <? x.1) && (x.1 <? 2 ^ 61)) l = true → Forall P (flatten (map snd l)) →
  Forall (λ x, 0 < x.1 < 2 ^ 61 ∧ ∀ v, x.2 = Some v → P v) l.
Proof.
  induction l as [|[t o] l IH]; cbn [forallb map flatten fst snd]; [constructor|].
  intros [Ht Hl]%andb_prop Hf. unfold flatten in *. simpl in Hf.
  constructor; simpl; [split; [lia|]|].
  - intros v ->. simpl in Hf. by apply Forall_cons in Hf as [? _].
  - apply IH; [done|]. destruct o; simpl in Hf; [by apply Forall_cons in Hf as [_ ?]|done].
Qed.

Lemma payload_part m total :
  ref_fits m → 0 ≤ total < 2 ^ 60 →
  match ref_payload m with
  | Some p =>
      let? total1 := checked_add total (field_key_len 80 WT_LEN) in
      let? n := length_delimited_len (slice_len p) in
      checked_add total1 n
  | None => Ok total
  end = Ok (total + tagged_len payload_len (80, ref_payload m)) ∧
  0 ≤ tagged_len payload_len (80, ref_payload m) < 2 ^ 44.
Proof.
  intros Hm Ht. destruct (ref_payload m) as [p|] eqn:E; cycle 1.
  { change (tagged_len _ _) with 0. split; [f_equal; lia|lia]. }
  destruct (payload_len_ok m p Hm E) as [Hp Hl].
  change (tagged_len payload_len (80, Some p)) with (key_len 80 + payload_len p).
  destruct (key_len_ok 80 WT_LEN) as [Hk Hk1]; [lia|done|]. rewrite Hk. unfold key_len.
  rewrite checked_add_ok by lia. cbn [result_bind]. rewrite Hp. cbn [result_bind].
  rewrite checked_add_ok by lia. split; [f_equal; lia|lia].
Qed.

Lemma varint_len_ok m :
  ref_fits m →
  let bytes := encode_varint (fields Message) (to_values (to_owned_message m)) in
  varint_len m = Ok (slice_len bytes) ∧ slice_len bytes < 2 ^ 60.
Proof.
  intros Hm bytes. unfold bytes. rewrite encode_varint_owned. rewrite !slice_len_app.
  rewrite !(slice_len_tagged _ array_value array_len) by done.
  rewrite !(slice_len_tagged _ (val_str []) str_bytes_len) by done.
  rewrite (slice_len_tagged _ (val_bytes []) payload_len) by done.
  unfold ack_bytes. rewrite slice_len_app.
  destruct (ack_len m (ref_fits_ack m Hm)) as [Eack Hack].
  destruct (key_len_ok 90 WT_VARINT) as [Hk Hk1]; [lia|done|].
  unfold varint_len. rewrite Eack, Hk.
  pose proof (array_lens_ok _ (ref_fits_arrays m Hm)) as Har.
  pose proof (str_lens_ok _ (ref_fits_strings m Hm)) as Hst.
  destruct (add_tagged_ok array_value_len array_len
    [(10, ref_events m); (40, ref_routers m); (60, ref_uids m); (70, ref_excludes m)] 0) as [-> H1];
    [by apply tagged_ok|lia|simpl; lia|].
  cbn [result_bind length] in *.
  destruct (add_tagged_ok (λ s, length_delimited_len (str_len s)) str_bytes_len
    [(20, ref_from_uid m); (30, ref_from_client m); (50, ref_group m)]
    (0 + zsum (tagged_len array_len)
       [(10, ref_events m); (40, ref_routers m); (60, ref_uids m); (70, ref_excludes m)])) as [-> H2];
    [by apply tagged_ok|lia|simpl length; lia|].
  cbn [result_bind length] in *. edestruct (payload_part m) as [-> H3]; [done|lia|]. cbn [result_bind].
  rewrite checked_add_ok by lia. cbn [result_bind]. rewrite checked_add_ok by lia.
  cbn [zsum foldr] in *. split; [f_equal; lia|lia].
Qed.

(** ** The bytes that reach the buffer *)

Section puts.
Context {B : Type} `{!BufMut B} `{!BufMutLaws B}.

(** Where there is room, [c] does not panic and appends exactly [bs]. *)
Definition puts (c : B → option B) (bs : list Z) : Prop :=
  ∀ b, slice_len bs ≤ remaining_mut b →
    ∃ b', c b = Some b' ∧ contents b' = contents b ++ bs ∧
          remaining_mut b - slice_len bs ≤ remaining_mut b'.

Lemma puts_slice s : puts (put_slice s) s.
Proof. intros b Hb. by apply put_slice_room. Qed.

Lemma puts_nothing : puts Some [].
Proof. intros b Hb. exists b. rewrite app_nil_r. change (slice_len []) with 0. split_and!; [done..|lia]. Qed.

Lemma puts_then f g bs cs : puts f bs → puts g cs → puts (put_then f g) (bs ++ cs).
Proof.
  intros Hf Hg b Hb. rewrite slice_len_app in *. pose proof (slice_len_nonneg cs).
  destruct (Hf b) as (b1 & E1 & C1 & R1); [lia|]. destruct (Hg b1) as (b2 & E2 & C2 & R2); [lia|].
  exists b2. unfold put_then. rewrite E1. simpl. rewrite C2, C1, app_assoc. split_and!; [done..|lia].
Qed.

Lemma puts_varint_loop fuel v : 0 ≤ v < 2 ^ 64 → puts (put_varint_loop fuel v) (write_varint_loop fuel [] v).
Proof.
  revert v. induction fuel as [|fuel IH]; intros v Hv; [apply puts_nothing|].
  cbn [put_varint_loop write_varint_loop]. destruct (negb _); [|apply puts_slice].
  rewrite write_varint_loop_app. apply puts_then; [apply puts_slice|]. apply IH.
  rewrite Z.shiftr_div_pow2 by lia. split; [apply Z.div_pos; lia|apply Z.div_lt_upper_bound; lia].
Qed.

Lemma puts_varint v : is_u64 v = true → puts (put_varint v) (varint v).
Proof. intros Hv%is_u64_spec. by apply puts_varint_loop. Qed.

Lemma puts_len_delimited bs : slice_len bs ≤ MAX_BYTES_LEN → puts (put_len_delimited bs) (len_delim [] bs).
Proof.
  intros Hb. pose proof (slice_len_nonneg bs). rewrite len_delim_app. cbn [app].
  apply puts_then; [by apply puts_varint, max_str_u64|apply puts_slice].
Qed.

Lemma puts_str s : str_fits s → puts (put_str s) (val_str [] s).
Proof. intros [_ Hs]. apply puts_len_delimited. by rewrite slice_len_as_bytes. Qed.

Lemma puts_items values :
  Forall (λ s, str_len s ≤ MAX_STR_LEN) values →
  puts (put_items values) (concat (map elem_bytes (map Some values))).
Proof.
  induction 1 as [|s values Hs _ IH]; [apply puts_nothing|]. cbn [put_items map concat elem_bytes].
  pose proof (str_len_nonneg s). rewrite <- app_assoc.
  apply puts_then; [by apply puts_varint, max_str_u64|]. by apply puts_then; [apply puts_slice|].
Qed.

Lemma wrapping_add_small a b : 0 ≤ a + b < 2 ^ 64 → u64_wrapping_add a b = a + b.
Proof. apply Z.mod_small. Qed.

(** The length [put_array] adds up does not wrap. *)
Lemma put_array_inner values inner :
  Forall (λ s, str_len s ≤ MAX_STR_LEN) values → 0 ≤ inner →
  inner + slice_len (concat (map elem_bytes (map Some values))) < 2 ^ 64 →
  foldl (λ total value,
    u64_wrapping_add (u64_wrapping_add total (unsigned_varint_len (str_len value))) (str_len value))
    inner values = inner + slice_len (concat (map elem_bytes (map Some values))).
Proof.
  intros Hf. revert inner. induction Hf as [|s values Hs _ IH]; intros inner Hi Hlt; [simpl; by rewrite Z.add_0_r|].
  cbn [map concat foldl elem_bytes] in *. rewrite !slice_len_app, slice_len_as_bytes in *.
  pose proof (str_len_nonneg s). pose proof (slice_len_nonneg (concat (map elem_bytes (map Some values)))).
  destruct (unsigned_varint_len_spec (str_len s)) as [-> Hv]; [by apply max_str_u64|].
  rewrite (wrapping_add_small inner), wrapping_add_small by lia.
  rewrite IH; lia.
Qed.

Lemma puts_array values : array_fits (map Some values) → puts (put_array values) (array_value values).
Proof.
  intros Ha. pose proof (array_bytes_u64 _ Ha) as Hu. pose proof (array_fits_strs _ Ha) as Hs.
  unfold array_value. rewrite val_str_array_app. cbn [app]. unfold put_array.
  assert (is_u64 (Z.of_nat (length values)) = true) as Hn.
  { destruct Ha as [Hn _]. rewrite length_map in Hn. unfold MAX_ARRAY_ELEMS in Hn. apply is_u64_spec. lia. }
  destruct (unsigned_varint_len_spec _ Hn) as [E H1]. pose proof Hu as Hu'. apply is_u64_spec in Hu'.
  assert (array_bytes (map Some values) =
          varint (Z.of_nat (length values)) ++ concat (map elem_bytes (map Some values))) as EA
    by (unfold array_bytes; by rewrite length_map).
  rewrite EA, slice_len_app in Hu'. rewrite put_array_inner, E by (done || lia).
  rewrite <- slice_len_app, <- EA. apply puts_then; [by apply puts_varint|].
  rewrite EA. apply puts_then; [by apply puts_varint|by apply puts_items].
Qed.

Lemma puts_opt {A} (put : A → B → option B) (f : A → list Z) o :
  (∀ x, o = Some x → puts (put x) (f x)) → puts (put_opt put o) (opt_bytes f o).
Proof. intros H. destruct o as [x|]; [by apply H|apply puts_nothing]. Qed.

Lemma puts_field {A} tag (put : A → B → option B) (f : A → list Z) x :
  0 < tag < 2 ^ 61 → puts (put x) (f x) → puts (put_field tag put x) (tagged_bytes tag f x).
Proof.
  intros Ht Hx. apply puts_then; [|done]. apply puts_varint. apply (key_value tag WT_LEN); [lia|done].
Qed.

Context (m : MessageRef) (Hm : ref_fits m).

Lemma arrays_elem o x : o ∈ ref_arrays m → o = Some x → puts (put_array x) (array_value x).
Proof.
  intros Ho ->. apply puts_array. apply (proj1 (Forall_forall _ _) (ref_fits_arrays m Hm)).
  apply list_elem_of_omap. by exists (Some x).
Qed.

Lemma strings_elem o x : o ∈ ref_strings m → o = Some x → puts (put_str x) (val_str [] x).
Proof.
  intros Ho ->. apply puts_str. apply (proj1 (Forall_forall _ _) (ref_fits_strings m Hm)).
  apply list_elem_of_omap. by exists (Some x).
Qed.

Lemma payload_elem x : ref_payload m = Some x → puts (put_payload x) (val_bytes [] x).
Proof.
  intros E. pose proof (ref_fits_payload m Hm) as Hp. rewrite E in Hp.
  by apply puts_len_delimited, Hp.
Qed.

Lemma puts_ack : puts (put_varint (zigzag_enc (ref_ack_id m))) (val_i64 [] (ref_ack_id m)).
Proof. apply puts_varint, zigzag_enc_range, Hm. Qed.

Ltac put_fields :=
  repeat (apply puts_then; [first
    [apply puts_opt; intros x Hx; try (apply puts_field; [lia|]);
     first [eapply arrays_elem; [|exact Hx]; unfold ref_arrays; set_solver
           |eapply strings_elem; [|exact Hx]; unfold ref_strings; set_solver
           |by apply payload_elem]
    |apply puts_slice
    |apply puts_varint; by vm_compute]|]); apply puts_ack.

Lemma puts_varint_ref :
  puts (encode_varint_ref m) (encode_varint (fields Message) (to_values (to_owned_message m))).
Proof. rewrite encode_varint_owned. unfold encode_varint_ref, ack_bytes. put_fields. Qed.

Lemma ref_bitmap_spec : ref_bitmap m = bitpack_presence 0 0 (to_values (to_owned_message m)).
Proof.
  clear Hm. destruct m as [[] [] [] [] [] [] [] [] ?]; vm_compute; reflexivity.
Qed.

Lemma encode_bitpack_owned :
  encode_bitpack (to_values (to_owned_message m)) =
  [as_u8 (ref_bitmap m)] ++ [as_u8 (Z.shiftr (ref_bitmap m) 8)] ++
  opt_bytes array_value (ref_events m) ++ opt_bytes (val_str []) (ref_from_uid m) ++
  opt_bytes (val_str []) (ref_from_client m) ++ opt_bytes array_value (ref_routers m) ++
  opt_bytes (val_str []) (ref_group m) ++ opt_bytes array_value (ref_uids m) ++
  opt_bytes array_value (ref_excludes m) ++ opt_bytes (val_bytes []) (ref_payload m) ++
  val_i64 [] (ref_ack_id m).
Proof.
  unfold encode_bitpack. rewrite foldl_write_val, <- ref_bitmap_spec.
  assert (∀ o, write_val [] (VStrArray (own_array o)) = opt_bytes array_value o) as Ha by (by intros []).
  assert (∀ o, write_val [] (VStr o) = opt_bytes (val_str []) o) as Hs by (by intros []).
  assert (∀ o, write_val [] (VBytes o) = opt_bytes (val_bytes []) o) as Hb by (by intros []).
  cbn [to_values Message_protocol message_values to_owned_message msg_events msg_from_uid
       msg_from_client msg_routers msg_group msg_uids msg_excludes msg_payload msg_ack_id map concat length].
  change (bm_bytes 9) with 2%nat. unfold bitmap, Writer_new. rewrite bitmap_loop_app.
  change (seq 0 (Nat.min 2 8)) with [0%nat; 1%nat].
  rewrite !Ha, !Hs, Hb, app_nil_r. cbn [map app]. change (Z.of_nat 0 * 8) with 0.
  by rewrite Z.shiftr_0_r.
Qed.

Lemma puts_bitpack_ref : puts (encode_bitpack_ref m) (encode_bitpack (to_values (to_owned_message m))).
Proof. rewrite encode_bitpack_owned. unfold encode_bitpack_ref. put_fields. Qed.
End puts.
