(* ===== verification/WireFrame.v ===== *)
(** * Frames of the long-connection protocol

    [naws]: wire.rs.  A frame is a big-endian length, a type, a mode and a
    payload.  Event frames are written from a borrowed message straight into the
    final buffer; the decoder cuts frames out of what has arrived so far.
    [stream_step] puts the decoder between a byte stream that arrives in any
    pieces and the frames it has cut, in any order of calls. *)

From Stdlib Require Import ZArith Lia.
From S2P Require Import Prelude Bytes Wire WireLaws WireSchema WireCodec WireMessage.
From stdpp Require Import prelude strings.

Local Open Scope Z_scope.
Local Open Scope rust_scope.

Module frame_type.
Definition AUTH : Z := 1.
Definition AUTH_RESP : Z := 2.
Definition EVENT : Z := 3.
Definition EVENT_ACK : Z := 4.
Definition PING : Z := 5.
Definition PONG : Z := 6.
Definition BROADCAST : Z := 7.
Definition CLOSE : Z := 8.
End frame_type.

Module wire_mode.
Definition JSON : Z := 0.
Definition VARINT : Z := 1.
Definition BITPACK : Z := 2.
End wire_mode.

Record Frame := mkFrame { fr_typ : Z; fr_mode : Z; fr_payload : list Z }.

#[global] Instance Frame_eq_dec : EqDecision Frame.
Proof. solve_decision. Defined.

Definition frame_body_len (payload : list Z) : Z := 2 + slice_len payload.

(** [None]: the payload does not fit the length field, and [expect] panics. *)
Definition encode_frame (typ mode : Z) (payload : list Z) : option (list Z) :=
  let len := frame_body_len payload in
  if is_u32 len then Some (to_be_bytes 4 len ++ [typ] ++ [mode] ++ payload) else None.

Definition ping : option (list Z) := encode_frame frame_type.PING wire_mode.VARINT [].
Definition pong : option (list Z) := encode_frame frame_type.PONG wire_mode.VARINT [].

(** [BytesMut]: a buffer that grows up to the largest [usize]. *)
Class BytesMut (B : Type) `{!BufMut B} := { with_capacity : Z → B }.
Class BytesMutLaws (B : Type) `{!BufMut B, !BytesMut B} : Prop := {
  with_capacity_empty : ∀ n, contents (with_capacity n : B) = [];
  remaining_mut_grows : ∀ b : B, remaining_mut b = USIZE_MAX - slice_len (contents b) }.

Section event_frame.
Context {B : Type} `{!BufMut B, !BytesMut B} `{!SerdeJson Message}.

(** [put_u32]. *)
Definition put_u32 (x : Z) : B → option B := put_slice (to_be_bytes 4 x).

(** [None] is a panic: a put without room, or the [debug_assert] on the length. *)
Definition encode_event_frame_ref (m : MessageRef) (mode : Mode) (max_frame : Z)
  : option (result (list Z) CodecError) :=
  match encoded_len m mode with
  | Err e => Some (Err e)
  | Ok payload_len =>
      match u64_checked_add payload_len 2 with
      | None => Some (Err LengthOverflow)
      | Some body_len =>
          if (max_frame <? body_len) || negb (is_u32 body_len) then Some (Err LengthExceeds)
          else
            match u64_checked_add body_len 4 with
            | None => Some (Err LengthOverflow)
            | Some capacity =>
                output ← (put_u32 body_len +> put_u8 frame_type.EVENT +> put_u8 (ordinal mode))
                           (with_capacity capacity);
                written ← encode_into m mode output;
                match written with
                | (Err e, _) => Some (Err e)
                | (Ok n, output') => if n =? payload_len then Some (Ok (contents output')) else None
                end
            end
      end
  end.
End event_frame.

(** ** The decoder *)

Fixpoint from_be_bytes_acc (acc : Z) (bs : list Z) : Z :=
  match bs with
  | [] => acc
  | b :: bs' => from_be_bytes_acc (acc * 256 + b) bs'
  end.
Definition from_be_bytes (bs : list Z) : Z := from_be_bytes_acc 0 bs.

(** The answer and what is left of the buffer. *)
Definition frame_decode (max_frame : Z) (src : list Z) : result (option Frame) string * list Z :=
  match src with
  | b0 :: b1 :: b2 :: b3 :: body =>
      let len := from_be_bytes [b0; b1; b2; b3] in
      if len <? 2 then (Err "frame body < 2 bytes", src)
      else if max_frame <? len then (Err "frame exceeds max_frame", src)
      else if slice_len src <? 4 + len then (Ok None, src)
      else match body with
           | typ :: mode :: rest =>
               (Ok (Some (mkFrame typ mode (take (Z.to_nat (len - 2)) rest))),
                drop (Z.to_nat (len - 2)) rest)
           | _ => (Ok None, src) (* not reached: the body has two bytes *)
           end
  | _ => (Ok None, src)
  end.

(** A connection: bytes under way, bytes arrived, frames cut so far, and the
    error that ended it. *)
Record Inbound := mkInbound {
  under_way : list Z;
  in_buf : list Z;
  cut : list Frame;
  failed : option string }.

Inductive stream_step (max_frame : Z) : Inbound → Inbound → Prop :=
| step_arrive chunk rest buf fs :
    stream_step max_frame (mkInbound (chunk ++ rest) buf fs None) (mkInbound rest (buf ++ chunk) fs None)
| step_frame way buf buf' fs f :
    frame_decode max_frame buf = (Ok (Some f), buf') →
    stream_step max_frame (mkInbound way buf fs None) (mkInbound way buf' (fs ++ [f]) None)
| step_wait way buf buf' fs :
    frame_decode max_frame buf = (Ok None, buf') →
    stream_step max_frame (mkInbound way buf fs None) (mkInbound way buf' fs None)
| step_fail way buf buf' fs e :
    frame_decode max_frame buf = (Err e, buf') →
    stream_step max_frame (mkInbound way buf fs None) (mkInbound way buf' fs (Some e)).

(** ** Frames as bytes *)

Definition frame_bytes (f : Frame) : list Z :=
  to_be_bytes 4 (frame_body_len (fr_payload f)) ++ [fr_typ f] ++ [fr_mode f] ++ fr_payload f.

Definition frame_fits (max_frame : Z) (f : Frame) : Prop :=
  frame_body_len (fr_payload f) ≤ max_frame ∧ is_u32 (frame_body_len (fr_payload f)) = true.

Lemma encode_frame_bytes typ mode payload :
  is_u32 (frame_body_len payload) = true →
  encode_frame typ mode payload = Some (frame_bytes (mkFrame typ mode payload)).
Proof. unfold encode_frame. by intros ->. Qed.

Lemma from_be_bytes_app acc bs cs :
  from_be_bytes_acc acc (bs ++ cs) = from_be_bytes_acc (from_be_bytes_acc acc bs) cs.
Proof. revert acc. induction bs as [|b bs IH]; intros acc; simpl; [done|]. apply IH. Qed.

Lemma be_bytes_roundtrip w z : 0 ≤ z < 256 ^ Z.of_nat w → from_be_bytes (to_be_bytes w z) = z.
Proof.
  revert z. induction w as [|w IH]; intros z Hz; [simpl in Hz; change (0 = z); lia|].
  rewrite Nat2Z.inj_succ, Z.pow_succ_r in Hz by lia. unfold from_be_bytes in *.
  change (to_be_bytes (S w) z) with (to_be_bytes w (z / 256) ++ [z mod 256]).
  rewrite from_be_bytes_app, IH.
  - simpl. pose proof (Z.div_mod z 256). lia.
  - split; [apply Z.div_pos|apply Z.div_lt_upper_bound]; lia.
Qed.

(** Four length bytes first. *)
Lemma length_bytes z : ∃ b0 b1 b2 b3, to_be_bytes 4 z = [b0; b1; b2; b3].
Proof.
  pose proof (length_to_be_bytes 4 z). destruct (to_be_bytes 4 z) as [|b0 [|b1 [|b2 [|b3 [|]]]]]; try done. eauto.
Qed.

Lemma frame_bytes_length f : slice_len (frame_bytes f) = 4 + frame_body_len (fr_payload f).
Proof.
  unfold frame_bytes. rewrite slice_len_app. unfold frame_body_len, slice_len.
  rewrite length_to_be_bytes. simpl. lia.
Qed.

Lemma frame_decode_whole max_frame f tail :
  frame_fits max_frame f → frame_decode max_frame (frame_bytes f ++ tail) = (Ok (Some f), tail).
Proof.
  intros [Hmax Hu]. pose proof (frame_bytes_length f) as Hlen.
  pose proof (be_bytes_roundtrip 4 (frame_body_len (fr_payload f))) as Hbe.
  apply is_u32_spec in Hu. unfold frame_bytes in *. pose proof (slice_len_nonneg (fr_payload f)).
  destruct (length_bytes (frame_body_len (fr_payload f))) as (b0 & b1 & b2 & b3 & E). rewrite E in *.
  cbn [app frame_decode]. rewrite Hbe by (change (256 ^ Z.of_nat 4) with (2 ^ 32); lia).
  assert ((frame_body_len (fr_payload f) <? 2) = false) as -> by (unfold frame_body_len; lia).
  assert ((max_frame <? frame_body_len (fr_payload f)) = false) as -> by lia.
  assert ((slice_len (b0 :: b1 :: b2 :: b3 :: fr_typ f :: fr_mode f :: fr_payload f ++ tail)
           <? 4 + frame_body_len (fr_payload f)) = false) as ->.
  { apply Z.ltb_ge. unfold frame_body_len, slice_len. simpl length. rewrite length_app. lia. }
  replace (Z.to_nat (frame_body_len (fr_payload f) - 2)) with (length (fr_payload f))
    by (unfold frame_body_len, slice_len; lia).
  rewrite take_app_length, drop_app_length. by destruct f.
Qed.

(** A strict prefix of a frame is waited for, untouched. *)
Lemma frame_decode_prefix max_frame f buf tail :
  frame_fits max_frame f → frame_bytes f = buf ++ tail → tail ≠ [] →
  frame_decode max_frame buf = (Ok None, buf).
Proof.
  intros [Hmax Hu] E Htail. pose proof (frame_bytes_length f) as Hlen.
  pose proof (be_bytes_roundtrip 4 (frame_body_len (fr_payload f))) as Hbe.
  apply is_u32_spec in Hu. pose proof (slice_len_nonneg (fr_payload f)).
  rewrite E, slice_len_app in Hlen. unfold frame_bytes in E.
  destruct (length_bytes (frame_body_len (fr_payload f))) as (b0 & b1 & b2 & b3 & Eb). rewrite Eb in *.
  destruct buf as [|c0 [|c1 [|c2 [|c3 body]]]]; [done..|]. simpl in E. injection E as <- <- <- <- E.
  cbn [frame_decode]. rewrite Hbe by (change (256 ^ Z.of_nat 4) with (2 ^ 32); lia).
  assert ((frame_body_len (fr_payload f) <? 2) = false) as -> by (unfold frame_body_len; lia).
  assert ((max_frame <? frame_body_len (fr_payload f)) = false) as -> by lia.
  assert (0 < slice_len tail) by (destruct tail; [done|unfold slice_len; simpl; lia]).
  assert ((slice_len (b0 :: b1 :: b2 :: b3 :: body) <? 4 + frame_body_len (fr_payload f)) = true) as ->;
    [|done].
  apply Z.ltb_lt. lia.
Qed.
