(* ===== verification/WireGuarantees.v ===== *)
(** * What the wire protocol guarantees

    The theorems on schemas, borrowed messages and frames, each with a concrete
    instance. *)

From Stdlib Require Import ZArith Lia.
From S2P Require Import Prelude Bytes Wire WireLaws WireSchema WireCodec WireMessage WireFrame.
From stdpp Require Import prelude strings.

Local Open Scope Z_scope.
Local Open Scope rust_scope.

(** The modes with a binary codec. *)
Definition binary (mode : Mode) : bool :=
  match mode with VarintTlv | BitpackTlv => true | JsonBytes | FastFixed => false end.

Section types.
Context {T : Type} `{!ProtocolBytes T} `{!SerdeJson T}.

(** A struct with the empty strings of its arrays read as [None]. *)
Definition normalised (x : T) : T := of_values (map norm_value (to_values x)).

Lemma fields_accepted : accepted (fields T).
Proof. eapply collect_fields_accepted, declaration_accepted. Qed.

Lemma normalised_id (x : T) : Forall (λ v, norm_value v = v) (to_values x) → normalised x = x.
Proof.
  intros H. unfold normalised. assert (map norm_value (to_values x) = to_values x) as ->; [|apply of_to_values].
  induction H as [|v vs Hv _ IH]; simpl; [done|]. by rewrite Hv, IH.
Qed.

Lemma roundtrip_values mode (x : T) :
  binary mode = true → Forall value_fits (to_values x) →
  ∃ bytes, wire_encode mode x = Ok bytes ∧ wire_decode mode bytes = Ok (normalised x).
Proof.
  intros Hm Hf. pose proof fields_accepted as Ha. pose proof (to_values_typed x) as Ht.
  destruct mode; try discriminate Hm; eexists; (split; [reflexivity|]); unfold wire_decode.
  - by rewrite varint_roundtrip.
  - by rewrite bitpack_roundtrip by (done || apply Ha).
Qed.

Lemma decoded_values mode data (x : T) :
  binary mode = true → Forall is_byte data → wire_decode mode data = Ok x →
  Forall value_read (to_values x) ∧ (struct_size (to_values x) ≤ length data)%nat.
Proof.
  intros Hm Hb H. assert (reader_ok (Reader_new data)) as Hr by (split; simpl; [done|lia]).
  assert (∀ c, result_map of_values (result_map fst (c (Reader_new data))) = Ok x →
    yields c (λ n vs, struct_ok (fields T) vs ∧ (struct_size vs ≤ n)%nat) →
    Forall value_read (to_values x) ∧ (struct_size (to_values x) ≤ length data)%nat) as Hc.
  { intros c E Hy. destruct (c (Reader_new data)) as [[vs r]|e] eqn:Ec; [|done].
    injection E as <-. destruct (Hy _ _ _ Hr Ec) as (Hd & [_ Hp] & n & Hn & [Ht Hv] & Hs).
    rewrite to_of_values by done. rewrite Hd in Hp. simpl in *. split; [done|lia]. }
  destruct (struct_ok_default (fields T)) as [Hd Hd0].
  destruct mode; try discriminate Hm; unfold wire_decode in H.
  - apply (Hc _ H). eapply yields_mono; [by apply yields_loop|]. intros n vs. by rewrite Hd0.
  - apply (Hc _ H), yields_decode_bitpack.
Qed.
End types.

(** C13. A struct written in a binary mode reads back as itself, up to empty
    strings in arrays, which read back as null, and exactly when there are none. *)
Theorem binary_roundtrip {T} `{!ProtocolBytes T} `{!SerdeJson T} mode (x : T) :
  binary mode = true → Forall value_fits (to_values x) →
  ∃ bytes, wire_encode mode x = Ok bytes ∧ wire_decode mode bytes = Ok (normalised x) ∧
    (Forall (λ v, norm_value v = v) (to_values x) → wire_decode mode bytes = Ok x).
Proof.
  intros Hm Hf. destruct (roundtrip_values mode x Hm Hf) as (bytes & He & Hd).
  exists bytes. split_and!; [done..|]. intros Hn. by rewrite Hd, normalised_id.
Qed.

(** C26. Two versions of a struct, accepted by the macro and agreeing on the type
    of the tags they share: what one wrote in VARINT_TLV the other reads, each
    of its fields with the value written under its tag or else its default, and
    every field it does not know is skipped. *)
Theorem versions_interoperate old new wfs rfs vs :
  collect_fields old = Ok wfs → collect_fields new = Ok rfs →
  Forall (agrees rfs) wfs → map kind_of vs = map f_kind wfs → Forall value_fits vs →
  decode_varint rfs (encode_varint wfs vs) = Ok (map (received (zip wfs vs)) rfs).
Proof. intros Hw Hr. apply varint_interop; by eapply collect_fields_accepted. Qed.

(** C27. Whatever bytes arrive: what a binary decoder accepts holds only values
    within the limits, stands for no more bytes than arrived, and is canonical:
    written in either binary mode it reads back as itself. *)
Theorem decoded_is_canonical {T} `{!ProtocolBytes T} `{!SerdeJson T} mode mode' data (x : T) :
  binary mode = true → binary mode' = true → Forall is_byte data → wire_decode mode data = Ok x →
  Forall value_fits (to_values x) ∧ (struct_size (to_values x) ≤ length data)%nat ∧
  ∃ bytes, wire_encode mode' x = Ok bytes ∧ wire_decode mode' bytes = Ok x.
Proof.
  intros Hm Hm' Hb H. destruct (decoded_values mode data x Hm Hb H) as [Hv Hs].
  assert (Forall value_fits (to_values x)) as Hf by (eapply Forall_impl; [exact Hv|]; by intros v [? _]).
  split_and!; [done..|]. destruct (roundtrip_values mode' x Hm' Hf) as (bytes & He & Hd).
  exists bytes. split; [done|]. rewrite Hd, normalised_id; [done|].
  eapply Forall_impl; [exact Hv|]. by intros v [_ ?].
Qed.

(** The decoding loop ends within as many turns as bytes arrived: more turns
    change nothing, whatever the bytes. *)
Theorem decoding_ends fs data turns :
  Forall is_byte data → (length data ≤ turns)%nat →
  result_map fst (decode_loop turns fs (default_values fs) (Reader_new data)) = decode_varint fs data.
Proof.
  intros Hb Hn. unfold decode_varint. f_equal.
  apply decode_loop_fuel; [split; simpl; [done|lia]|..]; unfold remaining, slice_len; simpl; lia.
Qed.

(** ** Borrowed messages *)

Lemma validate_error m e : validate_fields m = Err e → e = LengthExceeds.
Proof. unfold validate_fields. intros H. cases_in H; done. Qed.

Section borrowed.
Context {B : Type} `{!BufMut B, !BufMutLaws B} `{!SerdeJson Message}.

Lemma encoded_len_ok m mode bytes :
  binary mode = true → ref_fits m → wire_encode mode (to_owned_message m) = Ok bytes →
  validate_fields m = Ok tt → encoded_len m mode = Ok (slice_len bytes) ∧ slice_len bytes < 2 ^ 60.
Proof.
  intros Hm Hf He Hv. unfold encoded_len. rewrite Hv. cbn [result_bind].
  destruct mode; try discriminate Hm; injection He as <-; [by apply varint_len_ok|by apply bitpack_len_ok].
Qed.

Lemma encode_into_ok m mode bytes (out : B) :
  binary mode = true → ref_fits m → wire_encode mode (to_owned_message m) = Ok bytes →
  validate_fields m = Ok tt → slice_len bytes ≤ remaining_mut out →
  ∃ out', encode_into m mode out = Some (Ok (slice_len bytes), out') ∧
          contents out' = contents out ++ bytes.
Proof.
  intros Hm Hf He Hv Hroom. unfold encode_into. rewrite (proj1 (encoded_len_ok m mode bytes Hm Hf He Hv)).
  assert ((remaining_mut out <? slice_len bytes) = false) as -> by lia.
  destruct mode; try discriminate Hm; injection He as <-.
  - destruct (puts_varint_ref m Hf out Hroom) as (out' & E & Hc & _). exists out'. by rewrite E.
  - destruct (puts_bitpack_ref m Hf out Hroom) as (out' & E & Hc & _). exists out'. by rewrite E.
Qed.
End borrowed.

(** C14. The borrowed encoder agrees with the owned one: its advance length is the
    length of the owned encoding, it appends exactly those bytes when there is
    room, otherwise it reports both numbers and writes nothing, it refuses what
    exceeds a limit, and it never panics. *)
Theorem borrowed_encoding_agrees {B} `{!BufMut B, !BufMutLaws B} `{!SerdeJson Message}
    m mode (out : B) bytes :
  binary mode = true → ref_ok m → wire_encode mode (to_owned_message m) = Ok bytes →
  match validate_fields m with
  | Err _ => encode_into m mode out = Some (Err LengthExceeds, out)
  | Ok _ =>
      encoded_len m mode = Ok (slice_len bytes) ∧
      if slice_len bytes <=? remaining_mut out
      then ∃ out', encode_into m mode out = Some (Ok (slice_len bytes), out') ∧
                   contents out' = contents out ++ bytes
      else encode_into m mode out =
           Some (Err (BufferTooSmall (slice_len bytes) (remaining_mut out)), out)
  end.
Proof.
  intros Hm Hok He. destruct (validate_fields m) as [[]|e] eqn:Hv.
  - pose proof (validated m Hok Hv) as Hf. split; [by apply (encoded_len_ok m mode bytes)|].
    destruct (slice_len bytes <=? remaining_mut out) eqn:Hroom.
    + apply encode_into_ok; [done..|lia].
    + unfold encode_into. rewrite (proj1 (encoded_len_ok m mode bytes Hm Hf He Hv)).
      assert ((remaining_mut out <? slice_len bytes) = true) as -> by lia. done.
  - unfold encode_into, encoded_len. rewrite Hv. by rewrite (validate_error m e Hv).
Qed.

(** ** Frames *)

Section frames.
Context {B : Type} `{!BufMut B, !BufMutLaws B, !BytesMut B, !BytesMutLaws B} `{!SerdeJson Message}.

Lemma header_put body_len mode cap :
  ∃ out : B, (put_u32 body_len +> put_u8 frame_type.EVENT +> put_u8 (ordinal mode)) (with_capacity cap) = Some out ∧
    contents out = to_be_bytes 4 body_len ++ [frame_type.EVENT] ++ [ordinal mode] ∧
    remaining_mut out = USIZE_MAX - 6.
Proof.
  assert (puts (B := B) (put_u32 body_len +> put_u8 frame_type.EVENT +> put_u8 (ordinal mode))
            (to_be_bytes 4 body_len ++ [frame_type.EVENT] ++ [ordinal mode])) as Hp
    by repeat (apply puts_then || apply puts_slice).
  assert (slice_len (to_be_bytes 4 body_len ++ [frame_type.EVENT] ++ [ordinal mode]) = 6) as H6.
  { unfold slice_len. rewrite length_app, length_to_be_bytes. done. }
  destruct (Hp (with_capacity cap)) as (out & E & Hc & _).
  { rewrite H6, remaining_mut_grows, with_capacity_empty. done. }
  rewrite with_capacity_empty in Hc. exists out. split_and!; [done..|].
  by rewrite remaining_mut_grows, Hc, app_nil_l, H6.
Qed.

Lemma ordinal_roundtrip mode : from_ordinal (ordinal mode) = Some mode.
Proof. by destruct mode. Qed.

(** The bytes of an event frame, once the limits hold. *)
Lemma event_frame_bytes m mode max_frame bytes :
  binary mode = true → ref_fits m → validate_fields m = Ok tt →
  wire_encode mode (to_owned_message m) = Ok bytes →
  encode_event_frame_ref (B := B) m mode max_frame =
  Some (if (max_frame <? 2 + slice_len bytes) || negb (is_u32 (2 + slice_len bytes)) then Err LengthExceeds
        else Ok (frame_bytes (mkFrame frame_type.EVENT (ordinal mode) bytes))).
Proof.
  intros Hm Hf Hv He. destruct (encoded_len_ok m mode bytes Hm Hf He Hv) as [El Hsmall].
  pose proof (slice_len_nonneg bytes) as H0. unfold encode_event_frame_ref. rewrite El.
  unfold u64_checked_add at 1. rewrite (Z.add_comm (slice_len bytes)).
  assert (is_u64 (2 + slice_len bytes) = true) as -> by (apply is_u64_spec; lia).
  destruct (_ || _) eqn:E; [done|]. apply orb_false_elim in E as [E1 E2].
  unfold u64_checked_add. assert (is_u64 (2 + slice_len bytes + 4) = true) as ->.
  { apply is_u64_spec. lia. }
  destruct (header_put (2 + slice_len bytes) mode (2 + slice_len bytes + 4)) as (out & -> & Hc & Hr).
  cbn [mbind option_bind].
  destruct (encode_into_ok m mode bytes out) as (out' & -> & Hc'); [done..| |].
  { rewrite Hr. unfold USIZE_MAX, U64_MAX. lia. }
  cbn [mbind option_bind]. rewrite Z.eqb_refl, Hc', Hc. unfold frame_bytes, frame_body_len.
  cbn [fr_payload fr_typ fr_mode]. by rewrite <- !app_assoc.
Qed.
End frames.

(** A message within the limits is a struct within the limits. *)
Lemma ref_fits_values m : ref_fits m → Forall value_fits (to_values (to_owned_message m)).
Proof.
  intros [Hs Ha Hp Hk].
  assert (∀ o, o ∈ ref_strings m → value_fits (VStr o)) as Hs'.
  { intros [s|] Ho; [|done]. apply (proj1 (Forall_forall _ _) Hs). apply list_elem_of_omap. by exists (Some s). }
  assert (∀ o, o ∈ ref_arrays m → value_fits (VStrArray (own_array o))) as Ha'.
  { intros [a|] Ho; [|done]. apply (proj1 (Forall_forall _ _) Ha a). apply list_elem_of_omap. by exists (Some a). }
  unfold ref_strings, ref_arrays in *.
  repeat constructor; first [apply Hs'; set_solver|apply Ha'; set_solver|done].
Qed.

(** A borrowed message sent as an event frame: building the frame never
    panics, it is refused exactly when a field or the frame exceeds its limit, and
    otherwise the receiver cuts that frame out of the stream whatever follows,
    and finds the event type, the mode and the message in it. *)
Theorem event_frame_delivered {B} `{!BufMut B, !BufMutLaws B, !BytesMut B, !BytesMutLaws B}
    `{!SerdeJson Message} m mode max_frame bytes tail :
  binary mode = true → ref_ok m → wire_encode mode (to_owned_message m) = Ok bytes →
  if is_ok (validate_fields m) && (2 + slice_len bytes <=? Z.min max_frame U32_MAX)
  then ∃ wire,
    encode_event_frame_ref (B := B) m mode max_frame = Some (Ok wire) ∧
    frame_decode max_frame (wire ++ tail) =
      (Ok (Some (mkFrame frame_type.EVENT (ordinal mode) bytes)), tail) ∧
    from_ordinal (ordinal mode) = Some mode ∧
    wire_decode mode bytes = Ok (normalised (to_owned_message m))
  else encode_event_frame_ref (B := B) m mode max_frame = Some (Err LengthExceeds).
Proof.
  intros Hm Hok He. destruct (validate_fields m) as [[]|e] eqn:Hv; simpl.
  - pose proof (validated m Hok Hv) as Hf. rewrite (event_frame_bytes m mode max_frame bytes) by done.
    pose proof (slice_len_nonneg bytes). unfold is_u32.
    destruct (2 + slice_len bytes <=? _) eqn:Hlim.
    + assert ((max_frame <? 2 + slice_len bytes) || negb ((0 <=? 2 + slice_len bytes) && (2 + slice_len bytes <=? U32_MAX)) = false) as -> by lia.
      eexists. split; [done|]. split; [|split; [apply ordinal_roundtrip|]].
      * apply frame_decode_whole. split; [unfold frame_body_len; simpl; lia|].
        unfold frame_body_len, is_u32. simpl. lia.
      * destruct (roundtrip_values mode (to_owned_message m) Hm (ref_fits_values m Hf)) as (bytes' & He' & Hd).
        rewrite He in He'. by injection He' as <-.
    + assert ((max_frame <? 2 + slice_len bytes) || negb ((0 <=? 2 + slice_len bytes) && (2 + slice_len bytes <=? U32_MAX)) = true) as -> by lia. done.
  - unfold encode_event_frame_ref, encoded_len. rewrite Hv. by rewrite (validate_error m e Hv).
Qed.

(** ** Streams *)

Lemma decode_cases max_frame rest buf way :
  Forall (frame_fits max_frame) rest → buf ++ way = concat (map frame_bytes rest) →
  (frame_decode max_frame buf = (Ok None, buf) ∧ (way = [] → rest = [])) ∨
  ∃ f rest' buf', rest = f :: rest' ∧ frame_decode max_frame buf = (Ok (Some f), buf') ∧
    buf' ++ way = concat (map frame_bytes rest').
Proof.
  intros Hf E. destruct rest as [|f rest]; cbn [map concat] in E.
  { left. apply app_eq_nil in E as [-> ->]. done. }
  apply Forall_cons in Hf as [Hfit _].
  apply app_eq_inv in E as [(k & -> & Ek)|(k & Ek & ->)].
  - right. exists f, rest, k. split_and!; [done|by apply frame_decode_whole|by rewrite Ek].
  - destruct k as [|b k].
    + right. exists f, rest, []. rewrite app_nil_r in Ek. subst buf. split_and!; [done| |done].
      rewrite <- (app_nil_r (frame_bytes f)). by apply frame_decode_whole.
    + left. split; [by eapply frame_decode_prefix|done].
Qed.

Definition stream_inv (frames : list Frame) (s : Inbound) : Prop :=
  failed s = None ∧
  ∃ rest, frames = cut s ++ rest ∧ in_buf s ++ under_way s = concat (map frame_bytes rest).

Lemma stream_inv_step max_frame frames s s' :
  Forall (frame_fits max_frame) frames → stream_step max_frame s s' →
  stream_inv frames s → stream_inv frames s'.
Proof.
  intros Hf Hstep [_ (rest & -> & E)]. apply Forall_app in Hf as [_ Hf].
  destruct Hstep as [chunk way buf fs|way buf buf' fs f Hd|way buf buf' fs Hd|way buf buf' fs e Hd];
    simpl in *.
  { split; [done|]. exists rest. split; [done|]. simpl. by rewrite <- app_assoc. }
  all: destruct (decode_cases _ _ _ _ Hf E) as [[Hn _]|(f' & rest' & b & -> & Hn & E')];
    rewrite Hd in Hn; simplify_eq; (split; [done|]).
  - exists rest'. simpl. split; [by rewrite <- app_assoc|done].
  - by exists rest.
Qed.

(** C15. Frames that arrive in pieces of any size, with the decoder called at any
    moments: the connection never fails, the frames cut so far are the first of
    those sent, in order and unchanged, no byte of the others is lost, and once
    everything has arrived the decoder yields frames until all are there. *)
Theorem stream_cut_exactly max_frame frames s :
  Forall (frame_fits max_frame) frames →
  rtc (stream_step max_frame) (mkInbound (concat (map frame_bytes frames)) [] [] None) s →
  failed s = None ∧
  (∃ rest, frames = cut s ++ rest ∧ in_buf s ++ under_way s = concat (map frame_bytes rest)) ∧
  (under_way s = [] → cut s = frames ∨ ∃ f buf, frame_decode max_frame (in_buf s) = (Ok (Some f), buf)).
Proof.
  intros Hf Hs. assert (stream_inv frames s) as [Hn (rest & E & Eb)].
  { apply (rtc_ind_r (stream_inv frames)) with (3 := Hs); [split; [done|by exists frames]|].
    intros. by eapply stream_inv_step. }
  split_and!; [done|by exists rest|]. intros Hw. rewrite Hw in Eb.
  rewrite E in Hf. apply Forall_app in Hf as [_ Hf].
  destruct (decode_cases max_frame rest (in_buf s) [] Hf Eb) as [[_ Hr]|(f & rest' & b & _ & Hd & _)].
  - left. by rewrite E, (Hr eq_refl), app_nil_r.
  - right. eauto.
Qed.
