(* ===== verification/WireScenario.v ===== *)
(** * The wire protocol on concrete messages

    A borrowed message, a growing buffer, two versions of a struct and a stream
    in three pieces, on which the guarantees are instantiated. *)

From Stdlib Require Import ZArith Lia.
From S2P Require Import Prelude Bytes Wire WireLaws WireSchema WireCodec WireMessage WireFrame WireGuarantees.
From stdpp Require Import prelude strings.

Local Open Scope Z_scope.

(** JSON is not used here. *)
#[local] Instance no_json {T} : SerdeJson T :=
  {| json_to_vec _ := Err (JsonError "off"); json_from_slice _ := Err (JsonError "off") |}.

(** A buffer that is the list of its bytes. *)
#[local] Instance grow_buf : BufMut (list Z) :=
  {| contents b := b;
     remaining_mut b := USIZE_MAX - slice_len b;
     put_slice s b := if slice_len s <=? USIZE_MAX - slice_len b then Some (b ++ s) else None |}.

#[local] Instance grow_buf_laws : BufMutLaws (list Z).
Proof.
  split. intros s b Hb. cbn [put_slice grow_buf remaining_mut contents] in *. exists (b ++ s).
  assert ((slice_len s <=? USIZE_MAX - slice_len b) = true) as -> by lia.
  rewrite slice_len_app. split_and!; [done..|lia].
Qed.

#[local] Instance grow_bytes : BytesMut (list Z) := {| with_capacity _ := [] |}.
#[local] Instance grow_bytes_laws : BytesMutLaws (list Z).
Proof. by split. Qed.

Definition sample_ref : MessageRef :=
  mkMessageRef (Some ["chat"; ""]%string) (Some "u1"%string) None (Some []) None None None
    (Some [0; 255]) (-3).
Definition sample : Message := to_owned_message sample_ref.

Lemma sample_fits : Forall value_fits (to_values sample).
Proof. repeat constructor; vm_compute; intuition congruence. Qed.

Lemma sample_ref_ok : ref_ok sample_ref.
Proof. split; vm_compute; repeat constructor; discriminate. Qed.

Lemma binary_roundtrip_witness :
  ∃ bytes, wire_encode BitpackTlv sample = Ok bytes ∧
    wire_decode BitpackTlv bytes = Ok (normalised sample) ∧
    (Forall (λ v, norm_value v = v) (to_values sample) → wire_decode BitpackTlv bytes = Ok sample).
Proof. apply (binary_roundtrip BitpackTlv sample); [reflexivity|exact sample_fits]. Defined.

(** A newer close reason: no text any more, and a flag. *)
Definition close_reason_v2 : DeriveInput :=
  NamedStruct [decl "retry" 30 ty_bool; decl "code" 10 ty_i32].

Lemma versions_interoperate_witness :
  decode_varint (collected_fields close_reason_v2)
    (encode_varint (collected_fields close_reason_decl) [VI32 1006; VStr (Some "bye"%string)])
  = Ok [VI32 1006; VBool false].
Proof.
  apply (versions_interoperate close_reason_decl close_reason_v2); [reflexivity..| |reflexivity|].
  - repeat constructor; intros g Hg; repeat (apply elem_of_cons in Hg as [->|Hg]); try done;
      by apply elem_of_nil in Hg.
  - repeat constructor; vm_compute; intuition congruence.
Defined.

Definition close_bytes : list Z := [80; 220; 15; 162; 1; 2; 111; 107; 250; 1; 0].
Definition close_value : CloseReason := mkCloseReason 1006 (Some "ok"%string).

Lemma decoded_is_canonical_witness :
  Forall value_fits (to_values close_value) ∧ (struct_size (to_values close_value) ≤ 11)%nat ∧
  ∃ bytes, wire_encode BitpackTlv close_value = Ok bytes ∧ wire_decode BitpackTlv bytes = Ok close_value.
Proof.
  apply (decoded_is_canonical VarintTlv BitpackTlv close_bytes close_value);
    [reflexivity|reflexivity| |vm_compute; reflexivity].
  repeat constructor; vm_compute; discriminate || reflexivity.
Defined.

Lemma decoding_ends_witness :
  result_map fst (decode_loop 99 (fields CloseReason) (default_values (fields CloseReason)) (Reader_new close_bytes))
  = decode_varint (fields CloseReason) close_bytes.
Proof.
  apply (decoding_ends (fields CloseReason) close_bytes 99); [|vm_compute; lia].
  repeat constructor; vm_compute; discriminate || reflexivity.
Defined.

(** The bytes of the sample in VARINT_TLV. *)
Definition sample_bytes : list Z := encode_varint (fields Message) (to_values sample).

Lemma sample_length : slice_len sample_bytes = 26.
Proof. vm_compute. reflexivity. Qed.

Lemma borrowed_encoding_agrees_witness :
  encoded_len sample_ref VarintTlv = Ok (slice_len sample_bytes) ∧
  ∃ out', encode_into sample_ref VarintTlv ([7] : list Z) = Some (Ok (slice_len sample_bytes), out') ∧
          contents out' = [7] ++ sample_bytes.
Proof.
  pose proof (borrowed_encoding_agrees sample_ref VarintTlv ([7] : list Z) sample_bytes
    eq_refl sample_ref_ok eq_refl) as H.
  assert (validate_fields sample_ref = Ok tt) as Hv by (vm_compute; reflexivity).
  rewrite Hv in H. destruct H as [H1 H2]. split; [exact H1|].
  assert ((slice_len sample_bytes <=? remaining_mut ([7] : list Z)) = true) as Hr by (rewrite sample_length; reflexivity).
  rewrite Hr in H2. exact H2.
Defined.

Lemma event_frame_delivered_witness :
  ∃ wire,
    encode_event_frame_ref (B := list Z) sample_ref VarintTlv 1024 = Some (Ok wire) ∧
    frame_decode 1024 (wire ++ [9]) =
      (Ok (Some (mkFrame frame_type.EVENT (ordinal VarintTlv) sample_bytes)), [9]) ∧
    from_ordinal (ordinal VarintTlv) = Some VarintTlv ∧
    wire_decode VarintTlv sample_bytes = Ok (normalised sample).
Proof.
  pose proof (event_frame_delivered (B := list Z) sample_ref VarintTlv 1024 sample_bytes [9]
    eq_refl sample_ref_ok eq_refl) as H.
  assert (validate_fields sample_ref = Ok tt) as Hv by (vm_compute; reflexivity).
  rewrite Hv, sample_length in H. exact H.
Defined.

(** Two frames in pieces of five, nine and one byte; the decoder is called twice
    before the last piece. *)
Definition stream_frames : list Frame := [mkFrame frame_type.PING 1 []; mkFrame frame_type.EVENT 2 [1; 2; 3]].
Definition stream_end : Inbound := mkInbound [] [] stream_frames None.

Lemma stream_run :
  rtc (stream_step 64) (mkInbound (concat (map frame_bytes stream_frames)) [] [] None) stream_end.
Proof.
  change (concat (map frame_bytes stream_frames)) with
    ([0; 0; 0; 2; 5] ++ [1; 0; 0; 0; 5; 3; 2; 1; 2] ++ [3] : list Z).
  eapply rtc_l; [apply step_arrive|]. eapply rtc_l; [by apply step_wait|].
  eapply rtc_l; [apply step_arrive|]. eapply rtc_l; [by eapply step_frame|].
  eapply rtc_l; [by apply step_wait|]. eapply rtc_l; [apply (step_arrive 64 [3] [])|].
  eapply rtc_l; [by eapply step_frame|]. apply rtc_refl.
Qed.

Lemma stream_cut_exactly_witness :
  failed stream_end = None ∧
  (∃ rest, stream_frames = cut stream_end ++ rest ∧
           in_buf stream_end ++ under_way stream_end = concat (map frame_bytes rest)) ∧
  (under_way stream_end = [] →
   cut stream_end = stream_frames ∨ ∃ f buf, frame_decode 64 (in_buf stream_end) = (Ok (Some f), buf)).
Proof.
  apply (stream_cut_exactly 64 stream_frames stream_end); [|exact stream_run].
  repeat constructor; vm_compute; discriminate || reflexivity.
Defined.
