(* ===== verification/KafkaEvidence.v ===== *)
(** * Evidence in the headers of dead letters

    [nafka]: types.rs (headers), wire.rs (the names of the framework's headers,
    [dead_letter_headers]), dlt_replay/origin.rs and dlt_replay/evidence.rs.  A
    record that cannot be processed is written to a dead letter topic with
    headers that say where it came from; the record itself is untrusted and may
    carry headers of the same names.  Headers are an ordered list with
    duplicates; a [BTreeMap] is an association list with distinct keys. *)

From Stdlib Require Import ZArith Lia.
From S2P Require Import Prelude Bytes Wire WireLaws.
From stdpp Require Import prelude strings.

Local Open Scope Z_scope.
Local Open Scope rust_scope.

(** ** Headers *)

Record KafkaHeader := mkHeader { h_name : string; h_value : option (list Z) }.
Definition KafkaHeaders : Type := list KafkaHeader.

Definition headers_last (headers : KafkaHeaders) (name : string) : option KafkaHeader :=
  find_first (λ h, String.eqb (h_name h) name) (rev headers).
Definition headers_all (headers : KafkaHeaders) (name : string) : list KafkaHeader :=
  List.filter (λ h, String.eqb (h_name h) name) headers.

(** [str::eq_ignore_ascii_case]. *)
Definition to_ascii_lowercase (b : Z) : Z := if is_ascii_uppercase b then b + 32 else b.
Definition eq_ignore_ascii_case (s t : string) : bool :=
  bool_decide (map to_ascii_lowercase (as_bytes s) = map to_ascii_lowercase (as_bytes t)).

Definition replace_framework_value (headers : KafkaHeaders) (name : string) (value : list Z) : KafkaHeaders :=
  List.filter (λ h, negb (eq_ignore_ascii_case (h_name h) name)) headers ++ [mkHeader name (Some value)].

Definition HEADER_DELIVERY_ATTEMPT : string := "X-Nasa-Delivery-Attempt".
Definition HEADER_DLT_ORIGIN_TOPIC : string := "X-Nasa-DLT-Origin-Topic".
Definition HEADER_DLT_ORIGIN_PARTITION : string := "X-Nasa-DLT-Origin-Partition".
Definition HEADER_DLT_ORIGIN_OFFSET : string := "X-Nasa-DLT-Origin-Offset".
Definition HEADER_DLT_REASON : string := "X-Nasa-DLT-Reason".
Definition HEADER_DLT_DELIVERY_ATTEMPTS : string := "X-Nasa-DLT-Delivery-Attempts".
Definition HEADER_DLT_ORIGIN_GROUP : string := "X-Nasa-Dlt-Origin-Group".
Definition HEADER_DLT_ORIGIN_SOURCE : string := "X-Nasa-DLT-Origin-Source".
Definition HEADER_DLT_ORIGIN_CLUSTER : string := "X-Nasa-DLT-Origin-Cluster".

(** origin.rs, [is_header]. *)
Definition is_origin_header (name : string) : bool :=
  eq_ignore_ascii_case name HEADER_DLT_ORIGIN_SOURCE
  || eq_ignore_ascii_case name HEADER_DLT_ORIGIN_CLUSTER.

Definition is_dead_letter_evidence_header (name : string) : bool :=
  is_origin_header name
  || eq_ignore_ascii_case name HEADER_DELIVERY_ATTEMPT
  || eq_ignore_ascii_case name HEADER_DLT_ORIGIN_TOPIC
  || eq_ignore_ascii_case name HEADER_DLT_ORIGIN_PARTITION
  || eq_ignore_ascii_case name HEADER_DLT_ORIGIN_OFFSET
  || eq_ignore_ascii_case name HEADER_DLT_REASON
  || eq_ignore_ascii_case name HEADER_DLT_DELIVERY_ATTEMPTS
  || eq_ignore_ascii_case name HEADER_DLT_ORIGIN_GROUP.

(** ** Writing the evidence *)

(** [Display] of an integer: its decimal digits, at most twenty, after a sign. *)
Fixpoint digits_loop (fuel : nat) (z : Z) (acc : list Z) : list Z :=
  match fuel with
  | O => acc
  | S fuel' =>
      let acc' := (48 + z mod 10) :: acc in
      if z <? 10 then acc' else digits_loop fuel' (z / 10) acc'
  end.
Definition to_string_int (z : Z) : list Z :=
  if z <? 0 then 45 :: digits_loop 20 (- z) [] else digits_loop 20 z [].

(** [str::is_char_boundary]. *)
Definition is_char_boundary (bs : list Z) (i : nat) : bool :=
  (i =? 0)%nat || (i =? length bs)%nat
  || match bs !! i with Some b => negb (continuation b) | None => false end.

(** [while !is_char_boundary(boundary) { boundary -= 1; }], then the slice. *)
Fixpoint floor_boundary (bs : list Z) (boundary : nat) : nat :=
  if is_char_boundary bs boundary then boundary
  else match boundary with O => O | S boundary' => floor_boundary bs boundary' end.
Definition truncate_utf8_bytes (value : string) (max_bytes : nat) : string :=
  let bs := as_bytes value in
  if (length bs <=? max_bytes)%nat then value
  else string_of_bytes (take (floor_boundary bs max_bytes) bs).

Definition dead_letter_headers (original : KafkaHeaders) (group topic : string)
    (partition offset : Z) (reason : string) (delivery_attempts : Z) : KafkaHeaders :=
  let headers := List.filter (λ h, negb (is_dead_letter_evidence_header (h_name h))) original in
  let delivery_attempts := Z.max delivery_attempts 1 in
  headers ++
  [mkHeader HEADER_DELIVERY_ATTEMPT (Some (to_string_int delivery_attempts));
   mkHeader HEADER_DLT_ORIGIN_TOPIC (Some (as_bytes topic));
   mkHeader HEADER_DLT_ORIGIN_PARTITION (Some (to_string_int partition));
   mkHeader HEADER_DLT_ORIGIN_OFFSET (Some (to_string_int offset));
   mkHeader HEADER_DLT_REASON (Some (as_bytes (truncate_utf8_bytes reason 1024)));
   mkHeader HEADER_DLT_DELIVERY_ATTEMPTS (Some (to_string_int delivery_attempts));
   mkHeader HEADER_DLT_ORIGIN_GROUP (Some (as_bytes group))].

(** ** Origin *)

(** The errors of dlt_replay.rs that occur here. *)
Inductive DltReplayError :=
| InvalidConfiguration
| HeaderInvalid.

Record DltOrigin := mkOrigin { source_id : string; cluster_id : string }.

Definition contains_nul (s : string) : bool := existsb (λ b, b =? 0) (as_bytes s).

Definition origin_field_ok (value : string) : bool :=
  negb ((str_len value =? 0) || (1024 <? str_len value) || contains_nul value).
Definition DltOrigin_validate (o : DltOrigin) : result unit DltReplayError :=
  if forallb origin_field_ok [source_id o; cluster_id o] then Ok tt else Err InvalidConfiguration.

Definition attach (o : DltOrigin) (headers : KafkaHeaders) : result KafkaHeaders DltReplayError :=
  try? DltOrigin_validate o in
  Ok (List.filter (λ h, negb (is_origin_header (h_name h))) headers ++
      [mkHeader HEADER_DLT_ORIGIN_SOURCE (Some (as_bytes (source_id o)));
       mkHeader HEADER_DLT_ORIGIN_CLUSTER (Some (as_bytes (cluster_id o)))]).

(** A [BTreeMap] by name. *)
Definition BTree (A : Type) : Type := list (string * A).
Fixpoint bt_get {A} (name : string) (m : BTree A) : option A :=
  match m with
  | [] => None
  | (n, x) :: m' => if String.eqb n name then Some x else bt_get name m'
  end.

Definition MAX_HEADER_BYTES : Z := 65536.
Definition MAX_HEADERS : Z := 256.

(** The size of one header, and the limits both readers check as they go. *)
Definition header_size (h : KafkaHeader) : Z := str_len (h_name h) + default 0 (slice_len <$> h_value h).
Definition size_with (size : Z) (h : KafkaHeader) : option Z :=
  n ← u64_checked_add size (str_len (h_name h));
  u64_checked_add n (default 0 (slice_len <$> h_value h)).

Definition origin_field (fields : BTree string) (h : KafkaHeader) : result (BTree string) DltReplayError :=
  if negb (is_origin_header (h_name h)) then Ok fields
  else if negb (String.eqb (h_name h) HEADER_DLT_ORIGIN_SOURCE
                || String.eqb (h_name h) HEADER_DLT_ORIGIN_CLUSTER)
       || bool_decide (is_Some (bt_get (h_name h) fields))
  then Err HeaderInvalid
  else
    let? bytes := ok_or (h_value h) HeaderInvalid in
    ensure negb (1024 <? slice_len bytes) else HeaderInvalid in
    let? s := ok_or (from_utf8 bytes) HeaderInvalid in
    Ok ((h_name h, s) :: fields).

(** [for (index, header) in headers.iter().enumerate()]. *)
Fixpoint scan {A} (step : A → KafkaHeader → result A DltReplayError) (index size : Z) (acc : A)
    (headers : KafkaHeaders) : result A DltReplayError :=
  match headers with
  | [] => Ok acc
  | h :: rest =>
      let? size' := ok_or (size_with size h) HeaderInvalid in
      if (MAX_HEADERS <=? index) || (MAX_HEADER_BYTES <? size') then Err HeaderInvalid
      else
        let? acc' := step acc h in
        scan step (index + 1) size' acc' rest
  end.

Definition DltOrigin_read (headers : KafkaHeaders) : result (option DltOrigin) DltReplayError :=
  let? fields := scan origin_field 0 0 [] headers in
  match fields with
  | [] => Ok None
  | _ =>
      ensure (length fields =? 2)%nat else HeaderInvalid in
      let? src := ok_or (bt_get HEADER_DLT_ORIGIN_SOURCE fields) HeaderInvalid in
      let? cl := ok_or (bt_get HEADER_DLT_ORIGIN_CLUSTER fields) HeaderInvalid in
      let o := mkOrigin src cl in
      try? map_err (λ _, HeaderInvalid) (DltOrigin_validate o) in
      Ok (Some o)
  end.

(** ** Evidence *)

Definition FIELDS : list string :=
  [HEADER_DLT_ORIGIN_TOPIC; HEADER_DLT_ORIGIN_PARTITION; HEADER_DLT_ORIGIN_OFFSET;
   HEADER_DLT_ORIGIN_GROUP; HEADER_DLT_REASON; HEADER_DLT_DELIVERY_ATTEMPTS].

Record DltEvidence := mkEvidence {
  ev_origin_topic : string;
  ev_origin_partition : Z;
  ev_origin_offset : Z;
  ev_origin_group : string;
  ev_reason : string;
  ev_delivery_attempts : Z;
  ev_origin : option DltOrigin }.

(** checkpoint.rs, [ReplayPosition::validate]. *)
Definition topic_byte (b : Z) : bool :=
  is_ascii_alphanumeric b || (b =? 46) || (b =? 95) || (b =? 45).
Definition position_ok (topic : string) (partition start end_ next : Z) : bool :=
  negb ((str_len topic =? 0) || (249 <? str_len topic)
        || (String.eqb topic "." || String.eqb topic "..")
        || negb (forallb topic_byte (as_bytes topic))
        || (partition <? 0) || (start <? 0) || (end_ <? start) || (next <? start) || (end_ <? next)).

Definition DltEvidence_validate (e : DltEvidence) : result unit DltReplayError :=
  try? match ev_origin e with Some o => DltOrigin_validate o | None => Ok tt end in
  ensure negb (249 <? str_len (ev_origin_topic e)) else InvalidConfiguration in
  ensure position_ok (ev_origin_topic e) (ev_origin_partition e) (ev_origin_offset e)
           (ev_origin_offset e) (ev_origin_offset e) else InvalidConfiguration in
  ensure negb ((str_len (ev_origin_group e) =? 0) || (1024 <? str_len (ev_origin_group e))
               || (1024 <? str_len (ev_reason e)) || (ev_delivery_attempts e <? 1))
    else InvalidConfiguration in
  Ok tt.

(** [for name in FIELDS]: an alias, a second value and a null are refused. *)
Fixpoint evidence_names (names : list string) (fields : BTree (list Z)) (h : KafkaHeader)
  : result (BTree (list Z)) DltReplayError :=
  match names with
  | [] => Ok fields
  | name :: rest =>
      if negb (eq_ignore_ascii_case (h_name h) name) then evidence_names rest fields h
      else if negb (String.eqb (h_name h) name) then Err HeaderInvalid
      else
        let? bytes := ok_or (h_value h) HeaderInvalid in
        if bool_decide (is_Some (bt_get name fields)) then Err HeaderInvalid
        else evidence_names rest ((name, bytes) :: fields) h
  end.
Definition evidence_field : BTree (list Z) → KafkaHeader → result (BTree (list Z)) DltReplayError :=
  evidence_names FIELDS.

Fixpoint decimal_loop (max value : Z) (bytes : list Z) : result Z DltReplayError :=
  match bytes with
  | [] => Ok value
  | b :: rest =>
      if negb (is_ascii_digit b) then Err HeaderInvalid
      else
        let digit := b - 48 in
        if Z.quot (max - digit) 10 <? value then Err HeaderInvalid
        else decimal_loop max (value * 10 + digit) rest
  end.
Definition decimal (bytes : list Z) (max : Z) (zero : bool) : result Z DltReplayError :=
  if (slice_len bytes =? 0) || (19 <? slice_len bytes)
     || (1 <? slice_len bytes) && bool_decide (head bytes = Some 48)
  then Err HeaderInvalid
  else
    let? value := decimal_loop max 0 bytes in
    if negb zero && (value =? 0) then Err HeaderInvalid else Ok value.

Definition evidence_text (bytes : list Z) (max : Z) (empty : bool) : result string DltReplayError :=
  if (max <? slice_len bytes) || negb empty && (slice_len bytes =? 0) then Err HeaderInvalid
  else ok_or (from_utf8 bytes) HeaderInvalid.

Definition I32_MAX : Z := 2 ^ 31 - 1.

(** The current attempt: at most one, with its exact name and a positive number. *)
Fixpoint current_attempts (seen : bool) (headers : KafkaHeaders) : result unit DltReplayError :=
  match headers with
  | [] => Ok tt
  | h :: rest =>
      if negb (eq_ignore_ascii_case (h_name h) HEADER_DELIVERY_ATTEMPT) then current_attempts seen rest
      else if seen || negb (String.eqb (h_name h) HEADER_DELIVERY_ATTEMPT) then Err HeaderInvalid
      else
        let? bytes := ok_or (h_value h) HeaderInvalid in
        try? decimal bytes U32_MAX false in
        current_attempts true rest
  end.

(** [fields[name]]: the six distinct names are there when their number is. *)
Definition evidence_at (fields : BTree (list Z)) (name : string) : result (list Z) DltReplayError :=
  ok_or (bt_get name fields) HeaderInvalid.

Definition DltEvidence_read (headers : KafkaHeaders) : result (option DltEvidence) DltReplayError :=
  let? fields := scan evidence_field 0 0 [] headers in
  let? origin := DltOrigin_read headers in
  match fields with
  | [] => match origin with Some _ => Err HeaderInvalid | None => Ok None end
  | _ =>
      ensure (length fields =? 6)%nat else HeaderInvalid in
      try? current_attempts false headers in
      let? f0 := evidence_at fields HEADER_DLT_ORIGIN_TOPIC in
      let? topic := evidence_text f0 249 false in
      let? f1 := evidence_at fields HEADER_DLT_ORIGIN_PARTITION in
      let? partition := decimal f1 I32_MAX true in
      let? f2 := evidence_at fields HEADER_DLT_ORIGIN_OFFSET in
      let? offset := decimal f2 I64_MAX true in
      let? f3 := evidence_at fields HEADER_DLT_ORIGIN_GROUP in
      let? group := evidence_text f3 1024 false in
      let? f4 := evidence_at fields HEADER_DLT_REASON in
      let? reason := evidence_text f4 1024 true in
      let? f5 := evidence_at fields HEADER_DLT_DELIVERY_ATTEMPTS in
      let? attempts := decimal f5 U32_MAX false in
      let e := mkEvidence topic partition offset group reason attempts origin in
      try? map_err (λ _, HeaderInvalid) (DltEvidence_validate e) in
      Ok (Some e)
  end.
