(* ===== verification/KafkaEvidenceLaws.v ===== *)
(** * What dead letter evidence guarantees

    Canonical decimals, truncation at character boundaries, and the readers on
    headers that others wrote. *)

From Stdlib Require Import ZArith Lia.
From S2P Require Import Prelude Bytes Wire WireLaws KafkaEvidence.
From stdpp Require Import prelude strings.

Local Open Scope Z_scope.
Local Open Scope rust_scope.

(** ** Decimals *)

Definition digits (z : Z) : list Z := digits_loop 20 z [].

Lemma digits_loop_app fuel z acc : digits_loop fuel z acc = digits_loop fuel z [] ++ acc.
Proof.
  revert z acc. induction fuel as [|fuel IH]; intros z acc; simpl; [done|].
  destruct (z <? 10); [done|]. rewrite IH, (IH _ [_]). by rewrite <- app_assoc.
Qed.

Lemma digits_step fuel z : 10 ≤ z →
  digits_loop (S fuel) z [] = digits_loop fuel (z / 10) [] ++ [48 + z mod 10].
Proof.
  intros Hz. cbn [digits_loop]. assert ((z <? 10) = false) as -> by lia. apply digits_loop_app.
Qed.

Lemma digits_small fuel z : z < 10 → digits_loop (S fuel) z [] = [48 + z mod 10].
Proof. intros Hz. cbn [digits_loop]. assert ((z <? 10) = true) as -> by lia. done. Qed.

Lemma digits_fuel fuel z :
  0 ≤ z < 10 ^ Z.of_nat fuel → digits_loop (S fuel) z [] = digits_loop fuel z [] ∨ fuel = O.
Proof.
  revert z. induction fuel as [|fuel IH]; intros z Hz; [by right|left].
  rewrite Nat2Z.inj_succ, Z.pow_succ_r in Hz by lia.
  destruct (decide (10 ≤ z)).
  - rewrite (digits_step (S fuel) z), (digits_step fuel z) by done. f_equal.
    destruct (IH (z / 10)) as [E| ->]; [|exact E|].
    + split; [apply Z.div_pos; lia|apply Z.div_lt_upper_bound; lia].
    + simpl in Hz. lia.
  - by rewrite (digits_small (S fuel) z), (digits_small fuel z) by lia.
Qed.

(** One digit more. *)
Lemma digits_snoc v d :
  1 ≤ v → 0 ≤ d < 10 → v * 10 + d < 10 ^ 20 → digits (v * 10 + d) = digits v ++ [48 + d].
Proof.
  intros Hv Hd Hlt. unfold digits. rewrite digits_step by lia.
  replace ((v * 10 + d) / 10) with v by (apply (Z.div_unique _ _ _ d); lia).
  replace ((v * 10 + d) mod 10) with d by (apply (Z.mod_unique _ _ v); lia).
  destruct (digits_fuel 19 v) as [->|]; [|done|done].
  change (Z.of_nat 19) with 19. change (10 ^ 20) with (10 * 10 ^ 19) in Hlt. lia.
Qed.

Lemma digits_one d : 0 ≤ d < 10 → digits d = [48 + d].
Proof. intros Hd. unfold digits. rewrite digits_small by lia. by rewrite Z.mod_small. Qed.

Lemma decimal_loop_app max v bs cs :
  decimal_loop max v (bs ++ cs) = result_bind (decimal_loop max v bs) (λ w, decimal_loop max w cs).
Proof.
  revert v. induction bs as [|b bs IH]; intros v; simpl; [done|].
  destruct (negb _); [done|]. destruct (_ <? _); [done|]. apply IH.
Qed.

Lemma decimal_digit max v d :
  0 ≤ d < 10 → 0 ≤ v → v * 10 + d ≤ max → decimal_loop max v [48 + d] = Ok (v * 10 + d).
Proof.
  intros Hd Hv Hm. simpl. unfold is_ascii_digit.
  assert ((48 <=? 48 + d) && (48 + d <=? 57) = true) as -> by lia. cbn [negb].
  replace (48 + d - 48) with d by lia.
  assert ((Z.quot (max - d) 10 <? v) = false) as ->; [|done].
  apply Z.ltb_ge. rewrite Z.quot_div_nonneg by lia. apply Z.div_le_lower_bound; lia.
Qed.

Lemma decimal_loop_digits max fuel z :
  0 ≤ z ≤ max → z < 10 ^ Z.of_nat fuel → (1 ≤ fuel)%nat →
  decimal_loop max 0 (digits_loop fuel z []) = Ok z.
Proof.
  revert z. induction fuel as [|fuel IH]; intros z Hz Hlt Hf; [lia|].
  rewrite Nat2Z.inj_succ, Z.pow_succ_r in Hlt by lia.
  pose proof (Z.div_mod z 10) as Hdm. pose proof (Z.mod_pos_bound z 10).
  destruct (decide (10 ≤ z)).
  - rewrite digits_step, decimal_loop_app by done. destruct fuel as [|fuel]; [simpl in Hlt; lia|].
    rewrite IH; [|split; [apply Z.div_pos; lia|lia]|apply Z.div_lt_upper_bound; lia|lia].
    cbn [result_bind]. rewrite decimal_digit; [f_equal; lia|lia|apply Z.div_pos; lia|lia].
  - rewrite digits_small by lia. rewrite (Z.mod_small z) by lia. rewrite decimal_digit by lia. done.
Qed.

(** The canonical form: no more than nineteen digits, no leading zero. *)
Lemma digits_length fuel z k :
  0 ≤ z < 10 ^ Z.of_nat k → (1 ≤ k)%nat → (length (digits_loop fuel z []) ≤ k)%nat.
Proof.
  revert z k. induction fuel as [|fuel IH]; intros z k Hz Hk; [simpl; lia|].
  destruct (decide (10 ≤ z)); [|rewrite digits_small by lia; simpl; lia].
  rewrite digits_step, length_app by done. simpl. destruct k as [|k]; [lia|].
  rewrite Nat2Z.inj_succ, Z.pow_succ_r in Hz by lia. destruct k as [|k]; [simpl in Hz; lia|].
  specialize (IH (z / 10) (S k)).
  assert (0 ≤ z / 10 < 10 ^ Z.of_nat (S k)) by (split; [apply Z.div_pos|apply Z.div_lt_upper_bound]; lia).
  lia.
Qed.

Lemma digits_head fuel z :
  1 ≤ z < 10 ^ Z.of_nat fuel → ∃ d rest, digits_loop fuel z [] = (48 + d) :: rest ∧ 1 ≤ d < 10.
Proof.
  revert z. induction fuel as [|fuel IH]; intros z Hz; [simpl in Hz; lia|].
  rewrite Nat2Z.inj_succ, Z.pow_succ_r in Hz by lia. destruct (decide (10 ≤ z)).
  - rewrite digits_step by done. destruct (IH (z / 10)) as (d & rest & -> & Hd).
    + split; [apply Z.div_le_lower_bound|apply Z.div_lt_upper_bound]; lia.
    + exists d, (rest ++ [48 + z mod 10]). split; [done|lia].
  - rewrite digits_small by lia. exists z, []. rewrite Z.mod_small by lia. split; [done|lia].
Qed.

Lemma decimal_digits z max zero :
  0 ≤ z ≤ max → max ≤ I64_MAX → (zero = true ∨ 1 ≤ z) → decimal (digits z) max zero = Ok z.
Proof.
  intros Hz Hm Hzero. unfold I64_MAX in Hm. unfold decimal, digits.
  assert (z < 10 ^ 19) as H19 by lia.
  pose proof (digits_length 20 z 19) as Hlen. change (Z.of_nat 19) with 19 in Hlen.
  specialize (Hlen (conj (proj1 Hz) H19) ltac:(lia)).
  assert (∃ b rest, digits_loop 20 z [] = b :: rest ∧ (b = 48 → rest = [])) as (b & rest & E & Hb).
  { destruct (decide (z = 0)) as [->|]; [by exists 48, []|].
    destruct (digits_head 20 z) as (d & rest & -> & Hd); [change (Z.of_nat 20) with 20; lia|].
    exists (48 + d), rest. split; [done|lia]. }
  rewrite decimal_loop_digits; [|lia|change (Z.of_nat 20) with 20; lia|lia].
  rewrite E in *. unfold slice_len. simpl length in *.
  assert ((Z.of_nat (S (length rest)) =? 0) = false) as -> by (apply Z.eqb_neq; lia).
  assert ((19 <? Z.of_nat (S (length rest))) = false) as -> by (apply Z.ltb_ge; lia).
  assert ((1 <? Z.of_nat (S (length rest))) && bool_decide (head (b :: rest) = Some 48) = false) as ->.
  { destruct (decide (b = 48)) as [->|Hne].
    - rewrite (Hb eq_refl). done.
    - rewrite bool_decide_eq_false_2 by (simpl; congruence). by rewrite andb_false_r. }
  cbn [orb result_bind]. destruct Hzero as [->|Hpos]; [done|].
  assert ((z =? 0) = false) as -> by lia. by rewrite andb_false_r.
Qed.

Lemma decimal_loop_canonical max v bs n :
  1 ≤ v → 9 ≤ max ≤ I64_MAX → decimal_loop max v bs = Ok n → digits n = digits v ++ bs ∧ v ≤ n ∧ (v ≤ max → n ≤ max).
Proof.
  intros Hv Hm. revert v Hv. induction bs as [|b bs IH]; intros v Hv H; simpl in H.
  { injection H as <-. rewrite app_nil_r. split; [done|lia]. }
  unfold is_ascii_digit in H. destruct ((48 <=? b) && (b <=? 57)) eqn:Hb; [|done]. cbn [negb] in H.
  destruct (Z.quot (max - (b - 48)) 10 <? v) eqn:Hle; [done|].
  assert (v * 10 + (b - 48) ≤ max) as Hbound.
  { apply Z.ltb_ge in Hle. rewrite Z.quot_div_nonneg in Hle by lia. pose proof (Z.mul_div_le (max - (b - 48)) 10). lia. }
  destruct (IH (v * 10 + (b - 48))) as (Hd & Hge & Hmax); [lia|done|].
  rewrite Hd, digits_snoc by (unfold I64_MAX in *; lia).
  rewrite <- app_assoc. split; [|lia]. simpl. do 2 f_equal. lia.
Qed.

(** Exactly the canonical decimals within the bound are accepted. *)
Lemma decimal_exact bs max zero n :
  9 ≤ max ≤ I64_MAX →
  decimal bs max zero = Ok n ↔ 0 ≤ n ≤ max ∧ (zero = true ∨ 1 ≤ n) ∧ bs = digits n.
Proof.
  intros Hm. split; [|intros (Hn & Hz & ->); apply decimal_digits; lia || done].
  unfold decimal. destruct (_ || _) eqn:E; [done|].
  apply orb_false_elim in E as [[E1 E2]%orb_false_elim E3].
  intros H. apply result_bind_Ok in H as (v & Hv & H).
  destruct (negb zero && (v =? 0)) eqn:Hzero; [done|]. injection H as <-.
  destruct bs as [|b bs]; [done|]. simpl in Hv. unfold is_ascii_digit in Hv.
  destruct ((48 <=? b) && (b <=? 57)) eqn:Hb; [|done]. cbn [negb] in Hv.
  destruct (Z.quot (max - (b - 48)) 10 <? 0) eqn:Hle; [done|].
  assert (b - 48 ≤ max) as Hbound.
  { apply Z.ltb_ge in Hle. rewrite Z.quot_div_nonneg in Hle by lia. pose proof (Z.mul_div_le (max - (b - 48)) 10). lia. }
  destruct (decide (b = 48)) as [->|Hne].
  - destruct bs as [|c bs]; cycle 1.
    { unfold slice_len in E3. simpl in E3. apply andb_false_iff in E3 as [E3|E3]; [|done].
      apply Z.ltb_ge in E3. lia. }
    simpl in Hv. injection Hv as <-. destruct zero; [|done]. split_and!; [lia..|by left|done].
  - apply decimal_loop_canonical in Hv as (Hd & Hge & Hmax); [|lia|lia].
    rewrite (digits_one (0 * 10 + (b - 48))) in Hd by lia. split_and!; [lia..|right; lia|]. rewrite Hd. simpl. f_equal. lia.
Qed.

(** ** Truncation *)

Lemma floor_boundary_spec bs n :
  is_char_boundary bs (floor_boundary bs n) = true ∧ (floor_boundary bs n ≤ n)%nat.
Proof.
  induction n as [|n IH]; cbn [floor_boundary].
  - assert (is_char_boundary bs 0 = true) as -> by done. by split.
  - destruct (is_char_boundary bs (S n)) eqn:E; [split; [done|lia]|]. split; [apply IH|lia].
Qed.

(** Valid text starts with a scalar: one byte, then continuation bytes. *)
Lemma utf8_scalar bs :
  utf8_valid bs = true → bs ≠ [] →
  ∃ b c r, bs = (b :: c) ++ r ∧ utf8_valid r = true ∧ forallb continuation c = true ∧
    ∀ x, utf8_valid x = true → utf8_valid ((b :: c) ++ x) = true.
Proof.
  intros Hv Hne. destruct bs as [|b0 r0]; [done|]. cbn [utf8_valid] in Hv.
  destruct (b0 <? 128) eqn:E0.
  { exists b0, [], r0. split_and!; [done..|]. intros x Hx. cbn [app utf8_valid]. by rewrite E0. }
  destruct r0 as [|b1 r1]; [done|]. destruct ((194 <=? b0) && (b0 <=? 223)) eqn:E1.
  { apply andb_prop in Hv as [H1 Hr]. exists b0, [b1], r1. split_and!; [done..| |].
    - simpl. by rewrite H1.
    - intros x Hx. cbn [app utf8_valid]. by rewrite E0, E1, H1, Hx. }
  destruct r1 as [|b2 r2]; [done|]. destruct ((224 <=? b0) && (b0 <=? 239)) eqn:E2.
  { apply andb_prop in Hv as [[H1 H2]%andb_prop Hr]. exists b0, [b1; b2], r2. split_and!; [done..| |].
    - simpl. rewrite H2. unfold second3, continuation in *. destruct (b0 =? 224), (b0 =? 237); lia.
    - intros x Hx. cbn [app utf8_valid]. by rewrite E0, E1, E2, H1, H2, Hx. }
  destruct r2 as [|b3 r3]; [done|].
  apply andb_prop in Hv as [[[[E3 H1]%andb_prop H2]%andb_prop H3]%andb_prop Hr].
  exists b0, [b1; b2; b3], r3. split_and!; [done..| |].
  - simpl. rewrite H2, H3. unfold second4, continuation in *. destruct (b0 =? 240), (b0 =? 244); lia.
  - intros x Hx. cbn [app utf8_valid]. by rewrite E0, E1, E2, E3, H1, H2, H3, Hx.
Qed.

Lemma boundary_utf8 n bs i :
  (length bs ≤ n)%nat → utf8_valid bs = true → (i ≤ length bs)%nat →
  is_char_boundary bs i = true → utf8_valid (take i bs) = true.
Proof.
  revert bs i. induction n as [|n IH]; intros bs i Hn Hv Hi Hb.
  { destruct bs; [by destruct i|simpl in Hn; lia]. }
  destruct i as [|i]; [done|].
  destruct (utf8_scalar bs Hv) as (b & c & r & -> & Hr & Hc & Hx); [by destruct bs|].
  rewrite length_app in Hn, Hi. simpl in Hn, Hi. destruct (decide (i < length c)%nat) as [Hlt|Hge].
  - exfalso. unfold is_char_boundary in Hb. change (S i =? 0)%nat with false in Hb. rewrite orb_false_l in Hb.
    destruct (lookup_lt_is_Some_2 c i Hlt) as [d Hd].
    assert (((b :: c) ++ r) !! S i = Some d) as Ed by (simpl; by rewrite lookup_app_l).
    rewrite Ed in Hb. rewrite (proj1 (forallb_elem_of _ _) Hc d) in Hb by by eapply list_elem_of_lookup_2.
    rewrite orb_false_r in Hb. apply Nat.eqb_eq in Hb. rewrite length_app in Hb. simpl in Hb. lia.
  - replace (S i) with (length (b :: c) + (i - length c))%nat by (simpl; lia).
    rewrite take_app_add. apply Hx. apply IH; [lia|done|lia|].
    unfold is_char_boundary in *. change (S i =? 0)%nat with false in Hb.
    rewrite orb_false_l, length_app in Hb.
    destruct (decide (i - length c = 0)%nat) as [E|E]; [by rewrite E|].
    apply orb_true_iff in Hb as [Hb|Hb].
    + apply Nat.eqb_eq in Hb. simpl in Hb. assert ((i - length c =? length r)%nat = true) as ->
        by (apply Nat.eqb_eq; lia). by rewrite orb_true_r.
    + rewrite lookup_app_r in Hb by (simpl; lia). simpl in Hb.
      rewrite Hb. by rewrite orb_true_r.
Qed.

Lemma truncate_ok s n :
  str_ok s = true →
  str_ok (truncate_utf8_bytes s n) = true ∧ (String.length (truncate_utf8_bytes s n) ≤ n)%nat ∧
  ∃ k, as_bytes (truncate_utf8_bytes s n) = take k (as_bytes s).
Proof.
  intros Hok. unfold truncate_utf8_bytes. destruct (_ <=? n)%nat eqn:E.
  - apply Nat.leb_le in E. rewrite <- length_as_bytes. split_and!; [done..|].
    exists (length (as_bytes s)). by rewrite firstn_all.
  - apply Nat.leb_gt in E. destruct (floor_boundary_spec (as_bytes s) n) as [Hb Hle].
    assert (Forall is_byte (take (floor_boundary (as_bytes s) n) (as_bytes s))) as Hbytes
      by apply Forall_take, as_bytes_range.
    unfold str_ok. rewrite <- length_as_bytes, as_bytes_of_bytes by done. split_and!.
    + by eapply boundary_utf8; [| |lia|].
    + rewrite length_take. lia.
    + eauto.
Qed.

(** ** Scanning *)

Definition total_size (headers : KafkaHeaders) : Z := foldr (λ h s, header_size h + s) 0 headers.
Definition within_limits (headers : KafkaHeaders) : Prop :=
  Z.of_nat (length headers) ≤ MAX_HEADERS ∧ total_size headers ≤ MAX_HEADER_BYTES.

Fixpoint steps {A} (step : A → KafkaHeader → result A DltReplayError) (acc : A)
    (headers : KafkaHeaders) : result A DltReplayError :=
  match headers with
  | [] => Ok acc
  | h :: rest => let? acc' := step acc h in steps step acc' rest
  end.

Lemma steps_app {A} (step : A → KafkaHeader → result A DltReplayError) acc hs ks :
  steps step acc (hs ++ ks) = result_bind (steps step acc hs) (λ acc', steps step acc' ks).
Proof.
  revert acc. induction hs as [|h hs IH]; intros acc; simpl; [done|].
  destruct (step acc h); simpl; [apply IH|done].
Qed.

Lemma steps_skip {A} (step : A → KafkaHeader → result A DltReplayError) acc hs :
  (∀ h, h ∈ hs → step acc h = Ok acc) → steps step acc hs = Ok acc.
Proof.
  induction hs as [|h hs IH]; intros H; simpl; [done|]. rewrite H by left. simpl.
  apply IH. intros h' Hh'. apply H. by right.
Qed.

Lemma header_size_nonneg h : 0 ≤ str_len (h_name h) ∧ 0 ≤ default 0 (slice_len <$> h_value h).
Proof. split; [apply str_len_nonneg|]. destruct (h_value h); [apply slice_len_nonneg|done]. Qed.

Lemma total_size_nonneg hs : 0 ≤ total_size hs.
Proof.
  induction hs as [|h hs IH]; simpl; [done|]. pose proof (header_size_nonneg h).
  unfold header_size. lia.
Qed.

Lemma scan_within {A} (step : A → KafkaHeader → result A DltReplayError) index size acc hs :
  0 ≤ size → index + Z.of_nat (length hs) ≤ MAX_HEADERS → size + total_size hs ≤ MAX_HEADER_BYTES →
  scan step index size acc hs = steps step acc hs.
Proof.
  unfold MAX_HEADERS, MAX_HEADER_BYTES.
  revert index size acc. induction hs as [|h hs IH]; intros index size acc Hs Hi Ht; [done|].
  cbn [scan steps length total_size foldr] in *. fold (total_size hs) in Ht.
  pose proof (header_size_nonneg h) as [Hn Hv]. pose proof (total_size_nonneg hs).
  assert (size_with size h = Some (size + header_size h)) as ->.
  { unfold size_with, u64_checked_add, header_size in *.
    rewrite (proj2 (is_u64_spec (size + _))) by lia. simpl.
    rewrite (proj2 (is_u64_spec (size + _ + _))) by lia. f_equal. lia. }
  cbn [ok_or result_bind]. unfold MAX_HEADERS, MAX_HEADER_BYTES.
  assert ((256 <=? index) || (65536 <? size + header_size h) = false) as ->.
  { apply orb_false_iff. rewrite Z.leb_gt, Z.ltb_ge. lia. }
  destruct (step acc h) as [acc'|e]; [|done]. cbn [result_bind].
  apply IH; [unfold header_size; lia|lia|lia].
Qed.

Lemma scan_limits {A} (step : A → KafkaHeader → result A DltReplayError) acc hs :
  within_limits hs → scan step 0 0 acc hs = steps step acc hs.
Proof. intros [Hn Hs]. apply scan_within; lia. Qed.

Lemma scan_accepts {A} (step : A → KafkaHeader → result A DltReplayError) index size acc acc' hs :
  scan step index size acc hs = Ok acc' →
  hs = [] ∨ (index + Z.of_nat (length hs) ≤ MAX_HEADERS ∧ size + total_size hs ≤ MAX_HEADER_BYTES).
Proof.
  revert index size acc. induction hs as [|h hs IH]; intros index size acc; [by left|]. simpl.
  intros (size' & Hsize%ok_or_Ok & Hr)%result_bind_Ok. right.
  destruct ((MAX_HEADERS <=? index) || (MAX_HEADER_BYTES <? size')) eqn:E; [done|].
  apply orb_false_iff in E as [Hi%Z.leb_gt Hs%Z.ltb_ge].
  apply result_bind_Ok in Hr as (acc1 & _ & Hr%IH).
  assert (size' = size + header_size h) as ->.
  { unfold size_with, u64_checked_add, header_size in *. destruct (is_u64 (size + _)); [|done]. simpl in Hsize.
    destruct (is_u64 _); [|done]. injection Hsize as <-. lia. }
  destruct Hr as [->|[Hn Ht]]; simpl in *; lia.
Qed.

(** A reader refuses headers beyond its limits. *)
Lemma read_over_limits headers : ¬ within_limits headers → ∃ e, DltEvidence_read headers = Err e.
Proof.
  intros Hover. unfold DltEvidence_read.
  destruct (scan evidence_field 0 0 [] headers) as [fields|e] eqn:E; [|by exists e].
  apply scan_accepts in E as [->|Hlim]; destruct Hover; [by vm_compute|exact Hlim].
Qed.

(** ** Headers that are not evidence *)

Lemma not_evidence name :
  is_dead_letter_evidence_header name = false →
  is_origin_header name = false ∧ eq_ignore_ascii_case name HEADER_DELIVERY_ATTEMPT = false ∧
  Forall (λ f, eq_ignore_ascii_case name f = false) FIELDS.
Proof.
  unfold is_dead_letter_evidence_header. rewrite !orb_false_iff.
  intros [[[[[[[? ?] ?] ?] ?] ?] ?] ?]. split_and!; [done..|]. repeat constructor; done.
Qed.

Lemma evidence_names_skip names fields h :
  Forall (λ f, eq_ignore_ascii_case (h_name h) f = false) names → evidence_names names fields h = Ok fields.
Proof. induction 1 as [|f names Hf _ IH]; simpl; [done|]. by rewrite Hf. Qed.

Definition business (headers : KafkaHeaders) : KafkaHeaders :=
  List.filter (λ h, negb (is_dead_letter_evidence_header (h_name h))) headers.

Lemma business_elem h hs : h ∈ business hs → is_dead_letter_evidence_header (h_name h) = false.
Proof. intros [_ H]%filter_elem_of. by apply negb_true_iff in H. Qed.

Lemma business_fields hs : steps evidence_field [] (business hs) = Ok [].
Proof.
  apply steps_skip. intros h Hh%business_elem. apply evidence_names_skip.
  by apply not_evidence in Hh as (_ & _ & ?).
Qed.

Lemma business_origin hs : steps origin_field [] (business hs) = Ok [].
Proof.
  apply steps_skip. intros h Hh%business_elem. unfold origin_field.
  by apply not_evidence in Hh as (-> & _ & _).
Qed.

Lemma current_attempts_app seen hs ks :
  (∀ h, h ∈ hs → eq_ignore_ascii_case (h_name h) HEADER_DELIVERY_ATTEMPT = false) →
  current_attempts seen (hs ++ ks) = current_attempts seen ks.
Proof.
  induction hs as [|h hs IH]; intros H; simpl; [done|]. rewrite (H h) by left. simpl.
  apply IH. intros h' Hh'. apply H. by right.
Qed.

(** ** The evidence the consumer writes *)

(** The seven headers, for given values. *)
Definition evidence_headers (attempt topic partition offset reason attempts group : list Z) : KafkaHeaders :=
  [mkHeader HEADER_DELIVERY_ATTEMPT (Some attempt);
   mkHeader HEADER_DLT_ORIGIN_TOPIC (Some topic);
   mkHeader HEADER_DLT_ORIGIN_PARTITION (Some partition);
   mkHeader HEADER_DLT_ORIGIN_OFFSET (Some offset);
   mkHeader HEADER_DLT_REASON (Some reason);
   mkHeader HEADER_DLT_DELIVERY_ATTEMPTS (Some attempts);
   mkHeader HEADER_DLT_ORIGIN_GROUP (Some group)].
Definition origin_headers (src cl : list Z) : KafkaHeaders :=
  [mkHeader HEADER_DLT_ORIGIN_SOURCE (Some src); mkHeader HEADER_DLT_ORIGIN_CLUSTER (Some cl)].

Definition six_fields (t p o r n g : list Z) : BTree (list Z) :=
  [(HEADER_DLT_ORIGIN_GROUP, g); (HEADER_DLT_DELIVERY_ATTEMPTS, n); (HEADER_DLT_REASON, r);
   (HEADER_DLT_ORIGIN_OFFSET, o); (HEADER_DLT_ORIGIN_PARTITION, p); (HEADER_DLT_ORIGIN_TOPIC, t)].

Lemma evidence_fields a t p o r n g :
  steps evidence_field [] (evidence_headers a t p o r n g) = Ok (six_fields t p o r n g).
Proof. vm_compute. reflexivity. Qed.

Lemma evidence_no_origin a t p o r n g acc :
  steps origin_field acc (evidence_headers a t p o r n g) = Ok acc.
Proof. vm_compute. reflexivity. Qed.

Lemma origin_no_evidence src cl acc : steps evidence_field acc (origin_headers src cl) = Ok acc.
Proof. vm_compute. reflexivity. Qed.

Lemma origin_fields src cl :
  slice_len src ≤ 1024 → slice_len cl ≤ 1024 →
  steps origin_field [] (origin_headers src cl) =
  (let? s := ok_or (from_utf8 src) HeaderInvalid in
   let? c := ok_or (from_utf8 cl) HeaderInvalid in
   Ok [(HEADER_DLT_ORIGIN_CLUSTER, c); (HEADER_DLT_ORIGIN_SOURCE, s)]).
Proof.
  intros Hs Hc. unfold origin_headers. cbn [steps].
  assert (∀ fields name bytes, is_origin_header name = true →
    String.eqb name HEADER_DLT_ORIGIN_SOURCE || String.eqb name HEADER_DLT_ORIGIN_CLUSTER = true →
    bt_get name fields = None → slice_len bytes ≤ 1024 →
    origin_field fields (mkHeader name (Some bytes)) =
    (let? s := ok_or (from_utf8 bytes) HeaderInvalid in Ok ((name, s) :: fields))) as Hstep.
  { intros fields name bytes Ho Hn Hg Hl. unfold origin_field. cbn [h_name h_value].
    rewrite Ho, Hn, Hg. cbn [negb orb]. rewrite bool_decide_eq_false_2 by (by intros []).
    cbn [ok_or result_bind]. assert ((1024 <? slice_len bytes) = false) as -> by lia. done. }
  rewrite Hstep by (done || by vm_compute). destruct (from_utf8 src) as [s|]; [|done]. cbn [ok_or result_bind].
  rewrite Hstep by (done || by vm_compute). by destruct (from_utf8 cl).
Qed.

Lemma evidence_attempts a t p o r n g tail :
  current_attempts false (evidence_headers a t p o r n g ++ tail) =
  (try? decimal a U32_MAX false in current_attempts true tail).
Proof. 
  cbn [evidence_headers app current_attempts h_name h_value].
  repeat match goal with
  | |- context [eq_ignore_ascii_case ?a ?b] =>
      let v := eval vm_compute in (eq_ignore_ascii_case a b) in
      change (eq_ignore_ascii_case a b) with v
  end.
  cbn [negb]. change (String.eqb HEADER_DELIVERY_ATTEMPT HEADER_DELIVERY_ATTEMPT) with true.
  cbn [negb orb ok_or result_bind]. by destruct (decimal a U32_MAX false).
Qed.

Section six_fields.
  Context (t p o r n g : list Z).

Lemma evidence_topic : evidence_at (six_fields t p o r n g) HEADER_DLT_ORIGIN_TOPIC = Ok t.
Proof. vm_compute. reflexivity. Qed.
Lemma evidence_partition : evidence_at (six_fields t p o r n g) HEADER_DLT_ORIGIN_PARTITION = Ok p.
Proof. vm_compute. reflexivity. Qed.
Lemma evidence_offset : evidence_at (six_fields t p o r n g) HEADER_DLT_ORIGIN_OFFSET = Ok o.
Proof. vm_compute. reflexivity. Qed.
Lemma evidence_reason : evidence_at (six_fields t p o r n g) HEADER_DLT_REASON = Ok r.
Proof. vm_compute. reflexivity. Qed.
Lemma evidence_tries : evidence_at (six_fields t p o r n g) HEADER_DLT_DELIVERY_ATTEMPTS = Ok n.
Proof. vm_compute. reflexivity. Qed.
Lemma evidence_group : evidence_at (six_fields t p o r n g) HEADER_DLT_ORIGIN_GROUP = Ok g.
Proof. vm_compute. reflexivity. Qed.
End six_fields.

(** ** Reading what was written *)

(** What the consumer knows of the record it gives up on. *)
Record coordinates_ok (group topic : string) (partition offset : Z) (reason : string) (attempts : Z) : Prop := {
  co_position : position_ok topic partition offset offset offset = true;
  co_partition : partition ≤ I32_MAX;
  co_offset : offset ≤ I64_MAX;
  co_topic : str_ok topic = true;
  co_group : str_ok group = true ∧ 1 ≤ str_len group ≤ 1024;
  co_reason : str_ok reason = true;
  co_attempts : 0 ≤ attempts ≤ U32_MAX }.

(** The evidence of such a record, with the origin a gateway may have added. *)
Definition evidence_of (group topic : string) (partition offset : Z) (reason : string) (attempts : Z)
    (origin : option DltOrigin) : DltEvidence :=
  mkEvidence topic partition offset group (truncate_utf8_bytes reason 1024) (Z.max attempts 1) origin.

Lemma to_string_int_digits z : 0 ≤ z → to_string_int z = digits z.
Proof. intros Hz. unfold to_string_int. by assert ((z <? 0) = false) as -> by lia. Qed.

Lemma evidence_text_ok s max empty :
  str_ok s = true → str_len s ≤ max → (empty = true ∨ 1 ≤ str_len s) →
  evidence_text (as_bytes s) max empty = Ok s.
Proof.
  intros Hok Hl He. unfold evidence_text. rewrite from_utf8_as_bytes by done.
  assert (slice_len (as_bytes s) = str_len s) as -> by (unfold slice_len, str_len; by rewrite length_as_bytes).
  assert ((max <? str_len s) = false) as -> by lia. cbn [orb].
  destruct He as [->|He]; [done|]. assert ((str_len s =? 0) = false) as -> by lia.
  by rewrite andb_false_r.
Qed.

Lemma position_ok_spec topic partition offset :
  position_ok topic partition offset offset offset = true →
  1 ≤ str_len topic ≤ 249 ∧ 0 ≤ partition ∧ 0 ≤ offset.
Proof.
  unfold position_ok. rewrite negb_true_iff, !orb_false_iff, Z.eqb_neq, !Z.ltb_ge.
  pose proof (str_len_nonneg topic). lia.
Qed.

Lemma evidence_valid group topic partition offset reason attempts origin :
  coordinates_ok group topic partition offset reason attempts →
  match origin with Some o => DltOrigin_validate o = Ok tt | None => True end →
  DltEvidence_validate (evidence_of group topic partition offset reason attempts origin) = Ok tt.
Proof.
  intros [Hp ? ? ? [? Hg] Hr ?] Ho. unfold DltEvidence_validate, evidence_of. cbn.
  assert (match origin with Some o => DltOrigin_validate o | None => Ok tt end = Ok tt) as ->
    by by destruct origin.
  cbn [result_bind]. apply position_ok_spec in Hp as Hb.
  assert ((249 <? str_len topic) = false) as -> by lia. rewrite Hp. cbn [negb].
  destruct (truncate_ok reason 1024 Hr) as (_ & Hlen & _).
  assert ((str_len group =? 0) || (1024 <? str_len group)
    || (1024 <? str_len (truncate_utf8_bytes reason 1024)) || (Z.max attempts 1 <? 1) = false) as ->; [|done].
  rewrite !orb_false_iff, Z.eqb_neq, !Z.ltb_ge. unfold str_len in *. lia.
Qed.

(** Both readers on the business headers, the seven evidence headers and what follows. *)
Lemma read_written group topic partition offset reason attempts origin original tail :
  coordinates_ok group topic partition offset reason attempts →
  match origin with Some o => DltOrigin_validate o = Ok tt | None => True end →
  (∀ acc, steps evidence_field acc tail = Ok acc) →
  (∀ h, h ∈ tail → eq_ignore_ascii_case (h_name h) HEADER_DELIVERY_ATTEMPT = false) →
  let headers := dead_letter_headers original group topic partition offset reason attempts ++ tail in
  within_limits headers →
  DltOrigin_read headers = Ok origin →
  DltEvidence_read headers = Ok (Some (evidence_of group topic partition offset reason attempts origin)).
Proof.
  intros Hco Ho Htail Hatt headers Hlim Hread.
  pose proof Hco as [Hp Hpart Hoff Ht [Hg Hgl] Hr Hn]. apply position_ok_spec in Hp as (Htl & Hp0 & Ho0).
  destruct (truncate_ok reason 1024 Hr) as (Hrok & Hrl & _).
  unfold DltEvidence_read. rewrite Hread, scan_limits by done.
  unfold headers, dead_letter_headers. fold (business original).
  match goal with |- context [business original ++ ?l] =>
    change l with (evidence_headers (to_string_int (Z.max attempts 1)) (as_bytes topic) (to_string_int partition)
      (to_string_int offset) (as_bytes (truncate_utf8_bytes reason 1024)) (to_string_int (Z.max attempts 1))
      (as_bytes group)) end.
  rewrite !to_string_int_digits by lia. rewrite <- !app_assoc, steps_app, business_fields.
  cbn [result_bind]. rewrite steps_app, evidence_fields. cbn [result_bind]. rewrite Htail. cbn [result_bind].
  rewrite evidence_topic, evidence_partition, evidence_offset, evidence_group, evidence_reason, evidence_tries.
  unfold six_fields. cbn [length Nat.eqb result_bind].
  rewrite current_attempts_app by (intros h Hh%business_elem; by apply not_evidence in Hh as (_ & ? & _)).
  rewrite evidence_attempts.
  assert (current_attempts true tail = Ok tt) as Hct.
  { rewrite <- (app_nil_r tail). by rewrite current_attempts_app. }
  assert (∀ n max zero, 0 ≤ n ≤ max → max ≤ I64_MAX → zero = true ∨ 1 ≤ n → decimal (digits n) max zero = Ok n)
    as Hdec by (intros; by apply decimal_digits).
  unfold I32_MAX, U32_MAX in *.
  rewrite Hdec by (unfold I64_MAX; lia). cbn [result_bind]. rewrite Hct. cbn [result_bind].
  rewrite evidence_text_ok by (done || lia). cbn [result_bind].
  rewrite Hdec by (unfold I64_MAX in *; by auto || lia). cbn [result_bind].
  rewrite Hdec by (unfold I64_MAX in *; by auto || lia). cbn [result_bind].
  rewrite evidence_text_ok by (done || lia). cbn [result_bind].
  rewrite evidence_text_ok by (done || (unfold str_len; lia) || by left). cbn [result_bind].
  fold (evidence_of group topic partition offset reason attempts origin).
  by rewrite evidence_valid.
Qed.

Lemma written_origin group topic partition offset reason attempts original :
  steps origin_field [] (dead_letter_headers original group topic partition offset reason attempts) = Ok [].
Proof.
  unfold dead_letter_headers. fold (business original). rewrite steps_app, business_origin.
  cbn [result_bind]. apply evidence_no_origin.
Qed.

(** The reader of the origin refuses what [validate] refuses, and nothing else of what [attach] wrote. *)
Lemma read_origin headers o :
  within_limits (headers ++ origin_headers (as_bytes (source_id o)) (as_bytes (cluster_id o))) →
  steps origin_field [] headers = Ok [] → str_ok (source_id o) = true → str_ok (cluster_id o) = true →
  DltOrigin_validate o = Ok tt →
  DltOrigin_read (headers ++ origin_headers (as_bytes (source_id o)) (as_bytes (cluster_id o))) = Ok (Some o).
Proof.
  intros Hlim Hsteps Hs Hc Hv. unfold DltOrigin_read. rewrite scan_limits, steps_app, Hsteps by done.
  cbn [result_bind]. pose proof Hv as Hok. unfold DltOrigin_validate in Hok. destruct (forallb _ _) eqn:E; [|done].
  cbn [forallb] in E. apply andb_prop in E as [E1 [E2 _]%andb_prop].
  unfold origin_field_ok in E1, E2. rewrite negb_true_iff, !orb_false_iff, !Z.ltb_ge in E1, E2.
  unfold str_len in E1, E2.
  rewrite origin_fields by (unfold slice_len; rewrite length_as_bytes; lia).
  rewrite !from_utf8_as_bytes by done. cbn [ok_or result_bind]. change (length _ =? 2)%nat with true.
  assert (∀ s c, bt_get HEADER_DLT_ORIGIN_SOURCE [(HEADER_DLT_ORIGIN_CLUSTER, c); (HEADER_DLT_ORIGIN_SOURCE, s)]
    = Some s) as -> by (intros; by vm_compute).
  assert (∀ s c, bt_get HEADER_DLT_ORIGIN_CLUSTER [(HEADER_DLT_ORIGIN_CLUSTER, c); (HEADER_DLT_ORIGIN_SOURCE, s)]
    = Some c) as -> by (intros; by vm_compute).
  cbn [ok_or result_bind negb]. destruct o as [src cl]. cbn in Hv |- *. by rewrite Hv.
Qed.

Lemma filter_keep {A} (f : A → bool) l : (∀ x, x ∈ l → f x = true) → List.filter f l = l.
Proof.
  induction l as [|x l IH]; intros H; simpl; [done|]. rewrite (H x) by left. f_equal.
  apply IH. intros y Hy. apply H. by right.
Qed.

Lemma business_idem hs : business (business hs) = business hs.
Proof. apply filter_keep. intros h Hh%business_elem. by rewrite Hh. Qed.

Lemma attach_written o original group topic partition offset reason attempts :
  let written := dead_letter_headers original group topic partition offset reason attempts in
  DltOrigin_validate o = Ok tt →
  attach o written = Ok (written ++ origin_headers (as_bytes (source_id o)) (as_bytes (cluster_id o))).
Proof.
  intros written Hv. unfold attach. rewrite Hv. cbn [result_bind]. unfold origin_headers. do 2 f_equal.
  unfold written, dead_letter_headers. fold (business original). rewrite List.filter_app. f_equal.
  apply filter_keep. intros h Hh%business_elem. by apply not_evidence in Hh as (-> & _).
Qed.

Lemma business_written original group topic partition offset reason attempts tail :
  (∀ h, h ∈ tail → is_dead_letter_evidence_header (h_name h) = true) →
  business (dead_letter_headers original group topic partition offset reason attempts ++ tail) = business original.
Proof.
  intros Ht. unfold dead_letter_headers. fold (business original). unfold business at 1.
  rewrite !List.filter_app. fold (business (business original)). rewrite business_idem.
  assert (List.filter (λ h, negb (is_dead_letter_evidence_header (h_name h))) tail = []) as ->.
  { induction tail as [|h tail IH]; [done|]. simpl. rewrite (Ht h) by left. simpl. apply IH.
    intros h' Hh'. apply Ht. by right. }
  rewrite app_nil_r. rewrite <- (app_nil_r (business original)) at 2. f_equal.
Qed.

(** ** Reading what others wrote *)

Lemma scan_steps {A} (step : A → KafkaHeader → result A DltReplayError) index size acc hs acc' :
  scan step index size acc hs = Ok acc' → steps step acc hs = Ok acc'.
Proof.
  revert index size acc. induction hs as [|h hs IH]; intros index size acc; simpl; [done|].
  destruct (size_with size h); simpl; [|done]. destruct (_ || _); [done|].
  destruct (step acc h); simpl; [apply IH|done].
Qed.

(** The headers that carry a name, in any case. *)
Definition aliases (name : string) (hs : KafkaHeaders) : KafkaHeaders :=
  List.filter (λ h, eq_ignore_ascii_case (h_name h) name) hs.

Lemma eq_ignore_refl s : eq_ignore_ascii_case s s = true.
Proof. by apply bool_decide_eq_true_2. Qed.

(** What one header, and then all of them, do to the field of one name. *)
Definition settles (name : string) (before : option (list Z)) (hs : KafkaHeaders) (after : option (list Z)) : Prop :=
  (aliases name hs = [] ∧ after = before) ∨
  (∃ b, before = None ∧ aliases name hs = [mkHeader name (Some b)] ∧ after = Some b).

Lemma evidence_names_settles names fields h fields' :
  ForallOrdPairs (λ m n, eq_ignore_ascii_case m n = false) names →
  evidence_names names fields h = Ok fields' →
  (∀ name, (∀ n, n ∈ names → String.eqb n name = false) → bt_get name fields' = bt_get name fields) ∧
  (∀ name, name ∈ names → settles name (bt_get name fields) [h] (bt_get name fields')).
Proof.
  intros Hd. revert fields. induction Hd as [|m names Hm Hd IH]; intros fields H; simpl in H.
  { injection H as <-. split; [done|]. intros name Hn. by apply elem_of_nil in Hn. }
  assert (∀ n, n ∈ names → String.eqb m n = false) as Hne.
  { intros n Hn. apply String.eqb_neq. intros ->. rewrite Forall_forall in Hm. specialize (Hm _ Hn).
    by rewrite eq_ignore_refl in Hm. }
  destruct (eq_ignore_ascii_case (h_name h) m) eqn:E; simpl in H.
  - destruct (String.eqb (h_name h) m) eqn:Em; [|done]. apply String.eqb_eq in Em. cbn [negb] in H.
    destruct (h_value h) as [b|] eqn:Ev; [|done]. cbn [ok_or result_bind] in H.
    destruct (bool_decide _) eqn:Eb; [done|]. apply bool_decide_eq_false in Eb.
    assert (bt_get m fields = None) as Hnone by (destruct (bt_get m fields); [by destruct Eb|done]).
    rewrite evidence_names_skip in H by by rewrite Em. injection H as <-. split.
    + intros name Hn. simpl. by rewrite (Hn m) by left.
    + intros name [->|Hn]%elem_of_cons.
      * right. exists b. simpl. rewrite E, String.eqb_refl. split_and!; [done| |done].
        destruct h. simpl in *. by subst.
      * left. simpl. rewrite (Hne name Hn). rewrite Em.
        rewrite Forall_forall in Hm. by rewrite (Hm name Hn).
  - destruct (IH _ H) as [Hout Hin]. split.
    + intros name Hn. apply Hout. intros n Hn'. apply Hn. by right.
    + intros name [->|Hn]%elem_of_cons; [|by apply Hin]. left. simpl. rewrite E. split; [done|].
      apply Hout. intros n Hn. rewrite String.eqb_sym. by apply Hne.
Qed.

Lemma FIELDS_distinct : ForallOrdPairs (λ m n, eq_ignore_ascii_case m n = false) FIELDS.
Proof. repeat constructor; by vm_compute. Qed.

Lemma settles_app name a hs b ks c : settles name a hs b → settles name b ks c → settles name a (hs ++ ks) c.
Proof.
  unfold settles, aliases. rewrite List.filter_app.
  intros [[E1 ->]|(x & -> & E1 & ->)] [[E2 ->]|(y & ? & E2 & ->)]; rewrite E1, E2; simplify_eq.
  - by left.
  - right. by exists y.
  - right. by exists x.
Qed.

Lemma steps_settle fields hs fields' name :
  steps evidence_field fields hs = Ok fields' → name ∈ FIELDS →
  settles name (bt_get name fields) hs (bt_get name fields').
Proof.
  intros H Hn. revert fields H. induction hs as [|h hs IH]; intros fields H; simpl in H.
  { injection H as <-. by left. }
  apply result_bind_Ok in H as (mid & Hmid & H).
  apply (settles_app _ _ [h] (bt_get name mid)); [|by apply IH].
  by apply (evidence_names_settles _ _ _ _ FIELDS_distinct Hmid).
Qed.

Lemma evidence_at_alone headers fields name bs :
  steps evidence_field [] headers = Ok fields → name ∈ FIELDS → evidence_at fields name = Ok bs →
  aliases name headers = [mkHeader name (Some bs)].
Proof.
  intros Hs Hn Hat. unfold evidence_at in Hat. destruct (bt_get name fields) as [b|] eqn:E; [|done].
  injection Hat as ->. destruct (steps_settle _ _ _ name Hs Hn) as [[_ H]|(b' & _ & H & H')].
  - rewrite E in H. done.
  - rewrite E in H'. injection H' as <-. done.
Qed.

(** Values of headers are bytes. *)
Definition bytes_ok (headers : KafkaHeaders) : Prop :=
  Forall (λ h, match h_value h with Some b => Forall is_byte b | None => True end) headers.

Lemma evidence_text_exact bs max empty s :
  Forall is_byte bs → evidence_text bs max empty = Ok s → bs = as_bytes s.
Proof.
  unfold evidence_text. intros Hb. destruct (_ || _); [done|]. intros H%ok_or_Ok.
  by apply from_utf8_Some in H as [-> _].
Qed.

Lemma aliases_bytes name headers b :
  bytes_ok headers → aliases name headers = [mkHeader name (Some b)] → Forall is_byte b.
Proof.
  unfold bytes_ok. rewrite Forall_forall. intros Hb E.
  assert (mkHeader name (Some b) ∈ aliases name headers) as [Hin _]%filter_elem_of by (rewrite E; by left).
  exact (Hb _ Hin).
Qed.

(** ** The six fields of evidence, as bytes *)

Definition rendered (e : DltEvidence) : list (string * list Z) :=
  [(HEADER_DLT_ORIGIN_TOPIC, as_bytes (ev_origin_topic e));
   (HEADER_DLT_ORIGIN_PARTITION, digits (ev_origin_partition e));
   (HEADER_DLT_ORIGIN_OFFSET, digits (ev_origin_offset e));
   (HEADER_DLT_ORIGIN_GROUP, as_bytes (ev_origin_group e));
   (HEADER_DLT_REASON, as_bytes (ev_reason e));
   (HEADER_DLT_DELIVERY_ATTEMPTS, digits (ev_delivery_attempts e))].

Ltac in_FIELDS := unfold FIELDS; repeat (first [by apply list_elem_of_here | apply list_elem_of_further]).

Lemma read_exact headers e :
  bytes_ok headers → DltEvidence_read headers = Ok (Some e) →
  DltEvidence_validate e = Ok tt ∧ DltOrigin_read headers = Ok (ev_origin e) ∧
  current_attempts false headers = Ok tt ∧
  Forall (λ '(name, bs), aliases name headers = [mkHeader name (Some bs)]) (rendered e).
Proof.
  intros Hb H. unfold DltEvidence_read in H.
  apply result_bind_Ok in H as (fields & Hf%scan_steps & H).
  apply result_bind_Ok in H as (origin & Ho & H).
  assert (fields ≠ []) as Hne by (intros ->; by destruct origin).
  destruct fields as [|x xs]; [done|]. revert Hf H. generalize (x :: xs). clear x xs Hne. intros fields Hf H.
  destruct (length fields =? 6)%nat; [|done].
  apply result_bind_Ok in H as ([] & Hcur & H).
  apply result_bind_Ok in H as (f0 & E0 & H). apply result_bind_Ok in H as (v0 & V0 & H).
  apply result_bind_Ok in H as (f1 & E1 & H). apply result_bind_Ok in H as (v1 & V1 & H).
  apply result_bind_Ok in H as (f2 & E2 & H). apply result_bind_Ok in H as (v2 & V2 & H).
  apply result_bind_Ok in H as (f3 & E3 & H). apply result_bind_Ok in H as (v3 & V3 & H).
  apply result_bind_Ok in H as (f4 & E4 & H). apply result_bind_Ok in H as (v4 & V4 & H).
  apply result_bind_Ok in H as (f5 & E5 & H). apply result_bind_Ok in H as (v5 & V5 & H).
  apply result_bind_Ok in H as ([] & Hval & [= <-]).
  eapply evidence_at_alone in E0; [|exact Hf|in_FIELDS]. eapply evidence_at_alone in E1; [|exact Hf|in_FIELDS].
  eapply evidence_at_alone in E2; [|exact Hf|in_FIELDS]. eapply evidence_at_alone in E3; [|exact Hf|in_FIELDS].
  eapply evidence_at_alone in E4; [|exact Hf|in_FIELDS]. eapply evidence_at_alone in E5; [|exact Hf|in_FIELDS].
  apply evidence_text_exact in V0; [|by eapply aliases_bytes].
  apply evidence_text_exact in V3; [|by eapply aliases_bytes].
  apply evidence_text_exact in V4; [|by eapply aliases_bytes].
  apply decimal_exact in V1 as (_ & _ & ->); [|by unfold I32_MAX, I64_MAX].
  apply decimal_exact in V2 as (_ & _ & ->); [|by unfold I64_MAX].
  apply decimal_exact in V5 as (_ & _ & ->); [|by unfold U32_MAX, I64_MAX]. subst.
  split_and!; [|done..|by repeat constructor]. by destruct (DltEvidence_validate _) as [[]|].
Qed.
