(* ===== verification/KafkaEvidenceGuarantees.v ===== *)
(** * Dead letter evidence can be trusted

    What [dead_letter_headers] and [DltOrigin::attach] write is what
    [DltEvidence::read] returns, whatever the record carried, as long as it
    keeps to the reader's limits; and what it returns is in the headers once,
    in canonical form.  The witnesses read a
    record whose sender forged every name. *)

From Stdlib Require Import ZArith Lia.
From S2P Require Import Prelude Bytes Wire WireLaws KafkaEvidence KafkaEvidenceLaws.
From stdpp Require Import prelude strings.

Local Open Scope Z_scope.
Local Open Scope rust_scope.

(** C30. For valid coordinates, and whatever headers the record carried (other
    evidence, aliases in another case, duplicates, nulls), the business headers
    of the dead letter written for it are those of the record, in order; and if
    what was written keeps to the reader's limits of 256 headers and 65536
    bytes, it reads back as the evidence of this failure: the topic, the
    partition, the offset and the group of the consumer, the reason cut at a
    character boundary, and at least one attempt.  Beyond the limits the reader
    refuses it.  A gateway that attaches a valid origin adds that origin and
    changes nothing else, under the same limits. *)
Theorem dead_letter_evidence_trusted original group topic partition offset reason attempts :
  let written := dead_letter_headers original group topic partition offset reason attempts in
  let evidence := evidence_of group topic partition offset reason attempts in
  coordinates_ok group topic partition offset reason attempts →
  business written = business original ∧
  (within_limits written → DltEvidence_read written = Ok (Some (evidence None))) ∧
  (¬ within_limits written → ∃ e, DltEvidence_read written = Err e) ∧
  (∀ o, DltOrigin_validate o = Ok tt → str_ok (source_id o) = true → str_ok (cluster_id o) = true →
     ∃ sent, attach o written = Ok sent ∧ business sent = business original ∧
       (within_limits sent → DltEvidence_read sent = Ok (Some (evidence (Some o)))) ∧
       (¬ within_limits sent → ∃ e, DltEvidence_read sent = Err e)).
Proof.
  intros written evidence Hco. split_and!.
  - rewrite <- (app_nil_r written). apply business_written. intros h Hh. by apply elem_of_nil in Hh.
  - intros Hlim. rewrite <- (app_nil_r written) in *.
    apply read_written; [done..| |done|]; [intros h Hh; by apply elem_of_nil in Hh|].
    unfold DltOrigin_read. rewrite app_nil_r in *. rewrite scan_limits by done. unfold written.
    by rewrite written_origin.
  - apply read_over_limits.
  - intros o Hv Hs Hc. eexists. split; [by apply attach_written|]. split_and!; [..|apply read_over_limits].
    + apply business_written. intros h [->|[->|Hh%elem_of_nil]%elem_of_cons]%elem_of_cons; by vm_compute.
    + intros Hlim. apply read_written; [done..| | |done|].
      * intros acc. apply origin_no_evidence.
      * intros h [->|[->|Hh%elem_of_nil]%elem_of_cons]%elem_of_cons; by vm_compute.
      * apply read_origin; [done| |done..]. apply written_origin.
Qed.

(** Evidence that is read is valid evidence, and each of its six fields is in
    the headers exactly once whatever the case of the names, under its exact
    name and with the one canonical rendering of its value: a second value, an
    alias, a null, a leading zero, a sign or a number out of range is an error,
    never evidence. *)
Theorem evidence_unambiguous headers e :
  bytes_ok headers → DltEvidence_read headers = Ok (Some e) →
  DltEvidence_validate e = Ok tt ∧
  Forall (λ '(name, bs), aliases name headers = [mkHeader name (Some bs)]) (rendered e).
Proof. intros Hb H. by apply read_exact in H as (? & _ & _ & ?). Qed.

(** ** A forged record *)

Definition forged : KafkaHeaders :=
  [mkHeader "x-nasa-dlt-origin-topic" (Some [112]);
   mkHeader "k" (Some [1; 2]);
   mkHeader HEADER_DLT_ORIGIN_OFFSET (Some [48; 49]);
   mkHeader HEADER_DLT_ORIGIN_OFFSET None;
   mkHeader "X-NASA-DLT-ORIGIN-CLUSTER" None].

Definition gave_up : KafkaHeaders := dead_letter_headers forged "g" "t" 3 10 "" 0.

Lemma gave_up_ok : coordinates_ok "g" "t" 3 10 "" 0.
Proof. by split; vm_compute. Defined.

Lemma dead_letter_evidence_trusted_witness :
  DltEvidence_read gave_up = Ok (Some (mkEvidence "t" 3 10 "g" "" 1 None)) ∧
  business gave_up = [mkHeader "k" (Some [1; 2])].
Proof.
  pose proof (dead_letter_evidence_trusted forged "g" "t" 3 10 "" 0 gave_up_ok) as (Hb & Hr & _).
  split; [apply Hr; by vm_compute|exact Hb].
Defined.

(** A record of 251 headers keeps to the limits; with the six headers of the
    evidence its dead letter has one too many for the reader. *)
Definition crowded : KafkaHeaders := repeat (mkHeader "k" None) 251.

Theorem crowded_dead_letter_refused :
  within_limits crowded ∧
  ∃ e, DltEvidence_read (dead_letter_headers crowded "g" "t" 3 10 "" 0) = Err e.
Proof.
  split; [by vm_compute|]. apply read_over_limits. intros [Hn _]. by vm_compute in Hn.
Qed.

Lemma evidence_unambiguous_witness :
  aliases HEADER_DLT_ORIGIN_OFFSET gave_up = [mkHeader HEADER_DLT_ORIGIN_OFFSET (Some [49; 48])].
Proof.
  destruct (evidence_unambiguous gave_up (mkEvidence "t" 3 10 "g" "" 1 None)) as [_ H].
  - repeat constructor; by vm_compute.
  - by vm_compute.
  - exact (Forall_inv (Forall_inv_tail (Forall_inv_tail H))).
Defined.
