(* ===== verification/HystrixWindow.v ===== *)
(** * The rolling statistics of a command

    [hystrix]: lib.rs, [Rolling], [Bucket], [WindowSum], [Percentiles].  A command
    counts what happened to its calls in buckets of one second and keeps the
    latencies of the last ones; a window is the last ten seconds.  The second is
    an argument: [now_sec] reads the monotonic clock under the lock.  Counters
    are below 2^64, since each of them counts calls.  The rank of a percentile is
    computed in floating point and is a parameter. *)

From Stdlib Require Import ZArith Lia Sorting.Mergesort Permutation.
From S2P Require Import Prelude.
From stdpp Require Import prelude list sorting.

Local Open Scope Z_scope.
Local Open Scope rust_scope.

Definition WINDOW_SECS : Z := 10.
Definition MAX_LATENCIES : nat := 5000.

Inductive Outcome := Outcome_Success | Outcome_Failure | Outcome_Timeout | Outcome_Rejected | Outcome_Canceled.
Inductive FallbackOutcome := Fallback_Success | Fallback_Failure.

#[global] Instance Outcome_eq_dec : EqDecision Outcome.
Proof. solve_decision. Defined.
#[global] Instance FallbackOutcome_eq_dec : EqDecision FallbackOutcome.
Proof. solve_decision. Defined.

Record Bucket := mkBucket {
  b_sec : Z;
  b_success : Z;
  b_failure : Z;
  b_timeout : Z;
  b_rejected : Z;
  b_canceled : Z;
  b_fallback_success : Z;
  b_fallback_failure : Z }.

(** [Bucket { sec, ..Default::default() }]. *)
Definition new_bucket (sec : Z) : Bucket := mkBucket sec 0 0 0 0 0 0 0.

Record Rolling := mkRolling {
  buckets : list Bucket;
  latencies : list (Z * Z) }.

Definition Rolling_new : Rolling := mkRolling [] [].

(** [while front < floor { pop_front }]. *)
Fixpoint pop_older {A} (sec : A → Z) (floor : Z) (l : list A) : list A :=
  match l with
  | [] => []
  | x :: l' => if sec x <? floor then pop_older sec floor l' else l
  end.

Definition window_floor (now : Z) : Z := u64_saturating_sub now (WINDOW_SECS - 1).

Definition evict (now : Z) (r : Rolling) : Rolling :=
  let floor := window_floor now in
  mkRolling (pop_older b_sec floor (buckets r)) (pop_older fst floor (latencies r)).

(** The bucket of the current second is the last one. *)
Definition current_bucket (now : Z) (bs : list Bucket) : list Bucket :=
  match last bs with
  | Some b => if b_sec b =? now then bs else bs ++ [new_bucket now]
  | None => bs ++ [new_bucket now]
  end.
Fixpoint back_mut (f : Bucket → Bucket) (bs : list Bucket) : list Bucket :=
  match bs with
  | [] => []
  | [b] => [f b]
  | b :: bs' => b :: back_mut f bs'
  end.

Definition bump (outcome : Outcome) (b : Bucket) : Bucket :=
  let '(mkBucket s su fa ti re ca fs ff) := b in
  match outcome with
  | Outcome_Success => mkBucket s (su + 1) fa ti re ca fs ff
  | Outcome_Failure => mkBucket s su (fa + 1) ti re ca fs ff
  | Outcome_Timeout => mkBucket s su fa (ti + 1) re ca fs ff
  | Outcome_Rejected => mkBucket s su fa ti (re + 1) ca fs ff
  | Outcome_Canceled => mkBucket s su fa ti re (ca + 1) fs ff
  end.
Definition bump_fallback (outcome : FallbackOutcome) (b : Bucket) : Bucket :=
  let '(mkBucket s su fa ti re ca fs ff) := b in
  match outcome with
  | Fallback_Success => mkBucket s su fa ti re ca (fs + 1) ff
  | Fallback_Failure => mkBucket s su fa ti re ca fs (ff + 1)
  end.

(** [while len > 5000 { pop_front }]. *)
Fixpoint pop_beyond {A} (cap : nat) (l : list A) : list A :=
  match l with
  | [] => []
  | _ :: l' => if (cap <? length l)%nat then pop_beyond cap l' else l
  end.

Definition has_latency (outcome : Outcome) : bool :=
  match outcome with Outcome_Rejected | Outcome_Canceled => false | _ => true end.

Definition record (now : Z) (outcome : Outcome) (latency_ms : Z) (r : Rolling) : Rolling :=
  let r1 := evict now r in
  mkRolling
    (back_mut (bump outcome) (current_bucket now (buckets r1)))
    (if has_latency outcome then pop_beyond MAX_LATENCIES (latencies r1 ++ [(now, latency_ms)])
     else latencies r1).

Definition record_fallback (now : Z) (outcome : FallbackOutcome) (r : Rolling) : Rolling :=
  let r1 := evict now r in
  mkRolling (back_mut (bump_fallback outcome) (current_bucket now (buckets r1))) (latencies r1).

(** ** Percentiles *)

Record Percentiles := mkPercentiles {
  p_mean : Z; p_0 : Z; p_25 : Z; p_50 : Z; p_75 : Z; p_90 : Z; p_95 : Z; p_99 : Z; p_995 : Z; p_100 : Z }.
Definition Percentiles_default : Percentiles := mkPercentiles 0 0 0 0 0 0 0 0 0 0.

Section percentiles.
(** [((p / 100.0) * (len as f64 - 1.0)).round() as usize], for p in tenths. *)
Context (rank : Z → nat → nat).

Definition pick (sorted : list Z) (p : Z) : Z :=
  nth (Nat.min (rank p (length sorted)) (length sorted - 1)) sorted 0.

Definition from_sorted (sorted : list Z) : Percentiles :=
  match sorted with
  | [] => Percentiles_default
  | first :: _ =>
      mkPercentiles (foldr Z.add 0 sorted / Z.of_nat (length sorted)) first
        (pick sorted 250) (pick sorted 500) (pick sorted 750) (pick sorted 900) (pick sorted 950)
        (pick sorted 990) (pick sorted 995) (nth (length sorted - 1) sorted 0)
  end.

Record WindowSum := mkSum {
  w_success : Z;
  w_failure : Z;
  w_timeout : Z;
  w_rejected : Z;
  w_canceled : Z;
  w_fallback_success : Z;
  w_fallback_failure : Z;
  w_latency : Percentiles }.

Definition add_bucket (sum : WindowSum) (b : Bucket) : WindowSum :=
  mkSum (w_success sum + b_success b) (w_failure sum + b_failure b) (w_timeout sum + b_timeout b)
        (w_rejected sum + b_rejected b) (w_canceled sum + b_canceled b)
        (w_fallback_success sum + b_fallback_success b) (w_fallback_failure sum + b_fallback_failure b)
        (w_latency sum).

Definition snapshot (now : Z) (r : Rolling) : WindowSum * Rolling :=
  let r1 := evict now r in
  let sum := foldl add_bucket (mkSum 0 0 0 0 0 0 0 Percentiles_default) (buckets r1) in
  (mkSum (w_success sum) (w_failure sum) (w_timeout sum) (w_rejected sum) (w_canceled sum)
         (w_fallback_success sum) (w_fallback_failure sum)
         (from_sorted (merge_sort Z.le (map snd (latencies r1)))), r1).

Definition request_count (now : Z) (r : Rolling) : Z * Rolling :=
  let r1 := evict now r in
  (foldr Z.add 0 (map (λ b, b_success b + b_failure b + b_timeout b + b_rejected b + b_canceled b) (buckets r1)), r1).

(** [Command::snapshot_json]: the counts the dashboard shows. *)
Definition requests (w : WindowSum) : Z :=
  w_success w + w_failure w + w_timeout w + w_rejected w + w_canceled w.
Definition error_count (w : WindowSum) : Z := w_failure w + w_timeout w + w_rejected w + w_canceled w.
Definition error_pct (w : WindowSum) : Z :=
  if requests w =? 0 then 0 else (error_count w * 100) / requests w.
End percentiles.
