(* ===== verification/HystrixWindowLaws.v ===== *)
(** * The rolling window is exact

    The reference is the log of everything that was ever recorded, with its
    second: what a window shows is what the log has of the last ten seconds,
    and of the latencies the last five thousand. *)

From Stdlib Require Import ZArith Lia Sorted Permutation.
From S2P Require Import Prelude HystrixWindow.
From stdpp Require Import prelude list sorting.

Local Open Scope Z_scope.
Local Open Scope rust_scope.

(** ** The log *)

Inductive Event := Ended (outcome : Outcome) (latency_ms : Z) | FellBack (outcome : FallbackOutcome).

Inductive Counter := C_Main (outcome : Outcome) | C_Fallback (outcome : FallbackOutcome).
#[global] Instance Counter_eq_dec : EqDecision Counter.
Proof. solve_decision. Defined.

Definition counter_of (e : Event) : Counter :=
  match e with Ended o _ => C_Main o | FellBack o => C_Fallback o end.

Definition counter (c : Counter) (b : Bucket) : Z :=
  match c with
  | C_Main Outcome_Success => b_success b
  | C_Main Outcome_Failure => b_failure b
  | C_Main Outcome_Timeout => b_timeout b
  | C_Main Outcome_Rejected => b_rejected b
  | C_Main Outcome_Canceled => b_canceled b
  | C_Fallback Fallback_Success => b_fallback_success b
  | C_Fallback Fallback_Failure => b_fallback_failure b
  end.

Definition Log : Type := list (Z * Event).

(** How often the log has [c] from second [floor] on. *)
Definition observed (c : Counter) (floor : Z) (log : Log) : Z :=
  Z.of_nat (length (List.filter (λ x, (floor <=? x.1) && bool_decide (counter_of x.2 = c)) log)).

Definition latency_sample (x : Z * Event) : option (Z * Z) :=
  match x.2 with
  | Ended o l => if has_latency o then Some (x.1, l) else None
  | FellBack _ => None
  end.
Definition samples (floor : Z) (log : Log) : list (Z * Z) :=
  List.filter (λ s, floor <=? s.1) (omap latency_sample log).

Definition lastn {A} (n : nat) (l : list A) : list A := drop (length l - n) l.

Definition log_event (now : Z) (e : Event) (r : Rolling) : Rolling :=
  match e with
  | Ended o l => record now o l r
  | FellBack o => record_fallback now o r
  end.

(** ** Lists *)

Lemma filter_id {A} (f : A → bool) l : Forall (λ x, f x = true) l → List.filter f l = l.
Proof. induction 1 as [|x l Hx _ IH]; simpl; [done|]. by rewrite Hx, IH. Qed.
Lemma filter_none {A} (f : A → bool) l : Forall (λ x, f x = false) l → List.filter f l = [].
Proof. induction 1 as [|x l Hx _ IH]; simpl; [done|]. by rewrite Hx, IH. Qed.

(** Sorted lists are cut at the floor. *)
Lemma sorted_cut {A} (sec : A → Z) floor l :
  StronglySorted (λ a b, sec a ≤ sec b) l →
  ∃ old, l = old ++ pop_older sec floor l ∧ Forall (λ x, sec x < floor) old ∧
    Forall (λ x, floor ≤ sec x) (pop_older sec floor l).
Proof.
  induction 1 as [|x l _ (old & E & Ho & Hn) Hx]; simpl; [by exists []|].
  destruct (sec x <? floor) eqn:Ex.
  - exists (x :: old). simpl. rewrite <- E. split_and!; [done| |done]. constructor; [lia|done].
  - exists []. split_and!; [done..|]. constructor; [lia|]. eapply Forall_impl; [exact Hx|]. simpl. lia.
Qed.

Lemma pop_older_filter {A} (sec : A → Z) floor l :
  StronglySorted (λ a b, sec a ≤ sec b) l →
  pop_older sec floor l = List.filter (λ x, floor <=? sec x) l.
Proof.
  intros Hs. destruct (sorted_cut sec floor l Hs) as (old & E & Ho & Hn). rewrite E at 2.
  rewrite List.filter_app, filter_none, filter_id; [done| |];
    eapply Forall_impl; [exact Hn| |exact Ho|]; simpl; lia.
Qed.

Lemma pop_beyond_lastn {A} cap (l : list A) : pop_beyond cap l = lastn cap l.
Proof.
  unfold lastn. induction l as [|x l IH]; [done|]. cbn [pop_beyond]. simpl length.
  destruct (cap <? S (length l))%nat eqn:E.
  - rewrite IH. apply Nat.ltb_lt in E. by replace (S (length l) - cap)%nat with (S (length l - cap)) by lia.
  - apply Nat.ltb_ge in E. by replace (S (length l) - cap)%nat with 0%nat by lia.
Qed.

Lemma lastn_app_lastn {A} n (l k : list A) : lastn n (lastn n l ++ k) = lastn n (l ++ k).
Proof.
  unfold lastn. rewrite !length_app, length_drop. destruct (decide (length l ≤ n)%nat) as [Hle|Hgt].
  - replace (length l - n)%nat with 0%nat by lia. rewrite drop_0. f_equal. lia.
  - rewrite !skipn_app, drop_drop. rewrite length_drop. f_equal; f_equal; lia.
Qed.

Lemma lastn_app {A} n (a b : list A) : lastn n (a ++ b) = lastn (n - length b) a ++ lastn n b.
Proof.
  unfold lastn. rewrite length_app, skipn_app. f_equal; [|f_equal; lia].
  destruct (decide (length b ≤ n)%nat); [f_equal; lia|]. by rewrite !skipn_all2 by lia.
Qed.

Lemma sorted_drop {A} (R : A → A → Prop) k l : StronglySorted R l → StronglySorted R (drop k l).
Proof.
  revert l. induction k as [|k IH]; intros l Hs; [done|].
  destruct Hs as [|x l Hs _]; [constructor|]. by apply IH.
Qed.

Lemma Forall_lastn {A} (P : A → Prop) n l : Forall P l → Forall P (lastn n l).
Proof. apply Forall_drop. Qed.

Lemma pop_older_lastn {A} (sec : A → Z) floor n l :
  StronglySorted (λ a b, sec a ≤ sec b) l →
  List.filter (λ x, floor <=? sec x) (lastn n l) = lastn n (List.filter (λ x, floor <=? sec x) l).
Proof.
  intros Hs. destruct (sorted_cut sec floor l Hs) as (old & E & Ho & Hn).
  rewrite <- (pop_older_filter _ _ l Hs). rewrite E at 1.
  rewrite lastn_app, List.filter_app, filter_none, filter_id; [done| |];
    eapply Forall_impl; [apply Forall_lastn, Hn| |apply Forall_lastn, Ho|]; simpl; lia.
Qed.

(** ** One second after another *)

Definition total (c : Counter) (bs : list Bucket) : Z := foldr (λ b s, counter c b + s) 0 bs.
Definition since (floor : Z) (bs : list Bucket) : list Bucket := List.filter (λ b, floor <=? b_sec b) bs.

Lemma total_app c bs cs : total c (bs ++ cs) = total c bs + total c cs.
Proof. unfold total. induction bs as [|b bs IH]; simpl; lia. Qed.

Lemma since_app floor bs cs : since floor (bs ++ cs) = since floor bs ++ since floor cs.
Proof. apply List.filter_app. Qed.

Lemma since_since f g bs : f ≤ g → since g (since f bs) = since g bs.
Proof.
  intros Hle. unfold since. induction bs as [|b bs IH]; simpl; [done|].
  destruct (f <=? b_sec b) eqn:Ef; simpl; rewrite ?IH; [done|].
  assert ((g <=? b_sec b) = false) as -> by lia. done.
Qed.

(** What a bucket counts after one more event. *)
Definition bump_event (e : Event) : Bucket → Bucket :=
  match e with Ended o _ => bump o | FellBack o => bump_fallback o end.

Lemma bump_counter e c b :
  counter c (bump_event e b) = counter c b + (if decide (counter_of e = c) then 1 else 0).
Proof. destruct b, e as [[] ?|[]], c as [[]|[]]; simpl; lia. Qed.

Lemma bump_sec e b : b_sec (bump_event e b) = b_sec b.
Proof. by destruct b, e as [[] ?|[]]. Qed.

Lemma back_mut_snoc f bs b : back_mut f (bs ++ [b]) = bs ++ [f b].
Proof. induction bs as [|x bs IH]; [done|]. simpl. rewrite IH. by destruct bs. Qed.

Definition ordered (bs : list Bucket) : Prop := StronglySorted (λ a b, b_sec a < b_sec b) bs.

Lemma ordered_le bs : ordered bs → StronglySorted (λ a b, b_sec a ≤ b_sec b) bs.
Proof. induction 1 as [|b bs _ IH H]; constructor; [done|]. eapply Forall_impl; [exact H|]. simpl. lia. Qed.

Lemma sorted_snoc {A} (R : A → A → Prop) l x :
  StronglySorted R l → Forall (λ y, R y x) l → StronglySorted R (l ++ [x]).
Proof.
  induction 1 as [|y l _ IH Hy]; intros Hx; simpl; [by repeat constructor|]. inversion_clear Hx.
  constructor; [by apply IH|]. apply Forall_app. split; [done|by constructor].
Qed.

Lemma sorted_app_inv {A} (R : A → A → Prop) l x :
  StronglySorted R (l ++ [x]) → StronglySorted R l ∧ Forall (λ y, R y x) l.
Proof.
  induction l as [|y l IH]; simpl; intros Hs; [by repeat constructor|].
  inversion_clear Hs as [|?? Hs' Hy]. apply IH in Hs' as [? ?]. apply Forall_app in Hy as [? Hyx].
  inversion_clear Hyx. by split; constructor.
Qed.

(** The current bucket is the last one, and adding it changes no count. *)
Lemma current_bucket_shape now bs :
  ordered bs → Forall (λ b, b_sec b ≤ now) bs →
  ∃ pre b, current_bucket now bs = pre ++ [b] ∧ b_sec b = now ∧ ordered (pre ++ [b]) ∧
    (∀ x, x ∈ pre → x ∈ bs) ∧ ∀ c f, total c (since f (pre ++ [b])) = total c (since f bs).
Proof.
  intros Hs Hle. unfold current_bucket.
  assert (∀ b, b_sec b = now → Forall (λ x, b_sec x < now) bs → (∀ c, counter c b = 0) →
    ordered (bs ++ [b]) ∧ ∀ c f, total c (since f (bs ++ [b])) = total c (since f bs)) as Hnew.
  { intros b Hb Hlt Hz. split.
    - apply sorted_snoc; [done|]. by rewrite Hb.
    - intros c f. rewrite since_app, total_app. unfold since at 2. simpl. destruct (f <=? b_sec b); simpl; rewrite ?Hz; lia. }
  assert (∀ c, counter c (new_bucket now) = 0) as Hz by by intros [[]|[]].
  destruct (last bs) as [b|] eqn:Hlast.
  - apply last_Some in Hlast as [pre ->]. apply sorted_app_inv in Hs as Hs'. destruct Hs' as [Hpre Hlt].
    apply Forall_app in Hle as [_ Hb]. inversion_clear Hb as [|?? Hbn _].
    destruct (b_sec b =? now) eqn:E.
    + exists pre, b. split_and!; [done|lia|done|set_solver|done].
    + exists (pre ++ [b]), (new_bucket now). destruct (Hnew (new_bucket now)) as [Ho Ht]; [done| |done|].
      { apply Forall_app. split; [|constructor; [lia|done]]. eapply Forall_impl; [exact Hlt|]. simpl. lia. }
      by split_and!.
  - apply last_None in Hlast as ->. exists [], (new_bucket now).
    destruct (Hnew (new_bucket now)) as [Ho Ht]; [done..|]. split_and!; [done..|].
    intros c f. rewrite <- Ht. done.
Qed.

(** ** The invariant *)

(** [floor] is the last one that was evicted below. *)
Record tracks (floor now : Z) (log : Log) (r : Rolling) : Prop := {
  tr_ordered : ordered (buckets r);
  tr_range : Forall (λ b, floor ≤ b_sec b ≤ now) (buckets r);
  tr_counts : ∀ c f, floor ≤ f → total c (since f (buckets r)) = observed c f log;
  tr_latencies : latencies r = lastn MAX_LATENCIES (samples floor log);
  tr_log : StronglySorted (λ a b, a.1 ≤ b.1) log;
  tr_now : Forall (λ x, x.1 ≤ now) log }.

Lemma samples_sorted floor log :
  StronglySorted (λ a b : Z * Event, a.1 ≤ b.1) log → StronglySorted (λ a b : Z * Z, a.1 ≤ b.1) (samples floor log).
Proof.
  unfold samples. induction 1 as [|[s e] log _ IH Hx]; [constructor|].
  assert (Forall (λ b : Z * Z, s ≤ b.1) (List.filter (λ s, floor <=? s.1) (omap latency_sample log))) as Hs.
  { apply Forall_forall. intros [t l] [Hin _]%filter_elem_of. apply list_elem_of_omap in Hin as ([t' e'] & Hin & Hs).
    rewrite Forall_forall in Hx. specialize (Hx _ Hin). unfold latency_sample in Hs. simpl in *.
    destruct e'; [|done]. destruct (has_latency _); [|done]. by injection Hs as -> _. }
  simpl. destruct (latency_sample (s, e)) as [[t l]|] eqn:E; simpl; [|done].
  destruct (floor <=? t); [|done]. constructor; [done|].
  unfold latency_sample in E. simpl in E. destruct e; [|done]. destruct (has_latency _); [|done]. by injection E as <- _.
Qed.

Lemma samples_samples f g log :
  f ≤ g → List.filter (λ s, g <=? s.1) (samples f log) = samples g log.
Proof.
  intros Hle. unfold samples. induction (omap latency_sample log) as [|[s l] k IH]; simpl; [done|].
  destruct (f <=? s) eqn:Ef; simpl; rewrite ?IH; [done|]. assert ((g <=? s) = false) as -> by lia. done.
Qed.

Lemma window_floor_mono a b : a ≤ b → window_floor a ≤ window_floor b.
Proof. unfold window_floor, u64_saturating_sub. lia. Qed.
Lemma window_floor_le now : 0 ≤ now → window_floor now ≤ now.
Proof. unfold window_floor, u64_saturating_sub, WINDOW_SECS. lia. Qed.

Lemma evict_tracks floor now log r now' :
  tracks floor now log r → now ≤ now' → floor ≤ window_floor now' →
  tracks (window_floor now') now' log (evict now' r).
Proof.
  intros [Ho Hr Hc Hl Hs Hn] Hnow Hf. unfold evict.
  assert (pop_older b_sec (window_floor now') (buckets r) = since (window_floor now') (buckets r)) as Eb
    by by apply pop_older_filter, ordered_le.
  split; simpl; rewrite ?Eb.
  - destruct (sorted_cut b_sec (window_floor now') (buckets r)) as (old & E & _); [by apply ordered_le|].
    rewrite Eb in E. rewrite E in Ho. clear -Ho. induction old; [done|]. apply IHold. by inversion Ho.
  - apply Forall_forall. intros b [Hin Hb]%filter_elem_of. rewrite Forall_forall in Hr.
    apply Hr in Hin. lia.
  - intros c f Hle. rewrite since_since by done. apply Hc. lia.
  - rewrite pop_older_filter; rewrite Hl.
    + rewrite pop_older_lastn by by apply samples_sorted. by rewrite samples_samples.
    + by apply sorted_drop, samples_sorted.
  - done.
  - eapply Forall_impl; [exact Hn|]. simpl. lia.
Qed.

Lemma observed_snoc c f log now e :
  observed c f (log ++ [(now, e)]) =
  observed c f log + (if decide (f ≤ now ∧ counter_of e = c) then 1 else 0).
Proof.
  unfold observed. rewrite List.filter_app, length_app, Nat2Z.inj_add. f_equal. simpl.
  destruct (decide _) as [[Hf Hc]|Hne].
  - rewrite bool_decide_eq_true_2 by done. by assert ((f <=? now) = true) as -> by lia.
  - destruct (f <=? now) eqn:E; [|done]. rewrite bool_decide_eq_false_2; [done|]. intros ?. apply Hne. split; [lia|done].
Qed.

Lemma samples_snoc f log now e :
  f ≤ now → samples f (log ++ [(now, e)]) =
  samples f log ++ match latency_sample (now, e) with Some s => [s] | None => [] end.
Proof.
  intros Hf. unfold samples. rewrite omap_app, List.filter_app. f_equal. simpl.
  destruct (latency_sample (now, e)) as [[t l]|] eqn:E; [|done]. simpl.
  assert (t = now) as -> by (unfold latency_sample in E; simpl in E; destruct e; [|done]; destruct (has_latency _); [|done]; by injection E as <- _).
  by assert ((f <=? now) = true) as -> by lia.
Qed.

Lemma event_tracks floor now log r now' e :
  tracks floor now log r → 0 ≤ now ≤ now' → floor ≤ window_floor now' →
  tracks (window_floor now') now' (log ++ [(now', e)]) (log_event now' e r).
Proof.
  intros Ht Hnow Hf. pose proof (window_floor_le now') as Hle.
  apply (evict_tracks _ _ _ _ now') in Ht as [Ho Hr Hc Hl Hs Hn]; [|lia|done].
  destruct (current_bucket_shape now' (buckets (evict now' r)) Ho) as (pre & b & E & Hb & Hob & Hin & Hsum).
  { eapply Forall_impl; [exact Hr|]. simpl. lia. }
  assert (buckets (log_event now' e r) = pre ++ [bump_event e b]) as Ebs.
  { destruct e; unfold log_event, record, record_fallback; cbn [buckets]; rewrite E; apply back_mut_snoc. }
  assert (b_sec (bump_event e b) = now') as Hsec by by rewrite bump_sec.
  apply sorted_app_inv in Hob as [Hpre Hlt]. split.
  - rewrite Ebs. apply sorted_snoc; [done|]. eapply Forall_impl; [exact Hlt|]. simpl. by rewrite Hsec, Hb.
  - rewrite Ebs. apply Forall_app. split; [|constructor; [rewrite Hsec; lia|done]].
    apply Forall_forall. intros x Hx%Hin. rewrite Forall_forall in Hr. by apply Hr.
  - intros c f Hf'. rewrite Ebs, observed_snoc, <- Hc, <- Hsum, !since_app, !total_app by lia.
    unfold since at 2 4. simpl. rewrite Hsec, Hb. destruct (f <=? now') eqn:Ef.
    + simpl. rewrite bump_counter. do 2 destruct (decide _); lia || naive_solver lia.
    + simpl. destruct (decide _); lia.
  - rewrite samples_snoc by lia. unfold log_event, record, record_fallback, latency_sample.
    destruct e as [o l|o]; cbn [latencies fst snd]; [|by rewrite app_nil_r].
    destruct (has_latency o); [|by rewrite app_nil_r].
    rewrite pop_beyond_lastn, Hl. apply lastn_app_lastn.
  - apply sorted_snoc; [done|]. eapply Forall_impl; [exact Hn|]. done.
  - apply Forall_app. split; [done|]. by repeat constructor.
Qed.

(** ** Histories of one window *)

Inductive window_of (rank : Z → nat → nat) : Z → Log → Rolling → Prop :=
| window_new now : 0 ≤ now → window_of rank now [] Rolling_new
| window_wait now log r now' :
    window_of rank now log r → now ≤ now' → window_of rank now' log r
| window_event now log r now' e :
    window_of rank now log r → now ≤ now' →
    window_of rank now' (log ++ [(now', e)]) (log_event now' e r)
| window_snapshot now log r now' :
    window_of rank now log r → now ≤ now' → window_of rank now' log (snapshot rank now' r).2
| window_count now log r now' :
    window_of rank now log r → now ≤ now' → window_of rank now' log (request_count now' r).2.

Lemma window_tracks rank now log r :
  window_of rank now log r → 0 ≤ now ∧ ∃ floor, floor ≤ window_floor now ∧ tracks floor now log r.
Proof.
  induction 1 as [now Hn|now log r now' _ (Hn & f & Hf & IH) Hle|now log r now' e _ (Hn & f & Hf & IH) Hle|now log r now' _ (Hn & f & Hf & IH) Hle
    |now log r now' _ (Hn & f & Hf & IH) Hle].
  - split; [done|]. exists 0. split; [unfold window_floor, u64_saturating_sub; lia|].
    split; simpl; try constructor; try done.
  - pose proof (window_floor_mono _ _ Hle). split; [lia|]. exists f. split; [lia|].
    destruct IH as [Ho Hr Hc Hl Hs Hnow]. split; try done.
    + eapply Forall_impl; [exact Hr|]. simpl. lia.
    + eapply Forall_impl; [exact Hnow|]. simpl. lia.
  - pose proof (window_floor_mono _ _ Hle). split; [lia|]. exists (window_floor now'). split; [done|].
    eapply event_tracks; [done|lia|lia].
  - pose proof (window_floor_mono _ _ Hle). split; [lia|]. exists (window_floor now'). split; [done|].
    eapply evict_tracks; [done|lia|lia].
  - pose proof (window_floor_mono _ _ Hle). split; [lia|]. exists (window_floor now'). split; [done|].
    eapply evict_tracks; [done|lia|lia].
Qed.

Lemma foldl_add_bucket sum bs :
  foldl add_bucket sum bs =
  mkSum (w_success sum + total (C_Main Outcome_Success) bs) (w_failure sum + total (C_Main Outcome_Failure) bs)
        (w_timeout sum + total (C_Main Outcome_Timeout) bs) (w_rejected sum + total (C_Main Outcome_Rejected) bs)
        (w_canceled sum + total (C_Main Outcome_Canceled) bs)
        (w_fallback_success sum + total (C_Fallback Fallback_Success) bs)
        (w_fallback_failure sum + total (C_Fallback Fallback_Failure) bs) (w_latency sum).
Proof.
  revert sum. induction bs as [|b bs IH]; intros sum; simpl.
  - destruct sum; simpl. f_equal; lia.
  - rewrite IH. unfold add_bucket. cbn. f_equal; lia.
Qed.

Definition window_counter (c : Counter) (w : WindowSum) : Z :=
  match c with
  | C_Main Outcome_Success => w_success w
  | C_Main Outcome_Failure => w_failure w
  | C_Main Outcome_Timeout => w_timeout w
  | C_Main Outcome_Rejected => w_rejected w
  | C_Main Outcome_Canceled => w_canceled w
  | C_Fallback Fallback_Success => w_fallback_success w
  | C_Fallback Fallback_Failure => w_fallback_failure w
  end.

Lemma snapshot_counter rank now r c :
  window_counter c (snapshot rank now r).1 = total c (buckets (evict now r)).
Proof. unfold snapshot. rewrite foldl_add_bucket. destruct c as [[]|[]]; simpl; lia. Qed.

Lemma request_count_total now r :
  (request_count now r).1 =
  total (C_Main Outcome_Success) (buckets (evict now r)) + total (C_Main Outcome_Failure) (buckets (evict now r))
  + total (C_Main Outcome_Timeout) (buckets (evict now r)) + total (C_Main Outcome_Rejected) (buckets (evict now r))
  + total (C_Main Outcome_Canceled) (buckets (evict now r)).
Proof.
  unfold request_count. cbn [fst]. generalize (buckets (evict now r)). intros bs.
  induction bs as [|b bs IH]; simpl; lia.
Qed.

(** All buckets are in the window after an eviction. *)
Lemma evicted_total rank now log r now' c :
  window_of rank now log r → now ≤ now' →
  total c (buckets (evict now' r)) = observed c (window_floor now') log.
Proof.
  intros (_ & f & Hf & Ht)%window_tracks Hle. pose proof (window_floor_mono _ _ Hle).
  apply (evict_tracks _ _ _ _ now') in Ht; [|done|lia]. rewrite <- (tr_counts _ _ _ _ Ht) by done. f_equal.
  unfold since. symmetry. apply filter_id. eapply Forall_impl; [apply (tr_range _ _ _ _ Ht)|]. simpl. lia.
Qed.

Lemma evicted_latencies rank now log r now' :
  window_of rank now log r → now ≤ now' →
  latencies (evict now' r) = lastn MAX_LATENCIES (samples (window_floor now') log).
Proof.
  intros (_ & f & Hf & Ht)%window_tracks Hle. pose proof (window_floor_mono _ _ Hle).
  apply (evict_tracks _ _ _ _ now') in Ht; [|done|lia]. apply (tr_latencies _ _ _ _ Ht).
Qed.
