(* ===== verification/HystrixManaged.v ===== *)
(** * The owner of managed commands

    [hystrix]: managed.rs.  A generation of commands is owned by one
    [ManagedState]: calls enter through its gate, two tasks (the observer and the
    owner of the shutdown) hold guards, and whoever returns the last of these
    responsibilities revokes the generation from the global tables and publishes
    how it ended_sys.  Threads interleave at every atomic access and every critical
    section; what a call does between its entry and its return is [body_step],
    on a state [X] of its own.  A generation is identified by its number. *)

From Stdlib Require Import ZArith Lia.
From S2P Require Import Prelude.
From stdpp Require Import prelude list relations.

Local Open Scope Z_scope.
Local Open Scope rust_scope.

(** ** State *)

Record Completion := mkCompletion { tasks : Z; failed : bool; published : bool }.

(** [ManagedState]: the gate, the calls under way, the cancellation of the
    observer, what is left to return, and the result for whoever waits. *)
Record ManagedState := mkManaged {
  generation : Z;
  gate : bool;
  active : Z;
  cancelled : bool;
  completion : Completion;
  done : option bool }.

(** The process-wide tables: [OWNER], the generations of the registered
    commands (none for a standalone one), [ISOLATION]. *)
Record Globals := mkGlobals {
  owner : option Z;
  registry : list (option Z);
  isolation : option (option Z) }.

Definition ManagedState_new (generation : Z) : ManagedState :=
  mkManaged generation true 0 false (mkCompletion 2 false false) None.

Definition set_gate (b : bool) (m : ManagedState) : ManagedState :=
  mkManaged (generation m) b (active m) (cancelled m) (completion m) (done m).
Definition set_active (n : Z) (m : ManagedState) : ManagedState :=
  mkManaged (generation m) (gate m) n (cancelled m) (completion m) (done m).
Definition set_cancelled (m : ManagedState) : ManagedState :=
  mkManaged (generation m) (gate m) (active m) true (completion m) (done m).
Definition set_completion (c : Completion) (m : ManagedState) : ManagedState :=
  mkManaged (generation m) (gate m) (active m) (cancelled m) c (done m).
Definition set_done (r : bool) (m : ManagedState) : ManagedState :=
  mkManaged (generation m) (gate m) (active m) (cancelled m) (completion m) (Some r).

(** [ManagedState::enter]: the count is taken while the gate is locked. *)
Definition enter (m : ManagedState) : option ManagedState :=
  if gate m then Some (set_active (active m + 1) m) else None.

(** [finish_if_idle], first critical section: the outcome, for the one that
    publishes. *)
Definition finish_if_idle (m : ManagedState) : option (bool * ManagedState) :=
  let c := completion m in
  if negb (tasks c =? 0) || negb (active m =? 0) || published c then None
  else Some (negb (failed c), set_completion (mkCompletion (tasks c) (failed c) true) m).

(** [revoke], under the lock of [OWNER]. *)
Definition revoke (generation : Z) (g : Globals) : Globals :=
  if bool_decide (owner g = Some generation)
  then mkGlobals None (List.filter (λ c, negb (bool_decide (c = Some generation))) (registry g)) None
  else g.

(** [TaskGuard::drop], the critical section of the completion. *)
Definition return_task (succeeded : bool) (m : ManagedState) : ManagedState :=
  let c := completion m in
  set_completion (mkCompletion (tasks c - 1) (failed c || negb succeeded) (published c)) m.

(** ** Threads *)

(** [TaskGuard::drop], then [finish_if_idle]. *)
Inductive GuardPc :=
| Dropping (succeeded : bool)      (* before the gate is closed *)
| Closing (succeeded : bool)       (* before the cancellation *)
| Completing (succeeded : bool)    (* before the completion is updated *)
| Checking                         (* before [finish_if_idle] *)
| Publishing (success : bool)      (* before [revoke] *)
| Announcing (success : bool)      (* before [send_replace] *)
| Dropped.

Inductive ObserverPc :=
| Observing
| ObserverEnds (g : GuardPc).

(** The second task awaits the first, closes the gate and waits for the calls. *)
Inductive OwnerPc :=
| Awaiting_task
| Awaited (success : bool)         (* before the gate is closed *)
| Gate_closed (success : bool)     (* before the cancellation *)
| Watching (success woken : bool)  (* [notified] created, before reading [active] *)
| Parked (success woken : bool)    (* in [notified.await] *)
| OwnerEnds (g : GuardPc).

Section system.
Context {X B : Type} (body_step : X → B → X → B → Prop) (env_step : X → X → Prop).
Context (entry : B) (returns : B → bool).

Inductive CallPc :=
| Arrived
| Inside (b : B)                   (* holds a [CallGuard] *)
| LastOut                          (* fetch_sub returned 1, before [notify_waiters] *)
| Notified                         (* before [finish_if_idle] *)
| PublishingCall (success : bool)
| AnnouncingCall (success : bool)
| Gone.

Record ManagedSys := mkSys {
  managed : ManagedState;
  globals : Globals;
  observer : ObserverPc;
  observer_ok : bool;              (* how the observer ended, for its join handle *)
  owner_task : OwnerPc;
  calls : list CallPc;
  shared : X }.

Definition set_managed (m : ManagedState) (s : ManagedSys) : ManagedSys :=
  mkSys m (globals s) (observer s) (observer_ok s) (owner_task s) (calls s) (shared s).
Definition set_globals (g : Globals) (s : ManagedSys) : ManagedSys :=
  mkSys (managed s) g (observer s) (observer_ok s) (owner_task s) (calls s) (shared s).
Definition set_observer (o : ObserverPc) (s : ManagedSys) : ManagedSys :=
  mkSys (managed s) (globals s) o (observer_ok s) (owner_task s) (calls s) (shared s).
Definition set_owner_task (o : OwnerPc) (s : ManagedSys) : ManagedSys :=
  mkSys (managed s) (globals s) (observer s) (observer_ok s) o (calls s) (shared s).
Definition set_call (i : nat) (c : CallPc) (s : ManagedSys) : ManagedSys :=
  mkSys (managed s) (globals s) (observer s) (observer_ok s) (owner_task s) (<[i := c]> (calls s)) (shared s).

(** [notify_waiters] wakes a future that exists. *)
Definition notify_waiters (o : OwnerPc) : OwnerPc :=
  match o with
  | Watching success _ => Watching success true
  | Parked success _ => Parked success true
  | _ => o
  end.

(** One step of a guard's drop. *)
Definition guard_step (p : GuardPc) (m : ManagedState) (g : Globals) : option (GuardPc * ManagedState * Globals) :=
  match p with
  | Dropping ok => Some (Closing ok, set_gate false m, g)
  | Closing ok => Some (Completing ok, set_cancelled m, g)
  | Completing ok => Some (Checking, return_task ok m, g)
  | Checking =>
      match finish_if_idle m with
      | Some (success, m') => Some (Publishing success, m', g)
      | None => Some (Dropped, m, g)
      end
  | Publishing success => Some (Announcing success, m, revoke (generation m) g)
  | Announcing success => Some (Dropped, set_done success m, g)
  | Dropped => None
  end.

(** Steps of the calls, the tasks and the guards. *)
Inductive internal : ManagedSys → ManagedSys → Prop :=
| call_enter s i m :
    calls s !! i = Some Arrived → enter (managed s) = Some m →
    internal s (set_call i (Inside entry) (set_managed m s))
| call_closed s i :
    calls s !! i = Some Arrived → enter (managed s) = None → internal s (set_call i Gone s)
| call_body s i b x b' :
    calls s !! i = Some (Inside b) → body_step (shared s) b x b' →
    internal s (mkSys (managed s) (globals s) (observer s) (observer_ok s) (owner_task s)
                  (<[i := Inside b']> (calls s)) x)
| call_leave s i b :
    calls s !! i = Some (Inside b) → returns b = true →
    internal s (set_call i (if active (managed s) =? 1 then LastOut else Gone)
                  (set_managed (set_active (active (managed s) - 1) (managed s)) s))
| call_notify s i :
    calls s !! i = Some LastOut →
    internal s (set_call i Notified (set_owner_task (notify_waiters (owner_task s)) s))
| call_idle s i success m :
    calls s !! i = Some Notified → finish_if_idle (managed s) = Some (success, m) →
    internal s (set_call i (PublishingCall success) (set_managed m s))
| call_busy s i :
    calls s !! i = Some Notified → finish_if_idle (managed s) = None → internal s (set_call i Gone s)
| call_revoke s i success :
    calls s !! i = Some (PublishingCall success) →
    internal s (set_call i (AnnouncingCall success)
                  (set_globals (revoke (generation (managed s)) (globals s)) s))
| call_announce s i success :
    calls s !! i = Some (AnnouncingCall success) →
    internal s (set_call i Gone (set_managed (set_done success (managed s)) s))
| observer_break s :
    observer s = Observing → cancelled (managed s) = true →
    internal s (mkSys (managed s) (globals s) (ObserverEnds (Dropping true)) true (owner_task s) (calls s) (shared s))
| observer_guard s g g' m gl :
    observer s = ObserverEnds g → guard_step g (managed s) (globals s) = Some (g', m, gl) →
    internal s (set_observer (ObserverEnds g') (set_managed m (set_globals gl s)))
| owner_joins s :
    owner_task s = Awaiting_task → observer s = ObserverEnds Dropped →
    internal s (set_owner_task (Awaited (observer_ok s)) s)
| owner_closes s success :
    owner_task s = Awaited success →
    internal s (set_owner_task (Gate_closed success) (set_managed (set_gate false (managed s)) s))
| owner_cancels s success :
    owner_task s = Gate_closed success →
    internal s (set_owner_task (Watching success false) (set_managed (set_cancelled (managed s)) s))
| owner_sees_idle s success woken :
    owner_task s = Watching success woken → active (managed s) = 0 →
    internal s (set_owner_task (OwnerEnds (Dropping success)) s)
| owner_parks s success woken :
    owner_task s = Watching success woken → active (managed s) ≠ 0 →
    internal s (set_owner_task (Parked success woken) s)
| owner_wakes s success :
    owner_task s = Parked success true → internal s (set_owner_task (Watching success false) s)
| owner_guard s g g' m gl :
    owner_task s = OwnerEnds g → guard_step g (managed s) (globals s) = Some (g', m, gl) →
    internal s (set_owner_task (OwnerEnds g') (set_managed m (set_globals gl s))).

(** What the rest of the process does: calls arrive, the shutdown is requested
    ([begin_shutdown]), the executor destroys a task, commands are built and
    another generation starts. *)
Inductive external : ManagedSys → ManagedSys → Prop :=
| ext_arrive s :
    external s (mkSys (managed s) (globals s) (observer s) (observer_ok s) (owner_task s)
                  (calls s ++ [Arrived]) (shared s))
| ext_shut s : external s (set_managed (set_gate false (managed s)) s)
| ext_cancel s : gate (managed s) = false → external s (set_managed (set_cancelled (managed s)) s)
| ext_kill_observer s :
    observer s = Observing →
    external s (mkSys (managed s) (globals s) (ObserverEnds (Dropping false)) false (owner_task s) (calls s) (shared s))
| ext_kill_owner s success woken :
    (owner_task s = Awaiting_task ∨ owner_task s = Parked success woken) →
    external s (set_owner_task (OwnerEnds (Dropping false)) s)
| ext_build s c :
    (match owner (globals s) with
     | Some g => c = Some g ∧ (g = generation (managed s) → gate (managed s) = true)
     | None => c = None
     end) →
    external s (set_globals (mkGlobals (owner (globals s)) (c :: registry (globals s)) (isolation (globals s))) s)
| ext_start s g :
    owner (globals s) = None → registry (globals s) = [] → isolation (globals s) = None →
    g ≠ generation (managed s) →
    external s (set_globals (mkGlobals (Some g) [] (Some (Some g))) s)
| ext_revoke s g :
    g ≠ generation (managed s) → external s (set_globals (revoke g (globals s)) s)
| ext_isolate s :
    owner (globals s) = None → isolation (globals s) = None →
    external s (set_globals (mkGlobals None (registry (globals s)) (Some None)) s)
| ext_shared s x :
    env_step (shared s) x →
    external s (mkSys (managed s) (globals s) (observer s) (observer_ok s) (owner_task s) (calls s) x).

Definition sys_step (s s' : ManagedSys) : Prop := internal s s' ∨ external s s'.

(** [ManagedRuntime::start], once the tables were free. *)
Definition started (g : Z) (x : X) : ManagedSys :=
  mkSys (ManagedState_new g) (mkGlobals (Some g) [] (Some (Some g))) Observing false Awaiting_task [] x.
Definition sys_reachable (g : Z) (x : X) (s : ManagedSys) : Prop := rtc sys_step (started g x) s.
End system.
