(* ===== verification/HystrixManagedLaws.v ===== *)
(** * How a generation of commands ends

    One invariant of the interleaved system, and a measure for its termination. *)

From Stdlib Require Import ZArith Lia.
From S2P Require Import Prelude HystrixManaged.
From stdpp Require Import prelude list relations.

Local Open Scope Z_scope.
Local Open Scope rust_scope.

(** ** Sums over threads *)

Definition sum_over {A} (f : A → Z) (l : list A) : Z := foldr (λ c s, f c + s) 0 l.

Lemma tally_insert {A} (f : A → Z) l i c c' :
  l !! i = Some c → sum_over f (<[i := c']> l) = sum_over f l - f c + f c'.
Proof.
  revert i. induction l as [|x l IH]; intros [|i] H; simpl in *; [done..| |].
  - injection H as ->. lia.
  - rewrite (IH _ H). lia.
Qed.

Lemma tally_snoc {A} (f : A → Z) l c : sum_over f (l ++ [c]) = sum_over f l + f c.
Proof. induction l as [|x l IH]; simpl in *; lia. Qed.

Lemma tally_nonneg {A} (f : A → Z) l : (∀ c, 0 ≤ f c) → 0 ≤ sum_over f l.
Proof. intros Hf. induction l as [|x l IH]; simpl; [done|]. pose proof (Hf x). lia. Qed.

Lemma tally_elem {A} (f : A → Z) l i c : (∀ c, 0 ≤ f c) → l !! i = Some c → f c ≤ sum_over f l.
Proof.
  intros Hf. revert i. induction l as [|x l IH]; intros [|i] H; simpl in *; [done..| |].
  - injection H as ->. pose proof (tally_nonneg f l Hf). lia.
  - apply IH in H. pose proof (Hf x). lia.
Qed.

Section laws.
Context {X B : Type} (body_step : X → B → X → B → Prop) (env_step : X → X → Prop).
Context (entry : B) (returns : B → bool).

Abbreviation ManagedSys := (@ManagedSys X B).
Abbreviation CallPc := (@CallPc B).
Abbreviation internal := (internal body_step entry returns).
Abbreviation external := (external (B := B) env_step).
Abbreviation sys_step := (sys_step body_step env_step entry returns).

(** ** What a thread holds *)

Definition b2z (b : bool) : Z := if b then 1 else 0.

Definition c_inside (c : CallPc) : Z := match c with Inside _ => 1 | _ => 0 end.
Definition c_last (c : CallPc) : Z := match c with LastOut => 1 | _ => 0 end.
Definition c_checks (c : CallPc) : Z := match c with LastOut | Notified => 1 | _ => 0 end.
Definition c_revokes (c : CallPc) : Z := match c with PublishingCall _ => 1 | _ => 0 end.
Definition c_publishes (c : CallPc) : Z :=
  match c with PublishingCall _ | AnnouncingCall _ => 1 | _ => 0 end.

Definition g_pending (g : GuardPc) : Z := match g with Dropping _ | Closing _ | Completing _ => 1 | _ => 0 end.
Definition g_checks (g : GuardPc) : Z := match g with Checking => 1 | _ => 0 end.
Definition g_revokes (g : GuardPc) : Z := match g with Publishing _ => 1 | _ => 0 end.
Definition g_publishes (g : GuardPc) : Z := match g with Publishing _ | Announcing _ => 1 | _ => 0 end.
Definition g_open (g : GuardPc) : bool := match g with Dropping _ => true | _ => false end.

Definition on_observer {T} (running : T) (f : GuardPc → T) (o : ObserverPc) : T :=
  match o with Observing => running | ObserverEnds g => f g end.
Definition on_owner {T} (running : T) (f : GuardPc → T) (o : OwnerPc) : T :=
  match o with OwnerEnds g => f g | _ => running end.

(** A task that has not closed the gate. *)
Definition owner_open (o : OwnerPc) : bool :=
  match o with Awaiting_task | Awaited _ => true | OwnerEnds g => g_open g | _ => false end.

(** The sum of a weight over the tasks and the calls. *)
Definition weigh (running : Z) (fg : GuardPc → Z) (fc : CallPc → Z) (s : ManagedSys) : Z :=
  on_observer running fg (observer s) + on_owner running fg (owner_task s) + sum_over fc (calls s).

Definition n_inside (s : ManagedSys) : Z := sum_over c_inside (calls s).
Definition n_checks : ManagedSys → Z := weigh 0 g_checks c_checks.
Definition n_revokes : ManagedSys → Z := weigh 0 g_revokes c_revokes.
Definition n_publishes : ManagedSys → Z := weigh 0 g_publishes c_publishes.
Definition n_pending (s : ManagedSys) : Z :=
  on_observer 1 g_pending (observer s) + on_owner 1 g_pending (owner_task s).

Definition is_done (m : ManagedState) : Z := match done m with Some _ => 1 | None => 0 end.

(** Whoever is about to announce a result announces [b]. *)
Definition g_says (b : bool) (g : GuardPc) : Prop :=
  match g with Publishing b' | Announcing b' => b' = b | _ => True end.
Definition c_says (b : bool) (c : CallPc) : Prop :=
  match c with PublishingCall b' | AnnouncingCall b' => b' = b | _ => True end.

(** ** The invariant *)

Definition unrevoked (g : Z) (gl : Globals) : Prop :=
  owner gl = Some g ∧ Forall (λ c, c = Some g) (registry gl) ∧ isolation gl = Some (Some g).
Definition revoked (g : Z) (gl : Globals) : Prop :=
  owner gl ≠ Some g ∧ Forall (λ c, c ≠ Some g) (registry gl) ∧ isolation gl ≠ Some (Some g).

Record sys_inv (g : Z) (s : ManagedSys) : Prop := {
  inv_generation : generation (managed s) = g;
  inv_active : active (managed s) = n_inside s;
  inv_tasks : tasks (completion (managed s)) = n_pending s;
  inv_published : b2z (published (completion (managed s))) = is_done (managed s) + n_publishes s;
  inv_quiet : published (completion (managed s)) = true →
    gate (managed s) = false ∧ active (managed s) = 0 ∧ tasks (completion (managed s)) = 0;
  inv_open : gate (managed s) = true →
    on_observer true g_open (observer s) = true ∧ owner_open (owner_task s) = true;
  inv_live : published (completion (managed s)) = false →
    1 ≤ tasks (completion (managed s)) + active (managed s) + n_checks s;
  inv_wake : ∀ success, owner_task s = Parked success false →
    1 ≤ active (managed s) + sum_over c_last (calls s);
  inv_revoked : published (completion (managed s)) = true → n_revokes s = 0 → revoked g (globals s);
  inv_unrevoked : published (completion (managed s)) = false ∨ n_revokes s ≠ 0 → unrevoked g (globals s);
  inv_result : published (completion (managed s)) = true →
    let b := negb (failed (completion (managed s))) in
    on_observer True (g_says b) (observer s) ∧ on_owner True (g_says b) (owner_task s) ∧
    Forall (c_says b) (calls s) ∧ match done (managed s) with Some b' => b' = b | None => True end;
  inv_observer :
    match observer s with
    | Observing => True
    | ObserverEnds (Dropping ok | Closing ok | Completing ok) => ok = observer_ok s
    | ObserverEnds _ => failed (completion (managed s)) = false → observer_ok s = true
    end }.

Lemma nobody_says b s :
  n_publishes s = 0 →
  on_observer True (g_says b) (observer s) ∧ on_owner True (g_says b) (owner_task s) ∧ Forall (c_says b) (calls s).
Proof.
  unfold n_publishes, weigh. intros H.
  assert (0 ≤ sum_over c_publishes (calls s)) by (apply tally_nonneg; by intros []).
  assert (∀ g, 0 ≤ g_publishes g) as Hg by by intros [].
  assert (0 ≤ on_observer 0 g_publishes (observer s)) by (destruct (observer s); simpl; auto; lia).
  assert (0 ≤ on_owner 0 g_publishes (owner_task s)) by (destruct (owner_task s); simpl; auto; lia).
  split_and!.
  - destruct (observer s) as [|[]]; simpl in *; done || lia.
  - destruct (owner_task s) as [| | | | |[]]; simpl in *; done || lia.
  - assert (sum_over c_publishes (calls s) = 0) as Hz by lia. clear -Hz. induction (calls s) as [|c l IH]; [done|].
    simpl in Hz. assert (0 ≤ sum_over c_publishes l) by (apply tally_nonneg; by intros []).
    constructor; [destruct c; simpl in *; done || lia|]. apply IH. destruct c; simpl in *; lia.
Qed.

(** A call in the list weighs in every sum. *)
Lemma present (l : list CallPc) i c :
  l !! i = Some c →
  c_inside c ≤ sum_over c_inside l ∧ c_last c ≤ sum_over c_last l ∧ c_checks c ≤ sum_over c_checks l ∧
  c_revokes c ≤ sum_over c_revokes l ∧ c_publishes c ≤ sum_over c_publishes l.
Proof. intros H. split_and!; eapply tally_elem; try done; by intros []. Qed.

(** The steps of calls change the list of calls only. *)
Ltac sums :=
  unfold n_inside, n_checks, n_revokes, n_publishes, n_pending, weigh, is_done, set_managed, set_globals,
    set_observer, set_owner_task, set_call, set_gate, set_active, set_cancelled, set_completion, set_done, b2z in *;
  cbn [managed globals observer observer_ok owner_task calls shared generation gate active cancelled completion done
       tasks failed published] in *.
Ltac calls_change :=
  match goal with H : calls ?s !! ?i = Some ?c |- _ =>
    pose proof (present _ _ _ H) as Hpresent; cbn [c_inside c_last c_checks c_revokes c_publishes] in Hpresent;
    rewrite ?(tally_insert c_inside _ _ _ _ H), ?(tally_insert c_last _ _ _ _ H), ?(tally_insert c_checks _ _ _ _ H),
      ?(tally_insert c_revokes _ _ _ _ H), ?(tally_insert c_publishes _ _ _ _ H); cbn [c_inside c_last c_checks c_revokes c_publishes]
  end.

Lemma finish_Some m b m' :
  finish_if_idle m = Some (b, m') →
  tasks (completion m) = 0 ∧ active m = 0 ∧ published (completion m) = false ∧ b = negb (failed (completion m)) ∧
  m' = set_completion (mkCompletion (tasks (completion m)) (failed (completion m)) true) m.
Proof.
  unfold finish_if_idle. destruct (tasks (completion m) =? 0) eqn:E1, (active m =? 0) eqn:E2, (published _) eqn:E3;
    simpl; try done. intros [= <- <-]. split_and!; lia || done.
Qed.
Lemma finish_None m :
  finish_if_idle m = None →
  published (completion m) = false → tasks (completion m) ≠ 0 ∨ active m ≠ 0.
Proof.
  unfold finish_if_idle. intros H Hp. rewrite Hp in H.
  destruct (tasks (completion m) =? 0) eqn:E1, (active m =? 0) eqn:E2; simpl in H; try done; lia.
Qed.

Lemma revoke_unrevoked g gl : unrevoked g gl → revoked g (revoke g gl).
Proof.
  intros (Ho & Hr & Hi). unfold revoke, revoked. rewrite bool_decide_eq_true_2 by done. simpl.
  split_and!; [done| |done]. apply Forall_forall. intros c [_ Hc]%filter_elem_of.
  apply negb_true_iff, bool_decide_eq_false in Hc. done.
Qed.

(** Who revokes also publishes, and publishers are one at most. *)
Lemma publishers (s : ManagedSys) :
  0 ≤ sum_over c_revokes (calls s) ≤ sum_over c_publishes (calls s) ∧
  0 ≤ on_observer 0 g_revokes (observer s) ≤ on_observer 0 g_publishes (observer s) ∧
  0 ≤ on_owner 0 g_revokes (owner_task s) ≤ on_owner 0 g_publishes (owner_task s) ∧
  0 ≤ sum_over c_inside (calls s) ∧ 0 ≤ sum_over c_last (calls s) ≤ sum_over c_checks (calls s) ∧
  0 ≤ on_observer 0 g_checks (observer s) ∧ 0 ≤ on_owner 0 g_checks (owner_task s) ∧
  0 ≤ on_observer 1 g_pending (observer s) ∧ 0 ≤ on_owner 1 g_pending (owner_task s).
Proof.
  assert (∀ f h : CallPc → Z, (∀ c, 0 ≤ f c ≤ h c) → 0 ≤ sum_over f (calls s) ≤ sum_over h (calls s)) as Hc.
  { intros f h Hfh. induction (calls s) as [|c l IH]; simpl; [done|]. pose proof (Hfh c). lia. }
  split_and!; try (apply Hc; by intros []); try (apply tally_nonneg; by intros []);
    try (destruct (observer s) as [|[]]; simpl; lia); destruct (owner_task s) as [| | | | |[]]; simpl; lia.
Qed.

Lemma on_owner_notify {T} (r : T) f o : on_owner r f (notify_waiters o) = on_owner r f o.
Proof. by destruct o. Qed.
Lemma owner_open_notify o : owner_open (notify_waiters o) = owner_open o.
Proof. by destruct o. Qed.

(** All the cases of an internal step, with the guards' steps, and the sums
    before and after. *)
Ltac step_cases Hstep :=
  destruct Hstep as [s i m Hc He|s i Hc He|s i b x b' Hc Hb|s i b Hc Hb|s i Hc|s i success m Hc Hf|s i Hc Hf|s i success Hc
    |s i success Hc|s Hob' Hcan|s gp g' m gl Hob' Hgs|s How Hob'|s success How|s success How|s success woken How Hact
    |s success woken How Hact|s success How|s gp g' m gl How Hgs];
  try (destruct gp as [ok|ok|ok| |success|success|]; simpl in Hgs;
       [..|destruct (finish_if_idle (managed s)) as [[success m']|] eqn:Hf| | |done]; injection Hgs as <- <- <-);
  try (apply finish_Some in Hf as (Hf1 & Hf2 & Hf3 & -> & ->)); try (pose proof (finish_None _ Hf) as Hf');
  try (unfold enter in He; destruct (gate (managed s)) eqn:Eg; [|done]; injection He as <-);
  try (unfold enter in He; destruct (gate (managed s)) eqn:Eg; [done|]; clear He);
  try match goal with |- context [active (managed s) =? 1] =>
    destruct (active (managed s) =? 1) eqn:Elast; [apply Z.eqb_eq in Elast|apply Z.eqb_neq in Elast] end.

Ltac field :=
  unfold return_task in *; sums; try calls_change; rewrite ?on_owner_notify, ?owner_open_notify;
  repeat match goal with H : observer _ = _ |- _ => rewrite H in * | H : owner_task _ = _ |- _ => rewrite H in * end;
  cbn [on_observer on_owner g_pending g_checks g_revokes g_publishes g_open owner_open] in *;
  try lia.

Lemma step_active g s s' : sys_inv g s → internal s s' → active (managed s') = n_inside s'.
Proof.
  intros [Hg Ha Ht Hpub Hq Ho Hl Hw Hr Hu Hres Hob] Hstep. step_cases Hstep; field.
Qed.

Lemma step_tasks g s s' : sys_inv g s → internal s s' → tasks (completion (managed s')) = n_pending s'.
Proof.
  intros [Hg Ha Ht Hpub Hq Ho Hl Hw Hr Hu Hres Hob] Hstep. step_cases Hstep; field.
Qed.

Lemma step_published g s s' :
  sys_inv g s → internal s s' →
  b2z (published (completion (managed s'))) = is_done (managed s') + n_publishes s'.
Proof.
  intros [Hg Ha Ht Hpub Hq Ho Hl Hw Hr Hu Hres Hob] Hstep. pose proof (publishers s) as Hp.
  step_cases Hstep; field; destruct (published (completion (managed s))), (done (managed s)); try done; lia.
Qed.

Lemma gate_pending g s : sys_inv g s → gate (managed s) = true → 1 ≤ tasks (completion (managed s)).
Proof.
  intros [Hg Ha Ht Hpub Hq Ho Hl Hw Hr Hu Hres Hob] Hgate. apply Ho in Hgate as [H _]. rewrite Ht. unfold n_pending.
  pose proof (publishers s). destruct (observer s) as [|[]]; simpl in *; done || lia.
Qed.

Ltac settle := field; try done; try (intuition (congruence || lia)).

Lemma step_quiet g s s' :
  sys_inv g s → internal s s' → published (completion (managed s')) = true →
  gate (managed s') = false ∧ active (managed s') = 0 ∧ tasks (completion (managed s')) = 0.
Proof.
  intros Hinv Hstep Hp'. pose proof (publishers s) as Hp. pose proof (gate_pending g s Hinv) as Hgp.
  destruct Hinv as [Hg Ha Ht Hpub Hq Ho Hl Hw Hr Hu Hres Hob].
  step_cases Hstep; field; destruct (gate (managed s)); try done; settle.
Qed.

Lemma step_open g s s' :
  sys_inv g s → internal s s' → gate (managed s') = true →
  on_observer true g_open (observer s') = true ∧ owner_open (owner_task s') = true.
Proof.
  intros Hinv Hstep Hgate. destruct Hinv as [Hg Ha Ht Hpub Hq Ho Hl Hw Hr Hu Hres Hob].
  step_cases Hstep; settle.
Qed.

Lemma step_live g s s' :
  sys_inv g s → internal s s' → published (completion (managed s')) = false →
  1 ≤ tasks (completion (managed s')) + active (managed s') + n_checks s'.
Proof.
  intros Hinv Hstep Hnp. pose proof (publishers s) as Hp. destruct Hinv as [Hg Ha Ht Hpub Hq Ho Hl Hw Hr Hu Hres Hob].
  step_cases Hstep; settle.
Qed.

Lemma notify_parked o success : notify_waiters o = Parked success false → False.
Proof. by destruct o. Qed.

Lemma step_wake g s s' ok0 :
  sys_inv g s → internal s s' → owner_task s' = Parked ok0 false →
  1 ≤ active (managed s') + sum_over c_last (calls s').
Proof.
  intros Hinv Hstep Hpark. pose proof (publishers s) as Hp. destruct Hinv as [Hg Ha Ht Hpub Hq Ho Hl Hw Hr Hu Hres Hob].
  step_cases Hstep; sums; try (by apply notify_parked in Hpark); try (specialize (Hw _ Hpark)); settle.
Qed.

Lemma step_globals g s s' :
  sys_inv g s → internal s s' →
  (published (completion (managed s')) = true → n_revokes s' = 0 → revoked g (globals s')) ∧
  (published (completion (managed s')) = false ∨ n_revokes s' ≠ 0 → unrevoked g (globals s')).
Proof.
  intros Hinv Hstep. pose proof (publishers s) as Hp. destruct Hinv as [Hg Ha Ht Hpub Hq Ho Hl Hw Hr Hu Hres Hob].
  assert (unrevoked g (globals s) → revoked g (revoke (generation (managed s)) (globals s))) as Hrev
    by (rewrite Hg; apply revoke_unrevoked).
  step_cases Hstep; field; destruct (done (managed s)), (published (completion (managed s))) eqn:Epub; try done; try lia;
    split; intros; try (apply Hrev, Hu; right; lia); try (apply Hu; right; lia); try (apply Hr; [done|lia]);
    try (apply Hu; left; done); intuition (congruence || lia).
Qed.

Lemma step_result g s s' :
  sys_inv g s → internal s s' → published (completion (managed s')) = true →
  let b := negb (failed (completion (managed s'))) in
  on_observer True (g_says b) (observer s') ∧ on_owner True (g_says b) (owner_task s') ∧
  Forall (c_says b) (calls s') ∧ match done (managed s') with Some b' => b' = b | None => True end.
Proof.
  intros Hinv Hstep Hp'. pose proof (publishers s) as Hp. pose proof (λ b, nobody_says b s) as Hnobody.
  destruct Hinv as [Hg Ha Ht Hpub Hq Ho Hl Hw Hr Hu Hres Hob].
  assert (published (completion (managed s)) = true ∨
    published (completion (managed s)) = false ∧ n_publishes s = 0 ∧ done (managed s) = None) as Hcase.
  { destruct (published _) eqn:E; [by left|right]. unfold b2z, is_done, n_publishes, weigh in *.
    destruct (done (managed s)); split_and!; try done; lia. }
  cbv zeta. step_cases Hstep; field; rewrite ?on_owner_notify;
    (destruct Hcase as [Hcase|(Hnp & Hn & Hd)];
      [try congruence; destruct (Hres Hcase) as (H1 & H2 & H3 & H4); try done; destruct (Hq Hcase) as (_ & _ & ?); try lia;
       try (pose proof (Forall_lookup_1 _ _ _ _ H3 Hc) as Hsay)
      |try congruence; destruct (Hnobody (negb (failed (completion (managed s)))) Hn) as (H1 & H2 & H3); rewrite ?Hd]);
    split_and!; try done; by apply Forall_insert.
Qed.

Lemma step_observer g s s' :
  sys_inv g s → internal s s' →
  match observer s' with
  | Observing => True
  | ObserverEnds (Dropping ok | Closing ok | Completing ok) => ok = observer_ok s'
  | ObserverEnds _ => failed (completion (managed s')) = false → observer_ok s' = true
  end.
Proof.
  intros [Hg Ha Ht Hpub Hq Ho Hl Hw Hr Hu Hres Hob] Hstep.
  step_cases Hstep; unfold return_task; sums; try (rewrite Hob' in *); try done;
    try (destruct ok, (failed (completion (managed s))); simpl; congruence).
  destruct (observer s) as [|[]]; try done; rewrite orb_false_iff; naive_solver.
Qed.

Lemma inv_internal g s s' : sys_inv g s → internal s s' → sys_inv g s'.
Proof.
  intros Hinv Hstep. destruct (step_globals g s s' Hinv Hstep) as [Hr Hu].
  assert (generation (managed s') = g) as Hg.
  { pose proof (inv_generation _ _ Hinv) as Hg. clear Hr Hu. step_cases Hstep; unfold return_task; sums; done. }
  split; [done|by eapply step_active|by eapply step_tasks|by eapply step_published|by eapply step_quiet|by eapply step_open
    |by eapply step_live|intros ok; by eapply step_wake|done|done|by eapply step_result|by eapply step_observer].
Qed.

Lemma inv_set_globals g s gl :
  sys_inv g s → (revoked g (globals s) → revoked g gl) → (unrevoked g (globals s) → unrevoked g gl) →
  sys_inv g (set_globals gl s).
Proof.
  intros [Hg Ha Ht Hpub Hq Ho Hl Hw Hr Hu Hres Hob] Hrev Hunrev. split; sums; try done; auto.
Qed.

Lemma revoke_other g g' gl : g' ≠ g →
  (revoked g gl → revoked g (revoke g' gl)) ∧ (unrevoked g gl → unrevoked g (revoke g' gl)).
Proof.
  intros Hne. unfold revoke. case_bool_decide as Ho; [|done]. split.
  - intros (H1 & H2 & H3). split_and!; [done| |done]. apply Forall_forall. intros c [Hc _]%filter_elem_of.
    rewrite Forall_forall in H2. by apply H2.
  - intros (H1 & _). congruence.
Qed.

Lemma inv_external g s s' : sys_inv g s → external s s' → sys_inv g s'.
Proof.
  intros Hinv Hstep. pose proof (publishers s) as Hp. pose proof (gate_pending g s Hinv) as Hgp.
  pose proof Hinv as [Hg Ha Ht Hpub Hq Ho Hl Hw Hr Hu Hres Hob].
  destruct Hstep as [s|s|s Hgate|s Hobs|s success woken How|s c Hc|s g' H1 H2 H3 Hne|s g' Hne|s H1 H2|s x Hx].
  - split; sums; rewrite ?tally_snoc; cbn; rewrite ?Z.add_0_r; try done.
    intros Hpb. destruct (Hres Hpb) as (? & ? & ? & ?). split_and!; [done..| |done]. apply Forall_app. by repeat constructor.
  - split; sums; try done. intros Hpb. split; [done|apply (Hq Hpb)].
  - split; sums; done.
  - split; sums; rewrite ?Hobs in *; cbn in *; done || lia.
  - assert (owner_task s = Parked success woken → gate (managed s) = false) as Hclosed.
    { intros E. destruct (gate (managed s)) eqn:Eg; [|done]. destruct (Ho eq_refl) as [_ Hoo]. by rewrite E in Hoo. }
    split; sums; destruct How as [How|How]; rewrite ?How in *; cbn in *; try done; try lia; specialize (Hclosed eq_refl); congruence.
  - apply inv_set_globals; [done|intros (H1 & H2 & H3)..]; (split_and!; [done| |done]); constructor; try done;
      rewrite ?H1 in Hc; destruct (owner (globals s)); naive_solver.
  - apply inv_set_globals; [done|intros _|intros (H & _); congruence]. split_and!; simpl; [congruence|done|congruence].
  - destruct (revoke_other (generation (managed s)) g' (globals s)) as [Hrev Hunrev]; [done|]. rewrite Hg in *.
    by apply inv_set_globals.
  - apply inv_set_globals; [done|intros (Hown & Hreg & _)|intros (H & _); congruence]. by split_and!.
  - by split; sums.
Qed.

Lemma started_inv g x : sys_inv g (started g x).
Proof. by repeat split. Qed.

Lemma sys_reachable_inv g x s : sys_reachable body_step env_step entry returns g x s → sys_inv g s.
Proof.
  unfold sys_reachable. intros H. apply (rtc_ind_r (sys_inv g)) with (3 := H); [apply started_inv|].
  intros s1 s2 _ [Hs|Hs] Hinv; [by eapply inv_internal|by eapply inv_external].
Qed.

(** ** Termination

    Calls return: their bodies get smaller, and one that has not returned goes on. *)

Context (size : B → nat).
Context (body_smaller : ∀ x b x' b', body_step x b x' b' → (size b' < size b)%nat).
Context (body_goes_on : ∀ x b, returns b = false → ∃ x' b', body_step x b x' b').

Definition c_weight (c : CallPc) : Z :=
  match c with
  | Arrived => 12 + Z.of_nat (size entry)
  | Inside b => 11 + Z.of_nat (size b)
  | LastOut => 10
  | Notified => 5
  | PublishingCall _ => 2
  | AnnouncingCall _ => 1
  | Gone => 0
  end.
Definition g_weight (g : GuardPc) : Z :=
  match g with
  | Dropping _ => 6 | Closing _ => 5 | Completing _ => 4 | Checking => 3
  | Publishing _ => 2 | Announcing _ => 1 | Dropped => 0
  end.
Definition owner_weight (o : OwnerPc) : Z :=
  match o with
  | Awaiting_task => 40 | Awaited _ => 30 | Gate_closed _ => 25
  | Watching _ woken => 12 + 3 * b2z woken
  | Parked _ woken => 11 + 3 * b2z woken
  | OwnerEnds g => g_weight g
  end.
Definition weight (s : ManagedSys) : Z :=
  on_observer 10 g_weight (observer s) + owner_weight (owner_task s) + sum_over c_weight (calls s).

Lemma weight_nonneg s : 0 ≤ weight s.
Proof.
  unfold weight. assert (0 ≤ sum_over c_weight (calls s)) by (apply tally_nonneg; intros []; simpl; lia).
  assert (0 ≤ on_observer 10 g_weight (observer s)) by (destruct (observer s) as [|[]]; simpl; lia).
  assert (0 ≤ owner_weight (owner_task s)) by (destruct (owner_task s) as [| | |? []|? []|[]]; simpl; lia). lia.
Qed.

Lemma notify_weight o : owner_weight (notify_waiters o) ≤ owner_weight o + 3.
Proof. destruct o as [| | |? []|? []|]; simpl; lia. Qed.

Lemma internal_lighter s s' : internal s s' → weight s' < weight s.
Proof.
  intros Hstep. unfold weight. step_cases Hstep; sums;
    try (rewrite (tally_insert c_weight _ _ _ _ Hc)); try (rewrite Hob'); try (rewrite How); cbn; try lia.
  - pose proof (body_smaller _ _ _ _ Hb). lia.
  - pose proof (notify_weight (owner_task s)). lia.
  - destruct woken; simpl; lia.
Qed.

Lemma internal_sn s : sn internal s.
Proof.
  remember (Z.to_nat (weight s)) as n eqn:E. revert s E. induction (lt_wf n) as [n _ IH]. intros s ->.
  constructor. intros s' Hs'. simpl in Hs'. apply internal_lighter in Hs' as Hlt.
  pose proof (weight_nonneg s'). eapply IH; [|reflexivity]. lia.
Qed.

(** The end of a shutdown. *)
Definition shutting_down (s : ManagedSys) : Prop := gate (managed s) = false ∧ cancelled (managed s) = true.

Lemma closing_internal s s' : shutting_down s → internal s s' → shutting_down s'.
Proof. intros [Hg Hc'] Hstep. unfold shutting_down. step_cases Hstep; unfold return_task; sums; done. Qed.

Lemma all_gone s :
  (∀ s', ¬ internal s s') → Forall (λ c, c = Gone) (calls s).
Proof.
  intros Hnf. apply Forall_lookup_2. intros i c Hc. destruct c as [|b| | |ok|ok|]; [..|done]; exfalso.
  - destruct (enter (managed s)) eqn:E; [eapply Hnf, call_enter|eapply Hnf, call_closed]; done.
  - destruct (returns b) eqn:E; [by eapply Hnf, call_leave|].
    destruct (body_goes_on (shared s) b E) as (x & b' & Hb). by eapply Hnf, call_body.
  - by eapply Hnf, call_notify.
  - destruct (finish_if_idle (managed s)) as [[ok m]|] eqn:E; [by eapply Hnf, call_idle|by eapply Hnf, call_busy].
  - by eapply Hnf, call_revoke.
  - by eapply Hnf, call_announce.
Qed.

Lemma guard_goes_on g m gl : g = Dropped ∨ is_Some (guard_step g m gl).
Proof. destruct g; simpl; eauto. right. destruct (finish_if_idle m) as [[]|]; eauto. Qed.

Lemma stuck_done g s :
  sys_inv g s → shutting_down s → (∀ s', ¬ internal s s') → ∃ b, done (managed s) = Some b.
Proof.
  intros Hinv [Hgate Hcan] Hnf. pose proof (all_gone s Hnf) as Hall.
  assert (∀ f : CallPc → Z, f Gone = 0 → sum_over f (calls s) = 0) as Hzero.
  { intros f Hf. clear -Hall Hf. induction Hall as [|c l -> _ IH]; simpl; lia. }
  assert (observer s = ObserverEnds Dropped) as Hobs.
  { destruct (observer s) as [|gp] eqn:E; [exfalso; by eapply Hnf, observer_break|].
    destruct (guard_goes_on gp (managed s) (globals s)) as [->|[[[? ?] ?] Hgs]]; [done|].
    exfalso. by eapply Hnf, observer_guard. }
  destruct Hinv as [Hg Ha Ht Hpub Hq Ho Hl Hw Hr Hu Hres Hob].
  assert (owner_task s = OwnerEnds Dropped) as How.
  { destruct (owner_task s) as [|ok|ok|ok w|ok [|]|gp] eqn:E.
    - exfalso. by eapply Hnf, owner_joins.
    - exfalso. by eapply Hnf, owner_closes.
    - exfalso. by eapply Hnf, owner_cancels.
    - exfalso. destruct (decide (active (managed s) = 0)); [by eapply Hnf, owner_sees_idle|by eapply Hnf, owner_parks].
    - exfalso. by eapply Hnf, owner_wakes.
    - exfalso. specialize (Hw _ eq_refl). rewrite Ha in Hw. unfold n_inside in Hw. rewrite !Hzero in Hw; done.
    - destruct (guard_goes_on gp (managed s) (globals s)) as [->|[[[? ?] ?] Hgs]]; [done|].
      exfalso. by eapply Hnf, owner_guard. }
  unfold n_inside, n_pending, n_checks, n_publishes, weigh, b2z, is_done in *. rewrite Hobs, How in *. cbn in *. rewrite !Hzero in * by done.
  destruct (published _), (done (managed s)) as [b|]; eauto; lia.
Qed.
End laws.
