(* ===== verification/HystrixCommand.v ===== *)
(** * Commands: bulkhead, timeout, fallbacks

    [hystrix]: lib.rs ([Command], [ConcurrentGauge], [run_fn],
    [resolve_fallback]) and fallback.rs.  A call is a thread that interleaves with
    others at every atomic access and every critical section of the statistics;
    it may be dropped while its handler or a local fallback is awaited, and then
    runs the destructors of what it holds.  The handler, the local fallbacks and
    the response type belong to the application.  [tokio::sync::Semaphore] is a
    number of permits, of which the library allows [MAX_PERMITS]; durations are
    milliseconds. *)

From Stdlib Require Import ZArith Lia.
From S2P Require Import Prelude Bytes SagaIdentity HystrixWindow HystrixWindowLaws.
From stdpp Require Import prelude list strings relations.

Local Open Scope Z_scope.
Local Open Scope rust_scope.

(** ** Fallbacks *)

Inductive FallbackCause :=
| BulkheadRejected (max_concurrent current_inflight : Z)
| ExecutionTimeout (timeout elapsed : Z).

Record FallbackContext := mkFallbackContext {
  fc_command : string;
  fc_group : string;
  fc_path : string;
  fc_transaction_weight : option Z;
  fc_cause : FallbackCause }.

Section commands.
Context {Resp Body : Type} (is_server_error : Resp → bool).

Inductive FallbackDecision :=
| Respond (r : Resp)
| UseBuiltin.

(** A handler answers, or panics. *)
Definition GlobalHandler : Type := FallbackContext → option FallbackDecision.

Inductive GlobalFallbackOrigin := Manual | Collected (source : string).
Record GlobalFallbackRuntime := mkFallbackRuntime { fr_handler : GlobalHandler; fr_origin : GlobalFallbackOrigin }.

Inductive GlobalFallbackInstallError :=
| AlreadyInstalled
| ManagedRuntimeActive
| CollectedHandlerPresent (handler : string)
| MultipleCollectedHandlers (handlers : list string)
| ManualHandlerPresent
| CollectedHandlerUnavailable (handler : string).

(** [HYSTRIX_COLLECTED_GLOBAL_FALLBACKS], in the order of the link. *)
Context (linked : list (string * GlobalHandler)).

Fixpoint insert_source (s : string) (l : list string) : list string :=
  match l with
  | [] => [s]
  | t :: l' => if String.leb s t then s :: l else t :: insert_source s l'
  end.
Definition collected_sources : list string := foldr insert_source [] (map fst linked).

Definition install_global_fallback (owned : bool) (handler : GlobalHandler)
    (cell : option GlobalFallbackRuntime)
  : result unit GlobalFallbackInstallError * option GlobalFallbackRuntime :=
  if owned then (Err ManagedRuntimeActive, cell)
  else match collected_sources with
       | [] =>
           match cell with
           | None => (Ok tt, Some (mkFallbackRuntime handler Manual))
           | Some _ => (Err AlreadyInstalled, cell)
           end
       | [source] => (Err (CollectedHandlerPresent source), cell)
       | sources => (Err (MultipleCollectedHandlers sources), cell)
       end.

(** An installed runtime is ours, or in the way. *)
Definition origin_verdict (source : string) (origin : GlobalFallbackOrigin) : result unit GlobalFallbackInstallError :=
  match origin with
  | Collected existing =>
      if String.eqb existing source then Ok tt else Err (MultipleCollectedHandlers collected_sources)
  | Manual => Err ManualHandlerPresent
  end.

(** [initialize_global_fallback]: [seen] is the cell when it is read first, [cell]
    when it is set. *)
Definition initialize_global_fallback (seen cell : option GlobalFallbackRuntime)
  : result unit GlobalFallbackInstallError * option GlobalFallbackRuntime :=
  match collected_sources with
  | [] => (Ok tt, cell)
  | [source] =>
      match seen with
      | Some runtime => (origin_verdict source (fr_origin runtime), cell)
      | None =>
          match find_first (λ entry, String.eqb entry.1 source) linked with
          | None => (Err (CollectedHandlerUnavailable source), cell)
          | Some entry =>
              match cell with
              | None => (Ok tt, Some (mkFallbackRuntime entry.2 (Collected source)))
              | Some runtime => (origin_verdict source (fr_origin runtime), cell)
              end
          end
      end
  | sources => (Err (MultipleCollectedHandlers sources), cell)
  end.

Inductive GlobalFallbackExecution :=
| Handled (r : Resp)
| Execution_UseBuiltin
| NotInstalled
| InvalidFallback
| Panicked
| Recursive.

(** [active] is the thread's mark of a handler under way. *)
Definition execute_global_fallback (seen cell : option GlobalFallbackRuntime) (active : bool)
    (context : FallbackContext) : GlobalFallbackExecution * option GlobalFallbackRuntime :=
  let '(initialized, cell') := initialize_global_fallback seen cell in
  match initialized with
  | Err _ => (InvalidFallback, cell')
  | Ok _ =>
      match cell' with
      | None => (NotInstalled, cell')
      | Some runtime =>
          if active then (Recursive, cell')
          else match fr_handler runtime context with
               | Some (Respond r) => (Handled r, cell')
               | Some UseBuiltin => (Execution_UseBuiltin, cell')
               | None => (Panicked, cell')
               end
      end
  end.

(** ** Commands *)

Record Command := mkCommand {
  c_managed : bool;
  c_admitted : bool;
  c_name : string;
  c_group : string;
  c_max_concurrent : option Z;
  c_timeout : option Z;
  c_tps_weight : option Z;
  c_path : option string;
  c_reject_body : option Body;
  c_timeout_body : option Body;
  c_reject_fb : bool;
  c_timeout_fb : bool }.

Context (MAX_PERMITS : Z).
Definition MAX_COMMAND_TIMEOUT : Z := 365 * 24 * 60 * 60 * 1000.

(** [Command::build]: zero means no limit, extremes are clamped. *)
Definition normalized_limit (max_concurrent : option Z) : option Z :=
  match max_concurrent with Some n => if 0 <? n then Some (Z.min n MAX_PERMITS) else None | None => None end.
Definition normalized_timeout (timeout : option Z) : option Z :=
  match timeout with Some d => if 0 <? d then Some (Z.min d MAX_COMMAND_TIMEOUT) else None | None => None end.

(** The directory of a managed generation: open or not, and its capacity. *)
Definition directory_refuses (owner : bool * Z) (table : list (string * string)) (name group : string)
    (max_concurrent timeout : option Z) : bool :=
  negb owner.1
  || is_empty name || negb (is_trimmed name) || (128 <? len name)
  || is_empty group || negb (is_trimmed group) || (128 <? len group)
  || match max_concurrent with Some limit => 65536 <? limit | None => false end
  || match timeout with Some d => 3600 * 1000 <? d | None => false end
  || (owner.2 <=? Z.of_nat (length table))
  || existsb (λ c, bool_decide (c = (name, group))) table.

(** [Command::build], with the identities of the registry. *)
Definition Command_build (owner : option (bool * Z)) (table : list (string * string)) (name group : string)
    (max_concurrent timeout tps_weight : option Z) : Command * list (string * string) :=
  let limit := normalized_limit max_concurrent in
  let deadline := normalized_timeout timeout in
  let build admitted :=
    mkCommand (bool_decide (is_Some owner)) admitted name group limit deadline tps_weight None None None false false in
  match owner with
  | Some o =>
      if directory_refuses o table name group limit deadline then (build false, table)
      else (build true, table ++ [(name, group)])
  | None => (build true, table ++ [(name, group)])
  end.

(** What a command counts.  A call reads the fallbacks of its command in one step. *)
Record Counts := mkCounts {
  permits : option Z;
  concurrent : Z;
  rolling_max_concurrent : Z;
  stats : Rolling;
  clock : Z;
  fallback_cell : option GlobalFallbackRuntime;
  command : Command;
  recorded_log : Log }.

Inductive Response :=
| Business (r : Resp)
| RejectedShell (name : string) (max : Z)
| TimeoutShell (name : string) (timeout : Z)
| CustomBody (b : Body)
| LocalFallback (r : Resp)
| GlobalFallback (r : Resp).

Definition builtin (c : Command) (cause : FallbackCause) : Response :=
  match cause with
  | BulkheadRejected max _ => RejectedShell (c_name c) max
  | ExecutionTimeout timeout _ => TimeoutShell (c_name c) timeout
  end.

Definition local_fallback (c : Command) (cause : FallbackCause) : bool :=
  match cause with BulkheadRejected _ _ => c_reject_fb c | ExecutionTimeout _ _ => c_timeout_fb c end.
Definition local_body (c : Command) (cause : FallbackCause) : option Body :=
  match cause with BulkheadRejected _ _ => c_reject_body c | ExecutionTimeout _ _ => c_timeout_body c end.

Definition fallback_context (c : Command) (cause : FallbackCause) : FallbackContext :=
  mkFallbackContext (c_name c) (c_group c) (default (c_name c) (c_path c)) (c_tps_weight c) cause.

(** [resolve_fallback], without a local function: what is recorded, and the
    response. *)
Definition resolve_static (c : Command) (cause : FallbackCause) (seen cell : option GlobalFallbackRuntime)
    (active : bool) : FallbackOutcome * Response * option GlobalFallbackRuntime :=
  match local_body c cause with
  | Some body => (Fallback_Success, CustomBody body, cell)
  | None =>
      let '(execution, cell') := execute_global_fallback seen cell active (fallback_context c cause) in
      match execution with
      | Handled r => (Fallback_Success, GlobalFallback r, cell')
      | Execution_UseBuiltin | NotInstalled => (Fallback_Success, builtin c cause, cell')
      | InvalidFallback | Panicked | Recursive => (Fallback_Failure, builtin c cause, cell')
      end
  end.

(** ** One call of [run_fn] *)

(** The main outcome of a call is carried along once it is recorded. *)
Inductive RunPc :=
| Entered                                     (* before the semaphore *)
| Refused                                     (* no permit: before the record *)
| RefusedCounted                              (* before the gauge is read *)
| Granted                                     (* before fetch_add *)
| Raised (cur : Z)                            (* before fetch_max *)
| Executing                                   (* f().await *)
| Returned (result : option Resp)             (* before drop(permit) *)
| Released (result : option Resp)             (* before drop(gauge) *)
| Lowered (result : option Resp)              (* before the record *)
| TimedOut (elapsed : Z)                      (* before resolve_fallback *)
| AwaitingFallback (cause : FallbackCause)    (* fallback().await *)
| Resolved (cause : FallbackCause) (outcome : FallbackOutcome) (r : Response)
                                              (* before record_fallback *)
| Abandoned                                   (* dropped: before fetch_sub *)
| AbandonedLowered                            (* before the record *)
| AbandonedCounted                            (* before the permit is returned *)
| Leaving (main : Outcome) (answer : option Response).

Definition set_permits (p : option Z) (x : Counts) : Counts :=
  mkCounts p (concurrent x) (rolling_max_concurrent x) (stats x) (clock x) (fallback_cell x) (command x) (recorded_log x).
Definition set_concurrent (n : Z) (x : Counts) : Counts :=
  mkCounts (permits x) n (rolling_max_concurrent x) (stats x) (clock x) (fallback_cell x) (command x) (recorded_log x).
Definition set_peak (n : Z) (x : Counts) : Counts :=
  mkCounts (permits x) (concurrent x) n (stats x) (clock x) (fallback_cell x) (command x) (recorded_log x).
Definition set_cell (c : option GlobalFallbackRuntime) (x : Counts) : Counts :=
  mkCounts (permits x) (concurrent x) (rolling_max_concurrent x) (stats x) (clock x) c (command x) (recorded_log x).
(** [stats().record(..)] and [stats().record_fallback(..)]. *)
Definition note (e : Event) (x : Counts) : Counts :=
  mkCounts (permits x) (concurrent x) (rolling_max_concurrent x) (log_event (clock x) e (stats x)) (clock x)
    (fallback_cell x) (command x) (recorded_log x ++ [(clock x, e)]).

Definition main_of (cause : FallbackCause) : Outcome :=
  match cause with BulkheadRejected _ _ => Outcome_Rejected | ExecutionTimeout _ _ => Outcome_Timeout end.
Definition outcome_of (r : Resp) : Outcome := if is_server_error r then Outcome_Failure else Outcome_Success.

Definition release (x : Counts) : Counts := set_permits (Z.add 1 <$> permits x) x.

(** [sem.try_acquire()]. *)
Definition try_acquire (x : Counts) : option Counts :=
  match permits x with
  | None => Some x
  | Some n => if 0 <? n then Some (set_permits (Some (n - 1)) x) else None
  end.

Definition max_limit (x : Counts) : Z := default 0 (c_max_concurrent (command x)).

Inductive run_step : Counts → RunPc → Counts → RunPc → Prop :=
| run_acquires x x' : try_acquire x = Some x' → run_step x Entered x' Granted
| run_refused x : try_acquire x = None → run_step x Entered x Refused
| run_counts_refusal x : run_step x Refused (note (Ended Outcome_Rejected 0) x) RefusedCounted
| run_refusal_local x cause :
    cause = BulkheadRejected (max_limit x) (Z.max (concurrent x) 0) → local_fallback (command x) cause = true →
    run_step x RefusedCounted x (AwaitingFallback cause)
| run_refusal_static x cause seen active o r cell :
    cause = BulkheadRejected (max_limit x) (Z.max (concurrent x) 0) → local_fallback (command x) cause = false →
    (seen = None ∨ seen = fallback_cell x) →
    resolve_static (command x) cause seen (fallback_cell x) active = (o, r, cell) →
    run_step x RefusedCounted (set_cell cell x) (Resolved cause o r)
| run_raises x : run_step x Granted (set_concurrent (concurrent x + 1) x) (Raised (concurrent x + 1))
| run_peaks x cur : run_step x (Raised cur) (set_peak (Z.max (rolling_max_concurrent x) cur) x) Executing
| run_returns x r : run_step x Executing x (Returned (Some r))
| run_elapses x : is_Some (c_timeout (command x)) → run_step x Executing x (Returned None)
| run_abandoned x : run_step x Executing x Abandoned
| run_releases x result : run_step x (Returned result) (release x) (Released result)
| run_lowers x result : run_step x (Released result) (set_concurrent (concurrent x - 1) x) (Lowered result)
| run_counts x r latency :
    run_step x (Lowered (Some r)) (note (Ended (outcome_of r) latency) x) (Leaving (outcome_of r) (Some (Business r)))
| run_counts_timeout x elapsed :
    run_step x (Lowered None) (note (Ended Outcome_Timeout elapsed) x) (TimedOut elapsed)
| run_timeout_local x elapsed cause :
    cause = ExecutionTimeout (default 0 (c_timeout (command x))) elapsed → local_fallback (command x) cause = true →
    run_step x (TimedOut elapsed) x (AwaitingFallback cause)
| run_timeout_static x elapsed cause seen active o r cell :
    cause = ExecutionTimeout (default 0 (c_timeout (command x))) elapsed → local_fallback (command x) cause = false →
    (seen = None ∨ seen = fallback_cell x) →
    resolve_static (command x) cause seen (fallback_cell x) active = (o, r, cell) →
    run_step x (TimedOut elapsed) (set_cell cell x) (Resolved cause o r)
| run_local x cause r : run_step x (AwaitingFallback cause) x (Resolved cause Fallback_Success (LocalFallback r))
| run_local_dropped x cause : run_step x (AwaitingFallback cause) x (Leaving (main_of cause) None)
| run_counts_fallback x cause o r :
    run_step x (Resolved cause o r) (note (FellBack o) x) (Leaving (main_of cause) (Some r))
| run_abandoned_lowers x : run_step x Abandoned (set_concurrent (concurrent x - 1) x) AbandonedLowered
| run_abandoned_counts x : run_step x AbandonedLowered (note (Ended Outcome_Canceled 0) x) AbandonedCounted
| run_abandoned_releases x : run_step x AbandonedCounted (release x) (Leaving Outcome_Canceled None).

Definition leaves (p : RunPc) : bool := match p with Leaving _ _ => true | _ => false end.

(** What happens to a command besides: time passes, the dashboard reads, the
    settings that are made once, other fallback cells being filled. *)
Definition set_once {A} (cell : option A) (v : A) : option A := match cell with Some w => Some w | None => Some v end.
Definition with_command (f : Command → Command) (x : Counts) : Counts :=
  mkCounts (permits x) (concurrent x) (rolling_max_concurrent x) (stats x) (clock x) (fallback_cell x) (f (command x)) (recorded_log x).
Definition set_path (p : string) (c : Command) : Command :=
  mkCommand (c_managed c) (c_admitted c) (c_name c) (c_group c) (c_max_concurrent c) (c_timeout c) (c_tps_weight c)
    (set_once (c_path c) p) (c_reject_body c) (c_timeout_body c) (c_reject_fb c) (c_timeout_fb c).
Definition try_set_reject_response (b : Body) (c : Command) : Command :=
  mkCommand (c_managed c) (c_admitted c) (c_name c) (c_group c) (c_max_concurrent c) (c_timeout c) (c_tps_weight c)
    (c_path c) (set_once (c_reject_body c) b) (c_timeout_body c) (c_reject_fb c) (c_timeout_fb c).
Definition try_set_timeout_response (b : Body) (c : Command) : Command :=
  mkCommand (c_managed c) (c_admitted c) (c_name c) (c_group c) (c_max_concurrent c) (c_timeout c) (c_tps_weight c)
    (c_path c) (c_reject_body c) (set_once (c_timeout_body c) b) (c_reject_fb c) (c_timeout_fb c).
Definition set_reject_fn (c : Command) : Command :=
  mkCommand (c_managed c) (c_admitted c) (c_name c) (c_group c) (c_max_concurrent c) (c_timeout c) (c_tps_weight c)
    (c_path c) (c_reject_body c) (c_timeout_body c) true (c_timeout_fb c).
Definition set_timeout_fn (c : Command) : Command :=
  mkCommand (c_managed c) (c_admitted c) (c_name c) (c_group c) (c_max_concurrent c) (c_timeout c) (c_tps_weight c)
    (c_path c) (c_reject_body c) (c_timeout_body c) (c_reject_fb c) true.

Context (rank : Z → nat → nat).

Inductive counts_env : Counts → Counts → Prop :=
| env_tick x now :
    clock x ≤ now →
    counts_env x (mkCounts (permits x) (concurrent x) (rolling_max_concurrent x) (stats x) now (fallback_cell x) (command x) (recorded_log x))
| env_snapshot x :
    counts_env x (mkCounts (permits x) (concurrent x) (rolling_max_concurrent x) (snapshot rank (clock x) (stats x)).2 (clock x)
                    (fallback_cell x) (command x) (recorded_log x))
| env_request_count x :
    counts_env x (mkCounts (permits x) (concurrent x) (rolling_max_concurrent x) (request_count (clock x) (stats x)).2 (clock x)
                    (fallback_cell x) (command x) (recorded_log x))
| env_path x p : counts_env x (with_command (set_path p) x)
| env_reject_body x b : counts_env x (with_command (try_set_reject_response b) x)
| env_timeout_body x b : counts_env x (with_command (try_set_timeout_response b) x)
| env_reject_fn x : counts_env x (with_command set_reject_fn x)
| env_timeout_fn x : counts_env x (with_command set_timeout_fn x)
| env_cell x runtime : fallback_cell x = None → counts_env x (set_cell (Some runtime) x).

(** A new command. *)
Definition Counts_new (c : Command) (now : Z) : Counts :=
  mkCounts (c_max_concurrent c) 0 0 Rolling_new now None c [].

(** ** Any number of calls of one command *)

Inductive HystrixCall :=
| Called                                      (* before the admission *)
| Running (p : RunPc)
| Unadmitted                                  (* answered 503 *)
| Finished (main : Outcome) (answer : option Response).

Inductive command_step : Counts * list HystrixCall → Counts * list HystrixCall → Prop :=
| pool_call x runs : command_step (x, runs) (x, runs ++ [Called])
| pool_env x x' runs : counts_env x x' → command_step (x, runs) (x', runs)
| pool_enter x runs i :
    runs !! i = Some Called → c_admitted (command x) = true → command_step (x, runs) (x, <[i := Running Entered]> runs)
| pool_unavailable x runs i :
    runs !! i = Some Called → (c_admitted (command x) = false ∨ c_managed (command x) = true) →
    command_step (x, runs) (x, <[i := Unadmitted]> runs)
| pool_run x x' runs i p p' :
    runs !! i = Some (Running p) → run_step x p x' p' → command_step (x, runs) (x', <[i := Running p']> runs)
| pool_leave x runs i main answer :
    runs !! i = Some (Running (Leaving main answer)) → command_step (x, runs) (x, <[i := Finished main answer]> runs).

Definition command_reachable (c : Command) (now : Z) : Counts * list HystrixCall → Prop :=
  rtc command_step (Counts_new c now, []).
End commands.
