(* ===== verification/HystrixCommandLaws.v ===== *)
(** * The accounts of a command

    Permits, the gauge and the statistics, as sums over the calls under way. *)

From Stdlib Require Import ZArith Lia.
From S2P Require Import Prelude HystrixWindow HystrixWindowLaws HystrixManagedLaws HystrixCommand.
From stdpp Require Import prelude list strings relations.

Local Open Scope Z_scope.
Local Open Scope rust_scope.

Section laws.
Context {Resp Body : Type} (is_server_error : Resp → bool).
Context (linked : list (string * @GlobalHandler Resp)) (rank : Z → nat → nat).

Abbreviation Counts := (@Counts Resp Body).
Abbreviation RunPc := (@RunPc Resp Body).
Abbreviation HystrixCall := (@HystrixCall Resp Body).
Abbreviation run_step := (run_step (Body := Body) is_server_error linked).
Abbreviation counts_env := (counts_env (Resp := Resp) (Body := Body) rank).
Abbreviation command_step := (command_step (Body := Body) is_server_error linked rank).

(** ** What a call holds *)

(** A permit, from the semaphore to [drop(permit)]. *)
Definition holds_permit (p : RunPc) : Z :=
  match p with
  | Granted | Raised _ | Executing | Returned _ | Abandoned | AbandonedLowered | AbandonedCounted => 1
  | _ => 0
  end.
(** The gauge, from its increment to its drop. *)
Definition holds_gauge (p : RunPc) : Z :=
  match p with Raised _ | Executing | Returned _ | Released _ | Abandoned => 1 | _ => 0 end.
Definition executes (p : RunPc) : Z := match p with Executing => 1 | _ => 0 end.
(** Between the release of the permit and that of the gauge. *)
Definition outlives (p : RunPc) : Z := match p with Released _ => 1 | _ => 0 end.

(** The main outcome that is recorded for it. *)
Definition run_main (p : RunPc) : option Outcome :=
  match p with
  | RefusedCounted => Some Outcome_Rejected
  | TimedOut _ => Some Outcome_Timeout
  | AwaitingFallback cause | Resolved cause _ _ => Some (main_of cause)
  | AbandonedCounted => Some Outcome_Canceled
  | Leaving main _ => Some main
  | _ => None
  end.
Definition call_main (c : HystrixCall) : option Outcome :=
  match c with Running p => run_main p | Finished main _ => Some main | _ => None end.

Definition of_call (f : RunPc → Z) (c : HystrixCall) : Z := match c with Running p => f p | _ => 0 end.
Definition main_is (o : Outcome) (c : HystrixCall) : Z := if decide (call_main c = Some o) then 1 else 0.

(** How often an outcome was recorded at all. *)
Definition times_recorded (o : Outcome) (log : Log) : Z :=
  Z.of_nat (length (List.filter (λ x, bool_decide (counter_of x.2 = C_Main o)) log)).

(** ** Answers *)

(** What a call answers fits what was recorded for it. *)
Definition answer_fits (main : Outcome) (answer : option (@Response Resp Body)) : Prop :=
  match main, answer with
  | Outcome_Success, Some (Business r) => is_server_error r = false
  | Outcome_Failure, Some (Business r) => is_server_error r = true
  | Outcome_Rejected, Some (RejectedShell _ _ | CustomBody _ | LocalFallback _ | GlobalFallback _) => True
  | Outcome_Timeout, Some (TimeoutShell _ _ | CustomBody _ | LocalFallback _ | GlobalFallback _) => True
  | (Outcome_Rejected | Outcome_Timeout | Outcome_Canceled), None => True
  | _, _ => False
  end.
Definition run_fits (p : RunPc) : Prop :=
  match p with
  | Resolved cause _ r => answer_fits (main_of cause) (Some r)
  | Leaving main answer => answer_fits main answer
  | _ => True
  end.
Definition call_fits (c : HystrixCall) : Prop :=
  match c with Running p => run_fits p | Finished main answer => answer_fits main answer | _ => True end.

Lemma resolve_static_fits c cause seen cell active o r cell' :
  resolve_static linked c cause seen cell active = (o, r, cell') → answer_fits (main_of cause) (Some r).
Proof.
  unfold resolve_static. destruct (local_body c cause) as [b|].
  { intros [= _ <- _]. by destruct cause. }
  destruct (execute_global_fallback _ _ _ _ _) as [[] cell'']; intros [= _ <- _]; by destruct cause.
Qed.

(** ** The invariant *)

Record accounts (c : @Command Body) (x : Counts) (runs : list HystrixCall) : Prop := {
  ac_limit : c_max_concurrent (command x) = c_max_concurrent c;
  ac_permits : match permits x, c_max_concurrent c with
    | Some n, Some limit => 0 ≤ n ∧ n + sum_over (of_call holds_permit) runs = limit
    | None, None => True
    | _, _ => False
    end;
  ac_gauge : concurrent x = sum_over (of_call holds_gauge) runs;
  ac_recorded : ∀ o, times_recorded o (recorded_log x) = sum_over (main_is o) runs;
  ac_fits : Forall call_fits runs;
  ac_window : window_of rank (clock x) (recorded_log x) (stats x) }.

Lemma recorded_snoc o log now e :
  times_recorded o (log ++ [(now, e)]) = times_recorded o log + (if decide (counter_of e = C_Main o) then 1 else 0).
Proof.
  unfold times_recorded. rewrite List.filter_app, length_app, Nat2Z.inj_add. f_equal. simpl.
  destruct (decide _); [by rewrite bool_decide_eq_true_2|by rewrite bool_decide_eq_false_2].
Qed.

Lemma note_window (x : Counts) e :
  window_of rank (clock x) (recorded_log x) (stats x) →
  window_of rank (clock x) (recorded_log (note e x)) (stats (note e x)).
Proof. intros H. by apply window_event with (now := clock x). Qed.

Lemma try_acquire_Some (x : Counts) x' :
  try_acquire x = Some x' →
  x' = x ∧ permits x = None ∨ ∃ n, 0 < n ∧ permits x = Some n ∧ x' = set_permits (Some (n - 1)) x.
Proof.
  unfold try_acquire. destruct (permits x) as [n|]; [|intros [= <-]; by left].
  destruct (0 <? n) eqn:E; [|done]. intros [= <-]. right. exists n. split_and!; [lia|done..].
Qed.

(** The main outcome a step records. *)
Lemma run_step_main x p x' p' o :
  run_step x p x' p' →
  times_recorded o (recorded_log x') - times_recorded o (recorded_log x) =
  (if decide (run_main p' = Some o) then 1 else 0) - (if decide (run_main p = Some o) then 1 else 0).
Proof.
  destruct 1 as [x x' Ha| | | | | | | | | | | | | | | | | | | | |]; simpl; unfold note, set_cell, release; simpl;
    try (apply try_acquire_Some in Ha as [[-> _]|(n & _ & _ & ->)]; simpl); rewrite ?recorded_snoc; subst; simpl;
    repeat destruct (decide _); try lia; congruence.
Qed.

Lemma run_step_window x p x' p' :
  run_step x p x' p' → window_of rank (clock x) (recorded_log x) (stats x) →
  window_of rank (clock x') (recorded_log x') (stats x').
Proof.
  destruct 1 as [x x' Ha| | | | | | | | | | | | | | | | | | | | |]; intros Hw; try done; try exact (note_window _ _ Hw).
  by apply try_acquire_Some in Ha as [[-> _]|(n & _ & _ & ->)].
Qed.

Lemma run_step_fits x p x' p' : run_step x p x' p' → run_fits p → run_fits p'.
Proof.
  destruct 1; simpl; try done; intros Hfit.
  - by eapply resolve_static_fits.
  - unfold outcome_of. by destruct (is_server_error r) eqn:E; simpl; rewrite E.
  - by eapply resolve_static_fits.
  - by destruct cause.
  - by destruct cause.
Qed.

Lemma run_step_gauge x p x' p' :
  run_step x p x' p' → concurrent x' - concurrent x = holds_gauge p' - holds_gauge p.
Proof.
  destruct 1 as [x x' Ha| | | | | | | | | | | | | | | | | | | | |]; simpl; try lia.
  apply try_acquire_Some in Ha as [[-> _]|(n & _ & _ & ->)]; simpl; lia.
Qed.

Lemma run_step_permits x p x' p' :
  run_step x p x' p' →
  command x' = command x ∧
  match permits x, permits x' with
  | Some n, Some n' => n' - n = holds_permit p - holds_permit p' ∧ (0 ≤ n → 0 ≤ n')
  | None, None => True
  | _, _ => False
  end.
Proof.
  destruct 1 as [x x' Ha| | | | | | | | | | | | | | | | | | | | |]; simpl; split; try done;
    try (destruct (permits x); simpl; lia);
    apply try_acquire_Some in Ha as [[-> Hp]|(n & Hn & Hp & ->)]; rewrite ?Hp; simpl; try done; lia.
Qed.

Lemma run_accounts c x runs i p x' p' :
  accounts c x runs → runs !! i = Some (Running p) → run_step x p x' p' →
  accounts c x' (<[i := Running p']> runs).
Proof.
  intros [Hl Hp Hg Hr Hf Hw] Hi Hstep.
  pose proof (run_step_permits _ _ _ _ Hstep) as [Hc Hperm]. pose proof (run_step_gauge _ _ _ _ Hstep) as Hgauge.
  split.
  - by rewrite Hc.
  - rewrite (tally_insert _ _ _ _ _ Hi). simpl.
    destruct (permits x), (permits x'), (c_max_concurrent c); try done; lia.
  - rewrite (tally_insert _ _ _ _ _ Hi). simpl. lia.
  - intros o. rewrite (tally_insert _ _ _ _ _ Hi). pose proof (run_step_main _ _ _ _ o Hstep).
    specialize (Hr o). unfold main_is at 2 3. simpl. lia.
  - apply Forall_insert; [done|]. rewrite Forall_lookup in Hf. specialize (Hf _ _ Hi). by eapply run_step_fits.
  - by eapply run_step_window.
Qed.

(** A call changes hands without a change of the accounts. *)
Lemma same_accounts c x runs i a b :
  accounts c x runs → runs !! i = Some a → (∀ f, of_call f b = of_call f a) ∨
    (of_call holds_permit a = 0 ∧ of_call holds_permit b = 0 ∧ of_call holds_gauge a = 0 ∧ of_call holds_gauge b = 0) →
  call_main b = call_main a → call_fits b → accounts c x (<[i := b]> runs).
Proof.
  intros [Hl Hp Hg Hr Hf Hw] Hi Hsame Hmain Hfit.
  assert (of_call holds_permit b = of_call holds_permit a ∧ of_call holds_gauge b = of_call holds_gauge a) as [E1 E2]
    by (destruct Hsame as [H|?]; [by rewrite !H|lia]).
  split; [done| | | |by apply Forall_insert|done].
  - rewrite (tally_insert _ _ _ _ _ Hi). destruct (permits x), (c_max_concurrent c); try done. lia.
  - rewrite (tally_insert _ _ _ _ _ Hi). lia.
  - intros o. rewrite (tally_insert _ _ _ _ _ Hi), Hr. unfold main_is at 3 4. rewrite Hmain. lia.
Qed.

Lemma env_accounts c x x' runs : counts_env x x' → accounts c x runs → accounts c x' runs.
Proof.
  intros He [Hl Hp Hg Hr Hf Hw]. destruct He; split; try done; simpl.
  - by apply window_wait with (now := clock x).
  - by apply window_snapshot with (now := clock x).
  - by apply window_count with (now := clock x).
Qed.

Lemma pool_accounts c st st' : command_step st st' → accounts c st.1 st.2 → accounts c st'.1 st'.2.
Proof.
  destruct 1 as [x runs|x x' runs He|x runs i Hi Ha|x runs i Hi Ha|x x' runs i p p' Hi Hs|x runs i main answer Hi]; simpl; intros Hac.
  - destruct Hac as [Hl Hp Hg Hr Hf Hw]. split; rewrite ?tally_snoc; simpl; rewrite ?Z.add_0_r; try done.
    + intros o. rewrite tally_snoc, Hr. unfold main_is at 3. simpl. lia.
    + apply Forall_app. by repeat constructor.
  - by eapply env_accounts.
  - eapply same_accounts; [done..| |done|done]. right. done.
  - eapply same_accounts; [done..| |done|done]. right. done.
  - by eapply run_accounts.
  - pose proof (ac_fits _ _ _ Hac) as Hf. rewrite Forall_lookup in Hf. specialize (Hf _ _ Hi).
    eapply same_accounts; [done..| |done|done]. by right.
Qed.

Lemma reachable_accounts c now st :
  (∀ limit, c_max_concurrent c = Some limit → 0 ≤ limit) → 0 ≤ now →
  command_reachable is_server_error linked rank c now st → accounts c st.1 st.2.
Proof.
  intros Hlim Hnow H. unfold command_reachable in H.
  apply (rtc_ind_r (λ st, accounts c st.1 st.2)) with (3 := H).
  - split; simpl; try done; [|by constructor]. destruct (c_max_concurrent c) as [limit|]; [|done].
    specialize (Hlim _ eq_refl). lia.
  - intros s1 s2 _ Hs Hac. by eapply pool_accounts.
Qed.

(** ** A call ends *)

Definition run_size (p : RunPc) : nat :=
  match p with
  | Entered => 12 | Granted => 11 | Raised _ => 10 | Executing => 9 | Returned _ => 8 | Released _ => 7 | Lowered _ => 6
  | Refused => 8 | RefusedCounted => 7
  | TimedOut _ => 5 | AwaitingFallback _ => 4 | Resolved _ _ _ => 3
  | Abandoned => 8 | AbandonedLowered => 7 | AbandonedCounted => 6
  | Leaving _ _ => 0
  end%nat.

Lemma run_step_smaller x p x' p' : run_step x p x' p' → (run_size p' < run_size p)%nat.
Proof. destruct 1; simpl; lia. Qed.

Lemma run_step_goes_on x p : leaves p = false → ∃ x' p', run_step x p x' p'.
Proof.
  destruct p as [| | | |cur| |result|result|result|elapsed|cause|cause o r| | | |main answer]; intros Hl; try done.
  - destruct (try_acquire x) as [x'|] eqn:E; do 2 eexists; [by apply run_acquires|by apply run_refused].
  - do 2 eexists. apply run_counts_refusal.
  - destruct (local_fallback (command x) (BulkheadRejected (max_limit x) (Z.max (concurrent x) 0))) eqn:E.
    + do 2 eexists. by eapply run_refusal_local.
    + destruct (resolve_static linked (command x) (BulkheadRejected (max_limit x) (Z.max (concurrent x) 0))
        (fallback_cell x) (fallback_cell x) false) as [[o r] cell] eqn:Er.
      do 2 eexists. eapply run_refusal_static; [done|done|by right|exact Er].
  - do 2 eexists. apply run_raises.
  - do 2 eexists. apply run_peaks.
  - do 2 eexists. apply run_abandoned.
  - do 2 eexists. apply run_releases.
  - do 2 eexists. apply run_lowers.
  - destruct result as [r|]; do 2 eexists; [by apply (run_counts _ _ _ r 0)|by apply (run_counts_timeout _ _ _ 0)].
  - destruct (local_fallback (command x) (ExecutionTimeout (default 0 (c_timeout (command x))) elapsed)) eqn:E.
    + do 2 eexists. by eapply run_timeout_local.
    + destruct (resolve_static linked (command x) (ExecutionTimeout (default 0 (c_timeout (command x))) elapsed)
        (fallback_cell x) (fallback_cell x) false) as [[o r] cell] eqn:Er.
      do 2 eexists. eapply run_timeout_static; [done|done|by right|exact Er].
  - do 2 eexists. apply run_local_dropped.
  - do 2 eexists. apply run_counts_fallback.
  - do 2 eexists. apply run_abandoned_lowers.
  - do 2 eexists. apply run_abandoned_counts.
  - do 2 eexists. apply run_abandoned_releases.
Qed.
End laws.
