(* ===== verification/HystrixGuarantees.v ===== *)
(** * What commands guarantee

    The statistics of a command, the bulkhead and the accounts of its calls, and
    the end of a managed generation; then a run of each. *)

From Stdlib Require Import ZArith Lia.
From S2P Require Import Prelude HystrixWindow HystrixWindowLaws HystrixManaged HystrixManagedLaws HystrixCommand HystrixCommandLaws.
From stdpp Require Import prelude list strings relations sorting.

Local Open Scope Z_scope.
Local Open Scope rust_scope.

(** ** The window *)

Lemma ordered_length bs lo hi :
  ordered bs → Forall (λ b, lo ≤ b_sec b ≤ hi) bs → lo ≤ hi + 1 → Z.of_nat (length bs) ≤ hi - lo + 1.
Proof.
  intros Ho. revert lo. induction Ho as [|b bs _ IH Hb]; intros lo Hr Hle; [simpl; lia|].
  inversion_clear Hr as [|?? Hb' Hr']. cbn [length]. specialize (IH (b_sec b + 1)).
  assert (Forall (λ x, b_sec b + 1 ≤ b_sec x ≤ hi) bs) as H.
  { rewrite Forall_forall in *. intros x Hx. specialize (Hb x Hx). specialize (Hr' x Hx). lia. }
  specialize (IH H). lia.
Qed.

(** C28. After any history of records and readings on a monotonic clock, a reading
    shows exactly what the complete log has of the last ten seconds: every
    counter, the number of requests, and the statistics of the last five thousand
    latencies; it keeps ten buckets and five thousand latencies at most. *)
Theorem rolling_window_exact rank now log r now' :
  window_of rank now log r → now ≤ now' →
  let floor := Z.max (now' - 9) 0 in
  let seen := snapshot rank now' r in
  (∀ c, window_counter c seen.1 = observed c floor log) ∧
  w_latency seen.1 = from_sorted rank (merge_sort Z.le (map snd (lastn MAX_LATENCIES (samples floor log)))) ∧
  (request_count now' r).1 = requests seen.1 ∧
  Z.of_nat (length (buckets seen.2)) ≤ WINDOW_SECS ∧ (length (latencies seen.2) ≤ MAX_LATENCIES)%nat.
Proof.
  intros Hw Hle floor seen. change floor with (window_floor now'). split_and!.
  - intros c. unfold seen. rewrite snapshot_counter. by eapply evicted_total.
  - unfold seen, snapshot. cbn [fst w_latency]. by erewrite evicted_latencies.
  - rewrite request_count_total. unfold requests, seen.
    rewrite <- (snapshot_counter rank now' r (C_Main Outcome_Success)), <- (snapshot_counter rank now' r (C_Main Outcome_Failure)),
      <- (snapshot_counter rank now' r (C_Main Outcome_Timeout)), <- (snapshot_counter rank now' r (C_Main Outcome_Rejected)),
      <- (snapshot_counter rank now' r (C_Main Outcome_Canceled)). done.
  - destruct (window_tracks _ _ _ _ Hw) as (Hn & f & Hf & Ht). pose proof (window_floor_mono _ _ Hle).
    apply (evict_tracks _ _ _ _ now') in Ht; [|done|lia].
    pose proof (ordered_length _ _ _ (tr_ordered _ _ _ _ Ht) (tr_range _ _ _ _ Ht)) as Hlen.
    pose proof (window_floor_le now'). specialize (Hlen ltac:(lia)).
    change (buckets seen.2) with (buckets (evict now' r)).
    unfold window_floor, u64_saturating_sub, WINDOW_SECS in *. lia.
  - unfold seen, snapshot. cbn [snd]. erewrite evicted_latencies by done. unfold lastn. rewrite length_drop. lia.
Qed.

Section commands.
Context {Resp Body : Type} (is_server_error : Resp → bool).
Context (linked : list (string * @GlobalHandler Resp)) (rank : Z → nat → nat).
Context (MAX_PERMITS : Z).

Lemma normalized_positive m limit :
  1 ≤ MAX_PERMITS → normalized_limit MAX_PERMITS m = Some limit → 1 ≤ limit.
Proof. unfold normalized_limit. destruct m as [n|]; [|done]. destruct (0 <? n) eqn:E; [|done]. intros ? [= <-]. lia. Qed.

Lemma built_limit owner table name group m t w :
  c_max_concurrent (Command_build (Body := Body) MAX_PERMITS owner table name group m t w).1 = normalized_limit MAX_PERMITS m.
Proof. unfold Command_build. destruct owner as [o|]; [|done]. by destruct (directory_refuses _ _ _ _ _ _). Qed.

Lemma tally_le {A} (f g : A → Z) l : (∀ x, f x ≤ g x) → sum_over f l ≤ sum_over g l.
Proof. intros H. induction l as [|x l IH]; simpl; [done|]. pose proof (H x). lia. Qed.

(** C16. However the calls of a command are built, interleaved, timed out and dropped:
    the handlers that run at once never exceed its limit, the permits that are
    out are those of calls under way, the gauge counts the calls that hold it
    (at most the limit and those that have just returned their permit), and when
    no call is under way every permit is back and the gauge is zero. *)
Theorem bulkhead_bounds_execution owner table name group m t w now x runs :
  let c := (Command_build (Body := Body) MAX_PERMITS owner table name group m t w).1 in
  1 ≤ MAX_PERMITS → 0 ≤ now → command_reachable is_server_error linked rank c now (x, runs) →
  concurrent x = sum_over (of_call holds_gauge) runs ∧
  (∀ limit, c_max_concurrent c = Some limit →
     1 ≤ limit ∧ sum_over (of_call executes) runs ≤ limit ∧
     (∃ n, permits x = Some n ∧ 0 ≤ n ∧ n + sum_over (of_call holds_permit) runs = limit) ∧
     concurrent x ≤ limit + sum_over (of_call outlives) runs) ∧
  ((∀ p, Running p ∉ runs) → concurrent x = 0 ∧ permits x = c_max_concurrent c).
Proof.
  intros c Hmax Hnow Hr.
  assert (∀ limit, c_max_concurrent c = Some limit → 1 ≤ limit) as Hpos.
  { intros limit. unfold c. rewrite built_limit. by apply normalized_positive. }
  apply reachable_accounts in Hr as [Hl Hp Hg _ _ _]; [|intros limit H; specialize (Hpos _ H); lia|done]. cbn [fst snd] in *.
  split_and!; [done| |].
  - intros limit E. rewrite E in Hp. destruct (permits x) as [n|]; [|done].
    assert (∀ f : RunPc → Z, (∀ p, f p ≤ holds_permit p) → sum_over (of_call f) runs ≤ sum_over (of_call holds_permit) runs) as Hle.
    { intros f Hf. apply tally_le. intros []; simpl; [lia|apply Hf|lia..]. }
    assert (sum_over (of_call holds_gauge) runs ≤ sum_over (of_call holds_permit) runs + sum_over (of_call outlives) runs).
    { clear. induction runs as [|[|p| |] l IH]; simpl; try lia. destruct p; simpl; lia. }
    split_and!; [by apply Hpos|..].
    + specialize (Hle executes ltac:(by intros [])). lia.
    + exists n. split_and!; [done|lia..].
    + lia.
  - intros Hnone.
    assert (∀ f : RunPc → Z, sum_over (of_call f) runs = 0) as Hz.
    { intros f. clear -Hnone. induction runs as [|a l IH]; [done|]. simpl.
      rewrite IH by (intros p Hin; apply (Hnone p); by right).
      destruct a as [|p| |]; simpl; try lia. exfalso. apply (Hnone p). left. }
    rewrite Hg, Hz. split; [done|]. rewrite Hz in Hp. destruct (permits x), (c_max_concurrent c); try done. f_equal. lia.
Qed.

(** C17. Every call is accounted once: each outcome is recorded exactly as often as
    there are calls that ended so, a call that has finished answers what its
    outcome says (a dropped one nothing), and what the dashboard reads is what
    was recorded in the last ten seconds. *)
Theorem calls_accounted_once c now x runs :
  (∀ limit, c_max_concurrent c = Some limit → 0 ≤ limit) → 0 ≤ now →
  command_reachable (Body := Body) is_server_error linked rank c now (x, runs) →
  (∀ o, times_recorded o (recorded_log x) = sum_over (main_is o) runs) ∧
  (∀ i main answer, runs !! i = Some (Finished main answer) → answer_fits is_server_error main answer) ∧
  (∀ k, window_counter k (snapshot rank (clock x) (stats x)).1 = observed k (Z.max (clock x - 9) 0) (recorded_log x)).
Proof.
  intros Hlim Hnow Hr. apply reachable_accounts in Hr as [_ _ _ Hrec Hf Hw]; [|done..]. cbn [fst snd] in *.
  split_and!; [done| |].
  - intros i main answer Hi. rewrite Forall_lookup in Hf. exact (Hf _ _ Hi).
  - intros k. rewrite snapshot_counter. change (Z.max (clock x - 9) 0) with (window_floor (clock x)). by eapply evicted_total.
Qed.

(** ** The end of a generation *)

Abbreviation managed_reachable :=
  (sys_reachable (run_step (Body := Body) is_server_error linked) (counts_env rank) Entered leaves).
Abbreviation managed_internal := (internal (run_step (Body := Body) is_server_error linked) Entered leaves).

(** C18. When the end of a generation has been published, in any interleaving of calls,
    tasks, destroyed tasks and other generations: its gate is closed, no call is
    inside and no handler runs, the process-wide tables have nothing of it, and
    success means that its observer ended in order. *)
Theorem shutdown_waits_for_calls g x s b :
  managed_reachable g x s → done (managed s) = Some b →
  gate (managed s) = false ∧ active (managed s) = 0 ∧ (∀ i p, calls s !! i ≠ Some (Inside p)) ∧
  revoked g (globals s) ∧ (b = true → observer_ok s = true).
Proof.
  intros Hr Hd. apply sys_reachable_inv in Hr as Hinv. pose proof (publishers s) as Hp.
  destruct Hinv as [Hg Ha Ht Hpub Hq Ho Hl Hw Hrev Hu Hres Hob].
  unfold is_done, n_publishes, weigh, b2z in Hpub. rewrite Hd in Hpub.
  destruct (published _) eqn:Epub; [|lia]. destruct (Hq eq_refl) as (Hgate & Hact & Htasks).
  split_and!; [done|done| | |].
  - intros i p Hi. apply (tally_elem c_inside) in Hi; [|by intros []]. unfold n_inside in Ha. simpl in Hi. lia.
  - apply Hrev; [done|]. unfold n_revokes, weigh. lia.
  - intros ->. destruct (Hres eq_refl) as (_ & _ & _ & Hb). rewrite Hd in Hb.
    assert (failed (completion (managed s)) = false) as Hf by (by destruct (failed _)).
    unfold n_pending in Ht. destruct (observer s) as [|[]]; simpl in *; try lia; by apply Hob.
Qed.

(** C29. A shutdown that was requested ends: if the handlers return and the tasks are
    scheduled, there is no infinite run, and where no thread can go on any more
    the result has been published; no wake-up is lost. *)
Theorem shutdown_completes g x s :
  managed_reachable g x s → shutting_down s →
  sn managed_internal s ∧
  ∀ s', rtc managed_internal s s' → (∀ s'', ¬ managed_internal s' s'') → ∃ b, done (managed s') = Some b.
Proof.
  intros Hr Hc. apply sys_reachable_inv in Hr as Hinv. split.
  - eapply internal_sn, run_step_smaller.
  - intros s' Hrun. induction Hrun as [s|s s1 s2 Hs _ IH]; intros Hnf.
    + eapply stuck_done; [apply run_step_goes_on|done..].
    + apply IH; [eapply rtc_r; [exact Hr|by left]|eapply closing_internal; [exact Hc|exact Hs]| |done].
      eapply inv_internal; [exact (counts_env rank)|exact Hinv|exact Hs].
Qed.
End commands.
