(* ===== verification/HystrixScenario.v ===== *)
(** * Runs of commands

    A response is its status; no global fallback is linked. *)

From Stdlib Require Import ZArith Lia.
From S2P Require Import Prelude HystrixWindow HystrixWindowLaws HystrixManaged HystrixManagedLaws HystrixCommand HystrixCommandLaws HystrixGuarantees.
From stdpp Require Import prelude list strings relations sorting.

Local Open Scope Z_scope.
Local Open Scope rust_scope.

Definition demo_rank (_ : Z) (n : nat) : nat := n.
Definition demo_error (status : Z) : bool := 500 <=? status.
Definition demo_linked : list (string * @GlobalHandler Z) := [].

(** One success at second 3, read at second 5 and at second 13. *)
Definition one_success : Rolling := log_event 3 (Ended Outcome_Success 7) Rolling_new.

Lemma rolling_window_exact_witness :
  w_success (snapshot demo_rank 5 one_success).1 = 1 ∧ w_success (snapshot demo_rank 13 one_success).1 = 0.
Proof.
  assert (window_of demo_rank 3 [(3, Ended Outcome_Success 7)] one_success) as Hw.
  { apply (window_event demo_rank 0 [] Rolling_new 3); [by constructor|lia]. }
  split.
  - exact (proj1 (rolling_window_exact demo_rank 3 _ _ 5 Hw ltac:(lia)) (C_Main Outcome_Success)).
  - exact (proj1 (rolling_window_exact demo_rank 3 _ _ 13 Hw ltac:(lia)) (C_Main Outcome_Success)).
Defined.

(** A command with one permit and two calls: one executes, the other is refused. *)
Definition demo_bulkhead : @Command unit :=
  (Command_build 100 None [] "demo" "demo" (Some 1) (Some 50) None).1.

Definition demo_reachable := command_reachable demo_error demo_linked demo_rank demo_bulkhead 0.

Definition busy : @Counts Z unit * list (@HystrixCall Z unit) :=
  (note (Ended Outcome_Rejected 0) (set_peak 1 (set_concurrent 1 (set_permits (Some 0) (Counts_new demo_bulkhead 0)))),
   [Running Executing; Running RefusedCounted]).

Lemma busy_run : demo_reachable busy.
Proof.
  eapply rtc_l; [apply pool_call|]. eapply rtc_l; [apply pool_call|].
  eapply rtc_l; [by apply (pool_enter _ _ _ _ _ 0)|]. eapply rtc_l; [by apply (pool_enter _ _ _ _ _ 1)|].
  eapply rtc_l; [by eapply (pool_run _ _ _ _ _ _ 0); [|by apply run_acquires]|].
  eapply rtc_l; [by eapply (pool_run _ _ _ _ _ _ 0); [|apply run_raises]|].
  eapply rtc_l; [by eapply (pool_run _ _ _ _ _ _ 0); [|apply run_peaks]|].
  eapply rtc_l; [by eapply (pool_run _ _ _ _ _ _ 1); [|by apply run_refused]|].
  eapply rtc_l; [by eapply (pool_run _ _ _ _ _ _ 1); [|apply run_counts_refusal]|].
  apply rtc_refl.
Qed.

Lemma bulkhead_bounds_execution_witness :
  sum_over (of_call executes) busy.2 ≤ 1 ∧ concurrent busy.1 = sum_over (of_call holds_gauge) busy.2.
Proof.
  destruct (bulkhead_bounds_execution demo_error demo_linked demo_rank 100 None [] "demo" "demo" (Some 1) (Some 50) None
    0 busy.1 busy.2 ltac:(lia) ltac:(lia) busy_run) as (Hg & Hl & _).
  split; [exact (proj1 (proj2 (Hl 1 eq_refl)))|exact Hg].
Defined.

Lemma calls_accounted_once_witness :
  times_recorded Outcome_Rejected (recorded_log busy.1) = 1 ∧
  w_rejected (snapshot demo_rank 0 (stats busy.1)).1 = 1.
Proof.
  destruct (calls_accounted_once demo_error demo_linked demo_rank demo_bulkhead 0 busy.1 busy.2) as (Hr & _ & Hw).
  - intros limit H. injection H as <-. lia.
  - lia.
  - exact busy_run.
  - split; [exact (Hr Outcome_Rejected)|exact (Hw (C_Main Outcome_Rejected))].
Defined.

(** A generation that is shut down while a call arrives. *)
Abbreviation demo_step := (run_step (Body := unit) demo_error demo_linked).
Definition demo_sys : Type := @ManagedSys (@Counts Z unit) (@RunPc Z unit).

Definition shut : demo_sys :=
  set_managed (set_cancelled (set_gate false (ManagedState_new 7)))
    (mkSys (ManagedState_new 7) (mkGlobals (Some 7) [] (Some (Some 7))) Observing false Awaiting_task [Arrived]
       (Counts_new demo_bulkhead 0)).

Lemma shut_run : sys_reachable demo_step (counts_env demo_rank) Entered leaves 7 (Counts_new demo_bulkhead 0) shut.
Proof.
  eapply rtc_l; [right; apply ext_arrive|]. eapply rtc_l; [right; apply ext_shut|].
  eapply rtc_l; [right; by apply ext_cancel|]. apply rtc_refl.
Qed.

Definition ended_sys : demo_sys :=
  mkSys (mkManaged 7 false 0 true (mkCompletion 0 false true) (Some true)) (mkGlobals None [] None)
    (ObserverEnds Dropped) true (OwnerEnds Dropped) [Gone] (Counts_new demo_bulkhead 0).

Ltac tidy :=
  match goal with |- rtc _ ?s _ =>
    let s' := eval cbn [set_call set_managed set_globals set_observer set_owner_task set_gate set_active set_cancelled
      set_completion set_done return_task ManagedState_new managed globals observer observer_ok owner_task calls shared
      generation gate active cancelled completion done tasks failed published shut insert list_insert orb negb Z.sub] in s in
    change s with s' end.
Ltac go c := eapply rtc_l; [left; solve [eapply c; reflexivity]|]; tidy.

Lemma ended_run : sys_reachable demo_step (counts_env demo_rank) Entered leaves 7 (Counts_new demo_bulkhead 0) ended_sys.
Proof.
  unfold sys_reachable. etrans; [exact shut_run|]. unfold shut. tidy.
  eapply rtc_l; [left; by apply (call_closed _ _ _ _ 0)|]. tidy.
  go @observer_break. do 4 go @observer_guard.
  go @owner_joins. go @owner_closes. go @owner_cancels. go @owner_sees_idle.
  do 6 go @owner_guard. apply rtc_refl.
Qed.

Lemma shutdown_waits_for_calls_witness : revoked 7 (globals ended_sys) ∧ observer_ok ended_sys = true.
Proof.
  destruct (shutdown_waits_for_calls demo_error demo_linked demo_rank 7 (Counts_new demo_bulkhead 0) ended_sys true ended_run eq_refl)
    as (_ & _ & _ & Hr & Ho).
  split; [exact Hr|exact (Ho eq_refl)].
Defined.

Lemma shutdown_completes_witness : sn (internal demo_step Entered leaves) shut.
Proof.
  exact (proj1 (shutdown_completes demo_error demo_linked demo_rank 7 (Counts_new demo_bulkhead 0) shut shut_run
    (conj eq_refl eq_refl))).
Defined.
